(* ===== verification/_CoqProject ===== *)
-Q . S2P
Prelude.v
Stateful.v
Text.v
Utf8.v
Net.v
NetFacts.v
Sorting.v
ConfigTypes.v
Codec.v
Names.v
CodecFacts.v
Packet.v
PacketFacts.v
LocalFacts.v
Records.v
Redirects.v
RedirectFacts.v
RecordsFacts.v
WireDnssec.v
WireDnssecFacts.v
Dnssec.v
DnssecFacts.v
CacheX.v
CacheXFacts.v
Cache.v
CacheFacts.v
Routing.v
RoutingFacts.v
SplitDns.v
Edns.v
EdnsFacts.v
Provenance.v
Transport.v
Float.v
Policy.v
Config.v
ConfigFacts.v
NssBackend.v
Llmnr.v
LlmnrFacts.v
Hosts.v
Json.v
JsonFacts.v
StaticRecords.v
HostsFacts.v
StaticFacts.v
Networkd.v
Inflight.v
InflightFacts.v
World.v
WorldFacts.v
Servers.v
Links.v
LinksFacts.v
Exchange.v
Query.v
Lookup.v
Daemon.v
ResolvConf.v
Startup.v
Varlink.v
Dbus.v
ExchangeFacts.v
ResolverInv.v
QueryFacts.v
LookupFacts.v
VarlinkFacts.v
DbusFacts.v
DbusLinkFacts.v
DaemonFacts.v
Client.v
RecordClient.v
RecordClientFacts.v
Sha256Facts.v
Resolvectl.v
ResolvectlFacts.v
