(* ===== verification/Prelude.v ===== *)
(** * systemd-resolved-rs: a verification development

    The program is a DNS resolver daemon: a stub listener answers queries of
    local clients over UDP and TCP, a Varlink and a D-Bus server answer lookups
    and change the DNS settings of links, and all three share one [Resolver],
    which answers from the hosts file, from static records and from a cache, or
    asks the servers of the links and scopes a name belongs to.  This library
    translates its Rust sources (paths below are relative to [src/]) into
    executable definitions and proves what makes them correct.

    ** How the code is modelled

    Integers are [Z] with their width written out where they can wrap; packets
    are lists of octets and strings lists of Unicode scalars ([Text], [Utf8]).  A
    function that returns [Result] is a function into [outcome] (this file), in
    which a panic and a loop without end are values, so that theorems can exclude
    them.  A method on [&mut self] is a function in the monad of [Stateful], which
    keeps the changes made before an error.  Floats are binary64 numbers
    ([Float]), addresses are in [Net], the orders that a [HashMap] leaves open are
    parameters ([Sorting]).

    The shared state of the resolver is the record [Shared] of [World].  A method
    is run by one thread in the monad [rst]; before every critical section an
    environment [Env] may change the shared state as other threads do, and it
    decides what the network, the clock and the operating system yield.  Theorems
    for every environment therefore hold under every interleaving and every
    behaviour of the network.  [WorldFacts] has the program logic for it.

    ** Which file models what

    - The wire format: [Codec] ([src/wire.rs], [wire/codec.rs]), [Packet]
      ([wire/packet.rs], [wire/error_response.rs]), [Records]
      ([wire/records.rs]), [Redirects] ([wire/redirects.rs]), [WireDnssec]
      ([wire/dnssec.rs], [wire/dnssec_records.rs]), [Edns] ([edns.rs]).
    - DNSSEC: [Dnssec] ([dnssec.rs], [dnssec/canonical.rs]); digests and
      signatures, which are foreign code, are arguments.
    - Caches: [CacheX] ([cache_x.rs]) and [Cache] ([cache.rs]).
    - Local answers: [Hosts] ([hosts.rs]), [StaticRecords]
      ([static_records_*.rs]), [Json] ([json.rs]).
    - Configuration and startup: [ConfigTypes], [Config] ([config_*.rs]),
      [Networkd] ([networkd.rs]), [Startup] ([main.rs]), [ResolvConf]
      ([resolvconf_publish.rs]).
    - Routes: [Routing] ([routing.rs]), [SplitDns] ([split_dns.rs]), [Transport]
      ([transport.rs], [tls.rs]), [Policy] ([policy.rs]), [Servers]
      ([resolver_link_specs.rs], [resolver_server_identity.rs], [interface.rs]).
    - The resolver: [World] and [Inflight] ([resolver_prelude.rs],
      [resolver_support.rs]), [Links] ([resolver_methods_01.rs]), [Exchange]
      ([resolver_methods_04.rs], [resolver_edns.rs]), [Query]
      ([resolver_query_on_link.rs], [resolver_methods_03.rs]), [Lookup]
      ([resolver_redirect_follow.rs], [resolver_lookup_*.rs]).
    - Interfaces: [Daemon] ([daemon.rs]), [Varlink] ([varlink*.rs]), [Dbus]
      ([dbus_*.rs]), [NssBackend] ([nss_backend.rs]), [Llmnr]
      ([llmnr/engine.rs]).
    - The command line client: [Client] and [Resolvectl] ([bin/resolvectl.rs],
      [resolvectl_dbus.rs]), [RecordClient] ([bin/resolvectl_rr.rs]).

    A file [XFacts] holds the theorems about the definitions of [X] ([DbusLinkFacts]
    those about the methods of a link in [Dbus]); [Names], [LocalFacts],
    [RedirectFacts], [Provenance] and [ResolverInv] hold theorems
    several of them share.  A definition has the name of the Rust item it
    translates, with a prefix where two modules use the same name; helpers that
    translate the body of a loop are named after the loop.

    ** What the theorems show

    - The wire layer ([Names], [CodecFacts], [PacketFacts], [LocalFacts],
      [RecordsFacts], [RedirectFacts], [WireDnssecFacts], [EdnsFacts]): no reader
      panics or loops on any packet; names are read exactly as RFC 1035 describes
      them; ageing, local answers, EDNS rewriting and the following of
      redirections change or return exactly what they should.
    - Caches ([CacheXFacts], [CacheFacts]): refinement of a map that forgets, the
      capacity is kept, a hit is the answer last stored for the question, aged,
      within its lifetime; an insertion panics exactly when its times overflow.
    - Routes ([RoutingFacts], [SplitDns], [LinksFacts]): a name goes to the scopes
      of its longest matching domain, by whole labels, changes are reported and
      flush the cache, errors leave the state alone (but for a synchronization with
      the kernel that fails half way).
    - The resolver ([ExchangeFacts], [InflightFacts], [QueryFacts],
      [LookupFacts]): under the conditions below every query is answered, by a
      response for the same question; queries for names of a link stay on the link; with strict modes
      nothing goes out in the clear and nothing unsigned comes in; the shared
      state keeps its invariant under every sequence of operations and every
      interleaving; threads that ask the same question share one transaction, and
      the followers get the result of their leader and nothing else.
    - DNSSEC ([DnssecFacts]): the exact conditions under which a signature or a
      delegation is accepted.
    - Interfaces ([VarlinkFacts], [DbusFacts], [DbusLinkFacts], [DaemonFacts],
      [NssBackend]): the messages of a Varlink connection and the queries of a TCP
      client are answered in order until the connection ends, and how it ends; each
      UDP datagram is answered, rejected, refused by full queues or dropped with a
      worker that stops, whatever the interleaving; what is set on a link over the
      bus is what the bus shows; only the clients that may change the state
      do.  An LLMNR query learns exactly the addresses
      of the links that claim the name ([LlmnrFacts]).
    - The client ([RecordClientFacts], [Sha256Facts], [ResolvectlFacts]): run
      against the modelled daemon it shows the records the resolver found and sets
      the servers it was given; its SHA-256 is that of FIPS 180-4.
    - Configuration ([ConfigFacts], [Startup], [HostsFacts], [StaticFacts],
      [JsonFacts]): where settings come from, that what is loaded is valid, and
      that texts are read as they are written.

    ** Fuel and bounds

    Loops that are not structural take fuel, and running out of it is the value
    [Diverge], which the theorems exclude: [read_name] runs on the length of the
    packet, a chain of redirections on its limit of 16 (64 for addresses, 18 for
    rounds of questions), the exchange with a server on the attempt budget of 24,
    the JSON parser on the length of the text.  The loops that wait for other
    parties ([fuel] of [Exchange], [Query] and [Lookup]: the datagrams one UDP
    exchange looks at, the rounds of a follower) are bounded by hypotheses on the
    environment ([query_env], [waits_ok]): while a datagram is awaited the time runs
    out, or receiving fails, within [fuel] datagrams ([receiving_ends]), and a
    follower finds its leader done, and not [fuel] leaders in a row failing.  The
    witnesses run them with concrete environments.

    An [Instant] ends after [2^63] seconds ([INSTANT_END]); the sums the code
    writes with [+] panic beyond that ([instant_add]) and those with
    [checked_add] give none.  The theorems on the whole resolver let the clock
    run to [UPTIME_MAX] and stale answers be kept for [STALE_MAX], of [2^61] and
    [2^62] seconds; the configuration itself has no bound for the latter, and
    [cache_refines_map] shows the panic.  The depth of the stack is not modelled:
    the JSON parser recurses as deep as its text is nested.

    ** Not modelled

    - The foreign code of [ffi/] and [nss/] (system calls, OpenSSL, shared
      memory), except the size of UDP payload of [native.c]; what the resolver
      uses of it is an oracle of the environment or an argument.  The zbus and
      tokio packages, and the vendored macros of zbus.
    - [netlink.rs] and the monitor thread of [networkd.rs]: they wait for the
      kernel and call the operations of [Links].
    - The get-or-fetch path of [cache_x.rs] over a tokio channel, which the daemon
      does not call; accepting connections in [varlink.rs].
    - [landing_glue.rs], [lifecycle.rs], [server_features.rs], [synthetic.rs],
      [supremacy/], [hyper_resolver.rs], [mdns/]: asynchronous alternatives
      that [main.rs] does not start.  [mdns_full.rs], [mdns_runtime.rs],
      [mdns_responder.rs], [dnssd_*.rs] are not part of the build: no module
      includes them.
    - Messages to the log, pauses, and the time that passes in computations. *)

From stdpp Require Export base list strings gmap sorting.
From Stdlib Require Export ZArith Lia Btauto.
From coqutil Require Export Datatypes.RecordSetters.
#[global] Arguments constant {E} newValue _ /.
Export OCamlLikeNotations.
#[export] Set Default Goal Selector "!".
#[global] Open Scope Z_scope.

(** ** Outcomes of fallible code

    A Rust function that returns [Result<A, E>] is a function into
    [outcome E A].  [Ok] and [Err] are the two variants of [Result]; [Panic]
    is an index or slice out of range, and [Diverge] is a loop whose fuel ran
    out, so that both are behaviours theorems can speak about. *)

Inductive outcome (E A : Type) : Type :=
  | Ok (a : A)
  | Err (e : E)
  | Panic
  | Diverge.
Arguments Ok {E A} a.
Arguments Err {E A} e.
Arguments Panic {E A}.
Arguments Diverge {E A}.

#[global] Instance outcome_ret E : MRet (outcome E) := λ A a, Ok a.
#[global] Instance outcome_bind E : MBind (outcome E) := λ A B k m,
  match m with
  | Ok a => k a
  | Err e => Err e
  | Panic => Panic
  | Diverge => Diverge
  end.
#[global] Instance outcome_fmap E : FMap (outcome E) := λ A B f m,
  match m with
  | Ok a => Ok (f a)
  | Err e => Err e
  | Panic => Panic
  | Diverge => Diverge
  end.

#[global] Instance outcome_eq_dec E A `{EqDecision E, EqDecision A} :
  EqDecision (outcome E A).
Proof. solve_decision. Defined.

(** [Option::ok_or]. *)
Definition ok_or {E A} (o : option A) (e : E) : outcome E A :=
  match o with Some a => Ok a | None => Err e end.

(** An index or slice expression: out of range is a panic. *)
Definition or_panic {E A} (o : option A) : outcome E A :=
  match o with Some a => Ok a | None => Panic end.

(** [Result::ok]. *)
Definition to_option {E A} (m : outcome E A) : option A :=
  match m with Ok a => Some a | _ => None end.

(** [Result::map_err] (also the conversion the [?] operator inserts). *)
Definition map_err {E F A} (f : E → F) (m : outcome E A) : outcome F A :=
  match m with
  | Ok a => Ok a
  | Err e => Err (f e)
  | Panic => Panic
  | Diverge => Diverge
  end.

Definition is_ok {E A} (m : outcome E A) : bool :=
  match m with Ok _ => true | _ => false end.

(** [wp m Q]: [m] neither panics nor runs out of fuel, and a value it returns
    satisfies [Q]. *)
Definition wp {E A} (m : outcome E A) (Q : A → Prop) : Prop :=
  match m with
  | Ok a => Q a
  | Err _ => True
  | Panic | Diverge => False
  end.

(** [safe m]: [m] returns a value or an error. *)
Definition safe {E A} (m : outcome E A) : Prop := wp m (λ _, True).

(** [injection] would evaluate the two values. *)
Lemma Ok_inj {E A} (a b : A) : @Ok E A a = Ok b → a = b.
Proof. congruence. Qed.

Section outcome_lemmas.
Context {E A B : Type}.
Implicit Types (m : outcome E A) (k : A → outcome E B).

Lemma bind_Ok m k b : (m ≫= k) = Ok b ↔ ∃ a, m = Ok a ∧ k a = Ok b.
Proof. destruct m; cbn; naive_solver. Qed.

Lemma ok_or_Ok (o : option A) (e : E) a : ok_or o e = Ok a ↔ o = Some a.
Proof. destruct o; cbn; naive_solver. Qed.

Lemma or_panic_Ok (o : option A) a : @or_panic E A o = Ok a ↔ o = Some a.
Proof. destruct o; cbn; naive_solver. Qed.

Lemma wp_bind m k Q : wp m (λ a, wp (k a) Q) → wp (m ≫= k) Q.
Proof. by destruct m. Qed.

Lemma wp_mono m (Q R : A → Prop) : wp m Q → (∀ a, Q a → R a) → wp m R.
Proof. destruct m; cbn; auto. Qed.

Lemma wp_ok_or (o : option A) (e : E) (Q : A → Prop) :
  (∀ a, o = Some a → Q a) → wp (ok_or o e) Q.
Proof. destruct o; cbn; auto. Qed.

Lemma wp_Ok m Q a : wp m Q → m = Ok a → Q a.
Proof. by intros H ->. Qed.

Lemma wp_strengthen m Q : wp m Q → wp m (λ a, m = Ok a ∧ Q a).
Proof. by destruct m; cbn. Qed.

Lemma safe_iff m : safe m ↔ m ≠ Panic ∧ m ≠ Diverge.
Proof. destruct m; cbn; naive_solver. Qed.

Lemma safe_wp m Q : safe m → (∀ a, m = Ok a → Q a) → wp m Q.
Proof. destruct m; cbn; auto. Qed.

Lemma wp_safe m Q : wp m Q → safe m.
Proof. by destruct m. Qed.
End outcome_lemmas.

(** Destruct every successful step of a chain of [?]s. *)
Ltac inv_ok :=
  repeat match goal with
  | H : (_ ≫= _) = Ok _ |- _ =>
      let a := fresh "a" in let H1 := fresh "H" in
      apply bind_Ok in H as (a & H1 & H)
  | H : ok_or _ _ = Ok _ |- _ => apply ok_or_Ok in H
  | H : or_panic _ = Ok _ |- _ => apply or_panic_Ok in H
  | H : Ok _ = Ok _ |- _ => injection H as H; subst
  | H : mret _ = Ok _ |- _ => injection H as H; subst
  | H : Err _ = Ok _ |- _ => discriminate H
  | H : Panic = Ok _ |- _ => discriminate H
  | H : Diverge = Ok _ |- _ => discriminate H
  | H : (if ?b then _ else _) = Ok _ |- _ => destruct b eqn:?
  | H : (let '(_, _) := ?p in _) = Ok _ |- _ => destruct p eqn:?
  end.

(** Turn the boolean tests of the source into propositions. *)
Ltac boolp :=
  repeat match goal with
  | H : (_ && _) = true |- _ => apply andb_true_iff in H as [? ?]
  | H : (_ || _) = false |- _ => apply orb_false_iff in H as [? ?]
  | H : (_ && _) = false |- _ => apply andb_false_iff in H
  | H : (_ || _) = true |- _ => apply orb_true_iff in H
  | H : negb _ = true |- _ => apply negb_true_iff in H
  | H : negb _ = false |- _ => apply negb_false_iff in H
  | H : (_ =? _) = true |- _ => apply Z.eqb_eq in H
  | H : (_ =? _) = false |- _ => apply Z.eqb_neq in H
  | H : (_ <? _) = true |- _ => apply Z.ltb_lt in H
  | H : (_ <? _) = false |- _ => apply Z.ltb_ge in H
  | H : (_ <=? _) = true |- _ => apply Z.leb_le in H
  | H : (_ <=? _) = false |- _ => apply Z.leb_gt in H
  | H : bool_decide _ = true |- _ => apply bool_decide_eq_true in H
  | H : bool_decide _ = false |- _ => apply bool_decide_eq_false in H
  end.

(** ** Machine integers

    Every integer of the source is a [Z]; the operations that can leave the
    range of their type say what happens there. *)

Definition usize_max : Z := 2 ^ 64 - 1.
Definition u8_max : Z := 255.
Definition u16_max : Z := 65535.
Definition u32_max : Z := 4294967295.
Definition u64_max : Z := 2 ^ 64 - 1.
Definition i32_max : Z := 2147483647.

(** [checked_add] at a type whose maximum is [m]. *)
Definition checked_add (m a b : Z) : option Z :=
  if a + b <=? m then Some (a + b) else None.

(** [checked_sub] at an unsigned type. *)
Definition checked_sub (a b : Z) : option Z :=
  if b <=? a then Some (a - b) else None.

Definition saturating_add (m a b : Z) : Z := Z.min m (a + b).
Definition saturating_mul (m a b : Z) : Z := Z.min m (a * b).
Definition saturating_sub (a b : Z) : Z := Z.max 0 (a - b).

(** [Ord::clamp]. *)
Definition clamp (x lo hi : Z) : Z :=
  if x <? lo then lo else if hi <? x then hi else x.

Definition is_u8 (b : Z) : Prop := 0 ≤ b < 256.
Definition is_u16 (v : Z) : Prop := 0 ≤ v < 65536.
Definition is_u32 (v : Z) : Prop := 0 ≤ v < 4294967296.

(** [Instant] and [Duration] are in nanoseconds. *)
Definition second : Z := 1000000000.

(** The seconds of an [Instant] are an [i64]: [Instant::checked_add], and [+],
    which panics where that returns nothing. *)
Definition INSTANT_END : Z := 2 ^ 63 * second.

Definition instant_checked_add (t d : Z) : option Z :=
  if t + d <? INSTANT_END then Some (t + d) else None.

Definition instant_add {E} (t d : Z) : outcome E Z := or_panic (instant_checked_add t d).

(** [from_be_bytes] and [to_be_bytes]. *)
Definition be16 (a b : Z) : Z := a * 256 + b.
Definition be32 (a b c d : Z) : Z := ((a * 256 + b) * 256 + c) * 256 + d.
Definition u16_bytes (v : Z) : list Z := [v / 256; v mod 256].
Definition u32_bytes (v : Z) : list Z :=
  [v / 16777216; (v / 65536) mod 256; (v / 256) mod 256; v mod 256].

(** ** Byte strings and slices *)

Abbreviation bytes := (list Z).

Definition bytes_ok (p : bytes) : Prop := Forall is_u8 p.

Definition len {A} (p : list A) : Z := Z.of_nat (length p).

(** [p.get(i)]. *)
Definition bget {A} (p : list A) (i : Z) : option A :=
  if 0 <=? i then p !! Z.to_nat i else None.

(** [p.get(a..b)]. *)
Definition slice {A} (p : list A) (a b : Z) : option (list A) :=
  if (0 <=? a) && (a <=? b) && (b <=? len p)
  then Some (take (Z.to_nat (b - a)) (drop (Z.to_nat a) p)) else None.

(** [p[a..a + v.len()].copy_from_slice(v)]. *)
Definition splice {A} (p : list A) (a : Z) (v : list A) : option (list A) :=
  if (0 <=? a) && (a + len v <=? len p)
  then Some (take (Z.to_nat a) p ++ v ++ drop (Z.to_nat (a + len v)) p)
  else None.

#[global] Arguments len : simpl never.
#[global] Arguments bget : simpl never.
#[global] Arguments slice : simpl never.
#[global] Arguments splice : simpl never.
#[global] Arguments be16 : simpl never.
#[global] Arguments be32 : simpl never.

Lemma u16_bytes_ok v : is_u16 v → bytes_ok (u16_bytes v).
Proof.
  unfold is_u16, bytes_ok, u16_bytes, is_u8; intros.
  repeat constructor; Z.div_mod_to_equations; lia.
Qed.

Lemma u32_bytes_ok v : is_u32 v → bytes_ok (u32_bytes v).
Proof.
  unfold is_u32, bytes_ok, u32_bytes, is_u8; intros.
  repeat constructor; Z.div_mod_to_equations; lia.
Qed.

Lemma checked_add_Some m a b c :
  checked_add m a b = Some c ↔ c = a + b ∧ a + b ≤ m.
Proof. unfold checked_add; case_match; boolp; naive_solver lia. Qed.

Lemma checked_sub_Some a b c :
  checked_sub a b = Some c ↔ c = a - b ∧ b ≤ a.
Proof. unfold checked_sub; case_match; boolp; naive_solver lia. Qed.

Lemma be16_u16_bytes v : be16 (v / 256) (v mod 256) = v.
Proof. unfold be16; Z.div_mod_to_equations; lia. Qed.

Lemma u16_bytes_be16 a b : is_u8 b → u16_bytes (be16 a b) = [a; b].
Proof.
  unfold is_u8, u16_bytes, be16; intros; repeat f_equal;
    Z.div_mod_to_equations; lia.
Qed.

Lemma be32_u32_bytes v :
  be32 (v / 16777216) ((v / 65536) mod 256) ((v / 256) mod 256) (v mod 256) = v.
Proof. unfold be32; Z.div_mod_to_equations; lia. Qed.

Lemma be16_range a b : is_u8 a → is_u8 b → is_u16 (be16 a b).
Proof. unfold is_u8, is_u16, be16; lia. Qed.

Lemma be32_range a b c d :
  is_u8 a → is_u8 b → is_u8 c → is_u8 d → is_u32 (be32 a b c d).
Proof. unfold is_u8, is_u32, be32; lia. Qed.

Section slices.
Context {A : Type}.
Implicit Types (p q v : list A) (i a b : Z).

Lemma len_nonneg p : 0 ≤ len p.
Proof. unfold len; lia. Qed.

Lemma len_nil : len (@nil A) = 0.
Proof. done. Qed.

Lemma len_cons (x : A) p : len (x :: p) = 1 + len p.
Proof. unfold len; cbn [length]; lia. Qed.

Lemma len_app p q : len (p ++ q) = len p + len q.
Proof. unfold len; rewrite length_app; lia. Qed.

Lemma bget_Some p i x :
  bget p i = Some x → 0 ≤ i < len p ∧ p !! Z.to_nat i = Some x.
Proof.
  unfold bget, len; case_match; [|done]; boolp; intros H0.
  apply lookup_lt_Some in H0 as ?; split; [lia|done].
Qed.

Lemma bget_is_Some p i : 0 ≤ i < len p → is_Some (bget p i).
Proof.
  unfold bget, len; intros; rewrite (proj2 (Z.leb_le 0 i)) by lia.
  apply lookup_lt_is_Some; lia.
Qed.

Lemma bget_None p i : len p ≤ i → bget p i = None.
Proof.
  unfold bget, len; case_match; [|done]; intros; apply lookup_ge_None; lia.
Qed.

Lemma bget_app_l p q i : i < len p → bget (p ++ q) i = bget p i.
Proof.
  unfold bget, len; intros; case_match; [|done]; boolp.
  apply lookup_app_l; lia.
Qed.

Lemma bget_app_r p q i : len p ≤ i → bget (p ++ q) i = bget q (i - len p).
Proof.
  unfold bget, len; intros.
  rewrite !(proj2 (Z.leb_le 0 _)) by lia.
  rewrite lookup_app_r by lia; f_equal; lia.
Qed.

Lemma bget_cons (x : A) p i : 0 < i → bget (x :: p) i = bget p (i - 1).
Proof.
  intros; change (x :: p) with ([x] ++ p).
  rewrite bget_app_r by (rewrite len_cons, len_nil; lia).
  by rewrite len_cons, len_nil.
Qed.

Lemma slice_Some p a b v :
  slice p a b = Some v ↔
  0 ≤ a ≤ b ∧ b ≤ len p ∧ v = take (Z.to_nat (b - a)) (drop (Z.to_nat a) p).
Proof.
  unfold slice; case_match; boolp; split; intros; destruct_and?;
    simplify_eq; try done; naive_solver lia.
Qed.

Lemma slice_len p a b v : slice p a b = Some v → len v = b - a.
Proof.
  intros (? & ? & ->)%slice_Some; unfold len in *.
  rewrite length_take, length_drop; lia.
Qed.

Lemma slice_is_Some p a b : 0 ≤ a ≤ b → b ≤ len p → is_Some (slice p a b).
Proof. intros; eexists; apply slice_Some; split_and!; eauto; lia. Qed.

Lemma slice_app_exact p v q :
  slice (p ++ v ++ q) (len p) (len p + len v) = Some v.
Proof.
  apply slice_Some; pose proof (len_nonneg p); pose proof (len_nonneg v).
  rewrite !len_app; pose proof (len_nonneg q); split_and!; try lia.
  unfold len; rewrite Nat2Z.id, drop_app_length.
  replace (Z.to_nat _) with (length v) by lia; by rewrite take_app_length.
Qed.

Lemma slice_decompose p a b v :
  slice p a b = Some v →
  p = take (Z.to_nat a) p ++ v ++ drop (Z.to_nat b) p ∧
  len (take (Z.to_nat a) p) = a.
Proof.
  intros (? & ? & ->)%slice_Some; unfold len in *; split.
  - rewrite <- (take_drop (Z.to_nat a) p) at 1; f_equal.
    rewrite <- (take_drop (Z.to_nat (b - a)) (drop _ p)) at 1; f_equal.
    rewrite drop_drop; f_equal; lia.
  - rewrite length_take; lia.
Qed.

Lemma splice_Some p a v q :
  splice p a v = Some q →
  0 ≤ a ∧ a + len v ≤ len p ∧
  q = take (Z.to_nat a) p ++ v ++ drop (Z.to_nat (a + len v)) p.
Proof. unfold splice; case_match; boolp; intros; by simplify_eq. Qed.

Lemma splice_is_Some p a v :
  0 ≤ a → a + len v ≤ len p → is_Some (splice p a v).
Proof.
  intros; unfold splice.
  rewrite !(proj2 (Z.leb_le _ _)) by done; by eexists.
Qed.

Lemma splice_len p a v q : splice p a v = Some q → len q = len p.
Proof.
  intros (? & ? & ->)%splice_Some; unfold len in *.
  rewrite !length_app, length_take, length_drop; lia.
Qed.

Lemma bget_splice_out p a v q i :
  splice p a v = Some q → i < a ∨ a + len v ≤ i → bget q i = bget p i.
Proof.
  intros (? & ? & ->)%splice_Some Hi; unfold bget, len in *.
  case_match; [|done]; boolp; destruct Hi.
  - rewrite lookup_app_l by (rewrite length_take; lia).
    by rewrite lookup_take_lt by lia.
  - rewrite lookup_app_r by (rewrite length_take; lia).
    rewrite lookup_app_r by (rewrite length_take; lia).
    rewrite lookup_drop, length_take; f_equal; lia.
Qed.

Lemma bget_splice_in p a v q i :
  splice p a v = Some q → a ≤ i < a + len v → bget q i = bget v (i - a).
Proof.
  intros (? & ? & ->)%splice_Some Hi; unfold bget, len in *.
  rewrite !(proj2 (Z.leb_le 0 _)) by lia.
  rewrite lookup_app_r by (rewrite length_take; lia).
  rewrite lookup_app_l by (rewrite length_take; lia).
  rewrite length_take; f_equal; lia.
Qed.
End slices.

Lemma u16_bytes_len v : len (u16_bytes v) = 2.
Proof. done. Qed.

Lemma u32_bytes_len v : len (u32_bytes v) = 4.
Proof. done. Qed.

Lemma len_replicate {A} n (x : A) : len (replicate n x) = Z.of_nat n.
Proof. unfold len; by rewrite length_replicate. Qed.

Lemma len_fmap {A B} (f : A → B) (l : list A) : len (f <$> l) = len l.
Proof. unfold len; by rewrite length_fmap. Qed.



(** Lengths of byte strings built by the encoders. *)
Create HintDb len.
#[export] Hint Rewrite @len_app @len_cons @len_nil @len_replicate @len_fmap
  u16_bytes_len u32_bytes_len : len.
Ltac len_lia := autorewrite with len in *; unfold len in *; lia.

Lemma bytes_ok_bget p i x : bytes_ok p → bget p i = Some x → is_u8 x.
Proof.
  intros Hp [_ Hx]%bget_Some; by eapply Forall_lookup_1 in Hx.
Qed.

Lemma bytes_ok_slice p a b v : bytes_ok p → slice p a b = Some v → bytes_ok v.
Proof.
  intros Hp (_ & _ & ->)%slice_Some; by apply Forall_take, Forall_drop.
Qed.

Lemma bytes_ok_app p q : bytes_ok (p ++ q) ↔ bytes_ok p ∧ bytes_ok q.
Proof. apply Forall_app. Qed.

Lemma bytes_ok_splice p a v q :
  bytes_ok p → bytes_ok v → splice p a v = Some q → bytes_ok q.
Proof.
  intros Hp Hv (_ & _ & ->)%splice_Some.
  rewrite !bytes_ok_app; split_and!; [by apply Forall_take|done|].
  by apply Forall_drop.
Qed.

(** Slices agree when the bytes they cover agree. *)
Lemma slice_ext' {A} (p q : list A) a b :
  (b ≤ len p ↔ b ≤ len q) → (∀ i, a ≤ i < b → bget p i = bget q i) →
  slice p a b = slice q a b.
Proof.
  intros Hlen Hi; unfold slice.
  assert ((b <=? len p) = (b <=? len q)) as ->.
  { apply Bool.eq_iff_eq_true; by rewrite !Z.leb_le. }
  case_match; [|done]; boolp.
  f_equal; apply list_eq; intros i.
  destruct (decide (i < Z.to_nat (b - a))%nat).
  - rewrite !lookup_take_lt, !lookup_drop by done.
    specialize (Hi (a + Z.of_nat i) ltac:(lia)); unfold bget in Hi.
    rewrite (proj2 (Z.leb_le 0 _)) in Hi by lia.
    replace (Z.to_nat (a + Z.of_nat i)) with (Z.to_nat a + i)%nat in Hi by lia; done.
  - rewrite !lookup_take_ge by lia; done.
Qed.

Lemma slice_ext {A} (p q : list A) a b :
  len p = len q → (∀ i, a ≤ i < b → bget p i = bget q i) →
  slice p a b = slice q a b.
Proof. intros Hlen; apply slice_ext'; by rewrite Hlen. Qed.

(** A slice from the start keeps the bytes below its end. *)
Lemma bget_slice0 {A} (p v : list A) b i :
  slice p 0 b = Some v → i < b → bget v i = bget p i.
Proof.
  intros (? & ? & ->)%slice_Some Hi; unfold bget; case_match; [|done]; boolp.
  rewrite drop_0, lookup_take_lt by lia; done.
Qed.

(** ** Bits of 16-bit integers *)

Lemma u16_land x : is_u16 x ↔ Z.land x u16_max = x.
Proof.
  unfold is_u16, u16_max; change 65535 with (Z.ones 16).
  rewrite Z.land_ones by lia; change (2 ^ 16) with 65536.
  split; [apply Z.mod_small|intros <-; by apply Z.mod_pos_bound].
Qed.

Lemma is_u16_lor a b : is_u16 a → is_u16 b → is_u16 (Z.lor a b).
Proof. rewrite !u16_land, Z.land_lor_distr_l; by intros -> ->. Qed.

Lemma is_u16_ldiff a b : is_u16 a → is_u16 (Z.ldiff a b).
Proof.
  rewrite !u16_land, Z.ldiff_land; intros Ha.
  by rewrite <- Z.land_assoc, (Z.land_comm (Z.lnot b)), Z.land_assoc, Ha.
Qed.

(** Masking commutes with setting and clearing constant bits. *)
Lemma land_set_clear f set clear add mask :
  Z.land (Z.lor (Z.ldiff (Z.lor f set) clear) add) mask =
  Z.lor (Z.land f (Z.ldiff mask clear))
        (Z.land (Z.lor (Z.ldiff set clear) add) mask).
Proof.
  rewrite !Z.ldiff_land, !Z.land_lor_distr_l, <- !Z.land_assoc, Z.lor_assoc.
  by rewrite (Z.land_comm mask).
Qed.

Lemma elem_of_bfilter {A} (f : A → bool) l x :
  x ∈ List.filter f l ↔ x ∈ l ∧ f x = true.
Proof. by rewrite !list_elem_of_In, List.filter_In. Qed.
