(* ===== verification/Stateful.v ===== *)
(** * Methods on [&mut self]

    A method that changes its receiver and returns a [Result] is a function in
    the monad [st]: state changes made before an error stay. *)

From S2P Require Import Prelude.

Definition st (S E A : Type) : Type := S → outcome E A * S.

#[global] Instance st_ret S E : MRet (st S E) := λ A a s, (Ok a, s).
#[global] Instance st_bind S E : MBind (st S E) := λ A B k m s,
  match m s with
  | (Ok a, s) => k a s
  | (Err e, s) => (Err e, s)
  | (Panic, s) => (Panic, s)
  | (Diverge, s) => (Diverge, s)
  end.

(** An expression that does not touch the state. *)
Definition lift {S E A} (m : outcome E A) : st S E A := λ s, (m, s).
Definition fail {S E A} (e : E) : st S E A := λ s, (Err e, s).
Definition get {S E} : st S E S := λ s, (Ok s, s).
Definition put {S E} (s : S) : st S E unit := λ _, (Ok (), s).
Definition modify {S E} (f : S → S) : st S E unit := λ s, (Ok (), f s).

(** The error of a method converted by [?] or [map_err]. *)
Definition st_map_err {S E F A} (f : E → F) (m : st S E A) : st S F A := λ s,
  let '(r, s) := m s in (map_err f r, s).

(** A method of a part of the state. *)
Definition zoom {S T E A} (view : S → T) (update : S → T → S) (m : st T E A) : st S E A := λ s,
  let '(r, t) := m (view s) in (r, update s t).

(** The value or error of a method, as a value: [match self.f() { ... }]. *)
Definition attempt {S E F A} (m : st S E A) : st S F (outcome E A) := λ s,
  match m s with
  | (Ok a, s) => (Ok (Ok a), s)
  | (Err e, s) => (Ok (Err e), s)
  | (Panic, s) => (Panic, s)
  | (Diverge, s) => (Diverge, s)
  end.

(** [for x in l { f(x)? }]. *)
Fixpoint for_each {S E A} (l : list A) (f : A → st S E unit) : st S E unit :=
  match l with
  | [] => mret ()
  | x :: l => _ ← f x; for_each l f
  end.

(** [swp m s Q R]: run from [s], [m] does not panic or run out of fuel, a value
    and the state it leaves satisfy [Q], an error and its state [R]. *)
Definition swp {S E A} (m : st S E A) (s : S) (Q : A → S → Prop) (R : E → S → Prop) : Prop :=
  match m s with
  | (Ok a, s) => Q a s
  | (Err e, s) => R e s
  | (Panic, _) | (Diverge, _) => False
  end.

Section swp_lemmas.
Context {S E A B : Type}.
Implicit Types (m : st S E A) (k : A → st S E B) (s : S).

Lemma swp_bind m k s Q R : swp m s (λ a s, swp (k a) s Q R) R → swp (m ≫= k) s Q R.
Proof. unfold swp, mbind, st_bind; by destruct (m s) as [[] ?]. Qed.

Lemma swp_ret (a : A) s (Q : A → S → Prop) (R : E → S → Prop) : Q a s → swp (mret a) s Q R.
Proof. done. Qed.

Lemma swp_fail (e : E) s (Q : A → S → Prop) R : R e s → swp (fail e) s Q R.
Proof. done. Qed.

Lemma swp_lift (r : outcome E A) s (Q : A → S → Prop) (R : E → S → Prop) :
  wp r (λ a, Q a s) → (∀ e, r = Err e → R e s) → swp (lift r) s Q R.
Proof. destruct r; cbn; auto. Qed.

Lemma swp_mono m s (Q Q' : A → S → Prop) (R R' : E → S → Prop) :
  swp m s Q R → (∀ a s, Q a s → Q' a s) → (∀ e s, R e s → R' e s) → swp m s Q' R'.
Proof. unfold swp; destruct (m s) as [[] ?]; auto. Qed.

Lemma swp_attempt {F} m s (Q : outcome E A → S → Prop) (R : F → S → Prop) :
  swp m s (λ a, Q (Ok a)) (λ e, Q (Err e)) → swp (attempt m) s Q R.
Proof. unfold swp, attempt; by destruct (m s) as [[] ?]. Qed.

Lemma swp_map_err {F} (f : E → F) m s (Q : A → S → Prop) (R : F → S → Prop) :
  swp m s Q (λ e, R (f e)) → swp (st_map_err f m) s Q R.
Proof. unfold swp, st_map_err; by destruct (m s) as [[] ?]. Qed.

Lemma swp_get s (Q : S → S → Prop) (R : E → S → Prop) : Q s s → swp get s Q R.
Proof. done. Qed.

Lemma swp_put s' s (Q : unit → S → Prop) (R : E → S → Prop) : Q () s' → swp (put s') s Q R.
Proof. done. Qed.

Lemma swp_modify f s (Q : unit → S → Prop) (R : E → S → Prop) : Q () (f s) → swp (modify f) s Q R.
Proof. done. Qed.

Lemma swp_Ok m s s' a Q R : swp m s Q R → m s = (Ok a, s') → Q a s'.
Proof. unfold swp; intros H Hm; by rewrite Hm in H. Qed.
End swp_lemmas.

(** An invariant of each step of a loop is one of the loop. *)
Lemma swp_for_each {S E A} (I : S → Prop) (l : list A) (f : A → st S E unit) s :
  (∀ x s, x ∈ l → I s → swp (f x) s (λ _, I) (λ _, I)) → I s →
  swp (for_each l f) s (λ _, I) (λ _, I).
Proof.
  revert s; induction l as [|x l IH]; intros s Hf Hs; [done|]; cbn [for_each].
  apply swp_bind; eapply swp_mono; [apply Hf; [by left|done]| |done].
  intros [] s' Hs'; apply IH; [|done]; intros y t Hy; apply Hf; by right.
Qed.

(** [keeps I m]: [m] keeps the invariant [I] of the state, whatever it
    returns. *)
Definition keeps {S E A} (I : S → Prop) (m : st S E A) : Prop := ∀ s, I s → I (m s).2.

Section keeps_lemmas.
Context {S E : Type} (I : S → Prop).

Lemma keeps_ret {A} (a : A) : keeps I (mret (M := st S E) a).
Proof. by intros s. Qed.

Lemma keeps_fail {A} (e : E) : keeps I (fail (A := A) e).
Proof. by intros s. Qed.

Lemma keeps_lift {A} (r : outcome E A) : keeps I (lift r).
Proof. by intros s. Qed.

Lemma keeps_get : keeps I (get (E := E)).
Proof. by intros s. Qed.

Lemma keeps_put s : I s → keeps I (put (E := E) s).
Proof. by intros Hs s'. Qed.

Lemma keeps_modify f : (∀ s, I s → I (f s)) → keeps I (modify (E := E) f).
Proof. intros H s; apply H. Qed.

Lemma keeps_bind {A B} (m : st S E A) (k : A → st S E B) :
  keeps I m → (∀ a, keeps I (k a)) → keeps I (m ≫= k).
Proof.
  intros Hm Hk s Hs; specialize (Hm s Hs); unfold mbind, st_bind.
  destruct (m s) as [[a|e| |] s']; [by apply Hk|done..].
Qed.

Lemma keeps_for_each {A} (l : list A) (f : A → st S E unit) :
  (∀ x, x ∈ l → keeps I (f x)) → keeps I (for_each l f).
Proof.
  induction l as [|x l IH]; intros Hf; cbn [for_each]; [apply keeps_ret|].
  apply keeps_bind; [apply Hf; by left|]; intros _; apply IH; intros y Hy; apply Hf; by right.
Qed.

Lemma keeps_map_err {F A} (f : E → F) (m : st S E A) : keeps I m → keeps I (st_map_err f m).
Proof.
  intros Hm s Hs; specialize (Hm s Hs); unfold st_map_err; by destruct (m s) as [r s'].
Qed.

Lemma keeps_attempt {F A} (m : st S E A) : keeps I m → keeps I (attempt (F := F) m).
Proof.
  intros Hm s Hs; specialize (Hm s Hs); unfold attempt; by destruct (m s) as [[] s'].
Qed.

Lemma keeps_zoom {T A} (J : T → Prop) view update (m : st T E A) :
  keeps J m → (∀ s, I s → J (view s)) → (∀ s t, I s → J t → I (update s t)) →
  keeps I (zoom view update m).
Proof.
  intros Hm Hv Hu s Hs; unfold zoom; specialize (Hm (view s) (Hv s Hs)).
  destruct (m (view s)) as [r t]; by apply Hu.
Qed.
End keeps_lemmas.

Create HintDb keeps discriminated.
#[export] Hint Resolve keeps_ret keeps_fail keeps_lift keeps_get keeps_modify keeps_bind
  keeps_for_each keeps_map_err keeps_attempt : keeps.

Lemma st_bind_Ok {S E A B} (m : st S E A) (k : A → st S E B) s b s' :
  (m ≫= k) s = (Ok b, s') → ∃ a s1, m s = (Ok a, s1) ∧ k a s1 = (Ok b, s').
Proof. unfold mbind, st_bind; destruct (m s) as [[] s1]; intros H; try done; eauto. Qed.

Lemma lift_Ok {S E A} (r : outcome E A) (s s' : S) a : lift r s = (Ok a, s') → r = Ok a ∧ s' = s.
Proof. by intros [= -> ->]. Qed.

(** Destruct every successful step of a method. *)
Ltac inv_st :=
  repeat match goal with
  | H : (_ ≫= _) ?s = (Ok _, _) |- _ =>
      let a := fresh "a" in let s1 := fresh "s" in let H1 := fresh "H" in
      apply st_bind_Ok in H as (a & s1 & H1 & H)
  | H : lift _ _ = (Ok _, _) |- _ =>
      let H1 := fresh "H" in apply lift_Ok in H as [H1 H]; subst
  | H : get ?s = (Ok ?a, ?s') |- _ =>
      assert (a = s) by (by injection H); assert (s' = s) by (by injection H); subst; clear H
  end.
