(* ===== verification/Text.v ===== *)
(** * Rust strings

    A [str] or [String] of the source is the list of its Unicode scalar values;
    [str_len] and [as_bytes] are its UTF-8 length and encoding.  The file
    models the operations of the standard library's [str] the resolver uses
    ([trim], [split], [join], [strip_prefix], [to_ascii_lowercase], decimal
    printing and parsing, ...) and proves the lemmas the components share. *)

From S2P Require Import Prelude.

Abbreviation str := (list Z).

(** Its elements are Unicode scalar values. *)
Definition str_ok (s : str) : Prop := Forall (λ c, 0 ≤ c < 0x110000) s.

Definition str_okb (s : str) : bool := forallb (λ c, (0 <=? c) && (c <? 0x110000)) s.

Lemma str_okb_ok s : str_okb s = true → str_ok s.
Proof.
  unfold str_okb; rewrite forallb_forall; intros H; apply Forall_forall; intros c Hc.
  apply list_elem_of_In, H in Hc; by boolp.
Qed.

(** String literals. *)
Definition lit (s : string) : str :=
  (λ a, Z.of_N (Ascii.N_of_ascii a)) <$> String.list_ascii_of_string s.

Definition dot : Z := 46.

(** ** UTF-8 *)

Definition char_len (c : Z) : Z :=
  if c <? 128 then 1 else if c <? 2048 then 2 else if c <? 65536 then 3 else 4.

Definition char_bytes (c : Z) : bytes :=
  if c <? 128 then [c]
  else if c <? 2048 then [192 + c / 64; 128 + c mod 64]
  else if c <? 65536 then
    [224 + c / 4096; 128 + (c / 64) mod 64; 128 + c mod 64]
  else [240 + c / 262144; 128 + (c / 4096) mod 64;
        128 + (c / 64) mod 64; 128 + c mod 64].

(** [str::len]. *)
Definition str_len (s : str) : Z := foldr (λ c n, char_len c + n) 0 s.

(** [str::as_bytes]. *)
Definition as_bytes (s : str) : bytes := s ≫= char_bytes.

(** [str::is_ascii]. *)
Definition is_ascii (s : str) : bool := forallb (λ c, (0 <=? c) && (c <? 128)) s.

(** ** Case *)

Definition lower_char (c : Z) : Z :=
  if (65 <=? c) && (c <=? 90) then c + 32 else c.

(** [str::to_ascii_lowercase], and [u8::to_ascii_lowercase] on each byte. *)
Definition to_ascii_lowercase (s : str) : str := lower_char <$> s.

(** [str::eq_ignore_ascii_case]. *)
Definition eq_ignore_ascii_case (s t : str) : bool :=
  bool_decide (to_ascii_lowercase s = to_ascii_lowercase t).

(** ** Splitting and joining *)

(** [s.split(c)]: always at least one piece. *)
Fixpoint split_on (c : Z) (s : str) : list str :=
  match s with
  | [] => [[]]
  | x :: s' =>
      if x =? c then [] :: split_on c s'
      else match split_on c s' with
           | [] => [[x]]
           | piece :: rest => (x :: piece) :: rest
           end
  end.

(** [s.split_once(c)]. *)
Fixpoint split_once (c : Z) (s : str) : option (str * str) :=
  match s with
  | [] => None
  | x :: s' =>
      if x =? c then Some ([], s')
      else (λ p : str * str, (x :: p.1, p.2)) <$> split_once c s'
  end.

(** [s.contains(c)]. *)
Definition contains_char (c : Z) (s : str) : bool := existsb (Z.eqb c) s.

(** [pieces.join(sep)]. *)
Fixpoint join_with (sep : str) (pieces : list str) : str :=
  match pieces with
  | [] => []
  | [piece] => piece
  | piece :: rest => piece ++ sep ++ join_with sep rest
  end.

(** ** Prefixes, suffixes and trimming *)

Fixpoint strip_prefix (pre s : str) : option str :=
  match pre, s with
  | [], _ => Some s
  | x :: pre', y :: s' => if x =? y then strip_prefix pre' s' else None
  | _ :: _, [] => None
  end.

Definition starts_with (s pre : str) : bool :=
  bool_decide (is_Some (strip_prefix pre s)).

Definition strip_suffix (s suf : str) : option str :=
  reverse <$> strip_prefix (reverse suf) (reverse s).

Definition ends_with (s suf : str) : bool :=
  bool_decide (is_Some (strip_suffix s suf)).

Fixpoint drop_while (f : Z → bool) (s : str) : str :=
  match s with
  | [] => []
  | x :: s' => if f x then drop_while f s' else s
  end.

(** [trim_start_matches] and [trim_end_matches] with a [char]. *)
Definition trim_start_matches (c : Z) (s : str) : str := drop_while (Z.eqb c) s.
Definition trim_end_matches (c : Z) (s : str) : str :=
  reverse (drop_while (Z.eqb c) (reverse s)).

(** [char::is_whitespace]: the code points with the White_Space property. *)
Definition is_whitespace (c : Z) : bool :=
  ((9 <=? c) && (c <=? 13)) || (c =? 32) || (c =? 133) || (c =? 160) ||
  (c =? 5760) || ((8192 <=? c) && (c <=? 8202)) || (c =? 8232) ||
  (c =? 8233) || (c =? 8239) || (c =? 8287) || (c =? 12288).

(** [str::trim]. *)
Definition trim (s : str) : str :=
  reverse (drop_while is_whitespace (reverse (drop_while is_whitespace s))).

(** The leading run of characters satisfying [f], and the rest. *)
Fixpoint span (f : Z → bool) (s : str) : str * str :=
  match s with
  | [] => ([], [])
  | x :: s' =>
      if f x then let '(a, b) := span f s' in (x :: a, b) else ([], s)
  end.

(** [str::split_whitespace]. *)
Fixpoint split_whitespace_fuel (fuel : nat) (s : str) : list str :=
  match fuel with
  | O => []
  | S fuel =>
      match drop_while is_whitespace s with
      | [] => []
      | s' => let '(word, rest) := span (λ c, negb (is_whitespace c)) s' in
              word :: split_whitespace_fuel fuel rest
      end
  end.
Definition split_whitespace (s : str) : list str :=
  split_whitespace_fuel (S (length s)) s.

(** [str::lines]: the pieces between line feeds, without a final empty one and
    without a carriage return before the line feed. *)
Definition strip_cr (line : str) : str := default line (strip_suffix line [13]).
Fixpoint line_pieces (pieces : list str) : list str :=
  match pieces with
  | [] | [[]] => []
  | [last] => [last]
  | line :: rest => strip_cr line :: line_pieces rest
  end.
Definition lines (s : str) : list str := line_pieces (split_on 10 s).

(** [&s[..n]] and [&s[n..]] at a byte offset: a panic off a character boundary. *)
Fixpoint split_at_byte (n : Z) (s : str) : option (str * str) :=
  if n =? 0 then Some ([], s)
  else match s with
       | [] => None
       | c :: s' =>
           if n <? char_len c then None
           else (λ p : str * str, (c :: p.1, p.2)) <$> split_at_byte (n - char_len c) s'
       end.

(** ** Decimal numbers *)

Definition is_digit (c : Z) : bool := (48 <=? c) && (c <=? 57).

Fixpoint parse_digits (acc : Z) (s : str) : option Z :=
  match s with
  | [] => Some acc
  | c :: s' =>
      if is_digit c then parse_digits (acc * 10 + (c - 48)) s' else None
  end.

(** [str::parse::<uN>] for an unsigned type whose maximum is [m]: an optional
    ['+'], then at least one digit, and the value in range. *)
Definition parse_unsigned (m : Z) (s : str) : option Z :=
  let digits := match s with 43 :: rest => rest | _ => s end in
  match digits with
  | [] => None
  | _ => v ← parse_digits 0 digits; if v <=? m then Some v else None
  end.

(** [str::parse::<iN>] for a signed type with the maximum [m]. *)
Definition parse_signed (m : Z) (s : str) : option Z :=
  match s with
  | 45 :: [] => None
  | 45 :: rest => v ← parse_digits 0 rest; if v <=? m + 1 then Some (- v) else None
  | _ => parse_unsigned m s
  end.

Fixpoint show_digits (fuel : nat) (v : Z) (acc : str) : str :=
  match fuel with
  | O => acc
  | S fuel =>
      let acc := (48 + v mod 10) :: acc in
      if v / 10 =? 0 then acc else show_digits fuel (v / 10) acc
  end.

(** [{}] on an unsigned integer of at most 64 bits. *)
Definition show_unsigned (v : Z) : str := show_digits 20 v [].

(** ** Ordered maps *)

(** The order of strings: that of their scalar values is that of their octets. *)
Fixpoint str_compare (a b : str) : comparison :=
  match a, b with
  | [], [] => Eq
  | [], _ :: _ => Lt
  | _ :: _, [] => Gt
  | x :: a, y :: b => match x ?= y with Eq => str_compare a b | c => c end
  end.

(** A [BTreeMap] is its entries in the order of their keys. *)
Fixpoint btree_insert {V} (k : str) (v : V) (m : list (str * V)) : list (str * V) :=
  match m with
  | [] => [(k, v)]
  | (k', v') :: m' =>
      match str_compare k k' with
      | Lt => (k, v) :: m
      | Eq => (k, v) :: m'
      | Gt => (k', v') :: btree_insert k v m'
      end
  end.

Fixpoint btree_get {V} (k : str) (m : list (str * V)) : option V :=
  match m with
  | [] => None
  | (k', v) :: m' => if bool_decide (k = k') then Some v else btree_get k m'
  end.

(** ** Lemmas *)

Lemma parse_digits_nonneg acc s v : 0 ≤ acc → parse_digits acc s = Some v → 0 ≤ v.
Proof.
  revert acc; induction s as [|c s IH]; intros acc Ha; cbn [parse_digits]; [by intros [= <-]|].
  unfold is_digit; case_match; [|done]; boolp; apply IH; lia.
Qed.

Lemma parse_unsigned_bounds m s v : parse_unsigned m s = Some v → 0 ≤ v ≤ m.
Proof.
  unfold parse_unsigned; set (digits := match s with 43 :: rest => rest | _ => s end).
  destruct digits as [|c d] eqn:Hd; [done|]; rewrite <- Hd; clear Hd.
  destruct (parse_digits 0 digits) as [w|] eqn:Hp; cbn; [|done].
  case_match; [|done]; intros [= <-]; apply parse_digits_nonneg in Hp; [|lia]; boolp; lia.
Qed.

Lemma to_ascii_lowercase_idemp s :
  to_ascii_lowercase (to_ascii_lowercase s) = to_ascii_lowercase s.
Proof.
  unfold to_ascii_lowercase; rewrite <- list_fmap_compose.
  apply list_fmap_ext; intros _ c _; unfold compose, lower_char.
  repeat case_match; boolp; lia.
Qed.

Lemma lower_char_idemp c : lower_char (lower_char c) = lower_char c.
Proof. unfold lower_char; repeat case_match; boolp; lia. Qed.

Lemma lower_char_u8 c : is_u8 c → is_u8 (lower_char c).
Proof. unfold is_u8, lower_char; case_match; boolp; lia. Qed.

Lemma to_ascii_lowercase_ok s : bytes_ok s → bytes_ok (to_ascii_lowercase s).
Proof.
  intros Hs; unfold bytes_ok, to_ascii_lowercase; rewrite Forall_fmap.
  eapply Forall_impl; [exact Hs|]; apply lower_char_u8.
Qed.

Lemma to_ascii_lowercase_len s : len (to_ascii_lowercase s) = len s.
Proof. unfold len, to_ascii_lowercase; by rewrite length_fmap. Qed.

Lemma to_ascii_lowercase_app s t :
  to_ascii_lowercase (s ++ t) = to_ascii_lowercase s ++ to_ascii_lowercase t.
Proof. apply fmap_app. Qed.

Lemma is_ascii_str_len s : is_ascii s = true → str_len s = len s.
Proof.
  induction s as [|c s IH]; [done|]; cbn [is_ascii forallb str_len foldr].
  intros [[_ Hc]%andb_true_iff Hs]%andb_true_iff; rewrite len_cons; fold (str_len s).
  rewrite (IH Hs); unfold char_len; by rewrite Hc.
Qed.

Lemma is_ascii_as_bytes s : is_ascii s = true → as_bytes s = s.
Proof.
  induction s as [|c s IH]; [done|]; cbn [is_ascii forallb].
  intros [[_ Hc]%andb_true_iff Hs]%andb_true_iff; unfold as_bytes in *; cbn.
  rewrite (IH Hs); unfold char_bytes; by rewrite Hc.
Qed.

Lemma is_ascii_Forall s : is_ascii s = true ↔ Forall (λ c, 0 ≤ c < 128) s.
Proof.
  unfold is_ascii; rewrite forallb_forall, Forall_forall; split; intros H c Hc.
  - apply list_elem_of_In, H in Hc; boolp; lia.
  - apply list_elem_of_In, H in Hc; boolp; lia.
Qed.

Lemma is_ascii_app s t : is_ascii (s ++ t) = is_ascii s && is_ascii t.
Proof. apply forallb_app. Qed.

Lemma split_on_nonempty c s : split_on c s ≠ [].
Proof. induction s; cbn; repeat case_match; done. Qed.

Lemma split_on_nosep c s : Forall (λ piece, c ∉ piece) (split_on c s).
Proof.
  induction s as [|x s IH]; cbn.
  - repeat constructor; apply not_elem_of_nil.
  - case_match; boolp; [constructor; [apply not_elem_of_nil|done]|].
    destruct (split_on c s) as [|piece rest]; [constructor; [|done]; set_solver|].
    inversion_clear IH; constructor; [set_solver|done].
Qed.

Lemma split_on_Forall (P : Z → Prop) c s :
  Forall P s → Forall (Forall P) (split_on c s).
Proof.
  induction 1 as [|x s Hx _ IH]; cbn; [by constructor|].
  case_match; [by constructor|].
  destruct (split_on c s) as [|piece rest]; [by repeat apply Forall_cons_2|].
  inversion_clear IH; constructor; [by constructor|done].
Qed.

Lemma join_split c s : join_with [c] (split_on c s) = s.
Proof.
  induction s as [|x s IH]; [done|]; cbn.
  pose proof (split_on_nonempty c s).
  case_match; boolp; subst.
  - destruct (split_on c s) eqn:?; [done|]; cbn; f_equal; exact IH.
  - destruct (split_on c s) as [|piece rest] eqn:E; [done|].
    rewrite <- IH; cbn; by destruct rest.
Qed.

Lemma join_with_app c pre post :
  pre ≠ [] → post ≠ [] →
  join_with [c] (pre ++ post) = join_with [c] pre ++ c :: join_with [c] post.
Proof.
  intros Hpre Hpost; induction pre as [|x pre IH]; [done|].
  destruct pre as [|y pre].
  - destruct post; [done|]; reflexivity.
  - change (join_with [c] ((x :: y :: pre) ++ post))
      with (x ++ [c] ++ join_with [c] ((y :: pre) ++ post)).
    rewrite IH by done; cbn [join_with]; by rewrite <- !app_assoc.
Qed.

Lemma split_on_single c s : c ∉ s → split_on c s = [s].
Proof.
  induction s as [|x s IH]; [done|]; intros [Hx Hs]%not_elem_of_cons; cbn.
  rewrite IH by done; case_match; boolp; congruence.
Qed.

Lemma split_on_app_sep c s t :
  c ∉ s → split_on c (s ++ c :: t) = s :: split_on c t.
Proof.
  induction s as [|x s IH]; cbn.
  - by rewrite Z.eqb_refl.
  - intros [Hx Hs]%not_elem_of_cons; rewrite IH by done.
    case_match; boolp; congruence.
Qed.

Lemma split_on_app c s t : split_on c (s ++ c :: t) = split_on c s ++ split_on c t.
Proof.
  induction s as [|x s IH]; cbn; [by rewrite Z.eqb_refl|]; rewrite IH; case_match; [done|].
  pose proof (split_on_nonempty c s); by destruct (split_on c s).
Qed.

Lemma split_join c pieces :
  pieces ≠ [] → Forall (λ piece, c ∉ piece) pieces →
  split_on c (join_with [c] pieces) = pieces.
Proof.
  induction pieces as [|piece rest IH]; [done|]; intros _ Hall.
  inversion_clear Hall; destruct rest as [|piece' rest].
  - by apply split_on_single.
  - change (join_with [c] (piece :: piece' :: rest))
      with (piece ++ c :: join_with [c] (piece' :: rest)).
    rewrite split_on_app_sep by done; f_equal; by apply IH.
Qed.

Lemma strip_prefix_Some pre s t : strip_prefix pre s = Some t ↔ s = pre ++ t.
Proof.
  revert s; induction pre as [|x pre IH]; intros s; cbn; [naive_solver|].
  destruct s as [|y s]; [naive_solver|]; case_match; boolp.
  - rewrite IH; naive_solver.
  - naive_solver.
Qed.

Lemma strip_suffix_Some s suf t : strip_suffix s suf = Some t ↔ s = t ++ suf.
Proof.
  unfold strip_suffix; rewrite fmap_Some; split.
  - intros (u & Hu & ->); apply strip_prefix_Some in Hu.
    rewrite <- (reverse_involutive s), Hu, reverse_app, reverse_involutive; done.
  - intros ->; exists (reverse t); rewrite reverse_involutive, reverse_app.
    split; [by apply strip_prefix_Some|done].
Qed.

Lemma ends_with_iff s suf : ends_with s suf = true ↔ ∃ t, s = t ++ suf.
Proof.
  unfold ends_with; rewrite bool_decide_eq_true; unfold is_Some.
  by setoid_rewrite strip_suffix_Some.
Qed.

Lemma drop_while_suffix f s : ∃ pre, s = pre ++ drop_while f s ∧ Forall (λ c, f c = true) pre.
Proof.
  induction s as [|x s (pre & Heq & Hpre)]; cbn; [by exists []|].
  case_match; [|by exists []].
  exists (x :: pre); split; [cbn; by f_equal|by constructor].
Qed.

Lemma drop_while_head f s x t : drop_while f s = x :: t → f x = false.
Proof.
  induction s as [|y s IH]; cbn; [done|]; case_match; [done|].
  by intros [= -> ->].
Qed.

Lemma span_app f s : (span f s).1 ++ (span f s).2 = s.
Proof.
  induction s as [|c s IH]; cbn; [done|]; case_match; [|done].
  destruct (span f s) as [a b]; cbn in *; by rewrite IH.
Qed.

(** ** Characters of the pieces *)

Section pieces.
Context (P : Z → Prop).

Lemma drop_while_Forall f s : Forall P s → Forall P (drop_while f s).
Proof. destruct (drop_while_suffix f s) as (pre & Heq & _); rewrite Heq at 1; by intros [_ ?]%Forall_app. Qed.

Lemma trim_end_matches_Forall c s : Forall P s → Forall P (trim_end_matches c s).
Proof. intros Hs; by apply Forall_reverse, drop_while_Forall, Forall_reverse. Qed.

Lemma split_once_Forall c s a b :
  split_once c s = Some (a, b) → Forall P s → Forall P a ∧ Forall P b.
Proof.
  revert a b; induction s as [|x s IH]; intros a b; cbn; [done|]; case_match.
  - intros [= <- <-] [_ ?]%Forall_cons; auto.
  - destruct (split_once c s) as [[a' b']|] eqn:E; [|done]; intros [= <- <-] [? Hs]%Forall_cons.
    destruct (IH a' b' eq_refl Hs); auto.
Qed.

Lemma split_whitespace_Forall s : Forall P s → Forall (Forall P) (split_whitespace s).
Proof.
  unfold split_whitespace; generalize (S (length s)) as fuel; intros fuel; revert s.
  induction fuel as [|fuel IH]; intros s Hs; cbn [split_whitespace_fuel]; [constructor|].
  apply (drop_while_Forall is_whitespace) in Hs; revert Hs; destruct (drop_while _ s) as [|x t].
  { constructor. }
  rewrite <- (span_app (λ c, negb (is_whitespace c)) (x :: t)) at 1.
  destruct (span _ (x :: t)) as [word rest]; intros [? ?]%Forall_app.
  constructor; [done|by apply IH].
Qed.

Lemma lines_Forall s : Forall P s → Forall (Forall P) (lines s).
Proof.
  intros Hs; apply (split_on_Forall P 10) in Hs; unfold lines; revert Hs.
  induction (split_on 10 s) as [|l ls IH]; [constructor|]; intros [Hl Hls]%Forall_cons.
  assert (Forall P (strip_cr l)) as Hcr.
  { unfold strip_cr; destruct (strip_suffix l [13]) as [l'|] eqn:E; [|done].
    apply strip_suffix_Some in E as ->; by apply Forall_app in Hl as [? _]. }
  specialize (IH Hls); destruct l, ls; cbn in *; auto.
Qed.
End pieces.

Lemma lower_char_ok s : str_ok s → str_ok (to_ascii_lowercase s).
Proof.
  unfold str_ok, to_ascii_lowercase; rewrite Forall_fmap; intros Hs.
  eapply Forall_impl; [exact Hs|]; intros c; cbn; unfold lower_char; case_match; boolp; lia.
Qed.

(** What [trim_end_matches] leaves: the string without its trailing [c]s. *)
Lemma trim_end_matches_spec c s :
  ∃ n, s = trim_end_matches c s ++ replicate n c ∧
       last (trim_end_matches c s) ≠ Some c.
Proof.
  unfold trim_end_matches.
  destruct (drop_while_suffix (Z.eqb c) (reverse s)) as (pre & Heq & Hpre).
  exists (length pre); split.
  - rewrite <- (reverse_involutive s) at 1; rewrite Heq at 1.
    rewrite reverse_app; f_equal.
    assert (replicate (length pre) c = pre) as Hrep.
    { apply replicate_as_elem_of; split; [done|]; intros x Hx.
      rewrite Forall_forall in Hpre; specialize (Hpre x Hx); cbn in Hpre.
      boolp; done. }
    by rewrite <- Hrep, reverse_replicate, length_replicate.
  - rewrite last_reverse.
    destruct (drop_while (Z.eqb c) (reverse s)) eqn:Hd; cbn; [done|].
    apply drop_while_head in Hd; boolp; congruence.
Qed.

Lemma trim_end_matches_id c s : last s ≠ Some c → trim_end_matches c s = s.
Proof.
  intros Hl; unfold trim_end_matches.
  destruct (reverse s) as [|x t] eqn:Hr; cbn.
  - apply (f_equal reverse) in Hr; by rewrite reverse_involutive in Hr.
  - assert (last s = Some x) as Hx.
    { rewrite <- (reverse_involutive s), last_reverse, Hr; done. }
    case_match; boolp; [congruence|].
    rewrite <- Hr; apply reverse_involutive.
Qed.

(** *** Ordered maps *)

Lemma str_compare_Eq a b : str_compare a b = Eq ↔ a = b.
Proof.
  revert b; induction a as [|x a IH]; intros [|y b]; cbn; try done.
  destruct (Z.compare_spec x y); [|naive_solver lia..].
  subst; rewrite IH; naive_solver.
Qed.

Lemma str_compare_antisym a b : str_compare b a = CompOpp (str_compare a b).
Proof.
  revert b; induction a as [|x a IH]; intros [|y b]; cbn; try done.
  rewrite (Z.compare_antisym x y); destruct (x ?= y); cbn; auto.
Qed.

Definition str_lt (a b : str) : Prop := str_compare a b = Lt.

#[global] Instance str_lt_trans : Transitive str_lt.
Proof.
  unfold str_lt; intros a; induction a as [|x a IH]; intros [|y b] [|z c]; cbn; try done.
  destruct (Z.compare_spec x y), (Z.compare_spec y z), (Z.compare_spec x z); try done || lia.
  apply IH.
Qed.

Lemma str_lt_irrefl a : ¬ str_lt a a.
Proof. unfold str_lt; by rewrite (proj2 (str_compare_Eq a a) eq_refl). Qed.

Definition keys_sorted {V} (m : list (str * V)) : Prop := StronglySorted str_lt m.*1.

Lemma btree_insert_keys {V} k (v : V) m x :
  x ∈ (btree_insert k v m).*1 ↔ x = k ∨ x ∈ m.*1.
Proof.
  induction m as [|[k' v'] m IH]; cbn [btree_insert fmap list_fmap fst].
  - rewrite list_elem_of_singleton, elem_of_nil; tauto.
  - destruct (str_compare k k') eqn:Hc; cbn; rewrite !elem_of_cons; [|tauto|].
    + apply str_compare_Eq in Hc as ->; tauto.
    + rewrite IH; tauto.
Qed.

Lemma btree_insert_sorted {V} k (v : V) m : keys_sorted m → keys_sorted (btree_insert k v m).
Proof.
  unfold keys_sorted; induction m as [|[k' v'] m IH]; cbn [btree_insert fmap list_fmap fst].
  { intros _; repeat constructor. }
  intros [Hs Hf]%StronglySorted_inv; destruct (str_compare k k') eqn:Hc; cbn.
  - apply str_compare_Eq in Hc as ->; by constructor.
  - constructor; [by constructor|]; constructor; [done|].
    eapply Forall_impl; [exact Hf|]; intros x Hx; by transitivity k'.
  - constructor; [by apply IH|]; apply Forall_forall; intros x [->|Hx]%btree_insert_keys.
    + unfold str_lt; by rewrite str_compare_antisym, Hc.
    + rewrite Forall_forall in Hf; by apply Hf.
Qed.

Lemma elem_of_btree_insert {V} k (v : V) m k' v' :
  keys_sorted m →
  (k', v') ∈ btree_insert k v m ↔ k' = k ∧ v' = v ∨ k' ≠ k ∧ (k', v') ∈ m.
Proof.
  unfold keys_sorted; induction m as [|[j w] m IH]; cbn [btree_insert fmap list_fmap fst].
  - intros _; rewrite list_elem_of_singleton, elem_of_nil; naive_solver.
  - intros [Hs Hf]%StronglySorted_inv; rewrite Forall_forall in Hf.
    assert (∀ k' v', (k', v') ∈ m → str_lt j k') as Hlt.
    { intros a b Hab; apply Hf, list_elem_of_fmap; by exists (a, b). }
    destruct (str_compare k j) eqn:Hc; rewrite !elem_of_cons.
    + apply str_compare_Eq in Hc as ->; split; [intros [[= -> ->]|Hin]|intros [[-> ->]|(Hn & [[= -> ->]|])]].
      * by left.
      * right; split; [|by right]; intros ->; by eapply str_lt_irrefl, Hlt.
      * by left.
      * done.
      * by right.
    + split; [intros [[= -> ->]|[[= -> ->]|Hin]]|intros [[-> ->]|(Hn & [[= -> ->]|])]]; auto.
      * right; split; [|by left]; intros ->; by apply (str_lt_irrefl k).
      * right; split; [|by right]; intros ->; eapply (str_lt_irrefl k).
        transitivity j; [done|by eapply Hlt].
    + rewrite IH by done; split;
        [intros [[= -> ->]|[[-> ->]|[]]]|intros [[-> ->]|(Hn & [[= -> ->]|])]]; auto.
      right; split; [|by left]; intros ->.
      by rewrite (proj2 (str_compare_Eq k k) eq_refl) in Hc.
Qed.

Lemma btree_insert_Forall {V} (P : str * V → Prop) k v m :
  P (k, v) → Forall P m → Forall P (btree_insert k v m).
Proof.
  intros Hv; induction 1 as [|[k' v'] m Hx Hm IH]; cbn; [by constructor|].
  destruct (str_compare k k'); by repeat constructor.
Qed.

(** A key behind all others. *)
Lemma btree_insert_last {V} k (v : V) m :
  Forall (λ k', str_lt k' k) m.*1 → btree_insert k v m = m ++ [(k, v)] ∧ btree_get k m = None.
Proof.
  induction m as [|[k' v'] m IH]; cbn; [done|]; intros [Hk Hm]%Forall_cons.
  destruct (IH Hm) as [-> ->]; rewrite str_compare_antisym, Hk; cbn; split; [done|].
  rewrite bool_decide_eq_false_2; [done|]; intros ->.
  by eapply str_lt_irrefl.
Qed.

Lemma lower_char_small c :
  (0 <=? lower_char c) && (lower_char c <? 128) = (0 <=? c) && (c <? 128).
Proof.
  unfold lower_char; case_match; [|done]; apply eq_iff_eq_true; boolp; lia.
Qed.

Lemma is_ascii_lowercase s : is_ascii (to_ascii_lowercase s) = is_ascii s.
Proof.
  unfold is_ascii, to_ascii_lowercase; induction s as [|c s IH]; [done|]; cbn.
  by rewrite IH, lower_char_small.
Qed.
