(* ===== verification/Utf8.v ===== *)
(** * UTF-8

    What the Standard Library's decoders do: [str::from_utf8] and
    [String::from_utf8_lossy], which read the same sequence of characters and
    invalid pieces, and that decoding inverts [str::as_bytes]. *)

From S2P Require Import Prelude Text.

Definition continuation (b : Z) : bool := (128 <=? b) && (b <=? 191).

(** The second octet after the first one of three, or of four. *)
Definition second_of_three (a b : Z) : bool :=
  continuation b && (negb (a =? 224) || (160 <=? b)) && (negb (a =? 237) || (b <=? 159)).

Definition second_of_four (a b : Z) : bool :=
  continuation b && (negb (a =? 240) || (144 <=? b)) && (negb (a =? 244) || (b <=? 143)).

(** The characters of [p]; [None] stands for an invalid piece: the longest start
    of a character that is not continued. *)
Fixpoint utf8_chunks (p : bytes) : list (option Z) :=
  match p with
  | [] => []
  | a :: p1 =>
      if a <? 128 then Some a :: utf8_chunks p1
      else if (194 <=? a) && (a <=? 223) then
        match p1 with
        | b :: p2 =>
            if continuation b then Some ((a - 192) * 64 + (b - 128)) :: utf8_chunks p2
            else None :: utf8_chunks p1
        | [] => [None]
        end
      else if (224 <=? a) && (a <=? 239) then
        match p1 with
        | b :: p2 =>
            if second_of_three a b then
              match p2 with
              | c :: p3 =>
                  if continuation c
                  then Some ((a - 224) * 4096 + (b - 128) * 64 + (c - 128)) :: utf8_chunks p3
                  else None :: utf8_chunks p2
              | [] => [None]
              end
            else None :: utf8_chunks p1
        | [] => [None]
        end
      else if (240 <=? a) && (a <=? 244) then
        match p1 with
        | b :: p2 =>
            if second_of_four a b then
              match p2 with
              | c :: p3 =>
                  if continuation c then
                    match p3 with
                    | d :: p4 =>
                        if continuation d
                        then Some ((a - 240) * 262144 + (b - 128) * 4096 + (c - 128) * 64
                                   + (d - 128)) :: utf8_chunks p4
                        else None :: utf8_chunks p3
                    | [] => [None]
                    end
                  else None :: utf8_chunks p2
              | [] => [None]
              end
            else None :: utf8_chunks p1
        | [] => [None]
        end
      else None :: utf8_chunks p1
  end.

(** [str::from_utf8(p).ok()]. *)
Definition from_utf8 (p : bytes) : option str := mapM id (utf8_chunks p).

Definition replacement_character : Z := 0xfffd.

(** [String::from_utf8_lossy]. *)
Definition from_utf8_lossy (p : bytes) : str := default replacement_character <$> utf8_chunks p.

(** Unicode scalar values. *)
Definition scalar (c : Z) : Prop := 0 ≤ c < 0xd800 ∨ 0xe000 ≤ c < 0x110000.

Lemma scalar_str_ok s : Forall scalar s → str_ok s.
Proof. intros Hs; eapply Forall_impl; [exact Hs|]; unfold scalar; cbn; lia. Qed.

(** Comparisons whose outcome is known. *)
Ltac decide_compare :=
  repeat match goal with
  | |- context [?a <? ?b] =>
      first [rewrite (proj2 (Z.ltb_lt a b)) by lia | rewrite (proj2 (Z.ltb_ge a b)) by lia]
  | |- context [?a <=? ?b] =>
      first [rewrite (proj2 (Z.leb_le a b)) by lia | rewrite (proj2 (Z.leb_gt a b)) by lia]
  | |- context [?a =? ?b] => destruct (Z.eqb_spec a b)
  end; cbn [andb orb negb].

Lemma base64_digits c :
  0 ≤ c → ∃ q r, c / 64 = q ∧ c mod 64 = r ∧ c = 64 * q + r ∧ 0 ≤ r < 64 ∧ 0 ≤ q.
Proof.
  intros Hc; exists (c / 64), (c mod 64); pose proof (Z.div_mod c 64 ltac:(lia)).
  pose proof (Z.mod_pos_bound c 64 ltac:(lia)); pose proof (Z.div_pos c 64 Hc ltac:(lia)); lia.
Qed.

Lemma utf8_two a b p :
  194 ≤ a ≤ 223 → continuation b = true →
  utf8_chunks (a :: b :: p) = Some ((a - 192) * 64 + (b - 128)) :: utf8_chunks p.
Proof.
  intros Ha Hb; remember (b :: p) as t eqn:Ht; cbn [utf8_chunks]; decide_compare.
  by rewrite Ht, Hb.
Qed.

Lemma utf8_three a b c p :
  224 ≤ a ≤ 239 → second_of_three a b = true → continuation c = true →
  utf8_chunks (a :: b :: c :: p) =
  Some ((a - 224) * 4096 + (b - 128) * 64 + (c - 128)) :: utf8_chunks p.
Proof.
  intros Ha Hb Hc; remember (b :: c :: p) as t eqn:Ht; cbn [utf8_chunks]; decide_compare.
  by rewrite Ht, Hb, Hc.
Qed.

Lemma utf8_four a b c d p :
  240 ≤ a ≤ 244 → second_of_four a b = true → continuation c = true → continuation d = true →
  utf8_chunks (a :: b :: c :: d :: p) =
  Some ((a - 240) * 262144 + (b - 128) * 4096 + (c - 128) * 64 + (d - 128)) :: utf8_chunks p.
Proof.
  intros Ha Hb Hc Hd; remember (b :: c :: d :: p) as t eqn:Ht; cbn [utf8_chunks]; decide_compare.
  by rewrite Ht, Hb, Hc, Hd.
Qed.

Lemma utf8_chunks_char c p : scalar c → utf8_chunks (char_bytes c ++ p) = Some c :: utf8_chunks p.
Proof.
  intros Hc; unfold char_bytes, scalar in *.
  replace (c / 262144) with (c / 64 / 64 / 64) by (rewrite !Z.div_div by lia; done).
  replace (c / 4096) with (c / 64 / 64) by (rewrite !Z.div_div by lia; done).
  destruct (base64_digits c) as (q & r & -> & -> & Hq & ? & ?); [lia|].
  destruct (base64_digits q) as (q' & r' & -> & -> & Hq' & ? & ?); [lia|].
  destruct (base64_digits q') as (q2 & r2 & -> & -> & Hq2 & ? & ?); [lia|].
  destruct (Z.ltb_spec c 128); [cbn [app utf8_chunks]; by decide_compare|].
  destruct (Z.ltb_spec c 2048); [|destruct (Z.ltb_spec c 65536)]; cbn [app].
  - rewrite utf8_two; [do 2 f_equal; lia|lia|]; unfold continuation; by decide_compare.
  - rewrite utf8_three; [do 2 f_equal; lia|lia| |];
      unfold second_of_three, continuation; decide_compare; try done; lia.
  - rewrite utf8_four; [do 2 f_equal; lia|lia| | |];
      unfold second_of_four, continuation; decide_compare; try done; lia.
Qed.

(** Decoding what was encoded. *)
Lemma from_utf8_as_bytes s : Forall scalar s → from_utf8 (as_bytes s) = Some s.
Proof.
  unfold from_utf8, as_bytes; induction 1 as [|c s Hc _ IH]; [done|].
  rewrite bind_cons, utf8_chunks_char by done; cbn; by rewrite IH.
Qed.

Lemma digits64 n q r : n = 64 * q + r → 0 ≤ r < 64 → n / 64 = q ∧ n mod 64 = r.
Proof.
  intros -> Hr; rewrite (Z.mul_comm 64 q), Z.add_comm, Z.div_add, Z.mod_add by lia.
  rewrite Z.div_small, Z.mod_small by lia; lia.
Qed.

Lemma char_bytes_two a b :
  194 ≤ a ≤ 223 → continuation b = true → char_bytes ((a - 192) * 64 + (b - 128)) = [a; b].
Proof.
  unfold continuation; intros Ha Hb; boolp; unfold char_bytes.
  edestruct (digits64 ((a - 192) * 64 + (b - 128)) (a - 192) (b - 128)) as [-> ->]; [lia..|].
  decide_compare; repeat f_equal; lia.
Qed.

Lemma char_bytes_three a b c :
  224 ≤ a ≤ 239 → second_of_three a b = true → continuation c = true →
  char_bytes ((a - 224) * 4096 + (b - 128) * 64 + (c - 128)) = [a; b; c].
Proof.
  unfold second_of_three, continuation; intros Ha Hb Hc; unfold char_bytes.
  set (q := (a - 224) * 64 + (b - 128)); set (n := _ + _ + (c - 128)).
  replace (n / 4096) with (n / 64 / 64) by (rewrite Z.div_div by lia; done).
  assert (128 ≤ b ≤ 191 ∧ 128 ≤ c ≤ 191) as [] by (boolp; lia).
  destruct (digits64 n q (c - 128)) as [-> ->]; [lia..|].
  destruct (digits64 q (a - 224) (b - 128)) as [-> ->]; [lia..|].
  destruct (Z.eqb_spec a 224); boolp; decide_compare; repeat f_equal; lia.
Qed.

Lemma char_bytes_four a b c d :
  240 ≤ a ≤ 244 → second_of_four a b = true → continuation c = true → continuation d = true →
  char_bytes ((a - 240) * 262144 + (b - 128) * 4096 + (c - 128) * 64 + (d - 128)) = [a; b; c; d].
Proof.
  unfold second_of_four, continuation; intros Ha Hb Hc Hd; unfold char_bytes.
  set (q' := (a - 240) * 64 + (b - 128)); set (q := q' * 64 + (c - 128)); set (n := _ + _ + _ + (d - 128)).
  replace (n / 262144) with (n / 64 / 64 / 64) by (rewrite !Z.div_div by lia; done).
  replace (n / 4096) with (n / 64 / 64) by (rewrite Z.div_div by lia; done).
  assert (128 ≤ b ≤ 191 ∧ 128 ≤ c ≤ 191 ∧ 128 ≤ d ≤ 191) as (? & ? & ?) by (boolp; lia).
  destruct (digits64 n q (d - 128)) as [-> ->]; [lia..|].
  destruct (digits64 q q' (c - 128)) as [-> ->]; [lia..|].
  destruct (digits64 q' (a - 240) (b - 128)) as [-> ->]; [lia..|].
  destruct (Z.eqb_spec a 240); boolp; decide_compare; repeat f_equal; lia.
Qed.

(** The first character of a text that decodes. *)
Lemma utf8_first a p c l :
  is_u8 a → utf8_chunks (a :: p) = Some c :: l →
  scalar c ∧ ∃ p', a :: p = char_bytes c ++ p' ∧ utf8_chunks p' = l.
Proof.
  unfold is_u8; intros Ha; cbn [utf8_chunks]; destruct (Z.ltb_spec a 128).
  { intros [= <- <-]; split; [unfold scalar; lia|]; exists p; unfold char_bytes.
    by rewrite (proj2 (Z.ltb_lt a 128)). }
  destruct ((194 <=? a) && (a <=? 223)) eqn:H2; boolp.
  { destruct p as [|b p2]; [done|]; destruct (continuation b) eqn:Hb; [|done]; intros [= <- <-].
    split; [|exists p2; by rewrite (char_bytes_two a b) by (done || lia)].
    unfold continuation in Hb; boolp; unfold scalar; lia. }
  destruct ((224 <=? a) && (a <=? 239)) eqn:H3; boolp.
  { destruct p as [|b p2]; [done|]; destruct (second_of_three a b) eqn:Hb; [|done].
    destruct p2 as [|e p3]; [done|]; destruct (continuation e) eqn:He; [|done]; intros [= <- <-].
    split; [|exists p3; by rewrite (char_bytes_three a b e) by (done || lia)].
    unfold second_of_three, continuation in *; boolp; unfold scalar; lia. }
  destruct ((240 <=? a) && (a <=? 244)) eqn:H4; boolp; [|done].
  destruct p as [|b p2]; [done|]; destruct (second_of_four a b) eqn:Hb; [|done].
  destruct p2 as [|e p3]; [done|]; destruct (continuation e) eqn:He; [|done].
  destruct p3 as [|d p4]; [done|]; destruct (continuation d) eqn:Hd; [|done]; intros [= <- <-].
  split; [|exists p4; by rewrite (char_bytes_four a b e d) by (done || lia)].
  unfold second_of_four, continuation in *; boolp; unfold scalar; lia.
Qed.

Lemma utf8_chunks_inv p s :
  bytes_ok p → utf8_chunks p = Some <$> s → as_bytes s = p ∧ Forall scalar s.
Proof.
  revert p; induction s as [|c s IH]; intros p Hp H.
  - destruct p as [|a p]; [by split|]; exfalso; revert H; clear; cbn [utf8_chunks].
    by repeat case_match.
  - destruct p as [|a p]; [done|]; inversion Hp as [|? ? Ha Hp1]; subst.
    apply utf8_first in H as (Hc & p' & Hp' & H); [|done]; rewrite Hp' in Hp |- *.
    apply bytes_ok_app in Hp as [_ Hp]; destruct (IH p' Hp H) as [<- Hs].
    by split; [|constructor].
Qed.

(** Decoding accepts exactly the encodings of scalar values. *)
Lemma from_utf8_iff p s :
  bytes_ok p → from_utf8 p = Some s ↔ as_bytes s = p ∧ Forall scalar s.
Proof.
  intros Hp; split; [|intros [<- Hs]; by apply from_utf8_as_bytes].
  unfold from_utf8; rewrite mapM_Some; intros H; apply utf8_chunks_inv; [done|].
  clear Hp; induction H as [|? ? ? ? Hx _ IH]; [done|]; cbn in *; by rewrite Hx, IH.
Qed.

(** ** The octets of a string *)

Lemma as_bytes_cons c s : as_bytes (c :: s) = char_bytes c ++ as_bytes s.
Proof. done. Qed.

Lemma char_bytes_len c : len (char_bytes c) = char_len c.
Proof. unfold char_bytes, char_len; by repeat case_match. Qed.

Lemma as_bytes_len s : len (as_bytes s) = str_len s.
Proof.
  induction s as [|c s IH]; [done|]; rewrite as_bytes_cons, len_app, IH, char_bytes_len; done.
Qed.

Lemma char_bytes_high c : scalar c → 128 ≤ c → Forall (λ b, 128 ≤ b < 256) (char_bytes c).
Proof.
  unfold scalar, char_bytes; intros Hc Hh; repeat case_match; boolp; [lia|..].
  all: repeat constructor; Z.to_euclidean_division_equations; lia.
Qed.

Lemma char_bytes_ok c : scalar c → bytes_ok (char_bytes c).
Proof.
  intros Hc; destruct (Z.leb_spec 128 c) as [Hh|Hl].
  - eapply Forall_impl; [by apply char_bytes_high|]; unfold is_u8; cbn; lia.
  - unfold char_bytes; rewrite (proj2 (Z.ltb_lt _ _)) by lia; unfold scalar in Hc.
    repeat constructor; unfold is_u8; lia.
Qed.

Lemma as_bytes_ok s : Forall scalar s → bytes_ok (as_bytes s).
Proof.
  induction 1 as [|c s Hc _ IH]; [constructor|]; rewrite as_bytes_cons.
  apply bytes_ok_app; split; [by apply char_bytes_ok|done].
Qed.

Lemma lower_high b : 128 ≤ b → lower_char b = b.
Proof. unfold lower_char; case_match; boolp; lia. Qed.

Lemma as_bytes_lower s :
  Forall scalar s → to_ascii_lowercase (as_bytes s) = as_bytes (to_ascii_lowercase s).
Proof.
  induction 1 as [|c s Hc _ IH]; [done|]; rewrite as_bytes_cons, to_ascii_lowercase_app, IH.
  change (to_ascii_lowercase (c :: s)) with (lower_char c :: to_ascii_lowercase s).
  rewrite as_bytes_cons; f_equal; destruct (Z.leb_spec 128 c) as [Hh|Hl].
  - rewrite (lower_high c) by done; pose proof (char_bytes_high c Hc Hh) as Hb.
    unfold to_ascii_lowercase; rewrite <- (list_fmap_id (char_bytes c)) at 2.
    apply Forall_fmap_ext_1; eapply Forall_impl; [exact Hb|]; cbn; intros; apply lower_high; lia.
  - assert (lower_char c < 128) by (unfold lower_char; case_match; boolp; lia).
    unfold char_bytes; by rewrite !(proj2 (Z.ltb_lt _ _)) by lia.
Qed.

Lemma lossy_as_bytes s : Forall scalar s → from_utf8_lossy (as_bytes s) = s.
Proof.
  unfold from_utf8_lossy; induction 1 as [|c s Hc _ IH]; [done|].
  rewrite as_bytes_cons, utf8_chunks_char by done; cbn; by rewrite IH.
Qed.

Lemma lower_scalar s : Forall scalar s → Forall scalar (to_ascii_lowercase s).
Proof.
  intros Hs; apply Forall_fmap; eapply Forall_impl; [exact Hs|].
  unfold scalar; cbn; intros c Hc; unfold lower_char; case_match; boolp; lia.
Qed.
