(* ===== verification/Net.v ===== *)
(** * Addresses

    The parts of [std::net] the resolver uses: [Ipv4Addr] and [Ipv6Addr] by
    their octets, [IpAddr] and [SocketAddr]. *)

From S2P Require Import Prelude Text.

(** An IPv4 address is its 4 octets, an IPv6 address its 16 octets. *)
Inductive IpAddr : Type :=
  | V4 (octets : bytes)
  | V6 (octets : bytes).

#[global] Instance IpAddr_eq_dec : EqDecision IpAddr.
Proof. solve_decision. Defined.

#[global] Instance IpAddr_countable : Countable IpAddr.
Proof.
  refine (inj_countable'
    (λ a, match a with V4 o => inl o | V6 o => inr o end)
    (λ s, match s with inl o => V4 o | inr o => V6 o end) _).
  by intros [].
Defined.

Definition ip_ok (a : IpAddr) : Prop :=
  match a with
  | V4 o => bytes_ok o ∧ len o = 4
  | V6 o => bytes_ok o ∧ len o = 16
  end.

(** [SocketAddrV4] has an address and a port, [SocketAddrV6] also a flow label
    and a scope id. *)
Inductive SocketAddr : Type :=
  | SockV4 (ip : bytes) (port : Z)
  | SockV6 (ip : bytes) (port flowinfo scope_id : Z).

#[global] Instance SocketAddr_eq_dec : EqDecision SocketAddr.
Proof. solve_decision. Defined.

#[global] Instance SocketAddr_countable : Countable SocketAddr.
Proof.
  refine (inj_countable'
    (λ a, match a with
          | SockV4 i p => inl (i, p)
          | SockV6 i p f s => inr (i, p, f, s)
          end)
    (λ s, match s with
          | inl (i, p) => SockV4 i p
          | inr (i, p, f, s) => SockV6 i p f s
          end) _).
  by intros [].
Defined.

(** [SocketAddr::ip]. *)
Definition sock_ip (a : SocketAddr) : IpAddr :=
  match a with SockV4 i _ => V4 i | SockV6 i _ _ _ => V6 i end.

Definition sock_port (a : SocketAddr) : Z :=
  match a with SockV4 _ p => p | SockV6 _ p _ _ => p end.

(** [SocketAddr::new]. *)
Definition sock_new (ip : IpAddr) (port : Z) : SocketAddr :=
  match ip with V4 i => SockV4 i port | V6 i => SockV6 i port 0 0 end.

Definition sock_is_ipv6 (a : SocketAddr) : bool :=
  match a with SockV4 _ _ => false | SockV6 _ _ _ _ => true end.

Definition octet (o : bytes) (i : nat) : Z := default 0 (o !! i).

(** [Ipv6Addr::segments()[0]]. *)
Definition segment0 (o : bytes) : Z := be16 (octet o 0) (octet o 1).

Definition ipv6_loopback : bytes := replicate 15 0 ++ [1].

(** [IpAddr::is_loopback]: 127.0.0.0/8 or ::1. *)
Definition ip_is_loopback (a : IpAddr) : bool :=
  match a with
  | V4 o => octet o 0 =? 127
  | V6 o => bool_decide (o = ipv6_loopback)
  end.

(** ** Parsing addresses

    [str::parse] for the types of [std::net]: a reader takes a prefix of the
    text and returns the rest, or fails; a whole address must take it all. *)

Abbreviation reader A := (str → option (A * str)).

(** [char::to_digit(radix)]. *)
Definition to_digit (radix c : Z) : option Z :=
  let d := if (48 <=? c) && (c <=? 57) then c - 48
           else if (97 <=? c) && (c <=? 122) then c - 97 + 10
           else if (65 <=? c) && (c <=? 90) then c - 65 + 10
           else 36 in
  if d <? radix then Some d else None.

Definition read_given_char (c : Z) : reader unit := λ s,
  match s with x :: s' => if x =? c then Some ((), s') else None | [] => None end.

(** The run of digits at the start: its value and how many there are. *)
Fixpoint read_digits (radix : Z) (s : str) (v count : Z) : Z * Z * str :=
  match s with
  | c :: s' =>
      match to_digit radix c with
      | Some d => read_digits radix s' (v * radix + d) (count + 1)
      | None => (v, count, s)
      end
  | [] => (v, count, [])
  end.

(** [read_number]: at most [max_digits] digits (if given) and at most [max]. *)
Definition read_number (radix : Z) (max_digits : option Z) (allow_zero_prefix : bool)
    (max : Z) : reader Z := λ s,
  let '(v, count, rest) := read_digits radix s 0 0 in
  let has_leading_zero := bool_decide (head s = Some 48) in
  if match max_digits with Some m => m <? count | None => false end then None
  else if count =? 0 then None
  else if negb allow_zero_prefix && has_leading_zero && (1 <? count) then None
  else if v <=? max then Some (v, rest) else None.

(** [read_separator]: a separator before every element but the first. *)
Definition read_separator {A} (sep index : Z) (inner : reader A) : reader A := λ s,
  if 0 <? index then '(_, s) ← read_given_char sep s; inner s else inner s.

Definition read_ipv4 : reader bytes := λ s,
  let octet index := read_separator dot index (read_number 10 (Some 3) false 255) in
  '(a, s) ← octet 0 s; '(b, s) ← octet 1 s; '(c, s) ← octet 2 s; '(d, s) ← octet 3 s;
  Some ([a; b; c; d], s).

(** [read_groups]: up to [limit] groups of 16 bits, as octets; an IPv4 address
    may stand for the last two.  Returns the octets and whether it did. *)
Fixpoint read_groups (limit : nat) (index : Z) (s : str) : bytes * bool * str :=
  match limit with
  | O => ([], false, s)
  | S limit' =>
      match (if 0 <? Z.of_nat limit' then read_separator 58 index read_ipv4 s else None) with
      | Some (v4, s) => (v4, true, s)
      | None =>
          match read_separator 58 index (read_number 16 (Some 4) true 65535) s with
          | Some (group, s) =>
              let '(rest, ipv4, s) := read_groups limit' (index + 1) s in
              (u16_bytes group ++ rest, ipv4, s)
          | None => ([], false, s)
          end
      end
  end.

Definition read_ipv6 : reader bytes := λ s,
  let '(head, head_ipv4, s) := read_groups 8 0 s in
  if len head =? 16 then Some (head, s)
  else if head_ipv4 then None
  else
    '(_, s) ← read_given_char 58 s;
    '(_, s) ← read_given_char 58 s;
    let limit := 8 - (len head / 2 + 1) in
    let '(tail, _, s) := read_groups (Z.to_nat limit) 0 s in
    Some (head ++ replicate (Z.to_nat (16 - len head - len tail)) 0 ++ tail, s).

Definition read_port : reader Z := λ s,
  '(_, s) ← read_given_char 58 s; read_number 10 None true 65535 s.

Definition read_socket_v4 : reader SocketAddr := λ s,
  '(ip, s) ← read_ipv4 s; '(port, s) ← read_port s; Some (SockV4 ip port, s).

Definition read_scope_id : reader Z := λ s,
  '(_, s) ← read_given_char 37 s; read_number 10 None true (2 ^ 32 - 1) s.

Definition read_socket_v6 : reader SocketAddr := λ s,
  '(_, s) ← read_given_char 91 s;
  '(ip, s) ← read_ipv6 s;
  let '(scope, s) := default (0, s) (read_scope_id s) in
  '(_, s) ← read_given_char 93 s;
  '(port, s) ← read_port s;
  Some (SockV6 ip port 0 scope, s).

Definition whole {A} (r : reader A) (s : str) : option A :=
  match r s with Some (a, []) => Some a | _ => None end.

(** [read_atomically] over two alternatives. *)
Definition either {A} (r1 r2 : reader A) : reader A := λ s,
  match r1 s with Some x => Some x | None => r2 s end.

(** [str::parse::<IpAddr>] and [str::parse::<SocketAddr>]. *)
Definition parse_ip : str → option IpAddr :=
  whole (either (λ s, '(a, s) ← read_ipv4 s; Some (V4 a, s))
                (λ s, '(a, s) ← read_ipv6 s; Some (V6 a, s))).
Definition parse_ipv6 : str → option bytes := whole read_ipv6.
Definition parse_socket_addr : str → option SocketAddr :=
  whole (either read_socket_v4 read_socket_v6).

(** ** Printing addresses

    [Display] of [std::net]: an IPv4-mapped address ends in dotted form, and the
    first of the longest runs of two or more zero groups is written ["::"]. *)

Definition show_ipv4 (octets : bytes) : str := join_with [dot] (show_unsigned <$> octets).

Fixpoint segments (octets : bytes) : list Z :=
  match octets with
  | a :: b :: octets => (a * 256 + b) :: segments octets
  | _ => []
  end.

(** [{:x}]. *)
Fixpoint show_hex (fuel : nat) (v : Z) (acc : str) : str :=
  match fuel with
  | O => acc
  | S fuel =>
      let d := v mod 16 in
      let acc := (if d <? 10 then 48 + d else 87 + d) :: acc in
      if v / 16 =? 0 then acc else show_hex fuel (v / 16) acc
  end.

Definition show_segments (l : list Z) : str :=
  join_with (lit ":") ((λ s, show_hex 4 s []) <$> l).

(** The longest run of zeros so far, and the current one, as start and length. *)
Fixpoint longest_zeros (l : list Z) (i : Z) (longest current : Z * Z) : Z * Z :=
  match l with
  | [] => longest
  | s :: l =>
      if s =? 0 then
        let current := (if current.2 =? 0 then i else current.1, current.2 + 1) in
        longest_zeros l (i + 1) (if longest.2 <? current.2 then current else longest) current
      else longest_zeros l (i + 1) longest (0, 0)
  end.

Definition show_ipv6 (octets : bytes) : str :=
  let l := segments octets in
  if bool_decide (take 12 octets = replicate 10 0 ++ [255; 255])
  then lit "::ffff:" ++ show_ipv4 (drop 12 octets)
  else
    let '(start, n) := longest_zeros l 0 (0, 0) (0, 0) in
    if 1 <? n then
      show_segments (take (Z.to_nat start) l) ++ lit "::" ++ show_segments (drop (Z.to_nat (start + n)) l)
    else show_segments l.

Definition show_ip (a : IpAddr) : str :=
  match a with V4 o => show_ipv4 o | V6 o => show_ipv6 o end.

(** ** I/O errors *)

(** [io::Error]: the kinds the source makes or looks at, with their message;
    [IoOs] is one of the operating system, by its number. *)
Inductive IoError : Type :=
  | IoTimedOut (message : str)
  | IoWouldBlock
  | IoInvalidData (message : str)
  | IoInvalidInput (message : str)
  | IoWriteZero (message : str)
  | IoUnexpectedEof (message : str)
  | IoOs (errno : Z).

Abbreviation iores := (outcome IoError).
