(* ===== verification/NetFacts.v ===== *)
(** * Addresses: theorems

    Parsing an address gives one of the right length, whatever the text. *)

From S2P Require Import Prelude Text Net.

Lemma to_digit_bounds radix c d : to_digit radix c = Some d → 0 ≤ d < radix.
Proof.
  unfold to_digit; intros H.
  destruct ((48 <=? c) && (c <=? 57)) eqn:?, ((97 <=? c) && (c <=? 122)) eqn:?,
    ((65 <=? c) && (c <=? 90)) eqn:?; case_match; simplify_eq; boolp; lia.
Qed.

Lemma read_digits_nonneg radix s v n :
  0 ≤ radix → 0 ≤ v → 0 ≤ (read_digits radix s v n).1.1.
Proof.
  intros Hr; revert v n; induction s as [|c s IH]; intros v n Hv; cbn; [done|].
  destruct (to_digit radix c) eqn:Hd; cbn; [|done].
  apply to_digit_bounds in Hd; apply IH; nia.
Qed.

Lemma read_number_bounds radix m z max s v s' :
  0 ≤ radix → read_number radix m z max s = Some (v, s') → 0 ≤ v ≤ max.
Proof.
  intros Hr; unfold read_number.
  pose proof (read_digits_nonneg radix s 0 0 Hr ltac:(lia)) as Hv.
  destruct (read_digits radix s 0 0) as [[v' n] rest]; cbn in Hv.
  intros H; repeat (case_match; [done|]); case_match; simplify_eq; boolp; lia.
Qed.

Lemma read_separator_inner {A} sep i (inner : reader A) s a s' :
  read_separator sep i inner s = Some (a, s') → ∃ s0, inner s0 = Some (a, s').
Proof.
  unfold read_separator; case_match; [|eauto].
  intros H1; apply bind_Some in H1 as ([? s0] & _ & ?); eauto.
Qed.

Lemma read_ipv4_ok s o s' : read_ipv4 s = Some (o, s') → bytes_ok o ∧ len o = 4.
Proof.
  assert (∀ i s v s', read_separator dot i (read_number 10 (Some 3) false 255) s = Some (v, s') →
    is_u8 v) as Hoctet.
  { intros i s0 v s1 [? H]%read_separator_inner.
    apply read_number_bounds in H; [unfold is_u8; lia|lia]. }
  unfold read_ipv4; intros H.
  repeat (apply bind_Some in H as ([? ?] & ?%Hoctet & H)).
  simplify_eq; split; [|done].
  by repeat apply Forall_cons_2.
Qed.

(** Groups are of two octets each. *)
Lemma read_groups_ok limit i s :
  let '(o, v4, _) := read_groups limit i s in
  bytes_ok o ∧ ∃ n, len o = 2 * n ∧ n ≤ Z.of_nat limit.
Proof.
  revert i s; induction limit as [|limit IH]; intros i s; cbn [read_groups].
  { split; [constructor|]; by exists 0. }
  destruct (if 0 <? Z.of_nat limit then _ else None) as [[v4 s0]|] eqn:Hv4.
  { destruct (0 <? Z.of_nat limit) eqn:Hl0; [|done]; boolp.
    apply read_separator_inner in Hv4 as [? [Hb Hl]%read_ipv4_ok].
    split; [done|]; exists 2; lia. }
  destruct (read_separator 58 i (read_number 16 (Some 4) true 65535) s) as [[g s0]|] eqn:Hg; cycle 1.
  { split; [constructor|]; exists 0; split; [done|lia]. }
  apply read_separator_inner in Hg as [? Hg]; apply read_number_bounds in Hg; [|lia].
  specialize (IH (i + 1) s0); destruct (read_groups limit (i + 1) s0) as [[rest v4] s1].
  destruct IH as [Hb (n & Hn & ?)]; split.
  - apply bytes_ok_app; split; [apply u16_bytes_ok; unfold is_u16; lia|done].
  - exists (n + 1); split; [len_lia|lia].
Qed.

Lemma read_ipv6_ok s o s' : read_ipv6 s = Some (o, s') → bytes_ok o ∧ len o = 16.
Proof.
  unfold read_ipv6; pose proof (read_groups_ok 8 0 s) as Hh.
  destruct (read_groups 8 0 s) as [[head v4] s0]; destruct Hh as [Hb (n & Hn & ?)].
  case_match; [intros; simplify_eq; boolp; done|]; destruct v4; [done|]; boolp.
  intros H1; apply bind_Some in H1 as ([? s1] & _ & H1).
  apply bind_Some in H1 as ([? s2] & _ & H1).
  pose proof (read_groups_ok (Z.to_nat (8 - (len head / 2 + 1))) 0 s2) as Ht.
  destruct (read_groups _ 0 s2) as [[tail ?] s3]; destruct Ht as [Hbt (m & Hm & Hle)].
  simplify_eq; pose proof (len_nonneg head); pose proof (len_nonneg tail).
  replace (len head / 2) with n in Hle by (rewrite Hn, Z.mul_comm, Z.div_mul; lia).
  split; [|rewrite !len_app; unfold len at 2; rewrite length_replicate; lia].
  rewrite !bytes_ok_app; split_and!; [done| |done].
  apply Forall_replicate; unfold is_u8; lia.
Qed.

Lemma parse_ip_ok s ip : parse_ip s = Some ip → ip_ok ip.
Proof.
  unfold parse_ip, whole, either.
  destruct (read_ipv4 s) as [[o r]|] eqn:H4; cbn [mbind option_bind].
  - destruct r; intros; simplify_eq; by eapply read_ipv4_ok.
  - destruct (read_ipv6 s) as [[o r]|] eqn:H6; cbn [mbind option_bind]; [|done].
    destruct r; intros; simplify_eq; by eapply read_ipv6_ok.
Qed.
