(* ===== verification/Sorting.v ===== *)
(** * Sorting, deduplication and iteration order

    The parts of [Vec] and [HashMap] whose result depends on an order: the
    stable sorts of the standard library ([sort_by], [sort_by_key], and
    [sort_unstable] on values without distinguishable equals) as insertion into
    a sorted list, [dedup], and the order in which a [HashMap] is iterated, which is
    unspecified and therefore a parameter of the definitions that depend on
    it. *)

From S2P Require Import Prelude.

Section sort.
Context {A : Type} (le : A → A → bool).

(** Before the first element that is not less than [x]. *)
Fixpoint insert_sorted (x : A) (l : list A) : list A :=
  match l with
  | [] => [x]
  | y :: l' => if le x y then x :: l else y :: insert_sorted x l'
  end.

(** A stable sort: of equal elements the earlier comes first. *)
Definition sort_by (l : list A) : list A := foldr insert_sorted [] l.

Lemma insert_sorted_perm x l : insert_sorted x l ≡ₚ x :: l.
Proof.
  induction l as [|y l IH]; cbn; [done|]; case_match; [done|].
  rewrite IH; apply Permutation_swap.
Qed.

Lemma sort_by_perm l : sort_by l ≡ₚ l.
Proof. induction l as [|x l IH]; cbn; [done|]; by rewrite insert_sorted_perm, IH. Qed.

Definition leP (x y : A) : Prop := le x y = true.

Hypothesis le_total : ∀ x y, le x y = true ∨ le y x = true.
Hypothesis le_trans : ∀ x y z, le x y = true → le y z = true → le x z = true.

Lemma insert_sorted_sorted x l :
  StronglySorted leP l → StronglySorted leP (insert_sorted x l).
Proof using le_total le_trans.
  induction 1 as [|y l Hs IH Hy]; cbn; [repeat constructor|]; case_match eqn:Hxy.
  - constructor; [by constructor|]; constructor; [done|].
    eapply Forall_impl; [exact Hy|]; intros z; unfold leP; by apply le_trans.
  - constructor; [done|]; rewrite insert_sorted_perm; constructor; [|done].
    destruct (le_total x y); [congruence|done].
Qed.

Lemma sort_by_sorted l : StronglySorted leP (sort_by l).
Proof using le_total le_trans.
  induction l as [|x l IH]; cbn; [constructor|]; by apply insert_sorted_sorted.
Qed.
End sort.

Lemma StronglySorted_mono {A} (R S : A → A → Prop) l :
  (∀ x y, R x y → S x y) → StronglySorted R l → StronglySorted S l.
Proof.
  intros HRS; induction 1 as [|x l Hs IH Hx]; constructor; [done|].
  eapply Forall_impl; [exact Hx|]; auto.
Qed.

Lemma StronglySorted_app_inv {A} (R : A → A → Prop) l1 l2 x y :
  StronglySorted R (l1 ++ l2) → x ∈ l1 → y ∈ l2 → R x y.
Proof.
  induction l1 as [|z l1 IH]; cbn; [set_solver|]; intros Hs [->|Hx]%elem_of_cons Hy.
  - inversion_clear Hs as [|? ? _ Hz]; rewrite Forall_forall in Hz; apply Hz; set_solver.
  - inversion_clear Hs; by apply IH.
Qed.

(** [Vec::dedup]: of consecutive equal elements the first is kept. *)
Fixpoint dedup {A} `{EqDecision A} (l : list A) : list A :=
  match l with
  | [] => []
  | x :: l' =>
      match dedup l' with
      | [] => [x]
      | y :: r => if bool_decide (x = y) then y :: r else x :: y :: r
      end
  end.

Lemma dedup_head {A} `{EqDecision A} (x : A) l : ∃ r, dedup (x :: l) = x :: r.
Proof. cbn; destruct (dedup l) as [|y r]; [eauto|]; case_bool_decide; subst; eauto. Qed.

Lemma elem_of_dedup {A} `{EqDecision A} (l : list A) x : x ∈ dedup l ↔ x ∈ l.
Proof.
  induction l as [|y l IH]; [done|]; cbn; destruct (dedup l) as [|z r]; [set_solver|].
  case_bool_decide; subst; set_solver.
Qed.

(** On a sorted list of integers it removes every duplicate. *)
Lemma dedup_sorted (l : list Z) :
  StronglySorted Z.le l → StronglySorted Z.lt (dedup l).
Proof.
  induction 1 as [|x l Hs IH Hx]; cbn; [constructor|].
  destruct (dedup l) as [|y r] eqn:Hd; [repeat constructor|].
  case_bool_decide; [done|]; constructor; [done|].
  assert (y ∈ l) as Hy by (apply elem_of_dedup; rewrite Hd; set_solver).
  rewrite Forall_forall in Hx; specialize (Hx y Hy).
  inversion_clear IH as [|? ? _ Hr]; constructor; [lia|].
  eapply Forall_impl; [exact Hr|]; lia.
Qed.

(** ** Ordered maps

    The entries of a [BTreeMap] with integer keys, in the order of the keys. *)

Definition key_le {A} (a b : Z * A) : bool := a.1 <=? b.1.

Definition ordered {A} (m : gmap Z A) : list (Z * A) := sort_by key_le (map_to_list m).

Lemma key_le_total {A} (a b : Z * A) : key_le a b = true ∨ key_le b a = true.
Proof. unfold key_le; rewrite !Z.leb_le; lia. Qed.

Lemma key_le_trans {A} (a b c : Z * A) :
  key_le a b = true → key_le b c = true → key_le a c = true.
Proof. unfold key_le; rewrite !Z.leb_le; lia. Qed.

Lemma elem_of_ordered {A} (m : gmap Z A) i x : (i, x) ∈ ordered m ↔ m !! i = Some x.
Proof. unfold ordered; by rewrite sort_by_perm, elem_of_map_to_list. Qed.

Lemma ordered_sorted {A} (m : gmap Z A) : StronglySorted (leP key_le) (ordered m).
Proof. apply sort_by_sorted; [apply key_le_total|apply key_le_trans]. Qed.

(** A new key is inserted at its place. *)
Lemma ordered_insert_new {A} (m : gmap Z A) i x :
  m !! i = None → ordered (<[i := x]> m) = insert_sorted key_le (i, x) (ordered m).
Proof.
  intros Hi; assert (ordered (<[i := x]> m) ≡ₚ insert_sorted key_le (i, x) (ordered m)) as Hp.
  { unfold ordered; by rewrite insert_sorted_perm, !sort_by_perm, map_to_list_insert. }
  eapply StronglySorted_unique_strong; [|apply ordered_sorted| |exact Hp].
  - intros [j y] [k z] Hj Hk Hle Hle'; rewrite <- Hp in Hk; apply elem_of_ordered in Hj, Hk.
    unfold leP, key_le in *; cbn in *; assert (j = k) as -> by lia; congruence.
  - apply insert_sorted_sorted; [apply key_le_total|apply key_le_trans|apply ordered_sorted].
Qed.

Lemma omap_insert_sorted {A B} (f : A → option B) le x l :
  f x = None → omap f (insert_sorted le x l) = omap f l.
Proof.
  intros Hx; induction l as [|y l IH]; cbn; [by rewrite Hx|].
  case_match; cbn; [by rewrite Hx|]; by rewrite IH.
Qed.

(** ** Maxima and minima *)

(** [Iterator::max]. *)
Definition max_of (l : list Z) : option Z :=
  foldr (λ x acc, Some (match acc with Some y => Z.max x y | None => x end)) None l.

Lemma max_of_None l : max_of l = None ↔ l = [].
Proof. by destruct l. Qed.

Lemma max_of_Some l m : max_of l = Some m ↔ m ∈ l ∧ ∀ x, x ∈ l → x ≤ m.
Proof.
  revert m; induction l as [|y l IH]; intros m.
  { split; [done|]; intros [[]%not_elem_of_nil _]. }
  cbn; fold (max_of l); destruct (max_of l) as [k|] eqn:Hl.
  - destruct (proj1 (IH k) eq_refl) as [Hk Hmax]; split.
    + intros [= Hm]; split.
      * assert (m = y ∨ m = k) as [-> | ->] by lia; [by left|by right].
      * intros x [->|Hx]%elem_of_cons; [lia|]; specialize (Hmax x Hx); lia.
    + intros [Hm Hall]; f_equal; assert (k ≤ m) by (apply Hall; by right).
      assert (y ≤ m) by (apply Hall; by left).
      apply elem_of_cons in Hm as [->|Hm]; [lia|]; specialize (Hmax m Hm); lia.
  - apply max_of_None in Hl as ->; split.
    + intros [= <-]; split; [by left|]; by intros x ->%list_elem_of_singleton.
    + by intros [->%list_elem_of_singleton _].
Qed.

(** [Iterator::min]. *)
Definition min_of (l : list Z) : option Z :=
  match l with
  | [] => None
  | x :: l => Some (foldl Z.min x l)
  end.

Lemma min_of_Some l n : min_of l = Some n ↔ n ∈ l ∧ ∀ x, x ∈ l → n ≤ x.
Proof.
  assert (∀ l x, foldl Z.min x l ∈ x :: l ∧ ∀ y, y ∈ x :: l → foldl Z.min x l ≤ y) as Hf.
  { clear; induction l as [|z l IH]; intros x; cbn [foldl]; [set_solver by lia|].
    destruct (IH (Z.min x z)) as [Hin Hle]; split.
    - apply elem_of_cons in Hin as [->|?]; [|set_solver].
      destruct (Z.min_spec x z) as [[_ ->]|[_ ->]]; set_solver.
    - pose proof (Hle (Z.min x z) ltac:(set_solver)).
      intros y [->|[->|?]%elem_of_cons]%elem_of_cons; [lia..|]; apply Hle; set_solver. }
  destruct l as [|x l]; cbn [min_of]; [set_solver|].
  destruct (Hf l x) as [Hin Hle]; split.
  - by intros [= <-].
  - intros [Hn Hall]; f_equal.
    pose proof (Hall _ Hin); pose proof (Hle _ Hn); lia.
Qed.

(** ** Collecting without duplicates *)

(** The loop [if !output.contains(&x) { output.push(x) }]. *)
Definition push_new {A} `{EqDecision A} (output : list A) (x : A) : list A :=
  if bool_decide (x ∈ output) then output else output ++ [x].

(** [for x in xs { let x = f(x)?; if !output.contains(&x) { output.push(x) } }] *)
Fixpoint push_normalized {A B E} `{EqDecision B} (f : A → outcome E B) (xs : list A)
    (output : list B) : outcome E (list B) :=
  match xs with
  | [] => Ok output
  | x :: xs => x ← f x; push_normalized f xs (push_new output x)
  end.

Lemma elem_of_push_new {A} `{EqDecision A} (l : list A) x y : y ∈ push_new l x ↔ y ∈ l ∨ y = x.
Proof. unfold push_new; case_bool_decide; [set_solver|]; rewrite elem_of_app; set_solver. Qed.

Lemma elem_of_foldl_push_new {A} `{EqDecision A} (l output : list A) x :
  x ∈ foldl push_new output l ↔ x ∈ output ∨ x ∈ l.
Proof.
  revert output; induction l as [|y l IH]; intros output; cbn [foldl].
  - rewrite elem_of_nil; tauto.
  - rewrite IH, elem_of_push_new, elem_of_cons; tauto.
Qed.

Lemma push_new_NoDup {A} `{EqDecision A} (l : list A) x : NoDup l → NoDup (push_new l x).
Proof.
  intros Hl; unfold push_new; case_bool_decide; [done|].
  apply NoDup_app; split_and!; [done|set_solver|by apply NoDup_singleton].
Qed.

Lemma push_normalized_spec {A B E} `{EqDecision B} (f : A → outcome E B) xs output l :
  push_normalized f xs output = Ok l → NoDup output →
  NoDup l ∧ ∀ y, y ∈ l ↔ y ∈ output ∨ ∃ x, x ∈ xs ∧ f x = Ok y.
Proof.
  revert output; induction xs as [|x xs IH]; intros output; cbn [push_normalized].
  { intros [= <-] Hd; split; [done|]; intros y; split; [by left|].
    intros [?|(x & []%not_elem_of_nil & _)]; done. }
  intros (y & Hy & H)%bind_Ok Hd; apply IH in H as [Hl Hin]; [|by apply push_new_NoDup].
  split; [done|]; intros z; rewrite Hin, elem_of_push_new; split.
  - intros [[?| ->]|(x' & Hx' & Hf)]; [by left|right; exists x; split; [by left|done]|].
    right; exists x'; split; [by right|done].
  - intros [?|(x' & [-> |Hx']%elem_of_cons & Hf)]; [by left; left| |by right; eauto].
    left; right; congruence.
Qed.

(** An iteration order: a [HashMap] yields each of its entries once, in an order
    that may change from one iteration to the next ([token]). *)
Class IterOrder (K V : Type) `{Countable K} := iter_order :
  Z → gmap K V → list (K * V).

Class IterOrderOk {K V : Type} `{Countable K} (io : IterOrder K V) : Prop :=
  iter_order_perm token m : iter_order token m ≡ₚ map_to_list m.

(** The order of the [gmap] itself is one. *)
Definition map_order {K V} `{Countable K} : IterOrder K V := λ _ m, map_to_list m.

#[global] Instance map_order_ok {K V} `{Countable K} : IterOrderOk (@map_order K V _ _).
Proof. by intros token m. Qed.
