(* ===== verification/ConfigTypes.v ===== *)
(** * Configuration: types

    Models [src/config_types.rs]: the modes and their spellings, server
    specifications, stub listeners, domains, and the configuration with its
    defaults. *)

From S2P Require Import Prelude Text Net.

(** [ConfigError], of [src/config_helpers.rs].  An I/O error is its message. *)
Inductive ConfigError : Type :=
  | ConfigIo (error : str)
  | InvalidServer (server : str)
  | InvalidValue (value : str)
  | ConfigLine (line : Z) (error : str).

Abbreviation cres := (outcome ConfigError).

Inductive SupportMode : Type := SupportNo | SupportResolve | SupportYes.
Inductive ValidationMode : Type := ValidationNo | AllowDowngrade | ValidationYes.
Inductive TlsMode : Type := TlsNo | Opportunistic | TlsYes.
Inductive DnsStubListenerMode : Type := StubNo | StubUdp | StubTcp | StubYes.

#[global] Instance SupportMode_eq_dec : EqDecision SupportMode.
Proof. solve_decision. Defined.
#[global] Instance ValidationMode_eq_dec : EqDecision ValidationMode.
Proof. solve_decision. Defined.
#[global] Instance TlsMode_eq_dec : EqDecision TlsMode.
Proof. solve_decision. Defined.
#[global] Instance DnsStubListenerMode_eq_dec : EqDecision DnsStubListenerMode.
Proof. solve_decision. Defined.

(** The arms of a [match] on a string literal: the first one listed. *)
Fixpoint match_str {A} (s : str) (arms : list (string * A)) : option A :=
  match arms with
  | [] => None
  | (l, a) :: arms => if bool_decide (s = lit l) then Some a else match_str s arms
  end.

Definition parse_mode {A} (arms : list (string * A)) (value : str) : cres A :=
  let other := to_ascii_lowercase (trim value) in
  ok_or (match_str other arms) (InvalidValue other).

Definition support_mode_parse : str → cres SupportMode :=
  parse_mode [("no", SupportNo); ("false", SupportNo); ("off", SupportNo); ("0", SupportNo);
              ("resolve", SupportResolve);
              ("yes", SupportYes); ("true", SupportYes); ("on", SupportYes); ("1", SupportYes)].

Definition validation_mode_parse : str → cres ValidationMode :=
  parse_mode [("no", ValidationNo); ("false", ValidationNo); ("off", ValidationNo);
              ("0", ValidationNo); ("allow-downgrade", AllowDowngrade);
              ("yes", ValidationYes); ("true", ValidationYes); ("on", ValidationYes);
              ("1", ValidationYes)].

Definition tls_mode_parse : str → cres TlsMode :=
  parse_mode [("no", TlsNo); ("false", TlsNo); ("off", TlsNo); ("0", TlsNo);
              ("opportunistic", Opportunistic);
              ("yes", TlsYes); ("true", TlsYes); ("on", TlsYes); ("1", TlsYes)].

Definition stub_mode_parse : str → cres DnsStubListenerMode :=
  parse_mode [("no", StubNo); ("false", StubNo); ("off", StubNo); ("0", StubNo);
              ("udp", StubUdp); ("tcp", StubTcp);
              ("yes", StubYes); ("true", StubYes); ("on", StubYes); ("1", StubYes)].

Definition udp_enabled (m : DnsStubListenerMode) : bool :=
  match m with StubUdp | StubYes => true | _ => false end.

Definition tcp_enabled (m : DnsStubListenerMode) : bool :=
  match m with StubTcp | StubYes => true | _ => false end.

Definition stub_mode_as_str (m : DnsStubListenerMode) : str :=
  match m with
  | StubNo => lit "no" | StubUdp => lit "udp" | StubTcp => lit "tcp" | StubYes => lit "yes"
  end.

Record DnsServerSpec : Type := mk_spec {
  address : SocketAddr;
  interface : option str;
  server_name : option str;
}.
#[global] Instance DnsServerSpec_eq_dec : EqDecision DnsServerSpec.
Proof. solve_decision. Defined.

(** An address without interface or name. *)
Definition plain_spec (a : SocketAddr) : DnsServerSpec := mk_spec a None None.

Record DnsStubListenerExtra : Type := mk_extra {
  extra_address : SocketAddr;
  extra_mode : DnsStubListenerMode;
}.
#[global] Instance DnsStubListenerExtra_eq_dec : EqDecision DnsStubListenerExtra.
Proof. solve_decision. Defined.

(** A socket address, or an address on the DNS port. *)
Definition parse_address_port (s : str) : option SocketAddr :=
  match parse_socket_addr s with
  | Some a => Some a
  | None => (λ ip, sock_new ip 53) <$> parse_ip s
  end.

Definition stub_extra_parse (value : str) : cres DnsStubListenerExtra :=
  let value := trim value in
  let '(mode, address) :=
    match strip_prefix (lit "udp:") value with
    | Some address => (StubUdp, address)
    | None =>
        match strip_prefix (lit "tcp:") value with
        | Some address => (StubTcp, address)
        | None => (StubYes, value)
        end
    end in
  if bool_decide (address = []) then Err (InvalidValue value)
  else
    match parse_address_port address with
    | Some address => Ok (mk_extra address mode)
    | None => Err (InvalidValue value)
    end.

Record Domain : Type := mk_domain {
  d_name : str;
  d_route_only : bool;
}.
#[global] Instance Domain_eq_dec : EqDecision Domain.
Proof. solve_decision. Defined.

Record ConfigAssignments : Type := mk_assignments {
  as_dns : bool;
  as_domains : bool;
}.

Definition merge (a b : ConfigAssignments) : ConfigAssignments :=
  mk_assignments (as_dns a || as_dns b) (as_domains a || as_domains b).

Record Config : Type := mk_config {
  upstreams : list SocketAddr;
  upstream_specs : list DnsServerSpec;
  fallback_upstreams : list SocketAddr;
  fallback_upstream_specs : list DnsServerSpec;
  listeners : list SocketAddr;
  proxy_listeners : list SocketAddr;
  dns_stub_listener : DnsStubListenerMode;
  dns_stub_listener_extra : list DnsStubListenerExtra;
  domains : list Domain;
  refuse_record_types : gset Z;
  varlink_path : str;
  runtime_directory : str;
  hosts_path : str;
  cache : bool;
  cache_negative : bool;
  cache_from_localhost : bool;
  cache_size : Z;
  llmnr_cache_size : Z;
  multicast_dns_cache_size : Z;
  cache_max_ttl : Z;
  stale_retention : Z;
  query_timeout : Z;
  attempts : Z;
  workers : Z;
  read_etc_hosts : bool;
  read_static_records : bool;
  resolve_unicast_single_label : bool;
  llmnr : SupportMode;
  multicast_dns : SupportMode;
  dnssec : ValidationMode;
  dns_over_tls : TlsMode;
}.

(** [Ipv6Addr::new] of 8 segments. *)
Definition ipv6_new (segments : list Z) : bytes := segments ≫= u16_bytes.

Definition default_fallback_upstreams : list SocketAddr :=
  ((λ o, SockV4 o 53) <$>
    [[1; 1; 1; 1]; [8; 8; 8; 8]; [9; 9; 9; 9]; [1; 0; 0; 1]; [8; 8; 4; 4]; [149; 112; 112; 112]])
  ++ ((λ s, sock_new (V6 (ipv6_new s)) 53) <$>
    [[0x2606; 0x4700; 0x4700; 0; 0; 0; 0; 0x1111]; [0x2001; 0x4860; 0x4860; 0; 0; 0; 0; 0x8888];
     [0x2620; 0xfe; 0; 0; 0; 0; 0; 0xfe]; [0x2606; 0x4700; 0x4700; 0; 0; 0; 0; 0x1001];
     [0x2001; 0x4860; 0x4860; 0; 0; 0; 0; 0x8844]; [0x2620; 0xfe; 0; 0; 0; 0; 0; 9]]).

Definition config_default : Config := {|
  upstreams := [];
  upstream_specs := [];
  fallback_upstreams := default_fallback_upstreams;
  fallback_upstream_specs := [];
  listeners := [SockV4 [127; 0; 0; 53] 53];
  proxy_listeners := [SockV4 [127; 0; 0; 54] 53];
  dns_stub_listener := StubYes;
  dns_stub_listener_extra := [];
  domains := [];
  refuse_record_types := ∅;
  varlink_path := lit "/run/systemd/resolve/io.systemd.Resolve";
  runtime_directory := lit "/run/systemd/resolve";
  hosts_path := lit "/etc/hosts";
  cache := true;
  cache_negative := true;
  cache_from_localhost := false;
  cache_size := 4096;
  llmnr_cache_size := 4096;
  multicast_dns_cache_size := 4096;
  cache_max_ttl := 2 * 60 * 60 * second;
  stale_retention := 0;
  query_timeout := 5 * second;
  attempts := 24;
  workers := 4;
  read_etc_hosts := true;
  read_static_records := true;
  resolve_unicast_single_label := false;
  llmnr := SupportYes;
  multicast_dns := SupportYes;
  dnssec := AllowDowngrade;
  dns_over_tls := TlsNo;
|}.
