(* ===== verification/Codec.v ===== *)
(** * The DNS wire codec

    Models [src/wire.rs] (the header, the name, question and record types) and
    [src/wire/codec.rs] (reading and writing integers, expanding compressed
    names, encoding names, parsing questions, records and whole packets).

    [Names] gives the abstract specification of a compressed name at an offset
    ([name_at]) and the theorems that [read_name] decides it; the records of
    the rest of the wire layer are proved against that specification. *)

From S2P Require Import Prelude Text.

(** ** Constants and data *)

Definition DNS_HEADER_LEN : Z := 12.
Definition CLASS_IN : Z := 1.
Definition CLASS_ANY : Z := 255.
Definition TYPE_A : Z := 1.
Definition TYPE_NS : Z := 2.
Definition TYPE_CNAME : Z := 5.
Definition TYPE_SOA : Z := 6.
Definition TYPE_PTR : Z := 12.
Definition TYPE_TXT : Z := 16.
Definition TYPE_AAAA : Z := 28.
Definition TYPE_SRV : Z := 33.
Definition TYPE_DNAME : Z := 39.
Definition TYPE_OPT : Z := 41.
Definition TYPE_RRSIG : Z := 46.
Definition TYPE_TSIG : Z := 250.
Definition TYPE_ANY : Z := 255.

Definition FLAG_QR : Z := 0x8000.
Definition FLAG_OPCODE : Z := 0x7800.
Definition FLAG_AA : Z := 0x0400.
Definition FLAG_TC : Z := 0x0200.
Definition FLAG_RD : Z := 0x0100.
Definition FLAG_RA : Z := 0x0080.
Definition FLAG_CD : Z := 0x0010.
Definition RCODE_MASK : Z := 0x000f.

Inductive WireError : Type :=
  | ShortPacket
  | InvalidLabel
  | CompressionLoop
  | NameTooLong
  | TrailingData
  | WrongDirection
  | UnsupportedOpcode (opcode : Z)
  | WrongQuestionCount (count : Z)
  | NoQuestion
  | QuestionMismatch
  | InvalidName (name : str)
  | InvalidRecord
  | CnameLoop
  | ResponseTooLarge.

Abbreviation wres := (outcome WireError).

#[global] Instance WireError_eq_dec : EqDecision WireError.
Proof. solve_decision. Defined.

Record Header : Type := mk_header {
  h_id : Z;
  h_flags : Z;
  h_question_count : Z;
  h_answer_count : Z;
  h_authority_count : Z;
  h_additional_count : Z;
}.

Record DnsName : Type := mk_name {
  name_text : str;
  canonical_wire : bytes;
}.

Record Question : Type := mk_question {
  q_name : DnsName;
  q_rr_type : Z;
  q_class : Z;
  q_next_offset : Z;
}.

Record ResourceRecord : Type := mk_record {
  r_name : DnsName;
  r_rr_type : Z;
  r_class : Z;
  r_ttl : Z;
  r_ttl_offset : Z;
  r_rdata_offset : Z;
  r_rdata : bytes;
  r_next_offset : Z;
}.

#[global] Instance Header_eq_dec : EqDecision Header.
Proof. solve_decision. Defined.
#[global] Instance DnsName_eq_dec : EqDecision DnsName.
Proof. solve_decision. Defined.

(** ** Integers in a packet *)

Definition checked_end (offset length : Z) : wres Z :=
  ok_or (checked_add usize_max offset length) ShortPacket.

Definition read_u16 (packet : bytes) (offset : Z) : wres Z :=
  e ← checked_end offset 2;
  bs ← ok_or (slice packet offset e) ShortPacket;
  match bs with
  | [a; b] => Ok (be16 a b)
  | _ => Panic
  end.

Definition read_u32 (packet : bytes) (offset : Z) : wres Z :=
  e ← checked_end offset 4;
  bs ← ok_or (slice packet offset e) ShortPacket;
  match bs with
  | [a; b; c; d] => Ok (be32 a b c d)
  | _ => Panic
  end.

(** A function that takes [packet: &mut [u8]] returns the new packet. *)
Definition write_u16 (packet : bytes) (offset value : Z) : wres bytes :=
  _ ← checked_end offset 2;
  ok_or (splice packet offset (u16_bytes value)) ShortPacket.

Definition write_u32 (packet : bytes) (offset value : Z) : wres bytes :=
  _ ← checked_end offset 4;
  ok_or (splice packet offset (u32_bytes value)) ShortPacket.

(** ** The header *)

Definition header_parse (packet : bytes) : wres Header :=
  if len packet <? DNS_HEADER_LEN then Err ShortPacket
  else
    id ← read_u16 packet 0;
    flags ← read_u16 packet 2;
    question_count ← read_u16 packet 4;
    answer_count ← read_u16 packet 6;
    authority_count ← read_u16 packet 8;
    additional_count ← read_u16 packet 10;
    Ok (mk_header id flags question_count answer_count authority_count
          additional_count).

Definition is_response (h : Header) : bool :=
  negb (Z.land (h_flags h) FLAG_QR =? 0).
Definition truncated (h : Header) : bool :=
  negb (Z.land (h_flags h) FLAG_TC =? 0).
Definition response_code (h : Header) : Z := Z.land (h_flags h) RCODE_MASK.
Definition checking_disabled (h : Header) : bool :=
  negb (Z.land (h_flags h) FLAG_CD =? 0).
Definition opcode (h : Header) : Z :=
  Z.shiftr (Z.land (h_flags h) FLAG_OPCODE) 11.
Definition total_records (h : Header) : Z :=
  h_answer_count h + h_authority_count h + h_additional_count h.

(** ** Names *)

Definition is_plain (b : Z) : bool :=
  ((65 <=? b) && (b <=? 90)) || ((97 <=? b) && (b <=? 122)) ||
  ((48 <=? b) && (b <=? 57)) || (b =? 45) || (b =? 95).

(** Bytes outside [A-Za-z0-9_-] are printed as a backslash and three digits. *)
Definition display_byte (b : Z) : str :=
  if is_plain b then [b]
  else [92; 48 + b / 100; 48 + (b / 10) mod 10; 48 + b mod 10].

Definition display_label (label : bytes) : str := label ≫= display_byte.

Fixpoint read_name_loop (fuel : nat) (packet : bytes) (cursor next_offset : Z)
    (jumped : bool) (pointer_steps expanded_length : Z) (labels : list str)
    (canonical : bytes) : wres (list str * bytes * Z) :=
  match fuel with
  | O => Diverge
  | S fuel =>
      length ← ok_or (bget packet cursor) ShortPacket;
      if length =? 0 then
        let next_offset := if jumped then next_offset else cursor + 1 in
        Ok (labels, canonical ++ [0], next_offset)
      else if Z.land length 0xc0 =? 0xc0 then
        second ← ok_or (bget packet (cursor + 1)) ShortPacket;
        let pointer := Z.lor (Z.shiftl (Z.land length 0x3f) 8) second in
        if (cursor <=? pointer) || (len packet <=? pointer)
        then Err CompressionLoop
        else
          let pointer_steps := pointer_steps + 1 in
          if 128 <? pointer_steps then Err CompressionLoop
          else
            let next_offset := if jumped then next_offset else cursor + 2 in
            read_name_loop fuel packet pointer next_offset true pointer_steps
              expanded_length labels canonical
      else if negb (Z.land length 0xc0 =? 0) || (63 <? length)
      then Err InvalidLabel
      else
        let start := cursor + 1 in
        stop ← checked_end start length;
        label ← ok_or (slice packet start stop) ShortPacket;
        expanded_length ←
          ok_or (checked_add usize_max expanded_length (length + 1)) NameTooLong;
        if 255 <? expanded_length then Err NameTooLong
        else
          read_name_loop fuel packet stop
            (if jumped then next_offset else stop) jumped pointer_steps
            expanded_length (labels ++ [display_label label])
            (canonical ++ length :: to_ascii_lowercase label)
  end.

(** At most 127 labels of two octets or more fit in 255, and the code follows
    at most 128 pointers: 384 rounds are enough ([read_name_loop_safe]). *)
Definition read_name_fuel : nat := 384.

Definition read_name (packet : bytes) (offset : Z) : wres (DnsName * Z) :=
  if len packet <=? offset then Err ShortPacket
  else
    '(labels, canonical, next_offset) ←
      read_name_loop read_name_fuel packet offset offset false 0 1 [] [];
    let text := match labels with
                | [] => lit "."
                | _ => join_with (lit ".") labels
                end in
    Ok (mk_name text canonical, next_offset).

Fixpoint encode_labels (name : str) (labels : list str) (output : bytes) :
    wres bytes :=
  match labels with
  | [] => Ok output
  | label :: rest =>
      if bool_decide (label = []) || (63 <? str_len label)
      then Err (InvalidName name)
      else
        n ← (if str_len label <=? u8_max then Ok (str_len label)
             else Err NameTooLong);
        encode_labels name rest (output ++ n :: as_bytes label)
  end.

Definition encode_name (name : str) : wres bytes :=
  let stripped := default name (strip_suffix name [dot]) in
  if bool_decide (stripped = []) then Ok [0]
  else if negb (is_ascii stripped) then Err (InvalidName name)
  else
    output ← encode_labels name (split_on dot stripped) [];
    let output := output ++ [0] in
    if 255 <? len output then Err NameTooLong else Ok output.

(** ** Questions, records and packets *)

Definition parse_question (packet : bytes) (offset : Z) : wres Question :=
  '(name, offset) ← read_name packet offset;
  rr_type ← read_u16 packet offset;
  class ← read_u16 packet (offset + 2);
  Ok (mk_question name rr_type class (offset + 4)).

Definition parse_record (packet : bytes) (offset : Z) : wres ResourceRecord :=
  '(name, offset) ← read_name packet offset;
  rr_type ← read_u16 packet offset;
  class ← read_u16 packet (offset + 2);
  let ttl_offset := offset + 4 in
  ttl ← read_u32 packet ttl_offset;
  rdata_length ← read_u16 packet (offset + 8);
  let rdata_offset := offset + 10 in
  next_offset ← checked_end rdata_offset rdata_length;
  rdata ← ok_or (slice packet rdata_offset next_offset) ShortPacket;
  Ok (mk_record name rr_type class ttl ttl_offset rdata_offset rdata
        next_offset).

(** [for _ in 0..n { q = parse_question(..)?; offset = q.next_offset; .. }] *)
Fixpoint parse_questions (n : nat) (packet : bytes) (offset : Z) :
    wres (list Question * Z) :=
  match n with
  | O => Ok ([], offset)
  | S n =>
      question ← parse_question packet offset;
      '(rest, stop) ← parse_questions n packet (q_next_offset question);
      Ok (question :: rest, stop)
  end.

Fixpoint parse_records (n : nat) (packet : bytes) (offset : Z) :
    wres (list ResourceRecord * Z) :=
  match n with
  | O => Ok ([], offset)
  | S n =>
      record ← parse_record packet offset;
      '(rest, stop) ← parse_records n packet (r_next_offset record);
      Ok (record :: rest, stop)
  end.

Definition parse_sections (packet : bytes) :
    wres (Header * list Question * list ResourceRecord * Z) :=
  header ← header_parse packet;
  '(questions, offset) ←
    parse_questions (Z.to_nat (h_question_count header)) packet DNS_HEADER_LEN;
  '(records, offset) ←
    parse_records (Z.to_nat (total_records header)) packet offset;
  Ok (header, questions, records, offset).
