(* ===== verification/Names.v ===== *)
(** * Compressed names

    The abstract specification of a name in a packet ([name_at]: RFC 1035
    labels and backward compression pointers) and the proof that [read_name] of
    [src/wire/codec.rs] decides it within the limits the code imposes (255
    octets, 128 pointers); then the round trip with [encode_name]. *)

From S2P Require Import Prelude Text Codec.

(** A Rust byte slice: octets, and a length within [isize]. *)
Definition packet_ok (p : bytes) : Prop := bytes_ok p ∧ len p < 2 ^ 63.

Lemma packet_ok_bytes p : packet_ok p → bytes_ok p.
Proof. by intros []. Qed.

(** ** Specification *)

Inductive name_at (p : bytes) : Z → list bytes → Z → Z → Prop :=
  | name_root o :
      bget p o = Some 0 →
      name_at p o [] 0 (o + 1)
  | name_label o l label labels k next :
      bget p o = Some l →
      0 < l ≤ 63 →
      slice p (o + 1) (o + 1 + l) = Some label →
      name_at p (o + 1 + l) labels k next →
      name_at p o (label :: labels) k next
  | name_pointer o l second labels k next :
      bget p o = Some l →
      192 ≤ l →
      bget p (o + 1) = Some second →
      (l - 192) * 256 + second < o →
      name_at p ((l - 192) * 256 + second) labels k next →
      name_at p o labels (k + 1) (o + 2).

(** The uncompressed encoding of a list of labels, and its lower-case form. *)
Definition wire_of_labels (labels : list bytes) : bytes :=
  (labels ≫= λ l, len l :: l) ++ [0].
Definition canonical_of_labels (labels : list bytes) : bytes :=
  (labels ≫= λ l, len l :: to_ascii_lowercase l) ++ [0].

Definition text_of_labels (labels : list bytes) : str :=
  match labels with
  | [] => lit "."
  | _ => join_with (lit ".") (display_label <$> labels)
  end.

(** The octets a list of labels occupies, without the root. *)
Definition labels_len (labels : list bytes) : Z :=
  foldr (λ l n, len l + 1 + n) 0 labels.

(** A label as the wire format allows it. *)
Definition label_ok (label : bytes) : Prop := 0 < len label ≤ 63.

(** ** Octets *)

Lemma u8_forall (P : Z → bool) :
  forallb P (Z.of_nat <$> seq 0 256) = true → ∀ b, is_u8 b → P b = true.
Proof.
  intros H b Hb; rewrite forallb_forall in H; apply H.
  apply list_elem_of_In, list_elem_of_fmap; exists (Z.to_nat b).
  unfold is_u8 in Hb; split; [lia|]; apply elem_of_seq; lia.
Qed.

Lemma land_c0 l :
  is_u8 l →
  (Z.land l 0xc0 =? 0xc0) = (192 <=? l) ∧
  negb (Z.land l 0xc0 =? 0) || (63 <? l) = (63 <? l) ∧
  (192 ≤ l → Z.land l 0x3f = l - 192).
Proof.
  intros Hl.
  pose proof (u8_forall (λ l,
    Bool.eqb (Z.land l 0xc0 =? 0xc0) (192 <=? l) &&
    Bool.eqb (negb (Z.land l 0xc0 =? 0) || (63 <? l)) (63 <? l) &&
    (negb (192 <=? l) || (Z.land l 0x3f =? l - 192))) eq_refl l Hl) as H.
  cbn beta in H; boolp.
  split_and!; try (by apply Bool.eqb_prop).
  intros Hge; destruct H0 as [H0|H0]; boolp; lia.
Qed.

Lemma pointer_value a b : 0 ≤ a → is_u8 b → Z.lor (Z.shiftl a 8) b = a * 256 + b.
Proof.
  intros Ha Hb; unfold is_u8 in Hb; rewrite Z.shiftl_mul_pow2 by lia.
  change (2 ^ 8) with 256.
  rewrite <- Z.add_lor_land.
  assert (Z.land (a * 256) b = 0) as ->; [|lia].
  apply Z.bits_inj'; intros n Hn; rewrite Z.land_spec, Z.bits_0.
  destruct (Z.ltb_spec n 8).
  - replace (a * 256) with (Z.shiftl a 8) by (rewrite Z.shiftl_mul_pow2; lia).
    by rewrite Z.shiftl_spec_low.
  - rewrite (Z.bits_above_log2 b); [apply andb_false_r|lia|].
    destruct (decide (b = 0)) as [->|]; [cbn; lia|].
    apply Z.log2_lt_pow2; [lia|].
    apply Z.lt_le_trans with (2 ^ 8); [lia|apply Z.pow_le_mono_r; lia].
Qed.

Lemma checked_end_Ok o l e :
  checked_end o l = Ok e ↔ e = o + l ∧ o + l ≤ usize_max.
Proof. unfold checked_end; by rewrite ok_or_Ok, checked_add_Some. Qed.

Lemma labels_len_cons l labels :
  labels_len (l :: labels) = len l + 1 + labels_len labels.
Proof. done. Qed.

Lemma labels_len_nonneg labels : 0 ≤ labels_len labels.
Proof.
  unfold labels_len; induction labels as [|l labels IH]; cbn; [lia|].
  pose proof (len_nonneg l); lia.
Qed.

Lemma labels_len_count labels :
  Forall label_ok labels → 2 * len labels ≤ labels_len labels.
Proof.
  induction 1 as [|l labels Hl _ IH]; [done|].
  rewrite labels_len_cons, len_cons; unfold label_ok in Hl; lia.
Qed.

Lemma canonical_of_labels_len labels :
  len (canonical_of_labels labels) = labels_len labels + 1.
Proof.
  unfold canonical_of_labels; rewrite len_app.
  assert (len (labels ≫= λ l, len l :: to_ascii_lowercase l)
          = labels_len labels) as ->; [|done].
  induction labels as [|l labels IH]; [done|].
  rewrite bind_cons, len_app, IH, labels_len_cons, len_cons, to_ascii_lowercase_len.
  lia.
Qed.

(** ** One round of the loop *)

Section loop.
Context (p : bytes) (Hp : packet_ok p).

Lemma name_at_bounds o labels k next :
  name_at p o labels k next →
  o < next ≤ len p ∧ 0 ≤ k ∧ Forall label_ok labels.
Proof using Hp.
  induction 1 as [o Hg|o l lab labs k next Hg Hl Hs _ IH|
                  o l s labs k next Hg Hl Hs Hlt _ IH].
  - apply bget_Some in Hg as [? _]; split_and!; try lia; constructor.
  - apply slice_len in Hs as ?.
    destruct IH as (? & ? & ?); split_and!; try lia.
    constructor; [unfold label_ok; lia|done].
  - apply bget_Some in Hs as [? _].
    destruct IH as (? & ? & ?); split_and!; lia || done.
Qed.

Lemma name_at_det o labels k next labels' k' next' :
  name_at p o labels k next → name_at p o labels' k' next' →
  labels = labels' ∧ k = k' ∧ next = next'.
Proof using Hp.
  intros H; revert labels' k' next'.
  induction H as [o Hg|o l lab labs k next Hg Hl Hs _ IH|
                  o l s labs k next Hg Hl Hs Hlt _ IH];
    intros labels' k' next'; inversion 1; simplify_eq; try lia; try done.
  - edestruct IH as (? & ? & ?); [eassumption|]; by subst.
  - edestruct IH as (? & ? & ?); [eassumption|]; by subst.
Qed.

Lemma name_at_bytes_ok o labels k next :
  name_at p o labels k next → Forall bytes_ok labels.
Proof using Hp.
  induction 1; [constructor| |done].
  constructor; [|done]; eapply bytes_ok_slice; [apply Hp|done].
Qed.

Lemma read_name_loop_sound fuel cur next jumped steps exp ls cw L W N :
  read_name_loop fuel p cur next jumped steps exp ls cw = Ok (L, W, N) →
  exp ≤ 255 → steps ≤ 128 →
  ∃ labels k nx,
    name_at p cur labels k nx ∧
    steps + k ≤ 128 ∧ exp + labels_len labels ≤ 255 ∧
    L = ls ++ (display_label <$> labels) ∧
    W = cw ++ canonical_of_labels labels ∧
    N = if jumped then next else nx.
Proof using Hp.
  revert cur next jumped steps exp ls cw.
  induction fuel as [|fuel IH]; intros cur next jumped steps exp ls cw; [done|].
  cbn [read_name_loop]; intros Hrun Hexp Hsteps.
  inv_ok.
  - boolp; subst; exists [], 0, (cur + 1); split_and!; try done.
    + by constructor.
    + cbn; lia.
    + cbn; lia.
    + by rewrite app_nil_r.
  - (* pointer *)
    pose proof (bytes_ok_bget _ _ _ (packet_ok_bytes _ Hp) H) as Ha.
    pose proof (bytes_ok_bget _ _ _ (packet_ok_bytes _ Hp) H0) as Ha0.
    destruct (land_c0 a Ha) as (Hc & _ & Hsub).
    rewrite Hc in Heqb0; boolp; rewrite Hsub, pointer_value in * by
      (unfold is_u8 in *; lia).
    eapply IH in Hrun as (labels & k & nx & Hn & ? & ? & ? & ? & ?); [|lia..].
    exists labels, (k + 1), (cur + 2); split_and!; try done; [|lia].
    eapply name_pointer; eauto.
  - (* label *)
    pose proof (bytes_ok_bget _ _ _ (packet_ok_bytes _ Hp) H) as Ha.
    destruct (land_c0 a Ha) as (Hc & Hl & _).
    rewrite Hc in Heqb0; rewrite Hl in Heqb1; boolp.
    apply checked_end_Ok in H0 as [-> _]; apply checked_add_Some in H2 as [-> _].
    apply slice_len in H1 as Hlen.
    eapply IH in Hrun as (labels & k & nx & Hn & ? & ? & ? & ? & ?); [|lia..].
    unfold is_u8 in Ha.
    exists (a1 :: labels), k, nx; split_and!; try done.
    + econstructor; eauto; lia.
    + rewrite labels_len_cons; lia.
    + subst L; cbn; by rewrite <- app_assoc.
    + subst W; unfold canonical_of_labels; cbn.
      replace (len a1) with a by lia; by rewrite <- !app_assoc.
    + subst N; by destruct jumped.
Qed.

Lemma read_name_loop_complete fuel cur next jumped steps exp ls cw labels k nx :
  name_at p cur labels k nx →
  (Z.to_nat (len labels + k) < fuel)%nat →
  0 ≤ steps → steps + k ≤ 128 → 0 ≤ exp → exp + labels_len labels ≤ 255 →
  read_name_loop fuel p cur next jumped steps exp ls cw =
    Ok (ls ++ (display_label <$> labels), cw ++ canonical_of_labels labels,
        if jumped then next else nx).
Proof using Hp.
  intros Hn; revert fuel next jumped steps exp ls cw.
  induction Hn as [o Hg|o l lab labs k nx Hg Hl Hs Hn IH|
                  o l s labs k nx Hg Hl Hs Hlt Hn IH];
    intros [|fuel] next jumped steps exp ls cw Hfuel Hs0 Hk Hexp0 Hexp; try lia;
    cbn [read_name_loop]; rewrite Hg; cbn [ok_or mbind outcome_bind].
  - by rewrite app_nil_r.
  - pose proof (bytes_ok_bget _ _ _ (packet_ok_bytes _ Hp) Hg) as Hu.
    destruct (land_c0 l Hu) as (-> & -> & _).
    rewrite (proj2 (Z.eqb_neq l 0)), (proj2 (Z.leb_gt 192 l)),
      (proj2 (Z.ltb_ge 63 l)) by lia.
    apply name_at_bounds in Hn as (? & ? & _).
    rewrite (proj2 (checked_end_Ok (o + 1) l (o + 1 + l))).
    2: { split; [done|]; destruct Hp; unfold usize_max; lia. }
    cbn [ok_or mbind outcome_bind]; rewrite Hs; cbn [ok_or mbind outcome_bind].
    rewrite labels_len_cons in Hexp; apply slice_len in Hs as ?.
    pose proof (labels_len_nonneg labs).
    rewrite (proj2 (checked_add_Some usize_max exp (l + 1) (exp + (l + 1)))).
    2: { split; [done|]; unfold usize_max; lia. }
    cbn [ok_or mbind outcome_bind]; rewrite (proj2 (Z.ltb_ge 255 _)) by lia.
    rewrite len_cons in Hfuel; pose proof (len_nonneg labs).
    rewrite IH by lia; unfold canonical_of_labels; cbn.
    replace (len lab) with l by lia.
    rewrite <- !app_assoc; do 2 f_equal; by destruct jumped.
  - pose proof (bytes_ok_bget _ _ _ (packet_ok_bytes _ Hp) Hg) as Hu.
    pose proof (bytes_ok_bget _ _ _ (packet_ok_bytes _ Hp) Hs) as Hu'.
    destruct (land_c0 l Hu) as (-> & _ & Hsub).
    apply name_at_bounds in Hn as (? & ? & _).
    rewrite (proj2 (Z.eqb_neq l 0)), (proj2 (Z.leb_le 192 l)), Hs by lia.
    cbn [ok_or mbind outcome_bind].
    rewrite Hsub, pointer_value by (unfold is_u8 in *; lia).
    rewrite (proj2 (Z.leb_gt o _)), (proj2 (Z.leb_gt (len p) _)),
      (proj2 (Z.ltb_ge 128 _)) by lia; cbn [orb].
    pose proof (len_nonneg labs).
    rewrite IH by lia; by destruct jumped.
Qed.

Lemma read_name_loop_safe fuel cur next jumped steps exp ls cw :
  steps ≤ 128 → exp ≤ 255 → 128 - steps + (255 - exp) < Z.of_nat fuel →
  safe (read_name_loop fuel p cur next jumped steps exp ls cw).
Proof using Hp.
  revert cur next jumped steps exp ls cw.
  induction fuel as [|fuel IH]; intros cur next jumped steps exp ls cw ???; [lia|].
  cbn [read_name_loop]; apply wp_bind, wp_ok_or; intros l Hl.
  case_match eqn:Hz; [done|]; boolp.
  pose proof (bytes_ok_bget _ _ _ (packet_ok_bytes _ Hp) Hl) as Hu.
  case_match eqn:Hc.
  - apply wp_bind, wp_ok_or; intros s Hs.
    do 2 (case_match; [done|]); boolp; apply IH; lia.
  - destruct (_ || _); [done|]; unfold is_u8 in Hu.
    apply wp_bind; unfold checked_end; apply wp_ok_or; intros stop _.
    apply wp_bind, wp_ok_or; intros lab _.
    apply wp_bind, wp_ok_or; intros e [-> _]%checked_add_Some.
    case_match; [done|]; boolp; apply IH; lia.
Qed.
End loop.

(** ** [read_name] *)

Lemma read_name_fuel_enough : 128 - 0 + (255 - 1) < Z.of_nat read_name_fuel.
Proof. by vm_compute. Qed.

Lemma text_of_labels_fmap labels :
  match display_label <$> labels with
  | [] => lit "."
  | _ => join_with (lit ".") (display_label <$> labels)
  end = text_of_labels labels.
Proof. by destruct labels. Qed.

(** [read_name] decides [name_at] within its limits: it returns exactly the
    name the specification gives when that name has at most 255 octets and 128
    pointers, and the offset behind it. *)
Lemma read_name_iff p o n next :
  packet_ok p →
  read_name p o = Ok (n, next) ↔
  ∃ labels k, name_at p o labels k next ∧ k ≤ 128 ∧
    len (canonical_of_labels labels) ≤ 255 ∧
    n = mk_name (text_of_labels labels) (canonical_of_labels labels).
Proof.
  intros Hp; unfold read_name.
  pose proof read_name_fuel_enough as Hfuel; generalize dependent read_name_fuel.
  intros fuel Hfuel; split.
  - intros Hr; inv_ok; simplify_eq.
    apply (read_name_loop_sound p Hp) in H as
      (labels & k & nx & Hn & ? & ? & -> & -> & ->); [|lia..].
    exists labels, k; cbn [app]; rewrite canonical_of_labels_len.
    split_and!; [done|lia..|]; by rewrite text_of_labels_fmap.
  - intros (labels & k & Hn & Hk & Hlen & ->).
    rewrite canonical_of_labels_len in Hlen.
    apply (name_at_bounds p Hp) in Hn as Hb; destruct Hb as (? & ? & Hok).
    apply labels_len_count in Hok as ?; pose proof (len_nonneg labels).
    rewrite (proj2 (Z.leb_gt _ _)) by (inversion Hn; subst;
      match goal with H : bget _ _ = Some _ |- _ => apply bget_Some in H; lia end).
    rewrite (read_name_loop_complete p Hp) with (labels := labels) (k := k) (nx := next)
      by (done || lia).
    cbn; by rewrite text_of_labels_fmap.
Qed.

Lemma read_name_safe p o : packet_ok p → safe (read_name p o).
Proof.
  intros Hp; unfold read_name; case_match; [done|].
  pose proof read_name_fuel_enough as Hfuel; generalize dependent read_name_fuel.
  intros fuel Hfuel; apply wp_bind; eapply wp_mono.
  - by apply (read_name_loop_safe p Hp).
  - by intros [[? ?] ?] _.
Qed.

(** ** [encode_name] *)

(** The name without one trailing dot, and its labels. *)
Definition stripped_name (s : str) : str := default s (strip_suffix s [dot]).
Definition name_labels (s : str) : list bytes :=
  if bool_decide (stripped_name s = []) then [] else split_on dot (stripped_name s).

Lemma wire_of_labels_nil : wire_of_labels [] = [0].
Proof. done. Qed.

Lemma wire_of_labels_cons l labels :
  wire_of_labels (l :: labels) = (len l :: l) ++ wire_of_labels labels.
Proof. unfold wire_of_labels; by rewrite bind_cons, <- app_assoc. Qed.

Lemma canonical_of_labels_cons l labels :
  canonical_of_labels (l :: labels) =
  (len l :: to_ascii_lowercase l) ++ canonical_of_labels labels.
Proof. unfold canonical_of_labels; by rewrite bind_cons, <- app_assoc. Qed.

Lemma canonical_of_labels_lower labels :
  Forall label_ok labels →
  canonical_of_labels labels = to_ascii_lowercase (wire_of_labels labels).
Proof.
  induction 1 as [|l labels Hl _ IH]; [done|].
  rewrite canonical_of_labels_cons, wire_of_labels_cons, IH.
  rewrite to_ascii_lowercase_app; f_equal; cbn; f_equal.
  unfold lower_char, label_ok in *; case_match; boolp; lia.
Qed.

Lemma wire_of_labels_len labels : len (wire_of_labels labels) = labels_len labels + 1.
Proof.
  induction labels as [|l labels IH]; [done|].
  rewrite wire_of_labels_cons, len_app, IH, labels_len_cons, len_cons; lia.
Qed.

Lemma is_ascii_split c s :
  is_ascii s = true → Forall (λ l, is_ascii l = true) (split_on c s).
Proof.
  induction s as [|x s IH]; cbn; [by repeat constructor|].
  intros [Hx Hs]%andb_true_iff; specialize (IH Hs).
  case_match; [by constructor|].
  destruct (split_on c s) as [|piece rest]; cbn.
  - repeat constructor; cbn; by rewrite Hx.
  - inversion_clear IH; constructor; [|done]; cbn; by rewrite Hx.
Qed.

Lemma encode_labels_iff name labels out w :
  Forall (λ l, is_ascii l = true) labels →
  encode_labels name labels out = Ok w ↔
  Forall label_ok labels ∧ w = out ++ (labels ≫= λ l, len l :: l).
Proof.
  revert out; induction labels as [|l labels IH]; intros out Hascii; cbn [encode_labels].
  { change (([] : list bytes) ≫= _) with (@nil Z); rewrite app_nil_r; naive_solver. }
  inversion_clear Hascii as [|? ? Hl Hrest].
  rewrite is_ascii_str_len, is_ascii_as_bytes, Forall_cons, bind_cons by done.
  destruct (bool_decide (l = []) || (63 <? len l)) eqn:Hbad.
  - split; [done|]; intros [[Hl' _] _]; unfold label_ok in Hl'.
    boolp; destruct Hbad; boolp; subst; len_lia.
  - boolp; rewrite (proj2 (Z.leb_le _ u8_max)) by (unfold u8_max; lia).
    cbn [mbind outcome_bind]; rewrite IH by done; rewrite <- app_assoc.
    assert (label_ok l); [|naive_solver].
    unfold label_ok; split; [|lia]; destruct l; [done|]; rewrite len_cons.
    pose proof (len_nonneg l); lia.
Qed.

(** [encode_name] accepts exactly the ASCII names whose labels have 1 to 63
    octets and whose encoding has at most 255, and produces that encoding. *)
Lemma encode_name_iff s w :
  encode_name s = Ok w ↔
  is_ascii (stripped_name s) = true ∧ Forall label_ok (name_labels s) ∧
  w = wire_of_labels (name_labels s) ∧ len w ≤ 255.
Proof.
  unfold encode_name, name_labels; fold (stripped_name s).
  destruct (bool_decide (stripped_name s = [])) eqn:He; boolp.
  { rewrite He, wire_of_labels_nil; split.
    - intros [= <-]; split_and!; [done|constructor|done..].
    - naive_solver. }
  destruct (is_ascii (stripped_name s)) eqn:Ha; cbn [negb]; [|naive_solver].
  split.
  - intros Hr; inv_ok; boolp.
    apply encode_labels_iff in H as [? ->]; [|by apply is_ascii_split].
    naive_solver.
  - intros (_ & Hok & -> & Hlen).
    rewrite (proj2 (encode_labels_iff _ _ _ (split_on dot (stripped_name s)
              ≫= λ l, len l :: l) ltac:(by apply is_ascii_split))) by done.
    cbn [mbind outcome_bind]; fold (wire_of_labels (split_on dot (stripped_name s))).
    by rewrite (proj2 (Z.ltb_ge _ _)).
Qed.

Lemma encode_labels_safe name labels out : safe (encode_labels name labels out).
Proof.
  revert out; induction labels as [|l labels IH]; intros out; [done|].
  cbn [encode_labels]; destruct (_ || _); [done|].
  apply wp_bind; case_match; [apply IH|done].
Qed.

Lemma encode_name_safe s : safe (encode_name s).
Proof.
  unfold encode_name; case_match; [done|]; case_match; [done|].
  apply wp_bind; eapply wp_mono; [apply encode_labels_safe|].
  intros; by case_match.
Qed.

Lemma name_at_wire pre labels post :
  Forall label_ok labels →
  name_at (pre ++ wire_of_labels labels ++ post) (len pre) labels 0
    (len pre + len (wire_of_labels labels)).
Proof.
  intros Hok; revert pre.
  induction Hok as [|l labels Hl _ IH]; intros pre.
  - rewrite wire_of_labels_nil; constructor.
    rewrite bget_app_r, Z.sub_diag by lia; done.
  - rewrite wire_of_labels_cons.
    assert (bget (pre ++ ((len l :: l) ++ wire_of_labels labels) ++ post) (len pre)
            = Some (len l)) as Hg.
    { rewrite bget_app_r, Z.sub_diag by lia; done. }
    econstructor; [exact Hg|done| |].
    + replace (len pre + 1) with (len (pre ++ [len l]))
        by (rewrite len_app, len_cons, len_nil; lia).
      replace (pre ++ ((len l :: l) ++ wire_of_labels labels) ++ post)
        with ((pre ++ [len l]) ++ l ++ (wire_of_labels labels ++ post))
        by (cbn; rewrite <- !app_assoc; done).
      apply slice_app_exact.
    + specialize (IH (pre ++ len l :: l)).
      rewrite !len_app, len_cons in *.
      replace (len pre + 1 + len l) with (len pre + (1 + len l)) by lia.
      replace (len pre + (1 + len l + len (wire_of_labels labels)))
        with (len pre + (1 + len l) + len (wire_of_labels labels)) by lia.
      replace (pre ++ ((len l :: l) ++ wire_of_labels labels) ++ post)
        with ((pre ++ len l :: l) ++ wire_of_labels labels ++ post)
        by (cbn; rewrite <- !app_assoc; done).
      exact IH.
Qed.

(** Reading an encoded name anywhere in a packet gives the name back. *)
Lemma read_encoded_name s w pre post :
  encode_name s = Ok w → packet_ok (pre ++ w ++ post) →
  read_name (pre ++ w ++ post) (len pre) =
    Ok (mk_name (text_of_labels (name_labels s)) (to_ascii_lowercase w),
        len pre + len w).
Proof.
  intros (_ & Hok & -> & Hlen)%encode_name_iff Hp.
  apply read_name_iff; [done|]; exists (name_labels s), 0.
  rewrite <- canonical_of_labels_lower by done.
  split_and!; [by apply name_at_wire|lia| |done].
  by rewrite canonical_of_labels_len, <- wire_of_labels_len.
Qed.

(** A canonical name is a fixed point: reading it returns it. *)
Lemma read_canonical_name labels pre post :
  Forall label_ok labels → len (canonical_of_labels labels) ≤ 255 →
  packet_ok (pre ++ canonical_of_labels labels ++ post) →
  ∃ text, read_name (pre ++ canonical_of_labels labels ++ post) (len pre) =
    Ok (mk_name text (canonical_of_labels labels),
        len pre + len (canonical_of_labels labels)).
Proof.
  intros Hok Hlen Hp.
  assert (canonical_of_labels labels
          = wire_of_labels (to_ascii_lowercase <$> labels)) as Hw.
  { clear; induction labels as [|l labels IH]; [done|].
    rewrite canonical_of_labels_cons, fmap_cons, wire_of_labels_cons, IH.
    by rewrite to_ascii_lowercase_len. }
  assert (canonical_of_labels (to_ascii_lowercase <$> labels)
          = canonical_of_labels labels) as Hc.
  { clear; induction labels as [|l labels IH]; [done|].
    rewrite fmap_cons, !canonical_of_labels_cons, IH.
    by rewrite to_ascii_lowercase_len, to_ascii_lowercase_idemp. }
  exists (text_of_labels (to_ascii_lowercase <$> labels)).
  apply read_name_iff; [done|]; exists (to_ascii_lowercase <$> labels), 0.
  rewrite Hc; split_and!; [|lia|done|done].
  rewrite Hw at 1; rewrite Hw at 1; apply name_at_wire.
  rewrite Forall_fmap; eapply Forall_impl; [exact Hok|].
  intros l; cbn; unfold label_ok; by rewrite to_ascii_lowercase_len.
Qed.

(** A name of letters, digits, ['-'] and ['_'] is printed as it was written. *)
Lemma text_of_plain_name s :
  Forall (λ c, is_plain c = true ∨ c = dot) (stripped_name s) →
  text_of_labels (name_labels s) =
    if bool_decide (stripped_name s = []) then lit "." else stripped_name s.
Proof.
  unfold name_labels; intros Hplain; case_match eqn:He; boolp; [done|].
  pose proof (split_on_nonempty dot (stripped_name s)) as Hne.
  assert (display_label <$> split_on dot (stripped_name s)
          = split_on dot (stripped_name s)) as Hd.
  { clear He Hne; induction (stripped_name s) as [|c t IH]; [done|].
    inversion_clear Hplain as [|? ? Hc Ht]; specialize (IH Ht); cbn.
    destruct (c =? dot) eqn:Hdot; [cbn; by f_equal|]; boolp.
    destruct Hc as [Hc|]; [|done].
    destruct (split_on dot t) as [|piece rest]; cbn in *.
    - unfold display_label; cbn; unfold display_byte; by rewrite Hc.
    - injection IH as Hp Hr; rewrite Hr; f_equal.
      transitivity (display_byte c ++ display_label piece); [done|].
      rewrite Hp; unfold display_byte; by rewrite Hc. }
  rewrite <- (join_split dot (stripped_name s)) at 2.
  unfold text_of_labels; destruct (split_on dot (stripped_name s)); [done|].
  by rewrite Hd.
Qed.

(** ** Properties *)

(** [packet_ok] as a test. *)
Definition packet_okb (p : bytes) : bool :=
  forallb (λ b, (0 <=? b) && (b <? 256)) p && (len p <? 2 ^ 63).

Lemma packet_okb_ok p : packet_okb p = true → packet_ok p.
Proof.
  unfold packet_okb; intros [Hb Hl]%andb_true_iff; boolp; split; [|done].
  rewrite forallb_forall in Hb; apply Forall_forall; intros b Hin.
  apply list_elem_of_In, Hb in Hin; boolp; by unfold is_u8.
Qed.

(** C10: reading a name is exact.  [read_name] returns a name and the offset
    after it if and only if the packet holds, at that offset, a list of labels
    in wire format that follows at most 128 compression pointers, each strictly
    backwards, and whose expansion is at most 255 octets; the name is then the
    printed form of these labels and their lower-case wire form. *)
Theorem read_name_exact p o n next :
  packet_ok p →
  read_name p o = Ok (n, next) ↔
  ∃ labels k, name_at p o labels k next ∧ k ≤ 128 ∧
    len (canonical_of_labels labels) ≤ 255 ∧
    n = mk_name (text_of_labels labels) (canonical_of_labels labels).
Proof. apply read_name_iff. Qed.

(** The name ["b.A"] at 3: a label, then a pointer to the name at 0. *)
Definition example_names : bytes := [1; 65; 0; 1; 98; 192; 0; 9].

Lemma read_name_exact_witness :
  packet_ok example_names ∧
  (read_name example_names 3 = Ok (mk_name (lit "b.A") [1; 98; 1; 97; 0], 7) ↔
   ∃ labels k, name_at example_names 3 labels k 7 ∧ k ≤ 128 ∧
     len (canonical_of_labels labels) ≤ 255 ∧
     mk_name (lit "b.A") [1; 98; 1; 97; 0] =
       mk_name (text_of_labels labels) (canonical_of_labels labels)).
Proof.
  assert (packet_ok example_names) by (by apply packet_okb_ok).
  split; [done|]; by apply read_name_exact.
Defined.

(** Names survive the round trip.  A name the encoder accepts, placed
    anywhere in a packet, is read back with the same labels: its canonical form
    is the lower-case form of the encoding, the reader stops right after it,
    and for a name of plain characters the text read is the name itself without
    its final dot. *)
Theorem encode_name_roundtrip s w pre post :
  encode_name s = Ok w → packet_ok (pre ++ w ++ post) →
  read_name (pre ++ w ++ post) (len pre) =
    Ok (mk_name (text_of_labels (name_labels s)) (to_ascii_lowercase w),
        len pre + len w) ∧
  (Forall (λ c, is_plain c = true ∨ c = dot) (stripped_name s) →
   text_of_labels (name_labels s) =
     if bool_decide (stripped_name s = []) then lit "." else stripped_name s).
Proof. split; [by apply read_encoded_name|apply text_of_plain_name]. Qed.

Lemma encode_name_roundtrip_witness :
  encode_name (lit "Ab.c.") = Ok [2; 65; 98; 1; 99; 0] ∧
  read_name ([7; 7] ++ [2; 65; 98; 1; 99; 0] ++ [8]) (len [7; 7]) =
    Ok (mk_name (text_of_labels (name_labels (lit "Ab.c."))) [2; 97; 98; 1; 99; 0], 8).
Proof.
  split; [reflexivity|].
  refine (proj1 (encode_name_roundtrip (lit "Ab.c.") [2; 65; 98; 1; 99; 0] [7; 7] [8]
    eq_refl (packet_okb_ok [7; 7; 2; 65; 98; 1; 99; 0; 8] eq_refl))).
Defined.
