(* ===== verification/CodecFacts.v ===== *)
(** * Facts about the codec

    What the readers and writers of [src/wire/codec.rs] do to the octets of a
    packet: the integers they return, the bounds of a parsed question or record,
    that no parser panics or diverges, and which octets a parse depends on. *)

From S2P Require Import Prelude Text Codec Names.

Create HintDb wire.

(** ** Integers *)

Lemma slice_2 (p : bytes) o :
  0 ≤ o → o + 2 ≤ len p →
  ∃ a b, slice p o (o + 2) = Some [a; b] ∧ bget p o = Some a ∧ bget p (o + 1) = Some b.
Proof.
  intros.
  destruct (bget_is_Some p o ltac:(lia)) as [a Ha].
  destruct (bget_is_Some p (o + 1) ltac:(lia)) as [b Hb].
  exists a, b; split; [|done]; apply slice_Some; split_and!; [lia..|].
  apply bget_Some in Ha as [_ Ha]; apply bget_Some in Hb as [_ Hb].
  replace (Z.to_nat (o + 2 - o)) with 2%nat by lia.
  replace (Z.to_nat (o + 1)) with (S (Z.to_nat o)) in Hb by lia.
  by rewrite (drop_S _ _ _ Ha), (drop_S _ _ _ Hb).
Qed.

Lemma slice_4 (p : bytes) o :
  0 ≤ o → o + 4 ≤ len p →
  ∃ a b c d, slice p o (o + 4) = Some [a; b; c; d] ∧
    bget p o = Some a ∧ bget p (o + 1) = Some b ∧
    bget p (o + 2) = Some c ∧ bget p (o + 3) = Some d.
Proof.
  intros.
  destruct (bget_is_Some p o ltac:(lia)) as [a Ha].
  destruct (bget_is_Some p (o + 1) ltac:(lia)) as [b Hb].
  destruct (bget_is_Some p (o + 2) ltac:(lia)) as [c Hc].
  destruct (bget_is_Some p (o + 3) ltac:(lia)) as [d Hd].
  exists a, b, c, d; split; [|done]; apply slice_Some; split_and!; [lia..|].
  apply bget_Some in Ha as [_ Ha]; apply bget_Some in Hb as [_ Hb].
  apply bget_Some in Hc as [_ Hc]; apply bget_Some in Hd as [_ Hd].
  replace (Z.to_nat (o + 4 - o)) with 4%nat by lia.
  replace (Z.to_nat (o + 1)) with (S (Z.to_nat o)) in Hb by lia.
  replace (Z.to_nat (o + 2)) with (S (S (Z.to_nat o))) in Hc by lia.
  replace (Z.to_nat (o + 3)) with (S (S (S (Z.to_nat o)))) in Hd by lia.
  by rewrite (drop_S _ _ _ Ha), (drop_S _ _ _ Hb), (drop_S _ _ _ Hc),
    (drop_S _ _ _ Hd).
Qed.

Lemma read_u16_Ok p o v :
  read_u16 p o = Ok v →
  0 ≤ o ∧ o + 2 ≤ len p ∧
  ∃ a b, bget p o = Some a ∧ bget p (o + 1) = Some b ∧ v = be16 a b.
Proof.
  unfold read_u16; intros H; inv_ok.
  apply checked_end_Ok in H0 as [-> _]; apply slice_Some in H1 as Hs.
  destruct (slice_2 p o) as (x & y & Hxy & ? & ?); [lia..|].
  rewrite H1 in Hxy; simplify_eq; split_and!; [lia..|]; inv_ok; eauto.
Qed.

Lemma read_u16_eq p o a b :
  packet_ok p → bget p o = Some a → bget p (o + 1) = Some b →
  read_u16 p o = Ok (be16 a b).
Proof.
  intros Hp Ha Hb; apply bget_Some in Ha as Ho; apply bget_Some in Hb as Ho'.
  destruct (slice_2 p o) as (x & y & Hs & ? & ?); [lia..|].
  unfold read_u16; rewrite (proj2 (checked_end_Ok o 2 (o + 2))).
  2: { split; [done|]; destruct Hp; unfold usize_max; lia. }
  cbn; rewrite Hs; by simplify_eq/=.
Qed.

Lemma read_u16_app p o v q :
  packet_ok (p ++ q) → read_u16 p o = Ok v → read_u16 (p ++ q) o = Ok v.
Proof.
  intros Hp (? & ? & a & b & Ha & Hb & ->)%read_u16_Ok.
  apply read_u16_eq; [done|by rewrite bget_app_l by lia..].
Qed.

Lemma read_u16_safe p o : safe (read_u16 p o).
Proof.
  unfold read_u16; apply wp_bind; unfold checked_end; apply wp_ok_or.
  intros e [-> _]%checked_add_Some; apply wp_bind, wp_ok_or; intros bs Hs.
  apply slice_Some in Hs as ?.
  destruct (slice_2 p o) as (x & y & Hxy & _ & _); [lia..|].
  rewrite Hs in Hxy; by simplify_eq.
Qed.

Lemma read_u16_total p o :
  packet_ok p → 0 ≤ o → o + 2 ≤ len p → ∃ v, read_u16 p o = Ok v.
Proof.
  intros Hp ??; destruct (slice_2 p o) as (x & y & _ & ? & ?); [lia..|].
  eexists; by apply read_u16_eq.
Qed.

Lemma read_u16_range p o v : bytes_ok p → read_u16 p o = Ok v → is_u16 v.
Proof.
  intros Hp (_ & _ & a & b & Ha & Hb & ->)%read_u16_Ok.
  apply be16_range; by eapply bytes_ok_bget.
Qed.

Lemma read_u32_Ok p o v :
  read_u32 p o = Ok v →
  0 ≤ o ∧ o + 4 ≤ len p ∧
  ∃ a b c d, bget p o = Some a ∧ bget p (o + 1) = Some b ∧
    bget p (o + 2) = Some c ∧ bget p (o + 3) = Some d ∧ v = be32 a b c d.
Proof.
  unfold read_u32; intros H; inv_ok.
  apply checked_end_Ok in H0 as [-> _]; apply slice_Some in H1 as Hs.
  destruct (slice_4 p o) as (x & y & z & w & Hxy & ? & ? & ? & ?); [lia..|].
  rewrite H1 in Hxy; simplify_eq; split_and!; [lia..|]; inv_ok; eauto 10.
Qed.

Lemma read_u32_eq p o a b c d :
  packet_ok p → bget p o = Some a → bget p (o + 1) = Some b →
  bget p (o + 2) = Some c → bget p (o + 3) = Some d →
  read_u32 p o = Ok (be32 a b c d).
Proof.
  intros Hp Ha Hb Hc Hd.
  apply bget_Some in Ha as Ho; apply bget_Some in Hd as Ho'.
  destruct (slice_4 p o) as (x & y & z & w & Hs & ? & ? & ? & ?); [lia..|].
  unfold read_u32; rewrite (proj2 (checked_end_Ok o 4 (o + 4))).
  2: { split; [done|]; destruct Hp; unfold usize_max; lia. }
  cbn; rewrite Hs; by simplify_eq/=.
Qed.

Lemma read_u32_safe p o : safe (read_u32 p o).
Proof.
  unfold read_u32; apply wp_bind; unfold checked_end; apply wp_ok_or.
  intros e [-> _]%checked_add_Some; apply wp_bind, wp_ok_or; intros bs Hs.
  apply slice_Some in Hs as ?.
  destruct (slice_4 p o) as (x & y & z & w & Hxy & _); [lia..|].
  rewrite Hs in Hxy; by simplify_eq.
Qed.

Lemma read_u32_range p o v : bytes_ok p → read_u32 p o = Ok v → is_u32 v.
Proof.
  intros Hp (_ & _ & a & b & c & d & Ha & Hb & Hc & Hd & ->)%read_u32_Ok.
  apply be32_range; by eapply bytes_ok_bget.
Qed.

Lemma write_u16_Ok p o v q :
  write_u16 p o v = Ok q → splice p o (u16_bytes v) = Some q.
Proof. unfold write_u16; intros H; by inv_ok. Qed.

Lemma write_u16_total p o v :
  packet_ok p → 0 ≤ o → o + 2 ≤ len p →
  ∃ q, write_u16 p o v = Ok q ∧ splice p o (u16_bytes v) = Some q.
Proof.
  intros [_ Hlen] ??; unfold write_u16.
  rewrite (proj2 (checked_end_Ok o 2 (o + 2))) by (split; [done|]; unfold usize_max; lia).
  destruct (splice_is_Some p o (u16_bytes v)) as [q Hq]; [lia|len_lia|].
  exists q; cbn; by rewrite Hq.
Qed.

Lemma write_u16_safe p o v : safe (write_u16 p o v).
Proof.
  unfold write_u16, checked_end; apply wp_bind, wp_ok_or; intros.
  by apply wp_ok_or.
Qed.

Lemma write_u32_Ok p o v q :
  write_u32 p o v = Ok q → splice p o (u32_bytes v) = Some q.
Proof. unfold write_u32; intros H; by inv_ok. Qed.

Lemma write_u32_total p o v :
  packet_ok p → 0 ≤ o → o + 4 ≤ len p →
  ∃ q, write_u32 p o v = Ok q ∧ splice p o (u32_bytes v) = Some q.
Proof.
  intros [_ Hlen] ??; unfold write_u32.
  rewrite (proj2 (checked_end_Ok o 4 (o + 4))) by (split; [done|]; unfold usize_max; lia).
  destruct (splice_is_Some p o (u32_bytes v)) as [q Hq]; [lia|len_lia|].
  exists q; cbn; by rewrite Hq.
Qed.

Lemma write_u32_safe p o v : safe (write_u32 p o v).
Proof.
  unfold write_u32, checked_end; apply wp_bind, wp_ok_or; intros.
  by apply wp_ok_or.
Qed.

(** Reading back what was written, and everything else is as before. *)
Lemma read_splice_u16 p o v q :
  packet_ok q → splice p o (u16_bytes v) = Some q → read_u16 q o = Ok v.
Proof.
  intros Hq Hs; rewrite <- (be16_u16_bytes v); apply read_u16_eq; [done|..].
  - erewrite bget_splice_in by (done || len_lia); by rewrite Z.sub_diag.
  - erewrite bget_splice_in by (done || len_lia).
    by replace (o + 1 - o) with 1 by lia.
Qed.

Lemma read_splice_u32 p o v q :
  packet_ok q → splice p o (u32_bytes v) = Some q → read_u32 q o = Ok v.
Proof.
  intros Hq Hs; rewrite <- (be32_u32_bytes v); apply read_u32_eq; [done|..];
    erewrite bget_splice_in by (done || len_lia).
  - by rewrite Z.sub_diag.
  - by replace (o + 1 - o) with 1 by lia.
  - by replace (o + 2 - o) with 2 by lia.
  - by replace (o + 3 - o) with 3 by lia.
Qed.

(** Reading an integer that lies between two byte strings. *)
Lemma read_u16_between pre v post :
  packet_ok (pre ++ u16_bytes v ++ post) →
  read_u16 (pre ++ u16_bytes v ++ post) (len pre) = Ok v.
Proof.
  intros Hp; rewrite <- (be16_u16_bytes v) at 2; apply read_u16_eq; [done|..].
  - rewrite bget_app_r, Z.sub_diag by lia; done.
  - rewrite bget_app_r by lia; by replace (len pre + 1 - len pre) with 1 by lia.
Qed.

Lemma read_u16_within p o pre v post :
  packet_ok p → p = pre ++ u16_bytes v ++ post → o = len pre →
  read_u16 p o = Ok v.
Proof. intros Hp -> ->; by apply read_u16_between. Qed.

Lemma read_u32_within p o pre v post :
  packet_ok p → p = pre ++ u32_bytes v ++ post → o = len pre →
  read_u32 p o = Ok v.
Proof.
  intros Hp -> ->; rewrite <- (be32_u32_bytes v) at 2; apply read_u32_eq; [done|..];
    rewrite bget_app_r by lia.
  - by rewrite Z.sub_diag.
  - by replace (len pre + 1 - len pre) with 1 by lia.
  - by replace (len pre + 2 - len pre) with 2 by lia.
  - by replace (len pre + 3 - len pre) with 3 by lia.
Qed.

(** A reader sees only the octets it reads. *)
Lemma read_u16_ext p q o :
  len p = len q → bget p o = bget q o → bget p (o + 1) = bget q (o + 1) →
  read_u16 p o = read_u16 q o.
Proof.
  intros Hlen Ho Ho'; unfold read_u16.
  destruct (checked_end o 2) eqn:He; try done; cbn.
  apply checked_end_Ok in He as [-> _].
  rewrite (slice_ext p q); [done|done|]; intros i Hi.
  by assert (i = o ∨ i = o + 1) as [->| ->] by lia.
Qed.

Lemma read_u32_ext p q o :
  len p = len q → (∀ i, o ≤ i < o + 4 → bget p i = bget q i) →
  read_u32 p o = read_u32 q o.
Proof.
  intros Hlen Ho; unfold read_u32.
  destruct (checked_end o 4) eqn:He; try done; cbn.
  apply checked_end_Ok in He as [-> _]; by rewrite (slice_ext p q).
Qed.

Lemma packet_ok_slice p a b v : packet_ok p → slice p a b = Some v → packet_ok v.
Proof.
  intros [Hb Hl] Hs; split; [by eapply bytes_ok_slice|].
  apply slice_Some in Hs as Hx; rewrite (slice_len _ _ _ _ Hs); lia.
Qed.

Lemma packet_ok_splice p o v q :
  packet_ok p → bytes_ok v → splice p o v = Some q → packet_ok q.
Proof.
  intros [Hb Hl] Hv Hs; split; [exact (bytes_ok_splice _ _ _ _ Hb Hv Hs)|].
  by rewrite (splice_len _ _ _ _ Hs).
Qed.

(** Step over a call that is safe by the [wire] hints, keeping its equation;
    step into the branches of a conditional. *)
Ltac wp_call x H :=
  unfold safe;
  lazymatch goal with
  | |- wp (?m ≫= _) _ =>
      let Hs := fresh in
      assert (safe m) as Hs by (solve [eauto with wire]);
      apply wp_bind; eapply wp_mono; [apply wp_strengthen, Hs|];
      clear Hs; intros x [H _]
  end.
Ltac wp_if :=
  unfold safe; lazymatch goal with
  | |- wp (if ?b then _ else _) _ => destruct b eqn:?
  end.

#[export] Hint Resolve read_u16_safe read_u32_safe write_u16_safe write_u32_safe
  read_name_safe encode_name_safe packet_ok_bytes : wire.

(** ** The header *)

Lemma header_parse_safe p : safe (header_parse p).
Proof.
  unfold header_parse; case_match; [done|].
  repeat (apply wp_bind; eapply wp_mono; [apply read_u16_safe|]; intros ? _); done.
Qed.

Definition header_ok (h : Header) : Prop :=
  is_u16 (h_id h) ∧ is_u16 (h_flags h) ∧ is_u16 (h_question_count h) ∧
  is_u16 (h_answer_count h) ∧ is_u16 (h_authority_count h) ∧
  is_u16 (h_additional_count h).

Lemma header_parse_iff p h :
  header_parse p = Ok h ↔
  12 ≤ len p ∧
  read_u16 p 0 = Ok (h_id h) ∧ read_u16 p 2 = Ok (h_flags h) ∧
  read_u16 p 4 = Ok (h_question_count h) ∧ read_u16 p 6 = Ok (h_answer_count h) ∧
  read_u16 p 8 = Ok (h_authority_count h) ∧
  read_u16 p 10 = Ok (h_additional_count h).
Proof.
  unfold header_parse, DNS_HEADER_LEN; split.
  - intros H; inv_ok; boolp; cbn; done.
  - intros (? & H0 & H2 & H4 & H6 & H8 & H10).
    rewrite (proj2 (Z.ltb_ge _ _)) by done.
    rewrite H0; cbn; rewrite H2; cbn; rewrite H4; cbn; rewrite H6; cbn.
    rewrite H8; cbn; rewrite H10; cbn; by destruct h.
Qed.

Lemma header_parse_ok p h : bytes_ok p → header_parse p = Ok h → header_ok h.
Proof.
  intros Hp (_ & ? & ? & ? & ? & ? & ?)%header_parse_iff.
  unfold header_ok; split_and!; by eapply read_u16_range.
Qed.

Lemma header_parse_total p : packet_ok p → 12 ≤ len p → ∃ h, header_parse p = Ok h.
Proof.
  intros Hp Hlen.
  destruct (read_u16_total p 0 Hp) as [v0 ?]; [lia..|].
  destruct (read_u16_total p 2 Hp) as [v2 ?]; [lia..|].
  destruct (read_u16_total p 4 Hp) as [v4 ?]; [lia..|].
  destruct (read_u16_total p 6 Hp) as [v6 ?]; [lia..|].
  destruct (read_u16_total p 8 Hp) as [v8 ?]; [lia..|].
  destruct (read_u16_total p 10 Hp) as [v10 ?]; [lia..|].
  exists (mk_header v0 v2 v4 v6 v8 v10); by apply header_parse_iff.
Qed.

(** The octets of a header. *)
Definition header_bytes (h : Header) : bytes :=
  u16_bytes (h_id h) ++ u16_bytes (h_flags h) ++ u16_bytes (h_question_count h) ++
  u16_bytes (h_answer_count h) ++ u16_bytes (h_authority_count h) ++
  u16_bytes (h_additional_count h).

Lemma header_bytes_len h : len (header_bytes h) = 12.
Proof. done. Qed.

Lemma header_bytes_ok h : header_ok h → bytes_ok (header_bytes h).
Proof.
  intros (? & ? & ? & ? & ? & ?); unfold header_bytes; rewrite !bytes_ok_app.
  auto 10 using u16_bytes_ok.
Qed.

Lemma header_parse_bytes h rest :
  packet_ok (header_bytes h ++ rest) → header_parse (header_bytes h ++ rest) = Ok h.
Proof.
  intros Hp; apply header_parse_iff; split_and!.
  - rewrite len_app, header_bytes_len; pose proof (len_nonneg rest); lia.
  - by eapply read_u16_within with (pre := []).
  - by eapply read_u16_within with (pre := u16_bytes (h_id h)).
  - by eapply read_u16_within with (pre := u16_bytes (h_id h) ++ u16_bytes (h_flags h)).
  - by eapply read_u16_within with (pre := u16_bytes (h_id h) ++ u16_bytes (h_flags h)
      ++ u16_bytes (h_question_count h)).
  - by eapply read_u16_within with (pre := u16_bytes (h_id h) ++ u16_bytes (h_flags h)
      ++ u16_bytes (h_question_count h) ++ u16_bytes (h_answer_count h)).
  - by eapply read_u16_within with (pre := u16_bytes (h_id h) ++ u16_bytes (h_flags h)
      ++ u16_bytes (h_question_count h) ++ u16_bytes (h_answer_count h)
      ++ u16_bytes (h_authority_count h)).
Qed.

(** ** Names, questions and records *)

Lemma read_name_bounds p o n next :
  packet_ok p → read_name p o = Ok (n, next) →
  0 ≤ o < next ∧ next ≤ len p ∧ 1 ≤ len (canonical_wire n) ≤ 255.
Proof.
  intros Hp (labels & k & Hn & _ & Hlen & ->)%read_name_iff; [|done]; cbn.
  apply (name_at_bounds p Hp) in Hn as Hb.
  rewrite canonical_of_labels_len in *; pose proof (labels_len_nonneg labels).
  split_and!; try lia.
  inversion Hn; subst;
    match goal with H : bget _ _ = Some _ |- _ => apply bget_Some in H; lia end.
Qed.

(** A name without compression pointers is its encoding in the packet. *)
Lemma name_at_uncompressed p o labels next :
  packet_ok p →
  name_at p o labels 0 next ↔
  Forall label_ok labels ∧ slice p o next = Some (wire_of_labels labels).
Proof.
  intros Hp; split.
  - intros Hn; split; [by apply (name_at_bounds p Hp) in Hn as (_ & _ & ?)|].
    remember 0 as k eqn:Hk; revert Hk.
    induction Hn as [o Hg|o l lab labs k next Hg Hl Hs Hn IH|
                     o l s labs k next Hg Hl Hs Hlt Hn IH]; intros Hk.
    + apply bget_Some in Hg as [? Hg]; apply slice_Some; split_and!; [lia..|].
      replace (Z.to_nat (o + 1 - o)) with 1%nat by lia.
      by rewrite (drop_S _ _ _ Hg).
    + specialize (IH Hk); apply slice_Some in IH as (? & ? & Hw).
      apply bget_Some in Hg as [? Hg]; pose proof (slice_len _ _ _ _ Hs) as Hlab.
      apply slice_Some in Hs as (? & ? & ->).
      apply slice_Some; split_and!; [lia..|].
      rewrite wire_of_labels_cons, Hw, Hlab.
      replace (o + 1 + l - (o + 1)) with l by lia.
      replace (Z.to_nat (next - o)) with (S (Z.to_nat l + Z.to_nat (next - (o + 1 + l))))
        by lia.
      rewrite (drop_S _ _ _ Hg); cbn; f_equal.
      replace (S (Z.to_nat o)) with (Z.to_nat (o + 1)) by lia.
      rewrite <- take_take_drop; do 2 f_equal.
      rewrite drop_drop; f_equal; lia.
    + apply (name_at_bounds p Hp) in Hn; lia.
  - intros [Hok Hs]; pose proof (slice_len _ _ _ _ Hs).
    apply slice_Some in Hs as Hb; apply slice_decompose in Hs as [Hdec Hpre].
    pose proof (name_at_wire (take (Z.to_nat o) p) labels (drop (Z.to_nat next) p) Hok)
      as Hn.
    rewrite <- Hdec, Hpre in Hn.
    by replace (o + len (wire_of_labels labels)) with next in Hn by lia.
Qed.

Lemma parse_question_iff p o q :
  parse_question p o = Ok q ↔
  ∃ ne, read_name p o = Ok (q_name q, ne) ∧ read_u16 p ne = Ok (q_rr_type q) ∧
    read_u16 p (ne + 2) = Ok (q_class q) ∧ q_next_offset q = ne + 4.
Proof.
  unfold parse_question; split.
  - intros H; inv_ok; cbn; eauto 10.
  - intros (ne & Hn & Ht & Hc & Hnext).
    rewrite Hn; cbn; rewrite Ht; cbn; rewrite Hc; cbn; rewrite <- Hnext.
    by destruct q.
Qed.

Lemma parse_record_iff p o r :
  packet_ok p →
  parse_record p o = Ok r ↔
  ∃ ne, read_name p o = Ok (r_name r, ne) ∧ read_u16 p ne = Ok (r_rr_type r) ∧
    read_u16 p (ne + 2) = Ok (r_class r) ∧
    r_ttl_offset r = ne + 4 ∧ read_u32 p (ne + 4) = Ok (r_ttl r) ∧
    r_rdata_offset r = ne + 10 ∧ read_u16 p (ne + 8) = Ok (len (r_rdata r)) ∧
    r_next_offset r = ne + 10 + len (r_rdata r) ∧
    slice p (ne + 10) (ne + 10 + len (r_rdata r)) = Some (r_rdata r).
Proof.
  intros Hp; unfold parse_record; split.
  - intros H; inv_ok; subst.
    match goal with H : checked_end _ _ = Ok _ |- _ =>
      apply checked_end_Ok in H as [-> _] end.
    match goal with H : slice _ _ _ = Some _ |- _ =>
      pose proof (slice_len _ _ _ _ H) as Hl end.
    cbn; rewrite Hl; eexists; split_and!; try done;
      [|by replace (z + 10 + _ - (z + 10)) with a3 by lia ..].
    by replace (z + 10 + a3 - (z + 10)) with a3 by lia.
  - intros (ne & Hn & Ht & Hc & Hto & Httl & Hro & Hrl & Hnext & Hs).
    apply slice_Some in Hs as ?; destruct Hp.
    rewrite Hn; cbn; rewrite Ht; cbn; rewrite Hc; cbn; rewrite Httl; cbn.
    rewrite Hrl; cbn.
    rewrite (proj2 (checked_end_Ok _ _ _)) by (split; [done|unfold usize_max; lia]).
    cbn; rewrite ?Hnext, Hs; cbn; rewrite <- Hnext, <- Hto, <- Hro; by destruct r.
Qed.

Definition question_ok (p : bytes) (o : Z) (q : Question) : Prop :=
  0 ≤ o ∧ o + 5 ≤ q_next_offset q ≤ len p ∧
  is_u16 (q_rr_type q) ∧ is_u16 (q_class q).

Lemma parse_question_bounds p o q :
  packet_ok p → parse_question p o = Ok q → question_ok p o q.
Proof.
  intros Hp (ne & Hn & Ht & Hc & Hnext)%parse_question_iff.
  apply read_name_bounds in Hn as ?; [|done].
  apply read_u16_Ok in Hc as ?; unfold question_ok.
  split_and!; try lia; eapply read_u16_range; eauto with wire.
Qed.

(** A record at [o]: its fields lie inside the packet, one behind the other. *)
Definition record_ok (p : bytes) (o : Z) (r : ResourceRecord) : Prop :=
  0 ≤ o ∧ o + 5 ≤ r_ttl_offset r ∧ r_rdata_offset r = r_ttl_offset r + 6 ∧
  r_next_offset r = r_rdata_offset r + len (r_rdata r) ∧
  r_next_offset r ≤ len p ∧ read_u32 p (r_ttl_offset r) = Ok (r_ttl r) ∧
  slice p (r_rdata_offset r) (r_next_offset r) = Some (r_rdata r) ∧
  is_u16 (r_rr_type r) ∧ is_u16 (r_class r) ∧ is_u32 (r_ttl r) ∧
  is_u16 (len (r_rdata r)) ∧ 1 ≤ len (canonical_wire (r_name r)) ≤ 255.

Lemma parse_record_bounds p o r :
  packet_ok p → parse_record p o = Ok r → record_ok p o r.
Proof.
  intros Hp (ne & Hn & Ht & Hc & Hto & Httl & Hro & Hrl & Hnext & Hs)%parse_record_iff;
    [|done].
  apply read_name_bounds in Hn as ?; [|done].
  apply slice_Some in Hs as ?; unfold record_ok.
  rewrite Hto, Hro, Hnext; split_and!; try done; try lia;
    first [eapply read_u16_range | eapply read_u32_range]; eauto with wire.
Qed.

Lemma parse_question_safe p o : packet_ok p → safe (parse_question p o).
Proof.
  intros Hp; unfold parse_question.
  apply wp_bind; eapply wp_mono; [by apply read_name_safe|]; intros [n ne] _.
  do 2 (apply wp_bind; eapply wp_mono; [apply read_u16_safe|]; intros ? _); done.
Qed.

Lemma parse_record_safe p o : packet_ok p → safe (parse_record p o).
Proof.
  intros Hp; unfold parse_record.
  apply wp_bind; eapply wp_mono; [by apply read_name_safe|]; intros [n ne] _.
  do 2 (apply wp_bind; eapply wp_mono; [apply read_u16_safe|]; intros ? _).
  apply wp_bind; eapply wp_mono; [apply read_u32_safe|]; intros ? _.
  apply wp_bind; eapply wp_mono; [apply read_u16_safe|]; intros ? _.
  apply wp_bind; unfold checked_end; apply wp_ok_or; intros.
  by apply wp_bind, wp_ok_or.
Qed.

Lemma parse_questions_safe n p o : packet_ok p → safe (parse_questions n p o).
Proof.
  intros Hp; revert o; induction n as [|n IH]; intros o; [done|].
  cbn [parse_questions]; apply wp_bind; eapply wp_mono; [by apply parse_question_safe|].
  intros q _; apply wp_bind; eapply wp_mono; [apply IH|]; by intros [? ?].
Qed.

Lemma parse_records_safe n p o : packet_ok p → safe (parse_records n p o).
Proof.
  intros Hp; revert o; induction n as [|n IH]; intros o; [done|].
  cbn [parse_records]; apply wp_bind; eapply wp_mono; [by apply parse_record_safe|].
  intros q _; apply wp_bind; eapply wp_mono; [apply IH|]; by intros [? ?].
Qed.

Lemma parse_sections_safe p : packet_ok p → safe (parse_sections p).
Proof.
  intros Hp; unfold parse_sections.
  apply wp_bind; eapply wp_mono; [apply header_parse_safe|]; intros h _.
  apply wp_bind; eapply wp_mono; [by apply parse_questions_safe|]; intros [qs o] _.
  apply wp_bind; eapply wp_mono; [by apply parse_records_safe|]; by intros [rs o'] _.
Qed.

#[export] Hint Resolve header_parse_safe parse_question_safe parse_record_safe
  parse_questions_safe parse_records_safe parse_sections_safe : wire.

(** Consecutive questions and records. *)
Lemma parse_questions_bounds n p o qs stop :
  packet_ok p → parse_questions n p o = Ok (qs, stop) →
  length qs = n ∧ o + 5 * Z.of_nat n ≤ stop ∧ (o ≤ len p → stop ≤ len p).
Proof.
  intros Hp; revert o qs; induction n as [|n IH]; intros o qs H; cbn in H.
  { inv_ok; simplify_eq; split_and!; [done|lia..]. }
  inv_ok; simplify_eq.
  apply parse_question_bounds in H0 as (? & ? & _); [|done].
  apply IH in H1 as (? & ? & ?); cbn; split_and!; lia.
Qed.

(** [records_at p o rs stop]: [rs] are the records that lie one behind the other
    from [o] to [stop]. *)
Fixpoint records_at (p : bytes) (o : Z) (rs : list ResourceRecord) (stop : Z) : Prop :=
  match rs with
  | [] => o = stop
  | r :: rs => record_ok p o r ∧ records_at p (r_next_offset r) rs stop
  end.

Lemma parse_records_at n p o rs stop :
  packet_ok p → parse_records n p o = Ok (rs, stop) →
  length rs = n ∧ records_at p o rs stop.
Proof.
  intros Hp; revert o rs; induction n as [|n IH]; intros o rs H; cbn in H.
  { by inv_ok; simplify_eq. }
  inv_ok; simplify_eq.
  apply IH in H1 as (? & ?); cbn; split_and!; [lia| |done].
  by apply parse_record_bounds.
Qed.

Lemma records_at_bounds p o rs stop :
  records_at p o rs stop → o + 11 * len rs ≤ stop ∧ (o ≤ len p → stop ≤ len p).
Proof.
  revert o; induction rs as [|r rs IH]; intros o; cbn [records_at].
  { intros ->; len_lia. }
  intros [Hr Hrs]; apply IH in Hrs; unfold record_ok in Hr.
  pose proof (len_nonneg (r_rdata r)); len_lia.
Qed.

Lemma parse_sections_Ok p h qs rs stop :
  packet_ok p → parse_sections p = Ok (h, qs, rs, stop) →
  ∃ o, header_parse p = Ok h ∧ header_ok h ∧
    parse_questions (Z.to_nat (h_question_count h)) p DNS_HEADER_LEN = Ok (qs, o) ∧
    12 ≤ o ≤ len p ∧ records_at p o rs stop ∧
    len qs = h_question_count h ∧ len rs = total_records h ∧ stop ≤ len p.
Proof.
  intros Hp H; unfold parse_sections in H; inv_ok; simplify_eq.
  apply header_parse_iff in H0 as Hh.
  apply (header_parse_ok p) in H0 as Hok; [|by apply packet_ok_bytes].
  apply parse_questions_bounds in H1 as Hq; [|done].
  apply parse_records_at in H2 as [Hl Hr]; [|done].
  apply records_at_bounds in Hr as Hb.
  unfold header_ok, is_u16, DNS_HEADER_LEN, len, total_records in *.
  eexists; split_and!; eauto; lia.
Qed.

(** A run of records is a run of the first [n], then a run of the others. *)
Lemma parse_records_app n m p o rs stop :
  parse_records (n + m) p o = Ok (rs, stop) →
  ∃ rs1 o1 rs2, parse_records n p o = Ok (rs1, o1) ∧
    parse_records m p o1 = Ok (rs2, stop) ∧ rs = rs1 ++ rs2.
Proof.
  revert o rs; induction n as [|n IH]; intros o rs H.
  { by exists [], o, rs. }
  cbn [Nat.add parse_records] in H; apply bind_Ok in H as (r & Hr & H).
  apply bind_Ok in H as ([rest s] & Hrest & H); simplify_eq.
  apply IH in Hrest as (rs1 & o1 & rs2 & H1 & H2 & ->).
  exists (r :: rs1), o1, rs2; split_and!; [|done|done].
  cbn [parse_records]; rewrite Hr; cbn [mbind outcome_bind]; by rewrite H1.
Qed.

Lemma parse_records_each n p o rs stop :
  parse_records n p o = Ok (rs, stop) → Forall (λ r, ∃ o', parse_record p o' = Ok r) rs.
Proof.
  revert o rs; induction n as [|n IH]; intros o rs H; cbn in H; inv_ok; simplify_eq;
    [constructor|]; constructor; [by eexists|by eapply IH].
Qed.

(** A record laid out behind [pre], with its owner name in [owner]. *)
Lemma parse_record_within p pre owner name t c ttl rdata post :
  packet_ok p →
  p = pre ++ owner ++ u16_bytes t ++ u16_bytes c ++ u32_bytes ttl ++ u16_bytes (len rdata) ++
      rdata ++ post →
  read_name p (len pre) = Ok (name, len pre + len owner) →
  parse_record p (len pre) =
    Ok (mk_record name t c ttl (len pre + len owner + 4) (len pre + len owner + 10) rdata
          (len pre + len owner + 10 + len rdata)).
Proof.
  intros Hp Heq Hn; apply parse_record_iff; [done|]; exists (len pre + len owner); cbn.
  split_and!; [done|..|done| |done| |done|].
  - apply (read_u16_within p _ (pre ++ owner) _
      (u16_bytes c ++ u32_bytes ttl ++ u16_bytes (len rdata) ++ rdata ++ post));
      [done|by rewrite Heq, <- !app_assoc|len_lia].
  - apply (read_u16_within p _ (pre ++ owner ++ u16_bytes t) _
      (u32_bytes ttl ++ u16_bytes (len rdata) ++ rdata ++ post));
      [done|by rewrite Heq, <- !app_assoc|len_lia].
  - apply (read_u32_within p _ (pre ++ owner ++ u16_bytes t ++ u16_bytes c) _
      (u16_bytes (len rdata) ++ rdata ++ post)); [done|by rewrite Heq, <- !app_assoc|len_lia].
  - apply (read_u16_within p _ (pre ++ owner ++ u16_bytes t ++ u16_bytes c ++ u32_bytes ttl) _
      (rdata ++ post)); [done|by rewrite Heq, <- !app_assoc|len_lia].
  - pose proof (slice_app_exact (pre ++ owner ++ u16_bytes t ++ u16_bytes c ++ u32_bytes ttl ++
      u16_bytes (len rdata)) rdata post) as Hs.
    rewrite Heq; rewrite <- !app_assoc in *.
    replace (len pre + len owner + 10) with (len (pre ++ owner ++ u16_bytes t ++ u16_bytes c ++
      u32_bytes ttl ++ u16_bytes (len rdata))) by (autorewrite with len; lia).
    exact Hs.
Qed.
