(* ===== verification/Packet.v ===== *)
(** * Packets

    Models [src/wire/packet.rs] and [src/wire/error_response.rs]: validation,
    matching a response to its query, building queries, error and local
    responses, the lifetime a response may be cached for and TTL ageing. *)

From S2P Require Import Prelude Text Net Sorting Codec.

Inductive LocalRecord : Type :=
  | LocalA (address : bytes)
  | LocalAaaa (address : bytes)
  | LocalPtr (name : str).

Definition local_rr_type (r : LocalRecord) : Z :=
  match r with
  | LocalA _ => TYPE_A
  | LocalAaaa _ => TYPE_AAAA
  | LocalPtr _ => TYPE_PTR
  end.

Definition validate (packet : bytes) (expect_response : bool) : wres unit :=
  '(header, questions, _, stop) ← parse_sections packet;
  if negb (Bool.eqb (is_response header) expect_response)
  then Err WrongDirection
  else if negb (opcode header =? 0) then Err (UnsupportedOpcode (opcode header))
  else if bool_decide (questions = []) then Err NoQuestion
  else if negb expect_response && negb (h_question_count header =? 1)
  then Err (WrongQuestionCount (h_question_count header))
  else if negb (stop =? len packet) then Err TrailingData
  else Ok ().

Definition first_question (packet : bytes) : wres Question :=
  header ← header_parse packet;
  if h_question_count header =? 0 then Err NoQuestion
  else parse_question packet DNS_HEADER_LEN.

Definition question_end (packet : bytes) : wres Z :=
  header ← header_parse packet;
  if h_question_count header =? 0 then Err NoQuestion
  else
    '(_, offset) ←
      parse_questions (Z.to_nat (h_question_count header)) packet DNS_HEADER_LEN;
    Ok offset.

Definition response_matches (query response : bytes) : wres unit :=
  _ ← validate query false;
  _ ← validate response true;
  query_header ← header_parse query;
  response_header ← header_parse response;
  if negb (h_id query_header =? h_id response_header) then Err QuestionMismatch
  else
    query_question ← first_question query;
    response_question ← first_question response;
    if bool_decide (canonical_wire (q_name query_question)
                    ≠ canonical_wire (q_name response_question)) ||
       negb (q_rr_type query_question =? q_rr_type response_question) ||
       negb (q_class query_question =? q_class response_question)
    then Err QuestionMismatch
    else Ok ().

Definition make_query_with_class (name : str) (rr_type class id : Z) :
    wres bytes :=
  encoded_name ← encode_name name;
  Ok (u16_bytes id ++ u16_bytes FLAG_RD ++ u16_bytes 1 ++ replicate 6 0 ++
      encoded_name ++ u16_bytes rr_type ++ u16_bytes class).

Definition make_query (name : str) (rr_type id : Z) : wres bytes :=
  make_query_with_class name rr_type CLASS_IN id.

Definition rewrite_id (packet : bytes) (id : Z) : wres bytes :=
  write_u16 packet 0 id.

(** The bits an answer clears in the flags of the query: [AA], [TC] and the
    response code. *)
Definition cleared_flags : Z := Z.lor (Z.lor FLAG_AA FLAG_TC) RCODE_MASK.

(** [servfail_for] ([rcode] 2) and [refused_for] ([rcode] 5) have one body. *)
Definition error_response_for (rcode : Z) (query : bytes) : wres bytes :=
  _ ← validate query false;
  stop ← question_end query;
  response ← or_panic (slice query 0 stop);
  flags ← read_u16 response 2;
  let flags := Z.lor flags (Z.lor FLAG_QR FLAG_RA) in
  let flags := Z.ldiff flags cleared_flags in
  let flags := Z.lor flags rcode in
  response ← write_u16 response 2 flags;
  or_panic (splice response 6 (replicate 6 0)).

Definition servfail_for (query : bytes) : wres bytes := error_response_for 2 query.
Definition refused_for (query : bytes) : wres bytes := error_response_for 5 query.

Definition u16_try_from (n : Z) (e : WireError) : wres Z :=
  if n <=? u16_max then Ok n else Err e.

Definition local_rdata (r : LocalRecord) : wres bytes :=
  match r with
  | LocalA address => Ok address
  | LocalAaaa address => Ok address
  | LocalPtr name => encode_name name
  end.

(** The loop of [local_response] over the records. *)
Fixpoint append_local_records (rr_type ttl : Z) (records : list LocalRecord)
    (response : bytes) : wres bytes :=
  match records with
  | [] => Ok response
  | record :: rest =>
      if negb (local_rr_type record =? rr_type) && negb (rr_type =? 255)
      then append_local_records rr_type ttl rest response
      else
        rdata ← local_rdata record;
        rdata_length ← u16_try_from (len rdata) ResponseTooLarge;
        let response :=
          response ++ [0xc0; 0x0c] ++ u16_bytes (local_rr_type record) ++
          u16_bytes CLASS_IN ++ u32_bytes ttl ++ u16_bytes rdata_length ++ rdata in
        if u16_max <? len response then Err ResponseTooLarge
        else append_local_records rr_type ttl rest response
  end.

(** [while offset < packet.len()]: a record takes at least 11 octets, so the
    length of the packet bounds the rounds. *)
Fixpoint count_records_loop (fuel : nat) (packet : bytes) (offset count : Z) :
    wres Z :=
  match fuel with
  | O => Diverge
  | S fuel =>
      if offset <? len packet then
        record ← parse_record packet offset;
        count ← ok_or (checked_add u16_max count 1) ResponseTooLarge;
        count_records_loop fuel packet (r_next_offset record) count
      else Ok count
  end.

Definition count_records_after_question (packet : bytes) (offset : Z) : wres Z :=
  count_records_loop (S (length packet)) packet offset 0.

Definition local_response (query : bytes) (records : list LocalRecord)
    (ttl : Z) : wres bytes :=
  _ ← validate query false;
  question ← first_question query;
  stop ← question_end query;
  response ← or_panic (slice query 0 stop);
  flags ← read_u16 response 2;
  let flags := Z.lor flags (Z.lor FLAG_QR FLAG_RA) in
  let flags := Z.ldiff flags cleared_flags in
  response ← write_u16 response 2 flags;
  count ← u16_try_from (len records) ResponseTooLarge;
  response ← write_u16 response 6 count;
  response ← or_panic (splice response 8 (replicate 4 0));
  response ← append_local_records (q_rr_type question) ttl records response;
  actual_answers ← count_records_after_question response stop;
  write_u16 response 6 actual_answers.

Definition soa_minimum (packet : bytes) (record : ResourceRecord) : wres Z :=
  '(_, first_end) ← read_name packet (r_rdata_offset record);
  '(_, second_end) ← read_name packet first_end;
  fixed_end ← checked_end second_end 20;
  if negb (fixed_end =? r_next_offset record) then Err InvalidRecord
  else read_u32 packet (second_end + 16).

(** [filter_map(|record| soa_minimum(packet, record).ok().map(..))]. *)
Fixpoint negative_ttls (packet : bytes) (records : list ResourceRecord) :
    wres (list Z) :=
  match records with
  | [] => Ok []
  | record :: rest =>
      match soa_minimum packet record with
      | Ok minimum =>
          ttls ← negative_ttls packet rest;
          Ok (Z.min (r_ttl record) minimum :: ttls)
      | Err _ => negative_ttls packet rest
      | Panic => Panic
      | Diverge => Diverge
      end
  end.

Definition cache_lifetime (packet : bytes) : wres (option Z) :=
  '(header, _, records, _) ← parse_sections packet;
  if negb (is_response header) then Err WrongDirection
  else if existsb (λ r, r_rr_type r =? TYPE_TSIG) records then Ok None
  else
    let answer_end := h_answer_count header in
    if (response_code header =? 3) || (h_answer_count header =? 0) then
      let authority_end := answer_end + h_authority_count header in
      let authority := default [] (slice records answer_end authority_end) in
      ttls ← negative_ttls packet
        (List.filter (λ r, r_rr_type r =? TYPE_SOA) authority);
      Ok (min_of ttls)
    else
      let answers := default [] (slice records 0 answer_end) in
      Ok (min_of (r_ttl <$>
        List.filter (λ r, negb (r_rr_type r =? TYPE_OPT) &&
                          negb (r_rr_type r =? TYPE_TSIG)) answers)).

Definition aged_ttl (elapsed_seconds : Z) (stale : bool) (ttl : Z) : Z :=
  if stale then 0 else saturating_sub ttl elapsed_seconds.

Fixpoint age_records (elapsed_seconds : Z) (stale : bool)
    (ttl_offsets : list (Z * Z * Z)) (packet : bytes) : wres bytes :=
  match ttl_offsets with
  | [] => Ok packet
  | (offset, ttl, rr_type) :: rest =>
      if rr_type =? TYPE_OPT
      then age_records elapsed_seconds stale rest packet
      else
        packet ← write_u32 packet offset (aged_ttl elapsed_seconds stale ttl);
        age_records elapsed_seconds stale rest packet
  end.

Definition age_ttls (packet : bytes) (elapsed_seconds : Z) (stale : bool) :
    wres bytes :=
  '(_, _, records, _) ← parse_sections packet;
  let ttl_offsets := (λ r, (r_ttl_offset r, r_ttl r, r_rr_type r)) <$> records in
  age_records elapsed_seconds stale ttl_offsets packet.
