(* ===== verification/PacketFacts.v ===== *)
(** * Properties of packets

    Theorems about [src/wire/packet.rs] and [src/wire/error_response.rs]: the
    queries the resolver builds are valid and read back, error and local
    responses answer the query they were made for, TTL ageing changes TTLs and
    nothing else, and no operation panics. *)

From S2P Require Import Prelude Text Net Sorting Codec Names CodecFacts Packet.

(** ** Validation *)

Lemma validate_safe p b : packet_ok p → safe (validate p b).
Proof.
  intros Hp; unfold validate; apply wp_bind.
  eapply wp_mono; [by apply parse_sections_safe|]; intros [[[h qs] rs] stop] _.
  by repeat (destruct (negb _ || _); [done|] || case_match; try done).
Qed.

Lemma first_question_safe p : packet_ok p → safe (first_question p).
Proof.
  intros Hp; unfold first_question; apply wp_bind.
  eapply wp_mono; [apply header_parse_safe|]; intros h _.
  case_match; [done|]; by apply parse_question_safe.
Qed.

Lemma question_end_safe p : packet_ok p → safe (question_end p).
Proof.
  intros Hp; unfold question_end; apply wp_bind.
  eapply wp_mono; [apply header_parse_safe|]; intros h _.
  case_match; [done|]; apply wp_bind.
  eapply wp_mono; [by apply parse_questions_safe|]; by intros [? ?] _.
Qed.

#[export] Hint Resolve validate_safe first_question_safe question_end_safe : wire.

(** What [validate] accepts. *)
Lemma validate_iff p b :
  packet_ok p →
  validate p b = Ok () ↔
  ∃ h qs rs, parse_sections p = Ok (h, qs, rs, len p) ∧
    is_response h = b ∧ opcode h = 0 ∧ 1 ≤ h_question_count h ∧
    (b = false → h_question_count h = 1).
Proof.
  intros Hp; unfold validate; split.
  - intros H; inv_ok; simplify_eq; boolp.
    match goal with H : Bool.eqb _ _ = true |- _ => apply Bool.eqb_prop in H end.
    apply parse_sections_Ok in H0 as Hs; [|done].
    destruct Hs as (o & _ & _ & _ & _ & _ & Hl & _).
    subst; eexists _, _, _; split_and!; eauto.
    + destruct l0; [done|]; rewrite <- Hl, len_cons.
      pose proof (len_nonneg l0); lia.
    + intros Hr; match goal with H : _ ∨ _ |- _ => destruct H end; boolp; congruence.
  - intros (h & qs & rs & Hs & <- & Hop & Hq & Hq1).
    apply parse_sections_Ok in Hs as Ho; [|done].
    destruct Ho as (o & _ & _ & _ & _ & _ & Hl & _).
    rewrite Hs; cbn [mbind outcome_bind]; rewrite Bool.eqb_reflx, Hop; cbn [negb].
    rewrite bool_decide_eq_false_2 by (intros ->; rewrite len_nil in Hl; lia).
    rewrite (Z.eqb_refl (len p)).
    destruct (is_response h); cbn [negb andb]; [done|]; by rewrite Hq1.
Qed.

(** ** Uncompressed names *)

Lemma name_at_agree p q o labels next :
  packet_ok p → packet_ok q → next ≤ len q →
  (∀ i, o ≤ i < next → bget q i = bget p i) →
  name_at p o labels 0 next → name_at q o labels 0 next.
Proof.
  intros Hp Hq Hlen Hag; rewrite !name_at_uncompressed by done.
  intros [Hok Hs]; split; [done|]; apply slice_Some in Hs as Hb.
  rewrite <- Hs; apply slice_ext'; [|done]; lia.
Qed.

Lemma read_u16_agree p q o :
  packet_ok q → o + 2 ≤ len q → (∀ i, o ≤ i < o + 2 → bget q i = bget p i) →
  ∀ v, read_u16 p o = Ok v → read_u16 q o = Ok v.
Proof.
  intros Hq Hlen Hag v (? & ? & a & b & Ha & Hb & ->)%read_u16_Ok.
  apply read_u16_eq; [done|by rewrite Hag by lia..].
Qed.

(** The question of a packet, with its name written without compression. *)
Definition plain_question (p : bytes) (labels : list bytes) (t c stop : Z) : Prop :=
  name_at p 12 labels 0 (stop - 4) ∧
  len (canonical_of_labels labels) ≤ 255 ∧
  read_u16 p (stop - 4) = Ok t ∧ read_u16 p (stop - 2) = Ok c.

Definition labels_name (labels : list bytes) : DnsName :=
  mk_name (text_of_labels labels) (canonical_of_labels labels).

Lemma plain_question_agree p q labels t c stop :
  packet_ok p → packet_ok q → stop ≤ len q →
  (∀ i, 12 ≤ i < stop → bget q i = bget p i) →
  plain_question p labels t c stop → plain_question q labels t c stop.
Proof.
  intros Hp Hq Hlen Hag (Hn & Hcl & Ht & Hc).
  apply (name_at_bounds p Hp) in Hn as Hb.
  split_and!; [|done|..].
  - eapply name_at_agree; [exact Hp|done| | |done]; [lia|]; intros; apply Hag; lia.
  - eapply read_u16_agree; [done|lia| |exact Ht]; intros; apply Hag; lia.
  - eapply read_u16_agree; [done|lia| |exact Hc]; intros; apply Hag; lia.
Qed.

Lemma plain_question_parse p labels t c stop :
  packet_ok p → plain_question p labels t c stop →
  parse_question p 12 = Ok (mk_question (labels_name labels) t c stop) ∧
  17 ≤ stop ≤ len p.
Proof.
  intros Hp (Hn & Hcl & Ht & Hc); split.
  - apply parse_question_iff; exists (stop - 4); cbn.
    replace (stop - 4 + 2) with (stop - 2) by lia; split_and!; [|done..|lia].
    apply read_name_iff; [done|]; exists labels, 0; split_and!; done || lia.
  - apply (name_at_bounds p Hp) in Hn as ?; apply read_u16_Ok in Hc as ?; lia.
Qed.

(** ** Queries *)

Lemma encode_name_ok s w : encode_name s = Ok w → bytes_ok w.
Proof.
  intros (Ha & Hok & -> & _)%encode_name_iff.
  assert (Forall bytes_ok (name_labels s)) as Hb.
  { unfold name_labels; case_match; [constructor|].
    apply split_on_Forall; eapply Forall_impl; [by apply is_ascii_Forall|].
    intros c Hc; cbn in Hc; unfold is_u8; lia. }
  clear -Hok Hb; induction (name_labels s) as [|l ls IH].
  { rewrite wire_of_labels_nil; apply Forall_singleton; unfold is_u8; lia. }
  inversion_clear Hok as [|? ? Hl]; inversion_clear Hb.
  rewrite wire_of_labels_cons; apply bytes_ok_app; split; [|by apply IH].
  constructor; [unfold is_u8, label_ok in *; lia|done].
Qed.

Definition query_header (id : Z) : Header := mk_header id FLAG_RD 1 0 0 0.

Lemma make_query_shape name t c id p :
  is_u16 t → is_u16 c → is_u16 id →
  make_query_with_class name t c id = Ok p →
  packet_ok p ∧ header_parse p = Ok (query_header id) ∧
  plain_question p (name_labels name) t c (len p).
Proof.
  intros Ht Hc Hid; unfold make_query_with_class; intros H.
  apply bind_Ok in H as (w & H0 & H).
  apply encode_name_ok in H0 as Hok.
  apply encode_name_iff in H0 as (_ & Hlab & Hw & Hlen).
  assert (p = header_bytes (query_header id) ++ w ++ u16_bytes t ++ u16_bytes c) as ->.
  { transitivity (u16_bytes id ++ u16_bytes FLAG_RD ++ u16_bytes 1 ++ replicate 6 0 ++
      w ++ u16_bytes t ++ u16_bytes c); [congruence|done]. }
  clear H; assert (packet_ok (header_bytes (query_header id) ++ w ++
    u16_bytes t ++ u16_bytes c)) as Hp.
  { split; [|rewrite len_app, header_bytes_len; len_lia].
    rewrite !bytes_ok_app; split_and!; auto using u16_bytes_ok.
    apply header_bytes_ok; unfold header_ok, is_u16 in *; cbn; unfold FLAG_RD; lia. }
  split_and!; [done|by apply header_parse_bytes|].
  pose proof (header_bytes_len (query_header id)) as Hhd.
  generalize dependent (header_bytes (query_header id)); intros hd Hp Hhd.
  unfold plain_question; split_and!.
  - rewrite <- Hhd at 1; replace (len (hd ++ w ++ _ ++ _) - 4) with (len hd + len w)
      by len_lia.
    rewrite Hw; by apply name_at_wire.
  - rewrite canonical_of_labels_len, <- wire_of_labels_len; congruence.
  - apply read_u16_within with (pre := hd ++ w) (post := u16_bytes c); [done| |len_lia].
    by rewrite <- app_assoc.
  - apply read_u16_within with (pre := hd ++ w ++ u16_bytes t) (post := []);
      [done| |len_lia].
    by rewrite <- !app_assoc, app_nil_r.
Qed.

(** A packet that has only a plain question parses to it. *)
Lemma parse_sections_question p h labels t c :
  packet_ok p → header_parse p = Ok h → h_question_count h = 1 →
  total_records h = 0 → plain_question p labels t c (len p) →
  parse_sections p =
    Ok (h, [mk_question (labels_name labels) t c (len p)], [], len p).
Proof.
  intros Hp Hh Hq Hr Hpl; apply plain_question_parse in Hpl as [Hpq _]; [|done].
  unfold parse_sections; rewrite Hh; cbn [mbind outcome_bind]; rewrite Hq, Hr.
  change (Z.to_nat 1) with 1%nat; cbn [parse_questions]; unfold DNS_HEADER_LEN.
  by rewrite Hpq.
Qed.

Lemma first_question_plain p h labels t c stop :
  packet_ok p → header_parse p = Ok h → h_question_count h = 1 →
  plain_question p labels t c stop →
  first_question p = Ok (mk_question (labels_name labels) t c stop) ∧
  question_end p = Ok stop.
Proof.
  intros Hp Hh Hq Hpl; apply plain_question_parse in Hpl as [Hpq _]; [|done].
  unfold first_question, question_end; rewrite Hh; cbn [mbind outcome_bind].
  rewrite Hq; change (Z.to_nat 1) with 1%nat; cbn [parse_questions Z.eqb Pos.eqb].
  unfold DNS_HEADER_LEN; by rewrite Hpq.
Qed.

(** ** Error responses *)

(** The flags of an answer with response code [rcode] to a query with [flags]. *)
Definition answer_flags (flags rcode : Z) : Z :=
  Z.lor (Z.ldiff (Z.lor flags (Z.lor FLAG_QR FLAG_RA)) cleared_flags) rcode.

Lemma land_rcode rcode mask :
  0 ≤ rcode < 16 → Z.land RCODE_MASK mask = 0 → Z.land rcode mask = 0.
Proof.
  intros Hr Hm; assert (Z.land rcode RCODE_MASK = rcode) as <-.
  { change RCODE_MASK with (Z.ones 4); rewrite Z.land_ones by lia.
    by apply Z.mod_small. }
  by rewrite <- Z.land_assoc, Hm, Z.land_0_r.
Qed.

Lemma answer_flags_facts flags rcode h :
  is_u16 flags → 0 ≤ rcode < 16 → h_flags h = answer_flags flags rcode →
  is_u16 (h_flags h) ∧ is_response h = true ∧ truncated h = false ∧
  response_code h = rcode ∧
  opcode h = opcode (mk_header 0 flags 0 0 0 0) ∧
  checking_disabled h = checking_disabled (mk_header 0 flags 0 0 0 0).
Proof.
  intros Hf Hr Hh; assert (is_u16 rcode) by (unfold is_u16; lia).
  assert (∀ mask, Z.land (answer_flags flags rcode) mask =
    Z.lor (Z.land flags (Z.ldiff mask cleared_flags))
      (Z.lor (Z.land (Z.ldiff (Z.lor FLAG_QR FLAG_RA) cleared_flags) mask)
             (Z.land rcode mask))) as Hland.
  { intros mask; unfold answer_flags.
    by rewrite land_set_clear, (Z.land_lor_distr_l (Z.ldiff _ _)). }
  unfold is_response, truncated, response_code, opcode, checking_disabled; rewrite Hh.
  rewrite !Hland; cbn [h_flags].
  rewrite !(land_rcode rcode FLAG_QR), !(land_rcode rcode FLAG_TC),
    !(land_rcode rcode FLAG_OPCODE), !(land_rcode rcode FLAG_CD) by done.
  assert (Z.land rcode RCODE_MASK = rcode) as ->.
  { change RCODE_MASK with (Z.ones 4); rewrite Z.land_ones by lia.
    by apply Z.mod_small. }
  split_and!.
  - by apply is_u16_lor; [apply is_u16_ldiff, is_u16_lor|].
  - apply negb_true_iff, Z.eqb_neq; intros [_ [? _]%Z.lor_eq_0_iff]%Z.lor_eq_0_iff.
    done.
  - change (Z.ldiff FLAG_TC cleared_flags) with 0; by rewrite Z.land_0_r.
  - change (Z.ldiff RCODE_MASK cleared_flags) with 0; by rewrite Z.land_0_r.
  - change (Z.ldiff FLAG_OPCODE cleared_flags) with FLAG_OPCODE.
    by rewrite !Z.lor_0_r.
  - change (Z.ldiff FLAG_CD cleared_flags) with FLAG_CD.
    by rewrite !Z.lor_0_r.
Qed.

(** A valid query whose question name is written without compression. *)
Record answerable (query : bytes) (h : Header) (labels : list bytes)
    (t c stop : Z) : Prop := {
  an_ok : packet_ok query;
  an_valid : validate query false = Ok ();
  an_header : header_parse query = Ok h;
  an_question : plain_question query labels t c stop;
}.

Lemma answerable_header query h labels t c stop :
  answerable query h labels t c stop →
  header_ok h ∧ is_response h = false ∧ opcode h = 0 ∧ h_question_count h = 1.
Proof.
  intros [Hp Hv Hh _]; apply validate_iff in Hv as (h' & qs & rs & Hs & ? & ? & _ & ?);
    [|done].
  apply parse_sections_Ok in Hs as (o & Hh' & Hok & _); [|done].
  rewrite Hh in Hh'; simplify_eq; naive_solver.
Qed.

(** Cutting a query behind its question and setting the answer flags. *)
Lemma answer_prefix query h labels t c stop flags :
  answerable query h labels t c stop → is_u16 flags →
  ∃ r0 r1, slice query 0 stop = Some r0 ∧ read_u16 r0 2 = Ok (h_flags h) ∧
    write_u16 r0 2 flags = Ok r1 ∧ packet_ok r1 ∧ len r1 = stop ∧
    read_u16 r1 2 = Ok flags ∧
    (∀ i, i < stop → i < 2 ∨ 4 ≤ i → bget r1 i = bget query i).
Proof.
  intros [Hp _ Hh Hq] Hf.
  apply plain_question_parse in Hq as [_ Hstop]; [|done].
  apply header_parse_iff in Hh as (_ & _ & Hfl & _).
  destruct (slice_is_Some query 0 stop) as [r0 Hr0]; [lia..|].
  assert (packet_ok r0) as Hp0.
  { split; [eapply bytes_ok_slice; [apply Hp|done]|].
    rewrite (slice_len _ _ _ _ Hr0); destruct Hp; lia. }
  pose proof (slice_len _ _ _ _ Hr0) as Hl0.
  destruct (write_u16_total r0 2 flags Hp0) as (r1 & Hw & Hs1); [lia..|].
  assert (packet_ok r1) as Hp1 by eauto using packet_ok_splice, u16_bytes_ok.
  exists r0, r1; split_and!; try done.
  - eapply read_u16_agree; [done|lia| |exact Hfl].
    intros; eapply bget_slice0; [done|lia].
  - rewrite (splice_len _ _ _ _ Hs1); lia.
  - by eapply read_splice_u16.
  - intros i Hi Hout; rewrite (bget_splice_out _ _ _ _ _ Hs1).
    + by eapply bget_slice0.
    + rewrite u16_bytes_len; lia.
Qed.

Lemma read_u16_zeros p o :
  packet_ok p → bget p o = Some 0 → bget p (o + 1) = Some 0 → read_u16 p o = Ok 0.
Proof. intros Hp H0 H1; by rewrite (read_u16_eq p o 0 0). Qed.

Lemma error_response_shape query h labels t c stop rcode :
  answerable query h labels t c stop → 0 ≤ rcode < 16 →
  ∃ r, error_response_for rcode query = Ok r ∧ packet_ok r ∧ len r = stop ∧
    header_parse r =
      Ok (mk_header (h_id h) (answer_flags (h_flags h) rcode) 1 0 0 0) ∧
    plain_question r labels t c stop.
Proof.
  intros Ha Hrc; pose proof (answerable_header _ _ _ _ _ _ Ha) as (Hok & _ & _ & Hqc).
  destruct Ha as [Hp Hv Hh Hq] eqn:HA; clear HA.
  apply plain_question_parse in Hq as Hpar; [|done]; destruct Hpar as [_ Hstop].
  destruct (answer_prefix query h labels t c stop (answer_flags (h_flags h) rcode) Ha)
    as (r0 & r1 & Hr0 & Hfl & Hw & Hp1 & Hl1 & Hfl1 & Hag).
  { destruct Hok as (_ & Hf & _); unfold answer_flags.
    apply is_u16_lor; [apply is_u16_ldiff, is_u16_lor|]; done || unfold is_u16; lia. }
  destruct (splice_is_Some r1 6 (replicate 6 0)) as [r Hr]; [lia|len_lia|].
  assert (packet_ok r) as Hpr.
  { eapply packet_ok_splice; [exact Hp1| |exact Hr].
    apply Forall_replicate; unfold is_u8; lia. }
  pose proof (splice_len _ _ _ _ Hr) as Hlr.
  assert (∀ i, i < stop → i < 2 ∨ 4 ≤ i < 6 ∨ 12 ≤ i → bget r i = bget query i) as Hagr.
  { intros i Hi Hout; rewrite (bget_splice_out _ _ _ _ _ Hr) by len_lia.
    apply Hag; lia. }
  assert (∀ i, 6 ≤ i < 12 → bget r i = Some 0) as Hz.
  { intros i Hi; rewrite (bget_splice_in _ _ _ _ _ Hr) by len_lia.
    unfold bget; rewrite (proj2 (Z.leb_le 0 _)) by lia.
    apply lookup_replicate_2; lia. }
  exists r; split_and!; [|done|lia| |].
  - unfold error_response_for; rewrite Hv; cbn [mbind outcome_bind].
    rewrite (proj2 (first_question_plain _ _ _ _ _ _ Hp Hh Hqc Hq)).
    cbn [mbind outcome_bind]; rewrite Hr0; cbn [or_panic mbind outcome_bind].
    rewrite Hfl; cbn [mbind outcome_bind]; fold (answer_flags (h_flags h) rcode).
    rewrite Hw; cbn [mbind outcome_bind]; by rewrite Hr.
  - apply header_parse_iff in Hh as (_ & H0 & _ & H4 & _).
    apply header_parse_iff; split_and!; [lia|..]; cbn.
    + eapply read_u16_agree; [done|lia| |exact H0]; intros; apply Hagr; lia.
    + eapply read_u16_agree; [done|lia| |exact Hfl1].
      intros; apply (bget_splice_out _ _ _ _ _ Hr); lia.
    + rewrite Hqc in H4.
      eapply read_u16_agree; [done|lia| |exact H4]; intros; apply Hagr; lia.
    + apply read_u16_zeros; [done|apply Hz; lia..].
    + apply read_u16_zeros; [done|apply Hz; lia..].
    + apply read_u16_zeros; [done|apply Hz; lia..].
  - eapply plain_question_agree; [exact Hp|done|lia| |done]; intros; apply Hagr; lia.
Qed.

(** A response with the query's identity and question matches it. *)
Lemma response_matches_intro query h labels t c stop r h' qs rs q :
  answerable query h labels t c stop → packet_ok r →
  parse_sections r = Ok (h', qs, rs, len r) → first_question r = Ok q →
  is_response h' = true → opcode h' = 0 → 1 ≤ h_question_count h' →
  h_id h' = h_id h →
  canonical_wire (q_name q) = canonical_of_labels labels →
  q_rr_type q = t → q_class q = c →
  response_matches query r = Ok ().
Proof.
  intros Ha Hpr Hs Hfq Hresp Hop Hqc Hid Hname Ht Hc.
  pose proof (answerable_header _ _ _ _ _ _ Ha) as (_ & _ & _ & Hq1).
  destruct Ha as [Hp Hv Hh Hq].
  apply parse_sections_Ok in Hs as Hr; [|done]; destruct Hr as (? & Hh' & _).
  assert (validate r true = Ok ()) as Hvr.
  { apply validate_iff; [done|]; by exists h', qs, rs. }
  unfold response_matches; rewrite Hv; cbn [mbind outcome_bind]; rewrite Hvr.
  cbn [mbind outcome_bind]; rewrite Hh; cbn [mbind outcome_bind]; rewrite Hh'.
  cbn [mbind outcome_bind]; rewrite Hid, Z.eqb_refl; cbn [negb].
  rewrite (proj1 (first_question_plain _ _ _ _ _ _ Hp Hh Hq1 Hq)).
  cbn [mbind outcome_bind]; rewrite Hfq; cbn [mbind outcome_bind q_name q_rr_type q_class].
  rewrite Hname, Ht, Hc, !Z.eqb_refl; cbn [negb labels_name canonical_wire].
  rewrite bool_decide_eq_false_2 by (intros Hn; by apply Hn); done.
Qed.

Lemma error_response_matches query h labels t c stop rcode :
  answerable query h labels t c stop → 0 ≤ rcode < 16 →
  ∃ r h', error_response_for rcode query = Ok r ∧ response_matches query r = Ok () ∧
    header_parse r = Ok h' ∧ h_id h' = h_id h ∧ response_code h' = rcode ∧
    truncated h' = false ∧ total_records h' = 0 ∧
    checking_disabled h' = checking_disabled h.
Proof.
  intros Ha Hrc; pose proof (answerable_header _ _ _ _ _ _ Ha) as (Hok & _ & Hop & _).
  destruct (error_response_shape _ _ _ _ _ _ _ Ha Hrc) as (r & Hr & Hpr & Hlen & Hh & Hq).
  set (h' := mk_header _ _ _ _ _ _) in Hh; destruct Hok as (_ & Hf & _).
  destruct (answer_flags_facts (h_flags h) rcode h' Hf Hrc eq_refl)
    as (_ & Hresp & Htc & Hcode & Hop' & Hcd).
  exists r, h'; split_and!; try done.
  eapply response_matches_intro with (h' := h'); try done.
  - apply parse_sections_question; try done; by rewrite Hlen.
  - by apply (first_question_plain r h').
  - by rewrite Hop'.
  - done.
  - done.
  - done.
Qed.

(** ** TTL ageing *)

(** The octets of the TTL fields ageing rewrites. *)
Definition in_aged_ttl (rs : list ResourceRecord) (i : Z) : Prop :=
  Exists (λ r, r_rr_type r ≠ TYPE_OPT ∧ r_ttl_offset r ≤ i < r_ttl_offset r + 4) rs.

Lemma aged_ttl_range elapsed stale ttl :
  0 ≤ elapsed → is_u32 ttl → is_u32 (aged_ttl elapsed stale ttl).
Proof. unfold is_u32, aged_ttl, saturating_sub; case_match; lia. Qed.

Definition ttl_triple (r : ResourceRecord) : Z * Z * Z :=
  (r_ttl_offset r, r_ttl r, r_rr_type r).

Lemma in_aged_ttl_ge p o rs stop i :
  records_at p o rs stop → in_aged_ttl rs i → o + 5 ≤ i.
Proof.
  revert o; induction rs as [|r rs IH]; intros o; cbn [records_at]; [by inversion 2|].
  intros [Hr Hrs] Hin; unfold record_ok in Hr.
  pose proof (len_nonneg (r_rdata r)).
  apply Exists_cons in Hin as [[_ ?]|Hin]; [lia|].
  specialize (IH _ Hrs Hin); lia.
Qed.

Lemma age_records_spec elapsed stale p0 o rs stop p :
  0 ≤ elapsed → records_at p0 o rs stop →
  packet_ok p → len p = len p0 →
  ∃ q, age_records elapsed stale (ttl_triple <$> rs) p = Ok q ∧
    packet_ok q ∧ len q = len p0 ∧
    (∀ i, ¬ in_aged_ttl rs i → bget q i = bget p i) ∧
    Forall (λ r, r_rr_type r ≠ TYPE_OPT →
      read_u32 q (r_ttl_offset r) = Ok (aged_ttl elapsed stale (r_ttl r))) rs.
Proof.
  intros He; revert o p; induction rs as [|r rs IH]; intros o p Hrs Hp Hlen.
  { exists p; by split_and!. }
  destruct Hrs as [Hr Hrs]; rewrite fmap_cons; cbn [ttl_triple age_records].
  unfold record_ok in Hr; destruct_and! Hr.
  pose proof (len_nonneg (r_rdata r)).
  destruct (r_rr_type r =? TYPE_OPT) eqn:Hopt; boolp.
  - destruct (IH _ p Hrs Hp Hlen) as (q & Hq & Hpq & Hlq & Hout & Hin).
    exists q; split_and!; try done.
    + intros i Hi; apply Hout; contradict Hi; by apply Exists_cons_tl.
    + by constructor.
  - set (v := aged_ttl elapsed stale (r_ttl r)).
    assert (is_u32 v) by (by apply aged_ttl_range).
    destruct (write_u32_total p (r_ttl_offset r) v Hp) as (p1 & Hw & Hs1); [lia..|].
    assert (packet_ok p1) as Hp1 by eauto using packet_ok_splice, u32_bytes_ok.
    destruct (IH _ p1 Hrs Hp1) as (q & Hq & Hpq & Hlq & Hout & Hin).
    { by rewrite (splice_len _ _ _ _ Hs1). }
    rewrite Hw; cbn [mbind outcome_bind]; exists q; split_and!; try done.
    + intros i Hi; rewrite Hout by (contradict Hi; by apply Exists_cons_tl).
      apply (bget_splice_out _ _ _ _ _ Hs1); rewrite u32_bytes_len.
      destruct (decide (r_ttl_offset r ≤ i < r_ttl_offset r + 4)); [|lia].
      exfalso; apply Hi; by apply Exists_cons_hd.
    + constructor; [|done]; intros _.
      trans (read_u32 p1 (r_ttl_offset r)); [|exact (read_splice_u32 _ _ _ _ Hp1 Hs1)].
      apply read_u32_ext; [by rewrite (splice_len _ _ _ _ Hs1), Hlq|].
      intros i Hi; apply Hout; intros Hbad.
      pose proof (in_aged_ttl_ge _ _ _ _ _ Hrs Hbad); lia.
Qed.

Lemma age_ttls_shape p elapsed stale h qs rs stop :
  packet_ok p → 0 ≤ elapsed → parse_sections p = Ok (h, qs, rs, stop) →
  ∃ q, age_ttls p elapsed stale = Ok q ∧ packet_ok q ∧ len q = len p ∧
    header_parse q = Ok h ∧
    (∀ i, ¬ in_aged_ttl rs i → bget q i = bget p i) ∧
    Forall (λ r, r_rr_type r ≠ TYPE_OPT →
      read_u32 q (r_ttl_offset r) = Ok (aged_ttl elapsed stale (r_ttl r))) rs.
Proof.
  intros Hp He Hs; apply parse_sections_Ok in Hs as Hx; [|done].
  destruct Hx as (o & Hh & _ & _ & Ho & Hrs & _).
  destruct (age_records_spec elapsed stale p o rs stop p He Hrs Hp eq_refl)
    as (q & Hq & Hpq & Hlq & Hout & Hin).
  exists q; split_and!; try done.
  - unfold age_ttls; by rewrite Hs.
  - apply header_parse_iff in Hh as (? & ?); apply header_parse_iff.
    assert (∀ i, i < 12 → bget q i = bget p i) as Hag.
    { intros i Hi; apply Hout; intros Hbad.
      pose proof (in_aged_ttl_ge _ _ _ _ _ Hrs Hbad); lia. }
    assert (∀ j v, 0 ≤ j → j + 2 ≤ 12 → read_u16 p j = Ok v → read_u16 q j = Ok v).
    { intros j v ? ? Hv; rewrite <- Hv; apply read_u16_ext; [done|apply Hag; lia..]. }
    destruct_and!; split_and!; [lia|..]; auto with lia.
Qed.

(** ** Cache lifetimes *)

Lemma soa_minimum_safe p r : packet_ok p → safe (soa_minimum p r).
Proof.
  intros Hp; unfold soa_minimum.
  do 2 (apply wp_bind; eapply wp_mono; [by apply read_name_safe|]; intros [??] _).
  apply wp_bind; unfold checked_end; apply wp_ok_or; intros; case_match; [done|].
  apply read_u32_safe.
Qed.

Lemma negative_ttls_spec p rs :
  packet_ok p → ∃ ttls, negative_ttls p rs = Ok ttls ∧
    ∀ n, n ∈ ttls ↔ ∃ r m, r ∈ rs ∧ soa_minimum p r = Ok m ∧ n = Z.min (r_ttl r) m.
Proof.
  intros Hp; induction rs as [|r rs (ttls & Heq & Hin)]; cbn [negative_ttls].
  { exists []; set_solver. }
  pose proof (soa_minimum_safe p r Hp) as Hs.
  destruct (soa_minimum p r) as [m|e| |] eqn:Hm; try done; rewrite Heq.
  - exists (Z.min (r_ttl r) m :: ttls); split; [done|]; intros n.
    rewrite elem_of_cons, Hin; split.
    + intros [->|(r' & m' & ? & ? & ->)]; [by exists r, m; set_solver|].
      exists r', m'; set_solver.
    + intros (r' & m' & [->|?]%elem_of_cons & ? & ->); [left; congruence|].
      right; by exists r', m'.
  - exists ttls; split; [done|]; intros n; rewrite Hin; split.
    + intros (r' & m' & ? & ? & ->); exists r', m'; set_solver.
    + intros (r' & m' & [->|?]%elem_of_cons & ? & ->); [congruence|].
      by exists r', m'.
Qed.

Definition answer_section (h : Header) (rs : list ResourceRecord) : list ResourceRecord :=
  take (Z.to_nat (h_answer_count h)) rs.

Definition authority_section (h : Header) (rs : list ResourceRecord) :
    list ResourceRecord :=
  take (Z.to_nat (h_authority_count h)) (drop (Z.to_nat (h_answer_count h)) rs).

(** The TTLs that bound how long a response may be cached: for an error or
    empty answer the TTL and minimum of the SOA records of its authority
    section, otherwise the TTLs of its answers. *)
Definition lifetime_bound (p : bytes) (h : Header) (rs : list ResourceRecord)
    (n : Z) : Prop :=
  if bool_decide (response_code h = 3 ∨ h_answer_count h = 0) then
    ∃ r m, r ∈ authority_section h rs ∧ r_rr_type r = TYPE_SOA ∧
      soa_minimum p r = Ok m ∧ n = Z.min (r_ttl r) m
  else
    ∃ r, r ∈ answer_section h rs ∧ r_rr_type r ≠ TYPE_OPT ∧
      r_rr_type r ≠ TYPE_TSIG ∧ n = r_ttl r.

Lemma slice_take_drop {A} (l : list A) a n :
  0 ≤ a → 0 ≤ n → a + n ≤ len l →
  slice l a (a + n) = Some (take (Z.to_nat n) (drop (Z.to_nat a) l)).
Proof.
  intros; apply slice_Some; split_and!; [lia..|].
  by replace (a + n - a) with n by lia.
Qed.

Lemma cache_lifetime_spec p h qs rs stop :
  packet_ok p → parse_sections p = Ok (h, qs, rs, stop) → is_response h = true →
  Forall (λ r, r_rr_type r ≠ TYPE_TSIG) rs →
  ∃ o, cache_lifetime p = Ok o ∧
    ∀ n, o = Some n ↔ lifetime_bound p h rs n ∧ ∀ m, lifetime_bound p h rs m → n ≤ m.
Proof.
  intros Hp Hs Hr Hts; apply parse_sections_Ok in Hs as Hx; [|done].
  destruct Hx as (o & _ & (_ & _ & _ & Han & Hau & Had) & _ & _ & _ & _ & Htot & _).
  unfold is_u16, total_records in *; unfold cache_lifetime, lifetime_bound.
  rewrite Hs; cbn [mbind outcome_bind]; rewrite Hr; cbn [negb].
  replace (existsb _ rs) with false; cycle 1.
  { symmetry; apply not_true_iff_false; intros (r & Hin & Ht)%existsb_exists; boolp.
    rewrite Forall_forall in Hts; apply (Hts r); [by apply list_elem_of_In|done]. }
  replace ((response_code h =? 3) || (h_answer_count h =? 0)) with
    (bool_decide (response_code h = 3 ∨ h_answer_count h = 0)); cycle 1.
  { apply eq_true_iff_eq; rewrite bool_decide_eq_true, orb_true_iff, !Z.eqb_eq; done. }
  case_bool_decide.
  - rewrite slice_take_drop by lia; cbn [default]; fold (authority_section h rs).
    match goal with |- context [negative_ttls p ?l] =>
      destruct (negative_ttls_spec p l Hp) as (ttls & -> & Hin) end.
    cbn [mbind outcome_bind]; exists (min_of ttls); split; [done|].
    intros n; rewrite min_of_Some; setoid_rewrite Hin; setoid_rewrite elem_of_bfilter.
    setoid_rewrite Z.eqb_eq; naive_solver.
  - pose proof (slice_take_drop rs 0 (h_answer_count h)) as Hsl.
    rewrite Z.add_0_l in Hsl; rewrite Hsl by lia; cbn [default].
    change (drop (Z.to_nat 0) rs) with rs; fold (answer_section h rs); eexists; split; [done|].
    intros n; rewrite min_of_Some; setoid_rewrite list_elem_of_fmap.
    setoid_rewrite elem_of_bfilter; setoid_rewrite andb_true_iff.
    setoid_rewrite negb_true_iff; setoid_rewrite Z.eqb_neq; naive_solver.
Qed.

(** ** Safety *)

Lemma question_end_bounds p stop :
  packet_ok p → question_end p = Ok stop → 12 ≤ stop ≤ len p.
Proof.
  intros Hp H; unfold question_end in H; apply bind_Ok in H as (h & Hh & H).
  apply header_parse_iff in Hh as [? _].
  case_match; [done|]; apply bind_Ok in H as ([qs o] & Hq & H); injection H as <-.
  apply parse_questions_bounds in Hq as (_ & ? & ?); unfold DNS_HEADER_LEN in *; [|done..]; lia.
Qed.

#[export] Hint Resolve validate_safe first_question_safe question_end_safe : wire.

Lemma write_u16_packet p o v : packet_ok p → is_u16 v → wp (write_u16 p o v) packet_ok.
Proof.
  intros Hp Hv; unfold write_u16, checked_end; apply wp_bind, wp_ok_or; intros _ _.
  apply wp_ok_or; intros q Hq; eapply packet_ok_splice; [done|by apply u16_bytes_ok|done].
Qed.

Lemma error_response_wp rcode p :
  packet_ok p → is_u16 rcode → wp (error_response_for rcode p) packet_ok.
Proof.
  intros Hp Hrc; unfold error_response_for; wp_call u Hv; wp_call stop Hstop.
  apply question_end_bounds in Hstop; [|done].
  destruct (slice_is_Some p 0 stop) as [r Hr]; [lia..|].
  assert (packet_ok r) as Hpr by (by eapply packet_ok_slice).
  rewrite Hr; cbn [or_panic mbind outcome_bind]; apply slice_len in Hr.
  wp_call flags Hf; apply read_u16_range in Hf; [|apply Hpr]; apply wp_bind; eapply wp_mono.
  { apply wp_strengthen, write_u16_packet; [done|]; by apply is_u16_lor; [apply is_u16_ldiff, is_u16_lor|]. }
  intros r' [Hr' Hp']; unfold write_u16 in Hr'; inv_ok.
  match goal with H : splice _ _ _ = Some _ |- _ => apply splice_len in H as Hlen end.
  destruct (splice_is_Some r' 6 (replicate 6 0)) as [q Hq]; [lia|len_lia|].
  rewrite Hq; eapply packet_ok_splice; [done| |done]; apply Forall_replicate; unfold is_u8; lia.
Qed.

Lemma response_matches_safe q r : packet_ok q → packet_ok r → safe (response_matches q r).
Proof.
  intros Hq Hr; unfold response_matches.
  wp_call u1 H1; wp_call u2 H2; wp_call h1 H3; wp_call h2 H4; wp_if; [done|].
  wp_call q1 H5; wp_call q2 H6; by wp_if.
Qed.

Lemma cache_lifetime_safe p : packet_ok p → safe (cache_lifetime p).
Proof.
  intros Hp; unfold cache_lifetime; wp_call x Hx; destruct x as [[[h qs] rs] stop].
  do 2 (wp_if; [done|]); wp_if; [|done]; apply wp_bind.
  match goal with |- context [negative_ttls p ?l] =>
    destruct (negative_ttls_spec p l Hp) as (ttls & -> & _) end; done.
Qed.

Lemma age_ttls_safe p elapsed stale : packet_ok p → 0 ≤ elapsed → safe (age_ttls p elapsed stale).
Proof.
  intros Hp He; pose proof (parse_sections_safe p Hp) as Hs.
  destruct (parse_sections p) as [[[[h qs] rs] stop]|e| |] eqn:Hps; try done.
  - by destruct (age_ttls_shape p elapsed stale h qs rs stop Hp He Hps) as (q & -> & _).
  - unfold age_ttls; by rewrite Hps.
Qed.

(** ** Properties *)

(** A query for the A record of ["x.y"]. *)
Definition example_query : bytes :=
  [0; 7; 1; 0; 0; 1; 0; 0; 0; 0; 0; 0; 1; 120; 1; 121; 0; 0; 1; 0; 1].
Definition example_header : Header := mk_header 7 0x0100 1 0 0 0.

Lemma example_query_answerable :
  answerable example_query example_header [[120]; [121]] 1 1 21.
Proof.
  split; [by apply packet_okb_ok|reflexivity|reflexivity|].
  split_and!; [|done|reflexivity|reflexivity].
  apply name_label with (l := 1); [done|lia|done|].
  apply name_label with (l := 1); [done|lia|done|].
  by apply name_root.
Qed.

(** The packets the resolver builds as queries are queries.  When
    [make_query_with_class] accepts a name, the packet passes the validation of
    incoming queries, carries the identifier with only the RD flag set, and its
    one question reads back as the name's labels with the type and class asked
    for. *)
Theorem make_query_valid name t c id p :
  is_u16 t → is_u16 c → is_u16 id →
  make_query_with_class name t c id = Ok p →
  validate p false = Ok () ∧ header_parse p = Ok (query_header id) ∧
  first_question p = Ok (mk_question (labels_name (name_labels name)) t c (len p)).
Proof.
  intros Ht Hc Hid H; apply make_query_shape in H as (Hp & Hh & Hq); try done.
  split_and!; [|done|by apply (first_question_plain p (query_header id))].
  apply validate_iff; [done|].
  exists (query_header id), [mk_question (labels_name (name_labels name)) t c (len p)], [].
  split_and!; try done; by apply parse_sections_question.
Qed.

Lemma make_query_valid_witness :
  make_query_with_class (lit "x.y") 1 1 7 = Ok example_query ∧
  validate example_query false = Ok () ∧
  header_parse example_query = Ok (query_header 7) ∧
  first_question example_query =
    Ok (mk_question (labels_name (name_labels (lit "x.y"))) 1 1 21).
Proof.
  split; [reflexivity|].
  apply (make_query_valid (lit "x.y") 1 1 7 example_query); try (unfold is_u16; lia).
  reflexivity.
Defined.

(** Error responses are accepted by the client that asked.  For a valid
    query whose question is written without compression, [servfail_for] and
    [refused_for] return a packet that [response_matches] accepts for that
    query, with the query's identifier and CD flag, response code 2 or 5, no
    truncation flag and no records. *)
Theorem error_responses_match query h labels t c stop :
  answerable query h labels t c stop →
  ∃ r1 h1 r2 h2,
    (servfail_for query = Ok r1 ∧ response_matches query r1 = Ok () ∧
     header_parse r1 = Ok h1 ∧ h_id h1 = h_id h ∧ response_code h1 = 2 ∧
     truncated h1 = false ∧ total_records h1 = 0 ∧
     checking_disabled h1 = checking_disabled h) ∧
    (refused_for query = Ok r2 ∧ response_matches query r2 = Ok () ∧
     header_parse r2 = Ok h2 ∧ h_id h2 = h_id h ∧ response_code h2 = 5 ∧
     truncated h2 = false ∧ total_records h2 = 0 ∧
     checking_disabled h2 = checking_disabled h).
Proof.
  intros Ha; destruct (error_response_matches query h labels t c stop 2 Ha) as (r1 & h1 & H1);
    [lia|].
  destruct (error_response_matches query h labels t c stop 5 Ha) as (r2 & h2 & H2); [lia|].
  by exists r1, h1, r2, h2.
Qed.

Lemma error_responses_match_witness :
  ∃ r1 h1 r2 h2,
    (servfail_for example_query = Ok r1 ∧ response_matches example_query r1 = Ok () ∧
     header_parse r1 = Ok h1 ∧ h_id h1 = 7 ∧ response_code h1 = 2 ∧
     truncated h1 = false ∧ total_records h1 = 0 ∧
     checking_disabled h1 = checking_disabled example_header) ∧
    (refused_for example_query = Ok r2 ∧ response_matches example_query r2 = Ok () ∧
     header_parse r2 = Ok h2 ∧ h_id h2 = 7 ∧ response_code h2 = 5 ∧
     truncated h2 = false ∧ total_records h2 = 0 ∧
     checking_disabled h2 = checking_disabled example_header).
Proof.
  exact (error_responses_match example_query example_header [[120]; [121]] 1 1 21
           example_query_answerable).
Defined.

(** A response to [example_query] with one A record of TTL 60 whose owner is a
    pointer to the question. *)
Definition example_response : bytes :=
  [0; 7; 129; 128; 0; 1; 0; 1; 0; 0; 0; 0; 1; 120; 1; 121; 0; 0; 1; 0; 1;
   192; 12; 0; 1; 0; 1; 0; 0; 0; 60; 0; 4; 192; 0; 2; 1].
Definition example_record : ResourceRecord :=
  mk_record (mk_name (lit "x.y") [1; 120; 1; 121; 0]) 1 1 60 27 33 [192; 0; 2; 1] 37.
Definition example_response_header : Header := mk_header 7 0x8180 1 1 0 0.

Lemma example_response_sections :
  parse_sections example_response =
    Ok (example_response_header,
        [mk_question (mk_name (lit "x.y") [1; 120; 1; 121; 0]) 1 1 21],
        [example_record], 37).
Proof. reflexivity. Qed.

(** C21: ageing changes the TTLs and nothing else.  On a packet that parses,
    [age_ttls] succeeds; the packet keeps its length and header; the TTL field of
    every record but OPT reads back as the TTL minus the elapsed seconds, not
    below 0 (0 for a stale answer); and every octet outside these fields is
    unchanged. *)
Theorem age_ttls_exact p elapsed stale h qs rs stop :
  packet_ok p → 0 ≤ elapsed → parse_sections p = Ok (h, qs, rs, stop) →
  ∃ q, age_ttls p elapsed stale = Ok q ∧ packet_ok q ∧ len q = len p ∧
    header_parse q = Ok h ∧
    (∀ i, ¬ in_aged_ttl rs i → bget q i = bget p i) ∧
    Forall (λ r, r_rr_type r ≠ TYPE_OPT →
      read_u32 q (r_ttl_offset r) = Ok (aged_ttl elapsed stale (r_ttl r))) rs.
Proof. apply age_ttls_shape. Qed.

Lemma age_ttls_exact_witness :
  ∃ q, age_ttls example_response 45 false = Ok q ∧ packet_ok q ∧
    len q = len example_response ∧ header_parse q = Ok example_response_header ∧
    (∀ i, ¬ in_aged_ttl [example_record] i → bget q i = bget example_response i) ∧
    Forall (λ r, r_rr_type r ≠ TYPE_OPT →
      read_u32 q (r_ttl_offset r) = Ok (aged_ttl 45 false (r_ttl r))) [example_record].
Proof.
  exact (age_ttls_exact example_response 45 false _ _ _ _
    (packet_okb_ok example_response eq_refl) ltac:(lia) example_response_sections).
Defined.

(** How long a response may be cached.  For a response without TSIG records
    [cache_lifetime] succeeds; it returns the least of the TTLs of the answers,
    or, for an NXDOMAIN or empty answer, the least over the SOA records of the
    authority section of the TTL and the SOA minimum; it returns nothing when
    there is no such record. *)
Theorem cache_lifetime_least p h qs rs stop :
  packet_ok p → parse_sections p = Ok (h, qs, rs, stop) → is_response h = true →
  Forall (λ r, r_rr_type r ≠ TYPE_TSIG) rs →
  ∃ o, cache_lifetime p = Ok o ∧
    ∀ n, o = Some n ↔ lifetime_bound p h rs n ∧ ∀ m, lifetime_bound p h rs m → n ≤ m.
Proof. apply cache_lifetime_spec. Qed.

Lemma cache_lifetime_least_witness :
  ∃ o, cache_lifetime example_response = Ok o ∧
    ∀ n, o = Some n ↔
      lifetime_bound example_response example_response_header [example_record] n ∧
      ∀ m, lifetime_bound example_response example_response_header [example_record] m → n ≤ m.
Proof.
  refine (cache_lifetime_least example_response _ _ _ _
    (packet_okb_ok example_response eq_refl) example_response_sections eq_refl _).
  by apply Forall_singleton.
Defined.
