(* ===== verification/LocalFacts.v ===== *)
(** * Local responses

    The answers the resolver builds itself, from the hosts file, the synthetic
    names and the static records: [local_response] of [src/wire/packet.rs]
    writes a packet that its own parser reads back as one record per local
    record of the question's type, owned by the name of the question, and
    that matches the query. *)

From S2P Require Import Prelude Text Net Codec Names CodecFacts Packet PacketFacts.

(** ** Appended answers

    Local and static records are appended in the same form: a pointer to the
    question's name, their type and class, a TTL and their data. *)

Class Appendable (A : Type) : Type := {
  ans_type : A → Z;
  ans_class : A → Z;
}.

Section answers.
Context `{Appendable A}.

Definition answer_bytes (ttl : Z) (x : A * bytes) : bytes :=
  [0xc0; 0x0c] ++ u16_bytes (ans_type x.1) ++ u16_bytes (ans_class x.1) ++
  u32_bytes ttl ++ u16_bytes (len x.2) ++ x.2.

Definition answers (ttl : Z) (xs : list (A * bytes)) : bytes :=
  xs ≫= answer_bytes ttl.

Lemma answer_bytes_len ttl x : len (answer_bytes ttl x) = 12 + len x.2.
Proof. unfold answer_bytes; len_lia. Qed.

Lemma answers_cons ttl x xs : answers ttl (x :: xs) = answer_bytes ttl x ++ answers ttl xs.
Proof. done. Qed.

Lemma answers_len_ge ttl xs : 12 * len xs ≤ len (answers ttl xs).
Proof.
  induction xs as [|x xs IH]; [done|].
  rewrite answers_cons, len_app, answer_bytes_len, len_cons.
  pose proof (len_nonneg x.2); lia.
Qed.

Lemma answers_parts_len ttl xs n :
  len (answers ttl xs) ≤ n → Forall (λ x, len x.2 ≤ n) xs.
Proof.
  induction xs as [|x xs IH]; [constructor|].
  rewrite answers_cons, len_app, answer_bytes_len; intros H'.
  pose proof (len_nonneg x.2); pose proof (len_nonneg (answers ttl xs)).
  constructor; [lia|apply IH; lia].
Qed.

Definition answer_ok (x : A * bytes) : Prop :=
  is_u16 (ans_type x.1) ∧ is_u16 (ans_class x.1) ∧ bytes_ok x.2 ∧ len x.2 ≤ u16_max.

Lemma answers_bytes_ok ttl xs : is_u32 ttl → Forall answer_ok xs → bytes_ok (answers ttl xs).
Proof.
  intros Httl Hxs; apply Forall_bind; eapply Forall_impl; [exact Hxs|]; clear xs Hxs.
  intros x (Ht & Hc & Hb & Hn); unfold answer_bytes.
  pose proof (len_nonneg x.2); unfold u16_max in Hn.
  assert (is_u16 (len x.2)) by (unfold is_u16; lia).
  change (bytes_ok ([0xc0; 0x0c] ++ u16_bytes (ans_type x.1) ++
    u16_bytes (ans_class x.1) ++ u32_bytes ttl ++ u16_bytes (len x.2) ++ x.2)).
  rewrite !bytes_ok_app; split_and!;
    [by repeat (apply Forall_cons_2; [unfold is_u8; lia|])|..];
    eauto using u16_bytes_ok, u32_bytes_ok.
Qed.

(** ** Reading them back *)

Definition answer_record (labels : list bytes) (ttl o : Z) (x : A * bytes) :
    ResourceRecord :=
  mk_record (labels_name labels) (ans_type x.1) (ans_class x.1) ttl (o + 6) (o + 12)
    x.2 (o + 12 + len x.2).

Fixpoint answer_records (labels : list bytes) (ttl o : Z)
    (xs : list (A * bytes)) : list ResourceRecord :=
  match xs with
  | [] => []
  | x :: xs =>
      answer_record labels ttl o x :: answer_records labels ttl (o + 12 + len x.2) xs
  end.

Section read_back.
Context (p : bytes) (labels : list bytes) (t c stop ttl : Z).
Hypothesis Hp : packet_ok p.
Hypothesis Hq : plain_question p labels t c stop.

Lemma parse_answer pre x post :
  p = pre ++ answer_bytes ttl x ++ post → stop ≤ len pre →
  parse_record p (len pre) = Ok (answer_record labels ttl (len pre) x).
Proof using Hp Hq.
  intros Heq Hlen; apply plain_question_parse in Hq as Hb; [|done].
  destruct Hb as [_ Hb]; destruct Hq as (Hn & Hcl & _).
  rewrite (parse_record_within p pre [0xc0; 0x0c] (labels_name labels) (ans_type x.1)
    (ans_class x.1) ttl x.2 post); [|done| |].
  { unfold answer_record; change (len [192; 12]) with 2; do 2 f_equal; lia. }
  { by rewrite Heq; unfold answer_bytes; rewrite <- !app_assoc. }
  apply read_name_iff; [done|]; exists labels, 1; split_and!; [|lia|done..].
  change (name_at p (len pre) labels (0 + 1) (len pre + 2)).
  unfold answer_bytes in Heq.
  apply name_pointer with (l := 0xc0) (second := 0x0c) (next := stop - 4); [|done| |lia|done].
  - by rewrite Heq, bget_app_r, Z.sub_diag by lia.
  - rewrite Heq, bget_app_r by lia; by replace (len pre + 1 - len pre) with 1 by lia.
Qed.

Lemma parse_answers pre xs :
  p = pre ++ answers ttl xs → stop ≤ len pre →
  parse_records (length xs) p (len pre) =
    Ok (answer_records labels ttl (len pre) xs, len p).
Proof using Hp Hq.
  revert pre; induction xs as [|x xs IH]; intros pre Heq Hlen.
  { cbn; by rewrite Heq, app_nil_r. }
  rewrite answers_cons in Heq; cbn [length parse_records answer_records].
  rewrite (parse_answer pre x (answers ttl xs)) by done.
  cbn [mbind outcome_bind r_next_offset answer_record].
  replace (len pre + 12 + len x.2) with (len (pre ++ answer_bytes ttl x))
    by (rewrite len_app, answer_bytes_len; lia).
  rewrite IH; [done|by rewrite <- app_assoc|].
  rewrite len_app, answer_bytes_len; pose proof (len_nonneg x.2); lia.
Qed.

Lemma count_answers fuel n pre xs :
  p = pre ++ answers ttl xs → stop ≤ len pre → (length xs < fuel)%nat →
  n + len xs ≤ u16_max → count_records_loop fuel p (len pre) n = Ok (n + len xs).
Proof using Hp Hq.
  revert fuel n pre; induction xs as [|x xs IH]; intros fuel n pre Heq Hlen Hf Hn;
    (destruct fuel as [|fuel]; [cbn in Hf; lia|]); cbn [count_records_loop].
  { rewrite Heq, app_nil_r, Z.ltb_irrefl, len_nil; f_equal; lia. }
  rewrite answers_cons in Heq; pose proof (len_nonneg x.2).
  pose proof (len_nonneg (answers ttl xs)); pose proof (len_nonneg xs).
  rewrite (proj2 (Z.ltb_lt _ _))
    by (rewrite Heq, !len_app, answer_bytes_len; lia).
  rewrite (parse_answer pre x (answers ttl xs)) by done.
  cbn [mbind outcome_bind r_next_offset answer_record]; rewrite len_cons in *.
  unfold checked_add; rewrite (proj2 (Z.leb_le _ _)) by lia; cbn [ok_or mbind outcome_bind].
  replace (len pre + 12 + len x.2) with (len (pre ++ answer_bytes ttl x))
    by (rewrite len_app, answer_bytes_len; lia).
  rewrite IH; [f_equal; lia|by rewrite <- app_assoc|..|cbn in Hf; lia|lia].
  rewrite len_app, answer_bytes_len; lia.
Qed.
End read_back.
End answers.

(** ** The records of [local_response] *)

#[global] Instance local_answer_record : Appendable LocalRecord :=
  {| ans_type := local_rr_type; ans_class _ := CLASS_IN |}.

Definition selected (t : Z) (l : LocalRecord) : bool :=
  (local_rr_type l =? t) || (t =? 255).

Definition local_ok (l : LocalRecord) : Prop :=
  match l with
  | LocalA a => bytes_ok a ∧ len a = 4
  | LocalAaaa a => bytes_ok a ∧ len a = 16
  | LocalPtr name => str_ok name
  end.

(** The records of the question's type, each with its encoded data. *)
Definition encoded (t : Z) (records : list LocalRecord)
    (xs : list (LocalRecord * bytes)) : Prop :=
  xs.*1 = List.filter (selected t) records ∧
  Forall (λ x, local_rdata x.1 = Ok x.2) xs.

Lemma not_selected t l :
  negb (local_rr_type l =? t) && negb (t =? 255) = negb (selected t l).
Proof. unfold selected; by rewrite negb_orb. Qed.

Lemma append_local_records_iff t ttl records resp out :
  append_local_records t ttl records resp = Ok out ↔
  ∃ xs, encoded t records xs ∧ out = resp ++ answers ttl xs ∧
    (xs = [] ∨ len out ≤ u16_max).
Proof.
  revert resp; induction records as [|l records IH]; intros resp;
    cbn [append_local_records].
  { split.
    - intros [= <-]; exists []; rewrite app_nil_r; unfold encoded; cbn; auto.
    - intros (xs & [Hxs _] & -> & _); cbn in Hxs.
      apply fmap_nil_inv in Hxs as ->; by rewrite app_nil_r. }
  rewrite not_selected; unfold encoded in *; cbn [List.filter].
  destruct (selected t l); cbn [negb]; [|exact (IH resp)]; split.
  - intros H; inv_ok; boolp; apply IH in H as (xs & [Hxs Hall] & -> & Hlen).
    unfold u16_try_from in *; inv_ok; boolp.
    exists ((l, a) :: xs); split_and!.
    + by rewrite fmap_cons, Hxs.
    + by constructor.
    + by rewrite answers_cons; unfold answer_bytes; rewrite <- !app_assoc.
    + right; destruct Hlen as [->|?]; [|done]; by rewrite app_nil_r.
  - intros ([|[l' rd] xs] & [Hxs Hall] & -> & Hlen); [done|].
    rewrite fmap_cons in Hxs; injection Hxs as Hl Hxs; cbn in Hl; subst l'.
    apply Forall_cons in Hall as [Hrd Hall]; cbn in Hrd.
    destruct Hlen as [?|Hlen]; [done|].
    rewrite Hrd; cbn [mbind outcome_bind]; unfold u16_try_from.
    rewrite answers_cons, !len_app, answer_bytes_len in Hlen; cbn [snd] in Hlen.
    pose proof (len_nonneg resp); pose proof (len_nonneg (answers ttl xs)).
    rewrite (proj2 (Z.leb_le _ _)) by lia; cbn [mbind outcome_bind].
    match goal with |- context [u16_max <? len ?r] => set (next := r) end.
    assert (next = resp ++ answer_bytes ttl (l, rd)) as -> by done.
    rewrite len_app, answer_bytes_len; cbn [snd].
    rewrite (proj2 (Z.ltb_ge _ _)) by lia.
    apply IH; exists xs; split_and!; [done|done|by rewrite answers_cons, <- app_assoc|].
    right; rewrite answers_cons, !len_app, answer_bytes_len; cbn [snd]; lia.
Qed.

(** ** The whole response *)

Lemma local_rdata_ok l rd : local_ok l → local_rdata l = Ok rd → bytes_ok rd.
Proof.
  destruct l; cbn; [by intros [? _] [= <-]..|]; intros; by eapply encode_name_ok.
Qed.

Lemma local_rr_type_u16 l : is_u16 (local_rr_type l).
Proof. by destruct l. Qed.

Lemma answers_ok t ttl records xs :
  is_u32 ttl → Forall local_ok records → encoded t records xs →
  Forall (λ x, len x.2 ≤ u16_max) xs → bytes_ok (answers ttl xs).
Proof.
  intros Httl Hok [Hxs Hrd] Hlen.
  assert (Forall local_ok xs.*1) as Hl.
  { rewrite Hxs, Forall_forall; intros l Hin; apply list_elem_of_In, List.filter_In in Hin.
    rewrite Forall_forall in Hok; apply Hok, list_elem_of_In; naive_solver. }
  apply answers_bytes_ok; [done|]; rewrite Forall_fmap in Hl; rewrite !Forall_forall in *.
  intros x Hx; split_and!; [apply local_rr_type_u16|done| |by apply Hlen].
  eapply local_rdata_ok; [by apply Hl|by apply Hrd].
Qed.

Lemma splice_app {A} (p q v r : list A) o :
  splice p o v = Some r → splice (p ++ q) o v = Some (r ++ q).
Proof.
  intros (? & ? & ->)%splice_Some; unfold splice.
  rewrite len_app; pose proof (len_nonneg q); pose proof (len_nonneg v).
  rewrite !(proj2 (Z.leb_le _ _)) by lia; unfold len in *; f_equal; cbn [andb].
  rewrite take_app_le, drop_app_le by lia; by rewrite <- !app_assoc.
Qed.

(** Flags of a reply to a query with header [h]. *)
Definition reply_flags (h : Header) (f : Z) : Prop :=
  is_u16 f ∧ ∀ h', h_flags h' = f → is_response h' = true ∧ opcode h' = opcode h.

Lemma answer_flags_reply h : header_ok h → reply_flags h (answer_flags (h_flags h) 0).
Proof.
  intros (_ & Hf & _); split.
  - unfold answer_flags; apply is_u16_lor; [by apply is_u16_ldiff, is_u16_lor|done].
  - intros h' Hh'; destruct (answer_flags_facts (h_flags h) 0 h' Hf) as (_ & ? & _ & _ & -> & _);
      [lia|done..].
Qed.

(** The header and question the response starts from. *)
Lemma response_prefix query h labels t c stop f n :
  answerable query h labels t c stop → reply_flags h f → is_u16 n →
  ∃ r0 r1 r2 r3, slice query 0 stop = Some r0 ∧ read_u16 r0 2 = Ok (h_flags h) ∧
    write_u16 r0 2 f = Ok r1 ∧
    write_u16 r1 6 n = Ok r2 ∧ splice r2 8 (replicate 4 0) = Some r3 ∧
    packet_ok r3 ∧ len r3 = stop ∧
    header_parse r3 =
      Ok (mk_header (h_id h) f 1 n 0 0) ∧
    plain_question r3 labels t c stop.
Proof.
  intros Ha [Hf _] Hn; pose proof (answerable_header _ _ _ _ _ _ Ha) as (Hok & _ & _ & Hqc).
  destruct (answer_prefix query h labels t c stop f Ha Hf)
    as (r0 & r1 & Hr0 & Hfl & Hw & Hp1 & Hl1 & Hfl1 & Hag).
  destruct Ha as [Hp Hv Hh Hq].
  apply plain_question_parse in Hq as Hpar; [|done]; destruct Hpar as [_ Hstop].
  destruct (write_u16_total r1 6 n Hp1) as (r2 & Hw2 & Hs2); [lia..|].
  pose proof (splice_len _ _ _ _ Hs2) as Hl2.
  assert (packet_ok r2) as Hp2 by eauto using packet_ok_splice, u16_bytes_ok.
  destruct (splice_is_Some r2 8 (replicate 4 0)) as [r3 Hs3]; [lia|len_lia|].
  pose proof (splice_len _ _ _ _ Hs3) as Hl3.
  assert (packet_ok r3) as Hp3.
  { eapply packet_ok_splice; [exact Hp2| |exact Hs3].
    apply Forall_replicate; unfold is_u8; lia. }
  assert (∀ i, i < 8 ∨ 12 ≤ i → bget r3 i = bget r2 i) as H32.
  { intros i Hi; apply (bget_splice_out _ _ _ _ _ Hs3); len_lia. }
  assert (∀ i, i < 6 ∨ 12 ≤ i → bget r3 i = bget r1 i) as H31.
  { intros i Hi; rewrite H32 by lia; apply (bget_splice_out _ _ _ _ _ Hs2); len_lia. }
  assert (∀ i, i < stop → i < 2 ∨ 4 ≤ i < 6 ∨ 12 ≤ i → bget r3 i = bget query i) as Hag3.
  { intros i Hi Hout; rewrite H31 by lia; apply Hag; lia. }
  assert (∀ i, 8 ≤ i < 12 → bget r3 i = Some 0) as Hz.
  { intros i Hi; rewrite (bget_splice_in _ _ _ _ _ Hs3) by len_lia.
    unfold bget; rewrite (proj2 (Z.leb_le 0 _)) by lia.
    apply lookup_replicate_2; lia. }
  exists r0, r1, r2, r3; split_and!; try done; [lia| |].
  - apply header_parse_iff in Hh as (_ & H0 & _ & H4 & _).
    apply header_parse_iff; split_and!; [lia|..]; cbn.
    + eapply read_u16_agree; [done|lia| |exact H0]; intros; apply Hag3; lia.
    + eapply read_u16_agree; [done|lia| |exact Hfl1]; intros; apply H31; lia.
    + rewrite Hqc in H4.
      eapply read_u16_agree; [done|lia| |exact H4]; intros; apply Hag3; lia.
    + eapply read_u16_agree; [done|lia| |exact (read_splice_u16 _ _ _ _ Hp2 Hs2)].
      intros; apply H32; lia.
    + apply read_u16_zeros; [done|apply Hz; lia..].
    + apply read_u16_zeros; [done|apply Hz; lia..].
  - eapply plain_question_agree; [exact Hp|done|lia| |done]; intros; apply Hag3; lia.
Qed.

(** The packet returned for the selected records [xs]. *)
Definition answered `{Appendable A} query h labels t c stop f ttl (xs : list (A * bytes)) (r : bytes) : Prop :=
  packet_ok r ∧
  header_parse r =
    Ok (mk_header (h_id h) f 1 (len xs) 0 0) ∧
  parse_sections r =
    Ok (mk_header (h_id h) f 1 (len xs) 0 0,
        [mk_question (labels_name labels) t c stop],
        answer_records labels ttl stop xs, len r) ∧
  response_matches query r = Ok ().

Lemma with_answers `{Appendable A} query h labels t c stop f ttl (xs : list (A * bytes)) r0 :
  answerable query h labels t c stop → reply_flags h f → packet_ok (r0 ++ answers ttl xs) →
  len r0 = stop → plain_question r0 labels t c stop →
  header_parse r0 =
    Ok (mk_header (h_id h) f 1 (len xs) 0 0) →
  answered query h labels t c stop f ttl xs (r0 ++ answers ttl xs).
Proof.
  intros Ha [_ Hf] Hp Hlen Hq Hh; pose proof (answerable_header _ _ _ _ _ _ Ha) as (Hok & _ & Hop & _).
  set (r := r0 ++ answers ttl xs) in *; set (h' := mk_header _ _ _ _ _ _) in *.
  assert (packet_ok r0) as Hp0.
  { destruct Hp as [Hb Hl]; unfold r in *; rewrite len_app in Hl.
    pose proof (len_nonneg (answers ttl xs)).
    apply Forall_app in Hb as [? _]; split; [done|lia]. }
  assert (plain_question r labels t c stop) as Hqr.
  { eapply plain_question_agree; [exact Hp0|done| |intros; by apply bget_app_l; lia|done].
    unfold r; rewrite len_app; pose proof (len_nonneg (answers ttl xs)); lia. }
  assert (header_parse r = Ok h') as Hhr.
  { apply header_parse_iff in Hh as (? & ? & ? & ? & ? & ? & ?); apply header_parse_iff.
    split_and!; [|by apply read_u16_app..].
    unfold r; rewrite len_app; pose proof (len_nonneg (answers ttl xs)); lia. }
  assert (parse_sections r = Ok (h', [mk_question (labels_name labels) t c stop],
      answer_records labels ttl stop xs, len r)) as Hs.
  { unfold parse_sections; rewrite Hhr; cbn [mbind outcome_bind h_question_count h'].
    change (Z.to_nat 1) with 1%nat; cbn [parse_questions].
    apply plain_question_parse in Hqr as Hpq; [|done].
    unfold DNS_HEADER_LEN; rewrite (proj1 Hpq); cbn [mbind outcome_bind q_next_offset].
    replace (Z.to_nat (total_records h')) with (length xs)
      by (unfold total_records, h', len; cbn; lia).
    rewrite <- Hlen, (parse_answers r labels t c stop ttl Hp Hqr r0 xs) by (done || lia).
    done. }
  pose proof (first_question_plain _ _ _ _ _ _ Hp Hhr eq_refl Hqr) as [Hfq _].
  destruct (Hf h' eq_refl) as [Hresp Hop'].
  split_and!; try done.
  eapply (response_matches_intro query h labels t c stop r h'); try done.
  by rewrite Hop'.
Qed.

Lemma encoded_len t records xs : encoded t records xs → len xs ≤ len records.
Proof.
  intros [Hxs _]; unfold len; rewrite <- (length_fmap fst xs), Hxs.
  pose proof (List.filter_length_le (selected t) records); lia.
Qed.

Lemma set_answer_count r3 r4 h labels t c stop f n m :
  packet_ok r3 → len r3 = stop → plain_question r3 labels t c stop →
  header_parse r3 =
    Ok (mk_header (h_id h) f 1 n 0 0) →
  splice r3 6 (u16_bytes m) = Some r4 → is_u16 m →
  packet_ok r4 ∧ len r4 = stop ∧
  header_parse r4 =
    Ok (mk_header (h_id h) f 1 m 0 0) ∧
  plain_question r4 labels t c stop.
Proof.
  intros Hp3 Hl3 Hq3 Hh3 Hs4 Hm.
  assert (packet_ok r4) as Hp4 by eauto using packet_ok_splice, u16_bytes_ok.
  pose proof (splice_len _ _ _ _ Hs4) as Hl4.
  assert (∀ i, i < 6 ∨ 8 ≤ i → bget r4 i = bget r3 i) as Hag.
  { intros i Hi; apply (bget_splice_out _ _ _ _ _ Hs4); len_lia. }
  split_and!; [done|lia| |].
  - apply header_parse_iff in Hh3 as (? & ? & ? & ? & ? & ? & ?); cbn in *.
    apply header_parse_iff; cbn; split_and!; [lia|..];
      try exact (read_splice_u16 _ _ _ _ Hp4 Hs4);
      (eapply read_u16_agree; [done|lia| |eassumption]); intros; apply Hag; lia.
  - eapply plain_question_agree; [exact Hp3|done|lia| |done]; intros; apply Hag; lia.
Qed.

(** The packet [local_response] returns for the selected records [xs]. *)
Definition local_answer query h labels t c stop ttl (xs : list (LocalRecord * bytes)) r : Prop :=
  answered query h labels t c stop (answer_flags (h_flags h) 0) ttl xs r.

Lemma local_response_spec query h labels t c stop records ttl xs :
  answerable query h labels t c stop → is_u32 ttl → Forall local_ok records →
  len records ≤ u16_max → encoded t records xs →
  xs = [] ∨ stop + len (answers ttl xs) ≤ u16_max →
  ∃ r, local_response query records ttl = Ok r ∧
    local_answer query h labels t c stop ttl xs r.
Proof.
  intros Ha Httl Hrs Hn Henc Hsize; pose proof (encoded_len _ _ _ Henc) as Hx.
  pose proof (len_nonneg records); pose proof (len_nonneg xs).
  pose proof (answerable_header _ _ _ _ _ _ Ha) as (Hok & _ & _ & Hqc).
  pose proof (answer_flags_reply h Hok) as Hreply.
  destruct (response_prefix query h labels t c stop _ (len records) Ha Hreply)
    as (r0 & r1 & r2 & r3 & Hr0 & Hfl & Hw1 & Hw2 & Hs3 & Hp3 & Hl3 & Hh3 & Hq3).
  { unfold is_u16, u16_max in *; lia. }
  assert (packet_ok (r3 ++ answers ttl xs)) as Hout.
  { destruct Hp3 as [Hb Hl]; split.
    - apply Forall_app; split; [done|]; eapply answers_ok; [done..|].
      destruct Hsize as [->|?]; [constructor|]; apply (answers_parts_len ttl).
      pose proof (len_nonneg r3); lia.
    - rewrite len_app; destruct Hsize as [->|?]; [change (len (answers ttl [])) with 0; lia|].
      unfold u16_max in *; lia. }
  destruct (write_u16_total r3 6 (len xs) Hp3) as (r4 & Hw4 & Hs4).
  { lia. }
  { apply plain_question_parse in Hq3 as [_ ?]; [lia|done]. }
  assert (is_u16 (len xs)) as Hxs16 by (unfold is_u16, u16_max in *; lia).
  destruct (set_answer_count r3 r4 h labels t c stop (answer_flags (h_flags h) 0) (len records) (len xs))
    as (Hp4 & Hl4 & Hh4 & Hq4); [done..|].
  assert (packet_ok (r4 ++ answers ttl xs)) as Hout4.
  { destruct Hout as [Hb Hl]; rewrite len_app in Hl.
    apply Forall_app in Hb as [_ Hb]; split; [|rewrite len_app; lia].
    apply Forall_app; split; [apply Hp4|done]. }
  exists (r4 ++ answers ttl xs); split; [|by apply with_answers; [done..|lia|done|done]].
  destruct Ha as [Hp Hv Hh Hq]; unfold local_response.
  destruct (first_question_plain _ _ _ _ _ _ Hp Hh Hqc Hq) as [Hfq Hqe].
  rewrite Hv; cbn [mbind outcome_bind]; rewrite Hfq; cbn [mbind outcome_bind].
  rewrite Hqe; cbn [mbind outcome_bind]; rewrite Hr0; cbn [or_panic mbind outcome_bind].
  rewrite Hfl; cbn [mbind outcome_bind].
  rewrite <- (Z.lor_0_r (Z.ldiff _ _)); fold (answer_flags (h_flags h) 0).
  rewrite Hw1; cbn [mbind outcome_bind]; unfold u16_try_from.
  rewrite (proj2 (Z.leb_le _ _)) by done; cbn [mbind outcome_bind].
  rewrite Hw2; cbn [mbind outcome_bind]; rewrite Hs3; cbn [or_panic mbind outcome_bind].
  cbn [q_rr_type].
  rewrite (proj2 (append_local_records_iff t ttl records r3 (r3 ++ answers ttl xs))).
  2: { exists xs; split_and!; [done..|]; rewrite len_app, Hl3; naive_solver. }
  cbn [mbind outcome_bind]; unfold count_records_after_question.
  rewrite <- Hl3, (count_answers _ labels t c stop ttl Hout) with (xs := xs); cycle 1.
  { eapply plain_question_agree; [exact Hp3|done| |intros; by apply bget_app_l; lia|done].
    rewrite len_app; pose proof (len_nonneg (answers ttl xs)); lia. }
  { done. }
  { lia. }
  { pose proof (answers_len_ge ttl xs); rewrite length_app; unfold len in *; lia. }
  { lia. }
  cbn [mbind outcome_bind]; unfold write_u16 in *; rewrite Z.add_0_l.
  inv_ok; rewrite H1; cbn [mbind outcome_bind].
  by rewrite (splice_app _ _ _ _ _ Hs4).
Qed.

Lemma local_response_inv query h labels t c stop records ttl r :
  answerable query h labels t c stop → is_u32 ttl →
  local_response query records ttl = Ok r →
  len records ≤ u16_max ∧ ∃ xs, encoded t records xs ∧
    (xs = [] ∨ stop + len (answers ttl xs) ≤ u16_max).
Proof.
  intros Ha Httl H; pose proof (answerable_header _ _ _ _ _ _ Ha) as (_ & _ & _ & Hqc).
  destruct Ha as [Hp Hv Hh Hq].
  destruct (first_question_plain _ _ _ _ _ _ Hp Hh Hqc Hq) as [Hfq Hqe].
  unfold local_response in H; rewrite Hv in H; cbn [mbind outcome_bind] in H.
  rewrite Hfq in H; cbn [mbind outcome_bind] in H; rewrite Hqe in H.
  cbn [mbind outcome_bind] in H.
  apply bind_Ok in H as (r0 & Hr0 & H); apply bind_Ok in H as (f & Hf & H).
  apply bind_Ok in H as (r1 & Hw1 & H); apply bind_Ok in H as (n & Hn & H).
  apply bind_Ok in H as (r2 & Hw2 & H); apply bind_Ok in H as (r3 & Hs3 & H).
  apply bind_Ok in H as (r4 & Happ & H).
  unfold u16_try_from in Hn; case_match; inv_ok; boolp; split; [done|].
  unfold write_u16 in *; inv_ok.
  apply append_local_records_iff in Happ as (xs & Henc & -> & Hsize); exists xs.
  split; [done|]; destruct Hsize as [?|Hsize]; [by left|right].
  rewrite len_app in Hsize; cbn [q_rr_type] in *.
  repeat match goal with H : splice _ _ _ = Some _ |- _ => apply splice_len in H end.
  apply slice_len in Hr0; lia.
Qed.

(** ** Safety *)

Lemma count_records_loop_wp fuel p o n :
  packet_ok p → 0 ≤ o ≤ len p → len p - o < Z.of_nat fuel → is_u16 n →
  wp (count_records_loop fuel p o n) is_u16.
Proof.
  intros Hp; revert o n; induction fuel as [|fuel IH]; intros o n Ho Hf Hn; [lia|].
  cbn [count_records_loop]; wp_if; [|done]; wp_call r Hr.
  apply parse_record_bounds in Hr as Hok; [|done]; unfold record_ok in Hok.
  pose proof (len_nonneg (r_rdata r)).
  apply wp_bind, wp_ok_or; unfold checked_add, u16_max; intros m Hm; case_match; [|done].
  simplify_eq; boolp; apply IH; unfold is_u16 in *; lia.
Qed.

Lemma append_local_records_safe t ttl records resp :
  safe (append_local_records t ttl records resp).
Proof.
  revert resp; induction records as [|l records IH]; intros resp; [done|].
  cbn [append_local_records]; wp_if; [apply IH|]; apply wp_bind.
  eapply wp_mono with (Q := λ _, True); [destruct l; [done..|]; apply encode_name_safe|].
  intros rd _; apply wp_bind; unfold u16_try_from; wp_if; [|done]; cbn.
  wp_if; [done|apply IH].
Qed.

Lemma append_local_records_packet t ttl records resp out :
  packet_ok resp → is_u32 ttl → Forall local_ok records →
  append_local_records t ttl records resp = Ok out →
  packet_ok out ∧ len resp ≤ len out.
Proof.
  intros Hp Httl Hl (xs & Henc & -> & Hsize)%append_local_records_iff.
  rewrite len_app in *; pose proof (len_nonneg (answers ttl xs)).
  pose proof (len_nonneg resp); split; [|lia]; split.
  - apply bytes_ok_app; split; [apply Hp|]; eapply answers_ok; [done..|].
    destruct Hsize as [->|?]; [constructor|]; apply (answers_parts_len ttl); lia.
  - rewrite len_app; destruct Hsize as [->|?].
    + change (len (answers ttl [])) with 0; destruct Hp; lia.
    + unfold u16_max in *; lia.
Qed.

Lemma local_response_wp query records ttl :
  packet_ok query → is_u32 ttl → Forall local_ok records →
  wp (local_response query records ttl) packet_ok.
Proof.
  intros Hp Httl Hl; unfold local_response; wp_call u Hu; wp_call q Hq; wp_call stop Hstop.
  apply question_end_bounds in Hstop as Hb; [|done].
  destruct (slice_is_Some query 0 stop) as [r0 Hr0]; [lia..|].
  assert (packet_ok r0) as Hp0 by (by eapply packet_ok_slice).
  rewrite Hr0; cbn [or_panic mbind outcome_bind]; apply slice_len in Hr0.
  wp_call flags Hf; apply read_u16_range in Hf; [|apply Hp0].
  match goal with |- wp (write_u16 r0 2 ?f ≫= _) _ =>
    assert (is_u16 f) as Hflags by (apply is_u16_ldiff, is_u16_lor; done) end.
  wp_call r1 Hr1; unfold write_u16 in Hr1; inv_ok.
  match goal with H : splice r0 _ _ = Some _ |- _ =>
    apply splice_len in H as Hl1;
    eapply packet_ok_splice in H as Hp1; [|done|by apply u16_bytes_ok] end.
  apply wp_bind; unfold u16_try_from; wp_if; [|done]; boolp; cbn [wp].
  assert (is_u16 (len records)) as Hn.
  { pose proof (len_nonneg records); unfold is_u16, u16_max in *; lia. }
  wp_call r2 Hr2; unfold write_u16 in Hr2; inv_ok.
  match goal with H : splice r1 _ _ = Some _ |- _ =>
    apply splice_len in H as Hl2;
    eapply packet_ok_splice in H as Hp2; [|done|by apply u16_bytes_ok] end.
  destruct (splice_is_Some r2 8 (replicate 4 0)) as [r3 Hr3]; [lia|len_lia|].
  rewrite Hr3; cbn [or_panic mbind outcome_bind]; apply splice_len in Hr3 as Hl3.
  eapply packet_ok_splice in Hr3 as Hp3; [|done|apply Forall_replicate; unfold is_u8; lia].
  apply wp_bind; eapply wp_mono; [apply wp_strengthen, append_local_records_safe|].
  intros r4 [Hr4 _].
  apply append_local_records_packet in Hr4 as [Hp4 Hl4]; [|done..].
  apply wp_bind; eapply wp_mono; [apply count_records_loop_wp; [done|lia|unfold len; lia|done]|].
  intros n Hc; by apply write_u16_packet.
Qed.

(** ** Properties *)

(** C22: local answers.  For a valid query whose question is written without
    compression, [local_response] succeeds exactly when there are at most 65535
    local records, every record of the type asked for (all, for ANY) can be
    encoded, and the response does not exceed 65535 octets.  It then returns a
    packet that [response_matches] accepts and that parses, to its end, as the
    question and one answer per such record, in order, owned by the question's
    name, with the record's type, class IN, the TTL given and its data. *)
Theorem local_response_exact query h labels t c stop records ttl :
  answerable query h labels t c stop → is_u32 ttl → Forall local_ok records →
  (is_ok (local_response query records ttl) = true ↔
    len records ≤ u16_max ∧ ∃ xs, encoded t records xs ∧
      (xs = [] ∨ stop + len (answers ttl xs) ≤ u16_max)) ∧
  (∀ r, local_response query records ttl = Ok r →
    ∃ xs, encoded t records xs ∧ local_answer query h labels t c stop ttl xs r).
Proof.
  intros Ha Httl Hl; split.
  - split.
    + destruct (local_response query records ttl) as [r|e| |] eqn:Hr; try done; intros _.
      by apply (local_response_inv query h labels t c stop records ttl r).
    + intros (Hn & xs & Henc & Hsize).
      by destruct (local_response_spec query h labels t c stop records ttl xs Ha)
        as (r & -> & _).
  - intros r Hr.
    destruct (local_response_inv query h labels t c stop records ttl r Ha Httl Hr)
      as (Hn & xs & Henc & Hsize); exists xs; split; [done|].
    destruct (local_response_spec query h labels t c stop records ttl xs Ha)
      as (r' & Hr' & Hans); [done..|]; congruence.
Qed.

Lemma local_response_exact_witness :
  (is_ok (local_response example_query [LocalA [192; 0; 2; 1]; LocalPtr (lit "z")] 60) = true ↔
    2 ≤ u16_max ∧ ∃ xs, encoded 1 [LocalA [192; 0; 2; 1]; LocalPtr (lit "z")] xs ∧
      (xs = [] ∨ 21 + len (answers 60 xs) ≤ u16_max)) ∧
  (∀ r, local_response example_query [LocalA [192; 0; 2; 1]; LocalPtr (lit "z")] 60 = Ok r →
    ∃ xs, encoded 1 [LocalA [192; 0; 2; 1]; LocalPtr (lit "z")] xs ∧
      local_answer example_query example_header [[120]; [121]] 1 1 21 60 xs r).
Proof.
  apply (local_response_exact example_query example_header [[120]; [121]] 1 1 21
    [LocalA [192; 0; 2; 1]; LocalPtr (lit "z")] 60 example_query_answerable).
  - unfold is_u32; lia.
  - apply Forall_cons_2; [|apply Forall_singleton].
    + split; [|done]; repeat (apply Forall_cons_2; [unfold is_u8; lia|]); constructor.
    + by apply str_okb_ok.
Defined.
