(* ===== verification/Records.v ===== *)
(** * Answers of a response

    Models [src/wire/records.rs]: reading the answer section of a response as
    raw records, as SRV and TXT data, as PTR names, and as the addresses at the
    end of its chain of CNAME and DNAME records; and the names of the reverse
    tree ([in-addr.arpa], [ip6.arpa]). *)

From S2P Require Import Prelude Text Net Codec.

Definition MAX_REDIRECT_CHAIN : nat := 64.

Record AnswerRecord : Type := mk_answer {
  a_name : DnsName;
  a_rr_type : Z;
  a_class : Z;
  a_ttl : Z;
  a_raw : bytes;
}.

Record SrvRecord : Type := mk_srv {
  srv_priority : Z;
  srv_weight : Z;
  srv_port : Z;
  srv_target : DnsName;
}.

Record ServiceRecords : Type := mk_services {
  service_srv : list SrvRecord;
  service_txt : list bytes;
}.

Record AddressRecords : Type := mk_addresses {
  addresses : list IpAddr;
  canonical_name : str;
}.

(** Redirections by the canonical wire form of their owner. *)
Abbreviation redirects_map := (gmap bytes DnsName).

Record AddressAnswerSet : Type := mk_answer_set {
  as_aliases : redirects_map;
  as_dnames : redirects_map;
  as_addresses : gmap bytes (list IpAddr);
}.

(** The offset after the questions: the loop the extractors start with. *)
Fixpoint skip_questions (n : nat) (packet : bytes) (offset : Z) : wres Z :=
  match n with
  | O => Ok offset
  | S n =>
      question ← parse_question packet offset;
      skip_questions n packet (q_next_offset question)
  end.

(** ** Raw answer records *)

Definition raw_record (record : ResourceRecord) : wres bytes :=
  rdata_length ←
    (if len (r_rdata record) <=? u16_max then Ok (len (r_rdata record))
     else Err InvalidRecord);
  Ok (canonical_wire (r_name record) ++ u16_bytes (r_rr_type record) ++
      u16_bytes (r_class record) ++ u32_bytes (r_ttl record) ++
      u16_bytes rdata_length ++ r_rdata record).

Fixpoint answer_records_loop (n : nat) (packet : bytes) (offset : Z) :
    wres (list AnswerRecord) :=
  match n with
  | O => Ok []
  | S n =>
      record ← parse_record packet offset;
      raw ← raw_record record;
      rest ← answer_records_loop n packet (r_next_offset record);
      Ok (mk_answer (r_name record) (r_rr_type record) (r_class record)
            (r_ttl record) raw :: rest)
  end.

Definition extract_answer_records (packet : bytes) : wres (list AnswerRecord) :=
  header ← header_parse packet;
  if negb (is_response header) then Err WrongDirection
  else
    offset ← skip_questions (Z.to_nat (h_question_count header)) packet DNS_HEADER_LEN;
    answer_records_loop (Z.to_nat (h_answer_count header)) packet offset.

(** ** Services *)

(** [while cursor < record.next_offset]: each round consumes an octet. *)
Fixpoint txt_items (fuel : nat) (packet : bytes) (cursor next_offset : Z)
    (txt : list bytes) : wres (list bytes) :=
  match fuel with
  | O => Diverge
  | S fuel =>
      if cursor <? next_offset then
        length ← ok_or (bget packet cursor) ShortPacket;
        cursor ← checked_end cursor 1;
        stop ← checked_end cursor length;
        item ← ok_or (if stop <=? next_offset then slice packet cursor stop else None)
                 InvalidRecord;
        txt_items fuel packet stop next_offset
          (if bool_decide (item = []) then txt else txt ++ [item])
      else Ok txt
  end.

Definition srv_record (packet : bytes) (record : ResourceRecord) : wres SrvRecord :=
  if len (r_rdata record) <? 7 then Err InvalidRecord
  else
    target_offset ← checked_end (r_rdata_offset record) 6;
    '(target, target_end) ← read_name packet target_offset;
    if negb (target_end =? r_next_offset record) then Err InvalidRecord
    else
      priority ← read_u16 packet (r_rdata_offset record);
      weight ← read_u16 packet (r_rdata_offset record + 2);
      port ← read_u16 packet (r_rdata_offset record + 4);
      Ok (mk_srv priority weight port target).

Fixpoint service_records_loop (n : nat) (packet : bytes) (offset : Z)
    (output : ServiceRecords) : wres ServiceRecords :=
  match n with
  | O => Ok output
  | S n =>
      record ← parse_record packet offset;
      let offset := r_next_offset record in
      if negb (r_class record =? CLASS_IN)
      then service_records_loop n packet offset output
      else if r_rr_type record =? TYPE_SRV then
        srv ← srv_record packet record;
        service_records_loop n packet offset
          (mk_services (service_srv output ++ [srv]) (service_txt output))
      else if r_rr_type record =? TYPE_TXT then
        txt ← txt_items (S (length (r_rdata record))) packet (r_rdata_offset record)
                (r_next_offset record) (service_txt output);
        service_records_loop n packet offset (mk_services (service_srv output) txt)
      else service_records_loop n packet offset output
  end.

Definition extract_service_records (packet : bytes) : wres ServiceRecords :=
  header ← header_parse packet;
  if negb (is_response header) then Err WrongDirection
  else
    offset ← skip_questions (Z.to_nat (h_question_count header)) packet DNS_HEADER_LEN;
    service_records_loop (Z.to_nat (h_answer_count header)) packet offset
      (mk_services [] []).

(** ** Addresses *)

Definition insert_redirect (packet : bytes) (record : ResourceRecord) (owner : bytes)
    (redirects : redirects_map) : wres redirects_map :=
  '(target, stop) ← read_name packet (r_rdata_offset record);
  if negb (stop =? r_next_offset record) then Err InvalidRecord
  else
    match redirects !! owner with
    | Some existing =>
        if bool_decide (canonical_wire existing ≠ canonical_wire target)
        then Err InvalidRecord else Ok redirects
    | None => Ok (<[owner := target]> redirects)
    end.

Definition insert_address (output : AddressAnswerSet) (owner : bytes)
    (address : IpAddr) : AddressAnswerSet :=
  let values := default [] (as_addresses output !! owner) in
  let values := if bool_decide (address ∈ values) then values
                else values ++ [address] in
  mk_answer_set (as_aliases output) (as_dnames output)
    (<[owner := values]> (as_addresses output)).

(** One record of the answer section. *)
Definition address_answer (packet : bytes) (record : ResourceRecord)
    (output : AddressAnswerSet) : wres AddressAnswerSet :=
  let owner := canonical_wire (r_name record) in
  if negb (r_class record =? CLASS_IN) then Ok output
  else if r_rr_type record =? TYPE_CNAME then
    aliases ← insert_redirect packet record owner (as_aliases output);
    Ok (mk_answer_set aliases (as_dnames output) (as_addresses output))
  else if r_rr_type record =? TYPE_DNAME then
    dnames ← insert_redirect packet record owner (as_dnames output);
    Ok (mk_answer_set (as_aliases output) dnames (as_addresses output))
  else if r_rr_type record =? TYPE_A then
    if len (r_rdata record) =? 4
    then Ok (insert_address output owner (V4 (r_rdata record)))
    else Err InvalidRecord
  else if r_rr_type record =? TYPE_AAAA then
    if len (r_rdata record) =? 16
    then Ok (insert_address output owner (V6 (r_rdata record)))
    else Err InvalidRecord
  else Ok output.

Fixpoint address_answers_loop (n : nat) (packet : bytes) (offset : Z)
    (output : AddressAnswerSet) : wres AddressAnswerSet :=
  match n with
  | O => Ok output
  | S n =>
      record ← parse_record packet offset;
      output ← address_answer packet record output;
      address_answers_loop n packet (r_next_offset record) output
  end.

Definition map_keys {A} (m : gmap bytes A) : list bytes := (map_to_list m).*1.

Definition contains_key {A} (m : gmap bytes A) (k : bytes) : bool :=
  match m !! k with Some _ => true | None => false end.

Definition parse_address_answers (packet : bytes) (answer_count offset : Z) :
    wres AddressAnswerSet :=
  output ← address_answers_loop (Z.to_nat answer_count) packet offset
             (mk_answer_set ∅ ∅ ∅);
  if existsb (λ owner, contains_key (as_addresses output) owner ||
                       contains_key (as_dnames output) owner)
       (map_keys (as_aliases output))
  then Err InvalidRecord
  else Ok output.

Definition rewrite_dname_text (current : str) (prefix_labels : Z) (target : str) :
    wres str :=
  let labels := if bool_decide (current = lit ".") then []
                else split_on dot current in
  labels ← ok_or (slice labels 0 prefix_labels) InvalidRecord;
  let prefix := join_with (lit ".") labels in
  match bool_decide (prefix = []), bool_decide (target = lit ".") with
  | true, true => Ok (lit ".")
  | true, false => Ok target
  | false, true => Ok prefix
  | false, false => Ok (prefix ++ lit "." ++ target)
  end.

(** The substitution both DNAME searches make once an owner is found. *)
Definition apply_dname (current target : DnsName) (prefix : bytes)
    (prefix_labels : Z) : wres (option DnsName) :=
  length ← ok_or (checked_add usize_max (len prefix) (len (canonical_wire target)))
             NameTooLong;
  if 255 <? length then Err NameTooLong
  else
    text ← rewrite_dname_text (name_text current) prefix_labels (name_text target);
    Ok (Some (mk_name text (prefix ++ canonical_wire target))).

(** [loop]: each round moves [suffix_offset] forward by a label. *)
Fixpoint rewrite_dname_loop (fuel : nat) (current : DnsName) (dnames : redirects_map)
    (suffix_offset prefix_labels : Z) : wres (option DnsName) :=
  match fuel with
  | O => Diverge
  | S fuel =>
      let canonical := canonical_wire current in
      suffix ← or_panic (slice canonical suffix_offset (len canonical));
      match dnames !! suffix with
      | Some target =>
          prefix ← or_panic (slice canonical 0 suffix_offset);
          apply_dname current target prefix prefix_labels
      | None =>
          label_length ← ok_or (bget canonical suffix_offset) InvalidRecord;
          if label_length =? 0 then Ok None
          else if 63 <? label_length then Err InvalidRecord
          else
            suffix_offset ←
              ok_or (checked_add usize_max suffix_offset (label_length + 1)) NameTooLong;
            if len canonical <=? suffix_offset then Err InvalidRecord
            else
              rewrite_dname_loop fuel current dnames suffix_offset (prefix_labels + 1)
      end
  end.

Definition rewrite_dname (current : DnsName) (dnames : redirects_map) :
    wres (option DnsName) :=
  rewrite_dname_loop (S (length (canonical_wire current))) current dnames 0 0.

Definition family_matches (family : option Z) (address : IpAddr) : bool :=
  match family, address with
  | None, _ => true
  | Some f, V4 _ => f =? 2
  | Some f, V6 _ => f =? 10
  end.

Fixpoint resolve_chain_loop (n : nat) (current : DnsName) (visited : gset bytes)
    (answers : AddressAnswerSet) (family : option Z) : wres AddressRecords :=
  match n with
  | O => Err InvalidRecord
  | S n =>
      if bool_decide (canonical_wire current ∈ visited) then Err InvalidRecord
      else
        let visited := {[ canonical_wire current ]} ∪ visited in
        match as_aliases answers !! canonical_wire current with
        | Some target => resolve_chain_loop n target visited answers family
        | None =>
            rewritten ← rewrite_dname current (as_dnames answers);
            match rewritten with
            | Some target => resolve_chain_loop n target visited answers family
            | None =>
                Ok (mk_addresses
                      (List.filter (family_matches family)
                         (default [] (as_addresses answers !! canonical_wire current)))
                      (name_text current))
            end
        end
  end.

Definition resolve_address_chain (question : DnsName) (answers : AddressAnswerSet)
    (family : option Z) : wres AddressRecords :=
  resolve_chain_loop MAX_REDIRECT_CHAIN question ∅ answers family.

Definition extract_address_records (packet : bytes) (family : option Z) :
    wres AddressRecords :=
  header ← header_parse packet;
  if negb (is_response header) then Err WrongDirection
  else if negb (h_question_count header =? 1)
  then Err (WrongQuestionCount (h_question_count header))
  else
    question ← parse_question packet DNS_HEADER_LEN;
    answers ← parse_address_answers packet (h_answer_count header)
                (q_next_offset question);
    resolve_address_chain (q_name question) answers family.

Definition extract_addresses (packet : bytes) (family : option Z) :
    wres (list IpAddr) :=
  records ← extract_address_records packet family;
  Ok (addresses records).

(** ** Pointers *)

Fixpoint ptr_names_loop (n : nat) (packet : bytes) (offset : Z) : wres (list str) :=
  match n with
  | O => Ok []
  | S n =>
      record ← parse_record packet offset;
      names ←
        (if (r_class record =? CLASS_IN) && (r_rr_type record =? TYPE_PTR) then
           '(name, _) ← read_name packet (r_rdata_offset record);
           Ok [name_text name]
         else Ok []);
      rest ← ptr_names_loop n packet (r_next_offset record);
      Ok (names ++ rest)
  end.

Definition extract_ptr_names (packet : bytes) : wres (list str) :=
  header ← header_parse packet;
  if negb (is_response header) then Err WrongDirection
  else
    offset ← skip_questions (Z.to_nat (h_question_count header)) packet DNS_HEADER_LEN;
    ptr_names_loop (Z.to_nat (h_answer_count header)) packet offset.

(** ** Reverse names *)

(** [{:x}] on a value below 16. *)
Definition hex_digit (n : Z) : str := [if n <? 10 then 48 + n else 87 + n].

Definition hex_value (c : Z) : option Z :=
  if is_digit c then Some (c - 48)
  else if (97 <=? c) && (c <=? 102) then Some (c - 87)
  else if (65 <=? c) && (c <=? 70) then Some (c - 55)
  else None.

Fixpoint parse_hex_digits (acc : Z) (s : str) : option Z :=
  match s with
  | [] => Some acc
  | c :: s' => d ← hex_value c; parse_hex_digits (acc * 16 + d) s'
  end.

(** [u8::from_str_radix(s, 16)]. *)
Definition parse_hex_u8 (s : str) : option Z :=
  let digits := match s with 43 :: rest => rest | _ => s end in
  match digits with
  | [] => None
  | _ => v ← parse_hex_digits 0 digits; if v <=? u8_max then Some v else None
  end.

Definition reverse_name (address : IpAddr) : str :=
  match address with
  | V4 octets =>
      show_unsigned (octet octets 3) ++ lit "." ++ show_unsigned (octet octets 2) ++
      lit "." ++ show_unsigned (octet octets 1) ++ lit "." ++
      show_unsigned (octet octets 0) ++ lit ".in-addr.arpa"
  | V6 octets =>
      (reverse octets ≫= λ byte,
         hex_digit (Z.land byte 0x0f) ++ lit "." ++
         hex_digit (Z.shiftr byte 4) ++ lit ".") ++ lit "ip6.arpa"
  end.

(** [collect::<Result<_, _>>()]: the values, if every item has one. *)
Fixpoint collect_results {A B} (f : A → option B) (l : list A) : option (list B) :=
  match l with
  | [] => Some []
  | x :: l => y ← f x; ys ← collect_results f l; Some (y :: ys)
  end.

(** [for (index, pair) in nibbles.chunks_exact(2).enumerate()]. *)
Fixpoint fill_nibbles (index : nat) (nibbles : list Z) (bs : bytes) : bytes :=
  match nibbles with
  | low :: high :: rest =>
      fill_nibbles (S index) rest
        (<[(15 - index)%nat := Z.lor low (Z.shiftl high 4)]> bs)
  | _ => bs
  end.

Definition parse_reverse_name (name : str) : option IpAddr :=
  let lower := to_ascii_lowercase (trim_end_matches dot name) in
  match strip_suffix lower (lit ".in-addr.arpa") with
  | Some prefix =>
      octets ← collect_results (parse_unsigned u8_max) (split_on dot prefix);
      match octets with
      | [d; c; b; a] => Some (V4 [a; b; c; d])
      | _ => None
      end
  | None =>
      match strip_suffix lower (lit ".ip6.arpa") with
      | Some prefix =>
          nibbles ← collect_results parse_hex_u8 (split_on dot prefix);
          if negb (len nibbles =? 32) || existsb (λ n, 0x0f <? n) nibbles
          then None
          else Some (V6 (fill_nibbles 0 nibbles (replicate 16 0)))
      | None => None
      end
  end.
