(* ===== verification/Redirects.v ===== *)
(** * Redirections of a response

    Models [src/wire/redirects.rs]: whether the answer section of a response
    answers its question directly, or ends in a name the resolver has to ask
    for next, following CNAME records and the DNAME records that cover a name. *)

From S2P Require Import Prelude Text Net Codec Records.

Definition CNAME_REDIRECTS_MAX : Z := 16.

Inductive RedirectAnswer : Type :=
  | Direct (canonical_name : str) (redirects : Z)
  | Redirect (canonical_name : str) (redirects : Z)
  | NoData.

(** The state of the loop over the answers. *)
Record RedirectSet : Type := mk_redirects {
  rd_direct : gset bytes;
  rd_aliases : redirects_map;
  rd_dnames : redirects_map;
}.

Definition redirect_answer (packet : bytes) (question : Question)
    (record : ResourceRecord) (output : RedirectSet) : wres RedirectSet :=
  let owner := canonical_wire (r_name record) in
  if negb (q_class question =? CLASS_ANY) &&
     negb (r_class record =? q_class question)
  then Ok output
  else if (q_rr_type question =? TYPE_ANY) ||
          (r_rr_type record =? q_rr_type question)
  then Ok (mk_redirects ({[ owner ]} ∪ rd_direct output) (rd_aliases output)
             (rd_dnames output))
  else if r_rr_type record =? TYPE_CNAME then
    aliases ← insert_redirect packet record owner (rd_aliases output);
    Ok (mk_redirects (rd_direct output) aliases (rd_dnames output))
  else if r_rr_type record =? TYPE_DNAME then
    dnames ← insert_redirect packet record owner (rd_dnames output);
    Ok (mk_redirects (rd_direct output) (rd_aliases output) dnames)
  else Ok output.

Fixpoint redirect_answers_loop (n : nat) (packet : bytes) (question : Question)
    (offset : Z) (output : RedirectSet) : wres RedirectSet :=
  match n with
  | O => Ok output
  | S n =>
      record ← parse_record packet offset;
      output ← redirect_answer packet question record output;
      redirect_answers_loop n packet question (r_next_offset record) output
  end.

(** [loop]: each round moves [suffix_offset] forward by a label. *)
Fixpoint covering_dname_loop (fuel : nat) (current : DnsName)
    (dnames : redirects_map) (suffix_offset prefix_labels : Z) :
    wres (option DnsName) :=
  match fuel with
  | O => Diverge
  | S fuel =>
      let canonical := canonical_wire current in
      if len canonical <=? suffix_offset then Err InvalidRecord
      else
        suffix ← or_panic (slice canonical suffix_offset (len canonical));
        match dnames !! suffix with
        | Some target =>
            prefix ← or_panic (slice canonical 0 suffix_offset);
            apply_dname current target prefix prefix_labels
        | None =>
            label_length ← ok_or (bget canonical suffix_offset) InvalidRecord;
            if label_length =? 0 then Ok None
            else if 63 <? label_length then Err InvalidRecord
            else
              suffix_offset ←
                ok_or (checked_add usize_max suffix_offset (label_length + 1))
                  NameTooLong;
              covering_dname_loop fuel current dnames suffix_offset (prefix_labels + 1)
        end
  end.

Definition rewrite_covering_dname (current : DnsName) (dnames : redirects_map) :
    wres (option DnsName) :=
  let canonical := canonical_wire current in
  first_label ← ok_or (bget canonical 0) InvalidRecord;
  if (first_label =? 0) || (63 <? first_label) then Ok None
  else
    suffix_offset ← ok_or (checked_add usize_max first_label 1) NameTooLong;
    covering_dname_loop (S (length canonical)) current dnames suffix_offset 1.

(** [loop]: a round either returns or follows one of at most
    [CNAME_REDIRECTS_MAX] redirections, so 18 rounds are enough
    ([classify_redirect_chain_safe]). *)
Fixpoint redirect_chain_loop (fuel : nat) (current : DnsName) (answers : RedirectSet)
    (visited : gset bytes) (redirects : Z) : wres RedirectAnswer :=
  match fuel with
  | O => Diverge
  | S fuel =>
      if bool_decide (canonical_wire current ∈ visited) then Err CnameLoop
      else
        let visited := {[ canonical_wire current ]} ∪ visited in
        if bool_decide (canonical_wire current ∈ rd_direct answers)
        then Ok (Direct (name_text current) redirects)
        else
          target ←
            match rd_aliases answers !! canonical_wire current with
            | Some target => Ok (Some target)
            | None => rewrite_covering_dname current (rd_dnames answers)
            end;
          match target with
          | None =>
              if redirects =? 0 then Ok NoData
              else Ok (Redirect (name_text current) redirects)
          | Some target =>
              if CNAME_REDIRECTS_MAX <=? redirects then Err CnameLoop
              else redirect_chain_loop fuel target answers visited (redirects + 1)
          end
  end.

Definition classify_redirect_chain (current : DnsName) (answers : RedirectSet) :
    wres RedirectAnswer :=
  redirect_chain_loop 18 current answers ∅ 0.

Definition classify_redirect_answer (packet : bytes) : wres RedirectAnswer :=
  header ← header_parse packet;
  if negb (is_response header) then Err WrongDirection
  else if negb (h_question_count header =? 1)
  then Err (WrongQuestionCount (h_question_count header))
  else if negb (response_code header =? 0) then Ok NoData
  else
    question ← parse_question packet DNS_HEADER_LEN;
    answers ← redirect_answers_loop (Z.to_nat (h_answer_count header)) packet question
                (q_next_offset question) (mk_redirects ∅ ∅ ∅);
    if existsb (λ owner, bool_decide (owner ∈ rd_direct answers) ||
                         contains_key (rd_dnames answers) owner)
         (map_keys (rd_aliases answers))
    then Err InvalidRecord
    else classify_redirect_chain (q_name question) answers.
