(* ===== verification/RedirectFacts.v ===== *)
(** * Redirections: theorems

    Names as label lists ([wf_name]), the DNAME search of
    [src/wire/records.rs] and [src/wire/redirects.rs] as a search over the
    suffixes of a label list, and the chains of redirections both follow. *)

From S2P Require Import Prelude Text Net Codec Names CodecFacts Packet PacketFacts.
From S2P Require Import Records Redirects.

(** ** Well-formed names *)

Definition labels_ok (labels : list bytes) : Prop :=
  Forall label_ok labels ∧ Forall bytes_ok labels ∧
  len (canonical_of_labels labels) ≤ 255.

(** What the decoder returns: the name of a list of labels. *)
Definition wf_name (n : DnsName) : Prop :=
  ∃ labels, labels_ok labels ∧ n = labels_name labels.

Lemma read_name_wf p o n next :
  packet_ok p → read_name p o = Ok (n, next) → wf_name n.
Proof.
  intros Hp (labels & k & Hn & _ & Hlen & ->)%read_name_iff; [|done].
  exists labels; split; [|done]; unfold labels_ok; split_and!; [..|done].
  - by apply (name_at_bounds p Hp) in Hn as (_ & _ & ?).
  - by eapply name_at_bytes_ok.
Qed.

Lemma parse_question_wf p o q : packet_ok p → parse_question p o = Ok q → wf_name (q_name q).
Proof. intros Hp (ne & Hn & _)%parse_question_iff; by eapply read_name_wf. Qed.

Lemma parse_record_wf p o r : packet_ok p → parse_record p o = Ok r → wf_name (r_name r).
Proof. intros Hp (ne & Hn & _)%parse_record_iff; [|done]; by eapply read_name_wf. Qed.

(** ** Labels and offsets *)

Definition labels_prefix (labels : list bytes) : bytes :=
  labels ≫= λ l, len l :: to_ascii_lowercase l.

Lemma labels_prefix_len labels : len (labels_prefix labels) = labels_len labels.
Proof.
  pose proof (canonical_of_labels_len labels) as H.
  unfold canonical_of_labels in H; fold (labels_prefix labels) in H; len_lia.
Qed.

Lemma canonical_of_labels_app pre post :
  canonical_of_labels (pre ++ post) = labels_prefix pre ++ canonical_of_labels post.
Proof. unfold canonical_of_labels, labels_prefix; by rewrite bind_app, <- app_assoc. Qed.

Lemma labels_len_app pre post : labels_len (pre ++ post) = labels_len pre + labels_len post.
Proof.
  rewrite <- !labels_prefix_len; unfold labels_prefix; by rewrite bind_app, len_app.
Qed.

Lemma canonical_prefix pre post :
  slice (canonical_of_labels (pre ++ post)) 0 (labels_len pre) = Some (labels_prefix pre).
Proof.
  rewrite canonical_of_labels_app, <- labels_prefix_len.
  exact (slice_app_exact [] (labels_prefix pre) (canonical_of_labels post)).
Qed.

Lemma canonical_suffix pre post :
  slice (canonical_of_labels (pre ++ post)) (labels_len pre)
    (len (canonical_of_labels (pre ++ post))) = Some (canonical_of_labels post).
Proof.
  rewrite canonical_of_labels_app, <- labels_prefix_len, len_app.
  pose proof (slice_app_exact (labels_prefix pre) (canonical_of_labels post) []) as H.
  by rewrite app_nil_r in H.
Qed.

Lemma canonical_at pre post :
  bget (canonical_of_labels (pre ++ post)) (labels_len pre) =
  Some (match post with [] => 0 | l :: _ => len l end).
Proof.
  rewrite canonical_of_labels_app, <- labels_prefix_len, bget_app_r, Z.sub_diag by lia.
  by destruct post.
Qed.

(** ** The text of a name *)

Lemma display_byte_no_dot b : is_u8 b → dot ∉ display_byte b.
Proof.
  intros Hb; enough (bool_decide (dot ∈ display_byte b) = false) by (by boolp).
  apply negb_true_iff.
  exact (u8_forall (λ b, negb (bool_decide (dot ∈ display_byte b))) eq_refl b Hb).
Qed.

Lemma display_label_no_dot l : bytes_ok l → dot ∉ display_label l.
Proof.
  unfold display_label; intros Hl (b & Hd & Hb)%list_elem_of_bind.
  eapply display_byte_no_dot; [|exact Hd]; by eapply Forall_forall in Hl.
Qed.

Lemma display_label_nonempty l : label_ok l → display_label l ≠ [].
Proof.
  unfold label_ok; destruct l as [|b l]; [by intros [? _]|]; intros _.
  unfold display_label; cbn; unfold display_byte; by case_match.
Qed.

Lemma display_pieces labels :
  Forall bytes_ok labels → Forall (λ s, dot ∉ s) (display_label <$> labels).
Proof.
  intros Hb; rewrite Forall_fmap; eapply Forall_impl; [exact Hb|].
  apply display_label_no_dot.
Qed.

Lemma text_not_root labels :
  Forall label_ok labels → Forall bytes_ok labels → labels ≠ [] →
  text_of_labels labels ≠ lit ".".
Proof.
  destruct labels as [|l ls]; [done|]; intros Hok Hb _ Heq.
  apply display_pieces in Hb; apply (f_equal (split_on dot)) in Heq.
  unfold text_of_labels in Heq; change (lit ".") with [dot] in Heq.
  rewrite split_join in Heq by done.
  apply Forall_cons in Hok as [Hl _]; apply display_label_nonempty in Hl.
  rewrite fmap_cons in Heq; cbn in Heq; congruence.
Qed.

Lemma text_labels labels :
  Forall label_ok labels → Forall bytes_ok labels →
  (if bool_decide (text_of_labels labels = lit ".") then []
   else split_on dot (text_of_labels labels)) = display_label <$> labels.
Proof.
  destruct labels as [|l ls]; [done|]; intros Hok Hb.
  rewrite bool_decide_eq_false_2 by (by apply text_not_root).
  by apply split_join, display_pieces.
Qed.

Lemma join_app sep a b :
  a ≠ [] → b ≠ [] → join_with sep (a ++ b) = join_with sep a ++ sep ++ join_with sep b.
Proof.
  induction a as [|x a IH]; [done|]; intros _ Hb; destruct a as [|y a].
  - by destruct b.
  - change (join_with sep ((x :: y :: a) ++ b))
      with (x ++ sep ++ join_with sep ((y :: a) ++ b)).
    change (join_with sep (x :: y :: a)) with (x ++ sep ++ join_with sep (y :: a)).
    by rewrite IH, <- !app_assoc.
Qed.

Lemma join_nonempty sep a b : a ≠ [] → join_with sep (a :: b) ≠ [].
Proof. destruct a, b; done. Qed.

Lemma rewrite_dname_text_spec pre post tl :
  labels_ok (pre ++ post) → labels_ok tl →
  rewrite_dname_text (text_of_labels (pre ++ post)) (len pre) (text_of_labels tl) =
    Ok (text_of_labels (pre ++ tl)).
Proof.
  intros (Hl & Hb & _) (Htl & Htb & _); unfold rewrite_dname_text.
  rewrite (text_labels _ Hl Hb), fmap_app.
  replace (slice _ 0 (len pre)) with (Some (display_label <$> pre)); cycle 1.
  { symmetry; rewrite <- (len_fmap display_label pre).
    exact (slice_app_exact [] (display_label <$> pre) (display_label <$> post)). }
  cbn [ok_or mbind outcome_bind].
  apply Forall_app in Hl as [Hl _].
  destruct pre as [|l pre], tl as [|m tl]; [done|..].
  - cbn [fmap list_fmap join_with app]; rewrite bool_decide_eq_true_2 by done.
    rewrite bool_decide_eq_false_2; [done|]; by apply text_not_root.
  - rewrite bool_decide_eq_false_2.
    2: { apply Forall_cons in Hl as [? _]; by apply join_nonempty, display_label_nonempty. }
    by rewrite bool_decide_eq_true_2, app_nil_r.
  - rewrite bool_decide_eq_false_2.
    2: { apply Forall_cons in Hl as [? _]; by apply join_nonempty, display_label_nonempty. }
    rewrite bool_decide_eq_false_2; [|by apply text_not_root].
    change (text_of_labels (m :: tl)) with (join_with (lit ".") (display_label <$> m :: tl)).
    by rewrite <- join_app, <- fmap_app.
Qed.

(** ** DNAME substitution *)

(** The first suffix of [post], the labels left after [pre], that has a DNAME. *)
Fixpoint find_dname (dnames : redirects_map) (pre post : list bytes) :
    option (list bytes * DnsName) :=
  match dnames !! canonical_of_labels post with
  | Some target => Some (pre, target)
  | None =>
      match post with
      | [] => None
      | l :: post => find_dname dnames (pre ++ [l]) post
      end
  end.

Definition substituted (labels : list bytes) (found : option (list bytes * DnsName)) :
    wres (option DnsName) :=
  match found with
  | Some (pre, target) =>
      apply_dname (labels_name labels) target (labels_prefix pre) (len pre)
  | None => Ok None
  end.

Lemma labels_ok_len pre post : labels_ok (pre ++ post) → labels_len pre + labels_len post ≤ 254.
Proof. intros (_ & _ & H); rewrite canonical_of_labels_len, labels_len_app in H; lia. Qed.

Lemma dname_loop_step pre l post :
  labels_ok (pre ++ l :: post) →
  len l ≠ 0 ∧ len l ≤ 63 ∧
  checked_add usize_max (labels_len pre) (len l + 1) = Some (labels_len (pre ++ [l])) ∧
  len pre + 1 = len (pre ++ [l]).
Proof.
  intros Hok; pose proof (labels_ok_len _ _ Hok) as Hlen.
  destruct Hok as (Hl & _); apply Forall_app in Hl as [_ [Hl _]%Forall_cons].
  unfold label_ok in Hl; rewrite labels_len_cons in Hlen.
  rewrite labels_len_app, labels_len_cons; change (labels_len []) with 0.
  pose proof (labels_len_nonneg pre); pose proof (labels_len_nonneg post).
  split_and!; [lia..| |len_lia].
  apply checked_add_Some; unfold usize_max; lia.
Qed.

Lemma covering_dname_loop_eq fuel dnames pre post :
  labels_ok (pre ++ post) → (length post < fuel)%nat →
  covering_dname_loop fuel (labels_name (pre ++ post)) dnames (labels_len pre) (len pre) =
    substituted (pre ++ post) (find_dname dnames pre post).
Proof.
  revert fuel pre; induction post as [|l post IH]; intros fuel pre Hok Hfuel;
    (destruct fuel as [|fuel]; [cbn in Hfuel; lia|]);
    cbn [covering_dname_loop labels_name canonical_wire find_dname];
    rewrite canonical_of_labels_len, labels_len_app;
    (rewrite (proj2 (Z.leb_gt _ _)) by
      (first [pose proof (labels_len_nonneg (l :: post)) | pose proof (labels_len_nonneg [])];
       lia));
    rewrite <- labels_len_app, <- canonical_of_labels_len, canonical_suffix;
    cbn [or_panic mbind outcome_bind];
    destruct (dnames !! _) as [target|] eqn:Hd;
    try (by rewrite canonical_prefix); rewrite canonical_at;
    cbn [ok_or mbind outcome_bind]; [done|].
  destruct (dname_loop_step pre l post Hok) as (? & ? & Hadd & Hpre).
  rewrite (proj2 (Z.eqb_neq _ _)), (proj2 (Z.ltb_ge _ _)) by done.
  rewrite Hadd; cbn [ok_or mbind outcome_bind]; rewrite Hpre.
  replace (pre ++ l :: post) with ((pre ++ [l]) ++ post) in * by (by rewrite <- app_assoc).
  apply IH; [done|cbn in Hfuel; lia].
Qed.

Lemma rewrite_dname_loop_eq fuel dnames pre post :
  labels_ok (pre ++ post) → (length post < fuel)%nat →
  rewrite_dname_loop fuel (labels_name (pre ++ post)) dnames (labels_len pre) (len pre) =
    substituted (pre ++ post) (find_dname dnames pre post).
Proof.
  revert fuel pre; induction post as [|l post IH]; intros fuel pre Hok Hfuel;
    (destruct fuel as [|fuel]; [cbn in Hfuel; lia|]);
    cbn [rewrite_dname_loop labels_name canonical_wire find_dname];
    rewrite canonical_suffix; cbn [or_panic mbind outcome_bind];
    destruct (dnames !! _) as [target|] eqn:Hd;
    try (by rewrite canonical_prefix); rewrite canonical_at;
    cbn [ok_or mbind outcome_bind]; [done|].
  destruct (dname_loop_step pre l post Hok) as (? & ? & Hadd & Hpre).
  rewrite (proj2 (Z.eqb_neq _ _)), (proj2 (Z.ltb_ge _ _)) by done.
  rewrite Hadd; cbn [ok_or mbind outcome_bind]; rewrite Hpre.
  replace (pre ++ l :: post) with ((pre ++ [l]) ++ post) in * by (by rewrite <- app_assoc).
  rewrite (proj2 (Z.leb_gt _ _)).
  2: { rewrite canonical_of_labels_len, (labels_len_app (pre ++ [l])).
       pose proof (labels_len_nonneg post); lia. }
  apply IH; [done|cbn in Hfuel; lia].
Qed.

Lemma labels_length_bound labels :
  (length labels < S (length (canonical_of_labels labels)))%nat.
Proof.
  pose proof (canonical_of_labels_len labels) as H.
  enough (len labels ≤ labels_len labels) by (unfold len in *; lia).
  clear H; induction labels as [|l labels IH]; [done|].
  rewrite len_cons, labels_len_cons; pose proof (len_nonneg l); lia.
Qed.

Lemma rewrite_dname_eq dnames labels :
  labels_ok labels →
  rewrite_dname (labels_name labels) dnames =
    substituted labels (find_dname dnames [] labels).
Proof.
  intros Hok; unfold rewrite_dname; cbn [labels_name canonical_wire].
  apply (rewrite_dname_loop_eq _ dnames [] labels Hok), labels_length_bound.
Qed.

(** A DNAME covers the names below its owner, not the owner itself. *)
Lemma rewrite_covering_dname_eq dnames labels :
  labels_ok labels →
  rewrite_covering_dname (labels_name labels) dnames =
    match labels with
    | [] => Ok None
    | l :: rest => substituted labels (find_dname dnames [l] rest)
    end.
Proof.
  intros Hok; unfold rewrite_covering_dname; cbn [labels_name canonical_wire].
  destruct labels as [|l rest]; [done|].
  rewrite (canonical_at [] (l :: rest) : bget (canonical_of_labels (l :: rest)) 0 = _).
  cbn [ok_or mbind outcome_bind].
  assert (label_ok l) as Hl by (destruct Hok as (Hl & _); by apply Forall_cons in Hl as [? _]).
  unfold label_ok in Hl.
  rewrite (proj2 (Z.eqb_neq _ _)), (proj2 (Z.ltb_ge _ _)) by lia; cbn [orb].
  replace (checked_add usize_max (len l) 1) with (Some (labels_len [l])).
  2: { symmetry; apply checked_add_Some; rewrite labels_len_cons.
       change (labels_len []) with 0; unfold usize_max; lia. }
  cbn [ok_or mbind outcome_bind].
  apply (covering_dname_loop_eq _ dnames [l] rest Hok).
  pose proof (labels_length_bound (l :: rest)); cbn [length] in *; lia.
Qed.

Lemma labels_ok_app pre post tl :
  labels_ok (pre ++ post) → labels_ok tl → labels_len pre + labels_len tl ≤ 254 →
  labels_ok (pre ++ tl).
Proof.
  intros (Hl & Hb & _) (Htl & Htb & _) Hlen; unfold labels_ok.
  apply Forall_app in Hl as [? _], Hb as [? _].
  rewrite !Forall_app, canonical_of_labels_len, labels_len_app; split_and!; done || lia.
Qed.

Lemma apply_dname_eq pre post tl :
  labels_ok (pre ++ post) → labels_ok tl →
  apply_dname (labels_name (pre ++ post)) (labels_name tl) (labels_prefix pre) (len pre) =
    if 254 <? labels_len pre + labels_len tl then Err NameTooLong
    else Ok (Some (labels_name (pre ++ tl))).
Proof.
  intros Hok Htl; unfold apply_dname; cbn [labels_name canonical_wire name_text].
  pose proof (labels_ok_len _ _ Hok); pose proof (labels_ok_len [] tl Htl).
  change (labels_len []) with 0 in *; pose proof (labels_len_nonneg post).
  unfold checked_add; rewrite labels_prefix_len, canonical_of_labels_len.
  rewrite (proj2 (Z.leb_le _ usize_max)) by (unfold usize_max; lia).
  cbn [ok_or mbind outcome_bind].
  destruct (Z.ltb_spec 254 (labels_len pre + labels_len tl)).
  - by rewrite (proj2 (Z.ltb_lt _ _)) by lia.
  - rewrite (proj2 (Z.ltb_ge _ _)), rewrite_dname_text_spec by (done || lia).
    cbn [mbind outcome_bind]; unfold labels_name; by rewrite canonical_of_labels_app.
Qed.

Definition wf_redirects (m : redirects_map) : Prop := map_Forall (λ _ n, wf_name n) m.

(** The DNAME found is at the longest suffix that has one. *)
Lemma find_dname_Some dnames pre post pre' target :
  find_dname dnames pre post = Some (pre', target) →
  ∃ mid post', pre' = pre ++ mid ∧ post = mid ++ post' ∧
    dnames !! canonical_of_labels post' = Some target ∧
    ∀ a b, mid = a ++ b → b ≠ [] → dnames !! canonical_of_labels (b ++ post') = None.
Proof.
  revert pre; induction post as [|l post IH]; intros pre; cbn [find_dname];
    destruct (dnames !! _) as [t|] eqn:Hd; try done.
  - intros [= <- <-]; exists [], []; split_and!; try done; [by rewrite app_nil_r|].
    by intros a b [? ->]%symmetry%app_eq_nil.
  - intros [= <- <-]; exists [], (l :: post); split_and!; try done; [by rewrite app_nil_r|].
    by intros a b [? ->]%symmetry%app_eq_nil.
  - intros (mid & post' & -> & -> & Ht & Hnone)%IH; exists (l :: mid), post'.
    split_and!; try done; [by rewrite <- app_assoc|].
    intros [|x a] b Heq Hb; [by cbn in Heq; subst b|].
    injection Heq as -> ->; by apply (Hnone a).
Qed.

Lemma find_dname_None dnames pre post :
  find_dname dnames pre post = None →
  ∀ a b, post = a ++ b → dnames !! canonical_of_labels b = None.
Proof.
  revert pre; induction post as [|l post IH]; intros pre; cbn [find_dname];
    destruct (dnames !! _) as [t|] eqn:Hd; try done; intros Hn a b Heq.
  - by apply symmetry, app_eq_nil in Heq as [-> ->].
  - destruct a as [|x a]; cbn in Heq; [by subst b|].
    injection Heq as -> ->; by eapply IH.
Qed.

Lemma substituted_spec dnames labels pre post :
  labels_ok labels → labels = pre ++ post → wf_redirects dnames →
  wp (substituted labels (find_dname dnames pre post)) (λ o, ∀ n, o = Some n → wf_name n).
Proof.
  intros Hok -> Hd; destruct (find_dname dnames pre post) as [[pre' t]|] eqn:Hf; cbn; [|done].
  apply find_dname_Some in Hf as (mid & post' & -> & -> & Ht & _).
  destruct (Hd _ _ Ht) as (tl & Htl & ->); rewrite app_assoc in *.
  rewrite apply_dname_eq by done; case_match; [done|]; boolp; cbn.
  intros n [= <-]; eexists; split; [|done]; by eapply labels_ok_app.
Qed.

Lemma rewrite_dname_wf dnames n :
  wf_name n → wf_redirects dnames →
  wp (rewrite_dname n dnames) (λ o, ∀ n', o = Some n' → wf_name n').
Proof.
  intros (labels & Hok & ->) Hd; rewrite rewrite_dname_eq by done.
  by apply substituted_spec.
Qed.

Lemma rewrite_covering_dname_wf dnames n :
  wf_name n → wf_redirects dnames →
  wp (rewrite_covering_dname n dnames) (λ o, ∀ n', o = Some n' → wf_name n').
Proof.
  intros (labels & Hok & ->) Hd; rewrite rewrite_covering_dname_eq by done.
  destruct labels as [|l rest]; [done|]; by apply substituted_spec.
Qed.

(** ** Chains of redirections *)

(** [path next n ns m]: from [n], through the names [ns], to [m]. *)
Inductive path (next : DnsName → wres (option DnsName)) :
    DnsName → list DnsName → DnsName → Prop :=
  | path_nil n : path next n [] n
  | path_cons n n' ns m :
      next n = Ok (Some n') → path next n' ns m → path next n (n :: ns) m.

Abbreviation owners ns := (canonical_wire <$> ns).

(** Where the answers send a name that is not answered directly. *)
Definition redirect_target (answers : RedirectSet) (n : DnsName) :
    wres (option DnsName) :=
  match rd_aliases answers !! canonical_wire n with
  | Some target => Ok (Some target)
  | None => rewrite_covering_dname n (rd_dnames answers)
  end.

(** What the last name of a chain of [k] redirections means. *)
Definition chain_answer (answers : RedirectSet) (m : DnsName) (k : Z)
    (r : RedirectAnswer) : Prop :=
  if bool_decide (canonical_wire m ∈ rd_direct answers)
  then r = Direct (name_text m) k
  else redirect_target answers m = Ok None ∧
       r = if k =? 0 then NoData else Redirect (name_text m) k.

Definition redirect_chain (answers : RedirectSet) (n : DnsName) (k : Z)
    (visited : gset bytes) (r : RedirectAnswer) : Prop :=
  ∃ ns m, path (redirect_target answers) n ns m ∧
    k + len ns ≤ CNAME_REDIRECTS_MAX ∧
    NoDup (owners (ns ++ [m])) ∧
    (∀ x, x ∈ owners (ns ++ [m]) → x ∉ visited) ∧
    Forall (λ x, canonical_wire x ∉ rd_direct answers) ns ∧
    chain_answer answers m (k + len ns) r.

Lemma redirect_chain_stop answers n k visited r :
  k ≤ CNAME_REDIRECTS_MAX → canonical_wire n ∉ visited →
  (canonical_wire n ∈ rd_direct answers ∨ redirect_target answers n = Ok None) →
  redirect_chain answers n k visited r ↔ chain_answer answers n k r.
Proof.
  intros Hk Hvis Hend; split.
  - intros (ns & m & Hpath & _ & _ & _ & Hns & Hans); destruct Hpath.
    + by rewrite len_nil, Z.add_0_r in Hans.
    + apply Forall_cons in Hns as [? _]; destruct Hend; [done|congruence].
  - intros Hans; exists [], n; rewrite len_nil, Z.add_0_r.
    split_and!; [apply path_nil|done|apply NoDup_singleton|set_solver|constructor|done].
Qed.

Lemma redirect_chain_step answers n n' k visited r :
  canonical_wire n ∉ visited → canonical_wire n ∉ rd_direct answers →
  redirect_target answers n = Ok (Some n') →
  redirect_chain answers n k visited r ↔
  k < CNAME_REDIRECTS_MAX ∧
  redirect_chain answers n' (k + 1) ({[ canonical_wire n ]} ∪ visited) r.
Proof.
  intros Hvis Hdir Ht; unfold redirect_chain; split.
  - intros (ns & m & Hpath & Hlen & Hnd & Hfresh & Hns & Hans); destruct Hpath as [|? ? ns m Hn].
    + unfold chain_answer in Hans; rewrite bool_decide_eq_false_2 in Hans by done.
      by rewrite Ht in Hans; destruct Hans.
    + rewrite Ht in Hn; injection Hn as <-; rewrite len_cons in *.
      cbn [app] in *; rewrite fmap_cons in *; apply NoDup_cons in Hnd as [Hnot Hnd].
      pose proof (len_nonneg ns); split; [lia|]; exists ns, m.
      replace (k + 1 + len ns) with (k + (1 + len ns)) by lia.
      apply Forall_cons in Hns as [_ ?]; split_and!; try done.
      intros x Hx; specialize (Hfresh x); set_solver.
  - intros (Hk & ns & m & Hpath & Hlen & Hnd & Hfresh & Hns & Hans); exists (n :: ns), m.
    rewrite len_cons; replace (k + (1 + len ns)) with (k + 1 + len ns) by lia.
    cbn [app]; rewrite fmap_cons; split_and!; try done.
    + by eapply path_cons.
    + apply NoDup_cons; split; [|done]; intros Hin; apply (Hfresh _ Hin); set_solver.
    + intros x [->|Hx]%elem_of_cons; [done|]; specialize (Hfresh x Hx); set_solver.
    + by constructor.
Qed.

Lemma redirect_chain_fresh answers n k visited r :
  redirect_chain answers n k visited r → canonical_wire n ∉ visited.
Proof.
  intros (ns & m & Hpath & _ & _ & Hfresh & _); apply Hfresh; destruct Hpath; set_solver.
Qed.

Lemma redirect_chain_fails answers n k visited r :
  canonical_wire n ∉ rd_direct answers →
  (∀ o, redirect_target answers n ≠ Ok o) → ¬ redirect_chain answers n k visited r.
Proof.
  intros Hdir Ht (ns & m & Hpath & _ & _ & _ & _ & Hans).
  unfold chain_answer in Hans; destruct Hpath; [|congruence].
  case_bool_decide; destruct_and?; congruence.
Qed.

Lemma redirect_chain_loop_iff fuel answers n k visited r :
  17 - k < Z.of_nat fuel → 0 ≤ k ≤ CNAME_REDIRECTS_MAX →
  redirect_chain_loop fuel n answers visited k = Ok r ↔
  redirect_chain answers n k visited r.
Proof.
  revert n k visited; induction fuel as [|fuel IH]; intros n k visited Hf Hk.
  { unfold CNAME_REDIRECTS_MAX in *; lia. }
  cbn [redirect_chain_loop]; fold (redirect_target answers n).
  case_bool_decide as Hvis.
  { by split; [|intros ?%redirect_chain_fresh]. }
  case_bool_decide as Hdir.
  { rewrite redirect_chain_stop by (done || lia || auto); unfold chain_answer.
    rewrite bool_decide_eq_true_2 by done; split; [by intros [= <-]|by intros ->]. }
  destruct (redirect_target answers n) as [[n'|]|e| |] eqn:Ht; cbn [mbind outcome_bind].
  - rewrite (redirect_chain_step _ _ n') by done.
    destruct (Z.leb_spec CNAME_REDIRECTS_MAX k); [split; [done|lia]|].
    rewrite IH by lia; tauto.
  - rewrite redirect_chain_stop by (done || lia || auto); unfold chain_answer.
    rewrite bool_decide_eq_false_2, Ht by done.
    split; [by case_match; intros [= <-]|]; intros [_ ->]; by case_match.
  - split; [done|]; intros []%redirect_chain_fails; congruence.
  - split; [done|]; intros []%redirect_chain_fails; congruence.
  - split; [done|]; intros []%redirect_chain_fails; congruence.
Qed.

Lemma redirect_target_wf answers n :
  wf_name n → wf_redirects (rd_aliases answers) → wf_redirects (rd_dnames answers) →
  wp (redirect_target answers n) (λ o, ∀ n', o = Some n' → wf_name n').
Proof.
  intros Hn Ha Hd; unfold redirect_target.
  destruct (rd_aliases answers !! _) as [t|] eqn:Ht; [|by apply rewrite_covering_dname_wf].
  cbn; intros n' [= <-]; by eapply Ha.
Qed.

(** How many redirections led to the name. *)
Definition redirect_ok (a : RedirectAnswer) : Prop :=
  match a with Direct _ k | Redirect _ k => 0 ≤ k | NoData => True end.

Lemma redirect_chain_loop_wp fuel answers n k visited :
  17 - k < Z.of_nat fuel → 0 ≤ k ≤ CNAME_REDIRECTS_MAX → wf_name n →
  wf_redirects (rd_aliases answers) → wf_redirects (rd_dnames answers) →
  wp (redirect_chain_loop fuel n answers visited k) redirect_ok.
Proof.
  revert n k visited; induction fuel as [|fuel IH]; intros n k visited Hf Hk Hn Ha Hd.
  { unfold CNAME_REDIRECTS_MAX in *; lia. }
  cbn [redirect_chain_loop]; fold (redirect_target answers n).
  do 2 (case_bool_decide; [done || (cbn; lia)|]); apply wp_bind.
  eapply wp_mono; [by apply redirect_target_wf|]; intros [n'|] Hn';
    [|by case_match; cbn; lia].
  destruct (Z.leb_spec CNAME_REDIRECTS_MAX k); [done|].
  apply IH; try done; [lia..|]; by apply Hn'.
Qed.

(** ** Safety of the readers of answers *)

Lemma skip_questions_safe n p o : packet_ok p → safe (skip_questions n p o).
Proof.
  intros Hp; revert o; induction n as [|n IH]; intros o; [done|]; cbn [skip_questions].
  apply wp_bind; eapply wp_mono; [by apply parse_question_safe|]; intros q _; apply IH.
Qed.

Lemma skip_questions_eq n p o qs stop :
  parse_questions n p o = Ok (qs, stop) → skip_questions n p o = Ok stop.
Proof.
  revert o qs; induction n as [|n IH]; intros o qs H; cbn in *; inv_ok; simplify_eq; [done|].
  rewrite H0; cbn; by eapply IH.
Qed.

Lemma skip_questions_inv n p o stop :
  skip_questions n p o = Ok stop → ∃ qs, parse_questions n p o = Ok (qs, stop).
Proof.
  revert o; induction n as [|n IH]; intros o H; cbn in *; inv_ok; [by exists []|].
  apply IH in H as [qs Hqs]; exists (a :: qs); rewrite H0; cbn; by rewrite Hqs.
Qed.

Lemma insert_redirect_wf p r owner m :
  packet_ok p → wf_redirects m → wp (insert_redirect p r owner m) wf_redirects.
Proof.
  intros Hp Hm; unfold insert_redirect; apply wp_bind.
  eapply wp_mono; [by apply wp_strengthen, read_name_safe|].
  intros [t stop] [Hn _]; case_match; [done|].
  destruct (m !! owner) as [existing|] eqn:Ho; [by case_bool_decide|].
  apply map_Forall_insert; [done|]; split; [by eapply read_name_wf|done].
Qed.

Definition wf_answers (a : RedirectSet) : Prop :=
  wf_redirects (rd_aliases a) ∧ wf_redirects (rd_dnames a).

Lemma redirect_answer_wf p q r a :
  packet_ok p → wf_answers a → wp (redirect_answer p q r a) wf_answers.
Proof.
  intros Hp [Ha Hd]; unfold redirect_answer, wf_answers; repeat case_match; try done.
  - apply wp_bind; eapply wp_mono; [by apply insert_redirect_wf|]; done.
  - apply wp_bind; eapply wp_mono; [by apply insert_redirect_wf|]; done.
Qed.

Lemma redirect_answers_loop_wf n p q o a :
  packet_ok p → wf_answers a → wp (redirect_answers_loop n p q o a) wf_answers.
Proof.
  intros Hp; revert o a; induction n as [|n IH]; intros o a Ha; [done|].
  cbn [redirect_answers_loop]; apply wp_bind.
  eapply wp_mono; [by apply parse_record_safe|]; intros r _; apply wp_bind.
  eapply wp_mono; [by apply redirect_answer_wf|]; intros a' Ha'; by apply IH.
Qed.

Lemma wf_redirects_empty : wf_redirects ∅.
Proof. apply map_Forall_empty. Qed.

Lemma classify_redirect_answer_wp p : packet_ok p → wp (classify_redirect_answer p) redirect_ok.
Proof.
  intros Hp; unfold classify_redirect_answer; apply wp_bind.
  eapply wp_mono; [apply header_parse_safe|]; intros h _.
  do 3 (case_match; [done|]); apply wp_bind.
  eapply wp_mono; [by apply wp_strengthen, parse_question_safe|]; intros q [Hq _].
  apply wp_bind; eapply wp_mono; [apply redirect_answers_loop_wf; [done|]|].
  { split; apply wf_redirects_empty. }
  intros a [Ha Hd]; case_match; [done|]; unfold classify_redirect_chain.
  apply redirect_chain_loop_wp; [done| |by eapply parse_question_wf|done|done].
  unfold CNAME_REDIRECTS_MAX; lia.
Qed.

Definition wf_set (a : AddressAnswerSet) : Prop :=
  wf_redirects (as_aliases a) ∧ wf_redirects (as_dnames a).

Lemma address_answer_wf p r a :
  packet_ok p → wf_set a → wp (address_answer p r a) wf_set.
Proof.
  intros Hp [Ha Hd]; unfold address_answer, wf_set; repeat case_match; try done.
  - apply wp_bind; eapply wp_mono; [by apply insert_redirect_wf|]; done.
  - apply wp_bind; eapply wp_mono; [by apply insert_redirect_wf|]; done.
Qed.

Lemma address_answers_loop_wf n p o a :
  packet_ok p → wf_set a → wp (address_answers_loop n p o a) wf_set.
Proof.
  intros Hp; revert o a; induction n as [|n IH]; intros o a Ha; [done|].
  cbn [address_answers_loop]; apply wp_bind.
  eapply wp_mono; [by apply parse_record_safe|]; intros r _; apply wp_bind.
  eapply wp_mono; [by apply address_answer_wf|]; intros a' Ha'; by apply IH.
Qed.

Lemma resolve_chain_loop_safe n name visited a family :
  wf_name name → wf_set a → safe (resolve_chain_loop n name visited a family).
Proof.
  revert name visited; induction n as [|n IH]; intros name visited Hn Ha; [done|].
  cbn [resolve_chain_loop]; case_bool_decide; [done|].
  destruct (as_aliases a !! _) as [t|] eqn:Ht.
  { apply IH; [|done]; by apply Ha in Ht. }
  apply wp_bind; eapply wp_mono; [apply rewrite_dname_wf; [done|apply Ha]|].
  intros [t|] Hwf; [|done]; apply IH; [by apply Hwf|done].
Qed.

(** The 64 rounds are never to be evaluated on a variable chain. *)
#[local] Strategy opaque [resolve_chain_loop].

Lemma resolve_address_chain_safe name a family :
  wf_name name → wf_set a → safe (resolve_address_chain name a family).
Proof.
  unfold resolve_address_chain; generalize MAX_REDIRECT_CHAIN; intros n.
  apply resolve_chain_loop_safe.
Qed.

Lemma parse_address_answers_wf p n o :
  packet_ok p → wp (parse_address_answers p n o) wf_set.
Proof.
  intros Hp; unfold parse_address_answers; apply wp_bind.
  eapply wp_mono; [apply address_answers_loop_wf; [done|]|].
  { split; apply wf_redirects_empty. }
  intros a Ha; by case_match.
Qed.

Lemma extract_address_records_safe p family :
  packet_ok p → safe (extract_address_records p family).
Proof.
  intros Hp; unfold extract_address_records; apply wp_bind.
  eapply wp_mono; [apply header_parse_safe|]; intros h _.
  do 2 (case_match; [done|]); apply wp_bind.
  eapply wp_mono; [by apply wp_strengthen, parse_question_safe|]; intros q [Hq _].
  apply wp_bind; eapply wp_mono; [by apply parse_address_answers_wf|]; intros a Ha.
  apply resolve_address_chain_safe; [by eapply parse_question_wf|done].
Qed.

(** ** The address chain *)

Definition address_target (a : AddressAnswerSet) (n : DnsName) : wres (option DnsName) :=
  match as_aliases a !! canonical_wire n with
  | Some target => Ok (Some target)
  | None => rewrite_dname n (as_dnames a)
  end.

(** From [name], in fewer than [n] redirections over distinct names outside
    [visited], to a name that is not redirected and whose addresses are the
    answer. *)
Definition address_chain (n : Z) (a : AddressAnswerSet) (family : option Z)
    (name : DnsName) (visited : gset bytes) (r : AddressRecords) : Prop :=
  ∃ ns m, path (address_target a) name ns m ∧ len ns < n ∧
    NoDup (owners (ns ++ [m])) ∧ (∀ x, x ∈ owners (ns ++ [m]) → x ∉ visited) ∧
    address_target a m = Ok None ∧
    r = mk_addresses (List.filter (family_matches family)
          (default [] (as_addresses a !! canonical_wire m))) (name_text m).

Lemma address_chain_step n a family name name' visited r :
  canonical_wire name ∉ visited → address_target a name = Ok (Some name') →
  address_chain (n + 1) a family name visited r ↔
  address_chain n a family name' ({[ canonical_wire name ]} ∪ visited) r.
Proof.
  intros Hvis Ht; unfold address_chain; split.
  - intros (ns & m & Hpath & Hlen & Hnd & Hfresh & Hend & Hr).
    destruct Hpath as [|? ? ns m Hn]; [congruence|].
    rewrite Ht in Hn; injection Hn as <-; rewrite len_cons in *.
    cbn [app] in *; rewrite fmap_cons in *; apply NoDup_cons in Hnd as [Hnot Hnd].
    exists ns, m; split_and!; try done; [lia|].
    intros x Hx; specialize (Hfresh x); set_solver.
  - intros (ns & m & Hpath & Hlen & Hnd & Hfresh & Hend & Hr); exists (name :: ns), m.
    rewrite len_cons; cbn [app]; rewrite fmap_cons; split_and!; try done.
    + by eapply path_cons.
    + lia.
    + apply NoDup_cons; split; [|done]; intros Hin; apply (Hfresh _ Hin); set_solver.
    + intros x [->|Hx]%elem_of_cons; [done|]; specialize (Hfresh x Hx); set_solver.
Qed.

Lemma address_chain_stop n a family name visited r :
  0 ≤ n → canonical_wire name ∉ visited → address_target a name = Ok None →
  address_chain (n + 1) a family name visited r ↔
  r = mk_addresses (List.filter (family_matches family)
        (default [] (as_addresses a !! canonical_wire name))) (name_text name).
Proof.
  intros Hn Hvis Ht; split.
  - intros (ns & m & Hpath & _ & _ & _ & _ & Hr); destruct Hpath; [done|congruence].
  - intros ->; exists [], name; rewrite len_nil; split_and!;
      [apply path_nil|lia|apply NoDup_singleton|set_solver|done|done].
Qed.

Lemma address_chain_start n a family name visited r :
  address_chain n a family name visited r →
  canonical_wire name ∉ visited ∧ 0 < n ∧ ∃ o, address_target a name = Ok o.
Proof.
  intros (ns & m & Hpath & Hlen & _ & Hfresh & Hend & _); pose proof (len_nonneg ns).
  split_and!; [|lia|destruct Hpath; eauto].
  apply Hfresh; destruct Hpath; set_solver.
Qed.

Lemma resolve_chain_loop_iff n name visited a family r :
  resolve_chain_loop n name visited a family = Ok r ↔
  address_chain (Z.of_nat n) a family name visited r.
Proof.
  revert name visited; induction n as [|n IH]; intros name visited; cbn [resolve_chain_loop].
  { split; [done|]; intros (_ & ? & _)%address_chain_start; lia. }
  case_bool_decide as Hvis.
  { split; [done|]; by intros (? & _)%address_chain_start. }
  replace (Z.of_nat (S n)) with (Z.of_nat n + 1) by lia.
  trans (∃ o, address_target a name = Ok o ∧
    match o with
    | Some t => resolve_chain_loop n t ({[ canonical_wire name ]} ∪ visited) a family = Ok r
    | None => r = mk_addresses (List.filter (family_matches family)
        (default [] (as_addresses a !! canonical_wire name))) (name_text name)
    end).
  - unfold address_target; destruct (as_aliases a !! _) as [t|].
    { split; [by intros ?; exists (Some t)|]; by intros (o & [= <-] & ?). }
    rewrite bind_Ok; apply exist_proper; intros [t|]; [done|].
    split; intros [? Hr]; (split; [done|]); [by injection Hr|by subst].
  - split.
    + intros ([t|] & Ht & Hr); [by apply (address_chain_step _ _ _ _ t), IH|].
      by apply address_chain_stop; [lia|..].
    + intros Hc; destruct (address_chain_start _ _ _ _ _ _ Hc) as (_ & _ & [t|] & Ht).
      * exists (Some t); split; [done|]; apply IH.
        by apply (address_chain_step _ _ _ _ t) in Hc.
      * exists None; split; [done|]; by apply address_chain_stop in Hc; [|lia|..].
Qed.

Lemma resolve_address_chain_iff name a family r :
  resolve_address_chain name a family = Ok r ↔ address_chain 64 a family name ∅ r.
Proof.
  unfold resolve_address_chain.
  change 64 with (Z.of_nat MAX_REDIRECT_CHAIN); generalize MAX_REDIRECT_CHAIN.
  intros n; apply resolve_chain_loop_iff.
Qed.

(** ** Properties *)

Lemma find_dname_intro dnames pre mid post target :
  dnames !! canonical_of_labels post = Some target →
  (∀ a b, mid = a ++ b → b ≠ [] → dnames !! canonical_of_labels (b ++ post) = None) →
  find_dname dnames pre (mid ++ post) = Some (pre ++ mid, target).
Proof.
  revert pre; induction mid as [|l mid IH]; intros pre Ht Hnone; cbn [app].
  { rewrite app_nil_r; destruct post; cbn [find_dname]; by rewrite Ht. }
  cbn [find_dname].
  rewrite (Hnone [] (l :: mid) eq_refl ltac:(done) :
    dnames !! canonical_of_labels (l :: mid ++ post) = None).
  rewrite IH; [by rewrite <- app_assoc|done|].
  intros a b -> Hb; by apply (Hnone (l :: a)).
Qed.

(** [dname_at dnames pre post tl]: the DNAME at [post] covers the name
    [pre ++ post] and no DNAME is closer to it. *)
Definition dname_at (dnames : redirects_map) (pre post tl : list bytes) : Prop :=
  pre ≠ [] ∧ labels_ok tl ∧
  dnames !! canonical_of_labels post = Some (labels_name tl) ∧
  ∀ a b, pre = a ++ b → a ≠ [] → b ≠ [] → dnames !! canonical_of_labels (b ++ post) = None.

Lemma covering_found dnames l rest pre target :
  find_dname dnames [l] rest = Some (pre, target) ↔
  ∃ post, l :: rest = pre ++ post ∧ pre ≠ [] ∧
    dnames !! canonical_of_labels post = Some target ∧
    ∀ a b, pre = a ++ b → a ≠ [] → b ≠ [] → dnames !! canonical_of_labels (b ++ post) = None.
Proof.
  split.
  - intros (mid & post & -> & -> & Ht & Hnone)%find_dname_Some; exists post.
    split_and!; try done; intros [|x a] b Heq Ha Hb; [done|].
    injection Heq as -> ->; by apply (Hnone a).
  - intros (post & Heq & Hne & Ht & Hnone); destruct pre as [|x mid]; [done|].
    injection Heq as -> ->; apply (find_dname_intro dnames [x] mid post); [done|].
    intros a b -> Hb; by apply (Hnone (x :: a)).
Qed.

Lemma covering_not_found dnames l rest :
  find_dname dnames [l] rest = None ↔
  ∀ pre post, l :: rest = pre ++ post → pre ≠ [] →
    dnames !! canonical_of_labels post = None.
Proof.
  split.
  - intros Hf [|x a] post Heq Hne; [done|]; injection Heq as -> ->.
    by eapply find_dname_None.
  - intros Hnone; destruct (find_dname dnames [l] rest) as [[pre t]|] eqn:Hf; [|done].
    apply covering_found in Hf as (post & Heq & Hne & Ht & _).
    by rewrite (Hnone pre post) in Ht.
Qed.

(** The result of the search, by what it finds. *)
Lemma covering_cases dnames labels :
  labels_ok labels → wf_redirects dnames →
  (rewrite_covering_dname (labels_name labels) dnames = Ok None ∧
   ∀ pre post, labels = pre ++ post → pre ≠ [] →
     dnames !! canonical_of_labels post = None) ∨
  ∃ pre post tl, labels = pre ++ post ∧ dname_at dnames pre post tl ∧
    rewrite_covering_dname (labels_name labels) dnames =
      if 254 <? labels_len pre + labels_len tl then Err NameTooLong
      else Ok (Some (labels_name (pre ++ tl))).
Proof.
  intros Hok Hwf; rewrite rewrite_covering_dname_eq by done.
  destruct labels as [|l rest].
  { left; split; [done|]; intros pre post Heq; by apply symmetry, app_eq_nil in Heq as [-> _]. }
  destruct (find_dname dnames [l] rest) as [[pre target]|] eqn:Hf; cbn [substituted].
  - right; apply covering_found in Hf as (post & Heq & Hne & Ht & Hnone).
    destruct (Hwf _ _ Ht) as (tl & Htl & ->); exists pre, post, tl.
    rewrite Heq in *; by rewrite apply_dname_eq.
  - left; split; [done|]; by apply covering_not_found.
Qed.

Lemma dname_at_result dnames pre post tl :
  labels_ok (pre ++ post) → dname_at dnames pre post tl →
  rewrite_covering_dname (labels_name (pre ++ post)) dnames =
    if 254 <? labels_len pre + labels_len tl then Err NameTooLong
    else Ok (Some (labels_name (pre ++ tl))).
Proof.
  intros Hok (Hne & Htl & Ht & Hnone); rewrite rewrite_covering_dname_eq by done.
  destruct (pre ++ post) as [|l rest] eqn:Heq; [by destruct pre|].
  rewrite (proj2 (covering_found dnames l rest pre (labels_name tl))) by (by exists post).
  cbn [substituted]; rewrite <- Heq in *; by apply apply_dname_eq.
Qed.

(** DNAME substitution.  For a well-formed name,
    [rewrite_covering_dname] replaces the suffix of the closest DNAME strictly
    above the name by the DNAME's target, when the result fits in 255 octets; it
    leaves the name alone exactly when no proper suffix of it has a DNAME; and
    otherwise it reports that the name is too long. *)
Theorem rewrite_covering_dname_exact dnames labels :
  labels_ok labels → wf_redirects dnames →
  (∀ n, rewrite_covering_dname (labels_name labels) dnames = Ok (Some n) ↔
    ∃ pre post tl, labels = pre ++ post ∧ dname_at dnames pre post tl ∧
      labels_len pre + labels_len tl ≤ 254 ∧ n = labels_name (pre ++ tl)) ∧
  (rewrite_covering_dname (labels_name labels) dnames = Ok None ↔
    ∀ pre post, labels = pre ++ post → pre ≠ [] →
      dnames !! canonical_of_labels post = None) ∧
  (∀ e, rewrite_covering_dname (labels_name labels) dnames = Err e → e = NameTooLong) ∧
  safe (rewrite_covering_dname (labels_name labels) dnames).
Proof.
  intros Hok Hwf; destruct (covering_cases dnames labels Hok Hwf)
    as [[-> Hnone]|(pre & post & tl & -> & Hd & Heq)].
  - split_and!; [|done|done|done]; intros n; split; [done|].
    intros (pre & post & tl & Heq & (Hne & _ & Ht & _) & _).
    by rewrite (Hnone pre post) in Ht.
  - split_and!.
    + intros n; split.
      * rewrite Heq; case_match; [done|]; boolp; intros [= <-]; by exists pre, post, tl.
      * intros (pre' & post' & tl' & Heq' & Hd' & Hlen & ->); rewrite Heq' in *.
        rewrite (dname_at_result dnames pre' post' tl') by done.
        by rewrite (proj2 (Z.ltb_ge _ _)).
    + rewrite Heq; destruct Hd as (Hne & _ & Ht & _).
      split; [by case_match|]; intros Hnone; by rewrite (Hnone pre post) in Ht.
    + rewrite Heq; case_match; naive_solver.
    + rewrite Heq; by case_match.
Qed.

(** [d.e], the target of the DNAME at [b]. *)
Definition example_dnames : redirects_map :=
  {[ canonical_of_labels [[98]] := labels_name [[100]; [101]] ]}.

Definition labels_okb (labels : list bytes) : bool :=
  forallb (λ l, (0 <? len l) && (len l <=? 63) && packet_okb l) labels &&
  (len (canonical_of_labels labels) <=? 255).

Lemma labels_okb_ok labels : labels_okb labels = true → labels_ok labels.
Proof.
  unfold labels_okb; intros [Hl Hlen]%andb_true_iff; boolp.
  rewrite forallb_forall in Hl; unfold labels_ok, label_ok; split_and!; [..|done];
    apply Forall_forall; intros l Hin; apply list_elem_of_In, Hl in Hin; boolp.
  - done.
  - apply packet_ok_bytes; by apply packet_okb_ok.
Qed.

Lemma example_dnames_wf : wf_redirects example_dnames.
Proof.
  apply map_Forall_singleton; exists [[100]; [101]]; split; [by apply labels_okb_ok|done].
Qed.

Lemma rewrite_covering_dname_exact_witness :
  (∀ n, rewrite_covering_dname (labels_name [[97]; [98]]) example_dnames = Ok (Some n) ↔
    ∃ pre post tl, [[97]; [98]] = pre ++ post ∧ dname_at example_dnames pre post tl ∧
      labels_len pre + labels_len tl ≤ 254 ∧ n = labels_name (pre ++ tl)) ∧
  (rewrite_covering_dname (labels_name [[97]; [98]]) example_dnames = Ok None ↔
    ∀ pre post, [[97]; [98]] = pre ++ post → pre ≠ [] →
      example_dnames !! canonical_of_labels post = None) ∧
  (∀ e, rewrite_covering_dname (labels_name [[97]; [98]]) example_dnames = Err e →
    e = NameTooLong) ∧
  safe (rewrite_covering_dname (labels_name [[97]; [98]]) example_dnames).
Proof.
  exact (rewrite_covering_dname_exact example_dnames [[97]; [98]]
    (labels_okb_ok [[97]; [98]] eq_refl) example_dnames_wf).
Defined.

(** C37: following redirections.  From a well-formed name and well-formed
    answers, [classify_redirect_chain] always returns.  It returns a
    classification exactly when following the CNAME of each name, or else the
    closest covering DNAME, visits distinct names and stops within 16
    redirections: [Direct] at the first name the answers hold a record of the
    type asked for, otherwise [Redirect] to the name with no further
    redirection, or [NoData] when the question itself has none. *)
Theorem classify_redirect_chain_exact answers n :
  wf_name n → wf_answers answers →
  safe (classify_redirect_chain n answers) ∧
  ∀ r, classify_redirect_chain n answers = Ok r ↔ redirect_chain answers n 0 ∅ r.
Proof.
  intros Hn [Ha Hd]; split.
  - eapply wp_mono; [apply redirect_chain_loop_wp; try done|done]; unfold CNAME_REDIRECTS_MAX; lia.
  - intros r; apply redirect_chain_loop_iff; [lia|unfold CNAME_REDIRECTS_MAX; lia].
Qed.

Definition example_answers : RedirectSet :=
  mk_redirects {[ canonical_of_labels [[97]; [100]; [101]] ]} ∅ example_dnames.

Lemma classify_redirect_chain_exact_witness :
  safe (classify_redirect_chain (labels_name [[97]; [98]]) example_answers) ∧
  ∀ r, classify_redirect_chain (labels_name [[97]; [98]]) example_answers = Ok r ↔
    redirect_chain example_answers (labels_name [[97]; [98]]) 0 ∅ r.
Proof.
  apply (classify_redirect_chain_exact example_answers (labels_name [[97]; [98]])).
  - exists [[97]; [98]]; split; [by apply labels_okb_ok|done].
  - split; [apply wf_redirects_empty|apply example_dnames_wf].
Defined.

(** The addresses of a name.  [resolve_address_chain] returns addresses
    exactly when the CNAME and DNAME records lead from the question, through
    distinct names and in fewer than 64 steps, to a name that is not redirected;
    it returns the addresses of that name that have the family asked for, and
    its text as the canonical name. *)
Theorem resolve_address_chain_exact name a family r :
  resolve_address_chain name a family = Ok r ↔ address_chain 64 a family name ∅ r.
Proof. apply resolve_address_chain_iff. Qed.
