(* ===== verification/RecordsFacts.v ===== *)
(** * Answers of a response: theorems

    Safety of the readers of [src/wire/records.rs], the raw records they
    return, and the round trip of reverse names. *)

From S2P Require Import Prelude Text Net Codec Names CodecFacts Packet PacketFacts.
From S2P Require Import Records RedirectFacts.

(** ** Services and pointers *)

Lemma txt_items_safe fuel p cursor next txt :
  bytes_ok p → cursor ≤ next → next - cursor < Z.of_nat fuel →
  safe (txt_items fuel p cursor next txt).
Proof.
  intros Hp; revert cursor txt; induction fuel as [|fuel IH]; intros cursor txt Hle Hf; [lia|].
  cbn [txt_items]; destruct (Z.ltb_spec cursor next); [|done].
  apply wp_bind, wp_ok_or; intros l Hl; apply wp_bind; unfold checked_end.
  apply wp_ok_or; intros c' [-> _]%checked_add_Some; apply wp_bind.
  apply wp_ok_or; intros s [-> _]%checked_add_Some; apply wp_bind, wp_ok_or.
  intros item Hitem; case_match; boolp; [|done].
  pose proof (bytes_ok_bget _ _ _ Hp Hl) as Hu; unfold is_u8 in Hu; apply IH; lia.
Qed.

Lemma srv_record_safe p r : packet_ok p → safe (srv_record p r).
Proof.
  intros Hp; unfold srv_record; case_match; [done|]; apply wp_bind.
  unfold checked_end; apply wp_ok_or; intros o _; apply wp_bind.
  eapply wp_mono; [by apply read_name_safe|]; intros [t e] _; case_match; [done|].
  do 3 (apply wp_bind; eapply wp_mono; [apply read_u16_safe|]; intros ? _); done.
Qed.

Lemma service_records_loop_safe n p o out :
  packet_ok p → safe (service_records_loop n p o out).
Proof.
  intros Hp; revert o out; induction n as [|n IH]; intros o out; [done|].
  cbn [service_records_loop]; apply wp_bind.
  eapply wp_mono; [by apply wp_strengthen, parse_record_safe|]; intros r [Hr _].
  apply parse_record_bounds in Hr as Hok; [|done]; unfold record_ok in Hok.
  case_match; [apply IH|]; case_match; [|case_match; [|apply IH]].
  - apply wp_bind; eapply wp_mono; [by apply srv_record_safe|]; intros s _; apply IH.
  - apply wp_bind; eapply wp_mono; [|intros t _; apply IH].
    apply txt_items_safe; [apply Hp|unfold len in *; lia..].
Qed.

Lemma extract_service_records_safe p : packet_ok p → safe (extract_service_records p).
Proof.
  intros Hp; unfold extract_service_records; apply wp_bind.
  eapply wp_mono; [apply header_parse_safe|]; intros h _; case_match; [done|].
  apply wp_bind; eapply wp_mono; [by apply skip_questions_safe|]; intros o _.
  by apply service_records_loop_safe.
Qed.

Lemma extract_ptr_names_safe p : packet_ok p → safe (extract_ptr_names p).
Proof.
  intros Hp; unfold extract_ptr_names; apply wp_bind.
  eapply wp_mono; [apply header_parse_safe|]; intros h _; case_match; [done|].
  apply wp_bind; eapply wp_mono; [by apply skip_questions_safe|]; intros o _.
  generalize (Z.to_nat (h_answer_count h)); intros n; revert o.
  induction n as [|n IH]; intros o; [done|]; cbn [ptr_names_loop]; apply wp_bind.
  eapply wp_mono; [by apply parse_record_safe|]; intros r _; apply wp_bind.
  eapply wp_mono with (Q := λ _, True); [|intros names _; apply wp_bind].
  { case_match; [|done]; apply wp_bind.
    eapply wp_mono; [by apply read_name_safe|]; by intros [] _. }
  eapply wp_mono; [apply IH|]; done.
Qed.

(** ** Raw records *)

Lemma canonical_of_labels_ok labels : labels_ok labels → bytes_ok (canonical_of_labels labels).
Proof.
  intros (Hl & Hb & _); apply bytes_ok_app; split.
  - apply Forall_bind; induction Hb as [|l labels Hlb _ IH]; [constructor|].
    apply Forall_cons in Hl as [Hl Hls]; constructor; [|by apply IH].
    constructor; [unfold is_u8, label_ok in *; lia|by apply to_ascii_lowercase_ok].
  - constructor; [unfold is_u8; lia|constructor].
Qed.

Lemma raw_record_parse labels t c ttl rdata raw :
  labels_ok labels → packet_ok raw →
  raw = canonical_of_labels labels ++ u16_bytes t ++ u16_bytes c ++ u32_bytes ttl ++
        u16_bytes (len rdata) ++ rdata →
  ∃ r, parse_record raw 0 = Ok r ∧ r_next_offset r = len raw ∧
    canonical_wire (r_name r) = canonical_of_labels labels ∧
    r_rr_type r = t ∧ r_class r = c ∧ r_ttl r = ttl ∧ r_rdata r = rdata.
Proof.
  intros (Hl & _ & Hlen) Hp Hraw; set (n := len (canonical_of_labels labels)).
  destruct (read_canonical_name labels [] (u16_bytes t ++ u16_bytes c ++ u32_bytes ttl ++
        u16_bytes (len rdata) ++ rdata)) as [text Hn]; [done|done|by rewrite <- Hraw|].
  cbn [app] in Hn; rewrite <- Hraw, len_nil, Z.add_0_l in Hn; fold n in Hn.
  set (r := mk_record (mk_name text (canonical_of_labels labels)) t c ttl (n + 4) (n + 10)
    rdata (n + 10 + len rdata)).
  exists r; split_and!; try done; [|rewrite Hraw; cbn; autorewrite with len; lia].
  apply parse_record_iff; [done|]; exists n; cbn; split_and!; try done.
  - apply (read_u16_within raw _ (canonical_of_labels labels) _ (u16_bytes c ++
      u32_bytes ttl ++ u16_bytes (len rdata) ++ rdata)); done.
  - apply (read_u16_within raw _ (canonical_of_labels labels ++ u16_bytes t) _
      (u32_bytes ttl ++ u16_bytes (len rdata) ++ rdata));
      [done|by rewrite Hraw, <- !app_assoc|by autorewrite with len].
  - apply (read_u32_within raw _ (canonical_of_labels labels ++ u16_bytes t ++
      u16_bytes c) _ (u16_bytes (len rdata) ++ rdata));
      [done|by rewrite Hraw, <- !app_assoc|autorewrite with len; lia].
  - apply (read_u16_within raw _ (canonical_of_labels labels ++ u16_bytes t ++
      u16_bytes c ++ u32_bytes ttl) _ rdata);
      [done|by rewrite Hraw, <- !app_assoc|autorewrite with len; lia].
  - pose proof (slice_app_exact (canonical_of_labels labels ++ u16_bytes t ++ u16_bytes c ++
      u32_bytes ttl ++ u16_bytes (len rdata)) rdata []) as Hs.
    rewrite app_nil_r in Hs; replace (n + 10) with (len (canonical_of_labels labels ++
      u16_bytes t ++ u16_bytes c ++ u32_bytes ttl ++ u16_bytes (len rdata)))
      by (autorewrite with len; lia).
    by rewrite Hraw, <- Hs, <- !app_assoc.
Qed.

(** A raw record is the record without compression: parsing it alone gives the
    owner, type, class, TTL and data of the record it was made from. *)
Lemma raw_record_roundtrip p o r :
  packet_ok p → parse_record p o = Ok r →
  ∃ raw r', raw_record r = Ok raw ∧ parse_record raw 0 = Ok r' ∧
    r_next_offset r' = len raw ∧
    canonical_wire (r_name r') = canonical_wire (r_name r) ∧
    r_rr_type r' = r_rr_type r ∧ r_class r' = r_class r ∧
    r_ttl r' = r_ttl r ∧ r_rdata r' = r_rdata r.
Proof.
  intros Hp Hr; apply parse_record_wf in Hr as Hwf; [|done].
  apply parse_record_bounds in Hr as Hok; [|done].
  destruct Hwf as (labels & Hlab & Hname); unfold record_ok in Hok.
  destruct Hok as (_ & _ & _ & _ & _ & _ & Hs & Ht & Hc & Httl & Hlen & _).
  pose proof (bytes_ok_slice _ _ _ _ (packet_ok_bytes _ Hp) Hs) as Hrb.
  unfold raw_record; rewrite (proj2 (Z.leb_le _ _)) by (unfold is_u16, u16_max in *; lia).
  cbn [mbind outcome_bind]; rewrite Hname; cbn [labels_name canonical_wire].
  eexists; match goal with |- ∃ r', Ok ?raw = _ ∧ _ => set (w := raw) end.
  assert (packet_ok w) as Hw.
  { split.
    - unfold w; rewrite !bytes_ok_app; split_and!;
        auto using canonical_of_labels_ok, u16_bytes_ok, u32_bytes_ok.
    - destruct Hlab as (_ & _ & ?); unfold w, is_u16 in *; autorewrite with len; lia. }
  destruct (raw_record_parse labels (r_rr_type r) (r_class r) (r_ttl r) (r_rdata r) w)
    as (r' & ?); [done..|]; by exists r'.
Qed.

(** ** Reverse names *)

(** A piece of a reverse name: it has no dot and no upper-case letter. *)
Definition plain_piece (s : str) : bool :=
  negb (bool_decide (dot ∈ s)) && bool_decide (to_ascii_lowercase s = s).

Lemma show_octet b :
  is_u8 b → plain_piece (show_unsigned b) = true ∧
  parse_unsigned u8_max (show_unsigned b) = Some b.
Proof.
  intros Hb.
  pose proof (u8_forall (λ b, plain_piece (show_unsigned b) &&
    bool_decide (parse_unsigned u8_max (show_unsigned b) = Some b))) as H.
  specialize (H ltac:(vm_compute; reflexivity) b Hb); cbn beta in H; by boolp.
Qed.

Lemma show_nibbles b :
  is_u8 b →
  plain_piece (hex_digit (Z.land b 0x0f)) = true ∧
  plain_piece (hex_digit (Z.shiftr b 4)) = true ∧
  parse_hex_u8 (hex_digit (Z.land b 0x0f)) = Some (Z.land b 0x0f) ∧
  parse_hex_u8 (hex_digit (Z.shiftr b 4)) = Some (Z.shiftr b 4) ∧
  (0x0f <? Z.land b 0x0f) = false ∧ (0x0f <? Z.shiftr b 4) = false ∧
  Z.lor (Z.land b 0x0f) (Z.shiftl (Z.shiftr b 4) 4) = b.
Proof.
  intros Hb.
  pose proof (u8_forall (λ b, plain_piece (hex_digit (Z.land b 0x0f)) &&
    (plain_piece (hex_digit (Z.shiftr b 4)) &&
    (bool_decide (parse_hex_u8 (hex_digit (Z.land b 0x0f)) = Some (Z.land b 0x0f)) &&
    (bool_decide (parse_hex_u8 (hex_digit (Z.shiftr b 4)) = Some (Z.shiftr b 4)) &&
    (negb (0x0f <? Z.land b 0x0f) && (negb (0x0f <? Z.shiftr b 4) &&
    (Z.lor (Z.land b 0x0f) (Z.shiftl (Z.shiftr b 4) 4) =? b)))))))) as H.
  specialize (H ltac:(vm_compute; reflexivity) b Hb); cbn beta in H.
  rewrite !andb_true_iff, !bool_decide_eq_true, !negb_true_iff, Z.eqb_eq in H; tauto.
Qed.

Lemma plain_pieces_lower pieces :
  Forall (λ s, plain_piece s = true) pieces →
  to_ascii_lowercase (join_with [dot] pieces) = join_with [dot] pieces.
Proof.
  induction 1 as [|s pieces Hs Hall IH]; [done|].
  unfold plain_piece in Hs; boolp; destruct pieces as [|t pieces]; [done|].
  change (join_with [dot] (s :: t :: pieces))
    with (s ++ [dot] ++ join_with [dot] (t :: pieces)).
  by rewrite !to_ascii_lowercase_app, IH; f_equal.
Qed.

Lemma plain_pieces_split pieces :
  pieces ≠ [] → Forall (λ s, plain_piece s = true) pieces →
  split_on dot (join_with [dot] pieces) = pieces.
Proof.
  intros Hne Hall; apply split_join; [done|]; eapply Forall_impl; [exact Hall|].
  intros s Hs; unfold plain_piece in Hs; by boolp.
Qed.

(** The lower-case form of a name that ends in a zone of the reverse tree. *)
Lemma reverse_lower pieces zone :
  Forall (λ s, plain_piece s = true) pieces →
  last zone ≠ Some dot → zone ≠ [] → to_ascii_lowercase zone = zone →
  to_ascii_lowercase (trim_end_matches dot (join_with [dot] pieces ++ zone)) =
    join_with [dot] pieces ++ zone.
Proof.
  intros Hp Hz Hne Hl; rewrite trim_end_matches_id.
  - by rewrite to_ascii_lowercase_app, plain_pieces_lower, Hl.
  - rewrite last_app; destruct (last zone) eqn:Hlast; [congruence|].
    by apply last_None in Hlast.
Qed.

Lemma strip_suffix_app s suf : strip_suffix (s ++ suf) suf = Some s.
Proof. by apply strip_suffix_Some. Qed.

Lemma strip_in_addr_ip6 s : strip_suffix (s ++ lit ".ip6.arpa") (lit ".in-addr.arpa") = None.
Proof. unfold strip_suffix; by rewrite reverse_app. Qed.

Lemma collect_results_fmap {A B} (f : A → option B) (g : B → A) l :
  Forall (λ y, f (g y) = Some y) l → collect_results f (g <$> l) = Some l.
Proof.
  induction 1 as [|y l Hy _ IH]; [done|]; rewrite fmap_cons; cbn [collect_results].
  by rewrite Hy; cbn; rewrite IH.
Qed.

Lemma reverse_name_v4 octets :
  bytes_ok octets → len octets = 4 →
  parse_reverse_name (reverse_name (V4 octets)) = Some (V4 octets).
Proof.
  intros Hb Hlen; destruct octets as [|a [|b [|c [|d [|]]]]]; try (by unfold len in Hlen).
  2: { unfold len in Hlen; cbn in Hlen; lia. }
  assert (bytes_ok [d; c; b; a]) as Hrev by (unfold bytes_ok in *; rewrite !Forall_cons in *; tauto).
  assert (Forall (λ s, plain_piece s = true) (show_unsigned <$> [d; c; b; a])) as Hp.
  { rewrite Forall_fmap; eapply Forall_impl; [exact Hrev|]; intros x Hx; by apply show_octet. }
  assert (reverse_name (V4 [a; b; c; d]) =
    join_with [dot] (show_unsigned <$> [d; c; b; a]) ++ lit ".in-addr.arpa") as ->.
  { cbn [fmap list_fmap join_with]; by rewrite <- !app_assoc. }
  unfold parse_reverse_name; rewrite reverse_lower by done.
  rewrite strip_suffix_app, plain_pieces_split by done.
  rewrite (collect_results_fmap (parse_unsigned u8_max) show_unsigned [d; c; b; a]); [done|].
  eapply Forall_impl; [exact Hrev|]; intros x Hx; by apply show_octet.
Qed.

Definition nibbles_of (octets : bytes) : list Z :=
  reverse octets ≫= λ b, [Z.land b 0x0f; Z.shiftr b 4].

Lemma nibbles_Forall (P : Z → Prop) octets :
  bytes_ok octets → (∀ b, is_u8 b → P (Z.land b 0x0f) ∧ P (Z.shiftr b 4)) →
  Forall P (nibbles_of octets).
Proof.
  intros Hb HP; apply Forall_bind, Forall_reverse.
  eapply Forall_impl; [exact Hb|]; intros b Hu; destruct (HP b Hu); by repeat constructor.
Qed.

Lemma reverse_name_v6 octets :
  bytes_ok octets → len octets = 16 →
  parse_reverse_name (reverse_name (V6 octets)) = Some (V6 octets).
Proof.
  intros Hb Hlen; set (ns := nibbles_of octets).
  assert (Forall (λ s, plain_piece s = true) (hex_digit <$> ns)) as Hp.
  { rewrite Forall_fmap; apply nibbles_Forall; [done|]; intros b Hu; cbn.
    by pose proof (show_nibbles b Hu); tauto. }
  assert (Forall (λ n, parse_hex_u8 (hex_digit n) = Some n) ns) as Hparse.
  { apply nibbles_Forall; [done|]; intros b Hu; cbn; by pose proof (show_nibbles b Hu); tauto. }
  assert (existsb (λ n, 0x0f <? n) ns = false) as Hsmall.
  { apply not_true_iff_false; intros (n & Hin & Hn)%existsb_exists.
    assert (Forall (λ n, (0x0f <? n) = false) ns) as Hall.
    { apply nibbles_Forall; [done|]; intros b Hu; cbn; by pose proof (show_nibbles b Hu); tauto. }
    rewrite Forall_forall in Hall; rewrite Hall in Hn; [done|by apply list_elem_of_In]. }
  assert (length octets = 16%nat) as Hl by (unfold len in Hlen; lia).
  do 16 (destruct octets as [|? octets]; [done|]); destruct octets; [|done].
  assert (reverse_name (V6 [z; z0; z1; z2; z3; z4; z5; z6; z7; z8; z9; z10; z11; z12; z13; z14])
    = join_with [dot] (hex_digit <$> ns) ++ lit ".ip6.arpa") as -> by reflexivity.
  unfold parse_reverse_name; rewrite reverse_lower by done.
  rewrite strip_in_addr_ip6, strip_suffix_app, plain_pieces_split by done.
  rewrite (collect_results_fmap parse_hex_u8 hex_digit ns Hparse).
  cbn [mbind option_bind]; rewrite Hsmall.
  change (negb (len ns =? 32) || false) with false; cbv iota.
  unfold bytes_ok in Hb; rewrite !Forall_cons in Hb; destruct_and! Hb.
  do 2 f_equal; cbn [ns nibbles_of].
  repeat match goal with H : is_u8 ?b |- _ =>
    destruct (show_nibbles b H) as (_ & _ & _ & _ & _ & _ & ?); clear H end.
  cbn -[Z.land Z.shiftr Z.shiftl Z.lor]; congruence.
Qed.

(** ** Properties *)

Lemma answer_records_loop_Ok n p o rs stop :
  packet_ok p → parse_records n p o = Ok (rs, stop) →
  ∃ out, answer_records_loop n p o = Ok out ∧
    Forall2 (λ r a, a_name a = r_name r ∧ a_rr_type a = r_rr_type r ∧
      a_class a = r_class r ∧ a_ttl a = r_ttl r ∧ raw_record r = Ok (a_raw a)) rs out.
Proof.
  intros Hp; revert o rs; induction n as [|n IH]; intros o rs H; cbn in *; inv_ok; simplify_eq.
  { exists []; split; [done|constructor]. }
  destruct (raw_record_roundtrip p o a Hp H0) as (raw & _ & Hraw & _).
  destruct (IH _ _ H1) as (out & Hout & Hall).
  eexists; rewrite H0; cbn; rewrite Hraw; cbn; rewrite Hout; split; [done|].
  by constructor.
Qed.

(** The entries are those of the answer section, each with its raw form. *)
Lemma extract_answers_of p h qs rs stop :
  packet_ok p → parse_sections p = Ok (h, qs, rs, stop) → is_response h = true →
  ∃ out, extract_answer_records p = Ok out ∧
    Forall2 (λ r a, a_name a = r_name r ∧ a_rr_type a = r_rr_type r ∧ a_class a = r_class r ∧
      a_ttl a = r_ttl r ∧ raw_record r = Ok (a_raw a)) (answer_section h rs) out ∧
    Forall (λ r, ∃ o, parse_record p o = Ok r) (answer_section h rs).
Proof.
  intros Hp Hs Hr; unfold parse_sections in Hs.
  apply bind_Ok in Hs as (h' & Hh & Hs); apply bind_Ok in Hs as ([qs' o] & Hq & Hs).
  apply bind_Ok in Hs as ([rs' o'] & Hrs & Hs); simplify_eq.
  apply (header_parse_ok p) in Hh as Hok; [|apply Hp].
  replace (Z.to_nat (total_records h)) with (Z.to_nat (h_answer_count h) +
    Z.to_nat (h_authority_count h + h_additional_count h))%nat in Hrs
    by (unfold total_records; destruct Hok as (_ & _ & _ & ? & ? & ?); unfold is_u16 in *; lia).
  apply parse_records_app in Hrs as (rs1 & o1 & rs2 & Hrs1 & _ & ->).
  apply parse_records_at in Hrs1 as Hlen; [|done]; destruct Hlen as [Hlen _].
  unfold answer_section; rewrite take_app_length' by done.
  destruct (answer_records_loop_Ok _ _ _ _ _ Hp Hrs1) as (out & Hout & Hall).
  exists out; split_and!; [|done|by eapply parse_records_each].
  unfold extract_answer_records; rewrite Hh; cbn [mbind outcome_bind]; rewrite Hr.
  cbn [negb]; rewrite (skip_questions_eq _ _ _ _ _ Hq); by cbn [mbind outcome_bind].
Qed.

(** Raw answer records are faithful copies.  For a response that parses,
    [extract_answer_records] returns one entry per record of the answer
    section, in order; the raw form of each parses on its own, to its end, as a
    record with the same owner in canonical form, type, class, TTL and data. *)
Theorem answer_records_faithful p h qs rs stop :
  packet_ok p → parse_sections p = Ok (h, qs, rs, stop) → is_response h = true →
  ∃ out, extract_answer_records p = Ok out ∧
    Forall2 (λ r a, a_name a = r_name r ∧ a_rr_type a = r_rr_type r ∧
      a_class a = r_class r ∧ a_ttl a = r_ttl r ∧
      ∃ r', parse_record (a_raw a) 0 = Ok r' ∧ r_next_offset r' = len (a_raw a) ∧
        canonical_wire (r_name r') = canonical_wire (r_name r) ∧
        r_rr_type r' = r_rr_type r ∧ r_class r' = r_class r ∧
        r_ttl r' = r_ttl r ∧ r_rdata r' = r_rdata r) (answer_section h rs) out.
Proof.
  intros Hp Hs Hr; destruct (extract_answers_of p h qs rs stop Hp Hs Hr) as (out & Hout & Hall & He).
  exists out; split; [done|]; clear -Hp Hall He.
  induction Hall as [|r a rs1 out (? & ? & ? & ? & Hraw) _ IH]; [constructor|].
  apply Forall_cons in He as [[o0 Hr0] He]; constructor; [|by apply IH].
  destruct (raw_record_roundtrip p o0 r Hp Hr0) as (raw & r' & Hraw' & ?).
  assert (raw = a_raw a) as -> by congruence.
  split_and!; try done; by exists r'.
Qed.

Lemma answer_records_faithful_witness :
  ∃ out, extract_answer_records example_response = Ok out ∧
    Forall2 (λ r a, a_name a = r_name r ∧ a_rr_type a = r_rr_type r ∧
      a_class a = r_class r ∧ a_ttl a = r_ttl r ∧
      ∃ r', parse_record (a_raw a) 0 = Ok r' ∧ r_next_offset r' = len (a_raw a) ∧
        canonical_wire (r_name r') = canonical_wire (r_name r) ∧
        r_rr_type r' = r_rr_type r ∧ r_class r' = r_class r ∧
        r_ttl r' = r_ttl r ∧ r_rdata r' = r_rdata r)
      (answer_section example_response_header [example_record]) out.
Proof.
  exact (answer_records_faithful example_response _ _ _ _
    (packet_okb_ok example_response eq_refl) example_response_sections eq_refl).
Defined.

(** Reverse names.  The name [reverse_name] gives an IPv4 or IPv6 address in
    [in-addr.arpa] or [ip6.arpa] is parsed back to that address. *)
Theorem reverse_name_roundtrip a :
  ip_ok a → parse_reverse_name (reverse_name a) = Some a.
Proof. destruct a; intros [? ?]; [by apply reverse_name_v4|by apply reverse_name_v6]. Qed.

Lemma reverse_name_roundtrip_witness :
  ip_ok (V4 [192; 0; 2; 55]) ∧
  parse_reverse_name (reverse_name (V4 [192; 0; 2; 55])) = Some (V4 [192; 0; 2; 55]).
Proof.
  assert (ip_ok (V4 [192; 0; 2; 55])) as H.
  { split; [|done]; exact (packet_ok_bytes _ (packet_okb_ok [192; 0; 2; 55] eq_refl)). }
  split; [exact H|]; exact (reverse_name_roundtrip (V4 [192; 0; 2; 55]) H).
Defined.
