(* ===== verification/WireDnssec.v ===== *)
(** * DNSSEC records

    Models [src/wire/dnssec.rs] and [src/wire/dnssec_records.rs]: the data of
    DNSKEY, DS, RRSIG, NSEC, NSEC3 and NSEC3PARAM records, key tags, type
    bitmaps, and the check that the records of the root zone are signed. *)

From S2P Require Import Prelude Text Net Codec Records.

Definition TYPE_DS : Z := 43.
Definition TYPE_NSEC : Z := 47.
Definition TYPE_DNSKEY : Z := 48.
Definition TYPE_NSEC3 : Z := 50.
Definition TYPE_NSEC3PARAM : Z := 51.

Definition RRSIG_FIXED_FIELDS_LEN : Z := 18.
Definition RRSIG_MINIMUM_RDATA_LEN : Z := RRSIG_FIXED_FIELDS_LEN + 2.

Record DnskeyRecord : Type := mk_dnskey {
  dnskey_flags : Z;
  dnskey_protocol : Z;
  dnskey_algorithm : Z;
  dnskey_public_key : bytes;
}.

Record DsRecord : Type := mk_ds {
  ds_key_tag : Z;
  ds_algorithm : Z;
  ds_digest_type : Z;
  ds_digest : bytes;
}.

Record RrsigRecord : Type := mk_rrsig {
  rrsig_type_covered : Z;
  rrsig_algorithm : Z;
  rrsig_labels : Z;
  rrsig_original_ttl : Z;
  rrsig_expiration : Z;
  rrsig_inception : Z;
  rrsig_key_tag : Z;
  rrsig_signer : DnsName;
  rrsig_signature : bytes;
}.

Record NsecRecord : Type := mk_nsec {
  nsec_next_domain : DnsName;
  nsec_types : list Z;
}.

Record Nsec3Record : Type := mk_nsec3 {
  nsec3_hash_algorithm : Z;
  nsec3_flags : Z;
  nsec3_iterations : Z;
  nsec3_salt : bytes;
  nsec3_next_hashed_owner : bytes;
  nsec3_types : list Z;
}.

Record Nsec3ParamRecord : Type := mk_nsec3param {
  nsec3p_hash_algorithm : Z;
  nsec3p_flags : Z;
  nsec3p_iterations : Z;
  nsec3p_salt : bytes;
}.

(** [data[i]], [data[a..]] and [u16::from_be_bytes([data[i], data[i + 1]])]:
    out of range is a panic. *)
Definition index (data : bytes) (i : Z) : wres Z := or_panic (bget data i).
Definition slice_from (data : bytes) (a : Z) : wres bytes :=
  or_panic (slice data a (len data)).
Definition index_u16 (data : bytes) (i : Z) : wres Z :=
  a ← index data i; b ← index data (i + 1); Ok (be16 a b).

(** [u32::from_be_bytes(data[i..i + 4].try_into()?)]. *)
Definition index_u32 (data : bytes) (i : Z) : wres Z :=
  bs ← or_panic (slice data i (i + 4));
  match bs with
  | [a; b; c; d] => Ok (be32 a b c d)
  | _ => Err InvalidRecord
  end.

Definition parse_dnskey (record : ResourceRecord) : wres DnskeyRecord :=
  let rdata := r_rdata record in
  if negb (r_rr_type record =? TYPE_DNSKEY) || (len rdata <? 4)
  then Err InvalidRecord
  else
    protocol ← index rdata 2;
    public_key ← slice_from rdata 4;
    if negb (protocol =? 3) || bool_decide (public_key = []) then Err InvalidRecord
    else
      flags ← index_u16 rdata 0;
      algorithm ← index rdata 3;
      Ok (mk_dnskey flags protocol algorithm public_key).

Definition parse_ds (record : ResourceRecord) : wres DsRecord :=
  let rdata := r_rdata record in
  if negb (r_rr_type record =? TYPE_DS) || (len rdata <? 5) then Err InvalidRecord
  else
    digest_type ← index rdata 3;
    digest ← slice_from rdata 4;
    let expected :=
      if digest_type =? 1 then 20
      else if digest_type =? 2 then 32
      else if digest_type =? 4 then 48
      else len digest in
    if bool_decide (digest = []) || negb (len digest =? expected)
    then Err InvalidRecord
    else
      key_tag ← index_u16 rdata 0;
      algorithm ← index rdata 2;
      Ok (mk_ds key_tag algorithm digest_type digest).

Definition parse_rrsig (packet : bytes) (record : ResourceRecord) :
    wres RrsigRecord :=
  let rdata := r_rdata record in
  if negb (r_rr_type record =? TYPE_RRSIG) || (len rdata <? RRSIG_MINIMUM_RDATA_LEN)
  then Err InvalidRecord
  else
    signer_offset ← checked_end (r_rdata_offset record) RRSIG_FIXED_FIELDS_LEN;
    '(signer, signature_offset) ← read_name packet signer_offset;
    if r_next_offset record <=? signature_offset then Err InvalidRecord
    else
      signature ←
        ok_or (slice packet signature_offset (r_next_offset record)) InvalidRecord;
      if bool_decide (signature = []) then Err InvalidRecord
      else
        type_covered ← index_u16 rdata 0;
        algorithm ← index rdata 2;
        labels ← index rdata 3;
        original_ttl ← index_u32 rdata 4;
        expiration ← index_u32 rdata 8;
        inception ← index_u32 rdata 12;
        key_tag ← index_u16 rdata 16;
        Ok (mk_rrsig type_covered algorithm labels original_ttl expiration inception
              key_tag signer signature).

(** The bits set in one octet of a window, as record types. *)
Definition octet_types (window octet byte : Z) : list Z :=
  (λ bit, window * 256 + (octet * 8 + bit)) <$>
    List.filter (λ bit, negb (Z.land byte (Z.shiftr 0x80 bit) =? 0))
      (Z.of_nat <$> seq 0 8).

Fixpoint window_types (window octet : Z) (bs : bytes) : list Z :=
  match bs with
  | [] => []
  | byte :: bs => octet_types window octet byte ++ window_types window (octet + 1) bs
  end.

(** [while offset < bitmap.len()]: each round consumes three octets or more. *)
Fixpoint type_bitmap_loop (fuel : nat) (bitmap : bytes) (offset : Z)
    (previous_window : option Z) (types : list Z) : wres (list Z) :=
  match fuel with
  | O => Diverge
  | S fuel =>
      if offset <? len bitmap then
        window ← ok_or (bget bitmap offset) InvalidRecord;
        length ← ok_or (bget bitmap (offset + 1)) InvalidRecord;
        if (length =? 0) || (32 <? length) ||
           match previous_window with
           | Some previous => window <=? previous
           | None => false
           end
        then Err InvalidRecord
        else
          let start := offset + 2 in
          stop ← ok_or (checked_add usize_max start length) InvalidRecord;
          bs ← ok_or (slice bitmap start stop) InvalidRecord;
          if bool_decide (last bs = Some 0) then Err InvalidRecord
          else
            type_bitmap_loop fuel bitmap stop (Some window)
              (types ++ window_types window 0 bs)
      else Ok types
  end.

Definition parse_type_bitmap (bitmap : bytes) : wres (list Z) :=
  types ← type_bitmap_loop (S (length bitmap)) bitmap 0 None [];
  if bool_decide (types = []) then Err InvalidRecord else Ok types.

Definition parse_nsec (packet : bytes) (record : ResourceRecord) : wres NsecRecord :=
  if negb (r_rr_type record =? TYPE_NSEC) || bool_decide (r_rdata record = [])
  then Err InvalidRecord
  else
    '(next_domain, bitmap_offset) ← read_name packet (r_rdata_offset record);
    if r_next_offset record <=? bitmap_offset then Err InvalidRecord
    else
      bitmap ← ok_or (slice packet bitmap_offset (r_next_offset record)) InvalidRecord;
      types ← parse_type_bitmap bitmap;
      Ok (mk_nsec next_domain types).

Definition parse_nsec3 (record : ResourceRecord) : wres Nsec3Record :=
  let rdata := r_rdata record in
  if negb (r_rr_type record =? TYPE_NSEC3) || (len rdata <? 6) then Err InvalidRecord
  else
    salt_len ← index rdata 4;
    salt_end ← ok_or (checked_add usize_max 5 salt_len) InvalidRecord;
    hash_len ← ok_or (bget rdata salt_end) InvalidRecord;
    let hash_start := salt_end + 1 in
    hash_end ← ok_or (checked_add usize_max hash_start hash_len) InvalidRecord;
    if (hash_len =? 0) || (len rdata <=? hash_end) then Err InvalidRecord
    else
      hash_algorithm ← index rdata 0;
      flags ← index rdata 1;
      iterations ← index_u16 rdata 2;
      salt ← or_panic (slice rdata 5 salt_end);
      next_hashed_owner ← or_panic (slice rdata hash_start hash_end);
      bitmap ← slice_from rdata hash_end;
      types ← parse_type_bitmap bitmap;
      Ok (mk_nsec3 hash_algorithm flags iterations salt next_hashed_owner types).

Definition parse_nsec3param (record : ResourceRecord) : wres Nsec3ParamRecord :=
  let rdata := r_rdata record in
  if negb (r_rr_type record =? TYPE_NSEC3PARAM) || (len rdata <? 5)
  then Err InvalidRecord
  else
    salt_len ← index rdata 4;
    salt_end ← ok_or (checked_add usize_max 5 salt_len) InvalidRecord;
    if negb (salt_end =? len rdata) then Err InvalidRecord
    else
      hash_algorithm ← index rdata 0;
      flags ← index rdata 1;
      iterations ← index_u16 rdata 2;
      salt ← or_panic (slice rdata 5 salt_end);
      Ok (mk_nsec3param hash_algorithm flags iterations salt).

Definition u32_wrapping_add (a b : Z) : Z := (a + b) mod 4294967296.

(** [for (index, byte) in record.rdata.iter().copied().enumerate()]. *)
Fixpoint key_tag_sum (even : bool) (data : bytes) (accumulator : Z) : Z :=
  match data with
  | [] => accumulator
  | byte :: data =>
      key_tag_sum (negb even) data
        (u32_wrapping_add accumulator (if even then Z.shiftl byte 8 else byte))
  end.

Definition dnskey_key_tag (record : ResourceRecord) : wres Z :=
  let rdata := r_rdata record in
  if negb (r_rr_type record =? TYPE_DNSKEY) || (len rdata <? 4)
  then Err InvalidRecord
  else
    algorithm ← index rdata 3;
    if algorithm =? 1 then
      if len rdata <? 4 then Err InvalidRecord
      else
        a ← index rdata (len rdata - 3);
        b ← index rdata (len rdata - 2);
        Ok (be16 a b)
    else
      let accumulator := key_tag_sum true rdata 0 in
      let accumulator :=
        u32_wrapping_add accumulator (Z.land (Z.shiftr accumulator 16) 0xffff) in
      Ok (Z.land accumulator 0xffff).

(** ** Signatures over the root zone *)

(** [for index in 0..header.total_records()]; the result is the offset after
    the records, the types that need a signature and those that have one. *)
Fixpoint root_records_loop (n : nat) (index signed_record_count : Z)
    (packet : bytes) (offset : Z) (required covered : gset Z) :
    wres (Z * gset Z * gset Z) :=
  match n with
  | O => Ok (offset, required, covered)
  | S n =>
      record ← parse_record packet offset;
      let offset := r_next_offset record in
      if negb (r_class record =? CLASS_IN) ||
         bool_decide (canonical_wire (r_name record) ≠ [0])
      then root_records_loop n (index + 1) signed_record_count packet offset
             required covered
      else if r_rr_type record =? TYPE_RRSIG then
        if len (r_rdata record) <? RRSIG_MINIMUM_RDATA_LEN then Err InvalidRecord
        else
          type_covered ← index_u16 (r_rdata record) 0;
          signer_offset ← checked_end (r_rdata_offset record) RRSIG_FIXED_FIELDS_LEN;
          '(signer, signature_offset) ← read_name packet signer_offset;
          if bool_decide (canonical_wire signer ≠ [0]) ||
             (r_next_offset record <=? signature_offset)
          then Err InvalidRecord
          else
            root_records_loop n (index + 1) signed_record_count packet offset
              required ({[ type_covered ]} ∪ covered)
      else if (index <? signed_record_count) &&
              negb ((r_rr_type record =? TYPE_OPT) || (r_rr_type record =? TYPE_TSIG))
      then root_records_loop n (index + 1) signed_record_count packet offset
             ({[ r_rr_type record ]} ∪ required) covered
      else root_records_loop n (index + 1) signed_record_count packet offset
             required covered
  end.

Definition root_rrsig_missing (packet : bytes) : wres bool :=
  header ← header_parse packet;
  if negb (is_response header) then Err WrongDirection
  else
    offset ← skip_questions (Z.to_nat (h_question_count header)) packet DNS_HEADER_LEN;
    let signed_record_count := h_answer_count header + h_authority_count header in
    '(offset, required, covered) ←
      root_records_loop (Z.to_nat (total_records header)) 0 signed_record_count packet
        offset ∅ ∅;
    if negb (offset =? len packet) then Err TrailingData
    else Ok (negb (bool_decide (required ⊆ covered))).
