(* ===== verification/WireDnssecFacts.v ===== *)
(** * DNSSEC records: theorems

    The readers of [src/wire/dnssec_records.rs] never index out of range, a
    type bitmap is read as the strictly increasing list of the types whose bit
    is set, the key tag is the sum of RFC 4034, and [root_rrsig_missing]
    answers whether some record set of the root has no signature. *)

From S2P Require Import Prelude Text Net Codec Names CodecFacts Packet PacketFacts.
From S2P Require Import LocalFacts Records Redirects RedirectFacts RecordsFacts WireDnssec.

(** ** Safety *)

Lemma index_wp data i (Q : Z → Prop) :
  0 ≤ i < len data → (∀ b, bget data i = Some b → Q b) → wp (index data i) Q.
Proof.
  intros Hi HQ; destruct (bget_is_Some data i Hi) as [b Hb].
  unfold index; rewrite Hb; cbn; by apply HQ.
Qed.

Lemma slice_from_wp data a (Q : bytes → Prop) :
  0 ≤ a ≤ len data → (∀ v, slice data a (len data) = Some v → Q v) →
  wp (slice_from data a) Q.
Proof.
  intros Ha HQ; destruct (slice_is_Some data a (len data)) as [v Hv]; [lia..|].
  unfold slice_from; rewrite Hv; cbn; by apply HQ.
Qed.

Lemma or_panic_slice_wp (data : bytes) a b (Q : bytes → Prop) :
  0 ≤ a ≤ b → b ≤ len data → (∀ v, slice data a b = Some v → Q v) →
  wp (@or_panic WireError _ (slice data a b)) Q.
Proof.
  intros Ha Hb HQ; destruct (slice_is_Some data a b) as [v Hv]; [lia..|].
  rewrite Hv; cbn; by apply HQ.
Qed.

Lemma index_u16_wp data i :
  0 ≤ i → i + 1 < len data → wp (index_u16 data i) (λ _, True).
Proof.
  intros; unfold index_u16; apply wp_bind, index_wp; [lia|]; intros.
  apply wp_bind, index_wp; [lia|]; done.
Qed.

Lemma index_u32_wp data i :
  0 ≤ i → i + 4 ≤ len data → wp (index_u32 data i) (λ _, True).
Proof.
  intros; unfold index_u32; apply wp_bind, or_panic_slice_wp; [lia..|].
  intros; by repeat case_match.
Qed.

Ltac wp_index :=
  repeat (apply wp_bind;
          first [apply index_wp; [lia|]; intros ? ?
                |apply slice_from_wp; [lia|]; intros ? ?
                |eapply wp_mono; [apply index_u16_wp; lia|]; intros ? _
                |eapply wp_mono; [apply index_u32_wp; lia|]; intros ? _]).

Lemma parse_dnskey_safe r : safe (parse_dnskey r).
Proof.
  unfold parse_dnskey; case_match; [done|]; boolp.
  wp_index; case_match; [done|]; wp_index; done.
Qed.

Lemma parse_ds_safe r : safe (parse_ds r).
Proof.
  unfold parse_ds; case_match; [done|]; boolp.
  wp_index; case_match; [done|]; wp_index; done.
Qed.

Lemma parse_rrsig_safe p r : packet_ok p → safe (parse_rrsig p r).
Proof.
  intros Hp; unfold parse_rrsig, RRSIG_MINIMUM_RDATA_LEN, RRSIG_FIXED_FIELDS_LEN.
  case_match; [done|]; boolp; apply wp_bind; unfold checked_end.
  apply wp_ok_or; intros o _; apply wp_bind.
  eapply wp_mono; [by apply read_name_safe|]; intros [signer so] _; case_match; [done|].
  apply wp_bind, wp_ok_or; intros sig _; case_match; [done|]; wp_index; done.
Qed.

Lemma type_bitmap_loop_safe fuel bitmap offset prev types :
  bytes_ok bitmap → offset ≤ len bitmap → len bitmap - offset < Z.of_nat fuel →
  safe (type_bitmap_loop fuel bitmap offset prev types).
Proof.
  intros Hb; revert offset prev types; induction fuel as [|fuel IH];
    intros offset prev types Hle Hf; [lia|]; cbn [type_bitmap_loop].
  wp_if; [|done]; boolp; apply wp_bind, wp_ok_or; intros w Hw.
  apply wp_bind, wp_ok_or; intros l Hl; wp_if; [done|]; boolp.
  apply wp_bind, wp_ok_or; intros stop [-> _]%checked_add_Some; apply wp_bind, wp_ok_or.
  intros bs Hbs; wp_if; [done|]; apply slice_Some in Hbs as ?.
  apply IH; lia.
Qed.

Lemma parse_type_bitmap_safe bitmap : bytes_ok bitmap → safe (parse_type_bitmap bitmap).
Proof.
  intros Hb; unfold parse_type_bitmap; apply wp_bind.
  eapply wp_mono; [apply type_bitmap_loop_safe; [done|apply len_nonneg|unfold len; lia]|].
  intros types _; by case_match.
Qed.

Lemma parse_nsec_safe p r : packet_ok p → safe (parse_nsec p r).
Proof.
  intros Hp; unfold parse_nsec; case_match; [done|]; apply wp_bind.
  eapply wp_mono; [by apply read_name_safe|]; intros [n o] _; case_match; [done|].
  apply wp_bind, wp_ok_or; intros bitmap Hs; apply wp_bind.
  eapply wp_mono; [|done]; apply parse_type_bitmap_safe.
  eapply bytes_ok_slice; [apply Hp|done].
Qed.

Lemma parse_nsec3_safe r : bytes_ok (r_rdata r) → safe (parse_nsec3 r).
Proof.
  intros Hb; unfold parse_nsec3; case_match; [done|]; boolp.
  apply wp_bind, index_wp; [lia|]; intros sl Hsl.
  apply wp_bind, wp_ok_or; intros se [-> _]%checked_add_Some.
  apply wp_bind, wp_ok_or; intros hl Hhl.
  apply wp_bind, wp_ok_or; intros he [-> _]%checked_add_Some; case_match; [done|]; boolp.
  apply (bytes_ok_bget _ _ _ Hb) in Hsl as ?; apply (bytes_ok_bget _ _ _ Hb) in Hhl as ?.
  unfold is_u8 in *; wp_index.
  apply wp_bind, or_panic_slice_wp; [lia..|]; intros salt _.
  apply wp_bind, or_panic_slice_wp; [lia..|]; intros owner _.
  wp_index; apply wp_bind; eapply wp_mono; [|done]; apply parse_type_bitmap_safe.
  by eapply bytes_ok_slice.
Qed.

Lemma parse_nsec3param_safe r : bytes_ok (r_rdata r) → safe (parse_nsec3param r).
Proof.
  intros Hb; unfold parse_nsec3param; case_match; [done|]; boolp.
  apply wp_bind, index_wp; [lia|]; intros sl Hsl.
  apply wp_bind, wp_ok_or; intros se [-> _]%checked_add_Some; case_match; [done|]; boolp.
  apply (bytes_ok_bget _ _ _ Hb) in Hsl as Hu; unfold is_u8 in Hu; wp_index.
  by apply wp_bind, or_panic_slice_wp; [lia..|].
Qed.

(** ** Type bitmaps *)

(** A window block: its number and its octets. *)
Abbreviation window := (Z * bytes)%type.

Definition window_bytes (w : window) : bytes := w.1 :: len w.2 :: w.2.

(** Blocks in strictly increasing order, of 1 to 32 octets, the last not 0. *)
Fixpoint windows_ok (prev : option Z) (ws : list window) : Prop :=
  match ws with
  | [] => True
  | w :: ws =>
      match prev with Some previous => previous < w.1 | None => True end ∧
      0 < len w.2 ≤ 32 ∧ last w.2 ≠ Some 0 ∧ windows_ok (Some w.1) ws
  end.

Definition windows_types (ws : list window) : list Z :=
  ws ≫= λ w, window_types w.1 0 w.2.

Lemma split_at {A} (l : list A) n :
  0 ≤ n ≤ len l → ∃ a b, l = a ++ b ∧ len a = n.
Proof.
  intros Hn; exists (take (Z.to_nat n) l), (drop (Z.to_nat n) l).
  rewrite take_drop; split; [done|]; unfold len in *; rewrite length_take; lia.
Qed.

Lemma windows_cons w l rest ws :
  w :: l :: rest = ws ≫= window_bytes ↔
  ∃ bs ws', ws = (w, bs) :: ws' ∧ l = len bs ∧ rest = bs ++ (ws' ≫= window_bytes).
Proof.
  destruct ws as [|[w' bs] ws]; [naive_solver|]; cbn; split; [|naive_solver].
  intros [= -> -> ->]; eauto.
Qed.

Lemma windows_split w l bs tail (ws : list window) :
  len bs = l →
  (∃ bs' ws', ws = (w, bs') :: ws' ∧ l = len bs' ∧
     bs ++ tail = bs' ++ (ws' ≫= window_bytes)) ↔
  ∃ ws', ws = (w, bs) :: ws' ∧ tail = ws' ≫= window_bytes.
Proof.
  intros Hbs; split; [|naive_solver].
  intros (bs' & ws' & -> & Hl' & Heq); apply app_inj_1 in Heq as [-> ->]; [by exists ws'|].
  unfold len in *; lia.
Qed.

Lemma window_slice (pre bs tail : bytes) w l :
  len bs = l →
  slice (pre ++ w :: l :: bs ++ tail) (len pre + 2) (len pre + 2 + l) = Some bs.
Proof.
  intros Hbs; pose proof (slice_app_exact (pre ++ [w; l]) bs tail) as Hs.
  rewrite len_app, Hbs in Hs; change (len [w; l]) with 2 in Hs.
  by rewrite <- Hs, <- app_assoc.
Qed.

Lemma window_slice_None (pre rest : bytes) w l :
  len rest < l →
  slice (pre ++ w :: l :: rest) (len pre + 2) (len pre + 2 + l) = None.
Proof.
  intros; unfold slice; rewrite len_app, !len_cons.
  rewrite (proj2 (Z.leb_gt (len pre + 2 + l) _)) by lia; by rewrite andb_false_r.
Qed.

Lemma type_bitmap_loop_iff fuel pre rest prev types out :
  bytes_ok (pre ++ rest) → len (pre ++ rest) < 2 ^ 63 → (length rest < fuel)%nat →
  type_bitmap_loop fuel (pre ++ rest) (len pre) prev types = Ok out ↔
  ∃ ws, rest = ws ≫= window_bytes ∧ windows_ok prev ws ∧ out = types ++ windows_types ws.
Proof.
  revert pre rest prev types; induction fuel as [|fuel IH];
    intros pre rest prev types Hb Hlen Hf; [lia|]; cbn [type_bitmap_loop].
  rewrite len_app; destruct (Z.ltb_spec (len pre) (len pre + len rest)); cycle 1.
  { assert (rest = []) as -> by (destruct rest; [done|]; len_lia); split.
    - intros [= <-]; exists []; by rewrite app_nil_r.
    - intros ([|[w bs] ws] & Hws & _ & ->); [by rewrite app_nil_r|done]. }
  destruct rest as [|w rest]; [rewrite len_nil in *; lia|].
  rewrite (bget_app_r pre _ (len pre)), Z.sub_diag by lia.
  rewrite (bget_app_r pre _ (len pre + 1)) by lia.
  replace (len pre + 1 - len pre) with 1 by lia.
  change (bget (w :: rest) 0) with (Some w); cbn [ok_or mbind outcome_bind].
  destruct rest as [|l rest].
  { split; [done|]; by intros ([|[w' bs] ws] & Hws & _). }
  change (bget (w :: l :: rest) 1) with (Some l); cbn [ok_or mbind outcome_bind].
  apply bytes_ok_app in Hb as Hb'; destruct Hb' as [_ Hb'].
  apply Forall_cons in Hb' as [Hw [Hl Hr]%Forall_cons]; unfold is_u8 in Hl.
  setoid_rewrite windows_cons.
  destruct ((l =? 0) || (32 <? l) ||
    match prev with Some previous => w <=? previous | None => false end) eqn:Hbad.
  { split; [done|]; intros (ws & (bs & ws' & -> & -> & ->) & (Hp & Hl' & _) & _).
    exfalso; cbn in *; destruct prev; rewrite !orb_true_iff in Hbad;
      naive_solver (boolp; lia). }
  apply orb_false_iff in Hbad as [[Hl0 Hl32]%orb_false_iff Hprev]; boolp.
  rewrite !len_app, !len_cons in *.
  destruct (checked_add usize_max (len pre + 2) l) as [stop|] eqn:Hstop; cycle 1.
  { exfalso; unfold checked_add in Hstop; case_match; [done|]; boolp.
    unfold usize_max in *; lia. }
  apply checked_add_Some in Hstop as [-> _]; cbn [ok_or mbind outcome_bind].
  destruct (Z.le_gt_cases l (len rest)) as [Hfit|Hshort]; cycle 1.
  { rewrite window_slice_None by done; split; [done|]; intros (ws & (bs & ws' & -> & -> & ->) & _ & _).
    rewrite len_app in Hshort; pose proof (len_nonneg (ws' ≫= window_bytes)); lia. }
  destruct (split_at rest l) as (bs & tail & -> & Hbs); [lia|].
  rewrite window_slice by done; cbn [ok_or mbind outcome_bind].
  setoid_rewrite (λ ws, windows_split w l bs tail ws Hbs).
  case_bool_decide as Hlast.
  { split; [done|]; by intros (ws & (ws' & -> & ->) & (_ & _ & ? & _) & _). }
  specialize (IH (pre ++ w :: l :: bs) tail (Some w) (types ++ window_types w 0 bs)).
  rewrite !len_app, !len_cons, <- app_assoc in IH; cbn [app] in IH.
  replace (len pre + (1 + (1 + len bs))) with (len pre + 2 + l) in IH by lia.
  rewrite IH; clear IH; [|done|rewrite len_app in *; lia|cbn [length] in Hf; rewrite length_app in Hf; lia].
  split.
  - intros (ws & -> & Hok & ->); exists ((w, bs) :: ws); split; [by exists ws|].
    split; [|by rewrite <- app_assoc].
    cbn; split_and!; try done; [|lia..]; destruct prev; boolp; done.
  - intros (ws & (ws' & -> & ->) & (_ & _ & _ & Hok) & ->); exists ws'.
    split_and!; [done..|]; by rewrite <- app_assoc.
Qed.

Lemma parse_type_bitmap_iff bitmap types :
  packet_ok bitmap →
  parse_type_bitmap bitmap = Ok types ↔
  types ≠ [] ∧ ∃ ws, bitmap = ws ≫= window_bytes ∧ windows_ok None ws ∧
    types = windows_types ws.
Proof.
  intros [Hb Hlen]; unfold parse_type_bitmap; rewrite bind_Ok.
  pose proof (λ out, type_bitmap_loop_iff (S (length bitmap)) [] bitmap None [] out
    Hb Hlen (Nat.lt_succ_diag_r _)) as Hloop.
  change (len []) with 0 in Hloop; cbn [app] in Hloop; setoid_rewrite Hloop; split.
  - intros (out & Hout & Heq); case_bool_decide; [done|]; by injection Heq as ->.
  - intros (Hne & Hws); exists types; split; [done|].
    by rewrite bool_decide_eq_false_2.
Qed.

(** The types of a block, in terms of its bits: type [256 w + 8 i + j] is
    present when bit [j] (from the most significant) of octet [i] is set. *)
Lemma octet_bits byte bit :
  is_u8 byte → 0 ≤ bit < 8 →
  negb (Z.land byte (Z.shiftr 0x80 bit) =? 0) = Z.testbit byte (7 - bit).
Proof.
  intros Hb Hbit.
  pose proof (u8_forall (λ b, forallb (λ bit,
    Bool.eqb (negb (Z.land b (Z.shiftr 0x80 bit) =? 0)) (Z.testbit b (7 - bit)))
    (Z.of_nat <$> seq 0 8))) as H.
  specialize (H ltac:(vm_compute; reflexivity) byte Hb); cbn beta in H.
  rewrite forallb_forall in H; apply eqb_prop, H.
  apply list_elem_of_In, list_elem_of_fmap; exists (Z.to_nat bit); split; [lia|].
  apply elem_of_seq; lia.
Qed.

Lemma octet_types_spec w o byte t :
  is_u8 byte →
  t ∈ octet_types w o byte ↔
  ∃ bit, 0 ≤ bit < 8 ∧ t = w * 256 + (o * 8 + bit) ∧ Z.testbit byte (7 - bit) = true.
Proof.
  intros Hb; unfold octet_types; rewrite list_elem_of_fmap.
  setoid_rewrite elem_of_bfilter; split.
  - intros (bit & -> & (n & -> & Hn)%list_elem_of_fmap & Hbit); apply elem_of_seq in Hn.
    exists (Z.of_nat n); rewrite octet_bits in Hbit by (done || lia); split_and!; lia || done.
  - intros (bit & ? & -> & Hbit); exists bit; split; [done|].
    rewrite octet_bits by done; split; [|done].
    apply list_elem_of_fmap; exists (Z.to_nat bit); split; [lia|]; apply elem_of_seq; lia.
Qed.

Lemma window_types_spec w o bs t :
  bytes_ok bs →
  t ∈ window_types w o bs ↔
  ∃ i byte bit, bget bs i = Some byte ∧ 0 ≤ bit < 8 ∧
    t = w * 256 + ((o + i) * 8 + bit) ∧ Z.testbit byte (7 - bit) = true.
Proof.
  intros Hb; revert o; induction Hb as [|byte bs Hbyte Hb IH]; intros o; cbn [window_types].
  { split; [set_solver|]; intros (i & byte & bit & Hg & _).
    apply bget_Some in Hg as [? _]; unfold len in *; cbn in *; lia. }
  rewrite elem_of_app, octet_types_spec, IH by done; split.
  - intros [(bit & ? & -> & ?)|(i & byte' & bit & Hg & ? & -> & ?)].
    + exists 0, byte, bit; split_and!; [done|lia..|done].
    + apply bget_Some in Hg as ?; exists (i + 1), byte', bit.
      rewrite bget_cons by lia; replace (i + 1 - 1) with i by lia; split_and!; lia || done.
  - intros (i & byte' & bit & Hg & ? & -> & ?); apply bget_Some in Hg as ?.
    destruct (decide (i = 0)) as [->|].
    + left; exists bit; assert (byte' = byte) as <- by (by injection Hg).
      split_and!; lia || done.
    + right; rewrite bget_cons in Hg by lia; exists (i - 1), byte', bit.
      split_and!; lia || done.
Qed.

Lemma StronglySorted_bfilter {A} (R : A → A → Prop) (f : A → bool) l :
  StronglySorted R l → StronglySorted R (List.filter f l).
Proof.
  induction 1 as [|x l Hs IH Hx]; cbn; [constructor|]; case_match; [|done].
  constructor; [done|]; rewrite Forall_forall in *; intros y [? _]%elem_of_bfilter; auto.
Qed.

Lemma StronglySorted_fmap_lt (g : Z → Z) l :
  (∀ x y, x < y → g x < g y) → StronglySorted Z.lt l → StronglySorted Z.lt (g <$> l).
Proof.
  intros Hg; induction 1 as [|x l Hs IH Hx]; [constructor|]; constructor; [done|].
  apply Forall_fmap; eapply Forall_impl; [exact Hx|]; intros y; cbn; auto.
Qed.

Lemma octet_types_sorted w o byte : StronglySorted Z.lt (octet_types w o byte).
Proof.
  unfold octet_types; apply StronglySorted_fmap_lt; [lia|].
  apply StronglySorted_bfilter; cbn; repeat constructor.
Qed.

Lemma StronglySorted_lt_app l1 l2 b :
  StronglySorted Z.lt l1 → StronglySorted Z.lt l2 →
  (∀ x, x ∈ l1 → x < b) → (∀ x, x ∈ l2 → b ≤ x) → StronglySorted Z.lt (l1 ++ l2).
Proof.
  intros H1 H2 Hl1 Hl2; induction H1 as [|x l1 Hs IH Hx]; cbn; [done|].
  constructor; [apply IH; set_solver|]; rewrite Forall_app; split; [done|].
  rewrite Forall_forall; intros y Hy.
  specialize (Hl1 x); specialize (Hl2 y Hy); set_solver by lia.
Qed.

Lemma window_types_bounds w o bs t :
  bytes_ok bs → t ∈ window_types w o bs →
  w * 256 + o * 8 ≤ t < w * 256 + (o + len bs) * 8.
Proof.
  intros Hb (i & byte & bit & Hg & ? & -> & _)%window_types_spec; [|done].
  apply bget_Some in Hg as [? _]; lia.
Qed.

Lemma window_types_sorted w o bs :
  bytes_ok bs → StronglySorted Z.lt (window_types w o bs).
Proof.
  intros Hb; revert o; induction Hb as [|byte bs Hbyte Hb IH]; intros o; [constructor|].
  cbn [window_types]; apply StronglySorted_lt_app with (b := w * 256 + (o + 1) * 8); auto.
  - apply octet_types_sorted.
  - intros x (bit & ? & -> & _)%octet_types_spec; [lia|done].
  - intros x Hx; apply window_types_bounds in Hx; [lia|done].
Qed.

Lemma windows_types_sorted prev ws :
  windows_ok prev ws → Forall (λ w, bytes_ok (window_bytes w)) ws →
  StronglySorted Z.lt (windows_types ws) ∧
  ∀ t, t ∈ windows_types ws → is_u16 t ∧
    match prev with Some previous => (previous + 1) * 256 ≤ t | None => True end.
Proof.
  intros Hok Hb; revert prev Hok; induction Hb as [|[w bs] ws Hw _ IH]; intros prev Hok.
  { split; [constructor|set_solver]. }
  destruct Hok as (Hprev & Hlen & _ & Hok); cbn in Hprev, Hlen.
  destruct (IH _ Hok) as [Hs Hts]; cbn in Hts.
  apply Forall_cons in Hw as [Hw [_ Hbs]%Forall_cons]; cbn in Hw, Hbs; unfold is_u8 in Hw.
  assert (∀ t, t ∈ window_types w 0 bs → w * 256 ≤ t < (w + 1) * 256) as Hwt.
  { intros t Ht; apply window_types_bounds in Ht; [lia|done]. }
  change (windows_types ((w, bs) :: ws)) with (window_types w 0 bs ++ windows_types ws).
  split.
  - apply StronglySorted_lt_app with (b := (w + 1) * 256); auto using window_types_sorted.
    + intros x Hx; apply Hwt in Hx; lia.
    + intros x Hx; apply Hts in Hx; lia.
  - intros t [Ht|Ht]%elem_of_app.
    + apply Hwt in Ht; unfold is_u16; split; [lia|]; destruct prev; [lia|done].
    + apply Hts in Ht; split; [tauto|]; destruct prev; [lia|done].
Qed.

(** ** Key tags *)

(** The sum of the data as 16-bit words, an odd octet at the end as the high
    half of a word. *)
Fixpoint words_sum (even : bool) (data : bytes) : Z :=
  match data with
  | [] => 0
  | byte :: data => (if even then byte * 256 else byte) + words_sum (negb even) data
  end.

Lemma words_sum_bounds even data :
  bytes_ok data → 0 ≤ words_sum even data ≤ 65280 * len data.
Proof.
  intros Hb; revert even; induction Hb as [|b data Hb _ IH]; intros even; [done|].
  cbn [words_sum]; rewrite len_cons; specialize (IH (negb even)); unfold is_u8 in Hb.
  destruct even; lia.
Qed.

Lemma key_tag_sum_eq even data acc :
  bytes_ok data → 0 ≤ acc → acc + words_sum even data < 4294967296 →
  key_tag_sum even data acc = acc + words_sum even data.
Proof.
  intros Hb; revert even acc; induction Hb as [|b data Hb Hbs IH]; intros even acc Ha Hlt.
  { cbn; lia. }
  cbn [key_tag_sum words_sum] in *; unfold u32_wrapping_add; unfold is_u8 in Hb.
  pose proof (words_sum_bounds (negb even) data Hbs).
  rewrite Z.shiftl_mul_pow2 by lia; change (2 ^ 8) with 256.
  destruct even; rewrite Z.mod_small by lia; rewrite IH; lia.
Qed.

Lemma dnskey_key_tag_spec r :
  r_rr_type r = TYPE_DNSKEY → bytes_ok (r_rdata r) → 4 ≤ len (r_rdata r) ≤ u16_max →
  bget (r_rdata r) 3 ≠ Some 1 →
  let sum := words_sum true (r_rdata r) in
  dnskey_key_tag r = Ok ((sum + sum / 65536) mod 65536).
Proof.
  intros Ht Hb Hlen Halg; cbn zeta; unfold dnskey_key_tag, u16_max in *.
  rewrite Ht; change (negb (TYPE_DNSKEY =? TYPE_DNSKEY)) with false; cbn [orb].
  rewrite (proj2 (Z.ltb_ge _ _)) by lia.
  destruct (bget_is_Some (r_rdata r) 3) as [a Ha]; [lia|].
  unfold index; rewrite Ha; cbn [or_panic mbind outcome_bind].
  rewrite (proj2 (Z.eqb_neq a 1)) by congruence.
  pose proof (words_sum_bounds true (r_rdata r) Hb).
  rewrite key_tag_sum_eq by (done || lia); rewrite Z.add_0_l.
  set (s := words_sum true (r_rdata r)) in *; unfold u32_wrapping_add; f_equal.
  change 0xffff with (Z.ones 16); rewrite !Z.land_ones, Z.shiftr_div_pow2 by lia.
  change (2 ^ 16) with 65536; rewrite (Z.mod_small (s / 65536));
    [|Z.div_mod_to_equations; lia].
  destruct (decide (s + s / 65536 < 4294967296)).
  - rewrite (Z.mod_small (s + s / 65536)); [done|]; Z.div_mod_to_equations; lia.
  - Z.div_mod_to_equations; lia.
Qed.

(** ** The root zone *)

Definition at_root (r : ResourceRecord) : Prop :=
  r_class r = CLASS_IN ∧ canonical_wire (r_name r) = [0].

(** A record of the root that needs a signature. *)
Definition needs_signature (r : ResourceRecord) (t : Z) : Prop :=
  at_root r ∧ r_rr_type r = t ∧ t ≠ TYPE_RRSIG ∧ t ≠ TYPE_OPT ∧ t ≠ TYPE_TSIG.

(** A signature of the root over the type [t]. *)
Definition signs (r : ResourceRecord) (t : Z) : Prop :=
  at_root r ∧ r_rr_type r = TYPE_RRSIG ∧ index_u16 (r_rdata r) 0 = Ok t.

(** The records at [o], the first of them number [i] of the packet, add their
    types to the required ones when their number is below [k], and the types
    their signatures cover to the covered ones. *)
Definition root_sets (n : nat) (i k : Z) (p : bytes) (o : Z) (required covered : gset Z)
    (stop : Z) (req' cov' : gset Z) : Prop :=
  ∃ rs, parse_records n p o = Ok (rs, stop) ∧
    (∀ t, t ∈ req' ↔ t ∈ required ∨
      ∃ j r, rs !! j = Some r ∧ i + Z.of_nat j < k ∧ needs_signature r t) ∧
    (∀ t, t ∈ cov' ↔ t ∈ covered ∨ ∃ r, r ∈ rs ∧ signs r t).

Lemma indexed_cons (P : ResourceRecord → Prop) r rs i k :
  (∃ j x, (r :: rs) !! j = Some x ∧ i + Z.of_nat j < k ∧ P x) ↔
  (i < k ∧ P r) ∨ ∃ j x, rs !! j = Some x ∧ i + 1 + Z.of_nat j < k ∧ P x.
Proof.
  split.
  - intros ([|j] & x & Hx & Hlt & HP); [left; by cbn in Hx; simplify_eq; split; [lia|]|].
    right; exists j, x; split_and!; [done|lia|done].
  - intros [[? ?]|(j & x & Hx & ? & ?)]; [exists 0%nat, r; split_and!; [done|lia|done]|].
    exists (S j), x; split_and!; [done|lia|done].
Qed.

Lemma root_sets_cons n i k p o r required covered req0 cov0 stop req' cov' :
  parse_record p o = Ok r →
  (∀ t, t ∈ req0 ↔ t ∈ required ∨ (i < k ∧ needs_signature r t)) →
  (∀ t, t ∈ cov0 ↔ t ∈ covered ∨ signs r t) →
  root_sets n (i + 1) k p (r_next_offset r) req0 cov0 stop req' cov' →
  root_sets (S n) i k p o required covered stop req' cov'.
Proof.
  intros Hr Hreq Hcov (rs & Hrs & Hreq' & Hcov'); exists (r :: rs); split_and!.
  - cbn [parse_records]; rewrite Hr; cbn [mbind outcome_bind]; by rewrite Hrs.
  - intros t; rewrite Hreq', Hreq, indexed_cons; tauto.
  - intros t; rewrite Hcov', Hcov; setoid_rewrite elem_of_cons; naive_solver.
Qed.

Lemma root_records_loop_spec n i k p o required covered stop req' cov' :
  root_records_loop n i k p o required covered = Ok (stop, req', cov') →
  root_sets n i k p o required covered stop req' cov'.
Proof.
  revert i o required covered; induction n as [|n IH];
    intros i o required covered H; cbn [root_records_loop] in H.
  { injection H as <- <- <-; exists []; split_and!; [done|set_solver..]. }
  apply bind_Ok in H as (r & Hr & H).
  destruct (negb (r_class r =? CLASS_IN) || _) eqn:Hroot.
  { apply IH in H; eapply root_sets_cons; try done; intros t;
      (assert (¬ at_root r); [|unfold needs_signature, signs; naive_solver]);
      intros [Hc Hn]; rewrite Hc, Hn in Hroot; by vm_compute in Hroot. }
  apply orb_false_iff in Hroot as [Hc Hn]; boolp; apply dec_stable in Hn.
  assert (at_root r) as Hat by done.
  destruct (r_rr_type r =? TYPE_RRSIG) eqn:Hsig; boolp.
  - case_match; [done|]; apply bind_Ok in H as (t0 & Ht0 & H).
    apply bind_Ok in H as (so & _ & H); apply bind_Ok in H as ([signer sig] & _ & H).
    case_match; [done|]; apply IH in H; eapply root_sets_cons; try done; intros t.
    + unfold needs_signature; naive_solver.
    + unfold signs; rewrite Ht0, elem_of_union, elem_of_singleton; naive_solver.
  - assert (∀ t, ¬ signs r t) as Hns by (unfold signs; naive_solver).
    case_match; boolp; apply IH in H; eapply root_sets_cons; try done; intros t;
      try (specialize (Hns t); tauto).
    + rewrite elem_of_union, elem_of_singleton; unfold needs_signature.
      intuition (subst; auto).
    + unfold needs_signature; destruct (decide (i < k)); [|tauto].
      rewrite (proj2 (Z.ltb_lt i k)) in * by done; cbn [andb] in *; boolp.
      match goal with H : _ ∨ _ |- _ => destruct H as [?|[?|?]%negb_false_iff%orb_true_iff] end;
        boolp; intuition congruence.
Qed.

Lemma root_rrsig_missing_spec p b :
  packet_ok p → root_rrsig_missing p = Ok b →
  ∃ h qs rs, parse_sections p = Ok (h, qs, rs, len p) ∧ is_response h = true ∧
    (b = true ↔ ∃ j r t, rs !! j = Some r ∧
       Z.of_nat j < h_answer_count h + h_authority_count h ∧ needs_signature r t ∧
       ∀ s, s ∈ rs → ¬ signs s t).
Proof.
  intros Hp H; unfold root_rrsig_missing in H.
  apply bind_Ok in H as (h & Hh & H); case_match; [done|]; boolp.
  apply bind_Ok in H as (o & Ho & H); apply bind_Ok in H as ([[stop req] cov] & Hl & H).
  case_match; [done|]; boolp; injection H as <-.
  apply skip_questions_inv in Ho as [qs Hqs].
  apply root_records_loop_spec in Hl as (rs & Hrs & Hreq & Hcov); subst stop.
  exists h, qs, rs; split_and!; [|done|].
  - unfold parse_sections; rewrite Hh; cbn [mbind outcome_bind].
    rewrite Hqs; cbn [mbind outcome_bind]; by rewrite Hrs.
  - rewrite negb_true_iff, bool_decide_eq_false; split.
    + intros Hns; destruct (set_choose_L (req ∖ cov)) as [t Ht].
      { intros He; apply Hns; intros t Ht; apply dec_stable; intros Hc.
        apply (not_elem_of_empty (C := gset Z) t); rewrite <- He.
        by apply elem_of_difference. }
      apply elem_of_difference in Ht as [Ht Hc].
      apply Hreq in Ht as [[]%not_elem_of_empty|(j & r & Hj & Hlt & Hneed)].
      exists j, r, t; split_and!; try done.
      intros s Hs Hsig; apply Hc, Hcov; right; by exists s.
    + intros (j & r & t & Hj & Hlt & Hneed & Hno) Hsub.
      assert (t ∈ cov) as Hc by (apply Hsub, Hreq; right; exists j, r; split_and!; done || lia).
      apply Hcov in Hc as [[]%not_elem_of_empty|(s & ? & ?)]; by eapply Hno.
Qed.

Lemma root_records_loop_safe n i k p o required covered :
  packet_ok p → safe (root_records_loop n i k p o required covered).
Proof.
  intros Hp; revert i o required covered; induction n as [|n IH];
    intros i o required covered; [done|]; cbn [root_records_loop]; apply wp_bind.
  eapply wp_mono; [by apply parse_record_safe|]; intros r _.
  wp_if; [apply IH|]; wp_if; [|wp_if; apply IH].
  unfold RRSIG_MINIMUM_RDATA_LEN, RRSIG_FIXED_FIELDS_LEN.
  wp_if; [done|]; boolp; wp_index; apply wp_bind; unfold checked_end.
  apply wp_ok_or; intros so _; apply wp_bind.
  eapply wp_mono; [by apply read_name_safe|]; intros [signer e] _.
  wp_if; [done|]; apply IH.
Qed.

Lemma root_rrsig_missing_safe p : packet_ok p → safe (root_rrsig_missing p).
Proof.
  intros Hp; unfold root_rrsig_missing; apply wp_bind.
  eapply wp_mono; [apply header_parse_safe|]; intros h _; wp_if; [done|].
  apply wp_bind; eapply wp_mono; [by apply skip_questions_safe|]; intros o _.
  apply wp_bind; eapply wp_mono; [by apply root_records_loop_safe|].
  intros [[stop req] cov] _; by wp_if.
Qed.

(** ** Properties *)

(** C11: no packet makes a reader panic or loop.  On every packet of octets the
    decoders of the wire layer return a value or an error: no index or slice is
    out of range and no loop runs for ever, whatever the counts, compression
    pointers and lengths in the packet. *)
Theorem wire_readers_total p r :
  packet_ok p → bytes_ok (r_rdata r) →
  (∀ o, safe (read_name p o)) ∧ safe (parse_sections p) ∧
  (∀ b, safe (validate p b)) ∧ safe (first_question p) ∧ safe (question_end p) ∧
  (∀ q, packet_ok q → safe (response_matches q p)) ∧
  safe (servfail_for p) ∧ safe (refused_for p) ∧
  (∀ records ttl, is_u32 ttl → Forall local_ok records →
     safe (local_response p records ttl)) ∧
  safe (cache_lifetime p) ∧ (∀ e s, 0 ≤ e → safe (age_ttls p e s)) ∧
  safe (extract_service_records p) ∧ safe (extract_ptr_names p) ∧
  (∀ family, safe (extract_address_records p family)) ∧
  safe (classify_redirect_answer p) ∧ safe (root_rrsig_missing p) ∧
  safe (parse_dnskey r) ∧ safe (parse_ds r) ∧ safe (parse_rrsig p r) ∧
  safe (parse_nsec p r) ∧ safe (parse_nsec3 r) ∧ safe (parse_nsec3param r).
Proof.
  intros Hp Hr.
  split; [by intros o; apply read_name_safe|]; split; [by apply parse_sections_safe|].
  split; [by intros b; apply validate_safe|]; split; [by apply first_question_safe|].
  split; [by apply question_end_safe|].
  split; [by intros q Hq; apply response_matches_safe|].
  do 2 (split; [by eapply wp_mono; [by apply error_response_wp|]|]).
  split; [intros records ttl ? ?; by eapply wp_mono; [by apply local_response_wp|]|].
  split; [by apply cache_lifetime_safe|]; split; [by intros e s ?; apply age_ttls_safe|].
  split; [by apply extract_service_records_safe|]; split; [by apply extract_ptr_names_safe|].
  split; [intros family; exact (extract_address_records_safe p family Hp)|].
  split; [by eapply wp_mono; [by apply classify_redirect_answer_wp|]|].
  split; [exact (root_rrsig_missing_safe p Hp)|].
  split; [apply parse_dnskey_safe|]; split; [apply parse_ds_safe|].
  split; [by apply parse_rrsig_safe|]; split; [by apply parse_nsec_safe|].
  split; [by apply parse_nsec3_safe|by apply parse_nsec3param_safe].
Qed.

Lemma wire_readers_total_witness :
  packet_ok example_response ∧ safe (parse_sections example_response).
Proof.
  assert (packet_ok example_response) as H by exact (packet_okb_ok example_response eq_refl).
  split; [exact H|].
  refine (proj1 (proj2 (wire_readers_total example_response example_record H _))).
  exact (packet_ok_bytes _ (packet_okb_ok [192; 0; 2; 1] eq_refl)).
Defined.

(** Type bitmaps.  [parse_type_bitmap] accepts exactly the non-empty
    sequences of window blocks in strictly increasing order, each of 1 to 32
    octets that do not end in 0; it returns the types whose bit is set, and the
    list is strictly increasing, so it has no duplicates. *)
Theorem parse_type_bitmap_exact bitmap types :
  packet_ok bitmap →
  (parse_type_bitmap bitmap = Ok types ↔
    types ≠ [] ∧ ∃ ws, bitmap = ws ≫= window_bytes ∧ windows_ok None ws ∧
      types = windows_types ws) ∧
  (parse_type_bitmap bitmap = Ok types →
    StronglySorted Z.lt types ∧ Forall is_u16 types) ∧
  (∀ w bs t, bytes_ok bs → t ∈ window_types w 0 bs ↔
    ∃ i byte bit, bget bs i = Some byte ∧ 0 ≤ bit < 8 ∧
      t = w * 256 + (i * 8 + bit) ∧ Z.testbit byte (7 - bit) = true).
Proof.
  intros Hb; split_and!; [by apply parse_type_bitmap_iff| |].
  - intros (_ & ws & -> & Hok & ->)%parse_type_bitmap_iff; [|done].
    destruct (windows_types_sorted None ws Hok) as [Hs Hts].
    { destruct Hb as [Hb _]; by apply Forall_bind in Hb. }
    split; [done|]; apply Forall_forall; intros t Ht; by apply Hts.
  - intros w bs t Hbs; rewrite window_types_spec by done; by setoid_rewrite Z.add_0_l.
Qed.

Lemma parse_type_bitmap_exact_witness :
  parse_type_bitmap [0; 6; 0x40; 0; 0; 0; 0; 0x03] = Ok [1; 46; 47] ∧
  StronglySorted Z.lt [1; 46; 47] ∧ Forall is_u16 [1; 46; 47].
Proof.
  split; [reflexivity|].
  exact (proj1 (proj2 (parse_type_bitmap_exact [0; 6; 0x40; 0; 0; 0; 0; 0x03] [1; 46; 47]
    (packet_okb_ok [0; 6; 0x40; 0; 0; 0; 0; 0x03] eq_refl))) eq_refl).
Defined.

(** Key tags.  For a DNSKEY record of at least 4 octets whose algorithm is
    not 1, [dnskey_key_tag] is the key tag of RFC 4034: the sum of the data as
    16-bit words, with the carry added once, modulo 65536; the 32-bit
    accumulator does not overflow. *)
Theorem dnskey_key_tag_rfc4034 r :
  r_rr_type r = TYPE_DNSKEY → bytes_ok (r_rdata r) → 4 ≤ len (r_rdata r) ≤ u16_max →
  bget (r_rdata r) 3 ≠ Some 1 →
  let sum := words_sum true (r_rdata r) in
  dnskey_key_tag r = Ok ((sum + sum / 65536) mod 65536).
Proof. apply dnskey_key_tag_spec. Qed.

Definition example_dnskey : ResourceRecord :=
  mk_record (mk_name (lit ".") [0]) TYPE_DNSKEY CLASS_IN 0 0 0
    [0x01; 0x01; 0x03; 0x08; 0x03; 0x01; 0x00; 0x01] 0.

Lemma dnskey_key_tag_rfc4034_witness :
  dnskey_key_tag example_dnskey = Ok 1803.
Proof.
  refine (eq_trans (dnskey_key_tag_rfc4034 example_dnskey eq_refl _ _ _) _).
  - by apply packet_ok_bytes, packet_okb_ok.
  - split; vm_compute; discriminate.
  - vm_compute; discriminate.
  - vm_compute; reflexivity.
Defined.

(** Signatures of the root zone.  When [root_rrsig_missing] returns, the
    packet is a well-formed response without trailing data, and the answer is
    [true] exactly when some record of the root in its answer or authority
    section, other than RRSIG, OPT and TSIG, has a type that no RRSIG record of
    the root in the packet covers. *)
Theorem root_rrsig_missing_exact p b :
  packet_ok p → root_rrsig_missing p = Ok b →
  ∃ h qs rs, parse_sections p = Ok (h, qs, rs, len p) ∧ is_response h = true ∧
    (b = true ↔ ∃ j r t, rs !! j = Some r ∧
       Z.of_nat j < h_answer_count h + h_authority_count h ∧ needs_signature r t ∧
       ∀ s, s ∈ rs → ¬ signs s t).
Proof. apply root_rrsig_missing_spec. Qed.

(** A response for the A record of the root, without a signature. *)
Definition example_root : bytes :=
  [0; 7; 129; 128; 0; 1; 0; 1; 0; 0; 0; 0; 0; 0; 1; 0; 1;
   192; 12; 0; 1; 0; 1; 0; 0; 0; 30; 0; 4; 192; 0; 2; 100].

Lemma root_rrsig_missing_exact_witness :
  root_rrsig_missing example_root = Ok true ∧
  ∃ h qs rs, parse_sections example_root = Ok (h, qs, rs, len example_root) ∧
    is_response h = true ∧
    (true = true ↔ ∃ j r t, rs !! j = Some r ∧
       Z.of_nat j < h_answer_count h + h_authority_count h ∧ needs_signature r t ∧
       ∀ s, s ∈ rs → ¬ signs s t).
Proof.
  split; [vm_compute; reflexivity|].
  refine (root_rrsig_missing_exact example_root true
    (packet_okb_ok example_root eq_refl) _).
  vm_compute; reflexivity.
Defined.
