(* ===== verification/Dnssec.v ===== *)
(** * DNSSEC validation

    Models [src/dnssec.rs] and [src/dnssec/canonical.rs]: the canonical form of
    a signed record set, the digest of a key, and what a signature must satisfy.
    The digest and the verification of signatures are foreign functions, which
    are arguments here. *)

From S2P Require Import Prelude Text Net Sorting Codec Records WireDnssec.

Inductive DnssecError : Type :=
  | DnssecWire (e : WireError)
  | DnssecIo (e : IoError)
  | UnsupportedDigest (digest : Z)
  | UnsupportedAlgorithm (algorithm : Z).

Abbreviation dres := (outcome DnssecError).

(** The [?] on a result of the wire layer. *)
Definition of_wire {A} (r : wres A) : dres A := map_err DnssecWire r.

(** ** Canonical names *)

Definition invalid_name (reason : string) : WireError := InvalidName (lit reason).

(** [offset] grows each round and stays below the length. *)
Fixpoint label_offsets_loop (n : nat) (name : bytes) (offset : Z) (offsets : list Z) :
    wres (list Z) :=
  match n with
  | O => Diverge
  | S n =>
      match bget name offset with
      | None => Err (invalid_name "truncated canonical DNS name")
      | Some length =>
          if length =? 0 then
            if negb (offset + 1 =? len name)
            then Err (invalid_name "canonical DNS name has trailing data")
            else Ok offsets
          else if (63 <? length) || (len name <=? offset + 1 + length)
          then Err (invalid_name "invalid canonical DNS label")
          else label_offsets_loop n name (offset + 1 + length) (offsets ++ [offset])
      end
  end.

Definition label_offsets (name : bytes) : wres (list Z) :=
  label_offsets_loop (S (length name)) name 0 [].

Definition canonical_owner (owner : bytes) (labels : Z) : wres bytes :=
  offsets ← label_offsets owner;
  let label_count := len offsets in
  if label_count <? labels then Err InvalidRecord
  else
    let canonical := to_ascii_lowercase owner in
    if labels =? label_count then Ok canonical
    else if labels =? 0 then Ok [1; 42; 0]
    else
      offset ← or_panic (bget offsets (label_count - labels));
      rest ← ok_or (slice canonical offset (len canonical)) InvalidRecord;
      Ok ([1; 42] ++ rest).

(** ** Canonical record data *)

Definition canonical_single_name (packet : bytes) (record : ResourceRecord) (prefix : Z) :
    wres bytes :=
  if len (r_rdata record) <? prefix + 1 then Err InvalidRecord
  else
    name_offset ← ok_or (checked_add usize_max (r_rdata_offset record) prefix) InvalidRecord;
    '(name, next) ← read_name packet name_offset;
    if r_next_offset record <? next then Err InvalidRecord
    else
      suffix ← ok_or (slice packet next (r_next_offset record)) InvalidRecord;
      start ← or_panic (slice (r_rdata record) 0 prefix);
      Ok (start ++ canonical_wire name ++ suffix).

Definition canonical_two_names (packet : bytes) (record : ResourceRecord) (prefix : Z) :
    wres bytes :=
  if len (r_rdata record) <? prefix + 2 then Err InvalidRecord
  else
    first_offset ← ok_or (checked_add usize_max (r_rdata_offset record) prefix) InvalidRecord;
    '(first, second_offset) ← read_name packet first_offset;
    '(second, stop) ← read_name packet second_offset;
    if negb (stop =? r_next_offset record) then Err InvalidRecord
    else
      start ← or_panic (slice (r_rdata record) 0 prefix);
      Ok (start ++ canonical_wire first ++ canonical_wire second).

Definition canonical_soa (packet : bytes) (record : ResourceRecord) : wres bytes :=
  '(primary_name, mailbox_offset) ← read_name packet (r_rdata_offset record);
  '(mailbox_name, integers_offset) ← read_name packet mailbox_offset;
  integers ← ok_or (slice packet integers_offset (r_next_offset record)) InvalidRecord;
  if negb (len integers =? 20) then Err InvalidRecord
  else Ok (canonical_wire primary_name ++ canonical_wire mailbox_name ++ integers).

(** The three character strings. *)
Fixpoint skip_strings (n : nat) (packet : bytes) (stop offset : Z) : wres Z :=
  match n with
  | O => Ok offset
  | S n =>
      length ← ok_or (bget packet offset) InvalidRecord;
      offset ← ok_or (checked_add usize_max offset (1 + length)) InvalidRecord;
      if stop <? offset then Err InvalidRecord else skip_strings n packet stop offset
  end.

Definition canonical_naptr (packet : bytes) (record : ResourceRecord) : wres bytes :=
  if len (r_rdata record) <? 8 then Err InvalidRecord
  else
    offset ← skip_strings 3 packet (r_next_offset record) (r_rdata_offset record + 4);
    '(replacement, stop) ← read_name packet offset;
    if negb (stop =? r_next_offset record) then Err InvalidRecord
    else
      prefix ← ok_or (slice packet (r_rdata_offset record) offset) InvalidRecord;
      Ok (prefix ++ canonical_wire replacement).

Definition canonical_rdata (packet : bytes) (record : ResourceRecord) : wres bytes :=
  let t := r_rr_type record in
  if bool_decide (t ∈ [2; 3; 4; 5; 7; 8; 9; 12; 23; 30; 39; 47])
  then canonical_single_name packet record 0
  else if t =? 6 then canonical_soa packet record
  else if bool_decide (t ∈ [14; 17]) then canonical_two_names packet record 0
  else if bool_decide (t ∈ [15; 18; 21; 36; 64; 65; 107])
  then canonical_single_name packet record 2
  else if bool_decide (t ∈ [24; 46]) then canonical_single_name packet record 18
  else if t =? 26 then canonical_two_names packet record 2
  else if t =? 33 then canonical_single_name packet record 6
  else if t =? 35 then canonical_naptr packet record
  else Ok (r_rdata record).

(** ** The signed data *)

Definition bytes_le (a b : bytes) : bool :=
  match str_compare a b with Gt => false | _ => true end.

Definition rrsig_prefix (signature : RrsigRecord) : bytes :=
  u16_bytes (rrsig_type_covered signature) ++ [rrsig_algorithm signature; rrsig_labels signature] ++
  u32_bytes (rrsig_original_ttl signature) ++ u32_bytes (rrsig_expiration signature) ++
  u32_bytes (rrsig_inception signature) ++ u16_bytes (rrsig_key_tag signature) ++
  canonical_wire (rrsig_signer signature).

(** One round of the loop over the record set; [class] and [name] are those of
    its first record. *)
Definition canonical_record (packet : bytes) (signature : RrsigRecord) (owner : bytes) (class : Z)
    (name : bytes) (record : ResourceRecord) : wres bytes :=
  if negb (r_rr_type record =? rrsig_type_covered signature) || negb (r_class record =? class)
     || negb (bool_decide (canonical_wire (r_name record) = name))
  then Err InvalidRecord
  else
    rdata ← canonical_rdata packet record;
    if 65535 <? len rdata then Err InvalidRecord
    else Ok (owner ++ u16_bytes (r_rr_type record) ++ u16_bytes (r_class record) ++
             u32_bytes (rrsig_original_ttl signature) ++ u16_bytes (len rdata) ++ rdata).

Fixpoint canonical_records (packet : bytes) (signature : RrsigRecord) (owner : bytes) (class : Z)
    (name : bytes) (rrset : list ResourceRecord) : wres (list bytes) :=
  match rrset with
  | [] => Ok []
  | record :: rrset =>
      canonical ← canonical_record packet signature owner class name record;
      rest ← canonical_records packet signature owner class name rrset;
      Ok (canonical :: rest)
  end.

Definition canonical_signed_data (packet : bytes) (rrsig_record : ResourceRecord)
    (rrset : list ResourceRecord) : dres bytes :=
  signature ← of_wire (parse_rrsig packet rrsig_record);
  match rrset with
  | [] => Err (DnssecWire InvalidRecord)
  | first :: _ =>
      let name := canonical_wire (r_name first) in
      owner ← of_wire (canonical_owner name (rrsig_labels signature));
      records ← of_wire (canonical_records packet signature owner (r_class first) name rrset);
      Ok (rrsig_prefix signature ++ concat (dedup (sort_by bytes_le records)))
  end.

(** ** The time of a signature *)

(** In seconds. *)
Definition SIGNATURE_TIME_SKEW : Z := 60 * 60.

(** [now] in nanoseconds since the epoch; [duration_since] fails before it. *)
Definition rrsig_time_valid (signature : RrsigRecord) (now : Z) : bool :=
  if now <? 0 then false
  else
    let now := Z.min u32_max (now / 1000000000) in
    (rrsig_inception signature <=? Z.min u64_max (now + SIGNATURE_TIME_SKEW)) &&
    (now <=? Z.min u64_max (rrsig_expiration signature + SIGNATURE_TIME_SKEW)).

(** ** Keys and signatures *)

Definition DNSKEY_FLAG_REVOKE : Z := Z.shiftl 1 7.
Definition DNSKEY_FLAG_ZONE_KEY : Z := Z.shiftl 1 8.

Section native.
(** [resolved_dnssec_digest]: the result and the output buffer it leaves, given
    the digest type, the data and the capacity of the buffer. *)
Context (dnssec_digest : Z → bytes → Z → Z * bytes).
(** [resolved_dnssec_verify] of an algorithm, a key, data and a signature. *)
Context (dnssec_verify : Z → bytes → bytes → bytes → Z).

(** The conversion to [usize] cannot fail on a result that is not negative. *)
Definition dnskey_ds_digest (dnskey_record : ResourceRecord) (digest_type : Z) : dres bytes :=
  _ ← of_wire (parse_dnskey dnskey_record);
  output_length ←
    (if digest_type =? 1 then Ok 20
     else if digest_type =? 2 then Ok 32
     else if digest_type =? 4 then Ok 48
     else Err (UnsupportedDigest digest_type));
  let input := canonical_wire (r_name dnskey_record) ++ r_rdata dnskey_record in
  let '(result, output) := dnssec_digest digest_type input output_length in
  if result <? 0 then Err (DnssecIo (IoOs (- result)))
  else if negb (result =? output_length)
  then Err (DnssecIo (IoInvalidData (lit "unexpected DNSSEC digest length")))
  else Ok output.

Definition ds_matches_dnskey (ds_record dnskey_record : ResourceRecord) : dres bool :=
  ds ← of_wire (parse_ds ds_record);
  dnskey ← of_wire (parse_dnskey dnskey_record);
  if negb (ds_algorithm ds =? dnskey_algorithm dnskey) then Ok false
  else
    key_tag ← of_wire (dnskey_key_tag dnskey_record);
    if negb (ds_key_tag ds =? key_tag) then Ok false
    else
      digest ← dnskey_ds_digest dnskey_record (ds_digest_type ds);
      Ok (bool_decide (ds_digest ds = digest)).

Definition verify_signature (algorithm : Z) (key data signature : bytes) : dres bool :=
  if negb (bool_decide (algorithm ∈ [5; 7; 8; 10; 13; 14; 15]))
  then Err (UnsupportedAlgorithm algorithm)
  else
    let result := dnssec_verify algorithm key data signature in
    if result =? 1 then Ok true
    else if result =? 0 then Ok false
    else if result <? 0 then Err (DnssecIo (IoOs (- result)))
    else Err (DnssecIo (IoInvalidData (lit "invalid DNSSEC signature verification result"))).

Definition verify_rrsig (packet : bytes) (rrsig_record : ResourceRecord)
    (rrset : list ResourceRecord) (dnskey_record : ResourceRecord) (now : Z) : dres bool :=
  match rrset with
  | [] => Err (DnssecWire InvalidRecord)
  | first :: _ =>
      signature ← of_wire (parse_rrsig packet rrsig_record);
      dnskey ← of_wire (parse_dnskey dnskey_record);
      if negb (r_class rrsig_record =? r_class first)
         || negb (bool_decide (canonical_wire (r_name rrsig_record) = canonical_wire (r_name first)))
         || negb (r_class dnskey_record =? r_class first)
         || negb (bool_decide (canonical_wire (r_name dnskey_record) =
                               canonical_wire (rrsig_signer signature)))
         || negb (dnskey_algorithm dnskey =? rrsig_algorithm signature)
      then Ok false
      else
        key_tag ← of_wire (dnskey_key_tag dnskey_record);
        if negb (key_tag =? rrsig_key_tag signature)
           || (Z.land (dnskey_flags dnskey) DNSKEY_FLAG_ZONE_KEY =? 0)
           || negb (Z.land (dnskey_flags dnskey) DNSKEY_FLAG_REVOKE =? 0)
           || existsb (λ record, rrsig_original_ttl signature <? r_ttl record) rrset
           || negb (rrsig_time_valid signature now)
        then Ok false
        else
          signed_data ← canonical_signed_data packet rrsig_record rrset;
          verify_signature (rrsig_algorithm signature) (dnskey_public_key dnskey) signed_data
            (rrsig_signature signature)
  end.
End native.
