(* ===== verification/DnssecFacts.v ===== *)
(** * DNSSEC validation: properties

    The canonical owner and record data of a signed set, the exact octets a
    signature covers, and the exact conditions under which a signature and a
    delegation record are accepted. *)

From S2P Require Import Prelude Text Net Sorting Codec Names CodecFacts Records RedirectFacts RecordsFacts WireDnssec WireDnssecFacts Dnssec.

(** ** Canonical owners *)

Fixpoint offsets_from (o : Z) (labels : list bytes) : list Z :=
  match labels with
  | [] => []
  | l :: labels => o :: offsets_from (o + 1 + len l) labels
  end.

Lemma offsets_from_length o labels : length (offsets_from o labels) = length labels.
Proof. revert o; induction labels; intros o; cbn; [done|]; f_equal; auto. Qed.

Lemma offsets_from_lookup o labels i :
  (i < length labels)%nat → offsets_from o labels !! i = Some (o + labels_len (take i labels)).
Proof.
  revert o i; induction labels as [|l labels IH]; intros o [|i] Hi; cbn in *; [lia..| |].
  - f_equal; lia.
  - rewrite IH by lia; f_equal; fold (labels_len (take i labels)); lia.
Qed.

Lemma len_lower s : len (to_ascii_lowercase s) = len s.
Proof. apply len_fmap. Qed.

Lemma label_offsets_loop_spec n pre labels offsets :
  Forall label_ok labels → (length labels < n)%nat →
  label_offsets_loop n (pre ++ canonical_of_labels labels) (len pre) offsets =
  Ok (offsets ++ offsets_from (len pre) labels).
Proof.
  intros Hl; revert n pre offsets; induction Hl as [|l labels Hl Hls IH]; intros [|n] pre offsets Hn;
    cbn [length] in Hn; try lia; cbn [label_offsets_loop].
  - rewrite bget_app_r, Z.sub_diag by lia; cbn.
    unfold canonical_of_labels; cbn; rewrite len_app, Z.eqb_refl; cbn; by rewrite app_nil_r.
  - rewrite bget_app_r, Z.sub_diag by lia; rewrite canonical_of_labels_cons; cbn [app].
    change (bget (len l :: _) 0) with (Some (len l)); cbv iota beta.
    unfold label_ok in Hl; rewrite (proj2 (Z.eqb_neq _ _)) by lia.
    rewrite (proj2 (Z.ltb_ge _ _)), len_app, len_cons, len_app, len_lower by lia; cbn [orb].
    rewrite canonical_of_labels_len, (proj2 (Z.leb_gt _ _))
      by (pose proof (labels_len_nonneg labels); lia).
    specialize (IH n (pre ++ len l :: to_ascii_lowercase l) (offsets ++ [len pre]) ltac:(lia)).
    rewrite <-app_assoc in IH; cbn [app] in IH; rewrite len_app, len_cons, len_lower in IH.
    replace (len pre + 1 + len l) with (len pre + (1 + len l)) by lia; rewrite IH.
    cbn [offsets_from]; rewrite <-app_assoc; by replace (len pre + 1 + len l) with (len pre + (1 + len l)) by lia.
Qed.

Lemma label_offsets_spec labels :
  Forall label_ok labels →
  label_offsets (canonical_of_labels labels) = Ok (offsets_from 0 labels).
Proof.
  intros Hl; unfold label_offsets; apply (label_offsets_loop_spec _ []); [done|].
  pose proof (canonical_of_labels_len labels) as H; unfold len in H.
  enough (Z.of_nat (length labels) ≤ labels_len labels) by lia.
  clear H; induction Hl as [|l labels Hl _ IH]; [done|]; rewrite labels_len_cons; cbn [length].
  unfold label_ok in Hl; lia.
Qed.

Lemma canonical_slice labels i :
  slice (canonical_of_labels labels) (labels_len (take i labels)) (len (canonical_of_labels labels)) =
  Some (canonical_of_labels (drop i labels)).
Proof.
  rewrite <-(take_drop i labels) at 1 3; rewrite canonical_of_labels_app, <-labels_prefix_len, len_app.
  rewrite <-(app_nil_r (canonical_of_labels (drop i labels))) at 1; apply slice_app_exact.
Qed.

Lemma canonical_lower labels :
  Forall label_ok labels → to_ascii_lowercase (canonical_of_labels labels) = canonical_of_labels labels.
Proof.
  intros Hl; rewrite canonical_of_labels_lower by done; unfold to_ascii_lowercase.
  rewrite <-list_fmap_compose; apply list_fmap_ext; intros _ c _; cbn; apply lower_char_idemp.
Qed.

(** The owner a signature is made for: the name itself, or the wildcard above
    the labels the signature counts. *)
Definition signed_owner (labels : list bytes) (k : Z) : list bytes :=
  if k =? len labels then labels else [42] :: drop (length labels - Z.to_nat k) labels.

Lemma canonical_owner_exact labels k :
  Forall label_ok labels → 0 ≤ k →
  canonical_owner (canonical_of_labels labels) k =
  if len labels <? k then Err InvalidRecord else Ok (canonical_of_labels (signed_owner labels k)).
Proof.
  intros Hl Hk; unfold canonical_owner; rewrite label_offsets_spec by done; cbn [mbind outcome_bind].
  assert (Hlen : len (offsets_from 0 labels) = len labels)
    by (unfold len; by rewrite offsets_from_length).
  rewrite Hlen, canonical_lower by done; destruct (len labels <? k) eqn:Hlt; [done|]; boolp.
  unfold signed_owner; destruct (k =? len labels) eqn:Heq; [done|]; boolp.
  destruct (k =? 0) eqn:H0; boolp.
  { subst k; rewrite Nat.sub_0_r, drop_all; done. }
  unfold bget; rewrite (proj2 (Z.leb_le 0 _)) by lia.
  replace (Z.to_nat (len labels - k)) with (length labels - Z.to_nat k)%nat by (unfold len; lia).
  rewrite offsets_from_lookup by (unfold len in *; lia); cbn [or_panic mbind outcome_bind].
  by rewrite Z.add_0_l, canonical_slice, canonical_of_labels_cons.
Qed.

(** ** No panic *)

Lemma label_offsets_loop_safe n name o offsets :
  bytes_ok name → 0 ≤ o ≤ len name → len name - o < Z.of_nat n →
  safe (label_offsets_loop n name o offsets).
Proof.
  intros Hb; revert o offsets; induction n as [|n IH]; intros o offsets Ho Hn; [lia|].
  cbn [label_offsets_loop]; destruct (bget name o) as [l|] eqn:Hl; [|done].
  assert (is_u8 l) as Hu by (by eapply bytes_ok_bget).
  repeat case_match; boolp; try done; apply IH; unfold is_u8 in Hu; lia.
Qed.

Lemma canonical_owner_safe owner k : bytes_ok owner → 0 ≤ k → safe (canonical_owner owner k).
Proof.
  intros Hb Hk; unfold canonical_owner; apply wp_bind; eapply wp_mono.
  { apply label_offsets_loop_safe; [done|pose proof (len_nonneg owner); lia|unfold len; lia]. }
  intros offsets _; cbv zeta; repeat (case_match; [done|]); boolp.
  destruct (bget_is_Some offsets (len offsets - k)) as [o Ho]; [lia|].
  rewrite Ho; cbn; by apply wp_bind, wp_ok_or.
Qed.

Lemma single_name_safe p r k : packet_ok p → 0 ≤ k → safe (canonical_single_name p r k).
Proof.
  intros Hp Hk; unfold canonical_single_name; case_match; [done|]; boolp.
  apply wp_bind, wp_ok_or; intros o _; wp_call x Hx; destruct x as [name next]; case_match; [done|].
  apply wp_bind, wp_ok_or; intros suffix _; apply wp_bind.
  apply or_panic_slice_wp; [lia..|]; done.
Qed.

Lemma two_names_safe p r k : packet_ok p → 0 ≤ k → safe (canonical_two_names p r k).
Proof.
  intros Hp Hk; unfold canonical_two_names; case_match; [done|]; boolp.
  apply wp_bind, wp_ok_or; intros o _; wp_call x Hx; destruct x as [name next].
  wp_call y Hy; destruct y as [name' next']; case_match; [done|]; apply wp_bind.
  apply or_panic_slice_wp; [lia..|]; done.
Qed.

Lemma skip_strings_safe n p stop o : safe (skip_strings n p stop o).
Proof.
  revert o; induction n as [|n IH]; intros o; cbn [skip_strings]; [done|].
  apply wp_bind, wp_ok_or; intros l _; apply wp_bind, wp_ok_or; intros o' _.
  case_match; [done|apply IH].
Qed.

Lemma canonical_rdata_safe p r : packet_ok p → safe (canonical_rdata p r).
Proof.
  intros Hp; unfold canonical_rdata; repeat case_match; try done;
    first [by apply single_name_safe | by apply two_names_safe | idtac].
  - unfold canonical_soa; wp_call x Hx; destruct x as [name next].
    wp_call y Hy; destruct y as [name' next']; apply wp_bind, wp_ok_or; intros; by case_match.
  - unfold canonical_naptr; case_match; [done|]; apply wp_bind.
    eapply wp_mono; [apply skip_strings_safe|]; intros o _.
    wp_call x Hx; destruct x as [name next]; case_match; [done|]; by apply wp_bind, wp_ok_or.
Qed.

(** ** The order of the records *)

(** The order in which the records are signed: shorter data first, then by
    octets. *)
Definition shortlex (a b : bytes) : Prop := len a < len b ∨ len a = len b ∧ str_lt a b.

Lemma str_compare_prefix p a b : str_compare (p ++ a) (p ++ b) = str_compare a b.
Proof. induction p as [|x p IH]; [done|]; cbn; by rewrite Z.compare_refl. Qed.

Lemma u16_compare a b x y :
  is_u16 a → is_u16 b →
  str_compare (u16_bytes a ++ x) (u16_bytes b ++ y) =
  match a ?= b with Eq => str_compare x y | c => c end.
Proof.
  intros Ha Hb; unfold u16_bytes, is_u16 in *; cbn.
  pose proof (Z.div_mod a 256 ltac:(lia)); pose proof (Z.mod_pos_bound a 256 ltac:(lia)).
  pose proof (Z.div_mod b 256 ltac:(lia)); pose proof (Z.mod_pos_bound b 256 ltac:(lia)).
  destruct (Z.compare_spec (a / 256) (b / 256)).
  - destruct (Z.compare_spec (a mod 256) (b mod 256)), (Z.compare_spec a b); try done; lia.
  - destruct (Z.compare_spec a b); try done; lia.
  - destruct (Z.compare_spec a b); try done; lia.
Qed.

(** What precedes the data of each record, its length apart. *)
Definition signed_head (owner : bytes) (rr_type class ttl : Z) : bytes :=
  owner ++ u16_bytes rr_type ++ u16_bytes class ++ u32_bytes ttl.
Definition signed_record (head rdata : bytes) : bytes := head ++ u16_bytes (len rdata) ++ rdata.

Lemma signed_record_compare h a b :
  is_u16 (len a) → is_u16 (len b) →
  str_compare (signed_record h a) (signed_record h b) =
  match len a ?= len b with Eq => str_compare a b | c => c end.
Proof. intros; unfold signed_record; rewrite str_compare_prefix; by apply u16_compare. Qed.

Lemma bytes_le_total a b : bytes_le a b = true ∨ bytes_le b a = true.
Proof.
  unfold bytes_le; rewrite (str_compare_antisym a b); destruct (str_compare a b); cbn; auto.
Qed.

Lemma bytes_le_trans a b c : bytes_le a b = true → bytes_le b c = true → bytes_le a c = true.
Proof.
  unfold bytes_le; destruct (str_compare a b) eqn:Hab; [| |done];
    destruct (str_compare b c) eqn:Hbc; try done; intros _ _.
  - apply str_compare_Eq in Hab as ->; by rewrite Hbc.
  - apply str_compare_Eq in Hab as ->; by rewrite Hbc.
  - apply str_compare_Eq in Hbc as <-; by rewrite Hab.
  - by rewrite (str_lt_trans _ _ _ Hab Hbc).
Qed.

(** Sorting and then removing neighbours leaves each value once. *)
Lemma dedup_sorted_bytes l :
  StronglySorted (leP bytes_le) l → StronglySorted str_lt (dedup l).
Proof.
  induction 1 as [|x l Hs IH Hx]; cbn; [constructor|].
  destruct (dedup l) as [|y r] eqn:Hd; [repeat constructor|].
  case_bool_decide as Hxy; [done|]; constructor; [done|].
  assert (y ∈ l) as Hy by (apply elem_of_dedup; rewrite Hd; set_solver).
  rewrite Forall_forall in Hx; specialize (Hx y Hy).
  assert (str_lt x y) as Hlt.
  { unfold leP, bytes_le in Hx; unfold str_lt; destruct (str_compare x y) eqn:Hc; try done.
    by apply str_compare_Eq in Hc. }
  inversion_clear IH as [|? ? _ Hr]; constructor; [done|].
  eapply Forall_impl; [exact Hr|]; intros z Hz; by etrans.
Qed.

Lemma sorted_set (l : list bytes) :
  StronglySorted str_lt (dedup (sort_by bytes_le l)) ∧
  ∀ x, x ∈ dedup (sort_by bytes_le l) ↔ x ∈ l.
Proof.
  split.
  - apply dedup_sorted_bytes, sort_by_sorted; [apply bytes_le_total|apply bytes_le_trans].
  - intros x; by rewrite elem_of_dedup, sort_by_perm.
Qed.

(** ** The signed data *)

(** A record of the set of [first] that the signature covers, with its data in
    canonical form. *)
Definition covered (p : bytes) (sg : RrsigRecord) (first r : ResourceRecord) (rdata : bytes) : Prop :=
  r_rr_type r = rrsig_type_covered sg ∧ r_class r = r_class first ∧
  canonical_wire (r_name r) = canonical_wire (r_name first) ∧
  canonical_rdata p r = Ok rdata ∧ len rdata ≤ 65535.

Definition set_head (sg : RrsigRecord) (first : ResourceRecord) (owner : bytes) : bytes :=
  signed_head owner (rrsig_type_covered sg) (r_class first) (rrsig_original_ttl sg).

Lemma canonical_record_iff p sg owner first r x :
  canonical_record p sg owner (r_class first) (canonical_wire (r_name first)) r = Ok x ↔
  ∃ rdata, covered p sg first r rdata ∧ x = signed_record (set_head sg first owner) rdata.
Proof.
  unfold canonical_record, covered, set_head, signed_record, signed_head; split.
  - destruct (_ || _) eqn:Hc; [done|]; boolp; intros (rdata & Hr & Hx)%bind_Ok.
    destruct (65535 <? len rdata) eqn:Hl; [done|]; boolp; apply Ok_inj in Hx as <-.
    exists rdata; split_and!; [done..|lia|]; rewrite <-!app_assoc; congruence.
  - intros (rdata & (Ht & Hcl & Hn & Hr & Hl) & ->); rewrite Ht, Hcl, Hn, !Z.eqb_refl, Hr.
    rewrite bool_decide_true by done; cbn; rewrite (proj2 (Z.ltb_ge _ _)) by lia.
    by rewrite <-!app_assoc.
Qed.

Lemma canonical_records_iff p sg owner first rrset recs :
  canonical_records p sg owner (r_class first) (canonical_wire (r_name first)) rrset = Ok recs ↔
  ∃ rds, Forall2 (covered p sg first) rrset rds ∧
    recs = signed_record (set_head sg first owner) <$> rds.
Proof.
  revert recs; induction rrset as [|r rrset IH]; intros recs; cbn [canonical_records]; split.
  - intros [= <-]; exists []; by split; [constructor|].
  - intros (rds & H & ->); by inversion H.
  - intros H; inv_ok; apply canonical_record_iff in H0 as (rd & Hc & ->).
    apply IH in H1 as (rds & Hr & ->); exists (rd :: rds); by split; [constructor|].
  - intros (rds & H & ->); inversion_clear H as [|? rd ? rds' Hc Hr].
    rewrite (proj2 (canonical_record_iff p sg owner first r _)) by eauto; cbn [mbind outcome_bind].
    rewrite (proj2 (IH _)) by eauto; done.
Qed.

Lemma fmap_form {A B} (f : A → B) (Q : A → Prop) (l : list B) :
  (∀ y, y ∈ l → ∃ x, y = f x ∧ Q x) → ∃ xs, l = f <$> xs ∧ Forall Q xs.
Proof.
  induction l as [|y l IH]; intros H; [by exists []|].
  destruct IH as (xs & -> & Hxs); [intros; apply H; by right|].
  destruct (H y) as (x & -> & Hx); [by left|]; exists (x :: xs); by split; [|constructor].
Qed.

Lemma shortlex_of_records h rds :
  Forall (λ rd, len rd ≤ 65535) rds →
  StronglySorted str_lt (signed_record h <$> rds) → StronglySorted shortlex rds.
Proof.
  induction 1 as [|rd rds Hl Hls IH]; intros Hs; [constructor|]; cbn in Hs.
  apply StronglySorted_inv in Hs as [Hs Hlt]; constructor; [by apply IH|].
  rewrite Forall_fmap in Hlt; apply Forall_forall; intros rd' Hin.
  rewrite Forall_forall in Hlt, Hls; specialize (Hlt rd' Hin); specialize (Hls rd' Hin); cbn in Hlt.
  unfold str_lt in Hlt; rewrite signed_record_compare in Hlt
    by (pose proof (len_nonneg rd); pose proof (len_nonneg rd'); unfold is_u16; lia).
  unfold shortlex, str_lt; destruct (Z.compare_spec (len rd) (len rd')); auto; done.
Qed.

Lemma shortlex_irrefl a : ¬ shortlex a a.
Proof. intros [H|[_ H]]; [lia|by apply str_lt_irrefl in H]. Qed.

#[global] Instance shortlex_trans : Transitive shortlex.
Proof.
  intros a b c [H|[H1 H2]] [H'|[H1' H2']]; unfold shortlex; [left; lia..|].
  right; split; [lia|by etrans].
Qed.

Lemma shortlex_unique l l' :
  StronglySorted shortlex l → StronglySorted shortlex l' → (∀ x, x ∈ l ↔ x ∈ l') → l = l'.
Proof.
  intros H H' Heq.
  assert (Hnd : ∀ l, StronglySorted shortlex l → NoDup l).
  { induction 1 as [|x k _ IH Hx]; constructor; [|done]; intros Hin.
    rewrite Forall_forall in Hx; by apply (shortlex_irrefl x), Hx. }
  assert (AntiSymm (=) shortlex) as Hanti.
  { intros a b Hab Hba; exfalso; apply (shortlex_irrefl a); by etrans. }
  eapply StronglySorted_unique; [done..|]; apply NoDup_Permutation; auto.
Qed.

Lemma Forall2_exists {A B} (R : A → B → Prop) l :
  (∀ x, x ∈ l → ∃ y, R x y) ↔ ∃ l', Forall2 R l l'.
Proof.
  split.
  - induction l as [|x l IH]; intros H; [by exists []|].
    destruct (H x) as [y Hy]; [by left|]; destruct IH as [l' Hl']; [intros; apply H; by right|].
    exists (y :: l'); by constructor.
  - intros [l' Hl] x Hx; apply list_elem_of_lookup in Hx as [i Hi].
    destruct (Forall2_lookup_l _ _ _ _ _ Hl Hi) as (y & _ & Hy); eauto.
Qed.

Definition signed_data (sg : RrsigRecord) (first : ResourceRecord) (labels rds : list bytes) : bytes :=
  rrsig_prefix sg ++
  concat (signed_record
    (set_head sg first (canonical_of_labels (signed_owner labels (rrsig_labels sg)))) <$> rds).

(** The data of the records of a set. *)
Definition data_of (p : bytes) (rrset : list ResourceRecord) (rds : list bytes) : Prop :=
  ∀ rd, rd ∈ rds ↔ ∃ r, r ∈ rrset ∧ canonical_rdata p r = Ok rd.

Lemma covered_data p sg first rrset rds :
  Forall2 (covered p sg first) rrset rds → data_of p rrset rds.
Proof.
  intros HF rd; split.
  - intros Hin; apply list_elem_of_lookup in Hin as [i Hi].
    destruct (Forall2_lookup_r _ _ _ _ _ HF Hi) as (r & Hr & _ & _ & _ & Hc & _).
    exists r; split; [by eapply list_elem_of_lookup_2|done].
  - intros (r & Hin & Hc); apply list_elem_of_lookup in Hin as [i Hi].
    destruct (Forall2_lookup_l _ _ _ _ _ HF Hi) as (rd' & Hr & _ & _ & _ & Hc' & _).
    rewrite Hc in Hc'; apply Ok_inj in Hc' as <-; by eapply list_elem_of_lookup_2.
Qed.

Lemma sorted_records p sg first rrset rds h :
  Forall2 (covered p sg first) rrset rds →
  ∃ rds', dedup (sort_by bytes_le (signed_record h <$> rds)) = signed_record h <$> rds' ∧
    StronglySorted shortlex rds' ∧ data_of p rrset rds'.
Proof.
  intros HF; destruct (sorted_set (signed_record h <$> rds)) as [Hs Hin].
  assert (Hlen : Forall (λ rd, len rd ≤ 65535) rds).
  { apply Forall_forall; intros rd Hrd; apply list_elem_of_lookup in Hrd as [i Hi].
    by destruct (Forall2_lookup_r _ _ _ _ _ HF Hi) as (r & Hr & _ & _ & _ & _ & Hl). }
  destruct (fmap_form (signed_record h) (λ rd, len rd ≤ 65535 ∧ rd ∈ rds)
    (dedup (sort_by bytes_le (signed_record h <$> rds)))) as (rds' & Heq & HQ).
  { intros y [rd [-> Hrd]]%Hin%list_elem_of_fmap; exists rd; split_and!; [done| |done].
    rewrite Forall_forall in Hlen; by apply Hlen. }
  exists rds'; rewrite Heq in Hs, Hin; split_and!; [done| |].
  - eapply shortlex_of_records; [|done]; eapply Forall_impl; [exact HQ|]; by intros rd [? _].
  - intros rd; rewrite <-(covered_data _ _ _ _ _ HF rd); split.
    + intros Hrd; rewrite Forall_forall in HQ; by apply HQ.
    + intros Hrd; specialize (Hin (signed_record h rd)).
      rewrite !list_elem_of_fmap in Hin; destruct (proj2 Hin) as (rd' & Heq' & Hrd'); [eauto|].
      rewrite Forall_forall in HQ; destruct (HQ rd' Hrd') as [Hl' _].
      unfold signed_record in Heq'; apply app_inv_head in Heq'.
      by apply app_inj_1 in Heq' as [_ ->].
Qed.

Lemma data_unique p rrset rds rds' :
  StronglySorted shortlex rds → StronglySorted shortlex rds' →
  data_of p rrset rds → data_of p rrset rds' → rds = rds'.
Proof. intros ?? H H'; apply shortlex_unique; [done..|]; intros x; rewrite (H x); symmetry; apply H'. Qed.

Lemma parse_rrsig_labels p s sg :
  bytes_ok (r_rdata s) → parse_rrsig p s = Ok sg → 0 ≤ rrsig_labels sg.
Proof.
  intros Hb H; unfold parse_rrsig in H; case_match; [done|]; inv_ok; cbn.
  match goal with Hi : index _ 3 = Ok _ |- _ => apply or_panic_Ok in Hi; rename Hi into H' end.
  eapply bytes_ok_bget in Hb; [|exact H']; unfold is_u8 in Hb; lia.
Qed.

Lemma of_wire_Ok {A} (r : wres A) a : of_wire r = Ok a ↔ r = Ok a.
Proof. destruct r; cbn; split; congruence. Qed.

Lemma signed_data_parts p s sg first rest d :
  parse_rrsig p s = Ok sg →
  canonical_signed_data p s (first :: rest) = Ok d ↔
  ∃ owner recs, canonical_owner (canonical_wire (r_name first)) (rrsig_labels sg) = Ok owner ∧
    canonical_records p sg owner (r_class first) (canonical_wire (r_name first)) (first :: rest) = Ok recs ∧
    d = rrsig_prefix sg ++ concat (dedup (sort_by bytes_le recs)).
Proof.
  intros Hsg; unfold canonical_signed_data; rewrite Hsg; split.
  - intros (sg' & [= <-] & (owner & Ho & (recs & Hr & [= <-])%bind_Ok)%bind_Ok)%bind_Ok.
    exists owner, recs; split_and!; [by apply of_wire_Ok in Ho|by apply of_wire_Ok in Hr|done].
  - intros (owner & recs & Ho & Hr & ->); cbn [of_wire map_err mbind outcome_bind].
    by rewrite Ho; cbn [of_wire map_err mbind outcome_bind]; rewrite Hr.
Qed.

Lemma signed_data_iff p s sg first rest labels d :
  parse_rrsig p s = Ok sg → bytes_ok (r_rdata s) →
  canonical_wire (r_name first) = canonical_of_labels labels → Forall label_ok labels →
  canonical_signed_data p s (first :: rest) = Ok d ↔
  rrsig_labels sg ≤ len labels ∧
  (∀ r, r ∈ first :: rest → ∃ rd, covered p sg first r rd) ∧
  ∃ rds, StronglySorted shortlex rds ∧ data_of p (first :: rest) rds ∧
    d = signed_data sg first labels rds.
Proof.
  intros Hsg Hb Hw Hl; pose proof (parse_rrsig_labels _ _ _ Hb Hsg) as Hk.
  rewrite (signed_data_parts _ _ _ _ _ _ Hsg), Forall2_exists; split.
  - intros (owner & recs & Ho & (rds & HF & ->)%canonical_records_iff & ->).
    rewrite Hw, canonical_owner_exact in Ho by done; case_match; [done|]; boolp; apply Ok_inj in Ho as <-.
    destruct (sorted_records _ _ _ _ _ (set_head sg first
      (canonical_of_labels (signed_owner labels (rrsig_labels sg)))) HF) as (rds' & Heq & Hs & Hd).
    rewrite Heq; split; [lia|]; split; [by exists rds|]; by exists rds'.
  - intros (Hlab & [rds HF] & rds' & Hs' & Hd' & ->).
    destruct (sorted_records _ _ _ _ _ (set_head sg first
      (canonical_of_labels (signed_owner labels (rrsig_labels sg)))) HF) as (rds'' & Heq & Hs & Hd).
    exists (canonical_of_labels (signed_owner labels (rrsig_labels sg))), (signed_record (set_head sg first
      (canonical_of_labels (signed_owner labels (rrsig_labels sg)))) <$> rds); split_and!.
    + rewrite Hw, canonical_owner_exact by done; by rewrite (proj2 (Z.ltb_ge _ _)) by lia.
    + apply canonical_records_iff; eauto.
    + rewrite Heq, (data_unique _ _ _ _ Hs Hs' Hd Hd'); done.
Qed.

(** ** Accepting a signature *)

Lemma land_bit f k : 0 ≤ k → (Z.land f (Z.shiftl 1 k) =? 0) = negb (Z.testbit f k).
Proof.
  intros Hk; rewrite Z.shiftl_1_l; destruct (Z.testbit f k) eqn:Hb; cbn.
  - apply Z.eqb_neq; intros H; assert (Z.testbit (Z.land f (2 ^ k)) k = true) as Ht.
    { by rewrite Z.land_spec, Hb, Z.pow2_bits_true. }
    by rewrite H, Z.bits_0 in Ht.
  - apply Z.eqb_eq, Z.bits_inj'; intros i Hi; rewrite Z.land_spec, Z.bits_0.
    destruct (decide (i = k)) as [->|]; [by rewrite Hb|].
    by rewrite Z.pow2_bits_false, andb_false_r.
Qed.

(** The seconds of a time, as the 32 bits of a signature hold them. *)
Definition signature_clock (now : Z) : Z := Z.min u32_max (now / 1000000000).

Lemma time_valid_iff sg now :
  rrsig_time_valid sg now = true ↔
  0 ≤ now ∧ rrsig_inception sg ≤ signature_clock now + 3600 ∧
  signature_clock now ≤ rrsig_expiration sg + 3600.
Proof.
  unfold rrsig_time_valid, signature_clock, SIGNATURE_TIME_SKEW, u32_max, u64_max.
  destruct (now <? 0) eqn:Hn; boolp; [split; [done|lia]|].
  rewrite andb_true_iff, !Z.leb_le; lia.
Qed.

(** What the records themselves must satisfy. *)
Record acceptable (p : bytes) (s k : ResourceRecord) (sg : RrsigRecord) (key : DnskeyRecord)
    (first : ResourceRecord) (rrset : list ResourceRecord) (now : Z) : Prop := {
  ac_signature : parse_rrsig p s = Ok sg;
  ac_key : parse_dnskey k = Ok key;
  ac_class : r_class s = r_class first ∧ r_class k = r_class first;
  ac_owner : canonical_wire (r_name s) = canonical_wire (r_name first);
  ac_signer : canonical_wire (r_name k) = canonical_wire (rrsig_signer sg);
  ac_algorithm : dnskey_algorithm key = rrsig_algorithm sg;
  ac_tag : dnskey_key_tag k = Ok (rrsig_key_tag sg);
  ac_zone_key : Z.testbit (dnskey_flags key) 8 = true;
  ac_not_revoked : Z.testbit (dnskey_flags key) 7 = false;
  ac_ttl : Forall (λ r, r_ttl r ≤ rrsig_original_ttl sg) rrset;
  ac_time : 0 ≤ now ∧ rrsig_inception sg ≤ signature_clock now + 3600 ∧
            signature_clock now ≤ rrsig_expiration sg + 3600;
}.

Lemma ttl_existsb sg rrset :
  existsb (λ r, rrsig_original_ttl sg <? r_ttl r) rrset = false ↔
  Forall (λ r, r_ttl r ≤ rrsig_original_ttl sg) rrset.
Proof.
  induction rrset as [|r rrset IH]; cbn [existsb]; [split; [constructor|done]|].
  rewrite orb_false_iff, Z.ltb_ge, IH, Forall_cons; tauto.
Qed.

Section accepting.
Context (verify : Z → bytes → bytes → bytes → Z).

Lemma verify_signature_true a key d sig :
  verify_signature verify a key d sig = Ok true ↔
  a ∈ [5; 7; 8; 10; 13; 14; 15] ∧ verify a key d sig = 1.
Proof.
  unfold verify_signature; case_bool_decide as Ha; cbn [negb]; [|split; [done|tauto]].
  destruct (verify a key d sig =? 1) eqn:H1; boolp; [tauto|].
  split; [by repeat case_match|by intros [_ ?]].
Qed.

Lemma verify_rrsig_true p s first rest k now :
  verify_rrsig verify p s (first :: rest) k now = Ok true ↔
  ∃ sg key d, acceptable p s k sg key first (first :: rest) now ∧
    canonical_signed_data p s (first :: rest) = Ok d ∧
    rrsig_algorithm sg ∈ [5; 7; 8; 10; 13; 14; 15] ∧
    verify (rrsig_algorithm sg) (dnskey_public_key key) d (rrsig_signature sg) = 1.
Proof.
  unfold verify_rrsig; split.
  - intros (sg & Hsg%of_wire_Ok & (key & Hkey%of_wire_Ok & H)%bind_Ok)%bind_Ok.
    destruct (_ || _) eqn:Hc in H; [done|]; boolp.
    apply bind_Ok in H as (tag & Htag%of_wire_Ok & H); destruct (_ || _) eqn:Hd in H; [done|].
    apply bind_Ok in H as (d & Hdata & [Ha Hv]%verify_signature_true).
    repeat (apply orb_false_iff in Hd as [Hd ?]); boolp.
    assert (Hbit : ∀ n, 0 ≤ n → Z.land (dnskey_flags key) (Z.shiftl 1 n) = 0 ↔
      Z.testbit (dnskey_flags key) n = false).
    { intros n Hn; by rewrite <-negb_true_iff, <-land_bit, Z.eqb_eq. }
    exists sg, key, d; split_and!; try done; split; try done.
    + congruence.
    + apply not_false_iff_true; intros Hz; by apply Hbit in Hz.
    + by apply Hbit.
    + by apply ttl_existsb.
    + by apply time_valid_iff.
  - intros (sg & key & d & [] & Hdata & Ha & Hv); destruct ac_class0 as [Hc1 Hc2].
    rewrite ac_signature0, ac_key0; cbn [of_wire map_err mbind outcome_bind].
    rewrite Hc1, Hc2, ac_owner0, ac_signer0, ac_algorithm0, ac_tag0, !Z.eqb_refl.
    rewrite !bool_decide_true by done; cbn [of_wire map_err mbind outcome_bind negb orb].
    unfold DNSKEY_FLAG_ZONE_KEY, DNSKEY_FLAG_REVOKE.
    rewrite Z.eqb_refl, !land_bit, ac_zone_key0, ac_not_revoked0 by lia.
    rewrite (proj2 (ttl_existsb _ _) ac_ttl0), (proj2 (time_valid_iff _ _) ac_time0), Hdata.
    by apply verify_signature_true.
Qed.
End accepting.

Lemma of_wire_safe {A} (r : wres A) (Q : A → Prop) : wp r Q → wp (of_wire r) Q.
Proof. by destruct r. Qed.

Lemma signed_data_safe p s first rest :
  packet_ok p → bytes_ok (r_rdata s) → bytes_ok (canonical_wire (r_name first)) →
  safe (canonical_signed_data p s (first :: rest)).
Proof.
  intros Hp Hs Hf; unfold canonical_signed_data; apply wp_bind, of_wire_safe, safe_wp;
    [by apply parse_rrsig_safe|].
  intros sg Hsg; apply wp_bind, of_wire_safe; eapply wp_mono.
  { apply canonical_owner_safe; [done|by eapply parse_rrsig_labels]. }
  intros owner _; apply wp_bind, of_wire_safe; eapply (wp_mono _ (λ _, True)); [|done].
  generalize (r_class first) (canonical_wire (r_name first)); intros class name.
  induction (first :: rest) as [|r rrset IH]; [done|]; cbn [canonical_records]; apply wp_bind.
  apply (wp_mono _ (λ _, True)); [|intros x _; apply wp_bind; by eapply wp_mono; [apply IH|]].
  unfold canonical_record; case_match; [done|]; apply wp_bind.
  eapply wp_mono; [by apply canonical_rdata_safe|]; intros rd _; by case_match.
Qed.

Lemma dnskey_key_tag_safe r : safe (dnskey_key_tag r).
Proof.
  unfold dnskey_key_tag; case_match; [done|]; boolp; apply wp_bind, index_wp; [lia|]; intros a _.
  repeat (case_match; [try done|]); [|done]; boolp.
  apply wp_bind, index_wp; [lia|]; intros b _; apply wp_bind, index_wp; [lia|]; done.
Qed.

Lemma verify_rrsig_safe verify p s first rest k now :
  packet_ok p → bytes_ok (r_rdata s) → bytes_ok (canonical_wire (r_name first)) →
  safe (verify_rrsig verify p s (first :: rest) k now).
Proof.
  intros Hp Hs Hf; unfold verify_rrsig; apply wp_bind, of_wire_safe.
  eapply wp_mono; [by apply parse_rrsig_safe|]; intros sg _; apply wp_bind, of_wire_safe.
  apply safe_wp; [by apply parse_dnskey_safe|]; intros key Hkey; case_match; [done|].
  apply wp_bind, of_wire_safe; eapply wp_mono; [apply dnskey_key_tag_safe|]; intros tag _.
  case_match; [done|]; apply wp_bind; eapply wp_mono; [by apply signed_data_safe|]; intros d _.
  unfold verify_signature; by repeat case_match.
Qed.

(** ** Properties *)

(** C9: signatures are accepted exactly as DNSSEC prescribes, the order of the
    records apart.  [verify_rrsig] never panics; it accepts a signature exactly
    when signature and key parse, belong to the record set (class, owner,
    signer, algorithm, key tag), the key is a zone key that is not revoked, no
    record outlives its original TTL, the time is within an hour of the
    validity, every record has the covered type, and the cryptographic check
    accepts the signed data: the fields of the signature, then each distinct
    record once, with the original TTL, its data in canonical form, under its
    owner or under the wildcard of the labels the signature counts.  The
    records come in the order of the length of their data, then of the octets. *)
Theorem rrsig_accepted_exact verify p s first rest k now labels :
  packet_ok p → bytes_ok (r_rdata s) → labels_ok labels →
  canonical_wire (r_name first) = canonical_of_labels labels →
  safe (verify_rrsig verify p s (first :: rest) k now) ∧
  (verify_rrsig verify p s (first :: rest) k now = Ok true ↔
   ∃ sg key rds, acceptable p s k sg key first (first :: rest) now ∧
     rrsig_labels sg ≤ len labels ∧
     (∀ r, r ∈ first :: rest → ∃ rd, covered p sg first r rd) ∧
     StronglySorted shortlex rds ∧ data_of p (first :: rest) rds ∧
     rrsig_algorithm sg ∈ [5; 7; 8; 10; 13; 14; 15] ∧
     verify (rrsig_algorithm sg) (dnskey_public_key key) (signed_data sg first labels rds)
       (rrsig_signature sg) = 1).
Proof.
  intros Hp Hs Hok Hw; pose proof (proj1 Hok) as Hl; split.
  { apply verify_rrsig_safe; [done..|]; rewrite Hw; by apply canonical_of_labels_ok. }
  rewrite verify_rrsig_true; split.
  - intros (sg & key & d & Hac & Hd & Ha & Hv); pose proof (ac_signature _ _ _ _ _ _ _ _ Hac) as Hsg.
    apply (signed_data_iff _ _ _ _ _ _ _ Hsg Hs Hw Hl) in Hd as (Hk & Hc & rds & Hso & Hda & ->).
    by exists sg, key, rds.
  - intros (sg & key & rds & Hac & Hk & Hc & Hso & Hda & Ha & Hv).
    pose proof (ac_signature _ _ _ _ _ _ _ _ Hac) as Hsg.
    exists sg, key, (signed_data sg first labels rds); split_and!; [done| |done..].
    apply (signed_data_iff _ _ _ _ _ _ _ Hsg Hs Hw Hl); split_and!; [done..|]; by exists rds.
Qed.

(** The set [MX 10 mail], [MX 20 a] of the root-level name [x], and a signature. *)
Definition example_mx (preference : Z) (host : bytes) : bytes :=
  [1; 120; 0; 0; 15; 0; 1; 0; 0; 0; 60] ++ u16_bytes (4 + len host) ++ [0; preference; len host] ++
  host ++ [0].
Definition example_signed : bytes :=
  example_mx 10 [109; 97; 105; 108] ++ example_mx 20 [97] ++
  [1; 88; 0; 0; 46; 0; 1; 0; 0; 0; 60; 0; 22] ++
  [0; 15; 15; 1; 0; 0; 0; 60; 0; 0; 39; 16; 0; 0; 19; 136; 4; 0; 1; 120; 0; 7].
Definition example_key : bytes :=
  [1; 120; 0; 0; 48; 0; 1; 0; 0; 0; 60; 0; 6; 1; 0; 3; 15; 255; 240].

Definition record_at (p : bytes) (o : Z) : ResourceRecord :=
  match parse_record p o with
  | Ok r => r
  | _ => mk_record (mk_name [] []) 0 0 0 0 0 [] 0
  end.

Lemma rrsig_accepted_exact_witness :
  let verify := λ _ _ data signature,
    if bool_decide (signature = [7] ∧ len data = 60) then 1 else 0 in
  let first := record_at example_signed 0 in
  let rest := [record_at example_signed 21] in
  let s := record_at example_signed 39 in
  let k := record_at example_key 0 in
  let now := 7000000000000 in
  verify_rrsig verify example_signed s (first :: rest) k now = Ok true ∧
  ∃ sg key rds, acceptable example_signed s k sg key first (first :: rest) now ∧
    rrsig_labels sg ≤ 1 ∧ StronglySorted shortlex rds ∧
    data_of example_signed (first :: rest) rds.
Proof.
  cbv zeta.
  match goal with |- ?P ∧ _ => assert (Hok : P) by (by vm_compute) end; split; [exact Hok|].
  apply (rrsig_accepted_exact _ _ _ _ _ _ _ [[120]]) in Hok as (sg & key & rds & H1 & H2 & _ & H4 & H5 & _).
  - by exists sg, key, rds.
  - by apply packet_okb_ok.
  - by apply packet_okb_ok.
  - by apply labels_okb_ok.
  - by vm_compute.
Defined.

(** The size of the digest of each type that is supported. *)
Definition digest_size (digest_type : Z) : option Z :=
  if digest_type =? 1 then Some 20
  else if digest_type =? 2 then Some 32
  else if digest_type =? 4 then Some 48 else None.

(** A delegation is accepted exactly when its digest is that of the key.
    [ds_matches_dnskey] accepts exactly when both records parse, algorithm and
    key tag agree, the digest type is supported, and the digest of the key's
    canonical owner followed by its data, complete, is the one of the DS record;
    a digest type that is not supported is an error, never an acceptance. *)
Theorem ds_accepted_exact digest d k :
  ds_matches_dnskey digest d k = Ok true ↔
  ∃ ds key n, parse_ds d = Ok ds ∧ parse_dnskey k = Ok key ∧
    ds_algorithm ds = dnskey_algorithm key ∧ dnskey_key_tag k = Ok (ds_key_tag ds) ∧
    digest_size (ds_digest_type ds) = Some n ∧
    digest (ds_digest_type ds) (canonical_wire (r_name k) ++ r_rdata k) n = (n, ds_digest ds).
Proof.
  unfold ds_matches_dnskey, dnskey_ds_digest, digest_size; split.
  - intros (ds & Hds%of_wire_Ok & (key & Hkey%of_wire_Ok & H)%bind_Ok)%bind_Ok.
    destruct (negb _) eqn:Ha in H; [done|]; apply bind_Ok in H as (tag & Ht%of_wire_Ok & H).
    destruct (negb _) eqn:Hg in H; [done|]; boolp.
    apply bind_Ok in H as (out & H & Hout); apply Ok_inj, bool_decide_eq_true_1 in Hout as <-.
    apply bind_Ok in H as (? & _ & (n & Hn & H)%bind_Ok).
    destruct (digest (ds_digest_type ds) _ n) as [result out] eqn:Hd.
    destruct (result <? 0); [done|]; destruct (negb _) eqn:Hr in H; [done|]; boolp.
    apply Ok_inj in H; subst; exists ds, key, n; rewrite Hd; split_and!; try done.
    by repeat case_match; inversion Hn.
  - intros (ds & key & n & Hds & Hkey & Ha & Ht & Hn & Hd).
    rewrite Hds, Hkey; cbn [of_wire map_err mbind outcome_bind].
    rewrite Ha, Z.eqb_refl, Ht; cbn [negb of_wire map_err mbind outcome_bind]; rewrite Z.eqb_refl.
    assert (0 ≤ n) by (repeat case_match; simplify_eq; lia).
    cbn [negb]; destruct (ds_digest_type ds =? 1), (ds_digest_type ds =? 2), (ds_digest_type ds =? 4);
      simplify_eq; cbn [mbind outcome_bind]; rewrite Hd; cbn; by rewrite bool_decide_true.
Qed.
