(* ===== verification/CacheX.v ===== *)
(** * The sharded cache

    Models [src/cache_x.rs]: the hash of a DNS name, the cache entry and its
    lifetime, the shards, insertion with eviction, lookup, flush, length and
    snapshot, and the keys made from labels.

    Times ([Instant]) and durations are in nanoseconds; a sum that no [Instant]
    holds is a panic.  The order in which a shard is iterated when it evicts is a parameter. *)

From S2P Require Import Prelude Text Sorting.

Record XKey : Type := mk_xkey {
  x_owner : bytes;
  x_qtype : Z;
  x_qclass : Z;
}.

#[global] Instance XKey_eq_dec : EqDecision XKey.
Proof. solve_decision. Defined.
#[global] Instance XKey_countable : Countable XKey.
Proof.
  refine (inj_countable' (λ k, (x_owner k, x_qtype k, x_qclass k))
    (λ '(o, t, c), mk_xkey o t c) _).
  by intros [].
Defined.

(** ** Hashing *)

Definition u64_wrapping_mul (a b : Z) : Z := (a * b) mod 2 ^ 64.

Definition FNV_OFFSET : Z := 0xcbf29ce484222325.
Definition FNV_PRIME : Z := 0x100000001b3.

(** [for _ in 0..len] over the octets of a label; reading past the end is a
    panic ([dns_name_hash_safe]). *)
Fixpoint hash_label (n : nat) (wire : bytes) (i h : Z) : outcome Empty_set (Z * Z) :=
  match n with
  | O => Ok (i, h)
  | S n =>
      b ← or_panic (bget wire i);
      let folded := lower_char b in
      let h := u64_wrapping_mul (Z.lxor h folded) FNV_PRIME in
      hash_label n wire (i + 1) h
  end.

(** [while i < wire.len()]; the boolean tells the early return. *)
Fixpoint hash_loop (fuel : nat) (wire : bytes) (i h : Z) :
    outcome Empty_set (Z * bool) :=
  match fuel with
  | O => Diverge
  | S fuel =>
      if i <? len wire then
        length ← or_panic (bget wire i);
        if length =? 0 then Ok (u64_wrapping_mul (Z.lxor h 0xff) FNV_PRIME, false)
        else if (63 <? length) || (len wire <? i + 1 + length)
        then Ok (Z.lxor h 0xDEADBEEFCAFEBABE, true)
        else
          '(i, h) ← hash_label (Z.to_nat length) wire (i + 1) h;
          hash_loop fuel wire i (u64_wrapping_mul (Z.lxor h 0x2e) FNV_PRIME)
      else Ok (h, false)
  end.

Definition dns_name_hash (wire : bytes) : outcome Empty_set Z :=
  '(h, poisoned) ← hash_loop (S (length wire)) wire 0 FNV_OFFSET;
  if (poisoned : bool) then Ok h
  else
    let x := h in
    let x := Z.lxor x (Z.shiftr x 32) in
    let x := u64_wrapping_mul x 0xe7037ed1a0b428db in
    let x := Z.lxor x (Z.shiftr x 32) in
    Ok x.

(** ** Entries *)

Record CacheEntry : Type := mk_entry {
  e_rcode : Z;
  e_answer : bytes;
  e_inserted : Z;
  e_expires_at : Z;
  e_stale_until : Z;
  e_dnssec_secure : bool;
  e_insert_gen : Z;
}.

Definition is_fresh (e : CacheEntry) (now : Z) : bool := now <? e_expires_at e.

Definition is_servable_stale (e : CacheEntry) (now : Z) : bool :=
  (e_expires_at e <=? now) && (now <? e_stale_until e).

Inductive Lookup : Type :=
  | Fresh (e : CacheEntry)
  | Stale (e : CacheEntry)
  | Miss.

Abbreviation shard_map := (gmap XKey CacheEntry).

Record Shard : Type := mk_shard {
  s_map : shard_map;
  s_live : Z;
}.

Record GlobalCache : Type := mk_cache {
  c_shards : list Shard;
  c_shard_mask : Z;
  c_max_per_shard : Z;
  c_stale_window : Z;
  c_gen : Z;
  c_hits : Z;
  c_misses : Z;
  c_stale_hits : Z;
}.

Definition clamp_ttl (ttl rcode : Z) : Z :=
  let max :=
    if (rcode =? 3) || (rcode =? 0)
    then (if rcode =? 3 then 1800 else 3600) * second
    else 86400 * second in
  let min := 1 * second in
  clamp ttl min max.

(** ** Eviction *)

(** The closure of [map.retain]: the entries left, and how many were removed. *)
Fixpoint retain_loop (now budget removed : Z) (entries : list (XKey * CacheEntry))
    (m : shard_map) : shard_map * Z :=
  match entries with
  | [] => (m, removed)
  | (k, e) :: entries =>
      if budget <=? removed then retain_loop now budget removed entries m
      else if negb (is_fresh e now) && negb (is_servable_stale e now)
      then retain_loop now budget (removed + 1) entries (delete k m)
      else retain_loop now budget removed entries m
  end.

Definition gen_le (a b : Z * XKey) : bool := a.1 <=? b.1.

Section cache.
Context `{io : !IterOrder XKey CacheEntry}.

Definition evict_expired_or_oldest (token : Z) (m : shard_map) (now budget : Z) :
    shard_map :=
  let '(m, removed) := retain_loop now budget 0 (iter_order token m) m in
  if (budget <=? removed) || bool_decide (m = ∅) then m
  else
    let gens := (λ '(k, e), (e_insert_gen e, k)) <$> iter_order token m in
    let gens := sort_by gen_le gens in
    foldl (λ m '(_, k), delete k m) m
      (take (Z.to_nat (saturating_sub budget removed)) gens).

(** ** Operations *)

Definition cache_new (shard_bits max_per_shard stale_window : Z) :
    outcome Empty_set GlobalCache :=
  if (0 <? shard_bits) && (shard_bits <=? 12) then
    let n := Z.shiftl 1 shard_bits in
    Ok (mk_cache (replicate (Z.to_nat n) (mk_shard ∅ 0)) (n - 1) max_per_shard
          stale_window 1 0 0 0)
  else Panic.

Definition shard_idx (c : GlobalCache) (key : XKey) : outcome Empty_set Z :=
  h ← dns_name_hash (x_owner key);
  Ok (Z.land (Z.lxor (Z.lxor h (Z.shiftl (x_qtype key) 16)) (x_qclass key))
        (c_shard_mask c)).

Definition u64_incr (v : Z) : Z := (v + 1) mod 2 ^ 64.

Definition lookup (c : GlobalCache) (key : XKey) (now : Z) :
    outcome Empty_set (Lookup * GlobalCache) :=
  idx ← shard_idx c key;
  shard ← or_panic (bget (c_shards c) idx);
  match s_map shard !! key with
  | Some e =>
      if is_fresh e now then
        Ok (Fresh e, mk_cache (c_shards c) (c_shard_mask c) (c_max_per_shard c)
              (c_stale_window c) (c_gen c) (u64_incr (c_hits c)) (c_misses c)
              (c_stale_hits c))
      else if is_servable_stale e now then
        Ok (Stale e, mk_cache (c_shards c) (c_shard_mask c) (c_max_per_shard c)
              (c_stale_window c) (c_gen c) (c_hits c) (c_misses c)
              (u64_incr (c_stale_hits c)))
      else
        Ok (Miss, mk_cache (c_shards c) (c_shard_mask c) (c_max_per_shard c)
              (c_stale_window c) (c_gen c) (c_hits c) (u64_incr (c_misses c))
              (c_stale_hits c))
  | None =>
      Ok (Miss, mk_cache (c_shards c) (c_shard_mask c) (c_max_per_shard c)
            (c_stale_window c) (c_gen c) (c_hits c) (u64_incr (c_misses c))
            (c_stale_hits c))
  end.

Definition shard_insert (c : GlobalCache) (shard : Shard) (key : XKey)
    (entry : CacheEntry) (now : Z) : Shard :=
  let m :=
    if c_max_per_shard c <=? Z.of_nat (size (s_map shard))
    then evict_expired_or_oldest (c_gen c) (s_map shard) now
           (c_max_per_shard c / 16 + 1)
    else s_map shard in
  let new := bool_decide (m !! key = None) in
  mk_shard (<[key := entry]> m)
    (if new then u64_incr (s_live shard) else s_live shard).

Definition cache_insert (c : GlobalCache) (key : XKey) (rcode : Z) (answer : bytes)
    (ttl : Z) (dnssec_secure : bool) (now : Z) : outcome Empty_set GlobalCache :=
  let ttl := clamp_ttl ttl rcode in
  expires_at ← instant_add now ttl;
  stale_until ← (expires ← instant_add now ttl; instant_add expires (c_stale_window c));
  let entry := mk_entry rcode answer now expires_at stale_until dnssec_secure (c_gen c) in
  idx ← shard_idx c key;
  shard ← or_panic (bget (c_shards c) idx);
  Ok (mk_cache (<[Z.to_nat idx := shard_insert c shard key entry now]> (c_shards c))
        (c_shard_mask c) (c_max_per_shard c) (c_stale_window c) (u64_incr (c_gen c))
        (c_hits c) (c_misses c) (c_stale_hits c)).

Definition cache_flush (c : GlobalCache) : GlobalCache :=
  mk_cache ((λ _, mk_shard ∅ 0) <$> c_shards c) (c_shard_mask c)
    (c_max_per_shard c) (c_stale_window c) (c_gen c) (c_hits c) (c_misses c)
    (c_stale_hits c).

Definition cache_len (c : GlobalCache) : Z :=
  foldr (λ s n, s_live s + n) 0 (c_shards c).

(** The lexicographic order of octet strings ([<[u8]>::cmp]). *)
Fixpoint bytes_compare (a b : bytes) : comparison :=
  match a, b with
  | [], [] => Eq
  | [], _ => Lt
  | _, [] => Gt
  | x :: a, y :: b =>
      match x ?= y with Eq => bytes_compare a b | c => c end
  end.

(** [Ordering::then_with]. *)
Definition then_with (a b : comparison) : comparison :=
  match a with Eq => b | _ => a end.

Definition snapshot_compare (l r : XKey * CacheEntry) : comparison :=
  then_with (bytes_compare (x_owner l.1) (x_owner r.1))
    (then_with (x_qclass l.1 ?= x_qclass r.1)
       (then_with (x_qtype l.1 ?= x_qtype r.1)
          (e_insert_gen l.2 ?= e_insert_gen r.2))).

Definition snapshot_le (l r : XKey * CacheEntry) : bool :=
  match snapshot_compare l r with Gt => false | _ => true end.

Definition cache_snapshot (c : GlobalCache) (now : Z) : list (XKey * CacheEntry) :=
  sort_by snapshot_le
    (c_shards c ≫= λ shard,
       List.filter (λ '(_, e), is_fresh e now || is_servable_stale e now)
         (iter_order (c_gen c) (s_map shard))).
End cache.

(** ** Keys from labels *)

Inductive NameErr : Type := BadLabel | TooLong.

Fixpoint owner_labels (labels : list bytes) (total : Z) (out : bytes) :
    outcome NameErr bytes :=
  match labels with
  | [] => Ok (out ++ [0])
  | lab :: labels =>
      if bool_decide (lab = []) || (63 <? len lab) then Err BadLabel
      else
        let total := total + (len lab + 1) in
        if 255 <? total then Err TooLong
        else owner_labels labels total (out ++ len lab :: to_ascii_lowercase lab)
  end.

Definition owner_to_wire_lower (labels : list bytes) : outcome NameErr bytes :=
  owner_labels labels 0 [].
