(* ===== verification/CacheXFacts.v ===== *)
(** * The sharded cache: theorems

    Hashing is total and ignores case; eviction removes exactly as many entries
    as asked, the expired ones first and then the oldest; the operations keep
    the invariant of the cache ([cache_wf]), never exceed its capacity, and a
    lookup only ever returns what was last inserted under its key. *)

From S2P Require Import Prelude Text Sorting CacheX.

(** ** Hashing *)

Definition is_u64 (v : Z) : Prop := 0 ≤ v < 2 ^ 64.

Lemma u64_mul_range a b : is_u64 (u64_wrapping_mul a b).
Proof. apply Z.mod_pos_bound; lia. Qed.

Lemma lxor_u64 a b : is_u64 a → is_u64 b → is_u64 (Z.lxor a b).
Proof.
  unfold is_u64; intros Ha Hb; split; [apply Z.lxor_nonneg; lia|].
  destruct (decide (Z.lxor a b = 0)) as [->|Hne]; [lia|].
  apply Z.log2_lt_pow2; [pose proof (proj2 (Z.lxor_nonneg a b)); lia|].
  eapply Z.le_lt_trans; [apply Z.log2_lxor; lia|].
  assert (∀ x, 0 ≤ x < 2 ^ 64 → Z.log2 x < 64) as Hlog.
  { intros x Hx; destruct (decide (x = 0)) as [->|]; [cbn; lia|].
    apply Z.log2_lt_pow2; lia. }
  apply Z.max_lub_lt; by apply Hlog.
Qed.

Lemma shiftr_u64 a n : 0 ≤ n → is_u64 a → is_u64 (Z.shiftr a n).
Proof.
  unfold is_u64; intros Hn Ha; rewrite Z.shiftr_div_pow2 by done.
  pose proof (Z.pow_pos_nonneg 2 n); split; [apply Z.div_pos; lia|].
  apply Z.div_lt_upper_bound; nia.
Qed.

Lemma hash_label_Ok n w i h :
  0 ≤ i → i + Z.of_nat n ≤ len w → ∃ h', hash_label n w i h = Ok (i + Z.of_nat n, h').
Proof.
  revert i h; induction n as [|n IH]; intros i h Hi Hn; cbn [hash_label].
  { exists h; do 2 f_equal; lia. }
  destruct (bget_is_Some w i) as [b Hb]; [lia|]; rewrite Hb; cbn [or_panic mbind outcome_bind].
  destruct (IH (i + 1) (u64_wrapping_mul (Z.lxor h (lower_char b)) FNV_PRIME)) as [h' Hh'];
    [lia..|].
  exists h'; rewrite Hh'; do 2 f_equal; lia.
Qed.

Lemma hash_loop_Ok fuel w i h :
  bytes_ok w → 0 ≤ i ≤ len w → len w - i < Z.of_nat fuel → is_u64 h →
  ∃ h' b, hash_loop fuel w i h = Ok (h', b) ∧ is_u64 h'.
Proof.
  intros Hw; revert i h; induction fuel as [|fuel IH]; intros i h Hi Hf Hh; [lia|].
  cbn [hash_loop]; case_match; boolp; [|by exists h, false].
  destruct (bget_is_Some w i) as [l Hl]; [lia|]; rewrite Hl; cbn [or_panic mbind outcome_bind].
  pose proof (bytes_ok_bget _ _ _ Hw Hl) as Hu; unfold is_u8 in Hu.
  case_match; boolp; [eexists _, _; split; [done|apply u64_mul_range]|].
  case_match; boolp.
  { eexists _, _; split; [done|]; apply lxor_u64; [done|unfold is_u64; lia]. }
  destruct (hash_label_Ok (Z.to_nat l) w (i + 1) h) as [h' Hh']; [lia..|].
  rewrite Hh'; cbn [mbind outcome_bind]; apply IH; [lia..|apply u64_mul_range].
Qed.

Lemma dns_name_hash_Ok w : bytes_ok w → ∃ h, dns_name_hash w = Ok h ∧ is_u64 h.
Proof.
  intros Hw; unfold dns_name_hash.
  destruct (hash_loop_Ok (S (length w)) w 0 FNV_OFFSET Hw) as (h & b & -> & Hh).
  { pose proof (len_nonneg w); lia. }
  { unfold len; lia. }
  { unfold is_u64, FNV_OFFSET; lia. }
  cbn [mbind outcome_bind]; destruct b; [by exists h|]; eexists; split; [done|].
  assert (∀ x, is_u64 x → is_u64 (Z.lxor x (Z.shiftr x 32))) as Hx.
  { intros x Hx; apply lxor_u64; [done|]; by apply shiftr_u64. }
  apply Hx, u64_mul_range.
Qed.

Lemma bget_lower w i : bget (to_ascii_lowercase w) i = lower_char <$> bget w i.
Proof. unfold bget, to_ascii_lowercase; case_match; [apply list_lookup_fmap|done]. Qed.

Lemma hash_label_lower n w i h :
  hash_label n (to_ascii_lowercase w) i h = hash_label n w i h.
Proof.
  revert i h; induction n as [|n IH]; intros i h; [done|]; cbn [hash_label].
  rewrite bget_lower; destruct (bget w i) as [b|]; [|done].
  cbn; by rewrite lower_char_idemp, IH.
Qed.

Lemma hash_loop_lower fuel w i h :
  hash_loop fuel (to_ascii_lowercase w) i h = hash_loop fuel w i h.
Proof.
  revert i h; induction fuel as [|fuel IH]; intros i h; [done|]; cbn [hash_loop].
  rewrite to_ascii_lowercase_len; case_match; [|done].
  rewrite bget_lower; destruct (bget w i) as [l|]; [|done]; cbn [fmap option_fmap option_map
    or_panic mbind outcome_bind].
  destruct (decide (l < 65)) as [Hl|Hl].
  - replace (lower_char l) with l by (unfold lower_char; case_match; boolp; lia).
    do 2 (case_match; [done|]); rewrite hash_label_lower.
    destruct (hash_label (Z.to_nat l) w (i + 1) h) as [[i' h']|e| |]; try done; apply IH.
  - assert (65 ≤ lower_char l) by (unfold lower_char; case_match; boolp; lia).
    rewrite !(proj2 (Z.eqb_neq _ 0)), !(proj2 (Z.ltb_lt 63 _)) by lia; done.
Qed.

Lemma dns_name_hash_lower w : dns_name_hash (to_ascii_lowercase w) = dns_name_hash w.
Proof.
  unfold dns_name_hash; rewrite hash_loop_lower.
  unfold to_ascii_lowercase; by rewrite length_fmap.
Qed.

(** ** Eviction *)

Definition expired (now : Z) (e : CacheEntry) : Prop :=
  is_fresh e now = false ∧ is_servable_stale e now = false.

Definition Zsize (m : shard_map) : Z := Z.of_nat (size m).

Lemma expired_test now e :
  negb (is_fresh e now) && negb (is_servable_stale e now) = true ↔ expired now e.
Proof. by rewrite andb_true_iff, !negb_true_iff. Qed.

(** What a pass of [retain] leaves, on entries [l] that are all in the map. *)
Lemma retain_loop_spec now budget removed l (m m' : shard_map) removed' :
  retain_loop now budget removed l m = (m', removed') →
  NoDup l.*1 → (∀ k e, (k, e) ∈ l → m !! k = Some e) → removed ≤ budget →
  removed ≤ removed' ≤ budget ∧ Zsize m' + removed' = Zsize m + removed ∧ m' ⊆ m ∧
  (∀ k e, m !! k = Some e → m' !! k = None → expired now e) ∧
  (removed' < budget → ∀ k e, (k, e) ∈ l → expired now e → m' !! k = None).
Proof.
  revert removed m; induction l as [|[k e] l IH]; intros removed m H Hnd Hin Hb;
    cbn [retain_loop] in H.
  { injection H as <- <-; split_and!; [lia..|done|congruence|set_solver]. }
  rewrite fmap_cons in Hnd; cbn in Hnd; apply NoDup_cons in Hnd as [Hk Hnd].
  assert (∀ k' e', (k', e') ∈ l → m !! k' = Some e') as Hin' by set_solver.
  destruct (Z.leb_spec budget removed).
  { destruct (IH _ _ H Hnd Hin' Hb) as (? & ? & ? & ? & ?).
    split_and!; try done; lia. }
  destruct (negb _ && _) eqn:He.
  - apply expired_test in He.
    destruct (IH _ _ H Hnd) as (? & Hsize & Hsub & Hdel & Hall); [|lia|].
    { intros k' e' Hl; rewrite lookup_delete_ne; [by apply Hin'|].
      intros ->; apply Hk, list_elem_of_fmap; by exists (k', e'). }
    assert (m !! k = Some e) as Hmk by (apply Hin; set_solver).
    assert (Zsize (delete k m) = Zsize m - 1) as Hs.
    { unfold Zsize; rewrite map_size_delete, Hmk.
      assert (size m ≠ 0%nat); [|lia]; rewrite map_size_ne_0_lookup; by exists k, e. }
    split_and!; [lia..| | |].
    + trans (delete k m); [done|apply delete_subseteq].
    + intros k' e' Hm Hm'; destruct (decide (k' = k)) as [->|]; [congruence|].
      apply (Hdel k'); [by rewrite lookup_delete_ne|done].
    + intros Hlt k' e' [[= -> ->]|Hl]%elem_of_cons Hex; [|by eapply Hall].
      destruct (m' !! k) as [x|] eqn:Hx; [|done].
      by apply (lookup_weaken _ _ _ _ Hx) in Hsub; rewrite lookup_delete_eq in Hsub.
  - destruct (IH _ _ H Hnd Hin' Hb) as (? & ? & ? & ? & Hall).
    split_and!; try done; try lia.
    intros Hlt k' e' [[= -> ->]|Hl]%elem_of_cons Hex; [|by eapply Hall].
    apply expired_test in Hex; congruence.
Qed.

Definition delete_keys (m : shard_map) (l : list (Z * XKey)) : shard_map :=
  foldl (λ m '(_, k), delete k m) m l.

Lemma delete_keys_lookup m l k :
  delete_keys m l !! k = if bool_decide (k ∈ l.*2) then None else m !! k.
Proof.
  revert m; induction l as [|[g k'] l IH]; intros m; cbn [delete_keys foldl]; [done|].
  fold (delete_keys (delete k' m) l); rewrite IH, fmap_cons; cbn [snd].
  destruct (decide (k = k')) as [->|Hne].
  - rewrite lookup_delete_eq, (bool_decide_eq_true_2 (k' ∈ k' :: _)) by set_solver.
    by case_bool_decide.
  - rewrite lookup_delete_ne by done.
    rewrite (bool_decide_ext (k ∈ l.*2) (k ∈ k' :: l.*2)); [done|set_solver].
Qed.

Lemma delete_keys_size m l :
  NoDup l.*2 → (∀ k, k ∈ l.*2 → is_Some (m !! k)) →
  Zsize (delete_keys m l) = Zsize m - len l.
Proof.
  revert m; induction l as [|[g k] l IH]; intros m Hnd Hin; cbn [delete_keys foldl].
  { rewrite len_nil; lia. }
  fold (delete_keys (delete k m) l).
  rewrite fmap_cons in *; cbn [snd] in *; apply NoDup_cons in Hnd as [Hk Hnd].
  destruct (Hin k) as [e He]; [set_solver|].
  rewrite IH, len_cons; [|done|].
  - unfold Zsize; rewrite map_size_delete, He.
    assert (size m ≠ 0%nat); [|lia]; rewrite map_size_ne_0_lookup; by exists k, e.
  - intros k' Hk'; rewrite lookup_delete_ne by set_solver; apply Hin; set_solver.
Qed.

Lemma NoDup_take {A} (l : list A) n : NoDup l → NoDup (take n l).
Proof. rewrite <- (take_drop n l) at 1; by intros [? _]%NoDup_app. Qed.

Section evict.
Context `{io : !IterOrder XKey CacheEntry, !IterOrderOk io}.

Lemma iter_order_NoDup token (m : shard_map) : NoDup (iter_order token m).*1.
Proof using All. rewrite iter_order_perm; apply NoDup_fst_map_to_list. Qed.

Lemma elem_of_iter_order token (m : shard_map) k e :
  (k, e) ∈ iter_order token m ↔ m !! k = Some e.
Proof using All. by rewrite iter_order_perm, elem_of_map_to_list. Qed.

Definition generations (token : Z) (m : shard_map) : list (Z * XKey) :=
  sort_by gen_le ((λ '(k, e), (e_insert_gen e, k)) <$> iter_order token m).

Lemma elem_of_generations token m g k :
  (g, k) ∈ generations token m ↔ ∃ e, m !! k = Some e ∧ e_insert_gen e = g.
Proof using All.
  unfold generations; rewrite sort_by_perm, list_elem_of_fmap; split.
  - intros ([k' e] & [= -> ->] & Hin); exists e; by rewrite <- elem_of_iter_order.
  - intros (e & Hm & <-); exists (k, e); by rewrite elem_of_iter_order.
Qed.

Lemma generations_keys token m : (generations token m).*2 ≡ₚ (map_to_list m).*1.
Proof using All.
  unfold generations; rewrite sort_by_perm, <- list_fmap_compose, iter_order_perm.
  apply reflexive_eq, list_fmap_ext; by intros _ [k e] _.
Qed.

Lemma generations_sorted token m :
  StronglySorted (λ a b, a.1 ≤ b.1) (generations token m).
Proof using All.
  eapply StronglySorted_mono; [|apply sort_by_sorted].
  - intros a b; unfold leP, gen_le; apply Z.leb_le.
  - intros a b; unfold gen_le; rewrite !Z.leb_le; lia.
  - intros a b c; unfold gen_le; rewrite !Z.leb_le; lia.
Qed.

(** Deleting the first [n] generations. *)
Lemma oldest_removed token m n :
  0 ≤ n →
  let m' := delete_keys m (take (Z.to_nat n) (generations token m)) in
  m' ⊆ m ∧ Zsize m' = Zsize m - Z.min n (Zsize m) ∧
  ∀ k e k' e', m !! k = Some e → m' !! k = None → m' !! k' = Some e' →
    e_insert_gen e ≤ e_insert_gen e'.
Proof using All.
  intros Hn; cbn zeta; set (gens := generations token m).
  assert (len gens = Zsize m) as Hlen.
  { unfold len, Zsize, gens; rewrite <- (length_fmap snd), (generations_keys token m).
    by rewrite length_fmap, length_map_to_list. }
  assert (NoDup gens.*2) as Hnd.
  { unfold gens; rewrite generations_keys; apply NoDup_fst_map_to_list. }
  assert (∀ k e, m !! k = Some e → k ∉ (take (Z.to_nat n) gens).*2 →
    (e_insert_gen e, k) ∈ drop (Z.to_nat n) gens) as Hdrop.
  { intros k e Hm Hk; assert ((e_insert_gen e, k) ∈ gens) as Hg
      by (apply elem_of_generations; by exists e).
    rewrite <- (take_drop (Z.to_nat n) gens) in Hg.
    apply elem_of_app in Hg as [Hg|]; [|done].
    destruct Hk; apply list_elem_of_fmap; by exists (e_insert_gen e, k). }
  assert (∀ g k, (g, k) ∈ take (Z.to_nat n) gens →
    ∃ e, m !! k = Some e ∧ e_insert_gen e = g) as Htake.
  { intros g k Hg; apply (elem_of_generations token); fold gens.
    rewrite <- (take_drop (Z.to_nat n) gens); set_solver. }
  split_and!.
  - apply map_subseteq_spec; intros k e; rewrite delete_keys_lookup; by case_bool_decide.
  - rewrite delete_keys_size; [|rewrite fmap_take; by apply NoDup_take|].
    + unfold len in *; rewrite length_take; lia.
    + intros k ([g k'] & -> & (e & ? & _)%Htake)%list_elem_of_fmap; by exists e.
  - intros k e k' e' Hm; rewrite !delete_keys_lookup.
    case_bool_decide as Hk; [|congruence]; intros _; case_bool_decide as Hk'; [done|].
    intros Hm'; apply list_elem_of_fmap in Hk as ([g k1] & -> & Hg).
    destruct (Htake _ _ Hg) as (e1 & Hm1 & <-); cbn in Hm; simplify_eq.
    pose proof (generations_sorted token m) as Hs; fold gens in Hs.
    rewrite <- (take_drop (Z.to_nat n) gens) in Hs.
    exact (StronglySorted_app_inv _ _ _ _ _ Hs Hg (Hdrop _ _ Hm' Hk')).
Qed.

(** Eviction removes [budget] entries, or all there are; an entry that can
    still be served goes only when no expired one is left, and only if none
    of those kept is older. *)
Lemma evict_spec token m now budget :
  0 ≤ budget →
  let m' := evict_expired_or_oldest token m now budget in
  m' ⊆ m ∧ Zsize m' = Zsize m - Z.min budget (Zsize m) ∧
  ∀ k e, m !! k = Some e → m' !! k = None → ¬ expired now e →
    ∀ k' e', m' !! k' = Some e' →
      ¬ expired now e' ∧ e_insert_gen e ≤ e_insert_gen e'.
Proof using All.
  intros Hb; cbn zeta; unfold evict_expired_or_oldest.
  destruct (retain_loop _ _ _ _ _) as [m1 removed] eqn:Hr.
  apply retain_loop_spec in Hr as (Hrem & Hsize & Hsub & Hdel & Hall);
    [|apply iter_order_NoDup|by intros k e; apply elem_of_iter_order|done].
  assert (0 ≤ Zsize m1) by (unfold Zsize; lia).
  case_bool_decide as Hempty.
  { rewrite orb_true_r; subst m1; split_and!; [done| |set_solver].
    change (Zsize ∅) with 0 in *; lia. }
  rewrite orb_false_r; case_match; boolp.
  { split_and!; [done|lia|]; intros k e Hm Hm' Hne; by destruct Hne; eapply Hdel. }
  fold (generations token m1).
  fold (delete_keys m1 (take (Z.to_nat (saturating_sub budget removed))
    (generations token m1))).
  destruct (oldest_removed token m1 (saturating_sub budget removed))
    as (Hsub' & Hsize' & Hold); [unfold saturating_sub; lia|].
  split_and!.
  - by trans m1.
  - rewrite Hsize'; unfold saturating_sub; lia.
  - intros k e Hm Hm' Hne k' e' Hk'.
    apply (lookup_weaken _ _ _ _ Hk') in Hsub' as Hk1; split.
    + intros Hex; rewrite (Hall ltac:(lia) k' e') in Hk1; [done| |done].
      apply elem_of_iter_order; by eapply lookup_weaken.
    + destruct (m1 !! k) as [e1|] eqn:Hm1; [|by destruct Hne; eapply Hdel].
      apply (lookup_weaken _ _ _ _ Hm1) in Hsub as Hm2; simplify_eq.
      by eapply Hold.
Qed.
End evict.

(** ** The invariant *)

Definition key_ok (k : XKey) : Prop :=
  bytes_ok (x_owner k) ∧ is_u16 (x_qtype k) ∧ is_u16 (x_qclass k).

Record cache_wf (c : GlobalCache) : Prop := {
  wf_shards : ∃ bits, 1 ≤ bits ≤ 12 ∧ c_shard_mask c = 2 ^ bits - 1 ∧
                len (c_shards c) = 2 ^ bits;
  wf_max : 1 ≤ c_max_per_shard c;
  wf_placed : ∀ i shard k e, bget (c_shards c) i = Some shard →
                s_map shard !! k = Some e → shard_idx c k = Ok i;
  wf_capacity : ∀ i shard, bget (c_shards c) i = Some shard →
                  Zsize (s_map shard) ≤ c_max_per_shard c;
}.

(** What the cache holds under a key. *)
Definition peek (c : GlobalCache) (k : XKey) : option CacheEntry :=
  match shard_idx c k with
  | Ok i => shard ← bget (c_shards c) i; s_map shard !! k
  | _ => None
  end.

Lemma shard_idx_Ok c k :
  cache_wf c → key_ok k →
  ∃ i shard, shard_idx c k = Ok i ∧ 0 ≤ i ∧ bget (c_shards c) i = Some shard.
Proof.
  intros [(bits & Hbits & Hmask & Hlen) _ _ _] (Ho & Ht & Hc); unfold shard_idx.
  destruct (dns_name_hash_Ok (x_owner k) Ho) as (h & -> & _); cbn [mbind outcome_bind].
  rewrite Hmask, Z.sub_1_r, <- Z.ones_equiv, Z.land_ones by lia.
  set (i := _ mod _); assert (0 ≤ i < 2 ^ bits) by (apply Z.mod_pos_bound; lia).
  destruct (bget_is_Some (c_shards c) i) as [shard Hs]; [lia|].
  exists i, shard; split_and!; [done|lia|done].
Qed.

Lemma lookup_peek c k now :
  cache_wf c → key_ok k →
  ∃ c', lookup c k now =
    Ok (match peek c k with
        | Some e => if is_fresh e now then Fresh e
                    else if is_servable_stale e now then Stale e else Miss
        | None => Miss
        end, c') ∧
    c_shards c' = c_shards c ∧ c_shard_mask c' = c_shard_mask c ∧
    c_max_per_shard c' = c_max_per_shard c ∧ c_stale_window c' = c_stale_window c ∧
    c_gen c' = c_gen c.
Proof.
  intros Hwf Hk; destruct (shard_idx_Ok c k Hwf Hk) as (i & shard & Hi & _ & Hs).
  unfold lookup, peek; rewrite Hi; cbn [mbind outcome_bind option_bind].
  rewrite Hs; cbn [or_panic mbind outcome_bind option_bind].
  destruct (s_map shard !! k) as [e|]; [|by eexists].
  repeat case_match; by eexists.
Qed.

Lemma cache_wf_frame c c' :
  cache_wf c → c_shards c' = c_shards c → c_shard_mask c' = c_shard_mask c →
  c_max_per_shard c' = c_max_per_shard c → cache_wf c' ∧ ∀ k, peek c' k = peek c k.
Proof.
  intros [Hs Hm Hp Hc] H1 H2 H3.
  assert (∀ k, shard_idx c' k = shard_idx c k) as Hidx by (by unfold shard_idx; rewrite H2).
  split.
  - split; rewrite ?H1, ?H2, ?H3; [done|done| |done].
    intros i shard k e Hi Hk; rewrite Hidx; by eapply Hp.
  - intros k; unfold peek; by rewrite Hidx, H1.
Qed.

Lemma bget_insert {A} (l : list A) i j x :
  0 ≤ i < len l → 0 ≤ j →
  bget (<[Z.to_nat i := x]> l) j = if decide (j = i) then Some x else bget l j.
Proof.
  intros Hi Hj; unfold bget, len in *; rewrite (proj2 (Z.leb_le 0 j)) by done.
  destruct (decide (j = i)) as [->|].
  - apply list_lookup_insert_eq; lia.
  - apply list_lookup_insert_ne; lia.
Qed.

(** An entry stored at [now] has times that an [Instant] holds. *)
Definition entry_fits (window rcode ttl now : Z) : Prop :=
  now + clamp_ttl ttl rcode + window < INSTANT_END.
(** The times of every entry stored at [now] fit: no lifetime is longer than a day. *)
Definition time_fits (window now : Z) : Prop := now + 86400 * second + window < INSTANT_END.

Lemma time_fits_entry window rcode ttl now : time_fits window now → entry_fits window rcode ttl now.
Proof.
  unfold time_fits, entry_fits, clamp_ttl, clamp, second; intros H; repeat case_match; boolp; lia.
Qed.

#[global] Instance entry_fits_dec window rcode ttl now : Decision (entry_fits window rcode ttl now).
Proof. unfold entry_fits; apply _. Defined.

Section operations.
Context `{io : !IterOrder XKey CacheEntry, !IterOrderOk io}.

(** The shard after an insertion: the new entry, and of the others a part. *)
Lemma shard_insert_spec c shard k e now :
  1 ≤ c_max_per_shard c → Zsize (s_map shard) ≤ c_max_per_shard c →
  let shard' := shard_insert c shard k e now in
  s_map shard' !! k = Some e ∧
  (∀ k' e', k' ≠ k → s_map shard' !! k' = Some e' → s_map shard !! k' = Some e') ∧
  Zsize (s_map shard') ≤ c_max_per_shard c.
Proof using All.
  intros Hmax Hcap; cbn zeta; unfold shard_insert.
  set (m := if _ <=? _ then _ else _).
  assert (m ⊆ s_map shard ∧ Zsize m ≤ c_max_per_shard c - 1 ∧ 0 ≤ Zsize m) as (Hsub & Hm & Hm0).
  { assert (∀ m, 0 ≤ Zsize m) by (unfold Zsize; lia).
    unfold m; fold (Zsize (s_map shard)); destruct (Z.leb_spec (c_max_per_shard c)
      (Zsize (s_map shard))); [|split_and!; [done|lia|done]].
    assert (0 ≤ c_max_per_shard c / 16) by (apply Z.div_pos; lia).
    destruct (evict_spec (c_gen c) (s_map shard) now (c_max_per_shard c / 16 + 1))
      as (? & Hs & _); [lia|]; split_and!; [done| |done].
    rewrite Hs; lia. }
  assert (Zsize m ≤ Zsize (s_map shard)) as Hle.
  { unfold Zsize; apply inj_le, map_subseteq_size, Hsub. }
  cbn [s_map s_live]; split_and!.
  - apply lookup_insert_eq.
  - intros k' e' Hne; rewrite lookup_insert_ne by done; intros Hk.
    by eapply lookup_weaken.
  - unfold Zsize in *; rewrite map_size_insert; destruct (m !! k); cbn; lia.
Qed.

Definition new_entry (c : GlobalCache) (rcode : Z) (answer : bytes) (ttl : Z)
    (secure : bool) (now : Z) : CacheEntry :=
  mk_entry rcode answer now (now + clamp_ttl ttl rcode)
    (now + clamp_ttl ttl rcode + c_stale_window c) secure (c_gen c).

Lemma entry_times {A} window rcode ttl now (k : Z → Z → outcome Empty_set A) :
  0 ≤ window →
  (x ← instant_add now (clamp_ttl ttl rcode);
   y ← (x ← instant_add now (clamp_ttl ttl rcode); instant_add x window); k x y) =
  if bool_decide (entry_fits window rcode ttl now)
  then k (now + clamp_ttl ttl rcode) (now + clamp_ttl ttl rcode + window) else Panic.
Proof.
  intros Hw; unfold instant_add, instant_checked_add, entry_fits.
  case_bool_decide as Hf.
  - rewrite (proj2 (Z.ltb_lt (now + _) _)) by lia; cbn; by rewrite (proj2 (Z.ltb_lt _ _)) by lia.
  - destruct (now + clamp_ttl ttl rcode <? INSTANT_END); [|done]; cbn.
    by rewrite (proj2 (Z.ltb_ge _ _)) by lia.
Qed.

Lemma cache_insert_panics c k rcode answer ttl secure now :
  0 ≤ c_stale_window c → ¬ entry_fits (c_stale_window c) rcode ttl now →
  cache_insert c k rcode answer ttl secure now = Panic.
Proof using All.
  intros Hw Hf; unfold cache_insert; rewrite entry_times by done.
  by rewrite bool_decide_eq_false_2.
Qed.

Lemma cache_insert_spec c k rcode answer ttl secure now :
  cache_wf c → key_ok k → 0 ≤ c_stale_window c → entry_fits (c_stale_window c) rcode ttl now →
  ∃ c', cache_insert c k rcode answer ttl secure now = Ok c' ∧
    cache_wf c' ∧ c_stale_window c' = c_stale_window c ∧
    c_gen c' = u64_incr (c_gen c) ∧
    peek c' k = Some (new_entry c rcode answer ttl secure now) ∧
    ∀ k' e', k' ≠ k → peek c' k' = Some e' → peek c k' = Some e'.
Proof using All.
  intros Hwf Hk Hwin Hfits; destruct (shard_idx_Ok c k Hwf Hk) as (i & shard & Hi & Hi0 & Hs).
  unfold cache_insert; rewrite entry_times, bool_decide_eq_true_2 by done.
  rewrite Hi; cbn [mbind outcome_bind]; rewrite Hs.
  cbn [or_panic mbind outcome_bind]; fold (new_entry c rcode answer ttl secure now).
  set (e := new_entry c rcode answer ttl secure now).
  destruct (shard_insert_spec c shard k e now) as (Hnew & Hold & Hcap).
  { apply Hwf. }
  { by eapply wf_capacity. }
  set (shard' := shard_insert c shard k e now) in *.
  eexists; split; [done|]; set (c' := mk_cache _ _ _ _ _ _ _ _).
  apply bget_Some in Hs as Hrange.
  assert (∀ j, 0 ≤ j → bget (c_shards c') j =
    if decide (j = i) then Some shard' else bget (c_shards c) j) as Hget.
  { intros j Hj; apply bget_insert; [apply Hrange|done]. }
  assert (∀ j s, bget (c_shards c') j = Some s →
    (j = i ∧ s = shard') ∨ (j ≠ i ∧ bget (c_shards c) j = Some s)) as Hcase.
  { intros j s Hj; apply bget_Some in Hj as Hj'; rewrite Hget in Hj by lia.
    destruct (decide (j = i)); [left|right]; naive_solver. }
  assert (∀ k', shard_idx c' k' = shard_idx c k') as Hidx by done.
  split_and!; try done.
  - split; [|apply Hwf| |].
    + destruct (wf_shards _ Hwf) as (bits & ? & ? & Hlen); exists bits.
      do 2 (split; [done|]); cbn [c_shards c']; unfold len in *.
      by rewrite length_insert.
    + intros j s k' e' [[-> ->]|[? Hj]]%Hcase Hk'; rewrite Hidx; [|by eapply wf_placed].
      destruct (decide (k' = k)) as [->|]; [done|]; by eapply wf_placed, Hold.
    + intros j s [[-> ->]|[? Hj]]%Hcase; [done|exact (wf_capacity c Hwf _ _ Hj)].
  - unfold peek; rewrite Hidx, Hi, Hget, decide_True by done; done.
  - intros k' e' Hne; unfold peek; rewrite Hidx.
    destruct (shard_idx c k') as [j| | |]; try done.
    destruct (bget (c_shards c') j) as [s|] eqn:Hj; [|done]; cbn [mbind option_bind].
    apply Hcase in Hj as [[-> ->]|[? ->]]; [rewrite Hs|done]; by apply Hold.
Qed.
End operations.

(** ** Refinement of a map that forgets

    The specification is a map from keys to entries that insertion and flush
    update; the cache may forget entries, but holds nothing else. *)

Inductive cache_op : Type :=
  | OpInsert (key : XKey) (rcode : Z) (answer : bytes) (ttl : Z) (secure : bool) (now : Z)
  | OpLookup (key : XKey) (now : Z)
  | OpFlush.

Definition op_ok (op : cache_op) : Prop :=
  match op with
  | OpInsert key _ _ _ _ _ | OpLookup key _ => key_ok key
  | OpFlush => True
  end.

(** The times of an insertion fit. *)
Definition op_fits (window : Z) (op : cache_op) : Prop :=
  match op with
  | OpInsert _ rcode _ ttl _ now => entry_fits window rcode ttl now
  | OpLookup _ _ | OpFlush => True
  end.
#[global] Instance op_fits_dec window op : Decision (op_fits window op).
Proof. destruct op; apply _. Defined.

(** The abstract state: the next generation and the last entry of each key. *)
Definition spec_state : Type := Z * shard_map.

Definition spec_step (window : Z) (s : spec_state) (op : cache_op) : spec_state :=
  match op with
  | OpInsert key rcode answer ttl secure now =>
      (u64_incr s.1,
       <[key := mk_entry rcode answer now (now + clamp_ttl ttl rcode)
                  (now + clamp_ttl ttl rcode + window) secure s.1]> s.2)
  | OpLookup _ _ => s
  | OpFlush => (s.1, ∅)
  end.

Section refinement.
Context `{io : !IterOrder XKey CacheEntry, !IterOrderOk io}.

Definition cache_step (c : GlobalCache) (op : cache_op) : outcome Empty_set GlobalCache :=
  match op with
  | OpInsert key rcode answer ttl secure now =>
      cache_insert c key rcode answer ttl secure now
  | OpLookup key now => '(_, c) ← lookup c key now; Ok c
  | OpFlush => Ok (cache_flush c)
  end.

Fixpoint cache_run (c : GlobalCache) (ops : list cache_op) :
    outcome Empty_set GlobalCache :=
  match ops with
  | [] => Ok c
  | op :: ops => c ← cache_step c op; cache_run c ops
  end.

Definition refines (window : Z) (s : spec_state) (c : GlobalCache) : Prop :=
  c_stale_window c = window ∧ c_gen c = s.1 ∧
  ∀ k e, peek c k = Some e → s.2 !! k = Some e.

Lemma cache_flush_spec c :
  cache_wf c → cache_wf (cache_flush c) ∧
    ∀ k, peek (cache_flush c) k = None.
Proof using All.
  intros Hwf; assert (∀ i s, bget (c_shards (cache_flush c)) i = Some s →
    s = mk_shard ∅ 0) as Hs.
  { intros i s [_ Hi]%bget_Some; cbn in Hi; rewrite list_lookup_fmap in Hi.
    by apply fmap_Some in Hi as (? & _ & ->). }
  split_and!.
  - split; [|apply Hwf|by intros i s k e ->%Hs|].
    + destruct (wf_shards _ Hwf) as (bits & ? & ? & Hlen); exists bits.
      by cbn; rewrite len_fmap.
    + intros i s ->%Hs; pose proof (wf_max _ Hwf); cbn [s_map s_live].
      change (Zsize ∅) with 0; cbn; lia.
  - intros k; unfold peek; destruct (shard_idx _ k) as [i| | |]; try done.
    destruct (bget _ i) as [s|] eqn:Hi; [|done]; by apply Hs in Hi as ->.
Qed.

Lemma cache_step_refines window s c op :
  0 ≤ window → cache_wf c → op_ok op → op_fits window op → refines window s c →
  ∃ c', cache_step c op = Ok c' ∧ cache_wf c' ∧ refines window (spec_step window s op) c'.
Proof using All.
  intros Hw0 Hwf Hop Hfits (Hwin & Hgen & Href); destruct op as [key rcode answer ttl secure now|key now|].
  - destruct (cache_insert_spec c key rcode answer ttl secure now Hwf Hop)
      as (c' & Hc' & Hwf' & Hwin' & Hgen' & Hnew & Hold); [by rewrite Hwin..|].
    exists c'; split_and!; [done..|]; unfold refines; cbn; split_and!; [congruence..|].
    intros k e Hk; destruct (decide (k = key)) as [->|Hne].
    + rewrite lookup_insert_eq, <- Hk, Hnew; unfold new_entry; by rewrite Hwin, Hgen.
    + rewrite lookup_insert_ne by done; auto.
  - destruct (lookup_peek c key now Hwf Hop) as (c' & Hc' & Hs & Hm & Hmax & Hw & Hg).
    destruct (cache_wf_frame c c' Hwf Hs Hm Hmax) as [Hwf' Hpeek].
    exists c'; unfold cache_step, spec_step; rewrite Hc'; split_and!; [done|done|].
    unfold refines; split_and!; [congruence..|]; intros k e; rewrite Hpeek; auto.
  - destruct (cache_flush_spec c Hwf) as (Hwf' & Hpeek).
    exists (cache_flush c); split_and!; [done|done|].
    unfold refines; cbn; split_and!; [done..|]; intros k e; by rewrite Hpeek.
Qed.

Lemma cache_step_panics window s c op :
  0 ≤ window → ¬ op_fits window op → refines window s c → cache_step c op = Panic.
Proof using All.
  intros Hw Hf (Hwin & _); destruct op; cbn in *; [|done..].
  by apply cache_insert_panics; rewrite Hwin.
Qed.

(** What a run returns: the panic of an insertion whose times do not fit, and
    otherwise a cache that refines the map. *)
Lemma cache_run_refines window s c ops :
  0 ≤ window → cache_wf c → Forall op_ok ops → refines window s c →
  match cache_run c ops with
  | Ok c' => Forall (op_fits window) ops ∧ cache_wf c' ∧
             refines window (foldl (spec_step window) s ops) c'
  | Panic => Exists (λ op, ¬ op_fits window op) ops
  | _ => False
  end.
Proof using All.
  intros Hw Hwf Hops; revert s c Hwf.
  induction Hops as [|op ops Hop Hops IH]; intros s c Hwf Href; [done|]; cbn [cache_run foldl].
  destruct (decide (op_fits window op)) as [Hf|Hf].
  - destruct (cache_step_refines window s c op) as (c1 & -> & Hwf1 & Href1); [done..|].
    specialize (IH (spec_step window s op) c1 Hwf1 Href1); cbn [mbind outcome_bind].
    destruct (cache_run c1 ops); try done; [|by right].
    destruct IH as (? & ? & ?); split_and!; [by constructor|done..].
  - by rewrite (cache_step_panics window s c op) by done; left.
Qed.

Lemma cache_run_max c ops c' : cache_run c ops = Ok c' → c_max_per_shard c' = c_max_per_shard c.
Proof.
  revert c; induction ops as [|op ops IH]; intros c; cbn; [by intros [= ->]|].
  intros (c1 & H1 & ->%IH)%bind_Ok; destruct op as [key rcode answer ttl secure now|key now|].
  - unfold cache_step, cache_insert in H1; by inv_ok.
  - unfold cache_step, lookup in H1; inv_ok; repeat case_match; by simplify_eq.
  - by injection H1 as <-.
Qed.

Lemma cache_new_wf bits max window :
  1 ≤ bits ≤ 12 → 1 ≤ max →
  ∃ c, cache_new bits max window = Ok c ∧ cache_wf c ∧
    c_max_per_shard c = max ∧ refines window (1, ∅) c.
Proof using All.
  intros Hb Hmax; unfold cache_new.
  rewrite (proj2 (Z.ltb_lt 0 bits)), (proj2 (Z.leb_le bits 12)) by lia; cbn [andb].
  rewrite Z.shiftl_1_l; pose proof (Z.pow_pos_nonneg 2 bits ltac:(lia) ltac:(lia)).
  eexists; split; [done|]; set (c := mk_cache _ _ _ _ _ _ _ _).
  assert (∀ i s, bget (c_shards c) i = Some s → s = mk_shard ∅ 0) as Hs.
  { intros i s [_ Hi]%bget_Some; cbn in Hi; by apply lookup_replicate in Hi as [-> _]. }
  split_and!; [|done|].
  - split; [exists bits; split_and!; [lia|lia|done|]|done|by intros i s k e ->%Hs|].
    + cbn; rewrite len_replicate; lia.
    + intros i s ->%Hs; cbn [s_map s_live]; change (Zsize ∅) with 0; cbn; lia.
  - split_and!; [done..|]; intros k e; unfold peek.
    destruct (shard_idx _ k) as [i| | |]; try done.
    destruct (bget _ i) as [s|] eqn:Hi; [|done]; by apply Hs in Hi as ->.
Qed.
End refinement.

Lemma elem_of_bget {A} (l : list A) x : x ∈ l ↔ ∃ i, bget l i = Some x.
Proof.
  rewrite list_elem_of_lookup; split.
  - intros [i Hi]; exists (Z.of_nat i); unfold bget.
    rewrite (proj2 (Z.leb_le 0 _)), Nat2Z.id by lia; done.
  - intros [i [_ Hi]%bget_Some]; by exists (Z.to_nat i).
Qed.

Section snapshot.
Context `{io : !IterOrder XKey CacheEntry, !IterOrderOk io}.

Lemma elem_of_snapshot c now k e :
  cache_wf c →
  (k, e) ∈ cache_snapshot c now ↔ peek c k = Some e ∧ ¬ expired now e.
Proof using All.
  intros Hwf; unfold cache_snapshot; rewrite sort_by_perm, list_elem_of_bind.
  assert (is_fresh e now || is_servable_stale e now = true ↔ ¬ expired now e) as Hex.
  { unfold expired; destruct (is_fresh e now), (is_servable_stale e now); cbn; naive_solver. }
  rewrite <- Hex; split.
  - intros (shard & Hin & [i Hi]%elem_of_bget).
    rewrite list_elem_of_In, List.filter_In, <- list_elem_of_In, elem_of_iter_order in Hin.
    destruct Hin as [Hk Hs]; split; [|done]; unfold peek.
    rewrite (wf_placed c Hwf _ _ _ _ Hi Hk), Hi; done.
  - intros [Hp Hs]; unfold peek in Hp; destruct (shard_idx c k) as [i| | |]; try done.
    destruct (bget (c_shards c) i) as [shard|] eqn:Hi; [|done]; exists shard; split.
    + rewrite list_elem_of_In, List.filter_In, <- list_elem_of_In, elem_of_iter_order; done.
    + apply elem_of_bget; by exists i.
Qed.
End snapshot.

(** ** Properties *)

(** C12: the cache only holds what was stored.  Whatever the order in which the
    shards are iterated, a sequence of insertions, lookups and flushes on keys of
    octets panics exactly when it has an insertion whose times (now, the lifetime,
    the stale window) add up to more than an [Instant] holds.  After any other
    sequence no shard exceeds its capacity, an entry found under a key is exactly
    the one last inserted under that key since the last flush (the cache refines a
    map that forgets), a lookup answers fresh, stale or missing by that entry's
    times, and a snapshot lists exactly the entries that can still be served. *)
Theorem cache_refines_map `{io : !IterOrder XKey CacheEntry} bits max window ops :
  IterOrderOk io → 1 ≤ bits ≤ 12 → 1 ≤ max → 0 ≤ window → Forall op_ok ops →
  ∃ c0, cache_new bits max window = Ok c0 ∧
  match cache_run c0 ops with
  | Panic => Exists (λ op, ¬ op_fits window op) ops
  | Ok c =>
    Forall (op_fits window) ops ∧
    (∀ shard, shard ∈ c_shards c → Zsize (s_map shard) ≤ max) ∧
    (∀ k e, peek c k = Some e →
       (foldl (spec_step window) (1, ∅) ops).2 !! k = Some e) ∧
    (∀ k now, key_ok k → ∃ c',
       lookup c k now =
         Ok (match peek c k with
             | Some e => if is_fresh e now then Fresh e
                         else if is_servable_stale e now then Stale e else Miss
             | None => Miss
             end, c')) ∧
    (∀ k e now, (k, e) ∈ cache_snapshot c now ↔ peek c k = Some e ∧ ¬ expired now e)
  | _ => False
  end.
Proof.
  intros Hio Hbits Hmax Hw Hops.
  destruct (cache_new_wf bits max window Hbits Hmax) as (c0 & H0 & Hwf0 & Hm0 & Href0).
  exists c0; split; [done|].
  pose proof (cache_run_refines window (1, ∅) c0 ops Hw Hwf0 Hops Href0) as Hrun.
  destruct (cache_run c0 ops) as [c| | |] eqn:Hc; try done; destruct Hrun as (Hf & Hwf & Href).
  apply cache_run_max in Hc; split_and!; [done|..].
  - intros shard [i Hi]%elem_of_bget; rewrite <- Hm0, <- Hc; by apply (wf_capacity c Hwf i).
  - apply Href.
  - intros k now Hk; destruct (lookup_peek c k now Hwf Hk) as (c' & ? & _); by exists c'.
  - intros k e now; by apply elem_of_snapshot.
Qed.

Definition example_key : XKey := mk_xkey [1; 97; 0] 1 1.

Lemma example_key_ok : key_ok example_key.
Proof.
  split_and!; [|unfold is_u16; cbn; lia..].
  repeat (apply Forall_cons_2; [unfold is_u8; lia|]); constructor.
Qed.

(** Two insertions, the second at a time from which the stale window reaches past
    the end of what an [Instant] holds. *)
Definition example_ops (now : Z) : list cache_op :=
  [OpInsert example_key 0 [1; 2] (60 * second) false 5;
   OpInsert example_key 0 [3; 4] (60 * second) false now].

Lemma cache_refines_map_witness :
  ∃ c0, cache_new 1 1 second = Ok c0 ∧
    cache_run (io := map_order) c0 (example_ops INSTANT_END) = Panic ∧
    Exists (λ op, ¬ op_fits second op) (example_ops INSTANT_END).
Proof.
  destruct (cache_refines_map (io := map_order) 1 1 second (example_ops INSTANT_END) map_order_ok)
    as (c0 & H0 & H); 
    [lia|lia|done|repeat (apply Forall_cons_2; [exact example_key_ok|]); apply Forall_nil_2|].
  exists c0; split; [exact H0|].
  assert (cache_run (io := map_order) c0 (example_ops INSTANT_END) = Panic) as Hp
    by (injection H0 as <-; reflexivity).
  rewrite Hp in H; exact (conj Hp H).
Defined.

(** Eviction.  Evicting with a budget removes exactly that many entries, or
    all there are, and adds none.  An entry that can still be served (fresh, or
    stale within its window) is removed only when no expired entry is left and
    only if no entry kept was inserted before it. *)
Theorem evict_oldest_first `{io : !IterOrder XKey CacheEntry} token m now budget :
  IterOrderOk io → 0 ≤ budget →
  let m' := evict_expired_or_oldest token m now budget in
  m' ⊆ m ∧ Zsize m' = Zsize m - Z.min budget (Zsize m) ∧
  ∀ k e, m !! k = Some e → m' !! k = None → ¬ expired now e →
    ∀ k' e', m' !! k' = Some e' → ¬ expired now e' ∧ e_insert_gen e ≤ e_insert_gen e'.
Proof. intros Hio; by apply evict_spec. Qed.

Lemma evict_oldest_first_witness :
  let m := {[ example_key := mk_entry 0 [] 0 10 10 false 3;
              mk_xkey [0] 1 1 := mk_entry 0 [] 0 10 10 false 2 ]} in
  let m' := evict_expired_or_oldest (io := map_order) 0 m 5 1 in
  m' ⊆ m ∧ Zsize m' = 1.
Proof.
  destruct (evict_oldest_first (io := map_order) 0
    {[ example_key := mk_entry 0 [] 0 10 10 false 3;
       mk_xkey [0] 1 1 := mk_entry 0 [] 0 10 10 false 2 ]} 5 1 map_order_ok
    ltac:(lia)) as (H1 & H2 & _).
  split; [exact H1|]; rewrite H2; reflexivity.
Defined.

(** The name hash is total and ignores case.  Hashing any string of octets
    returns a 64-bit value without an index out of range, also for truncated
    or compressed names; and folding the letters of the string to lower case
    does not change it, so names that differ in case share a shard. *)
Theorem dns_name_hash_total w :
  bytes_ok w →
  (∃ h, dns_name_hash w = Ok h ∧ is_u64 h) ∧
  dns_name_hash (to_ascii_lowercase w) = dns_name_hash w.
Proof. intros Hw; split; [by apply dns_name_hash_Ok|apply dns_name_hash_lower]. Qed.

Lemma dns_name_hash_total_witness :
  bytes_ok [1; 65; 0] ∧ dns_name_hash [1; 97; 0] = dns_name_hash [1; 65; 0].
Proof.
  assert (bytes_ok [1; 65; 0]) as H
    by (repeat (apply Forall_cons_2; [unfold is_u8; lia|]); constructor).
  split; [exact H|]; exact (proj2 (dns_name_hash_total [1; 65; 0] H)).
Defined.

(** The reported length is not the number of entries.  Eviction does not
    decrement the counter that [len] sums: after two insertions into a cache
    that keeps one entry per shard, one entry is left and [len] is 2. *)
Theorem cache_len_overcounts :
  (c ← cache_new 1 1 0;
   c ← cache_run (io := map_order) c
         [OpInsert (mk_xkey [0] 1 1) 0 [] second false 0;
          OpInsert (mk_xkey [0] 1 3) 0 [] second false 0];
   Ok (cache_len c, foldr (λ s n, Zsize (s_map s) + n) 0 (c_shards c))) = Ok (2, 1).
Proof. vm_compute; reflexivity. Qed.
