(* ===== verification/Cache.v ===== *)
(** * The response cache

    Models [src/cache.rs]: which responses are stored and for how long, and the
    hits served from them with the identifier rewritten and the TTLs aged.
    [Instant::now()] is an argument of the operations that call it. *)

From S2P Require Import Prelude Text Net Codec Packet Sorting CacheX.

Definition STRANGE_RCODE_TTL : Z := 10 * second.

Record CacheKey : Type := mk_key {
  k_name : bytes;
  k_rr_type : Z;
  k_class : Z;
  k_checking_disabled : bool;
  k_route : Z;
}.

Record CacheSnapshot : Type := mk_snapshot {
  sn_name : bytes;
  sn_rr_type : Z;
  sn_class : Z;
  sn_rcode : Z;
  sn_response : bytes;
  sn_remaining : Z;
}.

Record Cache : Type := mk_dns_cache {
  ca_global : GlobalCache;
  ca_capacity : Z;
  ca_maximum_ttl : Z;
  ca_store_negative : bool;
}.

Definition with_global (c : Cache) (g : GlobalCache) : Cache :=
  mk_dns_cache g (ca_capacity c) (ca_maximum_ttl c) (ca_store_negative c).

(** A function that cannot fail, called from one that can. *)
Definition infallible {E A} (m : outcome Empty_set A) : outcome E A :=
  map_err (λ e : Empty_set, match e with end) m.

Definition new_dns_cache (capacity maximum_ttl stale_retention : Z)
    (store_negative : bool) : outcome Empty_set Cache :=
  g ← cache_new 4 (Z.max (capacity / 16) 1) stale_retention;
  Ok (mk_dns_cache g capacity maximum_ttl store_negative).

Definition to_xkey (key : CacheKey) : XKey :=
  mk_xkey (k_name key) (k_rr_type key) (k_class key).

(** [now.saturating_duration_since(inserted).as_secs()], as a [u32]. *)
Definition elapsed_seconds (now inserted : Z) : Z :=
  Z.min (Z.max (now - inserted) 0 / second) (2 ^ 32 - 1).

(** The entry a lookup may be answered with. *)
Definition served_entry (found : Lookup) (allow_stale : bool) : option CacheEntry :=
  match found with
  | Fresh e => Some e
  | Stale e => if allow_stale then Some e else None
  | Miss => None
  end.

Definition dns_cache_get (c : Cache) (key : CacheKey) (id : Z) (allow_stale : bool) (now : Z) :
    outcome Empty_set (option bytes * Cache) :=
  '(found, g) ← lookup (ca_global c) (to_xkey key) now;
  let c := with_global c g in
  match served_entry found allow_stale with
  | None => Ok (None, c)
  | Some entry =>
      let is_stale := e_expires_at entry <=? now in
      let elapsed := elapsed_seconds now (e_inserted entry) in
      match packet ← rewrite_id (e_answer entry) id;
            age_ttls packet elapsed is_stale with
      | Ok packet => Ok (Some packet, c)
      | Err _ => Ok (None, c)
      | Panic => Panic
      | Diverge => Diverge
      end
  end.

(** The part of [Cache::insert] before the response is stored: the lifetime of
    a response the cache accepts. *)
Definition admitted_ttl (c : Cache) (response : bytes) : wres (option Z) :=
  header ← header_parse response;
  if negb (is_response header) || truncated header then Ok None
  else
    let rcode := response_code header in
    let negative := negb (rcode =? 0) || (h_answer_count header =? 0) in
    if negative && negb (ca_store_negative c) then Ok None
    else
      ttl ← (if (rcode =? 0) || (rcode =? 3) then
               ttl_seconds ← cache_lifetime response;
               Ok ((λ s, s * second) <$> (ttl_seconds : option Z))
             else if rcode =? 2 then Ok (Some STRANGE_RCODE_TTL)
             else Ok None : wres (option Z));
      match ttl with
      | None => Ok None
      | Some ttl =>
          let ttl := Z.min ttl (ca_maximum_ttl c) in
          if (ttl =? 0) || (ca_capacity c =? 0) then Ok None else Ok (Some ttl)
      end.

Section operations.
Context `{io : !IterOrder XKey CacheEntry}.

Definition dns_cache_insert (c : Cache) (key : CacheKey) (response : bytes) (now : Z) :
    wres (bool * Cache) :=
  ttl ← admitted_ttl c response;
  match ttl with
  | None => Ok (false, c)
  | Some ttl =>
      header ← header_parse response;
      packet ← rewrite_id response 0;
      g ← infallible (cache_insert (ca_global c) (to_xkey key) (response_code header)
                        packet ttl false now);
      Ok (true, with_global c g)
  end.

Definition dns_cache_flush (c : Cache) : Cache := with_global c (cache_flush (ca_global c)).

Definition dns_cache_len (c : Cache) : Z := cache_len (ca_global c).

Definition dns_cache_is_empty (c : Cache) : bool := dns_cache_len c =? 0.

Definition dns_cache_snapshot (c : Cache) (now : Z) : list CacheSnapshot :=
  (λ '(key, entry),
     mk_snapshot (x_owner key) (x_qtype key) (x_qclass key) (e_rcode entry)
       (e_answer entry) (Z.max (e_expires_at entry - now) 0))
  <$> cache_snapshot (ca_global c) now.
End operations.
