(* ===== verification/CacheFacts.v ===== *)
(** * The response cache: theorems

    A hit is the response last stored under the question, with the identifier
    of the query and TTLs that are never beyond what is left of them; whatever
    ran before, storing and looking up neither panic nor serve an answer past
    its lifetime. *)

From S2P Require Import Prelude Text Net Codec Names CodecFacts Packet PacketFacts.
From S2P Require Import Sorting CacheX CacheXFacts Cache.

(** ** Rewriting the identifier *)

Lemma rewrite_id_spec p id :
  packet_ok p → 2 ≤ len p → is_u16 id →
  ∃ q, rewrite_id p id = Ok q ∧ packet_ok q ∧ len q = len p ∧
    (∀ i, 2 ≤ i → bget q i = bget p i) ∧
    read_u16 q 0 = Ok id.
Proof.
  intros Hp Hlen Hid; unfold rewrite_id.
  destruct (write_u16_total p 0 id Hp) as (q & Hq & Hs); [lia..|].
  pose proof (packet_ok_splice p 0 _ q Hp (u16_bytes_ok id Hid) Hs) as Hok.
  exists q; split_and!; [done|done|by eapply splice_len| |].
  - intros i Hi; eapply bget_splice_out; [exact Hs|]; len_lia.
  - by eapply read_splice_u16.
Qed.

Lemma rewrite_id_twice p a q id :
  rewrite_id p a = Ok q → rewrite_id q id = rewrite_id p id.
Proof.
  unfold rewrite_id, write_u16; intros H; inv_ok.
  match goal with H : splice _ _ _ = Some _ |- _ =>
    apply splice_len in H as Hl; apply splice_Some in H as (_ & _ & ->) end.
  rewrite H0; cbn [mbind outcome_bind]; f_equal.
  unfold splice; rewrite Hl; case_match; [|done]; by destruct p as [|? [|? ?]].
Qed.

Lemma header_parse_len p h : header_parse p = Ok h → 12 ≤ len p.
Proof. by intros [? _]%header_parse_iff. Qed.

(** ** Packets that agree behind the identifier *)

Definition agree (p q : bytes) : Prop :=
  len p = len q ∧ ∀ i, 2 ≤ i → bget p i = bget q i.

Lemma name_at_next_agree p q o labels k next labels' k' next' :
  agree p q → packet_ok p → 2 ≤ o →
  name_at p o labels k next → name_at q o labels' k' next' → next = next'.
Proof.
  intros [Hl Hag] Hp Ho Hn; revert labels' k' next'.
  induction Hn as [o Hg|o l lab labels k next Hg Hr Hs Hn IH|o l s labels k next Hg Hr Hs Hlt Hn IH];
    intros labels' k' next' Hn'; inversion Hn'; subst;
    rewrite <- Hag in * by lia; simplify_eq; try lia; try done.
  match goal with H : name_at q _ _ _ _ |- _ => by eapply IH; [lia|exact H] end.
Qed.

Lemma read_u16_behind p q o : agree p q → 2 ≤ o → read_u16 p o = read_u16 q o.
Proof. intros [Hl Hag] Ho; apply read_u16_ext; [done|apply Hag; lia..]. Qed.

Lemma read_u32_behind p q o : agree p q → 2 ≤ o → read_u32 p o = read_u32 q o.
Proof. intros [Hl Hag] Ho; apply read_u32_ext; [done|]; intros; apply Hag; lia. Qed.

Lemma read_name_next_agree p q o n next n' next' :
  agree p q → packet_ok p → packet_ok q → 2 ≤ o →
  read_name p o = Ok (n, next) → read_name q o = Ok (n', next') → next = next'.
Proof.
  intros Ha Hp Hq Ho (? & ? & H1 & _)%read_name_iff (? & ? & H2 & _)%read_name_iff; [|done..].
  by eapply name_at_next_agree.
Qed.

(** Records that differ at most in their names. *)
Definition same_place (r r' : ResourceRecord) : Prop :=
  r_rr_type r = r_rr_type r' ∧ r_ttl r = r_ttl r' ∧
  r_ttl_offset r = r_ttl_offset r' ∧ r_next_offset r = r_next_offset r'.

Lemma parse_record_agree p q o r r' :
  agree p q → packet_ok p → packet_ok q → 2 ≤ o →
  parse_record p o = Ok r → parse_record q o = Ok r' → same_place r r'.
Proof.
  intros Ha Hp Hq Ho (ne & Hn & H1 & _ & H2 & H3 & _ & H4 & H5 & _)%parse_record_iff
    (ne' & Hn' & H1' & _ & H2' & H3' & _ & H4' & H5' & _)%parse_record_iff; [|done..].
  assert (ne = ne') as <- by (by eapply (read_name_next_agree p q)).
  apply read_name_bounds in Hn as Hb; [|done].
  erewrite read_u16_behind in H1, H4 by (done || lia).
  erewrite read_u32_behind in H3 by (done || lia).
  unfold same_place; rewrite H2, H2', H5, H5'; split_and!; congruence.
Qed.

Lemma parse_records_agree n p q o rs stop rs' stop' :
  agree p q → packet_ok p → packet_ok q → 2 ≤ o →
  parse_records n p o = Ok (rs, stop) → parse_records n q o = Ok (rs', stop') →
  Forall2 same_place rs rs'.
Proof.
  intros Ha Hp Hq; revert o rs rs'; induction n as [|n IH]; intros o rs rs' Ho H H';
    cbn in H, H'; inv_ok; simplify_eq; [constructor|].
  match goal with H : parse_record p _ = Ok _, H' : parse_record q _ = Ok _ |- _ =>
    apply parse_record_bounds in H as Hb; [|done];
    pose proof (parse_record_agree _ _ _ _ _ Ha Hp Hq Ho H H') as Hs end.
  constructor; [done|].
  destruct Hs as (_ & _ & _ & Heq); rewrite <- Heq in *.
  eapply IH; [|done..]; unfold record_ok in Hb; pose proof (len_nonneg (r_rdata a1)); lia.
Qed.

Lemma parse_questions_agree n p q o qs stop qs' stop' :
  agree p q → packet_ok p → packet_ok q → 2 ≤ o →
  parse_questions n p o = Ok (qs, stop) → parse_questions n q o = Ok (qs', stop') →
  stop = stop'.
Proof.
  intros Ha Hp Hq; revert o qs qs'; induction n as [|n IH]; intros o qs qs' Ho H H';
    cbn in H, H'; inv_ok; simplify_eq; [done|].
  match goal with H : parse_question p _ = Ok _, H' : parse_question q _ = Ok _ |- _ =>
    apply parse_question_bounds in H as Hb; [|done];
    apply parse_question_iff in H as (ne & Hn & _ & _ & Hx);
    apply parse_question_iff in H' as (ne' & Hn' & _ & _ & Hx') end.
  assert (ne = ne') as <- by (by eapply (read_name_next_agree p q)).
  rewrite <- Hx in Hx'; rewrite Hx' in *; unfold question_ok in Hb.
  eapply IH; [|done..]; lia.
Qed.

(** The records of two packets that agree behind the identifier. *)
Lemma header_agree p q h h' :
  agree p q → header_parse p = Ok h → header_parse q = Ok h' →
  h_flags h = h_flags h' ∧ h_question_count h = h_question_count h' ∧
  h_answer_count h = h_answer_count h' ∧ total_records h = total_records h'.
Proof.
  intros Ha (_ & _ & E1 & E2 & E3 & E4 & E5)%header_parse_iff
    (_ & _ & F1 & F2 & F3 & F4 & F5)%header_parse_iff.
  erewrite read_u16_behind in E1, E2, E3, E4, E5 by (done || lia).
  unfold total_records; rewrite E1, E2, E3, E4, E5 in *; simplify_eq.
  split_and!; congruence.
Qed.

Lemma sections_agree p q h qs rs stop h' qs' rs' stop' :
  agree p q → packet_ok p → packet_ok q →
  parse_sections p = Ok (h, qs, rs, stop) → parse_sections q = Ok (h', qs', rs', stop') →
  Forall2 same_place rs rs'.
Proof.
  intros Ha Hp Hq H H'; unfold parse_sections in H, H'; inv_ok; simplify_eq.
  match goal with H : header_parse p = _, H' : header_parse q = _ |- _ =>
    destruct (header_agree _ _ _ _ Ha H H') as (_ & Hqc & _ & Ht) end.
  rewrite <- Hqc, <- Ht in *.
  match goal with H : parse_questions _ p _ = _, H' : parse_questions _ q _ = _ |- _ =>
    assert (2 ≤ DNS_HEADER_LEN) as H12 by done;
    pose proof (parse_questions_agree _ _ _ _ _ _ _ _ Ha Hp Hq H12 H H') as <-;
    apply parse_questions_bounds in H as Hb; [|done] end.
  eapply (parse_records_agree _ p q); [done..| |done|done]; unfold DNS_HEADER_LEN in *; lia.
Qed.

(** ** Admission *)

Lemma admitted_ttl_safe c r : packet_ok r → safe (admitted_ttl c r).
Proof.
  intros Hr; unfold admitted_ttl; wp_call h Hh; do 2 (wp_if; [done|]).
  apply wp_bind; eapply wp_mono with (Q := λ _, True); [|intros [?|] _; repeat case_match; done].
  repeat case_match; try done; apply wp_bind; eapply wp_mono; [by apply cache_lifetime_safe|done].
Qed.

Lemma admitted_ttl_Some c r ttl :
  admitted_ttl c r = Ok (Some ttl) →
  ∃ h, header_parse r = Ok h ∧ is_response h = true ∧ truncated h = false ∧
    ttl ≠ 0 ∧
    (response_code h = 0 →
     ∃ s, cache_lifetime r = Ok (Some s) ∧ ttl = Z.min (s * second) (ca_maximum_ttl c)).
Proof.
  unfold admitted_ttl; intros H; apply bind_Ok in H as (h & Hh & H); exists h.
  destruct (is_response h), (truncated h); try done; cbn [negb orb] in H.
  case_match; [done|]; apply bind_Ok in H as (o & Ho & H).
  destruct o as [t|]; [|done]; case_match; [done|]; injection H as <-; boolp.
  split_and!; [done..|]; intros Hr; rewrite Hr in Ho; cbn [Z.eqb orb] in Ho.
  apply bind_Ok in Ho as (s & Hs & Ho); destruct s as [s|]; [|done]; cbn in Ho; simplify_eq.
  by exists s.
Qed.

Lemma elapsed_nonneg now t : 0 ≤ elapsed_seconds now t.
Proof.
  unfold elapsed_seconds, second.
  pose proof (Z.div_pos (Z.max (now - t) 0) 1000000000); lia.
Qed.

(** ** Runs *)

Inductive dns_op : Type :=
  | DInsert (key : CacheKey) (response : bytes) (now : Z)
  | DGet (key : CacheKey) (id : Z) (allow_stale : bool) (now : Z)
  | DFlush.

(** [window] is the stale window of the cache. *)
Definition dns_op_ok (window : Z) (op : dns_op) : Prop :=
  match op with
  | DInsert key response now => key_ok (to_xkey key) ∧ packet_ok response ∧ time_fits window now
  | DGet key id _ _ => key_ok (to_xkey key) ∧ is_u16 id
  | DFlush => True
  end.

(** The response last accepted under each key, and when. *)
Definition stored_step (c0 : Cache) (s : gmap XKey (Z * bytes)) (op : dns_op) :
    gmap XKey (Z * bytes) :=
  match op with
  | DInsert key response now =>
      match admitted_ttl c0 response with
      | Ok (Some _) => <[to_xkey key := (now, response)]> s
      | _ => s
      end
  | DGet _ _ _ _ => s
  | DFlush => ∅
  end.

(** The entry that storing [response] at [t] makes. *)
Definition stored_entry (c0 : Cache) (t : Z) (response : bytes) (e : CacheEntry) : Prop :=
  ∃ h ttl, packet_ok response ∧ header_parse response = Ok h ∧
    admitted_ttl c0 response = Ok (Some ttl) ∧
    rewrite_id response 0 = Ok (e_answer e) ∧ e_inserted e = t ∧
    e_expires_at e = t + clamp_ttl ttl (response_code h) ∧
    e_stale_until e = e_expires_at e + c_stale_window (ca_global c0).

Section runs.
Context `{io : !IterOrder XKey CacheEntry, !IterOrderOk io}.

Definition dns_step (c : Cache) (op : dns_op) : outcome Empty_set Cache :=
  match op with
  | DInsert key response now =>
      match dns_cache_insert c key response now with
      | Ok (_, c) => Ok c
      | Err _ => Ok c
      | Panic => Panic
      | Diverge => Diverge
      end
  | DGet key id allow_stale now => '(_, c) ← dns_cache_get c key id allow_stale now; Ok c
  | DFlush => Ok (dns_cache_flush c)
  end.

Fixpoint dns_run (c : Cache) (ops : list dns_op) : outcome Empty_set Cache :=
  match ops with
  | [] => Ok c
  | op :: ops => c ← dns_step c op; dns_run c ops
  end.

(** A cache reached from [c0] whose last stored responses are [s]. *)
Record reached (c0 : Cache) (s : gmap XKey (Z * bytes)) (c : Cache) : Prop := {
  re_config : c = with_global c0 (ca_global c);
  re_wf : cache_wf (ca_global c);
  re_window : c_stale_window (ca_global c) = c_stale_window (ca_global c0);
  re_window_pos : 0 ≤ c_stale_window (ca_global c0);
  re_entries : ∀ k e, peek (ca_global c) k = Some e →
    ∃ t response, s !! k = Some (t, response) ∧ stored_entry c0 t response e;
}.

Lemma get_spec c0 s c key id allow now :
  reached c0 s c → key_ok (to_xkey key) → is_u16 id →
  ∃ r c', dns_cache_get c key id allow now = Ok (r, c') ∧ reached c0 s c' ∧
    ∀ q, r = Some q → ∃ t response e p,
      s !! to_xkey key = Some (t, response) ∧ stored_entry c0 t response e ∧
      (is_fresh e now = true ∨ allow = true ∧ is_servable_stale e now = true) ∧
      rewrite_id response id = Ok p ∧
      age_ttls p (elapsed_seconds now t) (e_expires_at e <=? now) = Ok q.
Proof using All.
  intros [Hc Hwf Hwin Hw0 Hent] Hk Hid.
  destruct (lookup_peek (ca_global c) (to_xkey key) now Hwf Hk)
    as (g & Hg & Hs & Hm & Hmax & Hw & _).
  destruct (cache_wf_frame _ g Hwf Hs Hm Hmax) as [Hwf' Hpeek].
  assert (reached c0 s (with_global c g)) as Hre.
  { split; cbn; [by rewrite Hc|done|congruence|done|].
    intros k e; rewrite Hpeek; apply Hent. }
  unfold dns_cache_get; rewrite Hg; cbn [mbind outcome_bind].
  destruct (served_entry _ allow) as [e|] eqn:Hf; [|by exists None, (with_global c g)].
  assert (peek (ca_global c) (to_xkey key) = Some e ∧
    (is_fresh e now = true ∨ allow = true ∧ is_servable_stale e now = true)) as [Hpk Ht].
  { destruct (peek _ _) as [e'|]; [|done].
    destruct (is_fresh e' now) eqn:?, (is_servable_stale e' now) eqn:?, allow; naive_solver. }
  destruct (Hent _ _ Hpk) as (t & response & Hst & He); pose proof He as He'.
  destruct He' as (h & ttl & Hp & Hh & _ & H0 & Hins & _).
  apply header_parse_len in Hh.
  destruct (rewrite_id_spec response id Hp) as (p & Hr & Hpp & _); [lia|done|].
  rewrite (rewrite_id_twice _ _ _ id H0), Hr; cbn [mbind outcome_bind].
  pose proof (elapsed_nonneg now (e_inserted e)) as Hel.
  pose proof (age_ttls_safe p _ (e_expires_at e <=? now) Hpp Hel) as Hsafe.
  destruct (age_ttls p _ _) as [q| | |] eqn:Hq; try done; [|by exists None, (with_global c g)].
  exists (Some q), (with_global c g); split; [done|]; split; [done|]; intros q' [= <-].
  exists t, response, e, p; by subst t.
Qed.

Lemma insert_spec c0 s c key response now :
  reached c0 s c → key_ok (to_xkey key) → packet_ok response →
  time_fits (c_stale_window (ca_global c0)) now →
  ∃ c', dns_step c (DInsert key response now) = Ok c' ∧
    reached c0 (stored_step c0 s (DInsert key response now)) c' ∧
    (is_Some (to_option (admitted_ttl c0 response) ≫= id) →
     dns_cache_insert c key response now = Ok (true, c') ∧
     is_Some (peek (ca_global c') (to_xkey key))).
Proof using All.
  intros Hre Hk Hp Htime; pose proof Hre as [Hc Hwf Hwin Hw0 Hent]; cbn [dns_step stored_step].
  assert (admitted_ttl c response = admitted_ttl c0 response) as Hadm by (by rewrite Hc).
  unfold dns_cache_insert; rewrite Hadm.
  pose proof (admitted_ttl_safe c0 response Hp) as Hsafe.
  destruct (admitted_ttl c0 response) as [[ttl|]| | |] eqn:Ha; try done;
    [|by exists c; split_and!; [done..|intros [? ?]]..].
  cbn [mbind outcome_bind]; apply admitted_ttl_Some in Ha as Hx; destruct Hx as (h & Hh & _).
  rewrite Hh; cbn [mbind outcome_bind]; apply header_parse_len in Hh as Hlen.
  destruct (rewrite_id_spec response 0 Hp) as (p & Hr & _); [lia|done|].
  rewrite Hr; cbn [mbind outcome_bind].
  destruct (cache_insert_spec (ca_global c) (to_xkey key) (response_code h) p ttl false now)
    as (g & Hg & Hwf' & Hwin' & _ & Hnew & Hold);
    [done|done|by rewrite Hwin|by rewrite Hwin; apply time_fits_entry|].
  unfold infallible; rewrite Hg; cbn [map_err mbind outcome_bind].
  exists (with_global c g); split; [done|]; split; [|cbn; intros _; by rewrite Hnew].
  split; cbn; [by rewrite Hc|done|congruence|done|].
  intros k e Hpk; destruct (decide (k = to_xkey key)) as [->|Hne].
  - rewrite Hnew in Hpk; injection Hpk as <-; exists now, response.
    rewrite lookup_insert_eq; split; [done|]; exists h, ttl; cbn; rewrite Hwin; done.
  - rewrite lookup_insert_ne by done; apply Hent; auto.
Qed.

(** A lookup of a key that is present and fresh. *)
Lemma get_fresh c0 s c key id allow now e :
  reached c0 s c → key_ok (to_xkey key) →
  peek (ca_global c) (to_xkey key) = Some e → is_fresh e now = true →
  ∃ c', dns_cache_get c key id allow now =
    match packet ← rewrite_id (e_answer e) id;
          age_ttls packet (elapsed_seconds now (e_inserted e)) (e_expires_at e <=? now) with
    | Ok packet => Ok (Some packet, c')
    | Err _ => Ok (None, c')
    | Panic => Panic
    | Diverge => Diverge
    end.
Proof using All.
  intros [_ Hwf _ _ _] Hk Hpk Hf.
  destruct (lookup_peek (ca_global c) (to_xkey key) now Hwf Hk) as (g & Hg & _).
  rewrite Hpk, Hf in Hg; unfold dns_cache_get; rewrite Hg; by exists (with_global c g).
Qed.

Lemma dns_step_reached c0 s c op :
  reached c0 s c → dns_op_ok (c_stale_window (ca_global c0)) op →
  ∃ c', dns_step c op = Ok c' ∧ reached c0 (stored_step c0 s op) c'.
Proof using All.
  intros Hre Hop; destruct op as [key response now|key id allow now|].
  - destruct Hop as (Hk & Hp & Ht); destruct (insert_spec c0 s c key response now Hre Hk Hp Ht)
      as (c' & ? & ? & _); by exists c'.
  - destruct Hop as [Hk Hid].
    destruct (get_spec c0 s c key id allow now Hre Hk Hid) as (r & c' & Hg & Hre' & _).
    exists c'; cbn [dns_step]; by rewrite Hg.
  - destruct Hre as [Hc Hwf Hwin Hw0 Hent].
    destruct (cache_flush_spec (ca_global c) Hwf) as (Hwf' & Hpeek).
    exists (dns_cache_flush c); split; [done|]; split; cbn; [by rewrite Hc|done|done|done|].
    intros k e; by rewrite Hpeek.
Qed.

Lemma dns_run_reached c0 s c ops :
  reached c0 s c → Forall (dns_op_ok (c_stale_window (ca_global c0))) ops →
  ∃ c', dns_run c ops = Ok c' ∧ reached c0 (foldl (stored_step c0) s ops) c'.
Proof using All.
  intros Hre Hops; revert s c Hre.
  induction Hops as [|op ops Hop Hops IH]; intros s c Hre; [by exists c|].
  destruct (dns_step_reached c0 s c op Hre Hop) as (c1 & H1 & Hre1).
  destruct (IH _ _ Hre1) as (c' & Hc' & Hre').
  exists c'; cbn [dns_run foldl]; by rewrite H1.
Qed.

Lemma new_dns_cache_reached capacity max window negative :
  0 ≤ capacity → 0 ≤ window →
  ∃ c0, new_dns_cache capacity max window negative = Ok c0 ∧ reached c0 ∅ c0 ∧
    ca_maximum_ttl c0 = max ∧ c_stale_window (ca_global c0) = window.
Proof using All.
  intros Hcap Hw; unfold new_dns_cache.
  destruct (cache_new_wf 4 (Z.max (capacity / 16) 1) window)
    as (g & Hg & Hwf & _ & Hwin & _ & Href); [lia..|].
  rewrite Hg; eexists; split; [done|]; split; [|done].
  split; try done; [by cbn; rewrite Hwin|]; intros k e He; by apply Href in He.
Qed.
End runs.

(** ** The TTLs of a hit *)

Lemma elem_of_take {A} (l : list A) n x : x ∈ take n l → x ∈ l.
Proof. intros Hx; rewrite <- (take_drop n l); set_solver. Qed.

Lemma records_at_ttl p o rs stop r : records_at p o rs stop → r ∈ rs → is_u32 (r_ttl r).
Proof.
  intros Hat Hr; revert o Hat; induction Hr as [r rs|r r' rs Hr IH]; intros o [Hok Hat].
  - unfold record_ok in Hok; tauto.
  - by eapply IH.
Qed.

(** The lifetime of a positive response bounds the TTLs of its answers. *)
Lemma lifetime_below p h qs rs stop s :
  packet_ok p → parse_sections p = Ok (h, qs, rs, stop) →
  response_code h = 0 → h_answer_count h ≠ 0 → cache_lifetime p = Ok (Some s) →
  0 ≤ s ∧ ∀ r, r ∈ answer_section h rs → r_rr_type r ≠ TYPE_OPT → s ≤ r_ttl r < 2 ^ 32.
Proof.
  intros Hp Hs Hrc Hac Hl; pose proof Hl as Hl'.
  unfold cache_lifetime in Hl'; rewrite Hs in Hl'; cbn [mbind outcome_bind] in Hl'.
  destruct (is_response h) eqn:Hresp; [|done]; cbn [negb] in Hl'.
  destruct (existsb _ rs) eqn:Hex; [done|].
  assert (∀ r, r ∈ rs → r_rr_type r ≠ TYPE_TSIG) as Hts.
  { intros x Hx Heq; apply not_true_iff_false in Hex; apply Hex.
    apply existsb_exists; exists x; rewrite Heq; split; [by apply list_elem_of_In|done]. }
  destruct (cache_lifetime_spec p h qs rs stop Hp Hs Hresp) as (o & Ho & Hleast);
    [by apply Forall_forall|].
  rewrite Hl in Ho; injection Ho as <-; destruct (proj1 (Hleast s) eq_refl) as [Hin Hmin].
  unfold lifetime_bound in *; rewrite bool_decide_eq_false_2 in Hin, Hmin by lia.
  apply parse_sections_Ok in Hs as (o & _ & _ & _ & _ & Hat & _); [|done].
  assert (∀ r, r ∈ answer_section h rs → is_u32 (r_ttl r)) as Hu.
  { intros r Hr; eapply records_at_ttl; [done|]; by eapply elem_of_take. }
  split; [destruct Hin as (r & Hr & _ & _ & ->); by apply Hu|]; intros r Hr Ht; split.
  - apply Hmin; exists r; split_and!; [done..| |done]; by eapply Hts, elem_of_take.
  - by apply Hu.
Qed.

Lemma fresh_elapsed t e now s ttl :
  0 < ttl ≤ s * second → t ≤ now → s < 2 ^ 32 →
  e_expires_at e = t + clamp_ttl ttl 0 → is_fresh e now = true →
  0 ≤ elapsed_seconds now t < s ∧ elapsed_seconds now t = (now - t) / second.
Proof.
  intros Httl Hnow Hs He Hf; unfold is_fresh in Hf; boolp.
  unfold elapsed_seconds; rewrite Z.max_l by lia; assert (0 < second) by done.
  assert (clamp_ttl ttl 0 ≤ s * second) by (unfold clamp_ttl, clamp, second in *; cbn;
    repeat case_match; boolp; lia).
  assert ((now - t) / second < s) by (apply Z.div_lt_upper_bound; lia).
  assert (0 ≤ (now - t) / second) by (apply Z.div_pos; lia); lia.
Qed.

(** Ageing after the identifier was rewritten, in terms of the records of the
    packet before. *)
Lemma rewritten_ttls response id p elapsed stale q h qs rs stop r :
  packet_ok response → is_u16 id → 0 ≤ elapsed →
  parse_sections response = Ok (h, qs, rs, stop) → rewrite_id response id = Ok p →
  age_ttls p elapsed stale = Ok q → r ∈ answer_section h rs → r_rr_type r ≠ TYPE_OPT →
  read_u32 q (r_ttl_offset r) = Ok (aged_ttl elapsed stale (r_ttl r)).
Proof.
  intros Hp Hid Hel Hs Hid' Hq Hr Ht.
  apply parse_sections_Ok in Hs as Hx; [|done]; destruct Hx as (_ & Hh & _).
  destruct (rewrite_id_spec response id Hp) as (p' & Hp' & Hpp & Hlen & Hout & _);
    [apply header_parse_len in Hh; lia|done|]; rewrite Hid' in Hp'; injection Hp' as <-.
  destruct (parse_sections p) as [[[[h2 qs2] rs2] stop2]| | |] eqn:Hs2;
    try (unfold age_ttls in Hq; rewrite Hs2 in Hq; done).
  assert (agree response p) as Ha by (split; [done|]; intros; symmetry; auto).
  pose proof (sections_agree _ _ _ _ _ _ _ _ _ _ Ha Hp Hpp Hs Hs2) as Hall.
  apply elem_of_take, list_elem_of_lookup in Hr as [i Hi].
  destruct (Forall2_lookup_l _ _ _ _ _ Hall Hi) as (r2 & Hr2 & Ht2 & Httl & Hoff & _).
  destruct (age_ttls_shape p elapsed stale _ _ _ _ Hpp Hel Hs2)
    as (q' & Hq' & _ & _ & _ & _ & Hread).
  rewrite Hq in Hq'; injection Hq' as <-.
  rewrite Hoff, Httl; apply (Forall_lookup_1 _ _ _ _ Hread Hr2); congruence.
Qed.

(** A fresh hit on a positive response: each answer keeps a TTL of at least one
    second, its own less the seconds since it was stored. *)
Lemma fresh_hit_ttls c0 t response e id now p q h qs rs stop :
  stored_entry c0 t response e → 0 ≤ ca_maximum_ttl c0 → is_u16 id →
  parse_sections response = Ok (h, qs, rs, stop) →
  response_code h = 0 → h_answer_count h ≠ 0 → t ≤ now → is_fresh e now = true →
  rewrite_id response id = Ok p →
  age_ttls p (elapsed_seconds now t) (e_expires_at e <=? now) = Ok q →
  ∀ r, r ∈ answer_section h rs → r_rr_type r ≠ TYPE_OPT →
    read_u32 q (r_ttl_offset r) = Ok (r_ttl r - (now - t) / second) ∧
    1 ≤ r_ttl r - (now - t) / second.
Proof.
  intros (h' & ttl & Hp & Hh & Hadm & _ & _ & Hexp & _) Hmax Hid Hs Hrc Hac Hnow Hf Hid' Hq
    r Hr Ht.
  apply parse_sections_Ok in Hs as Hx; [|done]; destruct Hx as (_ & Hh' & _).
  rewrite Hh in Hh'; injection Hh' as ->.
  apply admitted_ttl_Some in Hadm as (h' & Hh' & _ & _ & Hne & Hlife).
  rewrite Hh in Hh'; injection Hh' as <-; destruct (Hlife Hrc) as (s & Hl & Hs').
  destruct (lifetime_below _ _ _ _ _ _ Hp Hs Hrc Hac Hl) as [Hs0 Hsr].
  specialize (Hsr r Hr Ht); rewrite Hrc in Hexp.
  destruct (fresh_elapsed t e now s ttl) as (Hlt & Hel); [|lia|lia|done|done|].
  { subst ttl; unfold second in *; lia. }
  rewrite (rewritten_ttls response id p (elapsed_seconds now t) (e_expires_at e <=? now)
    q h qs rs stop r) by (done || lia).
  unfold is_fresh in Hf; boolp; rewrite (proj2 (Z.leb_gt _ _) Hf), <- Hel.
  unfold aged_ttl, saturating_sub; split; [f_equal|]; lia.
Qed.

(** ** Properties *)

(** C17: a hit is the response last stored under the question.  After any
    sequence of insertions, lookups and flushes on a new cache, at times that with
    the stale window fit an [Instant], a lookup runs without a panic; when it
    returns a packet, that packet is the response last accepted under the name, type and class asked for, with the identifier
    replaced by the one of the query and its TTLs aged by the seconds since it
    was stored, and the response is still within its lifetime, or within the
    stale window if the caller allows stale answers. *)
Theorem cache_hit_exact `{io : !IterOrder XKey CacheEntry} capacity maximum window negative
    ops key id allow now :
  IterOrderOk io → 0 ≤ capacity → 0 ≤ window → Forall (dns_op_ok window) ops →
  key_ok (to_xkey key) → is_u16 id →
  ∃ c0 c r c', new_dns_cache capacity maximum window negative = Ok c0 ∧
    dns_run c0 ops = Ok c ∧ dns_cache_get c key id allow now = Ok (r, c') ∧
    ∀ q, r = Some q → ∃ t response h ttl p,
      foldl (stored_step c0) ∅ ops !! to_xkey key = Some (t, response) ∧
      header_parse response = Ok h ∧ admitted_ttl c0 response = Ok (Some ttl) ∧
      (let expires := t + clamp_ttl ttl (response_code h) in
       (now < expires ∨ allow = true ∧ now < expires + window) ∧
       rewrite_id response id = Ok p ∧
       age_ttls p (elapsed_seconds now t) (expires <=? now) = Ok q).
Proof.
  intros Hio Hcap Hw Hops Hk Hid.
  destruct (new_dns_cache_reached capacity maximum window negative Hcap Hw)
    as (c0 & H0 & Hre0 & _ & Hwin).
  rewrite <- Hwin in Hops.
  destruct (dns_run_reached c0 ∅ c0 ops Hre0 Hops) as (c & Hc & Hre).
  destruct (get_spec _ _ _ key id allow now Hre Hk Hid) as (r & c' & Hg & _ & Hhit).
  exists c0, c, r, c'; do 3 (split; [done|]); intros q Hq.
  destruct (Hhit q Hq) as (t & response & e & p & Hst & He & Hf & Hr & Ha).
  destruct He as (h & ttl & _ & Hh & Hadm & _ & _ & Hexp & Hstale).
  exists t, response, h, ttl, p; cbn zeta; rewrite <- Hexp; split_and!; try done.
  unfold is_fresh, is_servable_stale in Hf; rewrite Hstale, Hwin in Hf.
  destruct Hf as [?|[-> ?]]; boolp; [left; lia|right; split; [done|lia]].
Qed.

(** A key for [example_response], and another for the same question asked over
    another route. *)
Definition example_cache_key (route : Z) : CacheKey :=
  mk_key [1; 120; 1; 121; 0] 1 1 false route.

Lemma example_cache_key_ok route : key_ok (to_xkey (example_cache_key route)).
Proof.
  split_and!; [|unfold is_u16; cbn; lia..].
  repeat (apply Forall_cons_2; [unfold is_u8; lia|]); constructor.
Qed.

Lemma cache_hit_exact_witness :
  ∃ c0 c r c', new_dns_cache 16 (60 * second) 0 true = Ok c0 ∧
    dns_run (io := map_order) c0 [DInsert (example_cache_key 0) example_response 5] = Ok c ∧
    dns_cache_get c (example_cache_key 0) 99 false (7 * second) = Ok (r, c').
Proof.
  destruct (cache_hit_exact (io := map_order) 16 (60 * second) 0 true
    [DInsert (example_cache_key 0) example_response 5] (example_cache_key 0) 99 false
    (7 * second) map_order_ok) as (c0 & c & r & c' & H1 & H2 & H3 & _).
  - lia.
  - lia.
  - apply Forall_singleton; split_and!; [apply example_cache_key_ok|by apply packet_okb_ok|done].
  - apply example_cache_key_ok.
  - unfold is_u16; lia.
  - exists c0, c, r, c'; exact (conj H1 (conj H2 H3)).
Defined.

(** C18: what is stored is served, and never past its TTLs.  Whatever the cache
    held before, storing an admissible positive response at time [t] (that with
    a day and the stale window fits an [Instant]) succeeds,
    and a lookup before the lifetime ends, under any key with the same name,
    type and class, returns a packet with the identifier asked for in which
    every answer record has its own TTL less the whole seconds since [t], at
    least 1.  (The packet with the new identifier must parse: it does unless a
    name points into the identifier.) *)
Theorem cache_stores_and_ages `{io : !IterOrder XKey CacheEntry} capacity maximum window
    negative c0 ops key response ttl t key' id allow now h qs rs stop p x :
  IterOrderOk io → 0 ≤ capacity → 0 ≤ maximum → 0 ≤ window → Forall (dns_op_ok window) ops →
  new_dns_cache capacity maximum window negative = Ok c0 →
  key_ok (to_xkey key) → packet_ok response → is_u16 id →
  admitted_ttl c0 response = Ok (Some ttl) → parse_sections response = Ok (h, qs, rs, stop) →
  response_code h = 0 → h_answer_count h ≠ 0 →
  rewrite_id response id = Ok p → parse_sections p = Ok x →
  time_fits window t → to_xkey key' = to_xkey key → t ≤ now < t + clamp_ttl ttl 0 →
  ∃ c c1 q c2, dns_run c0 ops = Ok c ∧ dns_cache_insert c key response t = Ok (true, c1) ∧
    dns_cache_get c1 key' id allow now = Ok (Some q, c2) ∧ read_u16 q 0 = Ok id ∧
    ∀ r, r ∈ answer_section h rs → r_rr_type r ≠ TYPE_OPT →
      read_u32 q (r_ttl_offset r) = Ok (r_ttl r - (now - t) / second) ∧
      1 ≤ r_ttl r - (now - t) / second.
Proof.
  intros Hio Hcap Hmax Hw Hops H0 Hk Hp Hid Hadm Hs Hrc Hac Hp' Hx Ht Hkey Hnow.
  destruct (new_dns_cache_reached capacity maximum window negative Hcap Hw)
    as (c0' & H0' & Hre0 & Hmax0 & Hwin); rewrite H0 in H0'; injection H0' as <-.
  rewrite <- Hwin in Hops, Ht.
  destruct (dns_run_reached c0 ∅ c0 ops Hre0 Hops) as (c & Hc & Hre).
  destruct (insert_spec c0 _ c key response t Hre Hk Hp Ht) as (c1 & _ & Hre1 & Hst).
  cbn [stored_step] in Hre1; rewrite Hadm in Hre1, Hst; destruct Hst as [Hins [e He]]; [done|].
  destruct (re_entries _ _ _ Hre1 _ _ He) as (t' & response' & Hlook & Hent).
  rewrite lookup_insert_eq in Hlook; injection Hlook as <- <-.
  pose proof Hent as (h' & ttl' & _ & Hh & Hadm' & Hans & Hint & Hexp & _).
  apply parse_sections_Ok in Hs as Hy; [|done]; destruct Hy as (_ & Hh' & _).
  rewrite Hh in Hh'; injection Hh' as ->; rewrite Hadm in Hadm'; injection Hadm' as <-.
  rewrite Hrc in Hexp; assert (is_fresh e now = true) as Hf by (unfold is_fresh; lia).
  destruct (get_fresh _ _ _ key' id allow now e Hre1) as (c2 & Hget); [by rewrite Hkey..|done|].
  rewrite (rewrite_id_twice _ _ _ id Hans), Hp' in Hget; cbn [mbind outcome_bind] in Hget.
  destruct (rewrite_id_spec response id Hp) as (p' & Hp'' & Hpp & _ & _ & Hpid);
    [apply header_parse_len in Hh; lia|done|]; rewrite Hp' in Hp''; injection Hp'' as <-.
  destruct x as [[[h2 qs2] rs2] stop2].
  pose proof (elapsed_nonneg now (e_inserted e)) as Hel.
  destruct (age_ttls_shape p _ (e_expires_at e <=? now) _ _ _ _ Hpp Hel Hx)
    as (q & Hq & _ & _ & Hqh & _); rewrite Hq in Hget.
  exists c, c1, q, c2; do 3 (split; [done|]); split.
  - apply header_parse_iff in Hqh as (_ & -> & _).
    apply parse_sections_Ok in Hx as (_ & Hx & _); [|done].
    by apply header_parse_iff in Hx as (_ & <- & _).
  - rewrite Hint in Hq; apply (fresh_hit_ttls c0 t response e id now p q h qs rs stop);
      done || lia.
Qed.

Lemma cache_stores_and_ages_witness :
  ∃ c0 c c1 q c2, new_dns_cache 16 (60 * second) 0 true = Ok c0 ∧
    dns_run (io := map_order) c0 [] = Ok c ∧
    dns_cache_insert (io := map_order) c (example_cache_key 0) example_response 5 = Ok (true, c1) ∧
    dns_cache_get c1 (example_cache_key 3) 99 false (5 + 7 * second) = Ok (Some q, c2) ∧
    read_u16 q 0 = Ok 99 ∧ read_u32 q 27 = Ok 53.
Proof.
  destruct (new_dns_cache 16 (60 * second) 0 true) as [c0| | |] eqn:H0; [|discriminate H0..].
  assert (admitted_ttl c0 example_response = Ok (Some (60 * second))) as Ha.
  { injection H0 as <-; reflexivity. }
  destruct (cache_stores_and_ages (io := map_order) 16 (60 * second) 0 true c0 []
    (example_cache_key 0) example_response (60 * second) 5 (example_cache_key 3) 99 false
    (5 + 7 * second) example_response_header _ [example_record] _ (0 :: 99 :: drop 2 example_response) _ map_order_ok
    ltac:(lia) ltac:(unfold second; lia) ltac:(lia) (Forall_nil_2 _) H0
    (example_cache_key_ok 0) (packet_okb_ok example_response eq_refl)
    ltac:(unfold is_u16; lia) Ha example_response_sections eq_refl ltac:(done) eq_refl
    eq_refl ltac:(done) eq_refl ltac:(split; [vm_compute; discriminate|reflexivity])) as (c & c1 & q & c2 & H1 & H2 & H3 & H4 & H5).
  exists c0, c, c1, q, c2; do 5 (split; [done|]).
  destruct (H5 example_record) as [H6 _]; [by left|done|exact H6].
Defined.
