(* ===== verification/Routing.v ===== *)
(** * Routing

    Models [src/routing.rs]: the per-link DNS state, which links may be used,
    and the choice of the scopes (global servers, links, fallback servers) that
    a query is sent to.  [RoutingTable::links] is a [BTreeMap]: a finite map
    whose iteration is in the order of its keys.  A method that takes
    [&mut self] returns the new table also when it fails. *)

From S2P Require Import Prelude Text Net Sorting ConfigTypes.

Definition IFF_UP : Z := 0x0001.
Definition IFF_LOOPBACK : Z := 0x0008.
Definition IFF_RUNNING : Z := 0x0040.
Definition IFF_LOWER_UP : Z := 0x10000.
Definition IFF_DORMANT : Z := 0x20000.
Definition IF_OPER_UNKNOWN : Z := 0.
Definition IF_OPER_UP : Z := 6.

Inductive ScopeKind : Type :=
  | ScopeGlobal
  | ScopeLink (ifindex : Z)
  | ScopeFallback.
#[global] Instance ScopeKind_eq_dec : EqDecision ScopeKind.
Proof. solve_decision. Defined.

Record RouteScope : Type := mk_scope {
  sc_kind : ScopeKind;
  sc_servers : list SocketAddr;
}.
#[global] Instance RouteScope_eq_dec : EqDecision RouteScope.
Proof. solve_decision. Defined.

Inductive LinkError : Type :=
  | InvalidIfindex (ifindex : Z)
  | InvalidDomain (domain : str)
  | NoSuchLink (ifindex : Z)
  | ManagedLink (ifindex : Z).
#[global] Instance LinkError_eq_dec : EqDecision LinkError.
Proof. solve_decision. Defined.

Abbreviation lres := (outcome LinkError).

(** ** Addresses *)

Definition ipv4_is_link_local (o : bytes) : bool :=
  (octet o 0 =? 169) && (octet o 1 =? 254).

Definition ipv6_is_link_local (o : bytes) : bool :=
  Z.land (segment0 o) 0xffc0 =? 0xfe80.

Definition normalize_server (ifindex : Z) (server : SocketAddr) : SocketAddr :=
  match server with
  | SockV4 _ _ => server
  | SockV6 ip port flowinfo scope_id =>
      if negb (scope_id =? 0) || negb (Z.land (segment0 ip) 0xffc0 =? 0xfe80) then server
      else if ifindex <? 0 then server
      else SockV6 ip port flowinfo ifindex
  end.

(** ** Links *)

Record KernelLinkState : Type := mk_kernel {
  kl_ifindex : Z;
  kl_ifname : str;
  kl_flags : Z;
  kl_mtu : Z;
  kl_operstate : Z;
  kl_has_ipv4_global : bool;
  kl_has_ipv4_link_local : bool;
  kl_has_ipv6_global : bool;
  kl_has_ipv6_link_local : bool;
}.
#[global] Instance KernelLinkState_eq_dec : EqDecision KernelLinkState.
Proof. solve_decision. Defined.

Definition has_carrier (k : KernelLinkState) : bool :=
  if kl_operstate k =? IF_OPER_UP then true
  else if negb (kl_operstate k =? IF_OPER_UNKNOWN) then false
  else (Z.land (kl_flags k) (Z.lor IFF_LOWER_UP IFF_RUNNING) =? Z.lor IFF_LOWER_UP IFF_RUNNING)
       && (Z.land (kl_flags k) IFF_DORMANT =? 0).

Definition relevant_unicast (k : KernelLinkState) (servers : list SocketAddr) : bool :=
  if negb (Z.land (kl_flags k) (Z.lor IFF_LOOPBACK IFF_DORMANT) =? 0)
     || negb (Z.land (kl_flags k) (Z.lor IFF_UP IFF_LOWER_UP) =? Z.lor IFF_UP IFF_LOWER_UP)
     || negb (has_carrier k)
  then false
  else
    let allow_ipv4_link_local :=
      existsb (λ s, match sock_ip s with V4 a => ipv4_is_link_local a | V6 _ => false end) servers in
    let allow_ipv6_link_local :=
      existsb (λ s, match sock_ip s with V4 _ => false | V6 a => ipv6_is_link_local a end) servers in
    kl_has_ipv4_global k || kl_has_ipv6_global k
    || (allow_ipv4_link_local && kl_has_ipv4_link_local k)
    || (allow_ipv6_link_local && kl_has_ipv6_link_local k).

Record LinkState : Type := mk_link {
  l_ifindex : Z;
  l_dns_servers : list SocketAddr;
  l_domains : list Domain;
  l_default_route : option bool;
  l_llmnr : SupportMode;
  l_multicast_dns : SupportMode;
  l_dns_over_tls : TlsMode;
  l_dnssec : ValidationMode;
  l_dnssec_negative_trust_anchors : list str;
  l_kernel : option KernelLinkState;
}.
#[global] Instance LinkState_eq_dec : EqDecision LinkState.
Proof. solve_decision. Defined.

Definition validate_ifindex (ifindex : Z) : lres unit :=
  if ifindex <=? 0 then Err (InvalidIfindex ifindex) else Ok ().

Definition link_new (ifindex : Z) : lres LinkState :=
  _ ← validate_ifindex ifindex;
  Ok (mk_link ifindex [] [] None SupportYes SupportYes TlsNo AllowDowngrade [] None).

Definition effective_default_route (l : LinkState) : bool :=
  default (negb (existsb (λ d, d_route_only d && negb (bool_decide (d_name d = lit ".")))
             (l_domains l)))
    (l_default_route l).

Definition kernel_relevant_unicast (l : LinkState) : bool :=
  match l_kernel l with
  | Some kernel => relevant_unicast kernel (l_dns_servers l)
  | None => true
  end.

(** ** Names and domains *)

Definition normalize_name (name : str) : lres str :=
  let name := trim_end_matches dot (trim name) in
  if bool_decide (name = []) || bool_decide (name = lit "~") then Ok (lit ".")
  else
    let name := default name (strip_prefix (lit "~") name) in
    if bool_decide (name = []) || negb (is_ascii name) || (253 <? str_len name)
       || existsb (λ label, bool_decide (label = []) || (63 <? str_len label))
            (split_on dot name)
    then Err (InvalidDomain name)
    else Ok (to_ascii_lowercase name).

Definition normalize_domain (domain : Domain) : lres Domain :=
  name ← normalize_name (d_name domain);
  Ok (mk_domain name (d_route_only domain)).

Definition domain_match_labels (name domain : str) : option Z :=
  if bool_decide (domain = lit ".") then Some 0
  else if eq_ignore_ascii_case name domain
          || match strip_suffix name domain with
             | Some prefix => ends_with prefix (lit ".")
             | None => false
             end
  then Some (len (split_on dot domain))
  else None.

Definition best_domain_match (name : str) (ds : list Domain) : option Z :=
  max_of (omap (λ d, domain_match_labels name (d_name d)) ds).

Definition append_search_domains (output source : list Domain) : list Domain :=
  foldl (λ output d,
    if d_route_only d || bool_decide (d_name d = lit ".") || bool_decide (d ∈ output)
    then output else output ++ [d]) output source.

(** ** The table *)

Record RoutingTable : Type := mk_table {
  rt_links : gmap Z LinkState;
  rt_kernel_synchronized : bool;
}.

Definition table_default : RoutingTable := mk_table ∅ false.

Definition table_links (t : RoutingTable) : list LinkState := (ordered (rt_links t)).*2.

Definition table_link (t : RoutingTable) (ifindex : Z) : option LinkState :=
  rt_links t !! ifindex.

Definition with_link (t : RoutingTable) (ifindex : Z) (l : LinkState) : RoutingTable :=
  { t with rt_links ::= <[ifindex := l]> }.

Definition link_mut (t : RoutingTable) (ifindex : Z) : lres (LinkState * RoutingTable) :=
  _ ← validate_ifindex ifindex;
  match rt_links t !! ifindex with
  | Some l => Ok (l, t)
  | None =>
      if rt_kernel_synchronized t then Err (NoSuchLink ifindex)
      else l ← link_new ifindex; Ok (l, with_link t ifindex l)
  end.

(** [let link = self.link_mut(ifindex)?; ...]: [f] returns the changed link, or
    nothing when nothing changed. *)
Definition update_link (t : RoutingTable) (ifindex : Z)
    (f : LinkState → lres (option LinkState)) : lres bool * RoutingTable :=
  match link_mut t ifindex with
  | Ok (l, t) =>
      match f l with
      | Ok None => (Ok false, t)
      | Ok (Some l) => (Ok true, with_link t ifindex l)
      | Err e => (Err e, t)
      | Panic => (Panic, t)
      | Diverge => (Diverge, t)
      end
  | Err e => (Err e, t)
  | Panic => (Panic, t)
  | Diverge => (Diverge, t)
  end.

(** [if link.field == value { return Ok(false) } link.field = value; Ok(true)] *)
Definition changed_to {A} `{EqDecision A} (current value : A) (l : LinkState) :
    lres (option LinkState) :=
  Ok (if bool_decide (current = value) then None else Some l).

Definition set_dns (t : RoutingTable) (ifindex : Z) (servers : list SocketAddr) :
    lres bool * RoutingTable :=
  update_link t ifindex (λ l,
    normalized ← push_normalized (λ s, Ok (normalize_server ifindex s)) servers [];
    changed_to (l_dns_servers l) normalized { l with l_dns_servers := normalized }).

Definition set_domains (t : RoutingTable) (ifindex : Z) (ds : list Domain) :
    lres bool * RoutingTable :=
  update_link t ifindex (λ l,
    normalized ← push_normalized normalize_domain ds [];
    changed_to (l_domains l) normalized { l with l_domains := normalized }).

Definition set_default_route (t : RoutingTable) (ifindex : Z) (v : option bool) :
    lres bool * RoutingTable :=
  update_link t ifindex (λ l, changed_to (l_default_route l) v { l with l_default_route := v }).

Definition set_llmnr (t : RoutingTable) (ifindex : Z) (mode : SupportMode) :
    lres bool * RoutingTable :=
  update_link t ifindex (λ l, changed_to (l_llmnr l) mode { l with l_llmnr := mode }).

Definition set_multicast_dns (t : RoutingTable) (ifindex : Z) (mode : SupportMode) :
    lres bool * RoutingTable :=
  update_link t ifindex (λ l,
    changed_to (l_multicast_dns l) mode { l with l_multicast_dns := mode }).

Definition set_dns_over_tls (t : RoutingTable) (ifindex : Z) (mode : TlsMode) :
    lres bool * RoutingTable :=
  update_link t ifindex (λ l,
    changed_to (l_dns_over_tls l) mode { l with l_dns_over_tls := mode }).

Definition set_dnssec (t : RoutingTable) (ifindex : Z) (mode : ValidationMode) :
    lres bool * RoutingTable :=
  update_link t ifindex (λ l, changed_to (l_dnssec l) mode { l with l_dnssec := mode }).

Definition set_dnssec_negative_trust_anchors (t : RoutingTable) (ifindex : Z)
    (anchors : list str) : lres bool * RoutingTable :=
  update_link t ifindex (λ l,
    normalized ← push_normalized normalize_name anchors [];
    changed_to (l_dnssec_negative_trust_anchors l) normalized
      { l with l_dnssec_negative_trust_anchors := normalized }).

(** [match self.links.entry(kernel.ifindex)] *)
Definition entry_link (t : RoutingTable) (ifindex : Z) : lres LinkState :=
  match rt_links t !! ifindex with
  | Some l => Ok l
  | None => link_new ifindex
  end.

(** The loop of [sync_kernel_links]: the table, the indices seen and whether
    something changed; an error leaves the table as it is then. *)
Fixpoint sync_links (kernels : list KernelLinkState) (changed : bool) (seen : gset Z)
    (t : RoutingTable) : lres (bool * gset Z) * RoutingTable :=
  match kernels with
  | [] => (Ok (changed, seen), t)
  | kernel :: kernels =>
      match validate_ifindex (kl_ifindex kernel) with
      | Ok _ =>
          let seen := {[ kl_ifindex kernel ]} ∪ seen in
          match entry_link t (kl_ifindex kernel) with
          | Ok l =>
              if bool_decide (l_kernel l = Some kernel)
              then sync_links kernels changed seen (with_link t (kl_ifindex kernel) l)
              else sync_links kernels true seen
                     (with_link t (kl_ifindex kernel) { l with l_kernel := Some kernel })
          | Err e => (Err e, t)
          | Panic => (Panic, t)
          | Diverge => (Diverge, t)
          end
      | Err e => (Err e, t)
      | Panic => (Panic, t)
      | Diverge => (Diverge, t)
      end
  end.

Definition retained (seen : gset Z) (synchronized : bool) (il : Z * LinkState) : Prop :=
  il.1 ∈ seen ∨ (l_kernel il.2 = None ∧ synchronized = false).
#[global] Instance retained_dec seen b il : Decision (retained seen b il).
Proof. unfold retained; apply _. Defined.

Definition sync_kernel_links (t : RoutingTable) (kernels : list KernelLinkState) :
    lres bool * RoutingTable :=
  match sync_links kernels (negb (rt_kernel_synchronized t)) ∅ t with
  | (Ok (changed, seen), t) =>
      let links := filter (retained seen (rt_kernel_synchronized t)) (rt_links t) in
      let changed := changed || negb (bool_decide (size links = size (rt_links t))) in
      (Ok changed, mk_table links true)
  | (Err e, t) => (Err e, t)
  | (Panic, t) => (Panic, t)
  | (Diverge, t) => (Diverge, t)
  end.

Definition revert (t : RoutingTable) (ifindex : Z) : lres bool * RoutingTable :=
  match (_ ← validate_ifindex ifindex;
         l ← ok_or (rt_links t !! ifindex) (NoSuchLink ifindex);
         reset ← link_new ifindex;
         Ok (l, reset)) with
  | Ok (l, reset) =>
      let reset := { reset with l_kernel := l_kernel l } in
      if bool_decide (l = reset) then (Ok false, t) else (Ok true, with_link t ifindex reset)
  | Err e => (Err e, t)
  | Panic => (Panic, t)
  | Diverge => (Diverge, t)
  end.

(** ** Queries *)

(** [ifindex.filter(|ifindex| *ifindex != 0)] *)
Definition nonzero (ifindex : option Z) : option Z :=
  i ← ifindex; if i =? 0 then None else Some i.

Definition search_domains (t : RoutingTable) (global_domains : list Domain)
    (ifindex : option Z) : lres (list Domain) :=
  match nonzero ifindex with
  | Some ifindex =>
      _ ← validate_ifindex ifindex;
      l ← ok_or (rt_links t !! ifindex) (NoSuchLink ifindex);
      Ok (append_search_domains [] (l_domains l))
  | None =>
      Ok (foldl (λ output l, append_search_domains output (l_domains l))
            (append_search_domains [] global_domains) (table_links t))
  end.

(** [link.dns_servers.is_empty() || !link.kernel_relevant_unicast()], negated. *)
Definition usable (l : LinkState) : bool :=
  negb (bool_decide (l_dns_servers l = [])) && kernel_relevant_unicast l.

Definition link_scope (l : LinkState) : RouteScope :=
  mk_scope (ScopeLink (l_ifindex l)) (l_dns_servers l).

(** The scopes with a matching domain, and how many labels match. *)
Definition domain_matches (t : RoutingTable) (name : str) (global_servers : list SocketAddr)
    (global_domains : list Domain) : list (Z * RouteScope) :=
  (if bool_decide (global_servers = []) then []
   else match best_domain_match name global_domains with
        | Some labels => [(labels, mk_scope ScopeGlobal global_servers)]
        | None => []
        end)
  ++ omap (λ l,
       if negb (usable l) then None
       else (λ labels, (labels, link_scope l)) <$> best_domain_match name (l_domains l))
       (table_links t).

(** The scopes used when no domain matches. *)
Definition default_scopes (t : RoutingTable) (global_servers fallback_servers : list SocketAddr) :
    list RouteScope :=
  let scopes :=
    (if bool_decide (global_servers = []) then [] else [mk_scope ScopeGlobal global_servers])
    ++ omap (λ l, if effective_default_route l && usable l then Some (link_scope l) else None)
         (table_links t) in
  if bool_decide (scopes = []) && negb (bool_decide (fallback_servers = []))
  then [mk_scope ScopeFallback fallback_servers]
  else scopes.

Definition select (t : RoutingTable) (name : str) (ifindex : option Z)
    (global_servers fallback_servers : list SocketAddr) (global_domains : list Domain) :
    lres (list RouteScope) :=
  match nonzero ifindex with
  | Some ifindex =>
      _ ← validate_ifindex ifindex;
      l ← ok_or (rt_links t !! ifindex) (NoSuchLink ifindex);
      Ok (if usable l then [mk_scope (ScopeLink ifindex) (l_dns_servers l)] else [])
  | None =>
      name ← normalize_name name;
      let matches := domain_matches t name global_servers global_domains in
      match max_of matches.*1 with
      | Some best => Ok (List.filter (λ m, m.1 =? best) matches).*2
      | None => Ok (default_scopes t global_servers fallback_servers)
      end
  end.
