(* ===== verification/RoutingFacts.v ===== *)
(** * Routing: theorems

    Domains as label lists, the invariant of the table and that every operation
    keeps it, the scopes [select] returns, and that no operation changes a
    routing decision without reporting a change. *)

From S2P Require Import Prelude Text Net Sorting ConfigTypes Routing.

(** ** Domains that cover a name *)

Definition lower_case (s : str) : Prop := to_ascii_lowercase s = s.

Definition labels (s : str) : list str := split_on dot s.

(** [covers d n]: the labels of the domain [d] are the last labels of [n]; the
    root domain covers every name. *)
Definition covers (domain name : str) : Prop :=
  domain = lit "." ∨ ∃ pre, labels name = pre ++ labels domain.

(** How specific a domain is. *)
Definition domain_labels (domain : str) : Z :=
  if bool_decide (domain = lit ".") then 0 else len (labels domain).

Lemma labels_suffix name domain :
  (∃ pre, labels name = pre ++ labels domain) ↔
  name = domain ∨ ∃ p, name = p ++ [dot] ++ domain.
Proof.
  unfold labels; split.
  - intros [pre H]; rewrite <- (join_split dot name), H.
    destruct pre as [|x pre]; [left; apply join_split|right].
    exists (join_with [dot] (x :: pre)).
    rewrite join_with_app by (done || apply split_on_nonempty); by rewrite join_split.
  - intros [->|[p ->]]; [by exists []|]; exists (split_on dot p).
    exact (split_on_app dot p domain).
Qed.

Lemma domain_match_spec name domain k :
  lower_case name → lower_case domain → domain_match_labels name domain = Some k ↔
  covers domain name ∧ k = domain_labels domain.
Proof.
  intros Hn Hd; unfold domain_match_labels, covers, domain_labels.
  case_bool_decide as Hroot; [split; [intros [= <-]; auto|by intros [_ ->]]|].
  rewrite labels_suffix; unfold eq_ignore_ascii_case; rewrite Hn, Hd.
  assert ((match strip_suffix name domain with
           | Some prefix => ends_with prefix (lit ".") | None => false end = true) ↔
          ∃ p, name = p ++ [dot] ++ domain) as Hs.
  { destruct (strip_suffix name domain) as [p|] eqn:Hp.
    - apply strip_suffix_Some in Hp; rewrite ends_with_iff; split.
      + intros [q ->]; exists q; by rewrite Hp, <- app_assoc.
      + intros [q Hq]; exists q; rewrite Hp, app_assoc in Hq; by apply app_inv_tail in Hq.
    - split; [done|]; intros [p Hq]; rewrite app_assoc in Hq.
      by apply strip_suffix_Some in Hq; rewrite Hq in Hp. }
  case_bool_decide as Heq; cbn [orb]; [split; [intros [= <-]; auto|by intros [_ ->]]|].
  match goal with |- context [if ?b then _ else _] => destruct b end; split.
  - intros [= <-]; split; [right; right; by apply Hs|done].
  - by intros [_ ->].
  - done.
  - intros [[?|[?|Hp]] _]; [done..|]; by apply Hs in Hp.
Qed.

Definition domains_ok (ds : list Domain) : Prop := Forall (λ d, lower_case (d_name d)) ds.

(** Some domain of [ds] with [k] labels covers the name. *)
Definition match_length (name : str) (ds : list Domain) (k : Z) : Prop :=
  ∃ d, d ∈ ds ∧ covers (d_name d) name ∧ domain_labels (d_name d) = k.

Lemma elem_of_matches name ds k :
  lower_case name → domains_ok ds →
  k ∈ omap (λ d, domain_match_labels name (d_name d)) ds ↔ match_length name ds k.
Proof.
  intros Hn Hds; rewrite list_elem_of_omap; unfold match_length; split.
  - intros (d & Hd & Hm); exists d; apply domain_match_spec in Hm as [? ->]; try done.
    by eapply (proj1 (Forall_forall _ _) Hds).
  - intros (d & Hd & Hc & <-); exists d; split; [done|]; apply domain_match_spec; try done.
    by eapply (proj1 (Forall_forall _ _) Hds).
Qed.

Lemma best_match_Some name ds k :
  lower_case name → domains_ok ds →
  best_domain_match name ds = Some k ↔
  match_length name ds k ∧ ∀ j, match_length name ds j → j ≤ k.
Proof.
  intros Hn Hds; unfold best_domain_match; rewrite max_of_Some.
  by setoid_rewrite (elem_of_matches name ds _ Hn Hds).
Qed.

Lemma best_match_None name ds :
  lower_case name → domains_ok ds →
  best_domain_match name ds = None ↔ ∀ k, ¬ match_length name ds k.
Proof.
  intros Hn Hds; unfold best_domain_match; rewrite max_of_None.
  setoid_rewrite <- (elem_of_matches name ds _ Hn Hds); split; [by intros -> ? []%not_elem_of_nil|].
  intros H; destruct (omap _ ds) as [|k l]; [done|]; destruct (H k); by left.
Qed.

(** ** The invariant of the table *)

Record link_wf (i : Z) (l : LinkState) : Prop := {
  lw_ifindex : l_ifindex l = i;
  lw_positive : 0 < i;
  lw_domains : domains_ok (l_domains l);
  lw_domains_nodup : NoDup (l_domains l);
  lw_servers_nodup : NoDup (l_dns_servers l);
  lw_servers : Forall (λ s, normalize_server i s = s) (l_dns_servers l);
  lw_anchors : Forall lower_case (l_dnssec_negative_trust_anchors l);
  lw_kernel : ∀ k, l_kernel l = Some k → kl_ifindex k = i;
}.

Definition table_wf (t : RoutingTable) : Prop :=
  ∀ i l, rt_links t !! i = Some l → link_wf i l.

Lemma elem_of_table_links t l :
  l ∈ table_links t ↔ ∃ i, rt_links t !! i = Some l.
Proof.
  unfold table_links; rewrite list_elem_of_fmap; split.
  - intros ([i l'] & -> & H); exists i; by apply elem_of_ordered.
  - intros [i H]; exists (i, l); split; [done|]; by apply elem_of_ordered.
Qed.

(** ** Selection *)

(** The scopes a query may go to, with their domains. *)
Inductive eligible (t : RoutingTable) (global_servers : list SocketAddr)
    (global_domains : list Domain) : RouteScope → list Domain → Prop :=
  | eligible_global :
      global_servers ≠ [] →
      eligible t global_servers global_domains (mk_scope ScopeGlobal global_servers) global_domains
  | eligible_link i l :
      rt_links t !! i = Some l → l_dns_servers l ≠ [] → kernel_relevant_unicast l = true →
      eligible t global_servers global_domains
        (mk_scope (ScopeLink i) (l_dns_servers l)) (l_domains l).

Lemma usable_iff l : usable l = true ↔ l_dns_servers l ≠ [] ∧ kernel_relevant_unicast l = true.
Proof. unfold usable; rewrite andb_true_iff, negb_true_iff, bool_decide_eq_false; done. Qed.

Lemma elem_of_domain_matches t name gs gd k s :
  table_wf t →
  (k, s) ∈ domain_matches t name gs gd ↔
  ∃ ds, eligible t gs gd s ds ∧ best_domain_match name ds = Some k.
Proof.
  intros Hwf; unfold domain_matches; rewrite elem_of_app, list_elem_of_omap; split.
  - intros [Hg|(l & [i Hl]%elem_of_table_links & Hm)].
    + case_bool_decide; [by apply not_elem_of_nil in Hg|].
      destruct (best_domain_match name gd) as [j|] eqn:Hj; [|by apply not_elem_of_nil in Hg].
      apply list_elem_of_singleton in Hg; simplify_eq; exists gd; split; [by constructor|done].
    + destruct (usable l) eqn:Hu; [|done]; cbn in Hm.
      apply fmap_Some in Hm as (j & Hj & [= -> ->]); apply usable_iff in Hu as [? ?].
      exists (l_domains l); split; [|done]; unfold link_scope.
      rewrite (lw_ifindex _ _ (Hwf _ _ Hl)); by constructor.
  - intros (ds & He & Hk); destruct He as [Hgs|i l Hl Hs Hr].
    + left; rewrite bool_decide_eq_false_2, Hk by done; by left.
    + right; exists l; split; [apply elem_of_table_links; by exists i|].
      rewrite (proj2 (usable_iff l)) by done; cbn; rewrite Hk; cbn.
      unfold link_scope; by rewrite (lw_ifindex _ _ (Hwf _ _ Hl)).
Qed.

Lemma elem_of_default_links t s :
  table_wf t →
  s ∈ omap (λ l, if effective_default_route l && usable l then Some (link_scope l) else None)
        (table_links t) ↔
  ∃ i l, rt_links t !! i = Some l ∧ l_dns_servers l ≠ [] ∧ kernel_relevant_unicast l = true ∧
    effective_default_route l = true ∧ s = mk_scope (ScopeLink i) (l_dns_servers l).
Proof.
  intros Hwf; rewrite list_elem_of_omap; split.
  - intros (l & [i Hl]%elem_of_table_links & Hm); exists i, l.
    destruct (effective_default_route l) eqn:?, (usable l) eqn:Hu; try done; cbn in Hm.
    apply usable_iff in Hu as [? ?]; injection Hm as <-; unfold link_scope.
    by rewrite (lw_ifindex _ _ (Hwf _ _ Hl)).
  - intros (i & l & Hl & Hs & Hr & Hd & ->); exists l.
    split; [apply elem_of_table_links; by exists i|].
    rewrite Hd, (proj2 (usable_iff l)) by done; cbn; unfold link_scope.
    by rewrite (lw_ifindex _ _ (Hwf _ _ Hl)).
Qed.

(** The scopes used when no domain matches the name. *)
Inductive default_scope (t : RoutingTable) (global_servers : list SocketAddr) :
    RouteScope → Prop :=
  | default_global :
      global_servers ≠ [] → default_scope t global_servers (mk_scope ScopeGlobal global_servers)
  | default_link i l :
      rt_links t !! i = Some l → l_dns_servers l ≠ [] → kernel_relevant_unicast l = true →
      effective_default_route l = true →
      default_scope t global_servers (mk_scope (ScopeLink i) (l_dns_servers l)).

Lemma elem_of_default_scopes t gs fs s :
  table_wf t →
  s ∈ default_scopes t gs fs ↔
  default_scope t gs s ∨
  (∀ s', ¬ default_scope t gs s') ∧ fs ≠ [] ∧ s = mk_scope ScopeFallback fs.
Proof.
  intros Hwf; unfold default_scopes.
  set (scopes := _ ++ omap _ _).
  assert (∀ s, s ∈ scopes ↔ default_scope t gs s) as Hin.
  { intros s'; unfold scopes; rewrite elem_of_app, elem_of_default_links by done; split.
    - intros [Hg|(i & l & ? & ? & ? & ? & ->)]; [|by constructor].
      case_bool_decide; [by apply not_elem_of_nil in Hg|].
      apply list_elem_of_singleton in Hg as ->; by constructor.
    - intros [Hgs|i l ????]; [left; rewrite bool_decide_eq_false_2 by done; by left|].
      right; exists i, l; done. }
  destruct (decide (scopes = [])) as [He|Hne].
  - rewrite He, bool_decide_eq_true_2 by done; cbn [andb].
    assert (∀ s', ¬ default_scope t gs s') as Hno.
    { intros s' Hs'%Hin; rewrite He in Hs'; by apply not_elem_of_nil in Hs'. }
    case_bool_decide as Hfs; cbn.
    + split; [by intros []%not_elem_of_nil|]; intros [?|(_ & ? & _)]; [by destruct (Hno s)|done].
    + rewrite list_elem_of_singleton; split; [by right|].
      intros [?|(_ & _ & ?)]; [by destruct (Hno s)|done].
  - rewrite bool_decide_eq_false_2 by done; cbn [andb]; rewrite Hin; split; [by left|].
    intros [?|(Hno & _)]; [done|]; destruct scopes as [|s' l]; [done|].
    destruct (Hno s'); apply Hin; by left.
Qed.

Lemma normalize_name_lower s n : normalize_name s = Ok n → lower_case n.
Proof.
  unfold normalize_name; repeat case_match; intros [= <-]; [done|].
  apply to_ascii_lowercase_idemp.
Qed.

(** The best of the matching scopes. *)
Definition best_scope (t : RoutingTable) (gs : list SocketAddr) (gd : list Domain) (n : str)
    (s : RouteScope) : Prop :=
  ∃ ds k, eligible t gs gd s ds ∧ match_length n ds k ∧
    ∀ s' ds' k', eligible t gs gd s' ds' → match_length n ds' k' → k' ≤ k.

Lemma eligible_domains t gs gd s ds :
  table_wf t → domains_ok gd → eligible t gs gd s ds → domains_ok ds.
Proof. intros Hwf Hgd [?|i l Hl ??]; [done|]; by eapply lw_domains, Hwf. Qed.

Section selection.
Context (t : RoutingTable) (gs : list SocketAddr) (gd : list Domain) (n : str).
Context (Hwf : table_wf t) (Hgd : domains_ok gd) (Hn : lower_case n).

Lemma elem_of_best_matches k s :
  (k, s) ∈ domain_matches t n gs gd ↔ ∃ ds, eligible t gs gd s ds ∧
    match_length n ds k ∧ ∀ j, match_length n ds j → j ≤ k.
Proof using Hwf Hgd Hn.
  rewrite elem_of_domain_matches by done; split; intros (ds & He & Hk);
    exists ds; (split; [done|]); apply (best_match_Some n ds k Hn); try done;
    by eapply eligible_domains.
Qed.

Lemma match_listed s ds k :
  eligible t gs gd s ds → match_length n ds k →
  ∃ j, (j, s) ∈ domain_matches t n gs gd ∧ k ≤ j.
Proof using Hwf Hgd Hn.
  intros He Hk; destruct (best_domain_match n ds) as [j|] eqn:Hj.
  - exists j; rewrite elem_of_domain_matches by done; split; [by exists ds|].
    apply best_match_Some in Hj as [_ Hj]; [auto|done|by eapply eligible_domains].
  - pose proof (proj1 (best_match_None n ds Hn (eligible_domains _ _ _ _ _ Hwf Hgd He)) Hj k).
    done.
Qed.

Lemma elem_of_best_scopes best s :
  max_of (domain_matches t n gs gd).*1 = Some best →
  s ∈ (List.filter (λ m, m.1 =? best) (domain_matches t n gs gd)).*2 ↔ best_scope t gs gd n s.
Proof using Hwf Hgd Hn.
  intros [Hbest Hall]%max_of_Some.
  assert (∀ k s, (k, s) ∈ domain_matches t n gs gd → k ≤ best) as Hle.
  { intros k s' Hk; apply Hall, list_elem_of_fmap; by exists (k, s'). }
  rewrite list_elem_of_fmap; split.
  - intros ([k s'] & -> & [Hk Heq]%elem_of_bfilter); cbn in *; boolp; subst k.
    apply elem_of_best_matches in Hk as (ds & He & Hk & _); exists ds, best; split_and!; try done.
    intros s2 ds2 k2 He2 Hk2; destruct (match_listed _ _ _ He2 Hk2) as (j & Hj & ?).
    specialize (Hle _ _ Hj); lia.
  - intros (ds & k & He & Hk & Hk'); destruct (match_listed _ _ _ He Hk) as (j & Hj & Hkj).
    exists (j, s); split; [done|]; apply elem_of_bfilter; split; [done|]; cbn.
    apply list_elem_of_fmap in Hbest as ([b s'] & -> & Hb); specialize (Hle _ _ Hj).
    apply elem_of_best_matches in Hb as (ds' & He' & Hb & _).
    specialize (Hk' _ _ _ He' Hb); cbn in *; lia.
Qed.

Lemma no_match : domain_matches t n gs gd = [] ↔
  ∀ s ds k, eligible t gs gd s ds → ¬ match_length n ds k.
Proof using Hwf Hgd Hn.
  split.
  - intros Hb s ds k He Hk; destruct (match_listed _ _ _ He Hk) as (j & Hj & _).
    rewrite Hb in Hj; by apply not_elem_of_nil in Hj.
  - intros Hno; destruct (domain_matches t n gs gd) as [|[k s] l] eqn:Hm; [done|].
    assert ((k, s) ∈ domain_matches t n gs gd) as Hk by (rewrite Hm; by left).
    apply elem_of_best_matches in Hk as (ds & He & Hk & _); by destruct (Hno _ _ _ He Hk).
Qed.
End selection.

Lemma select_spec t name n gs fs gd :
  table_wf t → domains_ok gd → normalize_name name = Ok n →
  ∃ scopes, select t name None gs fs gd = Ok scopes ∧ ∀ s, s ∈ scopes ↔
    best_scope t gs gd n s ∨
    (∀ s' ds k, eligible t gs gd s' ds → ¬ match_length n ds k) ∧
    (default_scope t gs s ∨
     (∀ s', ¬ default_scope t gs s') ∧ fs ≠ [] ∧ s = mk_scope ScopeFallback fs).
Proof.
  intros Hwf Hgd Hn; apply normalize_name_lower in Hn as Hlow.
  unfold select; cbn [nonzero mbind option_bind]; rewrite Hn; cbn [mbind outcome_bind].
  destruct (max_of (domain_matches t n gs gd).*1) as [best|] eqn:Hb;
    (eexists; split; [done|]; intros s).
  - rewrite (elem_of_best_scopes t gs gd n Hwf Hgd Hlow best s Hb); split; [by left|].
    intros [?|[Hno _]]; [done|]; apply (no_match t gs gd n Hwf Hgd Hlow) in Hno.
    by rewrite Hno in Hb.
  - apply max_of_None, fmap_nil_inv in Hb.
    pose proof (proj1 (no_match t gs gd n Hwf Hgd Hlow) Hb) as Hno.
    rewrite elem_of_default_scopes by done; split; [by right|].
    intros [(ds & k & He & Hk & _)|[_ ?]]; [by destruct (Hno _ _ _ He Hk)|done].
Qed.

(** ** Operations *)

Inductive routing_op : Type :=
  | SetDns (ifindex : Z) (servers : list SocketAddr)
  | SetDomains (ifindex : Z) (ds : list Domain)
  | SetDefaultRoute (ifindex : Z) (v : option bool)
  | SetLlmnr (ifindex : Z) (mode : SupportMode)
  | SetMulticastDns (ifindex : Z) (mode : SupportMode)
  | SetDnsOverTls (ifindex : Z) (mode : TlsMode)
  | SetDnssec (ifindex : Z) (mode : ValidationMode)
  | SetNegativeTrustAnchors (ifindex : Z) (anchors : list str)
  | SyncKernelLinks (kernels : list KernelLinkState)
  | Revert (ifindex : Z).

Definition routing_step (t : RoutingTable) (op : routing_op) : lres bool * RoutingTable :=
  match op with
  | SetDns i servers => set_dns t i servers
  | SetDomains i ds => set_domains t i ds
  | SetDefaultRoute i v => set_default_route t i v
  | SetLlmnr i mode => set_llmnr t i mode
  | SetMulticastDns i mode => set_multicast_dns t i mode
  | SetDnsOverTls i mode => set_dns_over_tls t i mode
  | SetDnssec i mode => set_dnssec t i mode
  | SetNegativeTrustAnchors i anchors => set_dnssec_negative_trust_anchors t i anchors
  | SyncKernelLinks kernels => sync_kernel_links t kernels
  | Revert i => revert t i
  end.

Lemma link_new_wf i l : link_new i = Ok l → link_wf i l.
Proof.
  unfold link_new, validate_ifindex; case_match; [done|]; intros [= <-]; boolp.
  by split; cbn; try (lia || constructor).
Qed.

Lemma with_link_wf t i l : table_wf t → link_wf i l → table_wf (with_link t i l).
Proof.
  intros Ht Hl j l'; change (rt_links (with_link t i l)) with (<[i := l]> (rt_links t)).
  rewrite lookup_insert; case_decide; [intros [= <-]; by subst|apply Ht].
Qed.

Lemma link_mut_wf t i l t' :
  table_wf t → link_mut t i = Ok (l, t') → link_wf i l ∧ table_wf t'.
Proof.
  intros Ht (u & _ & H)%bind_Ok; destruct (rt_links t !! i) as [l'|] eqn:Hl.
  - injection H as <- <-; split; [by apply Ht|done].
  - destruct (rt_kernel_synchronized t); [done|]; apply bind_Ok in H as (l' & Hn & H).
    injection H as <- <-.
    apply link_new_wf in Hn; split; [done|by apply with_link_wf].
Qed.

(** A method on one link keeps the invariant when its change does. *)
Lemma update_link_wf t i f :
  table_wf t → (∀ l l', link_wf i l → f l = Ok (Some l') → link_wf i l') →
  table_wf (update_link t i f).2.
Proof.
  intros Ht Hf; unfold update_link; destruct (link_mut t i) as [[l t']| | |] eqn:Hm; try done.
  apply link_mut_wf in Hm as [Hl Ht']; [|done].
  destruct (f l) as [[l'|]| | |] eqn:Hl'; cbn; try done.
  apply with_link_wf; [done|by eapply Hf].
Qed.

Lemma changed_to_Some {A} `{EqDecision A} (x y : A) l l' :
  changed_to x y l = Ok (Some l') → l' = l.
Proof. unfold changed_to; case_bool_decide; naive_solver. Qed.

Lemma normalize_server_idemp i s : normalize_server i (normalize_server i s) = normalize_server i s.
Proof.
  destruct s as [|ip port flow scope]; [done|]; cbn.
  destruct (negb (scope =? 0) || negb (Z.land (segment0 ip) 65472 =? 65152)) eqn:H1;
    [cbn; by rewrite H1|].
  destruct (i <? 0) eqn:H2; cbn; [by rewrite H1, H2|].
  apply orb_false_iff in H1 as [_ ->]; rewrite H2, orb_false_r; by case_match.
Qed.

Lemma set_dns_wf t i servers : table_wf t → table_wf (set_dns t i servers).2.
Proof.
  intros Ht; apply update_link_wf; [done|]; intros l l' [] (n & Hn & ->%changed_to_Some)%bind_Ok.
  apply push_normalized_spec in Hn as [Hd Hin]; [|constructor]; split; try done.
  apply Forall_forall; intros s [[]%not_elem_of_nil|(x & _ & Hx)]%Hin.
  injection Hx as <-; apply normalize_server_idemp.
Qed.

Lemma set_domains_wf t i ds : table_wf t → table_wf (set_domains t i ds).2.
Proof.
  intros Ht; apply update_link_wf; [done|]; intros l l' [] (n & Hn & ->%changed_to_Some)%bind_Ok.
  apply push_normalized_spec in Hn as [Hd Hin]; [|constructor]; split; try done.
  apply Forall_forall; intros d [[]%not_elem_of_nil|(x & _ & Hx)]%Hin.
  apply bind_Ok in Hx as (m & Hm & [= <-]); by apply normalize_name_lower in Hm.
Qed.

Lemma set_anchors_wf t i anchors :
  table_wf t → table_wf (set_dnssec_negative_trust_anchors t i anchors).2.
Proof.
  intros Ht; apply update_link_wf; [done|]; intros l l' [] (n & Hn & ->%changed_to_Some)%bind_Ok.
  apply push_normalized_spec in Hn as [Hd Hin]; [|constructor]; split; try done.
  apply Forall_forall; intros d [[]%not_elem_of_nil|(x & _ & Hx)]%Hin.
  by apply normalize_name_lower in Hx.
Qed.

Lemma sync_links_wf kernels changed seen t r t' :
  table_wf t → sync_links kernels changed seen t = (r, t') → table_wf t'.
Proof.
  revert changed seen t; induction kernels as [|k kernels IH]; intros changed seen t Ht;
    cbn [sync_links]; [by intros [= _ <-]|].
  destruct (validate_ifindex (kl_ifindex k)) eqn:Hv; try by intros [= _ <-].
  destruct (entry_link t (kl_ifindex k)) as [l| | |] eqn:Hl; try by intros [= _ <-].
  assert (link_wf (kl_ifindex k) l) as Hwl.
  { unfold entry_link in Hl.
    destruct (rt_links t !! kl_ifindex k) as [l'|] eqn:Hlk; [|by apply link_new_wf].
    injection Hl as <-; by apply Ht. }
  case_bool_decide; apply IH, with_link_wf; try done.
  destruct Hwl; split; try done; by intros k' [= <-].
Qed.

Lemma routing_step_wf t op : table_wf t → table_wf (routing_step t op).2.
Proof.
  intros Ht; destruct op; cbn [routing_step];
    [by apply set_dns_wf|by apply set_domains_wf| | | | | |by apply set_anchors_wf| |];
    try (apply update_link_wf; [done|]; intros l l' [] ->%changed_to_Some; by split).
  - unfold sync_kernel_links.
    destruct (sync_links _ _ _ _) as [r t'] eqn:Hs; apply sync_links_wf in Hs; [|done].
    destruct r as [[changed seen]| | |]; cbn; try done.
    intros i l; cbn [rt_links]; rewrite map_lookup_filter_Some; intros [Hl _]; by apply Hs.
  - unfold revert; destruct (_ ← _; _) as [[l reset]| | |] eqn:Hr; try done.
    apply bind_Ok in Hr as (u & _ & Hr); apply bind_Ok in Hr as (l' & Hl & Hr).
    apply bind_Ok in Hr as (r & Hn & Hr); injection Hr as -> ->.
    apply ok_or_Ok in Hl; case_bool_decide; [done|]; apply with_link_wf; [done|].
    apply link_new_wf in Hn as []; split; try done; exact (lw_kernel _ _ (Ht _ _ Hl)).
Qed.

(** ** Changes are reported *)

Lemma omap_fmap {A B C} (f : A → B) (g : B → option C) (l : list A) : omap g (f <$> l) = omap (g ∘ f) l.
Proof. induction l as [|x l IH]; [done|]; cbn; by rewrite IH. Qed.

Lemma foldl_insert_sorted {A B} (f : B → A → B) le x l b :
  (∀ b, f b x = b) → foldl f b (insert_sorted le x l) = foldl f b l.
Proof.
  intros Hx; revert b; induction l as [|y l IH]; intros b; cbn; [apply Hx|].
  case_match; cbn; [by rewrite Hx|apply IH].
Qed.

Lemma foldl_fmap {A B C} (f : A → B) (g : C → B → C) (l : list A) c :
  foldl g c (f <$> l) = foldl (λ c x, g c (f x)) c l.
Proof. revert c; induction l as [|x l IH]; intros c; [done|]; cbn; apply IH. Qed.

(** The table after an operation that did not report a change: the same, or the
    same with one more link that has no servers and no domains. *)
Inductive same_routes (t : RoutingTable) : RoutingTable → Prop :=
  | same_table : same_routes t t
  | blank_link i l :
      rt_links t !! i = None → link_new i = Ok l → same_routes t (with_link t i l).

Lemma update_link_unreported t i f r t' :
  update_link t i f = (r, t') → r ≠ Ok true → same_routes t t'.
Proof.
  unfold update_link; intros H Hr.
  destruct (link_mut t i) as [[l t1]| | |] eqn:Hm; try (injection H as _ <-; constructor).
  assert (same_routes t t1) as Hs.
  { apply bind_Ok in Hm as (u & _ & Hm); destruct (rt_links t !! i) as [l'|] eqn:Hl.
    - injection Hm as _ <-; constructor.
    - destruct (rt_kernel_synchronized t); [done|]; apply bind_Ok in Hm as (l' & Hn & Hm).
      injection Hm as _ <-; by constructor. }
  destruct (f l) as [[l'|]| | |]; injection H as <- <-; done.
Qed.

Lemma sync_links_true kernels seen t seen' t' :
  sync_links kernels true seen t ≠ (Ok (false, seen'), t').
Proof.
  revert seen t; induction kernels as [|k kernels IH]; intros seen t; cbn [sync_links]; [done|].
  destruct (validate_ifindex _); try done; destruct (entry_link _ _); try done.
  case_bool_decide; apply IH.
Qed.

Lemma sync_links_unchanged kernels seen t seen' t' :
  sync_links kernels false seen t = (Ok (false, seen'), t') → rt_links t' = rt_links t.
Proof.
  revert seen t; induction kernels as [|k kernels IH]; intros seen t; cbn [sync_links].
  { by intros [= _ <-]. }
  destruct (validate_ifindex _); try done; destruct (entry_link _ _) as [l| | |] eqn:Hl; try done.
  case_bool_decide as Hk; intros H; [|by apply sync_links_true in H].
  rewrite (IH _ _ H); change (rt_links (with_link t (kl_ifindex k) l))
    with (<[kl_ifindex k := l]> (rt_links t)); unfold entry_link in Hl.
  destruct (rt_links t !! kl_ifindex k) as [l'|] eqn:Hlk.
  - injection Hl as ->; by apply insert_id.
  - unfold link_new in Hl; apply bind_Ok in Hl as (u & _ & [= <-]); done.
Qed.

Lemma sync_kernel_unchanged t kernels t' :
  sync_kernel_links t kernels = (Ok false, t') → t' = t.
Proof.
  unfold sync_kernel_links; intros H.
  destruct (sync_links _ _ _ _) as [[[changed seen]| | |] t1] eqn:Hs; try done.
  injection H as Hc <-; apply orb_false_iff in Hc as [-> Hsize].
  apply negb_false_iff, bool_decide_eq_true in Hsize.
  assert (rt_kernel_synchronized t = true) as Hsync.
  { destruct (rt_kernel_synchronized t); [done|].
    by apply sync_links_true in Hs. }
  rewrite Hsync in Hs; cbn [negb] in Hs; apply sync_links_unchanged in Hs as Hl.
  destruct t as [links sync]; cbn in *; subst sync; f_equal; rewrite <- Hl.
  apply map_subseteq_size_eq; [apply map_filter_subseteq|lia].
Qed.

(** A link nothing is known of. *)
Definition fresh_link (i : Z) : LinkState :=
  mk_link i [] [] None SupportYes SupportYes TlsNo AllowDowngrade [] None.

(** The link [i] once the kernel's states [kernels] were taken over. *)
Definition with_kernels (kernels : list KernelLinkState) (t : RoutingTable) (i : Z) : option LinkState :=
  match last (filter (λ k, kl_ifindex k = i) kernels) with
  | Some k => Some { default (fresh_link i) (rt_links t !! i) with l_kernel := Some k }
  | None => rt_links t !! i
  end.

(** A synchronization that fails has taken over the states before the first one
    whose index is not positive. *)
Definition stopped_at (kernels : list KernelLinkState) (e : LinkError) (t t' : RoutingTable) : Prop :=
  ∃ before bad after, kernels = before ++ bad :: after ∧ Forall (λ k, 0 < kl_ifindex k) before ∧
    kl_ifindex bad ≤ 0 ∧ e = InvalidIfindex (kl_ifindex bad) ∧
    rt_kernel_synchronized t' = rt_kernel_synchronized t ∧
    ∀ i, rt_links t' !! i = with_kernels before t i.

Lemma sync_links_result kernels changed seen t r t' :
  sync_links kernels changed seen t = (r, t') →
  match r with Ok _ => True | Err e => stopped_at kernels e t t' | _ => False end.
Proof.
  revert changed seen t; induction kernels as [|k kernels IH]; intros changed seen t; cbn [sync_links].
  { by intros [= <- <-]. }
  unfold validate_ifindex; destruct (Z.leb_spec (kl_ifindex k) 0) as [Hk|Hk].
  { intros [= <- <-]; exists [], k, kernels; by split_and!; try constructor. }
  assert (entry_link t (kl_ifindex k) = Ok (default (fresh_link (kl_ifindex k)) (rt_links t !! kl_ifindex k))) as ->.
  { unfold entry_link, link_new, validate_ifindex; destruct (_ !! _); [done|].
    by rewrite (proj2 (Z.leb_gt _ _)). }
  set (l := default _ _); set (l' := { l with l_kernel := Some k }).
  assert (∀ changed seen, sync_links kernels changed seen (with_link t (kl_ifindex k) l') = (r, t') →
    match r with Ok _ => True | Err e => stopped_at (k :: kernels) e t t' | _ => False end) as Hstep.
  { intros c sn H; apply IH in H; destruct r as [|e| |]; try done.
    destruct H as (before & bad & after & -> & Hpos & Hbad & He & Hs & Hl); exists (k :: before), bad, after.
    split_and!; [done|by constructor|done..|]; intros i; rewrite Hl; unfold with_kernels; rewrite filter_cons.
    change (rt_links (with_link t (kl_ifindex k) l')) with (<[kl_ifindex k := l']> (rt_links t)).
    destruct (decide (kl_ifindex k = i)) as [<-|Hne]; [|by rewrite lookup_insert_ne].
    rewrite last_cons, lookup_insert_eq; by destruct (last (filter _ before)). }
  case_bool_decide as Heq; [|apply Hstep].
  replace l with l' by (unfold l'; rewrite <- Heq; by destruct l); apply Hstep.
Qed.

Lemma sync_kernel_result t kernels r t' :
  sync_kernel_links t kernels = (r, t') →
  match r with Ok _ => True | Err e => stopped_at kernels e t t' | _ => False end.
Proof.
  unfold sync_kernel_links; intros H.
  destruct (sync_links _ _ _ _) as [[[changed seen]| | |] t1] eqn:Hs; apply sync_links_result in Hs;
    by injection H as <- <-.
Qed.

Lemma routing_unreported t op r t' :
  routing_step t op = (r, t') → r ≠ Ok true →
  match op with SyncKernelLinks _ => r = Ok false | _ => True end → same_routes t t'.
Proof.
  intros H Hr Hs; destruct op; cbn in H; try by eapply update_link_unreported.
  - subst r; apply sync_kernel_unchanged in H as ->; constructor.
  - unfold revert in H; destruct (_ ← _; _) as [[l reset]| | |];
      try (injection H as _ <-; constructor).
    case_bool_decide; injection H as <- <-; [constructor|done].
Qed.

Lemma blank_link_fields i l :
  link_new i = Ok l → l_domains l = [] ∧ l_dns_servers l = [] ∧ usable l = false.
Proof. by intros (u & _ & [= <-])%bind_Ok. Qed.

Lemma same_routes_select t t' name gs fs gd :
  same_routes t t' →
  select t' name None gs fs gd = select t name None gs fs gd ∧
  search_domains t' gd None = search_domains t gd None ∧
  ∀ i, i ≠ 0 →
    select t' name (Some i) gs fs gd = select t name (Some i) gs fs gd ∧
    search_domains t' gd (Some i) = search_domains t gd (Some i) ∨
    select t name (Some i) gs fs gd = Err (NoSuchLink i) ∧
    select t' name (Some i) gs fs gd = Ok [] ∧
    search_domains t gd (Some i) = Err (NoSuchLink i) ∧ search_domains t' gd (Some i) = Ok [].
Proof.
  intros [|i l Hi Hn]; [by auto|]; destruct (blank_link_fields i l Hn) as (Hd & Hs & Hu).
  assert (table_links (with_link t i l) = (insert_sorted key_le (i, l) (ordered (rt_links t))).*2)
    as Hl by (unfold table_links; f_equal; exact (ordered_insert_new _ _ _ Hi)).
  split_and!.
  - unfold select; cbn [nonzero mbind option_bind]; destruct (normalize_name name) as [n| | |];
      try done; cbn [mbind outcome_bind]; unfold domain_matches, default_scopes; rewrite Hl.
    unfold table_links; rewrite !omap_fmap, !omap_insert_sorted;
      [done|unfold compose; cbn; by rewrite ?Hu, ?andb_false_r..].
  - unfold search_domains; cbn [nonzero mbind option_bind]; rewrite Hl; unfold table_links.
    rewrite !foldl_fmap, foldl_insert_sorted; [done|]; intros b; cbn; by rewrite Hd.
  - intros j Hj; unfold select, search_domains, nonzero; cbn [mbind option_bind].
    rewrite (proj2 (Z.eqb_neq j 0) Hj); cbn [mbind option_bind].
    destruct (validate_ifindex j) eqn:Hv; try by left.
    cbn [mbind outcome_bind]; change (rt_links (with_link t i l)) with (<[i := l]> (rt_links t)).
    destruct (decide (i = j)) as [->|Hne]; [right|left; by rewrite lookup_insert_ne].
    rewrite lookup_insert_eq, Hi; cbn [ok_or mbind outcome_bind]; by rewrite Hu, Hd.
Qed.

(** ** Properties *)

(** C19: which servers are asked.  For a name that normalizes, and domains in
    lower case, [select] without an interface returns exactly: the scopes
    (global servers, or a link with servers that is up) whose longest domain
    covering the name is at least as long as that of any other scope, when some
    domain covers the name; otherwise the global servers and the links that are
    a default route; and the fallback servers only when there are none of
    these.  So a name under a link's domain never reaches the servers of
    a scope with a less specific match.  Covering is by whole labels, and the
    root domain covers everything with length 0. *)
Theorem select_longest_domain t name n gs fs gd :
  table_wf t → domains_ok gd → normalize_name name = Ok n →
  ∃ scopes, select t name None gs fs gd = Ok scopes ∧ ∀ s, s ∈ scopes ↔
    best_scope t gs gd n s ∨
    (∀ s' ds k, eligible t gs gd s' ds → ¬ match_length n ds k) ∧
    (default_scope t gs s ∨
     (∀ s', ¬ default_scope t gs s') ∧ fs ≠ [] ∧ s = mk_scope ScopeFallback fs).
Proof. apply select_spec. Qed.

(** Link 2 with one server and the routing domain ["corp"]. *)
Definition example_link : LinkState :=
  mk_link 2 [SockV4 [192; 0; 2; 2] 53] [mk_domain (lit "corp") true] None SupportYes SupportYes
    TlsNo AllowDowngrade [] None.
Definition example_table : RoutingTable := mk_table {[ 2 := example_link ]} false.

Lemma example_table_wf : table_wf example_table.
Proof.
  intros i l Hl; unfold example_table in Hl; cbn [rt_links] in Hl.
  apply lookup_singleton_Some in Hl as [<- <-]; split; try done; cbn.
  - by apply Forall_singleton.
  - apply NoDup_singleton.
  - apply NoDup_singleton.
  - by apply Forall_singleton.
Qed.

Lemma select_longest_domain_witness :
  ∃ scopes, select example_table (lit "host.Corp.") None [SockV4 [192; 0; 2; 1] 53] [] [] =
      Ok scopes ∧
    ∀ s, s ∈ scopes ↔
      best_scope example_table [SockV4 [192; 0; 2; 1] 53] [] (lit "host.corp") s ∨
      (∀ s' ds k, eligible example_table [SockV4 [192; 0; 2; 1] 53] [] s' ds →
         ¬ match_length (lit "host.corp") ds k) ∧
      (default_scope example_table [SockV4 [192; 0; 2; 1] 53] s ∨
       (∀ s', ¬ default_scope example_table [SockV4 [192; 0; 2; 1] 53] s') ∧
       ([] : list SocketAddr) ≠ [] ∧ s = mk_scope ScopeFallback []).
Proof.
  exact (select_longest_domain example_table (lit "host.Corp.") (lit "host.corp")
    [SockV4 [192; 0; 2; 1] 53] [] [] example_table_wf (Forall_nil_2 _) eq_refl).
Defined.

(** The invariant of the routing table.  Starting from an empty table, after
    any sequence of operations, failed ones included, every link is stored under
    its own positive index, its domains and negative trust anchors are in lower
    case, domains and servers have no duplicates, link-local servers carry the
    link's scope, and the kernel state belongs to that link. *)
Theorem routing_table_invariant ops :
  table_wf (foldl (λ t op, (routing_step t op).2) table_default ops).
Proof.
  assert (table_wf table_default) as Ht by (intros i l Hl; by cbn in Hl; rewrite lookup_empty in Hl).
  revert Ht; generalize table_default; induction ops as [|op ops IH]; intros t Ht; [done|].
  cbn [foldl]; by apply IH, routing_step_wf.
Qed.

(** C20: no routing change goes unreported, but by a synchronization with the
    kernel that fails.  When any other operation fails, or any operation reports
    no change, every routing decision is the one before: the scopes of every name
    and the search domains, without an interface and under each interface,
    except that an interface which was unknown may now be known and have neither
    servers nor domains.  A synchronization fails exactly at the first link whose
    index is not positive; the links before it have the kernel's states then, and
    nothing else changed. *)
Theorem routing_changes_reported t op r t' :
  routing_step t op = (r, t') → r ≠ Ok true →
  match op, r with
  | SyncKernelLinks kernels, Err e => stopped_at kernels e t t'
  | _, _ =>
      ∀ name gs fs gd,
        select t' name None gs fs gd = select t name None gs fs gd ∧
        search_domains t' gd None = search_domains t gd None ∧
        ∀ i, i ≠ 0 →
          select t' name (Some i) gs fs gd = select t name (Some i) gs fs gd ∧
          search_domains t' gd (Some i) = search_domains t gd (Some i) ∨
          select t name (Some i) gs fs gd = Err (NoSuchLink i) ∧
          select t' name (Some i) gs fs gd = Ok [] ∧
          search_domains t gd (Some i) = Err (NoSuchLink i) ∧ search_domains t' gd (Some i) = Ok []
  end.
Proof.
  intros H Hr; destruct op; try (intros name gs fs gd; apply same_routes_select; by eapply routing_unreported).
  cbn in H; pose proof (sync_kernel_result _ _ _ _ H) as Hres.
  destruct r as [[]|e| |]; [done| |done|done..].
  intros name gs fs gd; apply same_routes_select; by eapply (routing_unreported t (SyncKernelLinks _)).
Qed.

Lemma routing_changes_reported_witness :
  set_domains example_table 3 [mk_domain (lit "a..b") false] =
    (Err (InvalidDomain (lit "a..b")),
     (set_domains example_table 3 [mk_domain (lit "a..b") false]).2) ∧
  select (set_domains example_table 3 [mk_domain (lit "a..b") false]).2 (lit "x") None [] [] [] =
    select example_table (lit "x") None [] [] [].
Proof.
  split; [reflexivity|].
  apply (routing_changes_reported example_table (SetDomains 3 [mk_domain (lit "a..b") false])
    (Err (InvalidDomain (lit "a..b"))) _ eq_refl ltac:(discriminate)).
Defined.
