(* ===== verification/SplitDns.v ===== *)
(** * Split DNS

    Models [src/split_dns.rs]: rules that send the names below a suffix to the
    servers of a link, and the expansion of names by the search domains.  The
    theorems say which links a name goes to and which names it expands to. *)

From S2P Require Import Prelude Text Sorting.

Record DomainRule : Type := mk_rule {
  dr_suffix : str;
  dr_ifindex : Z;
  dr_search : bool;
  dr_route_only : bool;
  dr_priority : Z;
}.

Inductive Pick : Type := PickLinks (links : list Z) | PickDefaultRoute | PickBlackhole.

Record SplitDnsTable : Type := mk_split {
  sd_rules : list DomainRule;
  sd_default_route_ifindices : list Z;
  sd_allow_default : bool;
  sd_ndots : Z;
  sd_search : list str;
}.

Definition split_default : SplitDnsTable := mk_split [] [] true 1 [].

Definition split_normalize_name (name : str) : str :=
  to_ascii_lowercase (trim_end_matches 46 (trim name)).

Definition suffix_match_len (name suffix : str) : option Z :=
  let n := split_normalize_name name in
  let d := split_normalize_name suffix in
  if bool_decide (d = []) || bool_decide (d = lit ".") then None
  else if bool_decide (n = d) then Some (str_len d)
  else if ends_with n (lit "." ++ d) then Some (str_len d) else None.

(** ** Choosing links *)

(** The state of the loop: the best length, the best priority at that length,
    and the links and priorities of the rules that have it. *)
Record hits : Type := mk_hits {
  h_best_len : Z;
  h_best_prio : Z;
  h_hits : list (Z * Z);
}.

Definition hit (name : str) (h : hits) (r : DomainRule) : hits :=
  match suffix_match_len name (dr_suffix r) with
  | None => h
  | Some length =>
      match length ?= h_best_len h with
      | Gt => mk_hits length (dr_priority r) [(dr_ifindex r, dr_priority r)]
      | Eq =>
          mk_hits (h_best_len h)
            (if dr_priority r <? h_best_prio h then dr_priority r else h_best_prio h)
            (h_hits h ++ [(dr_ifindex r, dr_priority r)])
      | Lt => h
      end
  end.

Definition i32_max : Z := 2 ^ 31 - 1.

Definition pick_links_for_name (name : str) (rules : list DomainRule)
    (default_route_links : list Z) (allow_default : bool) : Pick :=
  let hits := h_hits (foldl (hit name) (mk_hits (-1) i32_max []) rules) in
  if bool_decide (hits = []) then if allow_default then PickDefaultRoute else PickBlackhole
  else
    let min_p := default 0 (min_of hits.*2) in
    PickLinks (dedup (sort_by Z.leb (filter (λ h, h.2 = min_p) hits).*1)).

Definition pick (t : SplitDnsTable) (name : str) : Pick :=
  pick_links_for_name name (sd_rules t) (sd_default_route_ifindices t) (sd_allow_default t).

Definition would_leak_to_uplink (name : str) (rules : list DomainRule) : bool :=
  match pick_links_for_name name rules [] false with PickLinks _ => true | _ => false end.

(** ** Searching *)

Definition split_search_list (t : SplitDnsTable) : list str :=
  let all := sd_search t ++
    (dr_suffix <$> filter (λ r, dr_search r = true ∧ dr_route_only r = false) (sd_rules t)) in
  foldl push_new [] (filter (λ x, x ≠ [] ∧ x ≠ lit ".") (split_normalize_name <$> all)).

Definition expand_search (name : str) (search : list str) (ndots : Z) : list str :=
  let raw := trim name in
  if bool_decide (raw = []) then []
  else if ends_with raw (lit ".") then [split_normalize_name raw]
  else
    let n := split_normalize_name raw in
    let dots := len (filter (λ c, c = 46) n) in
    let searched :=
      (λ s, n ++ lit "." ++ s) <$>
        filter (λ s, s ≠ [] ∧ s ≠ lit ".") (split_normalize_name <$> search) in
    let out := (if ndots <=? dots then [n] else []) ++ searched ++
               (if dots <? ndots then [n] else []) in
    foldl push_new [] out.

Definition expand (t : SplitDnsTable) (name : str) : list str :=
  expand_search name (split_search_list t) (sd_ndots t).

(** ** Changing the rules *)

Definition same_rule (r rule : DomainRule) : bool :=
  (dr_ifindex r =? dr_ifindex rule) &&
  bool_decide (split_normalize_name (dr_suffix r) = split_normalize_name (dr_suffix rule)).

(** [iter_mut().find]: the first rule for the suffix on the link is replaced. *)
Fixpoint upsert (rule : DomainRule) (rules : list DomainRule) : list DomainRule :=
  match rules with
  | [] => [rule]
  | r :: rules => if same_rule r rule then rule :: rules else r :: upsert rule rules
  end.

Definition upsert_rule (t : SplitDnsTable) (rule : DomainRule) : SplitDnsTable :=
  mk_split (upsert rule (sd_rules t)) (sd_default_route_ifindices t) (sd_allow_default t)
    (sd_ndots t) (sd_search t).

Definition clear_link (t : SplitDnsTable) (ifindex : Z) : SplitDnsTable :=
  mk_split (filter (λ r, dr_ifindex r ≠ ifindex) (sd_rules t))
    (filter (λ i, i ≠ ifindex) (sd_default_route_ifindices t)) (sd_allow_default t) (sd_ndots t)
    (sd_search t).

(** ** Suffixes *)

Lemma char_len_pos c : 0 < char_len c.
Proof. unfold char_len; repeat case_match; lia. Qed.

Lemma str_len_nonneg s : 0 ≤ str_len s.
Proof. induction s as [|c s IH]; cbn; [done|]; pose proof (char_len_pos c); fold (str_len s); lia. Qed.

Lemma str_len_app s t : str_len (s ++ t) = str_len s + str_len t.
Proof. induction s as [|c s IH]; [done|]; cbn; fold (str_len s) (str_len t) (str_len (s ++ t)); lia. Qed.

Lemma split_normalize_not_dot s : split_normalize_name s ≠ lit ".".
Proof.
  unfold split_normalize_name; change (lit ".") with [46]; intros H.
  destruct (trim_end_matches_spec 46 (trim s)) as (k & _ & Hl).
  unfold to_ascii_lowercase in H; apply fmap_cons_inv in H as (c & r & Hc & Hr & Hs).
  symmetry in Hr; apply fmap_nil_inv in Hr as ->; rewrite Hs in Hl; cbn in Hl.
  apply Hl; f_equal; unfold lower_char in Hc; revert Hc; case_match; boolp; lia.
Qed.

(** A suffix matches the name itself and the names below it. *)
Lemma suffix_match_len_iff name suffix n :
  suffix_match_len name suffix = Some n ↔
  let d := split_normalize_name suffix in
  d ≠ [] ∧ n = str_len d ∧
  (split_normalize_name name = d ∨ ∃ t, split_normalize_name name = t ++ lit "." ++ d).
Proof.
  unfold suffix_match_len; cbn zeta; pose proof (split_normalize_not_dot suffix) as Hd.
  rewrite (bool_decide_eq_false_2 (_ = lit ".")), orb_false_r by done.
  case_bool_decide; [naive_solver|]; case_bool_decide; [naive_solver|].
  rewrite <- ends_with_iff; destruct (ends_with _ _); naive_solver.
Qed.

(** ** The rules that decide *)

Definition matches_rule (name : str) (r : DomainRule) : option Z :=
  suffix_match_len name (dr_suffix r).

(** A rule no other rule beats: its suffix is the longest that matches, and of
    those its priority is the least. *)
Definition best_rule (name : str) (rules : list DomainRule) (r : DomainRule) : Prop :=
  r ∈ rules ∧ ∃ n, matches_rule name r = Some n ∧
  ∀ r' n', r' ∈ rules → matches_rule name r' = Some n' →
    n' < n ∨ n' = n ∧ dr_priority r ≤ dr_priority r'.

Definition hit_of (r : DomainRule) : Z * Z := (dr_ifindex r, dr_priority r).

Lemma filter_none {A} (P : A → Prop) `{∀ x, Decision (P x)} l :
  (∀ x, x ∈ l → ¬ P x) → filter P l = [].
Proof.
  intros HP; apply elem_of_nil_inv; intros x [Hx Hl]%list_elem_of_filter; by apply (HP x).
Qed.

(** What the loop computes over the rules seen so far. *)
Lemma hits_spec name rules :
  let h := foldl (hit name) (mk_hits (-1) i32_max []) rules in
  h_hits h = hit_of <$> filter (λ r, matches_rule name r = Some (h_best_len h)) rules ∧
  (∀ r n, r ∈ rules → matches_rule name r = Some n → n ≤ h_best_len h) ∧
  (h_hits h = [] → h_best_len h = -1).
Proof.
  cbn zeta; induction rules as [|r rules (IH1 & IH2 & IH3)] using rev_ind; [set_solver|].
  rewrite foldl_snoc; set (h := foldl _ _ rules) in *.
  rewrite filter_app, fmap_app; unfold hit; fold (matches_rule name r).
  setoid_rewrite elem_of_app; setoid_rewrite list_elem_of_singleton.
  destruct (matches_rule name r) as [n|] eqn:Hr.
  2:{ rewrite filter_cons_False, app_nil_r by (rewrite Hr; done); naive_solver. }
  destruct (Z.compare_spec n (h_best_len h)) as [Hn|Hn|Hn]; cbn [h_hits h_best_len].
  - rewrite filter_cons_True by (by rewrite Hr, Hn); rewrite <- IH1; split_and!; [done| |].
    + intros r' n' [?| ->] ?; [by eapply IH2|]; simplify_eq; lia.
    + intros [_ ?]%app_nil; done.
  - rewrite filter_cons_False, app_nil_r by (rewrite Hr; intros [=]; lia); split_and!; [done| |done].
    intros r' n' [?| ->] ?; [by eapply IH2|]; simplify_eq; lia.
  - rewrite filter_cons_True by done; split_and!; [|intros r' n' [Hr'| ->] Hm|done].
    + rewrite (filter_none _ rules); [done|]; intros r' Hr' Hm.
      pose proof (IH2 _ _ Hr' Hm); lia.
    + pose proof (IH2 _ _ Hr' Hm); lia.
    + simplify_eq; lia.
Qed.

(** Whether any rule matches, the links of the best rules otherwise. *)
Definition pick_spec (name : str) (rules : list DomainRule) (allow : bool) (p : Pick) : Prop :=
  match p with
  | PickLinks l =>
      l ≠ [] ∧ StronglySorted Z.lt l ∧
      ∀ i, i ∈ l ↔ ∃ r, best_rule name rules r ∧ dr_ifindex r = i
  | PickDefaultRoute => allow = true ∧ ∀ r, r ∈ rules → matches_rule name r = None
  | PickBlackhole => allow = false ∧ ∀ r, r ∈ rules → matches_rule name r = None
  end.

(** Sorting and deduplicating a list gives the increasing list of its elements. *)
Lemma sorted_set_spec l :
  StronglySorted Z.lt (dedup (sort_by Z.leb l)) ∧ ∀ i, i ∈ dedup (sort_by Z.leb l) ↔ i ∈ l.
Proof.
  split; [|intros i; by rewrite elem_of_dedup, sort_by_perm].
  apply dedup_sorted; eapply StronglySorted_mono;
    [|apply (sort_by_sorted Z.leb); intros *; rewrite !Z.leb_le; lia].
  intros x y; apply Z.leb_le.
Qed.

(** The hits with the least priority are those of the best rules. *)
Lemma best_rule_hit name rules b r m :
  (∀ r n, r ∈ rules → matches_rule name r = Some n → n ≤ b) →
  min_of (hit_of <$> filter (λ r, matches_rule name r = Some b) rules).*2 = Some m →
  best_rule name rules r ↔
  r ∈ filter (λ r, matches_rule name r = Some b) rules ∧ dr_priority r = m.
Proof.
  intros Hb [Hm Hle]%min_of_Some.
  assert (∀ r', r' ∈ rules → matches_rule name r' = Some b → m ≤ dr_priority r') as Hle'.
  { intros r' Hin Hr'; apply Hle; rewrite <- list_fmap_compose; apply list_elem_of_fmap.
    exists r'; split; [done|]; by apply list_elem_of_filter. }
  rewrite <- list_fmap_compose in Hm; apply list_elem_of_fmap in Hm as (r0 & Hm & Hr0).
  apply list_elem_of_filter in Hr0 as [Hr0 Hin0]; cbn in Hm.
  rewrite list_elem_of_filter; split.
  - intros (Hin & n & Hn & Hall); pose proof (Hb _ _ Hin Hn).
    pose proof (Hall _ _ Hin0 Hr0); assert (n = b) as -> by lia.
    pose proof (Hle' _ Hin Hn); split; [done|lia].
  - intros [[Hr Hin] Hp]; split; [done|]; exists b; split; [done|]; intros r' n' Hin' Hr'.
    pose proof (Hb _ _ Hin' Hr'); destruct (decide (n' = b)) as [->|]; [right|left; lia].
    split; [done|]; rewrite Hp; by apply Hle'.
Qed.

Lemma matches_rule_nonneg name r n : matches_rule name r = Some n → 0 ≤ n.
Proof. intros (_ & -> & _)%suffix_match_len_iff; apply str_len_nonneg. Qed.

Lemma pick_meets_spec name rules dl allow :
  pick_spec name rules allow (pick_links_for_name name rules dl allow).
Proof.
  unfold pick_links_for_name; destruct (hits_spec name rules) as (Hh & Hb & Hempty).
  set (h := foldl _ _ rules) in *; case_bool_decide as He.
  - assert (∀ r, r ∈ rules → matches_rule name r = None) as Hno; [|by destruct allow].
    intros r Hr; destruct (matches_rule name r) as [n|] eqn:Hn; [|done].
    pose proof (Hb _ _ Hr Hn); pose proof (matches_rule_nonneg _ _ _ Hn).
    specialize (Hempty He); lia.
  - destruct (min_of (h_hits h).*2) as [m|] eqn:Hm;
      [|destruct (h_hits h); by cbn in Hm].
    assert (∀ i, i ∈ (filter (λ x, x.2 = m) (h_hits h)).*1 ↔
      ∃ r, best_rule name rules r ∧ dr_ifindex r = i) as Hi.
    { intros i; rewrite Hh in Hm; setoid_rewrite (best_rule_hit _ _ _ _ _ Hb Hm).
      rewrite list_elem_of_fmap; setoid_rewrite list_elem_of_filter at 1; rewrite Hh.
      split.
      - intros ([j q] & -> & Hq & (r & [= -> ->] & Hr)%list_elem_of_fmap); by exists r.
      - intros (r & [Hr Hp] & Hi); exists (hit_of r); split_and!; [done..|]; by apply list_elem_of_fmap_2. }
    destruct (sorted_set_spec (filter (λ x, x.2 = m) (h_hits h)).*1) as [Hs Hin].
    cbn [default pick_spec]; split_and!; [|done|by intros i; rewrite Hin].
    apply min_of_Some in Hm as [Hm _]; apply list_elem_of_fmap in Hm as ([i q] & -> & Hq).
    intros Hnil; apply (not_elem_of_nil i); rewrite <- Hnil, Hin, list_elem_of_fmap.
    exists (i, q); split; [done|]; by apply list_elem_of_filter.
Qed.

(** ** Labels

    A name is the list of its labels, in lower case and without the empty labels
    its dots at the end stand for.  A rule is for the names that end with the
    labels of its suffix. *)

Fixpoint from_label (labels : list str) : list str :=
  match labels with [] :: labels => from_label labels | _ => labels end.

Definition name_labels (text : str) : list str :=
  reverse (from_label (reverse (split_on 46 (to_ascii_lowercase (trim text))))).

Definition rule_covers (name : str) (r : DomainRule) : Prop :=
  name_labels (dr_suffix r) ≠ [] ∧ name_labels (dr_suffix r) `suffix_of` name_labels name.

(** No rule for the name has more labels, and of those with as many none comes
    before it. *)
Definition decisive (name : str) (rules : list DomainRule) (r : DomainRule) : Prop :=
  r ∈ rules ∧ rule_covers name r ∧
  ∀ r', r' ∈ rules → rule_covers name r' →
    (length (name_labels (dr_suffix r')) < length (name_labels (dr_suffix r)))%nat ∨
    length (name_labels (dr_suffix r')) = length (name_labels (dr_suffix r)) ∧
      dr_priority r ≤ dr_priority r'.

Lemma split_on_replicate c k : split_on c (replicate k c) = replicate (S k) [].
Proof. induction k as [|k IH]; [done|]; cbn; by rewrite Z.eqb_refl, IH. Qed.

Lemma split_on_last c s : last (split_on c s) = Some [] → s = [] ∨ last s = Some c.
Proof.
  induction s as [|x s IH]; [by left|]; cbn [split_on]; intros H; right; revert H.
  destruct (Z.eqb_spec x c) as [->|Hx]; intros H.
  - pose proof (split_on_nonempty c s); rewrite last_cons in H; rewrite last_cons.
    destruct (last (split_on c s)) eqn:Hl; [|by apply last_None in Hl].
    destruct (IH H) as [-> | ->]; done.
  - destruct (split_on c s) as [|p rest] eqn:Hs; [by apply split_on_nonempty in Hs|].
    destruct rest as [|q rest]; [done|]; destruct IH as [-> |Hl]; [done|done|]; by rewrite last_cons, Hl.
Qed.

Lemma split_on_trailing c n k : split_on c (n ++ replicate k c) = split_on c n ++ replicate k [].
Proof.
  destruct k as [|k]; cbn [replicate]; [by rewrite !app_nil_r|].
  by rewrite split_on_app, split_on_replicate.
Qed.

Lemma from_label_replicate k l : from_label (replicate k [] ++ l) = from_label l.
Proof. by induction k. Qed.

(** The labels of a name are those of the name the code normalizes it to. *)
Lemma name_labels_normalized text :
  let n := split_normalize_name text in name_labels text = if bool_decide (n = []) then [] else split_on 46 n.
Proof.
  cbn zeta; unfold split_normalize_name, name_labels.
  destruct (trim_end_matches_spec 46 (trim text)) as (k & Heq & Hlast); set (n := trim_end_matches 46 (trim text)) in *.
  rewrite Heq at 1; rewrite to_ascii_lowercase_app.
  assert (to_ascii_lowercase (replicate k 46) = replicate k 46) as -> by (by unfold to_ascii_lowercase; rewrite fmap_replicate).
  rewrite split_on_trailing, reverse_app, reverse_replicate, from_label_replicate.
  assert (last (to_ascii_lowercase n) ≠ Some 46) as Hl.
  { unfold to_ascii_lowercase; rewrite fmap_last; destruct (last n) as [c|]; [|done]; intros [= Hc].
    apply Hlast; f_equal; unfold lower_char in Hc; revert Hc; case_match; boolp; lia. }
  case_bool_decide as Hn; [by rewrite Hn|].
  destruct (reverse (split_on 46 (to_ascii_lowercase n))) as [|p rest] eqn:Hr.
  { apply (f_equal reverse) in Hr; rewrite reverse_involutive in Hr; by apply split_on_nonempty in Hr. }
  destruct p as [|c p]; [|cbn [from_label]; by rewrite <- Hr, reverse_involutive].
  destruct (split_on_last 46 (to_ascii_lowercase n)); [|done..].
  by rewrite <- (reverse_involutive (split_on 46 _)), Hr, last_reverse.
Qed.

Lemma labels_inj a b : name_labels a = name_labels b ↔ split_normalize_name a = split_normalize_name b.
Proof.
  rewrite !name_labels_normalized; cbn zeta; split; [|by intros ->].
  repeat case_bool_decide; try congruence; intros Heq.
  - symmetry in Heq; by apply split_on_nonempty in Heq.
  - by apply split_on_nonempty in Heq.
  - by rewrite <- (join_split 46 (split_normalize_name a)), Heq, join_split.
Qed.

Lemma split_suffix c d n :
  split_on c d `suffix_of` split_on c n ↔ n = d ∨ ∃ t, n = t ++ c :: d.
Proof.
  split.
  - intros [k Hk]; apply (f_equal (join_with [c])) in Hk; rewrite join_split in Hk.
    destruct k as [|x k]; [left; by rewrite Hk, app_nil_l, join_split|right].
    rewrite join_with_app, join_split in Hk by (done || apply split_on_nonempty); eauto.
  - intros [->|[t ->]]; [done|]; rewrite split_on_app; by eexists.
Qed.

(** The code's matching is that of whole labels. *)
Lemma rule_covers_iff name r :
  rule_covers name r ↔ matches_rule name r = Some (str_len (split_normalize_name (dr_suffix r))).
Proof.
  unfold rule_covers, matches_rule; rewrite suffix_match_len_iff, !name_labels_normalized; cbn zeta.
  case_bool_decide as Hd; [naive_solver|]; pose proof (split_on_nonempty 46 (split_normalize_name (dr_suffix r))).
  case_bool_decide as Hn.
  - rewrite Hn; split.
    + intros [_ Hs]; apply suffix_nil_inv in Hs; done.
    + intros (_ & _ & [He|[t Ht]]); [congruence|]; by destruct t.
  - rewrite split_suffix; naive_solver.
Qed.

Lemma covers_longer name r r' :
  rule_covers name r → rule_covers name r' →
  str_len (split_normalize_name (dr_suffix r)) < str_len (split_normalize_name (dr_suffix r')) ↔
  (length (name_labels (dr_suffix r)) < length (name_labels (dr_suffix r')))%nat.
Proof.
  assert (∀ r r', rule_covers name r → rule_covers name r' →
    name_labels (dr_suffix r) `suffix_of` name_labels (dr_suffix r') →
    name_labels (dr_suffix r) = name_labels (dr_suffix r') ∨
    str_len (split_normalize_name (dr_suffix r)) < str_len (split_normalize_name (dr_suffix r')) ∧
    (length (name_labels (dr_suffix r)) < length (name_labels (dr_suffix r')))%nat) as Hlt.
  { clear r r'; intros r r' [Hr _] [Hr' _] Hs.
    destruct (decide (name_labels (dr_suffix r) = name_labels (dr_suffix r'))) as [|Hne]; [by left|right].
    split.
    - revert Hr Hr' Hs Hne; rewrite labels_inj, !name_labels_normalized; cbn zeta; repeat case_bool_decide; try done.
      rewrite split_suffix; intros _ _ [->|[t ->]] Hne; [done|]; rewrite str_len_app; cbn [str_len foldr].
      fold (str_len (split_normalize_name (dr_suffix r))).
      pose proof (str_len_nonneg t); pose proof (char_len_pos 46); lia.
    - destruct Hs as [[|x k] Hk]; [done|]; rewrite Hk, length_app; cbn; lia. }
  intros Hr Hr'; pose proof Hr as [_ [k Hk]]; pose proof Hr' as [_ [k' Hk']].
  assert (name_labels (dr_suffix r) `suffix_of` name_labels (dr_suffix r') ∨
    name_labels (dr_suffix r') `suffix_of` name_labels (dr_suffix r)) as [Hs|Hs].
  { rewrite Hk in Hk'; apply app_eq_inv in Hk' as [(t & _ & ->)|(t & _ & ->)]; [left|right]; by eexists. }
  - destruct (Hlt r r' Hr Hr' Hs) as [Heq|[? ?]]; [|tauto].
    rewrite Heq; apply labels_inj in Heq; rewrite Heq; lia.
  - destruct (Hlt r' r Hr' Hr Hs) as [Heq|[? ?]]; [|lia].
    rewrite Heq; apply labels_inj in Heq; rewrite Heq; lia.
Qed.

Lemma decisive_best name rules r : decisive name rules r ↔ best_rule name rules r.
Proof.
  assert (∀ r n, matches_rule name r = Some n ↔ rule_covers name r ∧ n = str_len (split_normalize_name (dr_suffix r)))
    as Hm.
  { intros r' n; rewrite rule_covers_iff; split; [|by intros [? ->]].
    intros H; pose proof H as (_ & -> & _)%suffix_match_len_iff; done. }
  unfold decisive, best_rule; setoid_rewrite Hm; split.
  - intros (Hin & Hr & Hall); split; [done|]; eexists; split; [done|]; intros r' n' Hin' [Hr' ->].
    pose proof (covers_longer name r' r Hr' Hr); pose proof (covers_longer name r r' Hr Hr').
    destruct (Hall r' Hin' Hr') as [?|[? ?]]; [left; tauto|right; split; [lia|done]].
  - intros (Hin & n & [Hr ->] & Hall); split_and!; [done..|]; intros r' Hin' Hr'.
    pose proof (covers_longer name r' r Hr' Hr); pose proof (covers_longer name r r' Hr Hr').
    destruct (Hall r' _ Hin' (conj Hr' eq_refl)) as [?|[? ?]]; [left; tauto|right; split; [lia|done]].
Qed.

(** ** Changing the rules *)

Definition rule_key (r : DomainRule) : Z * list str := (dr_ifindex r, name_labels (dr_suffix r)).

Lemma same_rule_iff r r' : same_rule r r' = true ↔ rule_key r = rule_key r'.
Proof.
  unfold same_rule, rule_key; rewrite andb_true_iff, Z.eqb_eq, bool_decide_eq_true, <- labels_inj.
  split; [intros [? ?]; congruence|intros [= ? ?]; done].
Qed.

(** Where the links and suffixes are distinct, they stay so, and the rule given
    is the one for its link and suffix. *)
Lemma upsert_spec rule rules :
  NoDup (rule_key <$> rules) →
  NoDup (rule_key <$> upsert rule rules) ∧
  ∀ r, r ∈ upsert rule rules ↔ r = rule ∨ r ∈ rules ∧ rule_key r ≠ rule_key rule.
Proof.
  induction rules as [|r rules IH]; cbn [upsert fmap list_fmap]; [by split; [apply NoDup_singleton|set_solver]|].
  intros [Hr Hnd]%NoDup_cons; destruct (same_rule r rule) eqn:Hs.
  - apply same_rule_iff in Hs; cbn; rewrite Hs in Hr; split; [by apply NoDup_cons|].
    assert (∀ r', r' ∈ rules → rule_key r' ≠ rule_key rule) as Hne.
    { intros r' Hr' Heq; apply Hr; rewrite <- Heq; by apply list_elem_of_fmap_2. }
    intros r'; rewrite !elem_of_cons; split.
    + intros [->|Hr']; [by left|right; split; [by right|by apply Hne]].
    + by intros [->|[[->|Hr'] Hk]]; [left| |right].
  - destruct (IH Hnd) as [IH1 IH2]; cbn; split.
    + apply NoDup_cons; split; [|done]; intros (r' & Hk & Hr')%list_elem_of_fmap.
      apply IH2 in Hr' as [->|[Hin _]].
      * apply same_rule_iff in Hk; congruence.
      * apply Hr; rewrite Hk; by apply list_elem_of_fmap_2.
    + assert (rule_key r ≠ rule_key rule) by (rewrite <- same_rule_iff; congruence).
      intros r'; rewrite !elem_of_cons, IH2; split.
      * intros [->|[->|[? ?]]]; [right; split; [by left|done]|by left|right; split; [by right|done]].
      * intros [->|[[->|?] ?]]; [by right; left|by left|by right; right].
Qed.

(** No name is sent to a link whose rules are cleared. *)
Lemma clear_link_spec t ifindex name l :
  pick (clear_link t ifindex) name = PickLinks l → ifindex ∉ l.
Proof.
  intros Hp Hin; pose proof (pick_meets_spec name (sd_rules (clear_link t ifindex))
    (sd_default_route_ifindices (clear_link t ifindex)) (sd_allow_default t)) as Hs.
  unfold pick in Hp; change (sd_allow_default (clear_link _ _)) with (sd_allow_default t) in Hp.
  rewrite Hp in Hs; destruct Hs as (_ & _ & Hl); apply Hl in Hin as (r & [Hr _] & Hi).
  cbn in Hr; apply list_elem_of_filter in Hr as [Hne _]; done.
Qed.

(** ** Searching *)

Lemma foldl_push_new_fresh {A} `{EqDecision A} (x : A) l output :
  x ∉ l → foldl push_new (x :: output) l = x :: foldl push_new output l.
Proof.
  revert output; induction l as [|y l IH]; intros output Hx; cbn [foldl]; [done|].
  apply not_elem_of_cons in Hx as [Hxy Hx]; rewrite <- IH by done; f_equal.
  unfold push_new; do 2 case_bool_decide; set_solver.
Qed.

(** The name itself comes first when it has the dots [ndots] asks for and last
    otherwise; the names below the search domains keep their order. *)
Lemma expand_search_spec name search ndots :
  let n := split_normalize_name (trim name) in
  let searched := foldl push_new [] ((λ s, n ++ lit "." ++ s) <$>
    filter (λ s, s ≠ [] ∧ s ≠ lit ".") (split_normalize_name <$> search)) in
  expand_search name search ndots =
    if bool_decide (trim name = []) then []
    else if ends_with (trim name) (lit ".") then [n]
    else if ndots <=? len (filter (λ c, c = 46) n) then n :: searched else searched ++ [n].
Proof.
  cbn zeta; unfold expand_search; case_bool_decide; [done|]; case_match; [done|].
  set (n := split_normalize_name _); set (l := _ <$> filter _ _).
  assert (n ∉ l) as Hn.
  { intros (s & Hs & _)%list_elem_of_fmap; apply (f_equal length) in Hs.
    rewrite !length_app in Hs; cbn in Hs; lia. }
  assert (∀ x, x ∈ foldl push_new [] l ↔ x ∈ l) as Hl.
  { intros x; rewrite elem_of_foldl_push_new; set_solver. }
  destruct (Z.leb_spec ndots (len (filter (λ c, c = 46) n))).
  - rewrite (proj2 (Z.ltb_ge _ _)), app_nil_r by lia; cbn [foldl app].
    by rewrite <- foldl_push_new_fresh by done.
  - rewrite (proj2 (Z.ltb_lt _ _)) by lia; cbn [app]; rewrite foldl_snoc.
    unfold push_new at 1; by rewrite bool_decide_eq_false_2 by (by rewrite Hl).
Qed.

(** ** The table as a map

    What a table promises: it is a map from links and suffixes to rules, from
    which names are routed. *)

Inductive split_op : Type := OpUpsert (rule : DomainRule) | OpClear (ifindex : Z).

Definition apply_split (t : SplitDnsTable) (op : split_op) : SplitDnsTable :=
  match op with
  | OpUpsert rule => upsert_rule t rule
  | OpClear ifindex => clear_link t ifindex
  end.

Notation RuleMap := (gmap (Z * list str) DomainRule).

Definition spec_split (m : RuleMap) (op : split_op) : RuleMap :=
  match op with
  | OpUpsert rule => <[rule_key rule := rule]> m
  | OpClear ifindex => filter (λ kr, kr.1.1 ≠ ifindex) m
  end.

Definition rules_refine (rules : list DomainRule) (m : RuleMap) : Prop :=
  NoDup (rule_key <$> rules) ∧ ∀ k r, m !! k = Some r ↔ r ∈ rules ∧ rule_key r = k.

Lemma apply_split_refines t m op :
  rules_refine (sd_rules t) m → rules_refine (sd_rules (apply_split t op)) (spec_split m op).
Proof.
  intros [Hnd Hm]; destruct op as [rule|i];
    cbn [apply_split spec_split upsert_rule clear_link sd_rules].
  - destruct (upsert_spec rule (sd_rules t) Hnd) as [Hnd' Hin]; split; [done|].
    intros k r; rewrite lookup_insert_Some, Hin, Hm; split.
    + intros [[<- <-]|(? & ? & <-)]; [by split; [left|]|]; split; [right|]; done.
    + intros [[->|[? ?]] <-]; [by left|]; by right.
  - split.
    + eapply sublist_NoDup; [exact Hnd|]; apply fmap_sublist, sublist_filter.
    + intros k r; rewrite map_lookup_filter_Some, Hm, list_elem_of_filter; cbn; split.
      * intros [[? <-] ?]; by repeat split.
      * intros [[? ?] <-]; by repeat split.
Qed.

Lemma split_refines t ops :
  sd_rules t = [] → rules_refine (sd_rules (foldl apply_split t ops)) (foldl spec_split ∅ ops).
Proof.
  intros Ht; induction ops as [|op ops IH] using rev_ind; [|by rewrite !foldl_snoc; apply apply_split_refines].
  cbn [foldl]; rewrite Ht; split; [apply NoDup_nil_2|]; intros k r; cbn; rewrite lookup_empty, elem_of_nil.
  naive_solver.
Qed.

Lemma apply_split_allow t ops : sd_allow_default (foldl apply_split t ops) = sd_allow_default t.
Proof. revert t; induction ops as [|op ops IH]; intros t; [done|]; cbn; rewrite IH; by destruct op. Qed.

(** Routing depends only on which rules there are. *)
Lemma pick_spec_ext name rules rules' allow p :
  (∀ r, r ∈ rules ↔ r ∈ rules') → pick_spec name rules allow p → pick_spec name rules' allow p.
Proof.
  intros Heq; assert (∀ r, best_rule name rules r ↔ best_rule name rules' r) as Hb.
  { intros r; unfold best_rule; by setoid_rewrite Heq. }
  destruct p as [l| |]; cbn; [setoid_rewrite Hb|setoid_rewrite Heq..]; done.
Qed.

Lemma rules_refine_elem rules m r : rules_refine rules m → r ∈ rules ↔ r ∈ (map_to_list m).*2.
Proof.
  intros [_ Hm]; rewrite list_elem_of_fmap; split.
  - intros Hr; exists (rule_key r, r); split; [done|]; by apply elem_of_map_to_list, Hm.
  - intros ([k r'] & -> & Hr%elem_of_map_to_list); by apply Hm in Hr as [? _].
Qed.

(** Where a name goes by the rules: to the links of the rules that decide, or where
    names without a rule go. *)
Definition routes_by (name : str) (rules : list DomainRule) (allow : bool) (p : Pick) : Prop :=
  match p with
  | PickLinks l =>
      l ≠ [] ∧ StronglySorted Z.lt l ∧ ∀ i, i ∈ l ↔ ∃ r, decisive name rules r ∧ dr_ifindex r = i
  | PickDefaultRoute => allow = true ∧ ∀ r, r ∈ rules → ¬ rule_covers name r
  | PickBlackhole => allow = false ∧ ∀ r, r ∈ rules → ¬ rule_covers name r
  end.

Lemma pick_spec_routes name rules allow p : pick_spec name rules allow p → routes_by name rules allow p.
Proof.
  destruct p as [l| |]; cbn; [by setoid_rewrite decisive_best|..].
  all: intros [Ha Hno]; split; [done|]; intros r Hr Hc%rule_covers_iff; specialize (Hno r Hr); congruence.
Qed.

(** ** Properties *)

(** C36: after any sequence of changes a split DNS table that had no rules holds one rule for each link
    and suffix, those of the map the changes describe.  A name goes to the links
    of the rules that decide, in increasing order without duplicates: the labels
    of such a rule's suffix are the last labels of the name, in any case of
    letters and with any number of dots at the end, no rule for the name has more
    labels, and none with as many has a lesser priority.  It goes to the default
    route, or nowhere when that is not allowed, only when no rule is for it. *)
Theorem split_dns_refines links allow ndots search ops name :
  let t := foldl apply_split (mk_split [] links allow ndots search) ops in
  let m := foldl spec_split ∅ ops in
  NoDup (rule_key <$> sd_rules t) ∧
  (∀ k r, m !! k = Some r ↔ r ∈ sd_rules t ∧ rule_key r = k) ∧
  routes_by name (map_to_list m).*2 allow (pick t name).
Proof.
  cbn zeta; pose proof (split_refines (mk_split [] links allow ndots search) ops eq_refl) as Hr.
  pose proof (apply_split_allow (mk_split [] links allow ndots search) ops) as Ha; cbn [sd_allow_default] in Ha.
  split_and!; [apply Hr..|]; rewrite <- Ha at 1; apply pick_spec_routes.
  eapply pick_spec_ext; [intros r; by apply rules_refine_elem|]; apply pick_meets_spec.
Qed.
