(* ===== verification/Edns.v ===== *)
(** * EDNS

    Models [src/edns.rs]: the feature level of a server and what is remembered
    of it, and the OPT record of a packet: finding it, adding, replacing and
    removing it, and its options. *)

From S2P Require Import Prelude Text Codec Packet WireDnssec.

Definition DEFAULT_UDP_PAYLOAD_SIZE : Z := 1232.
Definition OPTION_DAU : Z := 5.
Definition OPTION_DHU : Z := 6.
Definition OPTION_N3U : Z := 7.
Definition DNSSEC_OK : Z := 0x8000.
Definition FEATURE_RETRY_ATTEMPTS : Z := 3.
Definition FEATURE_GRACE_PERIOD_MIN : Z := 5 * 60 * second.
Definition FEATURE_GRACE_PERIOD_MAX : Z := 6 * 60 * 60 * second.

Definition DNSSEC_ALGORITHMS : bytes := [5; 7; 8; 10; 13; 14].
Definition DNSSEC_DIGESTS : bytes := [1; 2; 4].
Definition NSEC3_ALGORITHMS : bytes := [1].

(** ** Feature levels *)

Inductive FeatureLevel : Type := LevelUdp | LevelEdns0 | LevelDnssecOk.
#[global] Instance FeatureLevel_eq_dec : EqDecision FeatureLevel.
Proof. solve_decision. Defined.

(** The derived order is the order of the variants. *)
Definition level_rank (l : FeatureLevel) : Z :=
  match l with LevelUdp => 0 | LevelEdns0 => 1 | LevelDnssecOk => 2 end.
Definition level_lt (a b : FeatureLevel) : bool := level_rank a <? level_rank b.
Definition level_le (a b : FeatureLevel) : bool := level_rank a <=? level_rank b.
Definition level_min (a b : FeatureLevel) : FeatureLevel := if level_le a b then a else b.

Definition uses_edns (l : FeatureLevel) : bool :=
  match l with LevelUdp => false | _ => true end.

Definition level_dnssec_ok (l : FeatureLevel) : bool :=
  match l with LevelDnssecOk => true | _ => false end.

Definition lower (l : FeatureLevel) : FeatureLevel :=
  match l with LevelDnssecOk => LevelEdns0 | LevelEdns0 | LevelUdp => LevelUdp end.

Record ServerFeatureState : Type := mk_features {
  f_possible : FeatureLevel;
  f_verified : FeatureLevel;
  f_verified_once : bool;
  f_failed_attempts : Z;
  f_retry_after : option Z;
  f_grace_period : Z;
  f_bad_opt : bool;
}.

Definition features_default : ServerFeatureState :=
  mk_features LevelDnssecOk LevelUdp false 0 None FEATURE_GRACE_PERIOD_MIN false.

(** [Duration::MAX], in nanoseconds. *)
Definition duration_max : Z := (2 ^ 64 - 1) * second + 999999999.

Definition possible_level (s : ServerFeatureState) (best : FeatureLevel) (now : Z) :
    FeatureLevel * ServerFeatureState :=
  let s := if f_bad_opt s && uses_edns (f_possible s)
           then { s with f_possible := LevelUdp } else s in
  let s := if level_lt best (f_possible s) then { s with f_possible := best } else s in
  let retry_due := match f_retry_after s with Some t => t <=? now | None => false end in
  let s :=
    if level_lt (f_possible s) best && retry_due
    then { s with f_possible := best; f_failed_attempts := 0; f_retry_after := None;
                  f_bad_opt := false;
                  f_grace_period := Z.min (Z.min (f_grace_period s * 2) duration_max)
                                      FEATURE_GRACE_PERIOD_MAX }
    else s in
  (f_possible s, s).

Definition features_record_success (s : ServerFeatureState) (level : FeatureLevel) :
    ServerFeatureState :=
  let s := { s with f_verified_once := true } in
  let s := if level_lt (f_verified s) level then { s with f_verified := level } else s in
  if bool_decide (level = f_possible s) then { s with f_failed_attempts := 0 } else s.

Definition downgrade_to (s : ServerFeatureState) (level : FeatureLevel) (now : Z) :
    ServerFeatureState :=
  if level_le (f_possible s) level then s
  else { s with f_possible := level; f_verified := level_min (f_verified s) level;
                f_failed_attempts := 0; f_retry_after := instant_checked_add now (f_grace_period s) }.

Definition features_record_failure (s : ServerFeatureState) (level : FeatureLevel) (now : Z) :
    option FeatureLevel * ServerFeatureState :=
  if negb (bool_decide (level = f_possible s)) then (None, s)
  else
    let s := { s with f_failed_attempts := saturating_add 255 (f_failed_attempts s) 1 } in
    if f_failed_attempts s <? FEATURE_RETRY_ATTEMPTS then (None, s)
    else
      let low := lower level in
      if bool_decide (low = level) then (None, s)
      else (Some low, downgrade_to s low now).

Definition features_record_bad_opt (s : ServerFeatureState) (level : FeatureLevel) (now : Z) :
    FeatureLevel * ServerFeatureState :=
  let s := if uses_edns level then downgrade_to { s with f_bad_opt := true } LevelUdp now
           else s in
  (f_possible s, s).

Definition features_record_do_off (s : ServerFeatureState) (level : FeatureLevel) (now : Z) :
    FeatureLevel * ServerFeatureState :=
  let s := if bool_decide (level = LevelDnssecOk) then downgrade_to s LevelEdns0 now else s in
  (f_possible s, s).

Definition features_reset (s : ServerFeatureState) : ServerFeatureState := features_default.

(** ** The OPT record *)

Record PreparedQuery : Type := mk_prepared {
  pq_packet : bytes;
  pq_sent_edns : bool;
  pq_managed_opt : bool;
}.

Record EdnsOption : Type := mk_option {
  o_code : Z;
  o_data : bytes;
}.

Record OptRecord : Type := mk_opt {
  opt_udp_payload_size : Z;
  opt_extended_rcode : Z;
  opt_version : Z;
  opt_flags : Z;
  opt_options : list EdnsOption;
}.

Definition opt_dnssec_ok (o : OptRecord) : bool := negb (Z.land (opt_flags o) DNSSEC_OK =? 0).

Definition advertises_rfc6975 (o : OptRecord) : bool :=
  forallb (λ code, existsb (λ x, o_code x =? code) (opt_options o))
    [OPTION_DAU; OPTION_DHU; OPTION_N3U].

Record OptSpan : Type := mk_span {
  sp_start : Z;
  sp_end : Z;
  sp_udp_payload_size : Z;
  sp_flags : Z;
  sp_options : list EdnsOption;
}.

Record PacketLayout : Type := mk_layout {
  lay_opt : option OptSpan;
  lay_has_tsig : bool;
}.

(** [while offset < rdata.len()]; an option takes at least 4 octets. *)
Fixpoint options_loop (fuel : nat) (rdata : bytes) (offset : Z) : wres (list EdnsOption) :=
  match fuel with
  | O => Diverge
  | S fuel =>
      if offset <? len rdata then
        header_end ← ok_or (checked_add usize_max offset 4) InvalidRecord;
        header ← ok_or (slice rdata offset header_end) InvalidRecord;
        code ← index_u16 header 0;
        length ← index_u16 header 2;
        stop ← ok_or (checked_add usize_max header_end length) InvalidRecord;
        option_data ← ok_or (slice rdata header_end stop) InvalidRecord;
        rest ← options_loop fuel rdata stop;
        Ok (mk_option code option_data :: rest)
      else Ok []
  end.

Definition parse_options (rdata : bytes) : wres (list EdnsOption) :=
  options_loop (S (length rdata)) rdata 0.

(** [for index in 0..header.total_records()]. *)
Fixpoint scan_records (n : nat) (packet : bytes) (additional_start index offset : Z)
    (layout : PacketLayout) : wres (PacketLayout * Z) :=
  match n with
  | O => Ok (layout, offset)
  | S n =>
      record ← parse_record packet offset;
      layout ←
        (if r_rr_type record =? TYPE_OPT then
           if (index <? additional_start)
              || negb (bool_decide (canonical_wire (r_name record) = [0]))
              || bool_decide (is_Some (lay_opt layout))
           then Err InvalidRecord
           else
             options ← parse_options (r_rdata record);
             Ok { layout with lay_opt :=
                    Some (mk_span offset (r_next_offset record) (r_class record)
                            (r_ttl record mod 65536) options) }
         else if r_rr_type record =? TYPE_TSIG
         then Ok { layout with lay_has_tsig := true }
         else Ok layout);
      scan_records n packet additional_start (index + 1) (r_next_offset record) layout
  end.

Definition scan_packet (packet : bytes) : wres PacketLayout :=
  header ← header_parse packet;
  '(_, offset) ← parse_questions (Z.to_nat (h_question_count header)) packet DNS_HEADER_LEN;
  let additional_start := h_answer_count header + h_authority_count header in
  '(layout, offset) ← scan_records (Z.to_nat (total_records header)) packet additional_start 0
                         offset (mk_layout None false);
  if negb (offset =? len packet) then Err TrailingData else Ok layout.

Fixpoint encode_options (options : list EdnsOption) : wres bytes :=
  match options with
  | [] => Ok []
  | o :: options =>
      length ← u16_try_from (len (o_data o)) ResponseTooLarge;
      rest ← encode_options options;
      Ok (u16_bytes (o_code o) ++ u16_bytes length ++ o_data o ++ rest)
  end.

Definition encode_opt (udp_payload_size extended_rcode version flags : Z)
    (options : list EdnsOption) : wres bytes :=
  rdata ← encode_options options;
  length ← u16_try_from (len rdata) ResponseTooLarge;
  Ok ([0] ++ u16_bytes TYPE_OPT ++ u16_bytes udp_payload_size ++ [extended_rcode] ++ [version]
      ++ u16_bytes flags ++ u16_bytes length ++ rdata).

Definition rfc6975_options : list EdnsOption :=
  [mk_option OPTION_DAU DNSSEC_ALGORITHMS;
   mk_option OPTION_DHU DNSSEC_DIGESTS;
   mk_option OPTION_N3U NSEC3_ALGORITHMS].

(** ** Editing packets *)

Definition replace_span (packet : bytes) (start stop : Z) (replacement : bytes) : wres bytes :=
  if (stop <? start) || (len packet <? stop) then Err InvalidRecord
  else
    new_length ← ok_or (l ← checked_sub (len packet) (stop - start);
                        checked_add usize_max l (len replacement)) ResponseTooLarge;
    if 65535 <? new_length then Err ResponseTooLarge
    else
      before ← or_panic (slice packet 0 start);
      after ← or_panic (slice packet stop (len packet));
      Ok (before ++ replacement ++ after).

Definition append_opt (packet opt : bytes) : wres bytes :=
  header ← header_parse packet;
  additional_count ← ok_or (checked_add 65535 (h_additional_count header) 1) ResponseTooLarge;
  new_length ← ok_or (checked_add usize_max (len packet) (len opt)) ResponseTooLarge;
  if 65535 <? new_length then Err ResponseTooLarge
  else or_panic (splice (packet ++ opt) 10 (u16_bytes additional_count)).

Definition remove_opt (packet : bytes) (opt : OptSpan) : wres bytes :=
  header ← header_parse packet;
  additional_count ← ok_or (checked_sub (h_additional_count header) 1) InvalidRecord;
  output ← replace_span packet (sp_start opt) (sp_end opt) [];
  or_panic (splice output 10 (u16_bytes additional_count)).

Definition prepare_query (query : bytes) (level : FeatureLevel) (udp_payload_size : Z) :
    wres PreparedQuery :=
  _ ← validate query false;
  layout ← scan_packet query;
  if lay_has_tsig layout
  then Ok (mk_prepared query (bool_decide (is_Some (lay_opt layout))) false)
  else if negb (uses_edns level) then
    packet ← match lay_opt layout with
             | Some opt => remove_opt query opt
             | None => Ok query
             end;
    Ok (mk_prepared packet false true)
  else
    let options := if level_dnssec_ok level then rfc6975_options else [] in
    let flags := if level_dnssec_ok level then DNSSEC_OK else 0 in
    replacement ← encode_opt (Z.max udp_payload_size 512) 0 0 flags options;
    packet ← match lay_opt layout with
             | Some opt => replace_span query (sp_start opt) (sp_end opt) replacement
             | None => append_opt query replacement
             end;
    Ok (mk_prepared packet true true).

(** Octet [i] of [ttl.to_be_bytes()]. *)
Definition ttl_octet (ttl : bytes) (i : nat) : Z := default 0 (ttl !! i).

Definition inspect_opt (packet : bytes) : wres (option OptRecord) :=
  layout ← scan_packet packet;
  match lay_opt layout with
  | None => Ok None
  | Some opt =>
      record ← parse_record packet (sp_start opt);
      let ttl := u32_bytes (r_ttl record) in
      Ok (Some (mk_opt (sp_udp_payload_size opt) (ttl_octet ttl 0) (ttl_octet ttl 1)
                  (sp_flags opt) (sp_options opt)))
  end.

Definition full_rcode (packet : bytes) (opt : option OptRecord) : wres Z :=
  header ← header_parse packet;
  let header_rcode := response_code header in
  Ok match opt with
     | Some opt => Z.lor (Z.shiftl (opt_extended_rcode opt) 4) header_rcode
     | None => header_rcode
     end.

Definition response_for_client (query response : bytes) : wres bytes :=
  _ ← validate query false;
  _ ← validate response true;
  query_layout ← scan_packet query;
  if lay_has_tsig query_layout || bool_decide (is_Some (lay_opt query_layout))
  then Ok response
  else
    response_layout ← scan_packet response;
    match lay_opt response_layout with
    | None => Ok response
    | Some opt_span =>
        opt ← inspect_opt response;
        opt ← ok_or opt InvalidRecord;
        extended_rcode ← full_rcode response (Some opt);
        output ← remove_opt response opt_span;
        if 15 <? extended_rcode then
          flags ← index_u16 output 2;
          or_panic (splice output 2 (u16_bytes (Z.lor (Z.ldiff flags 0x000f) 2)))
        else Ok output
    end.
