(* ===== verification/EdnsFacts.v ===== *)
(** * EDNS: theorems

    The options and the OPT record read back as they were written, what
    [prepare_query] sends, what a client gets back, and the life of a server's
    feature level. *)

From S2P Require Import Prelude Text Net Codec Names CodecFacts Packet PacketFacts.
From S2P Require Import WireDnssec WireDnssecFacts Edns.

(** ** Options *)

Definition option_ok (o : EdnsOption) : Prop := is_u16 (o_code o) ∧ bytes_ok (o_data o).

Lemma index_u16_at pre v post : index_u16 (pre ++ u16_bytes v ++ post) (len pre) = Ok v.
Proof.
  pose proof (len_nonneg pre); unfold index_u16, index.
  rewrite (bget_app_r pre _ (len pre)), (bget_app_r pre _ (len pre + 1)), Z.sub_diag by lia.
  replace (len pre + 1 - len pre) with 1 by lia.
  change (bget (u16_bytes v ++ post) 0) with (Some (v / 256)).
  change (bget (u16_bytes v ++ post) 1) with (Some (v mod 256)).
  cbn [or_panic mbind outcome_bind]; by rewrite be16_u16_bytes.
Qed.

Lemma index_u16_first v post : index_u16 (u16_bytes v ++ post) 0 = Ok v.
Proof. exact (index_u16_at [] v post). Qed.

Lemma index_u16_second u v : index_u16 (u16_bytes u ++ u16_bytes v) 2 = Ok v.
Proof. exact (index_u16_at (u16_bytes u) v []). Qed.

Lemma encode_options_ok os b :
  Forall option_ok os → encode_options os = Ok b → bytes_ok b.
Proof.
  intros Hos; revert b; induction Hos as [|o os [Hc Hd] Hos IH]; intros b; cbn [encode_options].
  { intros [= <-]; constructor. }
  intros (l & Hl & H)%bind_Ok; apply bind_Ok in H as (rest & Hr & <-%Ok_inj).
  unfold u16_try_from in Hl; case_match; [|done]; injection Hl as <-; boolp.
  pose proof (len_nonneg (o_data o)); rewrite !bytes_ok_app; split_and!; auto;
    apply u16_bytes_ok; unfold is_u16, u16_max in *; [done|lia].
Qed.

Lemma options_loop_encoded os b pre fuel :
  Forall option_ok os → encode_options os = Ok b → len (pre ++ b) < 2 ^ 63 →
  (length b < fuel)%nat → options_loop fuel (pre ++ b) (len pre) = Ok os.
Proof.
  intros Hos; revert b pre fuel.
  induction Hos as [|o os [Hc Hd] Hos IH]; intros b pre [|fuel] H Hlen Hfuel; try lia;
    cbn [options_loop encode_options] in *.
  { injection H as <-; by rewrite app_nil_r, Z.ltb_irrefl. }
  apply bind_Ok in H as (l & Hl & H); apply bind_Ok in H as (rest & Hr & <-%Ok_inj).
  unfold u16_try_from in Hl; case_match; [|done]; injection Hl as <-; boolp.
  set (b := u16_bytes (o_code o) ++ u16_bytes (len (o_data o)) ++ o_data o ++ rest) in *.
  pose proof (len_nonneg (o_data o)); pose proof (len_nonneg rest); pose proof (len_nonneg pre).
  assert (len b = 4 + len (o_data o) + len rest) as Hb by (unfold b; len_lia).
  rewrite (proj2 (Z.ltb_lt _ _)) by len_lia.
  rewrite (proj2 (checked_add_Some _ _ _ (len pre + 4))) by (split; [done|];
    unfold usize_max; len_lia); cbn [ok_or mbind outcome_bind].
  assert (slice (pre ++ b) (len pre) (len pre + 4) =
    Some (u16_bytes (o_code o) ++ u16_bytes (len (o_data o)))) as ->.
  { exact (slice_app_exact pre (u16_bytes (o_code o) ++ u16_bytes (len (o_data o)))
      (o_data o ++ rest)). }
  cbn [ok_or mbind outcome_bind].
  rewrite index_u16_first, index_u16_second; cbn [mbind outcome_bind].
  rewrite (proj2 (checked_add_Some _ _ _ (len pre + 4 + len (o_data o)))) by (split; [done|];
    unfold usize_max; len_lia); cbn [ok_or mbind outcome_bind].
  pose proof (slice_app_exact (pre ++ u16_bytes (o_code o) ++ u16_bytes (len (o_data o)))
    (o_data o) rest) as Hs; rewrite <- !app_assoc in Hs.
  replace (len (pre ++ u16_bytes (o_code o) ++ u16_bytes (len (o_data o)))) with (len pre + 4)
    in Hs by len_lia; fold b in Hs; rewrite Hs; cbn [ok_or mbind outcome_bind].
  specialize (IH rest (pre ++ u16_bytes (o_code o) ++ u16_bytes (len (o_data o)) ++ o_data o)
    fuel Hr); rewrite <- !app_assoc in IH; fold b in IH.
  replace (len pre + 4 + len (o_data o)) with
    (len (pre ++ u16_bytes (o_code o) ++ u16_bytes (len (o_data o)) ++ o_data o)) by len_lia.
  rewrite IH; [by destruct o|done|].
  unfold len in *; lia.
Qed.

Lemma parse_options_encoded os b :
  Forall option_ok os → encode_options os = Ok b → len b < 2 ^ 63 → parse_options b = Ok os.
Proof.
  intros Hos Hb Hlen; exact (options_loop_encoded os b [] (S (length b)) Hos Hb Hlen ltac:(lia)).
Qed.

(** ** A packet with an OPT record behind its question *)

Definition opt_ttl (extended_rcode version flags : Z) : Z :=
  extended_rcode * 16777216 + version * 65536 + flags.

Lemma opt_ttl_bytes e v f :
  is_u8 e → is_u8 v → is_u16 f → u32_bytes (opt_ttl e v f) = [e] ++ [v] ++ u16_bytes f.
Proof.
  unfold is_u8, is_u16; intros He Hv Hf; set (w := opt_ttl e v f); unfold opt_ttl in w.
  assert (w / 16777216 = e) as H1 by (subst w; Z.div_mod_to_equations; lia).
  assert (w / 65536 = e * 256 + v) as H2 by (subst w; Z.div_mod_to_equations; lia).
  assert (w / 256 = (e * 256 + v) * 256 + f / 256) as H3
    by (subst w; Z.div_mod_to_equations; lia).
  unfold u32_bytes, u16_bytes; rewrite H1, H2, H3; cbn [app].
  assert (w mod 256 = f mod 256) as -> by (subst w; Z.div_mod_to_equations; lia).
  assert ((e * 256 + v) mod 256 = v) as -> by (Z.div_mod_to_equations; lia).
  assert (((e * 256 + v) * 256 + f / 256) mod 256 = f / 256) as ->
    by (Z.div_mod_to_equations; lia).
  done.
Qed.

Definition opt_fields_ok (o : OptRecord) : Prop :=
  is_u16 (opt_udp_payload_size o) ∧ is_u8 (opt_extended_rcode o) ∧ is_u8 (opt_version o) ∧
  is_u16 (opt_flags o) ∧ Forall option_ok (opt_options o).

Definition encode_opt_record (o : OptRecord) : wres bytes :=
  encode_opt (opt_udp_payload_size o) (opt_extended_rcode o) (opt_version o) (opt_flags o)
    (opt_options o).

Lemma encode_opt_shape o b :
  opt_fields_ok o → encode_opt_record o = Ok b →
  ∃ rdata, encode_options (opt_options o) = Ok rdata ∧ len rdata ≤ 65535 ∧ bytes_ok b ∧
    b = [0] ++ u16_bytes TYPE_OPT ++ u16_bytes (opt_udp_payload_size o) ++
        u32_bytes (opt_ttl (opt_extended_rcode o) (opt_version o) (opt_flags o)) ++
        u16_bytes (len rdata) ++ rdata.
Proof.
  intros (Hs & He & Hv & Hf & Hos) H; unfold encode_opt_record, encode_opt in H.
  apply bind_Ok in H as (rdata & Hr & H); apply bind_Ok in H as (l & Hl & <-%Ok_inj).
  unfold u16_try_from in Hl; case_match; [|done]; apply Ok_inj in Hl as <-; boolp.
  exists rdata; rewrite opt_ttl_bytes by done; split_and!; try done.
  pose proof (len_nonneg rdata); rewrite !bytes_ok_app; split_and!;
    try (apply u16_bytes_ok; done); try (by apply Forall_singleton).
  - apply u16_bytes_ok; unfold is_u16, u16_max in *; lia.
  - by eapply encode_options_ok.
Qed.

Lemma read_root p o : packet_ok p → bget p o = Some 0 → read_name p o = Ok (labels_name [], o + 1).
Proof.
  intros Hp Ho; apply read_name_iff; [done|]; exists [], 0; split_and!; [by constructor|lia|..];
    done.
Qed.

Section opt_packet.
Context (p pre b : bytes) (h : Header) (labels : list bytes) (t c : Z) (o : OptRecord).
Context (Hp : packet_ok p) (Hh : header_parse p = Ok h) (Hq : h_question_count h = 1).
Context (Han : h_answer_count h = 0) (Hau : h_authority_count h = 0).
Context (Had : h_additional_count h = 1) (Hpl : plain_question p labels t c (len pre)).
Context (Heq : p = pre ++ b) (Ho : opt_fields_ok o) (Hb : encode_opt_record o = Ok b).

Let opt_record_at (rdata : bytes) : ResourceRecord :=
  mk_record (labels_name []) TYPE_OPT (opt_udp_payload_size o)
    (opt_ttl (opt_extended_rcode o) (opt_version o) (opt_flags o))
    (len pre + 5) (len pre + 11) rdata (len p).

Lemma parse_opt_record :
  ∃ rdata, encode_options (opt_options o) = Ok rdata ∧
    parse_record p (len pre) = Ok (opt_record_at rdata) ∧
    parse_options rdata = Ok (opt_options o).
Proof using Hp Heq Ho Hb.
  destruct (encode_opt_shape o b Ho Hb) as (rdata & Hr & Hlen & _ & Hbs).
  exists rdata; split; [done|]; split; [|apply parse_options_encoded; [apply Ho|done|lia]].
  rewrite (parse_record_within p pre [0] (labels_name []) TYPE_OPT (opt_udp_payload_size o)
    (opt_ttl (opt_extended_rcode o) (opt_version o) (opt_flags o)) rdata []); [|done| |].
  - unfold opt_record_at; change (len [0]) with 1; do 2 f_equal; [lia..|].
    rewrite Heq, Hbs; autorewrite with len; lia.
  - by rewrite app_nil_r, Heq, Hbs.
  - change (len [0]) with 1; apply read_root; [done|].
    pose proof (len_nonneg pre); by rewrite Heq, Hbs, bget_app_r, Z.sub_diag by lia.
Qed.

Lemma opt_packet_question :
  parse_questions (Z.to_nat (h_question_count h)) p DNS_HEADER_LEN =
    Ok ([mk_question (labels_name labels) t c (len pre)], len pre).
Proof using Hp Hq Hpl.
  apply plain_question_parse in Hpl as [Hpq _]; [|done].
  rewrite Hq; change (Z.to_nat 1) with 1%nat; unfold DNS_HEADER_LEN; cbn [parse_questions].
  by rewrite Hpq.
Qed.

Lemma opt_packet_total : total_records h = 1.
Proof using Han Hau Had. unfold total_records; lia. Qed.

Lemma opt_packet_scan :
  scan_packet p = Ok (mk_layout (Some (mk_span (len pre) (len p) (opt_udp_payload_size o)
                                         (opt_flags o) (opt_options o))) false).
Proof using All.
  destruct parse_opt_record as (rdata & Hr & Hrec & Hopt).
  unfold scan_packet; rewrite Hh; cbn [mbind outcome_bind].
  rewrite opt_packet_question; cbn [mbind outcome_bind]; rewrite opt_packet_total.
  change (Z.to_nat 1) with 1%nat; cbn [scan_records]; rewrite Hrec; cbn [mbind outcome_bind].
  rewrite Han, Hau; cbn [opt_record_at r_rr_type r_name r_rdata r_next_offset r_class r_ttl].
  change (TYPE_OPT =? TYPE_OPT) with true; cbn [orb Z.add Z.ltb Z.compare lay_opt].
  change (bool_decide (canonical_wire (labels_name []) = [0])) with true; cbn [negb orb].
  rewrite bool_decide_eq_false_2 by (by intros [? ?]); rewrite Hopt; cbn [mbind outcome_bind].
  change (0 <? 0 + 0) with false; cbn [orb mbind outcome_bind].
  rewrite Z.eqb_refl; cbn [negb].
  assert (opt_ttl (opt_extended_rcode o) (opt_version o) (opt_flags o) mod 65536 = opt_flags o)
    as ->; [|done].
  destruct Ho as (_ & He & Hv & Hf & _); unfold opt_ttl, is_u16, is_u8 in *.
  Z.div_mod_to_equations; lia.
Qed.

Lemma opt_packet_inspect : inspect_opt p = Ok (Some o).
Proof using All.
  unfold inspect_opt; rewrite opt_packet_scan; cbn [mbind outcome_bind lay_opt sp_start].
  destruct parse_opt_record as (rdata & _ & -> & _); cbn [mbind outcome_bind].
  cbn [opt_record_at r_ttl sp_udp_payload_size sp_flags sp_options].
  destruct Ho as (_ & He & Hv & Hf & _); rewrite opt_ttl_bytes by done; by destruct o.
Qed.

Lemma opt_packet_sections :
  ∃ r, parse_sections p = Ok (h, [mk_question (labels_name labels) t c (len pre)], [r], len p).
Proof using All.
  destruct parse_opt_record as (rdata & _ & Hrec & _); exists (opt_record_at rdata).
  unfold parse_sections; rewrite Hh; cbn [mbind outcome_bind]; rewrite opt_packet_question.
  cbn [mbind outcome_bind]; rewrite opt_packet_total; change (Z.to_nat 1) with 1%nat.
  cbn [parse_records]; by rewrite Hrec.
Qed.
End opt_packet.

(** ** Safety, and where the OPT record lies *)

Lemma options_loop_safe fuel rdata o :
  0 ≤ o ≤ len rdata → len rdata - o < Z.of_nat fuel → safe (options_loop fuel rdata o).
Proof.
  revert o; induction fuel as [|fuel IH]; intros o Ho Hf; [lia|].
  cbn [options_loop]; wp_if; [|done]; boolp.
  apply wp_bind, wp_ok_or; intros he [-> _]%checked_add_Some.
  apply wp_bind, wp_ok_or; intros header Hh; apply slice_len in Hh as Hl.
  wp_index.
  apply wp_bind, wp_ok_or; intros stop [-> _]%checked_add_Some.
  apply wp_bind, wp_ok_or; intros d Hd; apply slice_Some in Hd as (? & ? & _).
  apply wp_bind; eapply wp_mono; [apply IH; lia|done].
Qed.

Lemma parse_options_safe rdata : safe (parse_options rdata).
Proof. apply options_loop_safe; pose proof (len_nonneg rdata); unfold len in *; lia. Qed.

#[export] Hint Resolve parse_options_safe : wire.

(** The OPT record lies inside the packet, in the additional section. *)
Definition span_ok (p : bytes) (h : Header) (sp : OptSpan) : Prop :=
  12 ≤ sp_start sp ∧ sp_start sp + 11 ≤ sp_end sp ≤ len p ∧ 1 ≤ h_additional_count h ∧
  safe (parse_record p (sp_start sp)).

Lemma scan_records_safe n p h start index o layout :
  packet_ok p → 12 ≤ o ≤ len p → start = h_answer_count h + h_authority_count h →
  index + Z.of_nat n = total_records h →
  (∀ sp, lay_opt layout = Some sp → span_ok p h sp) →
  wp (scan_records n p start index o layout)
    (λ '(layout, stop), ∀ sp, lay_opt layout = Some sp → span_ok p h sp).
Proof.
  intros Hp Ho Hstart; revert index o layout Ho; induction n as [|n IH];
    intros index o layout Ho Hidx Hlay; cbn [scan_records]; [exact Hlay|].
  wp_call r Hr; apply parse_record_bounds in Hr as Hb; [|done]; unfold record_ok in Hb.
  pose proof (len_nonneg (r_rdata r)).
  destruct (r_rr_type r =? TYPE_OPT) eqn:Hopt.
  - destruct (_ || _ || _) eqn:Hbad; [done|]; apply orb_false_iff in Hbad as [Hbad _].
    apply orb_false_iff in Hbad as [Hi _]; boolp.
    apply wp_bind; wp_call os Hos; apply IH; [lia|lia|].
    intros sp [= <-]; unfold span_ok; cbn; unfold total_records in *.
    split_and!; [lia..|by apply parse_record_safe].
  - destruct (r_rr_type r =? TYPE_TSIG); apply IH; (lia || exact Hlay).
Qed.

Lemma scan_packet_wp p :
  packet_ok p →
  wp (scan_packet p) (λ layout, ∃ h, header_parse p = Ok h ∧
    ∀ sp, lay_opt layout = Some sp → span_ok p h sp).
Proof.
  intros Hp; unfold scan_packet; wp_call h Hh; wp_call x Hx; destruct x as [qs o].
  apply header_parse_iff in Hh as Hlen; destruct Hlen as [Hlen _].
  apply (header_parse_ok p) in Hh as Hok; [|by apply packet_ok_bytes].
  apply parse_questions_bounds in Hx as (_ & Hb1 & Hb2); [|done].
  unfold DNS_HEADER_LEN in *; apply wp_bind; eapply wp_mono.
  - apply (scan_records_safe _ p h); [done|lia|done| |done].
    unfold header_ok, total_records, is_u16 in *; lia.
  - intros [layout stop] Hl; case_match; [done|]; by exists h.
Qed.

(** ** Editing *)

Lemma replace_span_spec p a b r :
  0 ≤ a → a ≤ b ≤ len p → len p - (b - a) + len r ≤ 65535 →
  replace_span p a b r = Ok (take (Z.to_nat a) p ++ r ++ drop (Z.to_nat b) p).
Proof.
  intros Ha Hb Hlen; unfold replace_span; pose proof (len_nonneg r).
  rewrite (proj2 (Z.ltb_ge b a)), (proj2 (Z.ltb_ge (len p) b)) by lia; cbn [orb].
  rewrite (proj2 (checked_sub_Some _ _ (len p - (b - a)))) by lia; cbn [mbind option_bind].
  rewrite (proj2 (checked_add_Some _ _ _ (len p - (b - a) + len r)))
    by (unfold usize_max; lia); cbn [ok_or mbind outcome_bind].
  rewrite (proj2 (Z.ltb_ge _ _)) by lia.
  assert (slice p 0 a = Some (take (Z.to_nat a) p)) as ->.
  { apply slice_Some; split_and!; [lia..|]; by rewrite Z.sub_0_r. }
  assert (slice p b (len p) = Some (drop (Z.to_nat b) p)) as ->; [|done].
  apply slice_Some; split_and!; [lia..|].
  rewrite take_ge; [done|]; rewrite length_drop; unfold len; lia.
Qed.

Lemma bget_spliced_out (p : bytes) a b i :
  0 ≤ a ≤ b → b ≤ len p → 0 ≤ i →
  bget (take (Z.to_nat a) p ++ drop (Z.to_nat b) p) i =
    bget p (if i <? a then i else i + (b - a)).
Proof.
  intros Ha Hb Hi; assert (len (take (Z.to_nat a) p) = a) as Hl.
  { unfold len in *; rewrite length_take; lia. }
  destruct (Z.ltb_spec i a).
  - rewrite bget_app_l by lia; unfold bget; rewrite (proj2 (Z.leb_le 0 i)) by lia.
    rewrite lookup_take_lt by lia; done.
  - rewrite bget_app_r, Hl by lia; unfold bget.
    rewrite !(proj2 (Z.leb_le 0 _)) by lia; rewrite lookup_drop; f_equal; lia.
Qed.

(** The packet without the span, and with the additional count decremented. *)
Lemma remove_opt_spec p h sp :
  packet_ok p → header_parse p = Ok h → span_ok p h sp → len p ≤ 65535 →
  ∃ q, remove_opt p sp = Ok q ∧ packet_ok q ∧ len q = len p - (sp_end sp - sp_start sp) ∧
    read_u16 q 10 = Ok (h_additional_count h - 1) ∧
    ∀ i, 0 ≤ i → i < 10 ∨ 12 ≤ i →
      bget q i = bget p (if i <? sp_start sp then i else i + (sp_end sp - sp_start sp)).
Proof.
  intros Hp Hh (Hs & He & Ha & _) Hlen; unfold remove_opt; rewrite Hh; cbn [mbind outcome_bind].
  rewrite (proj2 (checked_sub_Some _ _ (h_additional_count h - 1))) by lia.
  cbn [ok_or mbind outcome_bind].
  rewrite replace_span_spec by (rewrite ?len_nil; lia); cbn [mbind outcome_bind app].
  set (q0 := take _ p ++ drop _ p).
  assert (len q0 = len p - (sp_end sp - sp_start sp)) as Hl0.
  { unfold q0; rewrite len_app; unfold len in *; rewrite length_take, length_drop; lia. }
  assert (packet_ok q0) as Hp0.
  { destruct Hp as [Hb Hl]; split; [|lia]; unfold q0; apply bytes_ok_app; split;
      [by apply Forall_take|by apply Forall_drop]. }
  destruct (splice_is_Some q0 10 (u16_bytes (h_additional_count h - 1))) as [q Hq];
    [lia|rewrite u16_bytes_len; lia|].
  rewrite Hq; exists q; apply (header_parse_ok p) in Hh as Hok; [|by apply packet_ok_bytes].
  assert (is_u16 (h_additional_count h - 1)) by (unfold header_ok, is_u16 in *; lia).
  assert (packet_ok q) as Hpq by eauto using packet_ok_splice, u16_bytes_ok.
  split_and!; [done|done|rewrite (splice_len _ _ _ _ Hq); lia|by eapply read_splice_u16|].
  intros i Hi Hout; rewrite (bget_splice_out _ _ _ _ _ Hq) by (rewrite u16_bytes_len; lia).
  apply bget_spliced_out; lia.
Qed.

Lemma append_opt_spec p h b :
  packet_ok p → header_parse p = Ok h → h_additional_count h < 65535 → bytes_ok b →
  len p + len b ≤ 65535 →
  ∃ q, append_opt p b = Ok q ∧ packet_ok q ∧
    (∃ pre, q = pre ++ b ∧ len pre = len p ∧ ∀ i, i < 10 ∨ 12 ≤ i → i < len p → bget q i = bget p i) ∧
    read_u16 q 10 = Ok (h_additional_count h + 1).
Proof.
  intros Hp Hh Ha Hb Hlen; unfold append_opt; rewrite Hh; cbn [mbind outcome_bind].
  pose proof (len_nonneg b); apply header_parse_iff in Hh as Hh'; destruct Hh' as [H12 _].
  rewrite (proj2 (checked_add_Some 65535 (h_additional_count h) 1 _)) by (split; [done|lia]).
  cbn [ok_or mbind outcome_bind].
  rewrite (proj2 (checked_add_Some _ _ _ (len p + len b))) by (unfold usize_max; lia).
  cbn [ok_or mbind outcome_bind]; rewrite (proj2 (Z.ltb_ge _ _)) by lia.
  destruct (splice_is_Some p 10 (u16_bytes (h_additional_count h + 1))) as [pre Hpre];
    [lia|rewrite u16_bytes_len; lia|].
  apply splice_len in Hpre as Hl.
  assert (splice (p ++ b) 10 (u16_bytes (h_additional_count h + 1)) = Some (pre ++ b)) as Hs.
  { apply splice_Some in Hpre as (_ & _ & ->); unfold splice.
    rewrite len_app, (proj2 (Z.leb_le (10 + _) _)) by (rewrite u16_bytes_len; lia).
    cbn [andb Z.leb Z.compare].
    rewrite take_app_le, drop_app_le by (rewrite ?u16_bytes_len; unfold len in *; lia).
    by rewrite <- !app_assoc. }
  rewrite Hs; apply (header_parse_ok p) in Hh as Hok; [|by apply packet_ok_bytes].
  assert (is_u16 (h_additional_count h + 1)) by (unfold header_ok, is_u16 in *; lia).
  assert (packet_ok (pre ++ b)) as Hpq.
  { split; [|rewrite len_app; lia]; apply bytes_ok_app; split; [|done].
    by eapply bytes_ok_splice; [apply Hp|apply u16_bytes_ok|]. }
  exists (pre ++ b); split; [done|]; split; [done|]; split.
  - exists pre; split_and!; [done|done|]; intros i Hi Hip.
    rewrite bget_app_l by lia; eapply bget_splice_out; [exact Hpre|]; rewrite u16_bytes_len; lia.
  - eapply read_splice_u16; [done|exact Hs].
Qed.

(** ** Queries of clients *)

(** A valid query that has a plain question and at most an OPT record. *)
Definition client_query (query : bytes) (h : Header) (labels : list bytes) (t c : Z)
    (o : option OptRecord) : Prop :=
  ∃ pre tail, query = pre ++ tail ∧ answerable query h labels t c (len pre) ∧
    h_answer_count h = 0 ∧ h_authority_count h = 0 ∧
    match o with
    | None => tail = [] ∧ h_additional_count h = 0
    | Some o => opt_fields_ok o ∧ encode_opt_record o = Ok tail ∧ h_additional_count h = 1
    end.

Definition with_additional (h : Header) (n : Z) : Header :=
  mk_header (h_id h) (h_flags h) (h_question_count h) (h_answer_count h) (h_authority_count h) n.

Lemma header_parse_additional p q h n :
  packet_ok q → 12 ≤ len q → (∀ i, i < 10 → bget q i = bget p i) →
  read_u16 q 10 = Ok n → header_parse p = Ok h → header_parse q = Ok (with_additional h n).
Proof.
  intros Hq Hlen Hag Hn (_ & H0 & H2 & H4 & H6 & H8 & _)%header_parse_iff.
  assert (∀ j v, 0 ≤ j → j + 2 ≤ 10 → read_u16 p j = Ok v → read_u16 q j = Ok v) as Hr.
  { intros j v ? ?; apply read_u16_agree; [done|lia|]; intros; apply Hag; lia. }
  apply header_parse_iff; cbn; split_and!; auto with lia.
Qed.

Lemma with_additional_same h n : h_additional_count h = n → with_additional h n = h.
Proof. by intros <-; destruct h. Qed.

(** What the level asks for. *)
Definition level_opt (level : FeatureLevel) (size : Z) : OptRecord :=
  mk_opt (Z.max size 512) 0 0 (if level_dnssec_ok level then DNSSEC_OK else 0)
    (if level_dnssec_ok level then rfc6975_options else []).

Lemma level_opt_ok level size :
  is_u16 size →
  opt_fields_ok (level_opt level size) ∧
  ∃ b, encode_opt_record (level_opt level size) = Ok b ∧ bytes_ok b ∧ len b ≤ 33.
Proof.
  intros Hs; assert (opt_fields_ok (level_opt level size)) as Hok.
  { unfold opt_fields_ok, is_u16, is_u8, DNSSEC_OK in *; cbn; split_and!; try lia;
      try (by destruct (level_dnssec_ok level)).
    destruct (level_dnssec_ok level); [|constructor]; unfold rfc6975_options, option_ok, bytes_ok.
    unfold DNSSEC_ALGORITHMS, DNSSEC_DIGESTS, NSEC3_ALGORITHMS, is_u16, is_u8.
    repeat first [apply Forall_nil_2 | apply Forall_cons_2 | split | cbn; lia | by vm_compute]. }
  split; [done|]; destruct (encode_opt_record (level_opt level size)) as [b| | |] eqn:Hb;
    try (by destruct level).
  exists b; split; [done|]; apply encode_opt_shape in Hb as (r & Hr & _ & Hbs & ->); [|done].
  split; [done|]; destruct level; injection Hr as <-; done.
Qed.

(** What is sent to a server. *)
Definition sent_for (h : Header) (labels : list bytes) (t c stop : Z) (o : option OptRecord)
    (q : bytes) : Prop :=
  packet_ok q ∧ validate q false = Ok () ∧
  header_parse q = Ok (with_additional h (if o then 1 else 0)) ∧
  first_question q = Ok (mk_question (labels_name labels) t c stop) ∧
  inspect_opt q = Ok o.

Lemma sent_with_opt (p : bytes) h labels t c (pre pre' b : bytes) o q :
  answerable p h labels t c (len pre) → h_answer_count h = 0 → h_authority_count h = 0 →
  packet_ok q → q = pre' ++ b → len pre' = len pre → opt_fields_ok o →
  encode_opt_record o = Ok b → len pre ≤ len p →
  header_parse q = Ok (with_additional h 1) →
  (∀ i, 12 ≤ i < len pre → bget q i = bget p i) →
  sent_for h labels t c (len pre) (Some o) q.
Proof.
  intros Ha Han Hau Hq Heq Hlen Ho Hb Hpre Hh Hag.
  apply answerable_header in Ha as Hx; destruct Hx as (_ & Hresp & Hop & Hqc).
  assert (plain_question q labels t c (len pre')) as Hpl.
  { rewrite Hlen; eapply plain_question_agree; [apply Ha|done| |done|apply Ha].
    rewrite Heq, len_app; pose proof (len_nonneg b); lia. }
  destruct (opt_packet_sections q pre' b _ labels t c o Hq Hh Hqc Han Hau eq_refl Hpl Heq Ho Hb)
    as (r & Hsec).
  unfold sent_for; rewrite <- Hlen; split_and!; try done.
  - apply validate_iff; [done|]; eexists _, _, _; split_and!; [exact Hsec|done..|cbn; lia|done].
  - by apply (first_question_plain q (with_additional h 1)).
  - by apply (opt_packet_inspect q pre' b (with_additional h 1) labels t c o).
Qed.

(** A query without records. *)
Lemma question_only_scan q h labels t c :
  packet_ok q → header_parse q = Ok h → h_question_count h = 1 → total_records h = 0 →
  plain_question q labels t c (len q) → scan_packet q = Ok (mk_layout None false).
Proof.
  intros Hq Hh Hqc Ht Hpl; apply plain_question_parse in Hpl as [Hpq _]; [|done].
  unfold scan_packet; rewrite Hh; cbn [mbind outcome_bind].
  rewrite Hqc, Ht; change (Z.to_nat 1) with 1%nat; change (Z.to_nat 0) with 0%nat.
  cbn [parse_questions scan_records]; unfold DNS_HEADER_LEN; rewrite Hpq.
  cbn [mbind outcome_bind q_next_offset]; by rewrite Z.eqb_refl.
Qed.

Lemma sent_without_opt p h labels t c stop q :
  answerable p h labels t c stop → h_answer_count h = 0 → h_authority_count h = 0 →
  packet_ok q → len q = stop → header_parse q = Ok (with_additional h 0) →
  (∀ i, 12 ≤ i < stop → bget q i = bget p i) → sent_for h labels t c stop None q.
Proof.
  intros Ha Han Hau Hq Hlen Hh Hag.
  apply answerable_header in Ha as Hx; destruct Hx as (_ & Hresp & Hop & Hqc).
  assert (plain_question q labels t c stop) as Hpl.
  { eapply plain_question_agree; [apply Ha|done|lia|done|apply Ha]. }
  assert (total_records (with_additional h 0) = 0) as Ht by (unfold total_records; cbn; lia).
  pose proof (parse_sections_question q (with_additional h 0) labels t c Hq Hh Hqc Ht) as Hsec.
  rewrite Hlen in Hsec; specialize (Hsec Hpl); unfold sent_for; split_and!; try done.
  - apply validate_iff; [done|]; rewrite Hlen.
    eexists _, _, _; split_and!; [exact Hsec|done..|cbn; lia|done].
  - by apply (first_question_plain q (with_additional h 0)).
  - unfold inspect_opt; rewrite (question_only_scan q (with_additional h 0) labels t c);
      [done..|]; by rewrite Hlen.
Qed.

Lemma client_scan query h labels t c o :
  client_query query h labels t c o →
  ∃ pre tail, query = pre ++ tail ∧ answerable query h labels t c (len pre) ∧
    h_answer_count h = 0 ∧ h_authority_count h = 0 ∧
    h_additional_count h = (if o then 1 else 0) ∧ (o = None → tail = []) ∧
    ∃ sp, scan_packet query = Ok (mk_layout sp false) ∧
      match o with
      | Some _ => ∃ s, sp = Some s ∧ sp_start s = len pre ∧ sp_end s = len query
      | None => sp = None
      end.
Proof.
  intros (pre & tail & Heq & Ha & Han & Hau & Ho); exists pre, tail.
  apply answerable_header in Ha as Hx; destruct Hx as (_ & _ & _ & Hqc).
  destruct o as [o|].
  - destruct Ho as (Hok & Hb & Had); split_and!; try done.
    eexists; split; [by apply (opt_packet_scan query pre tail h labels t c o); try apply Ha|].
    by eexists.
  - destruct Ho as [-> Had]; split_and!; try done; exists None; split; [|done].
    rewrite app_nil_r in Heq; subst pre.
    apply (question_only_scan query h labels t c); try apply Ha; [done|].
    unfold total_records; lia.
Qed.

(** The OPT record of the query replaced, one appended, and one removed. *)
Lemma opt_replaced query h labels t c pre tail o b :
  query = pre ++ tail → answerable query h labels t c (len pre) →
  h_answer_count h = 0 → h_authority_count h = 0 → h_additional_count h = 1 →
  opt_fields_ok o → encode_opt_record o = Ok b → bytes_ok b → len pre + len b ≤ 65535 →
  sent_for h labels t c (len pre) (Some o) (pre ++ b).
Proof.
  intros Heq Ha Han Hau Had Ho Hb Hbs Hlen.
  pose proof (an_ok _ _ _ _ _ _ Ha) as Hp; pose proof (an_header _ _ _ _ _ _ Ha) as Hh.
  destruct (plain_question_parse query labels t c (len pre) Hp) as [_ Hpre]; [apply Ha|].
  assert (∀ i, i < len pre → bget (pre ++ b) i = bget query i) as Hag.
  { intros i Hi; rewrite Heq; by rewrite !bget_app_l by done. }
  assert (packet_ok (pre ++ b)) as Hq.
  { destruct Hp as [Hpb Hpl]; rewrite Heq in Hpb; apply bytes_ok_app in Hpb as [? _].
    split; [by apply bytes_ok_app|rewrite len_app; lia]. }
  pose proof (len_nonneg b).
  apply (sent_with_opt query h labels t c pre pre b o); try done.
  - rewrite Heq, len_app; pose proof (len_nonneg tail); lia.
  - apply (header_parse_additional query); [done|rewrite len_app; lia|..|done].
    + intros i Hi; apply Hag; lia.
    + apply header_parse_iff in Hh as (_ & _ & _ & _ & _ & _ & H10); rewrite Had in H10.
      eapply read_u16_agree; [done|rewrite len_app; lia| |done]; intros; apply Hag; lia.
  - intros i Hi; apply Hag; lia.
Qed.

Lemma opt_appended query h labels t c o b :
  answerable query h labels t c (len query) →
  h_answer_count h = 0 → h_authority_count h = 0 → h_additional_count h = 0 →
  opt_fields_ok o → encode_opt_record o = Ok b → bytes_ok b → len query + len b ≤ 65535 →
  ∃ q, append_opt query b = Ok q ∧ sent_for h labels t c (len query) (Some o) q.
Proof.
  intros Ha Han Hau Had Ho Hb Hbs Hlen.
  pose proof (an_ok _ _ _ _ _ _ Ha) as Hp; pose proof (an_header _ _ _ _ _ _ Ha) as Hh.
  destruct (append_opt_spec query h b Hp Hh) as (q & Hq & Hpq & (pre & Heq & Hl & Hag) & H10);
    [lia|done|done|].
  exists q; split; [done|]; pose proof (len_nonneg b).
  apply header_parse_iff in Hh as Hh'; destruct Hh' as [H12 _].
  apply (sent_with_opt query h labels t c query pre b o); try done.
  - apply (header_parse_additional query); [done|rewrite Heq, len_app; lia| | |done].
    + intros i Hi; apply Hag; lia.
    + by rewrite H10, Had.
  - intros i Hi; apply Hag; lia.
Qed.

Lemma opt_removed query h labels t c stop s layout :
  answerable query h labels t c stop → scan_packet query = Ok layout → lay_opt layout = Some s →
  sp_start s = stop → sp_end s = len query → len query ≤ 65535 →
  h_answer_count h = 0 → h_authority_count h = 0 → h_additional_count h = 1 →
  ∃ q, remove_opt query s = Ok q ∧ sent_for h labels t c stop None q.
Proof.
  intros Ha Hscan Hs Hst Hse Hlen Han Hau Had.
  pose proof (an_ok _ _ _ _ _ _ Ha) as Hp; pose proof (an_header _ _ _ _ _ _ Ha) as Hh.
  pose proof (scan_packet_wp query Hp) as Hw; rewrite Hscan in Hw.
  destruct Hw as (h' & Hh' & Hsp); rewrite Hh in Hh'; injection Hh' as <-; specialize (Hsp s Hs).
  destruct (remove_opt_spec query h s Hp Hh Hsp Hlen) as (q & Hq & Hpq & Hl & H10 & Hag).
  destruct Hsp as (H12 & _); exists q; split; [done|].
  apply (sent_without_opt query h labels t c stop q); try done; [lia| |].
  - apply (header_parse_additional query); [done|lia| | |done].
    + intros i Hi; destruct (decide (0 ≤ i)).
      * rewrite Hag by lia; by rewrite (proj2 (Z.ltb_lt _ _)) by lia.
      * unfold bget; by rewrite (proj2 (Z.leb_gt _ _)) by lia.
    + by rewrite H10, Had.
  - intros i Hi; rewrite Hag by lia; by rewrite (proj2 (Z.ltb_lt _ _)) by lia.
Qed.

Lemma prepare_query_spec query h labels t c o level size :
  client_query query h labels t c o → is_u16 size → len query ≤ 65000 →
  ∃ pq stop, prepare_query query level size = Ok pq ∧ pq_managed_opt pq = true ∧
    pq_sent_edns pq = uses_edns level ∧
    first_question query = Ok (mk_question (labels_name labels) t c stop) ∧
    sent_for h labels t c stop
      (if uses_edns level then Some (level_opt level size) else None) (pq_packet pq).
Proof.
  intros Hq Hs Hlen; destruct (client_scan _ _ _ _ _ _ Hq)
    as (pre & tail & Heq & Ha & Han & Hau & Had & Htail & sp & Hscan & Hsp).
  apply answerable_header in Ha as Hx; destruct Hx as (_ & _ & _ & Hqc).
  pose proof (an_ok _ _ _ _ _ _ Ha) as Hp; pose proof (an_header _ _ _ _ _ _ Ha) as Hh.
  destruct (first_question_plain query h labels t c (len pre) Hp Hh Hqc) as [Hfq _]; [apply Ha|].
  destruct (plain_question_parse query labels t c (len pre) Hp) as [_ Hpre]; [apply Ha|].
  unfold prepare_query; rewrite (an_valid _ _ _ _ _ _ Ha), Hscan; cbn [mbind outcome_bind].
  cbn [lay_has_tsig lay_opt]; destruct (uses_edns level) eqn:Hlv; cbn [negb].
  - destruct (level_opt_ok level size Hs) as (Hok & b & Hb & Hbs & Hbl).
    change (encode_opt (Z.max size 512) 0 0 _ _) with (encode_opt_record (level_opt level size)).
    rewrite Hb; cbn [mbind outcome_bind]; destruct o as [o|].
    + destruct Hsp as (s & -> & Hst & Hse).
      rewrite replace_span_spec by lia; rewrite Hst, Hse; cbn [mbind outcome_bind].
      replace (take _ query ++ b ++ drop _ query) with (pre ++ b).
      2: { unfold len; rewrite !Nat2Z.id, drop_all, app_nil_r, Heq, take_app_length; done. }
      eexists _, (len pre); do 4 (split; [done|]).
      apply (opt_replaced query h labels t c pre tail); done || lia.
    + rewrite (Htail eq_refl), app_nil_r in Heq; subst pre sp.
      destruct (opt_appended query h labels t c (level_opt level size) b Ha) as (q & -> & Hsent);
        [done..|lia|]; by eexists _, (len query).
  - destruct o as [o|].
    + destruct Hsp as (s & -> & Hst & Hse).
      destruct (opt_removed query h labels t c (len pre) s _ Ha Hscan) as (q & -> & Hsent);
        [done..|lia|done|done|done|]; by eexists _, (len pre).
    + rewrite (Htail eq_refl), app_nil_r in Heq; subst pre sp.
      eexists _, (len query); do 4 (split; [done|]).
      apply (sent_without_opt query h labels t c (len query) query); try done.
      by rewrite with_additional_same.
Qed.

(** ** Responses to clients *)

Lemma scan_span_ok p h layout sp :
  packet_ok p → header_parse p = Ok h → scan_packet p = Ok layout → lay_opt layout = Some sp →
  span_ok p h sp.
Proof.
  intros Hp Hh Hs Hsp; pose proof (scan_packet_wp p Hp) as Hw; rewrite Hs in Hw.
  destruct Hw as (h' & Hh' & H); rewrite Hh in Hh'; injection Hh' as <-; by apply H.
Qed.

Lemma scan_record_parses n p start idx o layout0 layout stop sp :
  scan_records n p start idx o layout0 = Ok (layout, stop) → lay_opt layout = Some sp →
  (∀ sp, lay_opt layout0 = Some sp → ∃ r, parse_record p (sp_start sp) = Ok r) →
  ∃ r, parse_record p (sp_start sp) = Ok r.
Proof.
  revert idx o layout0; induction n as [|n IH]; intros idx o layout0; cbn [scan_records].
  { intros [= <- _]%Ok_inj; auto. }
  intros (r & Hr & H)%bind_Ok Hsp H0; apply bind_Ok in H as (layout1 & H1 & H).
  eapply IH; [exact H|done|]; intros sp1 Hsp1.
  destruct (r_rr_type r =? TYPE_OPT).
  - destruct (_ || _ || _); [done|]; apply bind_Ok in H1 as (os & _ & <-%Ok_inj).
    injection Hsp1 as <-; by exists r.
  - destruct (r_rr_type r =? TYPE_TSIG); apply Ok_inj in H1 as <-; auto.
Qed.

Lemma scan_inspect p layout sp :
  scan_packet p = Ok layout → lay_opt layout = Some sp →
  ∃ o, inspect_opt p = Ok (Some o).
Proof.
  intros Hs Hsp; unfold inspect_opt; rewrite Hs; cbn [mbind outcome_bind]; rewrite Hsp.
  unfold scan_packet in Hs; apply bind_Ok in Hs as (h & _ & Hs).
  apply bind_Ok in Hs as ([qs o] & _ & Hs); apply bind_Ok in Hs as ([l stop] & Hl & Hs).
  case_match; [done|]; apply Ok_inj in Hs as ->.
  destruct (scan_record_parses _ _ _ _ _ _ _ _ _ Hl Hsp) as [r ->]; [done|].
  by eexists.
Qed.

(** The flags a client sees: an extended response code becomes SERVFAIL. *)
Definition client_flags (flags rcode : Z) : Z :=
  if 15 <? rcode then Z.lor (Z.ldiff flags 0x000f) 2 else flags.

Lemma client_flags_u16 flags rcode : is_u16 flags → is_u16 (client_flags flags rcode).
Proof.
  intros Hf; unfold client_flags; case_match; [|done].
  apply is_u16_lor; [by apply is_u16_ldiff|unfold is_u16; lia].
Qed.

Lemma index_read_u16 p o v : read_u16 p o = Ok v → index_u16 p o = Ok v.
Proof.
  intros (_ & _ & a & b & Ha & Hb & ->)%read_u16_Ok; unfold index_u16, index.
  by rewrite Ha; cbn [or_panic mbind outcome_bind]; rewrite Hb.
Qed.

Definition with_flags (h : Header) (flags : Z) : Header :=
  mk_header (h_id h) flags (h_question_count h) (h_answer_count h) (h_authority_count h)
    (h_additional_count h).

Lemma set_flags q h f :
  packet_ok q → header_parse q = Ok h → is_u16 f →
  index_u16 q 2 = Ok (h_flags h) ∧
  ∃ q', splice q 2 (u16_bytes f) = Some q' ∧ packet_ok q' ∧ len q' = len q ∧
    header_parse q' = Ok (with_flags h f) ∧ ∀ i, 4 ≤ i → bget q' i = bget q i.
Proof.
  intros Hq Hh Hf; apply header_parse_iff in Hh as (H12 & H0 & H2 & H4 & H6 & H8 & H10).
  split; [by apply index_read_u16|].
  destruct (splice_is_Some q 2 (u16_bytes f)) as [q' Hs]; [lia|rewrite u16_bytes_len; lia|].
  pose proof (splice_len _ _ _ _ Hs) as Hl.
  assert (packet_ok q') as Hq' by eauto using packet_ok_splice, u16_bytes_ok.
  assert (∀ i, i < 2 ∨ 4 ≤ i → bget q' i = bget q i) as Hout.
  { intros i Hi; apply (bget_splice_out _ _ _ _ _ Hs); rewrite u16_bytes_len; lia. }
  exists q'; split_and!; [done..| |intros; apply Hout; lia].
  assert (∀ j v, 0 ≤ j ≤ 10 → j = 0 ∨ 4 ≤ j → read_u16 q j = Ok v → read_u16 q' j = Ok v) as Hr.
  { intros j v Hj Hj'; apply read_u16_agree; [done|lia|]; intros; apply Hout; lia. }
  apply header_parse_iff; cbn; split_and!; [lia|apply Hr; done || lia| |apply Hr; done || lia..].
  by eapply read_splice_u16.
Qed.

(** What a client without EDNS gets of a response with an OPT record. *)
Lemma response_stripped query response layout sp h :
  packet_ok response → len response ≤ 65535 → validate query false = Ok () →
  scan_packet query = Ok (mk_layout None false) → validate response true = Ok () →
  header_parse response = Ok h → scan_packet response = Ok layout → lay_opt layout = Some sp →
  ∃ o rcode out, inspect_opt response = Ok (Some o) ∧ full_rcode response (Some o) = Ok rcode ∧
    response_for_client query response = Ok out ∧ packet_ok out ∧
    len out = len response - (sp_end sp - sp_start sp) ∧
    header_parse out = Ok (mk_header (h_id h) (client_flags (h_flags h) rcode)
      (h_question_count h) (h_answer_count h) (h_authority_count h) (h_additional_count h - 1)) ∧
    ∀ i, 12 ≤ i → bget out i =
      bget response (if i <? sp_start sp then i else i + (sp_end sp - sp_start sp)).
Proof.
  intros Hp Hlen Hvq Hsq Hvr Hh Hs Hsp.
  destruct (scan_inspect _ _ _ Hs Hsp) as [o Ho]; pose proof (scan_span_ok _ _ _ _ Hp Hh Hs Hsp) as Hok.
  destruct (remove_opt_spec response h sp Hp Hh Hok Hlen) as (q & Hq & Hpq & Hl & H10 & Hag).
  destruct Hok as (H12 & Hend & _); exists o.
  assert (header_parse q = Ok (with_additional h (h_additional_count h - 1))) as Hhq.
  { apply (header_parse_additional response); [done|lia| |done|done]; intros i Hi.
    destruct (decide (0 ≤ i)).
    - rewrite Hag by lia; by rewrite (proj2 (Z.ltb_lt _ _)) by lia.
    - unfold bget; by rewrite (proj2 (Z.leb_gt _ _)) by lia. }
  unfold full_rcode at 1; rewrite Hh; cbn [mbind outcome_bind]; eexists.
  unfold response_for_client; rewrite Hvq, Hvr, Hsq, Hs, Ho; cbn [mbind outcome_bind lay_has_tsig lay_opt orb].
  rewrite bool_decide_eq_false_2, Hsp by (by intros [? ?]); cbn [ok_or mbind outcome_bind].
  unfold full_rcode; rewrite Hh; cbn [mbind outcome_bind]; rewrite Hq; cbn [mbind outcome_bind].
  set (rcode := Z.lor _ _).
  apply (header_parse_ok response) in Hh as Hhok; [|by apply packet_ok_bytes].
  destruct (set_flags q _ (client_flags (h_flags h) rcode) Hpq Hhq)
    as (Hi & q' & Hq' & Hpq' & Hl' & Hh' & Hout); [apply client_flags_u16, Hhok|].
  unfold client_flags in *; destruct (15 <? rcode) eqn:Hrc.
  - rewrite Hi; cbn [mbind outcome_bind].
    change (h_flags (with_additional h _)) with (h_flags h); rewrite Hq'.
    exists q'; fold rcode; rewrite Hrc; split_and!; try done; [lia|].
    intros i Hi12; rewrite Hout by lia; apply Hag; lia.
  - exists q; fold rcode; rewrite Hrc; split_and!; try done; intros i Hi12; apply Hag; lia.
Qed.

(** ** Totality *)

Lemma replace_span_wp p a b r :
  0 ≤ a → wp (replace_span p a b r) (λ q, a ≤ len q ∧ len q ≤ 65535 ∧ a ≤ b ≤ len p ∧
    q = take (Z.to_nat a) p ++ r ++ drop (Z.to_nat b) p).
Proof.
  intros Ha; destruct (decide (a ≤ b ≤ len p)) as [Hb|Hb].
  - destruct (decide (len p - (b - a) + len r ≤ 65535)) as [Hl|Hl].
    + rewrite replace_span_spec by done; cbn; pose proof (len_nonneg r).
      rewrite !len_app; unfold len in *; rewrite length_take, length_drop; split_and!; done || lia.
    + unfold replace_span; case_match; [done|]; apply wp_bind, wp_ok_or; intros n Hn.
      destruct (checked_sub _ _) as [m|] eqn:Hm; [|done]; cbn in Hn.
      apply checked_sub_Some in Hm; apply checked_add_Some in Hn.
      rewrite (proj2 (Z.ltb_lt _ _)) by lia; done.
  - unfold replace_span; case_match; [done|]; boolp; lia.
Qed.

Lemma remove_opt_safe p h sp :
  packet_ok p → header_parse p = Ok h → span_ok p h sp →
  wp (remove_opt p sp) (λ q, 12 ≤ len q).
Proof.
  intros Hp Hh (H12 & Hend & Ha & _); unfold remove_opt; rewrite Hh; cbn [mbind outcome_bind].
  apply wp_bind, wp_ok_or; intros n _; apply wp_bind; eapply wp_mono; [apply replace_span_wp; lia|].
  intros q (Hq & _); destruct (splice_is_Some q 10 (u16_bytes n)) as [q' Hs];
    [lia|rewrite u16_bytes_len; lia|].
  rewrite Hs; cbn; rewrite (splice_len _ _ _ _ Hs); lia.
Qed.

Lemma append_opt_safe p b : packet_ok p → safe (append_opt p b).
Proof.
  intros Hp; unfold append_opt; wp_call h Hh; apply header_parse_iff in Hh as [H12 _].
  apply wp_bind, wp_ok_or; intros n _; apply wp_bind, wp_ok_or; intros l _; wp_if; [done|].
  pose proof (len_nonneg b).
  destruct (splice_is_Some (p ++ b) 10 (u16_bytes n)) as [q' Hs];
    [lia|rewrite u16_bytes_len, len_app; lia|]; by rewrite Hs.
Qed.

Lemma encode_opt_safe s e v f os : safe (encode_opt s e v f os).
Proof.
  unfold encode_opt; apply wp_bind; eapply wp_mono with (Q := λ _, True).
  - induction os as [|o os IH]; cbn [encode_options]; [done|]; apply wp_bind.
    unfold u16_try_from; case_match; [|done]; apply wp_bind; by eapply wp_mono.
  - intros r _; apply wp_bind; unfold u16_try_from; by case_match.
Qed.

Lemma scan_packet_safe p : packet_ok p → safe (scan_packet p).
Proof. intros Hp; eapply wp_mono; [by apply scan_packet_wp|done]. Qed.

#[export] Hint Resolve append_opt_safe encode_opt_safe scan_packet_safe : wire.

Lemma prepare_query_safe q level size : packet_ok q → safe (prepare_query q level size).
Proof.
  intros Hq; unfold prepare_query; wp_call u Hu; wp_call layout Hl.
  pose proof (scan_packet_wp q Hq) as Hw; rewrite Hl in Hw; destruct Hw as (h & Hh & Hsp).
  wp_if; [done|]; wp_if.
  - apply wp_bind; destruct (lay_opt layout) as [sp|] eqn:Ho; [|done].
    eapply wp_mono; [by apply (remove_opt_safe q h), Hsp|done].
  - wp_call r Hr; apply wp_bind; destruct (lay_opt layout) as [sp|] eqn:Ho.
    + destruct (Hsp sp eq_refl) as (? & _); eapply wp_mono; [apply replace_span_wp; lia|done].
    + eapply wp_mono; [by apply append_opt_safe|done].
Qed.

Lemma inspect_opt_safe p : packet_ok p → safe (inspect_opt p).
Proof.
  intros Hp; unfold inspect_opt; wp_call layout Hl; case_match; [|done].
  apply wp_bind; eapply wp_mono; [by apply parse_record_safe|done].
Qed.

Lemma full_rcode_safe p o : safe (full_rcode p o).
Proof. unfold full_rcode; wp_call h Hh; done. Qed.

#[export] Hint Resolve inspect_opt_safe full_rcode_safe prepare_query_safe : wire.

Lemma response_for_client_safe q r : packet_ok q → packet_ok r → safe (response_for_client q r).
Proof.
  intros Hq Hr; unfold response_for_client; wp_call u1 H1; wp_call u2 H2; wp_call ql Hql.
  wp_if; [done|]; wp_call rl Hrl; case_match; [|done]; wp_call oo Hoo.
  apply wp_bind, wp_ok_or; intros o' _; wp_call rc Hrc.
  pose proof (scan_packet_wp r Hr) as Hw; rewrite Hrl in Hw; destruct Hw as (h & Hh & Hsp).
  apply wp_bind; eapply wp_mono; [apply (remove_opt_safe r h); [done..|by apply Hsp]|].
  intros out Hout; cbn in Hout; wp_if; [|done]; apply wp_bind; eapply wp_mono;
    [apply index_u16_wp; lia|]; intros f _.
  destruct (splice_is_Some out 2 (u16_bytes (Z.lor (Z.ldiff f 15) 2))) as [x ->];
    [lia|rewrite u16_bytes_len; lia|done].
Qed.

#[export] Hint Resolve response_for_client_safe : wire.

(** ** Prepared queries are packets *)

Lemma packet_ok_spliced p a b r :
  packet_ok p → bytes_ok r → len (take a p ++ r ++ drop b p) ≤ 65535 →
  packet_ok (take a p ++ r ++ drop b p).
Proof.
  intros [Hp _] Hr Hl; split; [|lia].
  apply Forall_app; split; [by apply Forall_take|]; apply Forall_app; split; [done|by apply Forall_drop].
Qed.

Lemma remove_opt_packet_ok p h sp :
  packet_ok p → header_parse p = Ok h → span_ok p h sp → wp (remove_opt p sp) packet_ok.
Proof.
  intros Hp Hh (H12 & Hend & Ha & _); unfold remove_opt; rewrite Hh; cbn [mbind outcome_bind].
  apply wp_bind, wp_ok_or; intros n Hn; apply wp_bind; eapply wp_mono; [apply replace_span_wp; lia|].
  intros q (Hq & Hl & Hb & Heq).
  assert (packet_ok q) as Hpq by (rewrite Heq in *; apply packet_ok_spliced; [done|constructor|done]).
  destruct (splice q 10 (u16_bytes n)) as [q'|] eqn:Hs; cbn; [|].
  - eapply packet_ok_splice; [done| |exact Hs]; apply u16_bytes_ok.
    apply header_parse_ok in Hh; [|apply Hp]; apply checked_sub_Some in Hn.
    destruct Hh as (_ & _ & _ & _ & _ & Hu); unfold is_u16 in *; lia.
  - destruct (splice_is_Some q 10 (u16_bytes n)) as [q' Hq']; [lia|rewrite u16_bytes_len; lia|congruence].
Qed.

Lemma append_opt_packet_ok p b : packet_ok p → bytes_ok b → wp (append_opt p b) packet_ok.
Proof.
  intros Hp Hb; unfold append_opt; wp_call h Hh; apply wp_bind, wp_ok_or; intros n Hn.
  apply wp_bind, wp_ok_or; intros l Hl; wp_if; [done|]; boolp.
  apply checked_add_Some in Hl, Hn; destruct Hl as [-> Hl].
  assert (packet_ok (p ++ b)) as Hpb.
  { split; [apply Forall_app; by split; [apply Hp|]|rewrite len_app; lia]. }
  pose proof Hh as Hh'; apply header_parse_iff in Hh' as [H12 _]; pose proof (len_nonneg b).
  destruct (splice_is_Some (p ++ b) 10 (u16_bytes n)) as [q' Hs];
    [lia|rewrite u16_bytes_len, len_app; lia|]; rewrite Hs; cbn.
  eapply packet_ok_splice; [done| |exact Hs]; apply u16_bytes_ok.
  apply header_parse_ok in Hh; [|apply Hp]; destruct Hh as (_ & _ & _ & _ & _ & Hu).
  unfold is_u16 in *; lia.
Qed.

(** What is sent is a packet, with EDNS exactly when the level has it, unless
    the query is signed with TSIG, which leaves it as it is. *)
Lemma prepare_query_packet q level size :
  packet_ok q → is_u16 size →
  wp (prepare_query q level size) (λ out, packet_ok (pq_packet out) ∧
    (pq_managed_opt out = true → pq_sent_edns out = uses_edns level)).
Proof.
  intros Hq Hs; unfold prepare_query; wp_call u Hu; wp_call layout Hl.
  pose proof (scan_packet_wp q Hq) as Hw; rewrite Hl in Hw; destruct Hw as (h & Hh & Hsp).
  wp_if; [done|]; destruct (uses_edns level) eqn:He; cbn [negb].
  - destruct (level_opt_ok level size Hs) as (_ & b & Hb & Hbs & _).
    assert (encode_opt (Z.max size 512) 0 0 (if level_dnssec_ok level then DNSSEC_OK else 0)
      (if level_dnssec_ok level then rfc6975_options else []) = Ok b) as -> by exact Hb.
    cbn [mbind outcome_bind]; apply wp_bind; destruct (lay_opt layout) as [sp|] eqn:Ho.
    + destruct (Hsp sp eq_refl) as (? & _); eapply wp_mono; [apply replace_span_wp; lia|].
      intros p (_ & Hlen & _ & ->); split; [by apply packet_ok_spliced|done].
    + eapply wp_mono; [by apply append_opt_packet_ok|]; done.
  - apply wp_bind; destruct (lay_opt layout) as [sp|] eqn:Ho; [|done].
    eapply wp_mono; [by apply (remove_opt_packet_ok q h), Hsp|]; done.
Qed.

(** ** The life of a feature level *)

(** What happens to the state of one server, with the best level it is asked
    for and the clock of each step. *)
Inductive feature_op : Type :=
  | OpPossible (best : FeatureLevel)
  | OpSuccess (level : FeatureLevel)
  | OpFailure (level : FeatureLevel)
  | OpBadOpt (level : FeatureLevel)
  | OpDoOff (level : FeatureLevel)
  | OpDowngrade (level : FeatureLevel)
  | OpReset.

Definition run_op (op : feature_op) (now : Z) (s : ServerFeatureState) : ServerFeatureState :=
  match op with
  | OpPossible best => (possible_level s best now).2
  | OpSuccess level => features_record_success s level
  | OpFailure level => (features_record_failure s level now).2
  | OpBadOpt level => (features_record_bad_opt s level now).2
  | OpDoOff level => (features_record_do_off s level now).2
  | OpDowngrade level => downgrade_to s level now
  | OpReset => features_reset s
  end.

(** The least level that was asked for since the last reset. *)
Definition asked_after (op : feature_op) (asked : FeatureLevel) : FeatureLevel :=
  match op with
  | OpPossible best => level_min asked best
  | OpReset => LevelDnssecOk
  | _ => asked
  end.

(** The states a server can be in at a time, and the least level asked for; a
    grace period ends at a time that an [Instant] holds. *)
Inductive feature_reach : FeatureLevel → Z → ServerFeatureState → Prop :=
  | feature_reach_start now : feature_reach LevelDnssecOk now features_default
  | feature_reach_step asked now now' op s :
      feature_reach asked now s → now ≤ now' → now' + FEATURE_GRACE_PERIOD_MAX < INSTANT_END →
      feature_reach (asked_after op asked) now' (run_op op now' s).

Definition feature_inv (asked : FeatureLevel) (now : Z) (s : ServerFeatureState) : Prop :=
  0 < f_grace_period s ≤ FEATURE_GRACE_PERIOD_MAX ∧ 0 ≤ f_failed_attempts s ≤ 255 ∧
  (f_bad_opt s = true → f_possible s = LevelUdp) ∧
  (level_lt (f_possible s) asked = true →
   ∃ t, f_retry_after s = Some t ∧ t ≤ now + FEATURE_GRACE_PERIOD_MAX).

Lemma feature_inv_later asked now now' s :
  feature_inv asked now s → now ≤ now' → feature_inv asked now' s.
Proof.
  intros (Hg & Hf & Hb & Hr) Hn; split_and!; [apply Hg..|apply Hf|apply Hf|done|].
  intros Hlt; destruct (Hr Hlt) as (t & Ht & Hle); exists t; split; [done|lia].
Qed.

Section feature_steps.
Context (asked : FeatureLevel) (now : Z) (Hnow : now + FEATURE_GRACE_PERIOD_MAX < INSTANT_END).

Lemma grace_retry g :
  0 < g ≤ FEATURE_GRACE_PERIOD_MAX →
  ∃ t, instant_checked_add now g = Some t ∧ t ≤ now + FEATURE_GRACE_PERIOD_MAX.
Proof using Hnow.
  intros Hg; unfold instant_checked_add; rewrite (proj2 (Z.ltb_lt _ _)) by lia; eexists; split; [done|lia].
Qed.

Lemma downgrade_inv s level : feature_inv asked now s → feature_inv asked now (downgrade_to s level now).
Proof using Hnow.
  intros (Hg & Hf & Hb & Hr); unfold downgrade_to; case_match eqn:Hle; [done|].
  destruct s; unfold feature_inv; cbn in *.
  split_and!; [lia..| |intros _; by apply grace_retry].
  intros Hbad; rewrite (Hb Hbad) in Hle; by destruct level.
Qed.

Lemma possible_level_inv best s :
  feature_inv asked now s → feature_inv (level_min asked best) now (possible_level s best now).2.
Proof.
  intros (Hg & Hf & Hb & Hr); unfold possible_level; destruct s as [po ve vo fa ra gp bo].
  unfold feature_inv, FEATURE_GRACE_PERIOD_MAX, duration_max, second in *.
  destruct best, asked, po, bo; cbn in *; try discriminate (Hb eq_refl);
    try (destruct (match ra with Some t => t <=? now | None => false end));
    cbn; split_and!; done || lia.
Qed.

Lemma run_op_inv op s : feature_inv asked now s → feature_inv (asked_after op asked) now (run_op op now s).
Proof using Hnow.
  intros Hi; destruct op as [b|l|l|l|l|l|]; cbn [run_op asked_after].
  - by apply possible_level_inv.
  - destruct s, Hi as (? & ? & ? & ?); unfold features_record_success, feature_inv; cbn in *.
    destruct (level_lt _ l); cbn; case_bool_decide; cbn; split_and!; done || lia.
  - unfold features_record_failure; case_match; [done|].
    set (s' := { s with f_failed_attempts := _ }); assert (feature_inv asked now s') as Hs.
    { destruct s, Hi as (? & ? & ? & ?); unfold feature_inv, s', saturating_add; cbn in *.
      split_and!; done || lia. }
    case_match; [done|]; case_match; [done|]; by apply downgrade_inv.
  - unfold features_record_bad_opt; cbn; destruct (uses_edns l) eqn:Hl; [|done].
    destruct s, Hi as (Hg & Hf & Hb & Hr); unfold downgrade_to; cbn in *.
    case_match eqn:Hle; unfold feature_inv; cbn; split_and!; try done; try lia.
    + intros _; by destruct f_possible.
    + intros _; by apply grace_retry.
  - unfold features_record_do_off; cbn; case_bool_decide; [by apply downgrade_inv|done].
  - by apply downgrade_inv.
  - done.
Qed.
End feature_steps.

Lemma feature_reach_inv asked now s : feature_reach asked now s → feature_inv asked now s.
Proof.
  induction 1 as [now|asked now now' op s Hr IH Hn Hend]; [done|].
  apply run_op_inv; [done|]; by eapply feature_inv_later.
Qed.

(** Past the retry time the best level is back. *)
Lemma possible_level_due asked best now s later :
  feature_inv asked now s → now + FEATURE_GRACE_PERIOD_MAX ≤ later →
  level_le (level_min best asked) (possible_level s best later).1 = true ∧
  level_le (possible_level s best later).1 best = true.
Proof.
  intros (Hg & Hf & Hb & Hr) Hn; unfold possible_level; destruct s as [po ve vo fa ra gp bo].
  destruct best, asked, po, bo; cbn in *; try discriminate (Hb eq_refl); try done;
    try (destruct (Hr eq_refl) as (t & -> & Ht); by rewrite (proj2 (Z.leb_le t later)) by lia);
    by destruct (match ra with Some t => t <=? later | None => false end).
Qed.

Lemma level_between best asked l :
  level_le (level_min best asked) l = true → level_le l best = true →
  level_le best asked = true → l = best.
Proof. by destruct best, asked, l. Qed.

(** A level clamped while less was asked for does not come back when more is:
    no retry time was set. *)
Lemma best_raised_stays_low t times :
  let s := (possible_level features_default LevelEdns0 t).2 in
  let s' := fold_left (λ s now, (possible_level s LevelDnssecOk now).2) times s in
  ∀ now, (possible_level s' LevelDnssecOk now).1 = LevelEdns0.
Proof.
  cbn zeta; assert ((possible_level features_default LevelEdns0 t).2 =
    { features_default with f_possible := LevelEdns0 }) as -> by done.
  intros now; induction times as [|x times IH]; [done|exact IH].
Qed.

(** A record behind the OPT record, named by a pointer to a name behind it:
    taking the OPT record out leaves the pointer as it was. *)
Definition query_a : bytes := [0;1; 1;0; 0;1; 0;0; 0;0; 0;0; 1;97;0; 0;1; 0;1].
Definition response_behind_opt : bytes :=
  [0;1; 0x81;0x80; 0;1; 0;0; 0;0; 0;3; 1;97;0; 0;1; 0;1;
   0; 0;41; 4;208; 0;0;0;0; 0;0;
   1;98;0; 0;1; 0;1; 0;0;0;60; 0;4; 1;2;3;4;
   192;30; 0;1; 0;1; 0;0;0;60; 0;4; 5;6;7;8].

Lemma opt_removed_behind_pointer :
  ∃ out r r', response_for_client query_a response_behind_opt = Ok out ∧
    parse_record response_behind_opt 47 = Ok r ∧ parse_record out 36 = Ok r' ∧
    r_name r = labels_name [[98]] ∧ r_name r' = labels_name [].
Proof. by repeat eexists; vm_compute. Qed.

(** ** Properties *)

(** C23: whatever level a server is probed at, the query sent to it is the
    client's: same id, flags and question, no answer or authority records, and
    exactly the OPT record of the level (none below EDNS), whether the
    client's query had an OPT record of its own, replaced or removed, or none. *)
Theorem prepare_query_exact query h labels t c o level size :
  client_query query h labels t c o → is_u16 size → len query ≤ 65000 →
  ∃ pq stop, prepare_query query level size = Ok pq ∧ pq_managed_opt pq = true ∧
    pq_sent_edns pq = uses_edns level ∧
    first_question query = Ok (mk_question (labels_name labels) t c stop) ∧
    sent_for h labels t c stop
      (if uses_edns level then Some (level_opt level size) else None) (pq_packet pq).
Proof. apply prepare_query_spec. Qed.

Lemma prepare_query_exact_witness :
  ∃ pq stop, prepare_query example_query LevelDnssecOk 1232 = Ok pq ∧ pq_managed_opt pq = true ∧
    pq_sent_edns pq = true ∧
    first_question example_query = Ok (mk_question (labels_name [[120]; [121]]) 1 1 stop) ∧
    sent_for example_header [[120]; [121]] 1 1 stop (Some (level_opt LevelDnssecOk 1232))
      (pq_packet pq).
Proof.
  apply (prepare_query_exact example_query example_header [[120]; [121]] 1 1 None LevelDnssecOk 1232);
    [|unfold is_u16; lia|by vm_compute].
  exists example_query, []; split; [done|]; split; [apply example_query_answerable|done].
Defined.

(** C24: a client that sent no OPT record gets none back: the response is cut
    by exactly the OPT record, its additional count one less, every other
    octet as it was, and an extended response code, which the header has no
    room for, turned into SERVFAIL. *)
Theorem response_for_client_exact query response layout sp h :
  packet_ok response → len response ≤ 65535 → validate query false = Ok () →
  scan_packet query = Ok (mk_layout None false) → validate response true = Ok () →
  header_parse response = Ok h → scan_packet response = Ok layout → lay_opt layout = Some sp →
  ∃ o rcode out, inspect_opt response = Ok (Some o) ∧ full_rcode response (Some o) = Ok rcode ∧
    response_for_client query response = Ok out ∧ packet_ok out ∧
    len out = len response - (sp_end sp - sp_start sp) ∧
    header_parse out = Ok (mk_header (h_id h) (client_flags (h_flags h) rcode)
      (h_question_count h) (h_answer_count h) (h_authority_count h) (h_additional_count h - 1)) ∧
    ∀ i, 12 ≤ i → bget out i =
      bget response (if i <? sp_start sp then i else i + (sp_end sp - sp_start sp)).
Proof. apply response_stripped. Qed.

Lemma response_for_client_exact_witness :
  ∃ o rcode out, inspect_opt response_behind_opt = Ok (Some o) ∧
    full_rcode response_behind_opt (Some o) = Ok rcode ∧
    response_for_client query_a response_behind_opt = Ok out ∧ packet_ok out ∧ len out = 63 - 11 ∧
    header_parse out = Ok (mk_header 1 (client_flags 0x8180 rcode) 1 0 0 2) ∧
    ∀ i, 12 ≤ i → bget out i = bget response_behind_opt (if i <? 19 then i else i + 11).
Proof.
  apply (response_for_client_exact query_a response_behind_opt (mk_layout (Some (mk_span 19 30 1232 0 [])) false)
    (mk_span 19 30 1232 0 []) (mk_header 1 0x8180 1 0 0 3));
    [by apply packet_okb_ok|by vm_compute..].
Defined.

(** C25: a server that was probed at lower levels is probed at the best level
    again.  Whatever failures, bad OPT records, missing DO bits, successes,
    downgrades, resets and requests for levels there were, from one maximal grace
    period later on the level used is at most the one asked for, and at least the
    lesser of it and of what was asked for since the last reset: so it is the one
    asked for unless less was asked for before ([best_raised_stays_low] is the
    other case: a level clamped by such a request has no retry time). *)
Theorem feature_level_recovers asked best now s later :
  feature_reach asked now s → now + FEATURE_GRACE_PERIOD_MAX ≤ later →
  let level := (possible_level s best later).1 in
  level_le (level_min best asked) level = true ∧ level_le level best = true ∧
  (level_le best asked = true → level = best).
Proof.
  intros Hr Hl; cbn zeta; pose proof (feature_reach_inv _ _ _ Hr) as Hi.
  destruct (possible_level_due asked best now s later Hi Hl) as [H1 H2].
  split_and!; [done|done|by apply level_between].
Qed.

Lemma feature_level_recovers_witness :
  let s := run_op (OpFailure LevelDnssecOk) 9 (run_op (OpFailure LevelDnssecOk) 8
             (run_op (OpFailure LevelDnssecOk) 7 features_default)) in
  (possible_level s LevelDnssecOk 10).1 = LevelEdns0 ∧
  (possible_level s LevelDnssecOk (9 + FEATURE_GRACE_PERIOD_MAX)).1 = LevelDnssecOk.
Proof.
  cbn zeta; split; [by vm_compute|].
  assert (feature_reach LevelDnssecOk 9 (run_op (OpFailure LevelDnssecOk) 9
    (run_op (OpFailure LevelDnssecOk) 8 (run_op (OpFailure LevelDnssecOk) 7 features_default)))) as Hr.
  { apply (feature_reach_step LevelDnssecOk 8 9 (OpFailure _)); [|lia|done].
    apply (feature_reach_step LevelDnssecOk 7 8 (OpFailure _)); [|lia|done].
    apply (feature_reach_step LevelDnssecOk 0 7 (OpFailure _)); [|lia|done]; apply feature_reach_start. }
  exact (proj2 (proj2 (feature_level_recovers LevelDnssecOk LevelDnssecOk 9 _ _ Hr (Z.le_refl _))) eq_refl).
Defined.
