(* ===== verification/Provenance.v ===== *)
(** * Where a response comes from

    A response reaches a client directly, from the cache, or from a transaction
    another thread led; on the way its OPT record may be removed, its
    identifier replaced and its TTLs aged.  [derived raw p] says that [p] comes
    from [raw] in this way.  A derived response is about the same question, as
    long as the name in the question of [raw] is written out and not a
    compression pointer into the header, which the changes overwrite. *)

From S2P Require Import Prelude Stateful Text Codec Names CodecFacts Packet PacketFacts.
From S2P Require Import Edns EdnsFacts CacheX Cache CacheFacts.

Inductive derived (raw : bytes) : bytes → Prop :=
  | derived_raw : derived raw raw
  | derived_client query p q :
      derived raw p → response_for_client query p = Ok q → derived raw q
  | derived_id p id q :
      derived raw p → is_u16 id → rewrite_id p id = Ok q → derived raw q
  | derived_aged p elapsed stale q :
      derived raw p → 0 ≤ elapsed → age_ttls p elapsed stale = Ok q → derived raw q.

(** ** The OPT record is behind the question *)

Lemma scan_records_start lo n p start index o layout layout' stop :
  packet_ok p → lo ≤ o → scan_records n p start index o layout = Ok (layout', stop) →
  (∀ sp, lay_opt layout = Some sp → lo ≤ sp_start sp) →
  ∀ sp, lay_opt layout' = Some sp → lo ≤ sp_start sp.
Proof.
  intros Hp; revert index o layout; induction n as [|n IH]; intros index o layout Hlo Hs Hlay;
    cbn [scan_records] in Hs; [by apply Ok_inj in Hs as [= <- <-]|].
  apply bind_Ok in Hs as (r & Hr & Hs); apply bind_Ok in Hs as (l1 & Hl1 & Hs).
  apply parse_record_bounds in Hr as Hb; [|done]; unfold record_ok in Hb.
  pose proof (len_nonneg (r_rdata r)).
  eapply IH; [|exact Hs|]; [lia|]; revert Hl1; repeat case_match; try done; intros Hl1; inv_ok.
  - intros sp [= <-]; done.
  - exact Hlay.
  - exact Hlay.
Qed.

Lemma scan_packet_start p h labels t c stop layout sp :
  packet_ok p → header_parse p = Ok h → h_question_count h = 1 → plain_question p labels t c stop →
  scan_packet p = Ok layout → lay_opt layout = Some sp → stop ≤ sp_start sp.
Proof.
  intros Hp Hh Hq Hpl Hs Hsp; apply plain_question_parse in Hpl as [Hpq _]; [|done].
  unfold scan_packet in Hs; rewrite Hh in Hs; cbn [mbind outcome_bind] in Hs; rewrite Hq in Hs.
  change (Z.to_nat 1) with 1%nat in Hs; cbn [parse_questions] in Hs; unfold DNS_HEADER_LEN in Hs.
  rewrite Hpq in Hs; cbn [mbind outcome_bind q_next_offset] in Hs.
  apply bind_Ok in Hs as ([l o] & Hr & Hs); case_match; [done|]; apply Ok_inj in Hs as <-.
  eapply scan_records_start; [done| |exact Hr| |exact Hsp]; done.
Qed.

(** ** The form for a client *)

Lemma response_for_client_cases query p q :
  packet_ok p → len p ≤ 65535 → response_for_client query p = Ok q →
  q = p ∨ ∃ h layout sp flags, header_parse p = Ok h ∧ scan_packet p = Ok layout ∧
    lay_opt layout = Some sp ∧ packet_ok q ∧ len q ≤ len p ∧
    header_parse q = Ok (mk_header (h_id h) flags (h_question_count h) (h_answer_count h)
      (h_authority_count h) (h_additional_count h - 1)) ∧
    ∀ i, 12 ≤ i < sp_start sp → bget q i = bget p i.
Proof.
  intros Hp Hl Hq; pose proof Hq as Hr; unfold response_for_client in Hr.
  apply bind_Ok in Hr as ([] & Hvq & Hr); apply bind_Ok in Hr as ([] & Hvp & Hr).
  apply bind_Ok in Hr as ([qo qt] & Hsq & Hr).
  cbn [lay_has_tsig lay_opt] in Hr.
  destruct (qt || bool_decide (is_Some qo)) eqn:Hc; [left; by apply Ok_inj in Hr|].
  apply orb_false_iff in Hc as [-> Hc%bool_decide_eq_false]; destruct qo; [by destruct Hc|].
  apply bind_Ok in Hr as (layout & Hs & Hr).
  destruct (lay_opt layout) as [sp|] eqn:Hsp; [right|left; by apply Ok_inj in Hr].
  apply validate_iff in Hvp as Hx; [|done]; destruct Hx as (h & qs & rs & Hps & _).
  apply parse_sections_Ok in Hps as (o & Hh & _); [|done].
  destruct (response_stripped query p layout sp h Hp Hl Hvq Hsq Hvp Hh Hs Hsp)
    as (opt & rcode & out & _ & _ & Hout & Hpo & Hlo & Hho & Hag).
  rewrite Hq in Hout; apply Ok_inj in Hout as <-.
  destruct (scan_span_ok _ _ _ _ Hp Hh Hs Hsp) as (_ & Hend & _).
  eexists h, layout, sp, _; split_and!; [done..|lia|exact Hho|].
  intros i Hi; rewrite Hag by lia; by rewrite (proj2 (Z.ltb_lt _ _)) by lia.
Qed.

(** ** Derived responses *)

Section derived.
Context (raw : bytes) (Hraw : packet_ok raw) (Hlen : len raw ≤ 65535).

Lemma rewrite_id_shape p id q :
  packet_ok p → is_u16 id → rewrite_id p id = Ok q →
  packet_ok q ∧ len q = len p ∧ read_u16 q 0 = Ok id ∧ ∀ i, 2 ≤ i → bget q i = bget p i.
Proof.
  intros Hp Hid Hq; assert (2 ≤ len p) as Hl.
  { unfold rewrite_id, write_u16 in Hq; inv_ok.
    match goal with H : splice _ _ _ = Some _ |- _ => apply splice_Some in H as (_ & H & _) end.
    rewrite u16_bytes_len in *; lia. }
  destruct (rewrite_id_spec p id Hp Hl Hid) as (q' & Hq' & ? & ? & ? & ?).
  rewrite Hq in Hq'; apply Ok_inj in Hq' as <-; done.
Qed.

Lemma derived_packet p : derived raw p → packet_ok p ∧ len p ≤ 65535.
Proof.
  induction 1 as [|query p q Hd [Hp Hl] Hq|p id q Hd [Hp Hl] Hid Hq|p e st q Hd [Hp Hl] He Hq]; [done|..].
  - destruct (response_for_client_cases query p q Hp Hl Hq) as [->|(? & ? & ? & ? & H)]; [done|].
    destruct_and!; split; [done|lia].
  - apply rewrite_id_shape in Hq; [|done..]; destruct_and!; split; [done|lia].
  - pose proof Hq as Hs; unfold age_ttls in Hs; apply bind_Ok in Hs as ([[[h qs] rs] stop] & Hs & _).
    destruct (age_ttls_shape p e st _ _ _ _ Hp He Hs) as (q' & Hq' & ? & ? & _).
    rewrite Hq in Hq'; apply Ok_inj in Hq' as <-; split; [done|lia].
Qed.

(** A response with one question, whose name is written out. *)
Definition asked (labels : list bytes) (t c stop : Z) (p : bytes) : Prop :=
  plain_question p labels t c stop ∧ ∃ h, header_parse p = Ok h ∧ h_question_count h = 1.

(** Packets that agree from the question count to the end of the question. *)
Lemma asked_agree p q h h' labels t c stop :
  packet_ok p → packet_ok q → header_parse p = Ok h → header_parse q = Ok h' →
  h_question_count h' = h_question_count h → stop ≤ len q →
  (∀ i, 12 ≤ i < stop → bget q i = bget p i) →
  asked labels t c stop p → asked labels t c stop q.
Proof.
  intros Hp Hq Hh Hh' Hc Hs Hag [Hpl (h0 & Hh0 & Hq1)]; rewrite Hh in Hh0; apply Ok_inj in Hh0 as <-.
  split; [by apply (plain_question_agree p)|exists h'; split; [done|lia]].
Qed.

Lemma asked_client labels t c stop query p q :
  packet_ok p → len p ≤ 65535 → response_for_client query p = Ok q →
  asked labels t c stop p → asked labels t c stop q.
Proof.
  intros Hp Hl Hq Ha; pose proof Ha as [Hpl (h & Hh & Hq1)].
  destruct (response_for_client_cases query p q Hp Hl Hq)
    as [->|(h' & layout & sp & flags & Hh' & Hs & Hsp & Hpq & Hlq & Hhq & Hag)]; [done|].
  pose proof (scan_packet_start _ _ _ _ _ _ _ _ Hp Hh Hq1 Hpl Hs Hsp) as Hst.
  rewrite Hh in Hh'; apply Ok_inj in Hh' as <-.
  eapply asked_agree; [exact Hp|done|exact Hh|exact Hhq|done| |intros; apply Hag; lia|done].
  destruct (decide (stop ≤ len q)) as [|Hn]; [done|exfalso].
  apply plain_question_parse in Hpl as [_ Hb]; [|done].
  specialize (Hag (Z.max 12 (len q)) ltac:(apply header_parse_len in Hhq; lia)).
  apply header_parse_len in Hhq; rewrite Z.max_r in Hag by lia.
  destruct (bget_is_Some p (len q)) as [x Hx]; [lia|].
  rewrite Hx in Hag; apply bget_Some in Hag; lia.
Qed.

Lemma asked_id labels t c stop p id q :
  packet_ok p → is_u16 id → rewrite_id p id = Ok q →
  asked labels t c stop p → asked labels t c stop q.
Proof.
  intros Hp Hid Hq Ha; pose proof Ha as [Hpl (h & Hh & Hq1)].
  destruct (rewrite_id_shape p id q Hp Hid Hq) as (Hpq & Hlq & Hiq & Hag).
  apply plain_question_parse in Hpl as [_ Hb]; [|done].
  destruct (header_parse_total q Hpq) as [h' Hh']; [lia|].
  eapply asked_agree; [exact Hp|done|exact Hh|exact Hh'| |lia|intros; apply Hag; lia|done].
  symmetry; apply (header_agree p q h h'); [split; [lia|]|done|done].
  intros i Hi; symmetry; by apply Hag.
Qed.

Lemma asked_aged labels t c stop p elapsed stale q :
  packet_ok p → 0 ≤ elapsed → age_ttls p elapsed stale = Ok q →
  asked labels t c stop p → asked labels t c stop q.
Proof.
  intros Hp He Hq Ha; pose proof Ha as [Hpl (h & Hh & Hq1)].
  pose proof Hq as Hs; unfold age_ttls in Hs; apply bind_Ok in Hs as ([[[h1 qs] rs] o] & Hs & _).
  destruct (age_ttls_shape p elapsed stale _ _ _ _ Hp He Hs) as (q' & Hq' & Hpq & Hlq & Hhq & Hag & _).
  rewrite Hq in Hq'; apply Ok_inj in Hq' as <-.
  apply parse_sections_Ok in Hs as (o1 & Hh1 & _ & Hqs & Ho1 & Hrs & _); [|done].
  rewrite Hh in Hh1; apply Ok_inj in Hh1 as <-.
  apply plain_question_parse in Hpl as [Hpq1 Hb]; [|done].
  eapply asked_agree; [exact Hp|done|exact Hh|exact Hhq|done|lia| |done].
  rewrite Hq1 in Hqs; change (Z.to_nat 1) with 1%nat in Hqs; cbn [parse_questions] in Hqs.
  unfold DNS_HEADER_LEN in Hqs; rewrite Hpq1 in Hqs; cbn in Hqs; apply Ok_inj in Hqs as [= <- <-].
  intros i Hi; apply Hag; intros Hbad; pose proof (in_aged_ttl_ge _ _ _ _ _ Hrs Hbad); lia.
Qed.

(** The question of a derived response is that of the response it comes from. *)
Lemma derived_asked labels t c stop p :
  asked labels t c stop raw → derived raw p → asked labels t c stop p.
Proof using All.
  intros Ha Hd; induction Hd as [|query p q Hd IH Hq|p id q Hd IH Hid Hq|p e st q Hd IH He Hq];
    [done|destruct (derived_packet p Hd)..].
  - by eapply asked_client.
  - by eapply asked_id.
  - by eapply asked_aged.
Qed.
End derived.
