(* ===== verification/Transport.v ===== *)
(** * Transports

    Models [src/transport.rs] (whether a server is asked over UDP or TCP, and
    what is remembered of both), the TLS capability of a server in
    [src/tls.rs], and the size of UDP payload advertised to a server, which
    [src/native.rs] computes in [ffi/native.c]. *)

From S2P Require Import Prelude Edns.

Definition TRANSPORT_RETRY_ATTEMPTS : Z := 3.

Inductive TransportMode : Type := ModeUdp | ModeTcp.
#[global] Instance TransportMode_eq_dec : EqDecision TransportMode.
Proof. solve_decision. Defined.

Record ServerTransportState : Type := mk_transport {
  t_mode : TransportMode;
  t_failed_udp : Z;
  t_failed_tcp : Z;
  t_packet_truncated : bool;
  t_packet_fragmented : bool;
  t_received_udp_fragment_max : Z;
}.

Definition transport_default : ServerTransportState := mk_transport ModeUdp 0 0 false false 512.

Definition failures (s : ServerTransportState) (mode : TransportMode) : Z :=
  match mode with ModeUdp => t_failed_udp s | ModeTcp => t_failed_tcp s end.

Definition set_failures (s : ServerTransportState) (mode : TransportMode) (n : Z) :
    ServerTransportState :=
  match mode with
  | ModeUdp => { s with t_failed_udp := n }
  | ModeTcp => { s with t_failed_tcp := n }
  end.

Definition transport_record_success (s : ServerTransportState) (mode : TransportMode) :
    ServerTransportState :=
  set_failures s mode 0.

Definition clear_failures (s : ServerTransportState) : ServerTransportState :=
  { s with t_failed_udp := 0; t_failed_tcp := 0 }.

Definition transport_record_failure (s : ServerTransportState) (mode : TransportMode) :
    option TransportMode * ServerTransportState :=
  let s := set_failures s mode (saturating_add 255 (failures s mode) 1) in
  if (failures s mode <? TRANSPORT_RETRY_ATTEMPTS) || negb (bool_decide (mode = t_mode s))
  then (None, s)
  else
    let other := match mode with ModeUdp => ModeTcp | ModeTcp => ModeUdp end in
    let s := clear_failures { s with t_mode := other } in
    (Some (t_mode s), s).

Definition record_truncated (s : ServerTransportState) : ServerTransportState :=
  { s with t_packet_truncated := true }.

Definition transport_record_udp_packet (s : ServerTransportState) (dns_size fragment_size : Z)
    (ipv6 : bool) : ServerTransportState :=
  let header_size := if ipv6 then 48 else 28 in
  let s' := if fragment_size =? 0 then s else { s with t_packet_fragmented := true } in
  let unfragmented_size :=
    if fragment_size =? 0
    then (if dns_size <=? 2 ^ 32 - 1 then dns_size else 2 ^ 32 - 1)
    else saturating_sub fragment_size header_size in
  { s' with t_received_udp_fragment_max :=
              Z.max (t_received_udp_fragment_max s') unfragmented_size }.

Definition transport_reset (s : ServerTransportState) : ServerTransportState := transport_default.

(** ** TLS *)

Definition TLS_FEATURE_GRACE_PERIOD_MIN : Z := 5 * 60 * second.
Definition TLS_FEATURE_GRACE_PERIOD_MAX : Z := 6 * 60 * 60 * second.

Record TlsCapability : Type := mk_tls {
  tls_can : bool;
  tls_verified : bool;
  tls_retry_after : option Z;
  tls_grace_period : Z;
}.

Definition tls_default : TlsCapability := mk_tls true false None TLS_FEATURE_GRACE_PERIOD_MIN.

Definition tls_possible (s : TlsCapability) (strict : bool) (now : Z) : bool * TlsCapability :=
  if strict then (true, s)
  else
    let retry_due := match tls_retry_after s with Some t => t <=? now | None => false end in
    let s :=
      if negb (tls_can s) && retry_due
      then { s with tls_can := true; tls_retry_after := None;
                    tls_grace_period := Z.min (Z.min (tls_grace_period s * 2) duration_max)
                                          TLS_FEATURE_GRACE_PERIOD_MAX }
      else s in
    (tls_can s, s).

Definition tls_record_success (s : TlsCapability) : TlsCapability :=
  { s with tls_can := true; tls_verified := true; tls_retry_after := None }.

Definition tls_record_failure (s : TlsCapability) (strict : bool) (now : Z) : TlsCapability :=
  if strict then s
  else { s with tls_can := false; tls_retry_after := instant_checked_add now (tls_grace_period s) }.

(** ** The UDP payload size *)

Definition UDP4_PACKET_HEADER_SIZE : Z := 28.
Definition UDP6_PACKET_HEADER_SIZE : Z := 48.
Definition DNS_PACKET_UNICAST_SIZE_MAX : Z := 512.
Definition DNS_PACKET_UNICAST_SIZE_LARGE_MAX : Z := 1232.
Definition DNS_PACKET_INTERNET_SIZE_MAX : Z := 4096.
Definition DNS_PACKET_SIZE_MAX : Z := 65535.

(** The C function. *)
Definition resolved_dns_udp_payload_size (path_mtu : Z) (ipv6 loopback fragmented : bool)
    (received_udp_fragment_max : Z) : Z :=
  let header_size := if ipv6 then UDP6_PACKET_HEADER_SIZE else UDP4_PACKET_HEADER_SIZE in
  let packet_size :=
    if loopback then 65536 - header_size
    else
      let size :=
        if path_mtu =? 0 then DNS_PACKET_UNICAST_SIZE_LARGE_MAX
        else if header_size <? path_mtu then path_mtu - header_size
        else 0 in
      let size :=
        if fragmented && (0 <? received_udp_fragment_max) && (received_udp_fragment_max <? size)
        then received_udp_fragment_max else size in
      if DNS_PACKET_INTERNET_SIZE_MAX <? size then DNS_PACKET_INTERNET_SIZE_MAX else size in
  let packet_size :=
    if packet_size <? DNS_PACKET_UNICAST_SIZE_MAX then DNS_PACKET_UNICAST_SIZE_MAX
    else packet_size in
  if DNS_PACKET_SIZE_MAX <? packet_size then DNS_PACKET_SIZE_MAX else packet_size.

Definition dns_udp_payload_size (path_mtu : option Z) (ipv6 loopback fragmented : bool)
    (received_udp_fragment_max : Z) : Z :=
  resolved_dns_udp_payload_size (default 0 path_mtu) ipv6 loopback fragmented
    received_udp_fragment_max.
