(* ===== verification/Float.v ===== *)
(** * Floating-point numbers and durations

    An [f64] is a binary64 number of the Standard Library's [SpecFloat], whose
    operations are the IEEE 754 ones with rounding to nearest, so that the
    model computes what the code computes.  The file has the operations of
    [f64] and of [Duration] the source uses, and the parsing of decimal
    numbers. *)

From S2P Require Import Prelude Text.
From Stdlib Require Import SpecFloat.

(** ** Binary64 *)

Definition f64 : Type := spec_float.
Definition f64_of_Z (z : Z) : f64 := binary_normalize 53 1024 z 0 false.
Definition f64_add : f64 → f64 → f64 := SFadd 53 1024.
Definition f64_sub : f64 → f64 → f64 := SFsub 53 1024.
Definition f64_mul : f64 → f64 → f64 := SFmul 53 1024.
Definition f64_div : f64 → f64 → f64 := SFdiv 53 1024.

(** A decimal literal [n / d]. *)
Definition f64_lit (n d : Z) : f64 := f64_div (f64_of_Z n) (f64_of_Z d).

Definition is_nan (x : f64) : bool := match x with S754_nan => true | _ => false end.

(** [f64::max], [f64::min] and [f64::clamp]. *)
Definition f64_max (x y : f64) : f64 :=
  if is_nan x then y else if is_nan y then x else if SFltb x y then y else x.
Definition f64_min (x y : f64) : f64 :=
  if is_nan x then y else if is_nan y then x else if SFltb y x then y else x.
Definition f64_clamp (x low high : f64) : f64 :=
  if SFltb x low then low else if SFltb high x then high else x.

(** [x.mul_add(a, b)]: the product is not rounded. *)
Definition f64_mul_add (x a b : f64) : f64 :=
  match x, a, b with
  | S754_finite sx mx ex, S754_finite sa ma ea, S754_finite sb mb eb =>
      let m := cond_Zopp (xorb sx sa) (Z.pos (mx * ma)) in
      let e := Z.min (ex + ea) eb in
      binary_normalize 53 1024
        (m * 2 ^ (ex + ea - e) + cond_Zopp sb (Z.pos mb) * 2 ^ (eb - e)) e false
  | _, _, _ => f64_add (f64_mul x a) b
  end.

(** [Duration::as_secs_f64] of a duration in nanoseconds. *)
Definition as_secs_f64 (d : Z) : f64 :=
  f64_add (f64_of_Z (d / second)) (f64_div (f64_of_Z (d mod second)) (f64_of_Z second)).

(** [n / d] rounded to the nearest integer, ties to even. *)
Definition round_half_even (n d : Z) : Z :=
  let q := n / d in
  let r := n mod d in
  if 2 * r <? d then q
  else if d <? 2 * r then q + 1
  else if Z.even q then q else q + 1.

(** [Duration::try_from_secs_f64], in nanoseconds. *)
Definition try_from_secs_f64 (x : f64) : option Z :=
  match x with
  | S754_zero _ => Some 0
  | S754_infinity _ | S754_nan | S754_finite true _ _ => None
  | S754_finite false m e =>
      let ns :=
        if 0 <=? e then Z.pos m * 2 ^ e * second
        else round_half_even (Z.pos m * second) (2 ^ (- e)) in
      if ns / second <? 2 ^ 64 then Some ns else None
  end.

(** ** [str::parse::<f64>] *)

(** The decimal digits at the start: their value, their number, the rest. *)
Fixpoint take_digits (s : str) (v count : Z) : Z * Z * str :=
  match s with
  | c :: s' => if is_digit c then take_digits s' (v * 10 + (c - 48)) (count + 1)
               else (v, count, s)
  | [] => (v, count, s)
  end.

Definition take_sign (s : str) : bool * str :=
  match s with
  | c :: s' => if c =? 45 then (true, s') else if c =? 43 then (false, s') else (false, s)
  | [] => (false, s)
  end.

(** [m * 10^e], rounded. *)
Definition f64_decimal (neg : bool) (m e : Z) : f64 :=
  match m with
  | Z.pos p =>
      if 0 <=? e then binary_round 53 1024 neg (Z.to_pos (Z.pos p * 10 ^ e)) 0
      else
        match 10 ^ (- e) with
        | Z.pos d =>
            let '(q, e', l) := SFdiv_core_binary 53 1024 (Z.pos p) 0 (Z.pos d) 0 in
            binary_round_aux 53 1024 neg q e' l
        | _ => S754_nan
        end
  | _ => S754_zero neg
  end.

(** The exponent after ['e'], or none. *)
Definition take_exponent (s : str) : option Z :=
  match s with
  | [] => Some 0
  | c :: s' =>
      if (c =? 101) || (c =? 69) then
        let '(neg, s') := take_sign s' in
        let '(v, count, rest) := take_digits s' 0 0 in
        if (0 <? count) && bool_decide (rest = []) then Some (if neg then - v else v) else None
      else None
  end.

Definition parse_f64 (s : str) : option f64 :=
  let '(neg, t) := take_sign s in
  if eq_ignore_ascii_case t (lit "nan") then Some S754_nan
  else if eq_ignore_ascii_case t (lit "inf") || eq_ignore_ascii_case t (lit "infinity")
  then Some (S754_infinity neg)
  else
    let '(v, count, rest) := take_digits t 0 0 in
    let '(v, count', places, rest) :=
      match rest with
      | c :: rest' =>
          if c =? dot then
            let '(v, n, rest') := take_digits rest' v 0 in (v, count + n, n, rest')
          else (v, count, 0, rest)
      | [] => (v, count, 0, rest)
      end in
    if count' =? 0 then None
    else e ← take_exponent rest; Some (f64_decimal neg v (e - places)).
