(* ===== verification/Policy.v ===== *)
(** * Server policy

    Models [src/policy.rs]: the cost of a server from its round-trip time and
    failures, and the choice of the cheapest one. *)

From S2P Require Import Prelude Float.
From Stdlib Require Import SpecFloat.

(** ** Metrics *)

Record ServerMetric : Type := mk_metric {
  round_trip_ms : f64;
  m_failures : Z;
  feature_level : Z;
  cooldown_ms : Z;
}.

Definition metric_default : ServerMetric := mk_metric (f64_of_Z 100) 0 0 0.

Definition score (metric : ServerMetric) : f64 :=
  f64_sub
    (f64_add
      (f64_add (f64_of_Z (Z.max (cooldown_ms metric) 0))
               (f64_clamp (round_trip_ms metric) (f64_of_Z 1) (f64_of_Z 60000)))
      (f64_mul (f64_of_Z (Z.max (m_failures metric) 0)) (f64_of_Z 250)))
    (f64_mul (f64_of_Z (Z.max (feature_level metric) 0)) (f64_of_Z 5)).

(** [Iterator::min_by] keeps the first of equal elements; the comparison of
    unordered scores is [Equal]. *)
Fixpoint min_score (best : nat * f64) (rest : list (nat * f64)) : nat * f64 :=
  match rest with
  | [] => best
  | x :: rest => min_score (if SFltb x.2 best.2 then x else best) rest
  end.

Definition choose_server (metrics : list ServerMetric) : option nat :=
  match imap (λ i m, (i, score m)) metrics with
  | [] => None
  | best :: rest => Some (min_score best rest).1
  end.

Definition update_rtt (previous sample : f64) (succeeded : bool) : f64 :=
  let sample := f64_clamp sample (f64_of_Z 1) (f64_of_Z 60000) in
  if SFleb previous (f64_of_Z 0) then sample
  else if succeeded
  then f64_mul_add previous (f64_lit 8 10) (f64_mul sample (f64_lit 2 10))
  else f64_min (f64_max (f64_mul previous (f64_lit 15 10)) sample) (f64_of_Z 60000).

(** ** The choice *)

Lemma min_score_elem (best : nat * f64) rest : min_score best rest ∈ best :: rest.
Proof.
  revert best; induction rest as [|x rest IH]; intros best; cbn [min_score]; [by left|].
  specialize (IH (if SFltb x.2 best.2 then x else best)).
  apply elem_of_cons in IH as [->|]; [case_match|]; by repeat (left; done) || right.
Qed.

Lemma choose_server_bound metrics i :
  choose_server metrics = Some i → (i < length metrics)%nat.
Proof.
  unfold choose_server; destruct metrics as [|m metrics]; [done|].
  cbn [imap]; intros [= <-].
  pose proof (min_score_elem (0%nat, score m) (imap ((λ i m, (i, score m)) ∘ S) metrics)) as Hin.
  apply elem_of_cons in Hin as [->|Hin]; [cbn; lia|].
  apply elem_of_lookup_imap in Hin as (j & x & -> & Hj); cbn.
  apply lookup_lt_Some in Hj; lia.
Qed.

Lemma choose_server_None metrics : choose_server metrics = None ↔ metrics = [].
Proof. unfold choose_server; by destruct metrics. Qed.

(** The order of scores is total on numbers: compare sign, exponent, mantissa. *)
Lemma SFltb_trans x y z : SFltb x y = true → SFltb y z = true → SFltb x z = true.
Proof.
  unfold SFltb, SFcompare.
  destruct x as [[]|[]| |[] mx ex], y as [[]|[]| |[] my ey], z as [[]|[]| |[] mz ez]; try done;
    change (Pos.compare_cont Eq) with Pos.compare;
    destruct (Z.compare_spec ex ey), (Z.compare_spec ey ez), (Z.compare_spec ex ez); try lia;
    try done; try (subst; destruct (Pos.compare_spec mx my), (Pos.compare_spec my mz),
      (Pos.compare_spec mx mz); cbn; done || lia).
Qed.

Lemma SFltb_irrefl x : SFltb x x = false.
Proof.
  destruct x as [[]|[]| |[] m e]; try done; unfold SFltb, SFcompare; rewrite Z.compare_refl;
    change (Pos.compare_cont Eq) with Pos.compare; by rewrite Pos.compare_refl.
Qed.

Lemma SFltb_split x y z :
  SFltb x z = true → is_nan y = false → SFltb x y = true ∨ SFltb y z = true.
Proof.
  unfold SFltb, SFcompare.
  destruct x as [[]|[]| |[] mx ex], y as [[]|[]| |[] my ey], z as [[]|[]| |[] mz ez]; try done;
    try (by left); try (by right);
    change (Pos.compare_cont Eq) with Pos.compare;
    destruct (Z.compare_spec ex ey), (Z.compare_spec ey ez), (Z.compare_spec ex ez); try lia;
    try (by left); try (by right); try done;
    subst; destruct (Pos.compare_spec mx my), (Pos.compare_spec my mz),
      (Pos.compare_spec mx mz); cbn; try (by left); try (by right); done || lia.
Qed.

Lemma min_score_nan (best : nat * f64) rest : is_nan best.2 = true → min_score best rest = best.
Proof.
  intros Hn; induction rest as [|x rest IH]; [done|]; cbn [min_score].
  assert (SFltb x.2 best.2 = false) as ->; [|done].
  destruct best as [i [| | |]]; try discriminate Hn; by destruct x as [j [| | |]].
Qed.

Lemma min_score_le (best : nat * f64) rest : SFltb best.2 (min_score best rest).2 = false.
Proof.
  revert best; induction rest as [|x rest IH]; intros best; cbn [min_score]; [apply SFltb_irrefl|].
  destruct (SFltb x.2 best.2) eqn:E; [|apply IH].
  destruct (SFltb best.2 (min_score x rest).2) eqn:F; [|done].
  pose proof (SFltb_trans _ _ _ E F) as G; by rewrite IH in G.
Qed.

(** No server is strictly cheaper than the chosen one. *)
Lemma min_score_least (best : nat * f64) rest x :
  x ∈ best :: rest → SFltb x.2 (min_score best rest).2 = false.
Proof.
  revert best; induction rest as [|z rest IH]; intros best Hx.
  - apply list_elem_of_singleton in Hx as ->; apply SFltb_irrefl.
  - apply elem_of_cons in Hx as [->|Hx]; [apply min_score_le|]; cbn [min_score].
    destruct (SFltb z.2 best.2) eqn:E; [by apply IH|].
    apply elem_of_cons in Hx as [->|Hx]; [|apply IH; by right].
    destruct (SFltb z.2 (min_score best rest).2) eqn:F; [|done].
    destruct (is_nan best.2) eqn:Hn; [by rewrite min_score_nan, E in F|].
    destruct (SFltb_split _ best.2 _ F Hn); [congruence|].
    by pose proof (min_score_le best rest); congruence.
Qed.
