(* ===== verification/Config.v ===== *)
(** * Configuration

    Models [src/config_server_spec.rs], [src/config_record_types.rs],
    [src/config_helpers.rs] and [src/config_impl.rs]: the parsers of settings,
    the settings of a file, validation, drop-ins, credentials and
    [resolv.conf].  Files and directories are arguments. *)

From S2P Require Import Prelude Stateful Text Float Net Sorting ConfigTypes.
From Stdlib Require Import SpecFloat.

Abbreviation cst := (st Config ConfigError).

(** ** Server specifications *)

Definition hash_char : Z := 35.
Definition percent : Z := 37.
Definition tilde : Z := 126.

Definition valid_interface (value : str) : bool :=
  negb (bool_decide (value = [])) && is_ascii value && negb (existsb is_whitespace value)
  && negb (contains_char percent value) && negb (contains_char hash_char value).

Definition valid_server_name (value : str) : bool :=
  let value := default value (strip_suffix value [dot]) in
  negb (bool_decide (value = [])) && is_ascii value && (str_len value <=? 253)
  && negb (contains_char percent value) && negb (contains_char hash_char value)
  && forallb (λ label, negb (bool_decide (label = [])) && (str_len label <=? 63))
       (split_on dot value).

(** [Some((head, tail)) if valid(tail)], [Some(_)] an error, [None]. *)
Definition split_metadata (c : Z) (valid : str → bool) (s : str) : option (str * option str) :=
  match split_once c s with
  | Some (head, tail) => if valid tail then Some (head, Some tail) else None
  | None => Some (s, None)
  end.

Definition parse_server_spec (value : str) : cres DnsServerSpec :=
  let original := trim value in
  if bool_decide (original = []) then Err (InvalidServer value)
  else
    '(address_and_interface, server_name) ←
      ok_or (split_metadata hash_char valid_server_name original) (InvalidServer value);
    '(address, interface) ←
      ok_or (split_metadata percent valid_interface address_and_interface) (InvalidServer value);
    if contains_char hash_char address || contains_char percent address
    then Err (InvalidServer value)
    else
      address ← ok_or (parse_address_port address) (InvalidServer value);
      Ok (mk_spec address interface server_name).

Definition parse_server (value : str) : cres SocketAddr :=
  spec ← parse_server_spec value; Ok (address spec).

(** The state is the addresses and the specifications. *)
Definition apply_server_spec_assignment (value : str) :
    st (list SocketAddr * list DnsServerSpec) ConfigError unit :=
  if bool_decide (value = []) then put ([], [])
  else for_each (split_whitespace value) (λ token,
    spec ← lift (parse_server_spec token);
    modify (λ '(addresses, specs), (push_new addresses (address spec), push_new specs spec))).

Definition is_local_stub (server : SocketAddr) : bool :=
  match sock_ip server with
  | V4 a => bool_decide (a = [127; 0; 0; 53]) || bool_decide (a = [127; 0; 0; 54])
  | V6 a => bool_decide (a = ipv6_loopback)
  end.

Definition filtered_servers (servers : list SocketAddr) : list SocketAddr :=
  foldl (λ output server, if is_local_stub server then output else push_new output server)
    [] servers.

(** The specifications of an address, or the address alone. *)
Definition push_specs (specs : list DnsServerSpec) (output : list DnsServerSpec)
    (a : SocketAddr) : list DnsServerSpec :=
  match filter (λ spec, address spec = a) specs with
  | [] => output ++ [plain_spec a]
  | matched => foldl push_new output matched
  end.

Definition filtered_server_specs (addresses : list SocketAddr) (specs : list DnsServerSpec) :
    list DnsServerSpec :=
  foldl (push_specs specs) [] (filtered_servers addresses).

(** ** Record types *)

Definition record_type_names : list (string * Z) :=
  [("A", 1); ("NS", 2); ("MD", 3); ("MF", 4); ("CNAME", 5); ("SOA", 6); ("MB", 7); ("MG", 8);
    ("MR", 9); ("NULL", 10); ("WKS", 11); ("PTR", 12); ("HINFO", 13); ("MINFO", 14); ("MX", 15);
    ("TXT", 16); ("RP", 17); ("AFSDB", 18); ("X25", 19); ("ISDN", 20); ("RT", 21); ("NSAP", 22);
    ("NSAP-PTR", 23); ("SIG", 24); ("KEY", 25); ("PX", 26); ("GPOS", 27); ("AAAA", 28);
    ("LOC", 29); ("NXT", 30); ("EID", 31); ("NIMLOC", 32); ("SRV", 33); ("ATMA", 34);
    ("NAPTR", 35); ("KX", 36); ("CERT", 37); ("A6", 38); ("DNAME", 39); ("SINK", 40);
    ("OPT", 41); ("APL", 42); ("DS", 43); ("SSHFP", 44); ("IPSECKEY", 45); ("RRSIG", 46);
    ("NSEC", 47); ("DNSKEY", 48); ("DHCID", 49); ("NSEC3", 50); ("NSEC3PARAM", 51); ("TLSA", 52);
    ("SMIMEA", 53); ("HIP", 55); ("NINFO", 56); ("RKEY", 57); ("TALINK", 58); ("CDS", 59);
    ("CDNSKEY", 60); ("OPENPGPKEY", 61); ("CSYNC", 62); ("ZONEMD", 63); ("SVCB", 64);
    ("HTTPS", 65); ("SPF", 99); ("UINFO", 100); ("UID", 101); ("GID", 102); ("UNSPEC", 103);
    ("NID", 104); ("L32", 105); ("L64", 106); ("LP", 107); ("EUI48", 108); ("EUI64", 109);
    ("TKEY", 249); ("TSIG", 250); ("IXFR", 251); ("AXFR", 252); ("MAILB", 253); ("MAILA", 254);
    ("ANY", 255); ("URI", 256); ("CAA", 257); ("AVC", 258); ("DOA", 259); ("AMTRELAY", 260);
    ("RESINFO", 261); ("TA", 32768); ("DLV", 32769)].

Definition dns_record_type_from_string (value : str) : cres (option Z) :=
  let by_name := match_str value record_type_names in
  if 4 <? str_len value then
    '(head, tail) ← or_panic (split_at_byte 4 value);
    if eq_ignore_ascii_case head (lit "TYPE") then Ok (parse_unsigned 65535 tail)
    else Ok by_name
  else Ok by_name.

Definition apply_refuse_record_types (value : str) : st (gset Z) ConfigError unit :=
  if bool_decide (value = []) then put ∅
  else for_each (split_whitespace value) (λ token,
    rr_type ← lift (dns_record_type_from_string token);
    match rr_type with
    | Some rr_type => modify (λ types, {[ rr_type ]} ∪ types)
    | None => mret ()
    end).

(** ** Values *)

Definition apply_domain_assignment (value : str) : st (list Domain) ConfigError unit :=
  if bool_decide (value = []) then put []
  else for_each (split_whitespace value) (λ token,
    let route_only := starts_with token [tilde] in
    let name := trim_end_matches dot (trim_start_matches tilde token) in
    let name := if bool_decide (name = []) then lit "." else name in
    if negb (is_ascii name) || existsb (λ label, 63 <? str_len label) (split_on dot name)
    then fail (InvalidValue token)
    else modify (λ ds, push_new ds (mk_domain (to_ascii_lowercase name) route_only))).

Definition parse_bool (value : str) : cres bool :=
  ok_or (match_str (to_ascii_lowercase (trim value))
    [("yes", true); ("true", true); ("on", true); ("1", true);
     ("no", false); ("false", false); ("off", false); ("0", false)]) (InvalidValue value).

Definition parse_cache_size (value : str) : cres Z :=
  ok_or (parse_unsigned usize_max (trim value)) (InvalidValue value).

Definition parse_cache_mode (value : str) : cres (bool * bool) :=
  ok_or (match_str (to_ascii_lowercase (trim value))
    [("yes", (true, true)); ("true", (true, true)); ("on", (true, true)); ("1", (true, true));
     ("no-negative", (true, false));
     ("no", (false, false)); ("false", (false, false)); ("off", (false, false));
     ("0", (false, false))]) (InvalidValue value).

(** The units of [parse_duration], in the order they are tried. *)
Definition duration_units : list (string * f64) :=
  [("ms", f64_lit 1 1000); ("min", f64_of_Z 60); ("h", f64_of_Z 3600); ("d", f64_of_Z 86400);
   ("s", f64_of_Z 1)].

Fixpoint strip_unit (value : str) (units : list (string * f64)) : str * f64 :=
  match units with
  | [] => (value, f64_of_Z 1)
  | (suffix, multiplier) :: units =>
      match strip_suffix value (lit suffix) with
      | Some number => (number, multiplier)
      | None => strip_unit value units
      end
  end.

Definition is_finite (x : f64) : bool :=
  match x with S754_zero _ | S754_finite _ _ _ => true | _ => false end.

Definition parse_duration (value : str) : cres Z :=
  let value := trim value in
  let '(number, multiplier) := strip_unit value duration_units in
  number ← ok_or (parse_f64 (trim number)) (InvalidValue value);
  if negb (is_finite number) || SFltb number (f64_of_Z 0) then Err (InvalidValue value)
  else ok_or (try_from_secs_f64 (f64_mul number multiplier)) (InvalidValue value).

(** ** Settings *)

Definition set_servers (value : str) : cst unit :=
  zoom (λ c, (upstreams c, upstream_specs c))
    (λ c p, { c with upstreams := p.1; upstream_specs := p.2 })
    (apply_server_spec_assignment value).

Definition set_fallback_servers (value : str) : cst unit :=
  zoom (λ c, (fallback_upstreams c, fallback_upstream_specs c))
    (λ c p, { c with fallback_upstreams := p.1; fallback_upstream_specs := p.2 })
    (apply_server_spec_assignment value).

Definition set_search_domains (value : str) : cst unit :=
  zoom domains (λ c d, { c with domains := d }) (apply_domain_assignment value).

(** [self.field = parse(value)?]. *)
Definition assign {A} (r : cres A) (update : A → Config → Config) : cst unit :=
  a ← lift r; modify (update a).

Inductive setting : Type :=
  | KeyDNS | KeyFallbackDNS | KeyDomains | KeyRefuseRecordTypes | KeyCache | KeyCacheFromLocalhost
  | KeyDNSCacheSize | KeyLLMNRCacheSize | KeyMulticastDNSCacheSize | KeyCacheMaxTTL
  | KeyStaleRetentionSec | KeyQueryTimeoutSec | KeyAttempts | KeyWorkers | KeyLLMNR
  | KeyMulticastDNS | KeyDNSSEC | KeyDNSOverTLS | KeyReadEtcHosts | KeyReadStaticRecords
  | KeyResolveUnicastSingleLabel | KeyDNSStubListener | KeyDNSStubListenerExtra.

Definition setting_names : list (string * setting) :=
  [("DNS", KeyDNS); ("FallbackDNS", KeyFallbackDNS); ("Domains", KeyDomains);
   ("RefuseRecordTypes", KeyRefuseRecordTypes); ("Cache", KeyCache);
   ("CacheFromLocalhost", KeyCacheFromLocalhost); ("DNSCacheSize", KeyDNSCacheSize);
   ("LLMNRCacheSize", KeyLLMNRCacheSize); ("MulticastDNSCacheSize", KeyMulticastDNSCacheSize);
   ("CacheMaxTTL", KeyCacheMaxTTL); ("CacheMaxTTLSec", KeyCacheMaxTTL);
   ("StaleRetentionSec", KeyStaleRetentionSec); ("QueryTimeoutSec", KeyQueryTimeoutSec);
   ("Attempts", KeyAttempts); ("Workers", KeyWorkers); ("LLMNR", KeyLLMNR);
   ("MulticastDNS", KeyMulticastDNS); ("DNSSEC", KeyDNSSEC); ("DNSOverTLS", KeyDNSOverTLS);
   ("ReadEtcHosts", KeyReadEtcHosts); ("ReadStaticRecords", KeyReadStaticRecords);
   ("ResolveUnicastSingleLabel", KeyResolveUnicastSingleLabel);
   ("DNSStubListener", KeyDNSStubListener); ("DNSStubListenerExtra", KeyDNSStubListenerExtra)].

Definition apply_setting (key value : str) : cst unit :=
  match match_str key setting_names with
  | Some KeyDNS => set_servers value
  | Some KeyFallbackDNS => set_fallback_servers value
  | Some KeyDomains => set_search_domains value
  | Some KeyRefuseRecordTypes =>
      zoom refuse_record_types (λ c t, { c with refuse_record_types := t })
        (apply_refuse_record_types value)
  | Some KeyCache =>
      assign (parse_cache_mode value) (λ p c, { c with cache := p.1; cache_negative := p.2 })
  | Some KeyCacheFromLocalhost =>
      assign (parse_bool value) (λ b c, { c with cache_from_localhost := b })
  | Some KeyDNSCacheSize =>
      assign (parse_cache_size value) (λ n c, { c with cache_size := n })
  | Some KeyLLMNRCacheSize =>
      assign (parse_cache_size value) (λ n c, { c with llmnr_cache_size := n })
  | Some KeyMulticastDNSCacheSize =>
      assign (parse_cache_size value) (λ n c, { c with multicast_dns_cache_size := n })
  | Some KeyCacheMaxTTL =>
      assign (parse_duration value) (λ d c, { c with cache_max_ttl := d })
  | Some KeyStaleRetentionSec =>
      assign (parse_duration value) (λ d c, { c with stale_retention := d })
  | Some KeyQueryTimeoutSec =>
      assign (parse_duration value) (λ d c, { c with query_timeout := d })
  | Some KeyAttempts =>
      assign (ok_or (parse_unsigned usize_max value) (InvalidValue value))
        (λ n c, { c with attempts := n })
  | Some KeyWorkers =>
      assign (ok_or (parse_unsigned usize_max value) (InvalidValue value))
        (λ n c, { c with workers := n })
  | Some KeyLLMNR => assign (support_mode_parse value) (λ m c, { c with llmnr := m })
  | Some KeyMulticastDNS =>
      assign (support_mode_parse value) (λ m c, { c with multicast_dns := m })
  | Some KeyDNSSEC => assign (validation_mode_parse value) (λ m c, { c with dnssec := m })
  | Some KeyDNSOverTLS => assign (tls_mode_parse value) (λ m c, { c with dns_over_tls := m })
  | Some KeyReadEtcHosts => assign (parse_bool value) (λ b c, { c with read_etc_hosts := b })
  | Some KeyReadStaticRecords =>
      assign (parse_bool value) (λ b c, { c with read_static_records := b })
  | Some KeyResolveUnicastSingleLabel =>
      assign (parse_bool value) (λ b c, { c with resolve_unicast_single_label := b })
  | Some KeyDNSStubListener =>
      assign (stub_mode_parse value) (λ m c, { c with dns_stub_listener := m })
  | Some KeyDNSStubListenerExtra =>
      if bool_decide (value = [])
      then modify (λ c, { c with dns_stub_listener_extra := [] })
      else assign (stub_extra_parse value)
             (λ l c, { c with dns_stub_listener_extra := push_new (dns_stub_listener_extra c) l })
  | None => mret ()
  end.

Definition configured_upstreams (c : Config) : list SocketAddr := filtered_servers (upstreams c).
Definition configured_upstream_specs (c : Config) : list DnsServerSpec :=
  filtered_server_specs (upstreams c) (upstream_specs c).
Definition configured_fallback_upstreams (c : Config) : list SocketAddr :=
  filtered_servers (fallback_upstreams c).
Definition configured_fallback_upstream_specs (c : Config) : list DnsServerSpec :=
  filtered_server_specs (fallback_upstreams c) (fallback_upstream_specs c).

Definition effective_upstreams (c : Config) : list SocketAddr :=
  match configured_upstreams c with [] => configured_fallback_upstreams c | l => l end.
Definition effective_upstream_specs (c : Config) : list DnsServerSpec :=
  match configured_upstream_specs c with [] => configured_fallback_upstream_specs c | l => l end.

Definition config_validate (c : Config) : cres unit :=
  if (attempts c =? 0) || (32 <? attempts c)
  then Err (InvalidValue (lit "Attempts must be between 1 and 32"))
  else if (workers c =? 0) || (4096 <? workers c)
  then Err (InvalidValue (lit "Workers must be between 1 and 4096"))
  else if 2 ^ 24 <? cache_size c
  then Err (InvalidValue (lit "DNSCacheSize must not exceed 16777216"))
  else if 2 ^ 24 <? llmnr_cache_size c
  then Err (InvalidValue (lit "LLMNRCacheSize must not exceed 16777216"))
  else if 2 ^ 24 <? multicast_dns_cache_size c
  then Err (InvalidValue (lit "MulticastDNSCacheSize must not exceed 16777216"))
  else if query_timeout c =? 0
  then Err (InvalidValue (lit "QueryTimeoutSec must be greater than zero"))
  else Ok ().

(** ** A configuration file *)

(** [ConfigError]'s [Display]. *)
Definition config_error_to_string (e : ConfigError) : str :=
  match e with
  | ConfigIo error => error
  | InvalidServer server => lit "invalid DNS server: " ++ server
  | InvalidValue value => lit "invalid value: " ++ value
  | ConfigLine line message => lit "line " ++ show_unsigned line ++ lit ": " ++ message
  end.

(** A line that says nothing: empty or a comment. *)
Definition is_blank (line : str) : bool :=
  bool_decide (line = []) || starts_with line (lit "#") || starts_with line (lit ";").

(** [&line[1..line.len() - 1]] of a section header. *)
Definition section_name (line : str) : cres str :=
  '(_, tail) ← or_panic (split_at_byte 1 line);
  '(name, _) ← or_panic (split_at_byte (str_len line - 2) tail);
  Ok name.

Definition track (key : str) (a : ConfigAssignments) : ConfigAssignments :=
  match match_str key setting_names with
  | Some KeyDNS => { a with as_dns := true }
  | Some KeyDomains => { a with as_domains := true }
  | _ => a
  end.

(** [index] is the line number of the first line. *)
Fixpoint apply_lines (text : list str) (index : Z) (resolve_section : bool)
    (assignments : ConfigAssignments) : cst ConfigAssignments :=
  match text with
  | [] => mret assignments
  | raw_line :: text =>
      let line := trim raw_line in
      if is_blank line then apply_lines text (index + 1) resolve_section assignments
      else if starts_with line (lit "[") && ends_with line (lit "]") then
        name ← lift (section_name line);
        apply_lines text (index + 1) (bool_decide (name = lit "Resolve")) assignments
      else if negb resolve_section then apply_lines text (index + 1) resolve_section assignments
      else
        '(key, value) ← lift (ok_or (split_once 61 line)
          (ConfigLine index (lit "expected key=value")));
        let key := trim key in
        _ ← st_map_err (λ e, ConfigLine index (config_error_to_string e))
              (apply_setting key (trim value));
        apply_lines text (index + 1) resolve_section (track key assignments)
  end.

Definition apply_text_tracking (text : str) : cst ConfigAssignments :=
  assignments ← apply_lines (lines text) 1 false (mk_assignments false false);
  c ← get;
  _ ← lift (config_validate c);
  mret assignments.

Definition apply_text (text : str) : cst unit := _ ← apply_text_tracking text; mret ().

(** ** Files

    A path is the list of its components after the root; [FileBinary] is a file
    that is not UTF-8; an entry of a directory is its name, or the error of
    reading it. *)

Record path : Type := mk_path { p_absolute : bool; p_components : list str }.
#[global] Instance path_eq_dec : EqDecision path.
Proof. solve_decision. Defined.

Inductive file : Type :=
  | FileMissing | FileError (error : str) | FileBinary | FileText (text : str).
Inductive directory : Type :=
  | DirMissing | DirError (error : str) | DirEntries (entries : list (str + str)).

Record filesystem : Type := mk_fs {
  fs_file : path → file;
  fs_directory : path → directory;
}.

Definition abs_path (components : list string) : path := mk_path true (lit <$> components).

Definition path_join (p : path) (name : str) : path :=
  mk_path (p_absolute p) (p_components p ++ [name]).

Definition path_parent (p : path) : option path :=
  match reverse (p_components p) with
  | [] => None
  | _ :: rest => Some (mk_path (p_absolute p) (reverse rest))
  end.

(** [fs::read_to_string]; [None] is [NotFound]. *)
Definition read_to_string (fs : filesystem) (p : path) : cres (option str) :=
  match fs_file fs p with
  | FileMissing => Ok None
  | FileError e => Err (ConfigIo e)
  | FileBinary => Err (ConfigIo (lit "stream did not contain valid UTF-8"))
  | FileText text => Ok (Some text)
  end.

Definition apply_optional_file (fs : filesystem) (p : path) : cst ConfigAssignments :=
  text ← lift (read_to_string fs p);
  match text with
  | Some text => apply_text_tracking text
  | None => mret (mk_assignments false false)
  end.

(** *** Drop-ins *)

Definition drop_in_directories (main : path) : list path :=
  if bool_decide (main = abs_path ["etc"; "systemd"; "resolved.conf"]) then
    [abs_path ["usr"; "lib"; "systemd"; "resolved.conf.d"];
     abs_path ["usr"; "local"; "lib"; "systemd"; "resolved.conf.d"];
     abs_path ["run"; "systemd"; "resolved.conf.d"];
     abs_path ["etc"; "systemd"; "resolved.conf.d"]]
  else match path_parent main with
       | Some parent => [path_join parent (lit "resolved.conf.d")]
       | None => []
       end.

(** The extension is ["conf"]; a name that starts with its only dot has none. *)
Definition is_conf (name : str) : bool :=
  match strip_suffix name (lit ".conf") with
  | Some stem => negb (bool_decide (stem = []))
  | None => false
  end.

Fixpoint select_entries (d : path) (entries : list (str + str)) (selected : list (str * path)) :
    cres (list (str * path)) :=
  match entries with
  | [] => Ok selected
  | inl error :: _ => Err (ConfigIo error)
  | inr name :: entries =>
      select_entries d entries
        (if is_conf name then btree_insert name (path_join d name) selected else selected)
  end.

Fixpoint select_drop_ins (fs : filesystem) (directories : list path)
    (selected : list (str * path)) : cres (list (str * path)) :=
  match directories with
  | [] => Ok selected
  | d :: directories =>
      match fs_directory fs d with
      | DirMissing => select_drop_ins fs directories selected
      | DirError e => Err (ConfigIo e)
      | DirEntries entries =>
          selected ← select_entries d entries selected;
          select_drop_ins fs directories selected
      end
  end.

Definition discover_drop_ins (fs : filesystem) (main : path) : cres (list path) :=
  selected ← select_drop_ins fs (drop_in_directories main) []; Ok selected.*2.

(** *** Credentials *)

Definition MAX_CREDENTIAL_SIZE : Z := 1024 * 1024.

(** A file of more than 1 MiB, or one that is not UTF-8, is ignored. *)
Definition read_credential (fs : filesystem) (p : path) : option str :=
  match fs_file fs p with
  | FileText text => if MAX_CREDENTIAL_SIZE <? str_len text then None else Some text
  | _ => None
  end.

(** [let _ = method]: an error is dropped, what was assigned before it stays. *)
Definition ignore {S E F A} (m : st S E A) : st S F unit := _ ← attempt m; mret ().

Definition apply_credentials (fs : filesystem) (d : path) : cst bool :=
  let dns := read_credential fs (path_join d (lit "network.dns")) in
  let search := read_credential fs (path_join d (lit "network.search_domains")) in
  let present := bool_decide (is_Some dns) || bool_decide (is_Some search) in
  _ ← match dns with Some dns => ignore (set_servers (trim dns)) | None => mret () end;
  _ ← match search with Some s => ignore (set_search_domains (trim s)) | None => mret () end;
  mret present.

(** [credentials] is the [CREDENTIALS_DIRECTORY] of the environment. *)
Definition apply_credentials_from_environment (fs : filesystem) (credentials : option path) :
    cst bool :=
  match credentials with
  | Some d => if p_absolute d then apply_credentials fs d else mret false
  | None => mret false
  end.

(** *** [resolv.conf] *)

Record ResolvConf : Type := mk_resolv_conf {
  rc_servers : list SocketAddr;
  rc_domains : list Domain;
}.

Definition resolv_conf_line (output : ResolvConf) (raw_line : str) : ResolvConf :=
  let line := trim raw_line in
  if is_blank line then output
  else
    match split_whitespace line with
    | [] => output
    | keyword :: fields =>
        if bool_decide (keyword = lit "nameserver") then
          match fields with
          | [] => output
          | value :: _ =>
              match parse_server value with
              | Ok server =>
                  if is_local_stub server then output
                  else { output with rc_servers := push_new (rc_servers output) server }
              | _ => output
              end
          end
        else if bool_decide (keyword = lit "domain") || bool_decide (keyword = lit "search") then
          let value := join_with (lit " ") fields in
          if bool_decide (value = []) then output
          else { output with rc_domains :=
                   (apply_domain_assignment value (rc_domains output)).2 }
        else output
    end.

Definition discover_resolv_conf_state (fs : filesystem) (p : path) : cres ResolvConf :=
  text ← read_to_string fs p;
  Ok (match text with
      | Some text => foldl resolv_conf_line (mk_resolv_conf [] []) (lines text)
      | None => mk_resolv_conf [] []
      end).

Definition discover_resolv_conf (fs : filesystem) (p : path) : cres (list SocketAddr) :=
  c ← discover_resolv_conf_state fs p; Ok (rc_servers c).

(** *** Loading *)

Fixpoint apply_drop_ins (fs : filesystem) (paths : list path) (assignments : ConfigAssignments) :
    cst ConfigAssignments :=
  match paths with
  | [] => mret assignments
  | p :: paths =>
      more ← apply_optional_file fs p;
      apply_drop_ins fs paths (merge assignments more)
  end.

Definition with_discovered (discovered : ResolvConf) (c : Config) : Config :=
  let c := if bool_decide (upstreams c = []) then { c with upstreams := rc_servers discovered }
           else c in
  if bool_decide (domains c = []) then { c with domains := rc_domains discovered } else c.

Definition external_servers (fs : filesystem) : cst unit :=
  discovered ← lift (discover_resolv_conf_state fs (abs_path ["etc"; "resolv.conf"]));
  modify (with_discovered discovered).

Definition load_into (fs : filesystem) (credentials : option path) (p : path) : cst unit :=
  assignments ← apply_optional_file fs p;
  drop_ins ← lift (discover_drop_ins fs p);
  assignments ← apply_drop_ins fs drop_ins assignments;
  let may_read_external_configuration := negb (as_dns assignments) && negb (as_domains assignments) in
  credentials_present ←
    (if may_read_external_configuration
     then apply_credentials_from_environment fs credentials else mret false);
  _ ← (if may_read_external_configuration && negb credentials_present
       then external_servers fs else mret ());
  c ← get;
  lift (config_validate c).

Definition load (fs : filesystem) (credentials : option path) (p : path) : cres Config :=
  let '(r, c) := load_into fs credentials p config_default in
  _ ← r; Ok c.

(** ** Runtime files *)

(** The texts of [stub-resolv.conf] and [resolv.conf]. *)
Definition search_names (c : Config) : list str :=
  d_name <$> filter (λ d, d_route_only d = false ∧ d_name d ≠ lit ".") (domains c).

Definition newline : str := [10].

Definition search_line (c : Config) : str :=
  match search_names c with
  | [] => []
  | names => lit "search " ++ join_with (lit " ") names ++ newline
  end.

Definition stub_resolv_conf (c : Config) : str :=
  lit "# This file is managed by systemd-resolved-rs." ++ newline
  ++ lit "nameserver 127.0.0.53" ++ newline
  ++ lit "options edns0 trust-ad" ++ newline ++ search_line c.

Definition uplink_resolv_conf (c : Config) : str :=
  lit "# This file is managed by systemd-resolved-rs." ++ newline
  ++ concat ((λ s, lit "nameserver " ++ show_ip (sock_ip s) ++ newline) <$> effective_upstreams c)
  ++ search_line c.
