(* ===== verification/ConfigFacts.v ===== *)
(** * Configuration: theorems

    The invariant of a loaded configuration, which files decide, and the
    servers the resolver is given. *)

From S2P Require Import Prelude Stateful Text Float Net Sorting ConfigTypes Config.
From Stdlib Require Import SpecFloat.

(** ** Servers *)

Lemma filtered_from l output :
  NoDup output → Forall (λ s, is_local_stub s = false) output →
  let r := foldl (λ output s, if is_local_stub s then output else push_new output s) output l in
  NoDup r ∧ Forall (λ s, is_local_stub s = false) r ∧
  ∀ s, s ∈ r ↔ s ∈ output ∨ s ∈ l ∧ is_local_stub s = false.
Proof.
  revert output; induction l as [|x l IH]; intros output Hnd Hf; cbn [foldl].
  - split_and!; [done..|]; intros s; split; [by left|]; intros [|[H _]]; [done|by apply elem_of_nil in H].
  - destruct (is_local_stub x) eqn:Hx.
    + destruct (IH output Hnd Hf) as (H1 & H2 & H3); split_and!; [done..|]; intros s; rewrite H3.
      split; [intros [|[]]; [by left|right; split; [by right|done]]|].
      intros [|[[->|]%elem_of_cons ?]]; [by left|congruence|by right].
    + destruct (IH (push_new output x)) as (H1 & H2 & H3).
      * by apply push_new_NoDup.
      * apply Forall_forall; intros s; rewrite elem_of_push_new, Forall_forall in *.
        intros [| ->]; [by apply Hf|done].
      * split_and!; [done..|]; intros s; rewrite H3, elem_of_push_new.
        split; [intros [[| ->]|[]]|intros [|[[->|]%elem_of_cons ?]]]; auto.
        -- right; split; [by left|done].
        -- right; split; [by right|done].
Qed.

(** The configured servers: those given, once each, without the local stub. *)
Lemma filtered_servers_spec l :
  NoDup (filtered_servers l) ∧
  ∀ s, s ∈ filtered_servers l ↔ s ∈ l ∧ is_local_stub s = false.
Proof.
  destruct (filtered_from l [] (NoDup_nil_2) (Forall_nil_2 _)) as (H1 & _ & H3).
  split; [done|]; intros s; rewrite (H3 s), elem_of_nil; tauto.
Qed.

Lemma elem_of_push_specs specs output a spec :
  spec ∈ push_specs specs output a ↔
  spec ∈ output ∨
  (spec ∈ specs ∧ address spec = a) ∨
  (∀ s, s ∈ specs → address s ≠ a) ∧ spec = plain_spec a.
Proof.
  unfold push_specs; destruct (filter (λ s, address s = a) specs) as [|s l] eqn:Hf.
  - assert (∀ s, s ∈ specs → address s ≠ a) as Hno.
    { intros s Hs Ha; assert (s ∈ filter (λ s, address s = a) specs) as H
        by (by apply list_elem_of_filter).
      rewrite Hf in H; by apply elem_of_nil in H. }
    rewrite elem_of_app, list_elem_of_singleton; naive_solver.
  - rewrite elem_of_foldl_push_new, <- Hf, list_elem_of_filter.
    assert (s ∈ filter (λ s, address s = a) specs) as Hs by (rewrite Hf; by left).
    apply list_elem_of_filter in Hs; naive_solver.
Qed.

(** The specifications of the configured servers: those given for them, and
    the bare address of a server without one. *)
Lemma filtered_server_specs_spec addresses specs spec :
  spec ∈ filtered_server_specs addresses specs ↔
  address spec ∈ filtered_servers addresses ∧
  (spec ∈ specs ∨ (∀ s, s ∈ specs → address s ≠ address spec) ∧ spec = plain_spec (address spec)).
Proof.
  unfold filtered_server_specs; generalize (filtered_servers addresses) as l.
  assert (∀ l output, spec ∈ foldl (push_specs specs) output l ↔ spec ∈ output ∨
    address spec ∈ l ∧ (spec ∈ specs ∨
      (∀ s, s ∈ specs → address s ≠ address spec) ∧ spec = plain_spec (address spec))) as H.
  { induction l as [|a l IH]; intros output; cbn [foldl].
    - rewrite elem_of_nil; tauto.
    - rewrite IH, elem_of_push_specs, elem_of_cons; split.
      + intros [[|[[? <-]|[? ->]]]|[]]; cbn; tauto.
      + intros [|[[Ha|] [|[? Hs]]]]; try tauto; left; right; right.
        rewrite <- Ha; by split. }
  intros l; rewrite H, elem_of_nil; tauto.
Qed.

(** ** The invariant *)

Definition domain_ok (d : Domain) : Prop :=
  is_ascii (d_name d) = true ∧ to_ascii_lowercase (d_name d) = d_name d ∧ d_name d ≠ [] ∧
  Forall (λ label, str_len label ≤ 63) (split_on dot (d_name d)).

(** A list of servers and their specifications. *)
Definition servers_inv (p : list SocketAddr * list DnsServerSpec) : Prop :=
  NoDup p.1 ∧ NoDup p.2 ∧ ∀ spec, spec ∈ p.2 → address spec ∈ p.1.

Definition domains_inv (ds : list Domain) : Prop := NoDup ds ∧ Forall domain_ok ds.

Record config_inv (c : Config) : Prop := {
  ci_servers : servers_inv (upstreams c, upstream_specs c);
  ci_fallback : servers_inv (fallback_upstreams c, fallback_upstream_specs c);
  ci_domains : domains_inv (domains c);
  ci_refuse : ∀ t, t ∈ refuse_record_types c → is_u16 t;
  ci_extra : NoDup (dns_stub_listener_extra c);
  ci_durations : 0 ≤ cache_max_ttl c ∧ 0 ≤ stale_retention c ∧ 0 ≤ query_timeout c;
  ci_counts : 0 ≤ cache_size c ∧ 0 ≤ llmnr_cache_size c ∧ 0 ≤ multicast_dns_cache_size c ∧
    0 ≤ attempts c ∧ 0 ≤ workers c;
}.

Lemma servers_assignment_keeps value : keeps servers_inv (apply_server_spec_assignment value).
Proof.
  unfold apply_server_spec_assignment; case_bool_decide.
  - apply keeps_put; split_and!; [constructor..|]; intros s Hs; by apply elem_of_nil in Hs.
  - apply keeps_for_each; intros token _; apply keeps_bind; [apply keeps_lift|]; intros spec.
    apply keeps_modify; intros [a s] (H1 & H2 & H3); cbn in *.
    split_and!; [by apply push_new_NoDup..|]; cbn; intros x; rewrite !elem_of_push_new.
    intros [| ->]; [left; by apply H3|by right].
Qed.

Lemma lower_char_dot c : (lower_char c =? dot) = (c =? dot).
Proof.
  unfold lower_char, dot; case_match; [|done]; boolp; apply eq_iff_eq_true; rewrite !Z.eqb_eq; lia.
Qed.

Lemma split_on_lowercase s :
  split_on dot (to_ascii_lowercase s) = to_ascii_lowercase <$> split_on dot s.
Proof.
  induction s as [|c s IH]; [done|]; cbn [to_ascii_lowercase fmap list_fmap split_on].
  fold (to_ascii_lowercase s); rewrite lower_char_dot, IH; case_match; [done|].
  by destruct (split_on dot s).
Qed.

Lemma str_len_lowercase s : is_ascii s = true → str_len (to_ascii_lowercase s) = str_len s.
Proof.
  intros H; rewrite !is_ascii_str_len by (by rewrite ?is_ascii_lowercase).
  apply to_ascii_lowercase_len.
Qed.

Lemma existsb_false_Forall {A} (f : A → bool) l :
  existsb f l = false ↔ Forall (λ x, f x = false) l.
Proof.
  induction l as [|x l IH]; cbn; [by split|].
  rewrite orb_false_iff, IH, Forall_cons; done.
Qed.

Lemma domains_assignment_keeps value : keeps domains_inv (apply_domain_assignment value).
Proof.
  unfold apply_domain_assignment; case_bool_decide.
  { apply keeps_put; split; constructor. }
  apply keeps_for_each; intros token _; cbn zeta.
  set (name := if bool_decide (_ = []) then _ else _); case_match eqn:Hn; [apply keeps_fail|].
  apply orb_false_iff in Hn as [Ha Hl]; apply negb_false_iff in Ha; apply existsb_false_Forall in Hl.
  assert (name ≠ []) as Hne by (unfold name; case_bool_decide; done).
  apply keeps_modify; intros ds [Hnd Hok]; split; [by apply push_new_NoDup|].
  apply Forall_forall; intros d; rewrite elem_of_push_new; intros [Hd| ->].
  { rewrite Forall_forall in Hok; by apply Hok. }
  split_and!; cbn.
  - by rewrite is_ascii_lowercase.
  - apply to_ascii_lowercase_idemp.
  - by destruct name.
  - rewrite split_on_lowercase, Forall_fmap; eapply Forall_impl.
    + apply Forall_and; split; [exact Hl|].
      by apply (split_on_Forall (λ c, 0 ≤ c < 128)), is_ascii_Forall.
    + intros label [Hb Hc]; cbn; rewrite str_len_lowercase; [by boolp|].
      by apply is_ascii_Forall.
Qed.

Lemma match_str_elem {A} s (arms : list (string * A)) a :
  match_str s arms = Some a → a ∈ arms.*2.
Proof.
  induction arms as [|[l x] arms IH]; cbn; [done|]; case_bool_decide.
  - intros [= <-]; by left.
  - intros H'; right; by apply IH.
Qed.

Lemma record_type_u16 value t : dns_record_type_from_string value = Ok (Some t) → is_u16 t.
Proof.
  assert (match_str value record_type_names = Some t → is_u16 t) as Hn.
  { intros H%match_str_elem; revert H; generalize t.
    apply (Forall_forall (λ t, is_u16 t)), Forall_fmap.
    apply (Forall_lookup_2 (is_u16 ∘ snd)); intros i x Hx.
    assert (forallb (λ x : string * Z, (0 <=? x.2) && (x.2 <? 65536)) record_type_names = true)
      as Hall by reflexivity.
    rewrite forallb_forall in Hall; apply list_elem_of_lookup_2, list_elem_of_In, Hall in Hx.
    unfold is_u16; cbn; by boolp. }
  unfold dns_record_type_from_string; case_match; [|by intros [= Hq]; apply Hn].
  destruct (split_at_byte 4 value) as [[head tail]|]; cbn; [|done].
  case_match; intros [= H']; [|by apply Hn].
  apply parse_unsigned_bounds in H'; unfold is_u16; lia.
Qed.

Lemma refuse_assignment_keeps value :
  keeps (λ types : gset Z, ∀ t, t ∈ types → is_u16 t) (apply_refuse_record_types value).
Proof.
  unfold apply_refuse_record_types; case_bool_decide.
  { apply keeps_put; intros t Ht; by apply elem_of_empty in Ht. }
  apply keeps_for_each; intros token _ types Ht; unfold mbind, st_bind, lift.
  destruct (dns_record_type_from_string token) as [[t|]| | |] eqn:Hr; cbn; try done.
  intros t'; rewrite elem_of_union, elem_of_singleton; intros [->|]; [|by apply Ht].
  by eapply record_type_u16.
Qed.

Lemma round_half_even_nonneg n d : 0 ≤ n → 0 < d → 0 ≤ round_half_even n d.
Proof.
  intros Hn Hd; unfold round_half_even; pose proof (Z.div_pos n d Hn Hd); repeat case_match; lia.
Qed.

Lemma try_from_secs_nonneg x d : try_from_secs_f64 x = Some d → 0 ≤ d.
Proof.
  unfold try_from_secs_f64, second; destruct x as [|?| |[] m e]; try done; [by intros [= <-]|].
  set (ns := if 0 <=? e then _ else _); assert (0 ≤ ns) as Hns.
  { unfold ns; case_match; boolp; [pose proof (Z.pow_nonneg 2 e); lia|].
    apply round_half_even_nonneg; [lia|apply Z.pow_pos_nonneg; lia]. }
  case_match; [|done]; by intros [= <-].
Qed.

Lemma parse_duration_nonneg value d : parse_duration value = Ok d → 0 ≤ d.
Proof.
  unfold parse_duration; destruct (strip_unit _ _) as [number multiplier]; intros H.
  inv_ok; by eapply try_from_secs_nonneg.
Qed.

Lemma assign_keeps {A} (r : cres A) update :
  (∀ a c, r = Ok a → config_inv c → config_inv (update a c)) → keeps config_inv (assign r update).
Proof.
  intros Hu c Hc; unfold assign, mbind, st_bind, lift; destruct r as [a| | |]; cbn; try done.
  by apply Hu.
Qed.

Lemma cache_size_nonneg value n : parse_cache_size value = Ok n → 0 ≤ n.
Proof. intros H%ok_or_Ok%parse_unsigned_bounds; lia. Qed.

Lemma set_servers_keeps value : keeps config_inv (set_servers value).
Proof.
  eapply keeps_zoom; [apply servers_assignment_keeps|by intros c []|].
  intros c [a s] [] H; by split.
Qed.

Lemma set_search_domains_keeps value : keeps config_inv (set_search_domains value).
Proof.
  eapply keeps_zoom; [apply domains_assignment_keeps|by intros c []|]; intros c d [] H; by split.
Qed.

Lemma apply_setting_keeps key value : keeps config_inv (apply_setting key value).
Proof.
  unfold apply_setting; destruct (match_str key setting_names) as [k|]; [|apply keeps_ret].
  destruct k; try apply set_servers_keeps; try apply set_search_domains_keeps;
    try (apply assign_keeps; intros a c Ha []; split; cbn;
         first [done | apply cache_size_nonneg in Ha; tauto | apply parse_duration_nonneg in Ha; tauto
               | apply ok_or_Ok, parse_unsigned_bounds, proj1 in Ha; tauto]).
  - eapply keeps_zoom; [apply servers_assignment_keeps|by intros c []|]; intros c p [] H; by split.
  - eapply keeps_zoom; [apply refuse_assignment_keeps|by intros c []|]; intros c t [] H; by split.
  - case_bool_decide.
    + apply keeps_modify; intros c []; split; try done; constructor.
    + apply assign_keeps; intros l c _ []; split; try done; cbn; by apply push_new_NoDup.
Qed.

Lemma apply_lines_keeps text index section assignments :
  keeps config_inv (apply_lines text index section assignments).
Proof.
  revert index section assignments; induction text as [|line text IH]; intros index section a;
    cbn [apply_lines]; [apply keeps_ret|].
  case_match; [apply IH|]; case_match; [apply keeps_bind; [apply keeps_lift|]; intros; apply IH|].
  case_match; [apply IH|]; apply keeps_bind; [apply keeps_lift|]; intros [key value].
  apply keeps_bind; [apply keeps_map_err, apply_setting_keeps|]; intros; apply IH.
Qed.

Lemma apply_text_tracking_keeps text : keeps config_inv (apply_text_tracking text).
Proof.
  apply keeps_bind; [apply apply_lines_keeps|]; intros a; eauto with keeps.
Qed.

Lemma apply_optional_file_keeps fs p : keeps config_inv (apply_optional_file fs p).
Proof.
  apply keeps_bind; [apply keeps_lift|]; intros [text|];
    [apply apply_text_tracking_keeps|apply keeps_ret].
Qed.

Lemma apply_drop_ins_keeps fs paths a : keeps config_inv (apply_drop_ins fs paths a).
Proof.
  revert a; induction paths as [|p paths IH]; intros a; cbn [apply_drop_ins]; [apply keeps_ret|].
  apply keeps_bind; [apply apply_optional_file_keeps|]; intros; apply IH.
Qed.

Lemma ignore_keeps {S E F A} (I : S → Prop) (m : st S E A) : keeps I m → keeps I (ignore (F := F) m).
Proof. intros H; apply keeps_bind; [by apply keeps_attempt|]; intros; apply keeps_ret. Qed.

Lemma apply_credentials_keeps fs d : keeps config_inv (apply_credentials fs d).
Proof.
  unfold apply_credentials; apply keeps_bind.
  - case_match; [apply ignore_keeps, set_servers_keeps|apply keeps_ret].
  - intros _; apply keeps_bind; [|intros; apply keeps_ret].
    case_match; [apply ignore_keeps, set_search_domains_keeps|apply keeps_ret].
Qed.

Definition resolv_conf_inv (r : ResolvConf) : Prop :=
  NoDup (rc_servers r) ∧ domains_inv (rc_domains r) ∧
  Forall (λ s, is_local_stub s = false) (rc_servers r).

Lemma resolv_conf_line_inv r line : resolv_conf_inv r → resolv_conf_inv (resolv_conf_line r line).
Proof.
  intros (H1 & H2 & H3); unfold resolv_conf_line; case_match; [done|].
  destruct (split_whitespace (trim line)) as [|keyword fields]; [done|].
  case_bool_decide.
  - destruct fields as [|value fields]; [done|]; destruct (parse_server value) as [s| | |]; try done.
    destruct (is_local_stub s) eqn:Hs; [done|]; split_and!; cbn; [by apply push_new_NoDup|done|].
    apply Forall_forall; intros x; rewrite elem_of_push_new, Forall_forall in *.
    intros [| ->]; [by apply H3|done].
  - destruct (bool_decide (keyword = _) || _); [|done]; case_bool_decide; [done|]; split_and!; try done.
    by apply domains_assignment_keeps.
Qed.

Lemma discover_resolv_conf_inv fs p r :
  discover_resolv_conf_state fs p = Ok r → resolv_conf_inv r.
Proof.
  assert (resolv_conf_inv (mk_resolv_conf [] [])) as H0.
  { split_and!; cbn; [constructor|split; constructor|constructor]. }
  unfold discover_resolv_conf_state; destruct (read_to_string fs p) as [[text|]| | |]; cbn;
    try done; intros <-%Ok_inj; [|done].
  revert H0; generalize (mk_resolv_conf [] []); induction (lines text) as [|l ls IH]; intros r Hr;
    [done|]; cbn [foldl]; by apply IH, resolv_conf_line_inv.
Qed.

Lemma with_discovered_inv r c : resolv_conf_inv r → config_inv c → config_inv (with_discovered r c).
Proof.
  intros (H1 & H2 & _) Hc; unfold with_discovered.
  assert (config_inv (if bool_decide (upstreams c = []) then { c with upstreams := rc_servers r }
    else c)) as Hc'.
  { case_bool_decide as Hu; [|done]; destruct Hc as [(? & Hnd & Hs) ? ? ? ? ? ?]; split; try done.
    split_and!; [done..|]; cbn in *; intros s Hin.
    specialize (Hs s Hin); rewrite Hu in Hs; by apply elem_of_nil in Hs. }
  revert Hc'; generalize (if bool_decide (upstreams c = []) then { c with upstreams := rc_servers r }
    else c); intros c' Hc'; case_bool_decide; [|done]; destruct Hc'; by split.
Qed.

Lemma external_servers_keeps fs : keeps config_inv (external_servers fs).
Proof.
  intros c Hc; unfold external_servers, mbind, st_bind, lift.
  destruct (discover_resolv_conf_state _ _) as [r| | |] eqn:Hr; try done.
  apply with_discovered_inv; [by eapply discover_resolv_conf_inv|done].
Qed.

Lemma load_into_keeps fs credentials p : keeps config_inv (load_into fs credentials p).
Proof.
  unfold load_into; apply keeps_bind; [apply apply_optional_file_keeps|]; intros a.
  apply keeps_bind; [apply keeps_lift|]; intros drop_ins.
  apply keeps_bind; [apply apply_drop_ins_keeps|]; intros a'.
  apply keeps_bind.
  - case_match; [|apply keeps_ret]; unfold apply_credentials_from_environment.
    destruct credentials as [d|]; [|apply keeps_ret]; case_match; [|apply keeps_ret].
    apply apply_credentials_keeps.
  - intros b; apply keeps_bind; [case_match; [apply external_servers_keeps|apply keeps_ret]|].
    intros _; apply keeps_bind; [apply keeps_get|]; intros; apply keeps_lift.
Qed.

Lemma default_config_inv : config_inv config_default.
Proof.
  split; unfold servers_inv, domains_inv; cbn [config_default upstreams upstream_specs
    fallback_upstreams fallback_upstream_specs domains refuse_record_types dns_stub_listener_extra].
  - split_and!; [constructor..|]; intros s Hs; by apply elem_of_nil in Hs.
  - split_and!; [|constructor|intros s Hs; by apply elem_of_nil in Hs].
    by apply (bool_decide_unpack (NoDup default_fallback_upstreams)).
  - split; constructor.
  - intros t Ht; by apply elem_of_empty in Ht.
  - constructor.
  - by vm_compute.
  - by vm_compute.
Qed.

(** [load] validates what it returns. *)
Lemma load_Ok fs credentials p c :
  load fs credentials p = Ok c →
  load_into fs credentials p config_default = (Ok (), c) ∧ config_validate c = Ok ().
Proof.
  unfold load; destruct (load_into fs credentials p config_default) as [r c'] eqn:Hl.
  destruct r as [[]| | |]; cbn; try done; intros <-%Ok_inj; split; [done|].
  unfold load_into in Hl; by inv_st.
Qed.

(** ** Drop-ins *)

(** A drop-in of a directory: an entry with the extension ["conf"]. *)
Definition has_drop_in (fs : filesystem) (d : path) (name : str) : Prop :=
  is_conf name = true ∧ ∃ entries, fs_directory fs d = DirEntries entries ∧ inr name ∈ entries.

(** The path of a name: in the last directory that has it. *)
Definition last_drop_in (fs : filesystem) (directories : list path) (name : str) (p : path) : Prop :=
  ∃ pre d post, directories = pre ++ d :: post ∧ has_drop_in fs d name ∧ p = path_join d name ∧
    ∀ d', d' ∈ post → ¬ has_drop_in fs d' name.

Lemma select_entries_spec d entries selected selected' :
  keys_sorted selected → select_entries d entries selected = Ok selected' →
  keys_sorted selected' ∧ ∀ name p, (name, p) ∈ selected' ↔
    (is_conf name = true ∧ inr name ∈ entries) ∧ p = path_join d name ∨
    ¬ (is_conf name = true ∧ inr name ∈ entries) ∧ (name, p) ∈ selected.
Proof.
  revert selected; induction entries as [|[e|n] entries IH]; intros selected Hs;
    cbn [select_entries]; [|done|].
  - intros <-%Ok_inj; split; [done|]; intros name p; rewrite elem_of_nil; tauto.
  - intros Hsel; destruct (is_conf n) eqn:Hn; apply IH in Hsel as [Hs' Hin];
      try (by apply btree_insert_sorted); try done; split; try done; intros name p; rewrite Hin.
    + rewrite elem_of_btree_insert, elem_of_cons by done.
      destruct (decide (name = n)) as [->|Hne].
      * assert (inr n = (inr n : str + str)) by done; assert (n = n) by done.
        destruct (decide (inr n ∈ entries)); tauto.
      * assert (inr name ≠ (inr n : str + str)) by congruence; tauto.
    + rewrite elem_of_cons; destruct (decide (name = n)) as [->|Hne].
      * rewrite Hn; assert (false ≠ true) by done; tauto.
      * assert (inr name ≠ (inr n : str + str)) by congruence; tauto.
Qed.

Lemma last_drop_in_cons fs d directories name p :
  last_drop_in fs (d :: directories) name p ↔
  last_drop_in fs directories name p ∨
  has_drop_in fs d name ∧ p = path_join d name ∧ ∀ d', d' ∈ directories → ¬ has_drop_in fs d' name.
Proof.
  split.
  - intros ([|x pre] & d' & post & Heq & H); injection Heq as -> ->; [by right|].
    left; by exists pre, d', post.
  - intros [(pre & d' & post & -> & H)|H]; [by exists (d :: pre), d', post|].
    by exists [], d, directories.
Qed.

Lemma last_drop_in_step fs d directories name p (A B : Prop) :
  (A ↔ has_drop_in fs d name ∧ p = path_join d name ∨ ¬ has_drop_in fs d name ∧ B) →
  (last_drop_in fs directories name p ∨ (∀ d', d' ∈ directories → ¬ has_drop_in fs d' name) ∧ A) ↔
  (last_drop_in fs (d :: directories) name p ∨
   (∀ d', d' ∈ d :: directories → ¬ has_drop_in fs d' name) ∧ B).
Proof.
  intros HA; rewrite last_drop_in_cons, HA; setoid_rewrite elem_of_cons.
  split; [intros [|[? [[]|[]]]]|intros [[|(? & ? & ?)]|[Hd ?]]]; try tauto.
  - right; split; [|done]; intros d' [->|]; auto.
  - right; split; [auto|]; right; split; [|done]; auto.
Qed.

Lemma select_drop_ins_spec fs directories selected selected' :
  keys_sorted selected → select_drop_ins fs directories selected = Ok selected' →
  keys_sorted selected' ∧ ∀ name p, (name, p) ∈ selected' ↔
    last_drop_in fs directories name p ∨
    (∀ d, d ∈ directories → ¬ has_drop_in fs d name) ∧ (name, p) ∈ selected.
Proof.
  revert selected; induction directories as [|d directories IH]; intros selected Hs;
    cbn [select_drop_ins].
  - intros <-%Ok_inj; split; [done|]; intros name p; split.
    + intros H; right; split; [|done]; intros d Hd; by apply elem_of_nil in Hd.
    + intros [([] & ? & ? & ? & _)|[_ H]]; done.
  - destruct (fs_directory fs d) as [|e|entries] eqn:Hd; [|done|]; intros Hsel.
    + apply IH in Hsel as [Hs' Hin]; [|done]; split; [done|]; intros name p.
      rewrite Hin; apply last_drop_in_step.
      assert (¬ has_drop_in fs d name) by (intros (_ & ? & ? & _); congruence); tauto.
    + inv_ok; destruct (select_entries_spec _ _ _ _ Hs H) as [Hs1 Hin1].
      apply IH in Hsel as [Hs' Hin]; [|done]; split; [done|]; intros name p; rewrite Hin.
      apply last_drop_in_step; rewrite Hin1.
      assert (has_drop_in fs d name ↔ is_conf name = true ∧ inr name ∈ entries) as Hiff; [|tauto].
      unfold has_drop_in; rewrite Hd; split; [intros (? & ? & [= ->] & ?); done|].
      intros []; split; [done|]; by exists entries.
Qed.

(** ** Where settings come from *)

(** The configuration file and its drop-ins. *)
Definition files_of (fs : filesystem) (p : path) : cst ConfigAssignments :=
  assignments ← apply_optional_file fs p;
  drop_ins ← lift (discover_drop_ins fs p);
  apply_drop_ins fs drop_ins assignments.

Lemma apply_optional_file_validates fs p c a c' :
  config_validate c = Ok () → apply_optional_file fs p c = (Ok a, c') → config_validate c' = Ok ().
Proof.
  intros Hc Hf; unfold apply_optional_file in Hf; inv_st.
  match goal with H : read_to_string fs p = Ok ?t |- _ => destruct t as [text|] end.
  - unfold apply_text_tracking in Hf; inv_st; injection Hf as <- <-.
    by match goal with H : config_validate _ = Ok ?u |- _ => destruct u end.
  - by injection Hf as <- <-.
Qed.

Lemma files_of_validates fs p c a c' :
  config_validate c = Ok () → files_of fs p c = (Ok a, c') → config_validate c' = Ok ().
Proof.
  intros Hc Hf; unfold files_of in Hf; inv_st.
  match goal with H : apply_optional_file fs p c = _ |- _ =>
    apply (apply_optional_file_validates _ _ _ _ _ Hc) in H as Hc1; clear H end.
  match goal with H : apply_drop_ins _ ?l ?a0 _ = _ |- _ =>
    revert H Hc1; generalize l, a0; intros paths end.
  revert s; induction paths as [|q paths IH]; intros s b; cbn [apply_drop_ins].
  - by intros [= <- <-].
  - intros H Hs; inv_st; eapply IH; [done|by eapply apply_optional_file_validates].
Qed.

Lemma load_after_files fs credentials p a c :
  files_of fs p config_default = (Ok a, c) →
  load_into fs credentials p config_default =
    (let external := negb (as_dns a) && negb (as_domains a) in
     credentials_present ←
       (if external then apply_credentials_from_environment fs credentials else mret false);
     _ ← (if external && negb credentials_present then external_servers fs else mret ());
     c ← get; lift (config_validate c)) c.
Proof.
  unfold files_of, load_into, mbind, st_bind; destruct (apply_optional_file fs p config_default)
    as [[a0| | |] c0]; try done.
  unfold lift; destruct (discover_drop_ins fs p) as [l| | |]; try done.
  by intros ->.
Qed.

Lemma with_discovered_validate r c : config_validate (with_discovered r c) = config_validate c.
Proof.
  unfold with_discovered.
  assert (config_validate (if bool_decide (upstreams c = []) then
    { c with upstreams := rc_servers r } else c) = config_validate c) as <- by (by case_bool_decide).
  by case_bool_decide.
Qed.

(** A file that asks to refuse a record type whose fourth octet is inside a
    character: slicing the name panics. *)
Definition boundary_fs : filesystem :=
  mk_fs (λ p, if bool_decide (p = abs_path ["resolved.conf"])
              then FileText (lit "[Resolve]" ++ newline ++ lit "RefuseRecordTypes=abc" ++ [233])
              else FileMissing) (λ _, DirMissing).

Lemma load_panics_off_boundary : load boundary_fs None (abs_path ["resolved.conf"]) = Panic.
Proof. by vm_compute. Qed.

(** ** Properties *)

(** C31: what a loaded configuration satisfies, whatever the files: retry and
    worker counts, cache sizes and timeouts are within their bounds; servers,
    their specifications and domains have no duplicates, domains are lower-case
    ASCII with labels of at most 63 octets; the servers that will be used are
    those given, without the addresses of the local stub. *)
Theorem load_sound fs credentials p c :
  load fs credentials p = Ok c →
  config_inv c ∧ 1 ≤ attempts c ≤ 32 ∧ 1 ≤ workers c ≤ 4096 ∧ 0 < query_timeout c ∧
  cache_size c ≤ 2 ^ 24 ∧ llmnr_cache_size c ≤ 2 ^ 24 ∧ multicast_dns_cache_size c ≤ 2 ^ 24 ∧
  NoDup (configured_upstreams c) ∧
  ∀ s, (s ∈ configured_upstreams c ↔ s ∈ upstreams c ∧ is_local_stub s = false) ∧
       (s ∈ effective_upstreams c → is_local_stub s = false).
Proof.
  intros [Hl Hv]%load_Ok.
  assert (config_inv c) as Hc.
  { pose proof (load_into_keeps fs credentials p config_default default_config_inv) as H.
    by rewrite Hl in H. }
  destruct (ci_durations c Hc) as (_ & _ & Hq), (ci_counts c Hc) as (_ & _ & _ & Ha & Hw).
  unfold config_validate in Hv; repeat case_match; try done; boolp.
  split_and!; try done; try lia; [apply filtered_servers_spec|]; intros s; split.
  - apply filtered_servers_spec.
  - unfold effective_upstreams; destruct (configured_upstreams c) as [|x l] eqn:Hu.
    + by intros [_ Hs]%filtered_servers_spec.
    + rewrite <- Hu; by intros [_ Hs]%filtered_servers_spec.
Qed.

(** A main file with a server, and a drop-in in two directories. *)
Definition example_fs : filesystem :=
  mk_fs
    (λ p,
      if bool_decide (p = abs_path ["etc"; "systemd"; "resolved.conf"])
      then FileText (lit "[Resolve]" ++ newline ++ lit "DNS=192.0.2.1 127.0.0.53" ++ newline)
      else if bool_decide (p = abs_path ["etc"; "systemd"; "resolved.conf.d"; "a.conf"])
      then FileText (lit "[Resolve]" ++ newline ++ lit "Domains=~Corp.Example." ++ newline)
      else FileMissing)
    (λ p,
      if bool_decide (p = abs_path ["run"; "systemd"; "resolved.conf.d"]) ||
         bool_decide (p = abs_path ["etc"; "systemd"; "resolved.conf.d"])
      then DirEntries [inr (lit "a.conf"); inr (lit "b.txt")] else DirMissing).
Definition example_main : path := abs_path ["etc"; "systemd"; "resolved.conf"].
Definition example_config : Config :=
  { config_default with
      upstreams := [SockV4 [192; 0; 2; 1] 53; SockV4 [127; 0; 0; 53] 53];
      upstream_specs := [plain_spec (SockV4 [192; 0; 2; 1] 53);
                         plain_spec (SockV4 [127; 0; 0; 53] 53)];
      domains := [mk_domain (lit "corp.example") true] }.

Lemma load_sound_witness :
  load example_fs None example_main = Ok example_config ∧
  config_inv example_config ∧
  (SockV4 [127; 0; 0; 53] 53 ∈ effective_upstreams example_config →
   is_local_stub (SockV4 [127; 0; 0; 53] 53) = false).
Proof.
  assert (load example_fs None example_main = Ok example_config) as Hl by (by vm_compute).
  split; [exact Hl|].
  destruct (load_sound example_fs None example_main example_config Hl)
    as (Hc & _ & _ & _ & _ & _ & _ & _ & Hs).
  split; [exact Hc|apply Hs].
Defined.

(** Which settings win.  When some file or drop-in assigns [DNS] or
    [Domains], the configuration is exactly what the files say: neither
    credentials nor [/etc/resolv.conf] are looked at.  When none does and there
    are no credentials, the servers and domains of [/etc/resolv.conf] fill in
    for empty lists. *)
Theorem load_sources fs credentials p a c :
  files_of fs p config_default = (Ok a, c) →
  (as_dns a || as_domains a = true → load fs credentials p = Ok c) ∧
  (as_dns a || as_domains a = false → credentials = None →
   ∀ r, discover_resolv_conf_state fs (abs_path ["etc"; "resolv.conf"]) = Ok r →
   load fs credentials p = Ok (with_discovered r c)).
Proof.
  intros Hf; assert (config_validate c = Ok ()) as Hv by (exact (files_of_validates fs p config_default a c eq_refl Hf)).
  unfold load; rewrite (load_after_files _ _ _ _ _ Hf); unfold mbind, st_bind, mret, st_ret.
  rewrite <- negb_orb; split.
  - intros ->; cbn; unfold lift; by rewrite Hv.
  - intros -> -> r Hr; unfold external_servers; cbn -[discover_resolv_conf_state abs_path config_validate with_discovered]; unfold mbind, st_bind, lift; rewrite Hr; cbn -[config_validate with_discovered].
    by rewrite with_discovered_validate, Hv.
Qed.

Lemma load_sources_witness :
  load example_fs None example_main = Ok example_config.
Proof.
  apply (load_sources example_fs None example_main (mk_assignments true true) example_config);
    by vm_compute.
Defined.

(** Which drop-ins are read.  Among the directories of the main file, in
    their order of priority, a name is read from the last directory that has
    it; the files are read in the order of their names, each once. *)
Theorem drop_ins_override fs main paths :
  discover_drop_ins fs main = Ok paths →
  ∃ selected, paths = selected.*2 ∧ keys_sorted selected ∧
    ∀ name p, (name, p) ∈ selected ↔ last_drop_in fs (drop_in_directories main) name p.
Proof.
  unfold discover_drop_ins; destruct (select_drop_ins fs (drop_in_directories main) [])
    as [selected| | |] eqn:Hsel; try done; intros <-%Ok_inj.
  apply select_drop_ins_spec in Hsel as [Hs Hin]; [|constructor].
  exists selected; split_and!; [done..|].
  intros name p; rewrite Hin, elem_of_nil; tauto.
Qed.

Lemma drop_ins_override_witness :
  ∃ selected, [abs_path ["etc"; "systemd"; "resolved.conf.d"; "a.conf"]] = selected.*2 ∧
    keys_sorted selected ∧ ∀ name p, (name, p) ∈ selected ↔
      last_drop_in example_fs (drop_in_directories example_main) name p.
Proof. apply drop_ins_override; by vm_compute. Defined.
