(* ===== verification/NssBackend.v ===== *)
(** * Name service helpers

    Models [src/nss_backend.rs]: names in wire form, addresses packed for shared
    memory, and the answer packets built from a list of addresses.  The theorems
    say that names and addresses survive their encoding and that the parser of
    [src/wire] reads from an answer exactly the addresses asked for. *)

From S2P Require Import Prelude Text Utf8 Net Codec Names CodecFacts Packet PacketFacts LocalFacts.
From S2P Require Import Records RecordsFacts Config ConfigFacts.

Inductive NssBackendError : Type :=
  | NssInvalidName (reason : str)
  | NssNotFound
  | NssNoData
  | NssTimeout
  | NssDnssec
  | NssUnavailable (reason : str)
  | NssInternal (reason : str).

Abbreviation nres := (outcome NssBackendError).

Definition invalid {A} (reason : string) : nres A := Err (NssInvalidName (lit reason)).

(** ** Names *)

Fixpoint wire_lower_labels (labels : list str) : nres bytes :=
  match labels with
  | [] => Ok []
  | l :: labels =>
      if bool_decide (l = []) then invalid "empty label"
      else if 63 <? str_len l then invalid "label too long"
      else
        rest ← wire_lower_labels labels;
        Ok (str_len l :: to_ascii_lowercase (as_bytes l) ++ rest)
  end.

Definition name_to_wire_lower (name : str) : nres bytes :=
  let raw := trim name in
  if bool_decide (raw = []) then invalid "empty"
  else
    let n := trim_end_matches dot raw in
    if bool_decide (n = []) then Ok [0]
    else if 253 <? str_len n then invalid "too long"
    else
      out ← wire_lower_labels (split_on dot n);
      let out := out ++ [0] in
      if 255 <? len out then invalid "wire too long" else Ok out.

(** The loop over the labels: [wire] is what is left, [s] the text so far. *)
Fixpoint presentation_loop (fuel : nat) (wire : bytes) (s : str) (labels : Z) : nres str :=
  match fuel with
  | O => Diverge
  | S fuel =>
      match wire with
      | [] => invalid "truncated wire"
      | l :: rest =>
          if l =? 0 then Ok (if bool_decide (s = []) then lit "." else s)
          else if negb (Z.land l 0xc0 =? 0) then invalid "compressed wire"
          else if (63 <? l) || (len rest <? l) then invalid "bad label"
          else
            let s := (if bool_decide (s = []) then s else s ++ lit ".")
                     ++ from_utf8_lossy (take (Z.to_nat l) rest) in
            if 128 <? labels + 1 then invalid "too many labels"
            else presentation_loop fuel (drop (Z.to_nat l) rest) s (labels + 1)
      end
  end.

Definition wire_to_presentation (wire : bytes) : nres str :=
  presentation_loop (S (length wire)) wire [] 0.

(** ** Addresses in shared memory *)

Record ShmAddrPack : Type := mk_pack {
  sp_family : Z;
  sp_scope_id : Z;
  sp_addr : bytes;
}.

Definition ip_to_shm (ip : IpAddr) (ifindex : Z) : ShmAddrPack :=
  match ip with
  | V4 octets => mk_pack 4 (Z.max ifindex 0 mod 2 ^ 16) (octets ++ replicate 12 0)
  | V6 octets => mk_pack 6 (Z.max ifindex 0 mod 2 ^ 16) octets
  end.

Definition shm_to_ip (a : ShmAddrPack) : option IpAddr :=
  if sp_family a =? 4 then Some (V4 (take 4 (sp_addr a)))
  else if sp_family a =? 6 then Some (V6 (sp_addr a)) else None.

Definition parse_ip_list (ss : list str) : list IpAddr := omap parse_ip ss.

(** ** Answers *)

(** The type and the data of the record of an address, when the question asks for it. *)
Definition address_data (qtype : Z) (ip : IpAddr) : option (Z * bytes) :=
  match ip with
  | V4 octets => if (qtype =? 1) || (qtype =? 255) then Some (1, octets) else None
  | V6 octets => if (qtype =? 28) || (qtype =? 255) then Some (28, octets) else None
  end.

Definition nss_answer (ttl : Z) (r : Z * bytes) : bytes :=
  [0xc0; 0x0c] ++ u16_bytes r.1 ++ u16_bytes 1 ++ u32_bytes ttl ++ u16_bytes (len r.2) ++ r.2.

Definition build_address_answer (id : Z) (qname_wire : bytes) (qtype : Z)
    (addrs : list (IpAddr * Z)) (ttl : Z) (aa : bool) : bytes :=
  let flags := Z.lor (if aa then Z.lor 0x8000 0x0400 else 0x8000) 0x0080 in
  let records := omap (λ a, address_data qtype a.1) addrs in
  u16_bytes id ++ u16_bytes flags ++ u16_bytes 1 ++ u16_bytes (len records mod 2 ^ 16)
  ++ u16_bytes 0 ++ u16_bytes 0 ++ qname_wire ++ u16_bytes qtype ++ u16_bytes 1
  ++ (records ≫= nss_answer ttl).

(** ** Names *)

Definition nss_name (name : str) : str := trim_end_matches dot (trim name).

Definition nss_labels (name : str) : list bytes :=
  if bool_decide (nss_name name = []) then [] else as_bytes <$> split_on dot (nss_name name).

Lemma wire_lower_labels_iff labels w :
  wire_lower_labels labels = Ok w ↔
  Forall label_ok (as_bytes <$> labels) ∧
  w = (as_bytes <$> labels) ≫= λ l, len l :: to_ascii_lowercase l.
Proof.
  revert w; induction labels as [|l labels IH]; intros w; cbn [wire_lower_labels fmap list_fmap].
  { split; [intros [= <-]; by split|]; by intros [_ ->]. }
  rewrite bind_cons, Forall_cons; unfold label_ok at 1; rewrite as_bytes_len.
  assert (0 < str_len l ↔ l ≠ []) as Hpos.
  { rewrite <- as_bytes_len; destruct l as [|c l]; [done|]; split; [done|]; intros _.
    rewrite as_bytes_cons, len_app, char_bytes_len; pose proof (len_nonneg (as_bytes l)).
    unfold char_len; repeat case_match; lia. }
  case_bool_decide as He; [split; [done|]; intros [[[? _] _] _]; by apply Hpos in He|].
  destruct (63 <? str_len l) eqn:H63; boolp; [split; [done|]; intros [[? _] _]; lia|]; split.
  - intros (r & Hr & [= <-])%bind_Ok; apply IH in Hr as [Hok ->].
    split; [split; [split; [by apply Hpos|lia]|done]|done].
  - intros [[_ Hok] ->]; by rewrite (proj2 (IH _) (conj Hok eq_refl)).
Qed.

(** The octets of the labels and the dots between them. *)
Lemma labels_len_split n :
  labels_len (as_bytes <$> split_on dot n) = str_len n + 1.
Proof.
  rewrite <- (join_split dot n) at 2; pose proof (split_on_nonempty dot n) as Hne.
  induction (split_on dot n) as [|l labels IH]; [done|]; cbn [fmap list_fmap].
  rewrite labels_len_cons, as_bytes_len; destruct labels as [|l' labels].
  { change (join_with [dot] [l]) with l; change (labels_len (as_bytes <$> [])) with 0; lia. }
  rewrite IH by done; rewrite <- !as_bytes_len; change (join_with [dot] (l :: l' :: labels)) with (l ++ [dot] ++ join_with [dot] (l' :: labels)).
  generalize (join_with [dot] (l' :: labels)); intros s; unfold as_bytes.
  rewrite !bind_app, !len_app; change (len ([dot] ≫= char_bytes)) with 1; lia.
Qed.

(** The names that are encoded, and how. *)
Lemma name_to_wire_lower_iff name w :
  name_to_wire_lower name = Ok w ↔
  trim name ≠ [] ∧ Forall label_ok (nss_labels name) ∧ str_len (nss_name name) ≤ 253 ∧
  w = canonical_of_labels (nss_labels name).
Proof.
  unfold name_to_wire_lower, nss_labels; fold (nss_name name).
  case_bool_decide as He; [naive_solver|].
  destruct (bool_decide (nss_name name = [])) eqn:Hn; boolp.
  { rewrite Hn; split; [intros [= <-]; split_and!; [done|constructor|done..]|naive_solver]. }
  destruct (253 <? str_len _) eqn:H253; boolp; [split; [done|]; intros (_ & _ & ? & _); lia|].
  pose proof (labels_len_split (nss_name name)) as Hlen; set (ls := split_on dot (nss_name name)) in *.
  assert (len (canonical_of_labels (as_bytes <$> ls)) ≤ 255) as Hc.
  { rewrite canonical_of_labels_len; lia. }
  split.
  - intros (out & [Hok ->]%wire_lower_labels_iff & H)%bind_Ok.
    fold (canonical_of_labels (as_bytes <$> ls)) in H; rewrite (proj2 (Z.ltb_ge _ _)) in H by lia.
    by injection H as <-.
  - intros (_ & Hok & _ & ->).
    rewrite (proj2 (wire_lower_labels_iff ls _) (conj Hok eq_refl)); cbn [mbind outcome_bind].
    fold (canonical_of_labels (as_bytes <$> ls)); by rewrite (proj2 (Z.ltb_ge _ _)) by lia.
Qed.

(** The text of labels, after the text [s]. *)
Definition after (s : str) (labels : list str) : str :=
  match labels with
  | [] => s
  | _ => (if bool_decide (s = []) then s else s ++ lit ".") ++ join_with [dot] labels
  end.

Lemma after_cons s l labels :
  l ≠ [] → after ((if bool_decide (s = []) then s else s ++ lit ".") ++ l) labels = after s (l :: labels).
Proof.
  intros Hl; destruct labels as [|l' labels]; [done|]; unfold after at 1.
  rewrite bool_decide_eq_false_2 by (by intros [_ ?]%app_nil); unfold after.
  change (join_with [dot] (l :: l' :: labels)) with (l ++ [dot] ++ join_with [dot] (l' :: labels)).
  by rewrite <- !app_assoc.
Qed.

Lemma lower_label l :
  Forall scalar l → label_ok (as_bytes l) →
  from_utf8_lossy (to_ascii_lowercase (as_bytes l)) = to_ascii_lowercase l ∧ to_ascii_lowercase l ≠ [].
Proof.
  intros Hs Hl; rewrite as_bytes_lower, lossy_as_bytes by auto using lower_scalar; split; [done|].
  intros H%fmap_nil_inv; subst l; by destruct Hl.
Qed.

Lemma presentation_labels fuel labels s n :
  Forall label_ok (as_bytes <$> labels) → Forall (Forall scalar) labels →
  n + len labels ≤ 128 → (length (canonical_of_labels (as_bytes <$> labels)) ≤ fuel)%nat →
  presentation_loop fuel (canonical_of_labels (as_bytes <$> labels)) s n =
    let t := after s (to_ascii_lowercase <$> labels) in Ok (if bool_decide (t = []) then lit "." else t).
Proof.
  revert fuel s n; induction labels as [|l labels IH]; intros fuel s n Hok Hs Hn Hf;
    (destruct fuel as [|fuel]; [cbn in Hf; lia|]); [done|].
  cbn [fmap list_fmap] in *; rewrite canonical_of_labels_cons in *.
  apply Forall_cons in Hok as [Hl Hok], Hs as [Hsl Hs].
  destruct (lower_label l Hsl Hl) as [Hlossy Hne]; unfold label_ok in Hl.
  destruct (land_c0 (len (as_bytes l))) as (_ & Hland & _); [unfold is_u8; lia|].
  rewrite (proj2 (Z.ltb_ge 63 _)), orb_false_r in Hland by lia.
  pose proof (len_nonneg (canonical_of_labels (as_bytes <$> labels))); rewrite len_cons in Hn.
  pose proof (len_nonneg labels).
  cbn [app presentation_loop]; rewrite (proj2 (Z.eqb_neq _ _)) by lia; rewrite Hland.
  rewrite len_app, to_ascii_lowercase_len.
  rewrite (proj2 (Z.ltb_ge 63 _)), (proj2 (Z.ltb_ge (_ + _) _)) by lia; cbn [orb].
  rewrite take_app_length', drop_app_length' by (rewrite <- (to_ascii_lowercase_len (as_bytes l)); len_lia).
  rewrite (proj2 (Z.ltb_ge 128 _)) by lia; rewrite Hlossy, IH, after_cons; try done; [lia|].
  rewrite length_app in Hf; cbn in Hf; lia.
Qed.

(** ** Answers *)

#[local] Instance address_record : Appendable Z := {| ans_type t := t; ans_class _ := 1 |}.

Lemma address_data_ok qtype ip r :
  ip_ok ip → address_data qtype ip = Some r → is_u16 r.1 ∧ bytes_ok r.2 ∧ len r.2 ≤ 16.
Proof.
  destruct ip as [o|o]; intros [Ho Hl]; unfold address_data; case_match; [|done| |done];
    intros [= <-]; cbn; (split; [unfold is_u16; lia|split; [done|lia]]).
Qed.

Definition nss_flags (aa : bool) : Z := if aa then 0x8480 else 0x8080.

Definition nss_header (id : Z) (aa : bool) (n : Z) : Header := mk_header id (nss_flags aa) 1 n 0 0.

(** The labels of the question: those of the name, in lower case. *)
Definition question_labels (name : str) : list bytes := to_ascii_lowercase <$> nss_labels name.

Lemma canonical_wire_lower labels :
  canonical_of_labels labels = wire_of_labels (to_ascii_lowercase <$> labels).
Proof.
  induction labels as [|l labels IH]; [done|].
  by rewrite canonical_of_labels_cons, fmap_cons, wire_of_labels_cons, IH, to_ascii_lowercase_len.
Qed.

(** An answer is its header, the question and the records. *)
Lemma build_answer_eq id w qtype addrs ttl aa :
  let records := omap (λ a, address_data qtype a.1) addrs in
  len records ≤ u16_max →
  build_address_answer id w qtype addrs ttl aa =
    (header_bytes (nss_header id aa (len records)) ++ w ++ u16_bytes qtype ++ u16_bytes 1)
    ++ answers ttl records.
Proof.
  intros records Hn; unfold build_address_answer, header_bytes, nss_header; cbn [h_id h_flags
    h_question_count h_answer_count h_authority_count h_additional_count].
  fold records; rewrite Z.mod_small by (pose proof (len_nonneg records); unfold u16_max in Hn; lia).
  replace (Z.lor (if aa then Z.lor 0x8000 0x0400 else 0x8000) 0x0080) with (nss_flags aa)
    by (by destruct aa).
  by rewrite <- !app_assoc.
Qed.

Lemma nss_name_scalar name : Forall scalar name → Forall scalar (nss_name name).
Proof.
  intros Hn; apply trim_end_matches_Forall; unfold trim.
  by apply Forall_reverse, drop_while_Forall, Forall_reverse, drop_while_Forall.
Qed.

Lemma nss_labels_bytes name : Forall scalar name → Forall bytes_ok (nss_labels name).
Proof.
  intros Hn%nss_name_scalar; unfold nss_labels; case_bool_decide; [constructor|].
  apply Forall_fmap; eapply Forall_impl; [by apply split_on_Forall|]; apply as_bytes_ok.
Qed.

Section answer.
Context (id qtype ttl : Z) (aa : bool) (name : str) (w : bytes) (addrs : list (IpAddr * Z)).
Hypothesis Hw : name_to_wire_lower name = Ok w.
Hypothesis Hname : Forall scalar name.
Hypothesis Hid : is_u16 id.
Hypothesis Hqtype : is_u16 qtype.
Hypothesis Httl : is_u32 ttl.
Hypothesis Haddrs : Forall (λ a, ip_ok a.1) addrs.

Abbreviation records := (omap (λ a, address_data qtype a.1) addrs).
Hypothesis Hcount : len records ≤ u16_max.

Abbreviation packet := (build_address_answer id w qtype addrs ttl aa).
Abbreviation head := (header_bytes (nss_header id aa (len records)) ++ w ++ u16_bytes qtype ++ u16_bytes 1).
Abbreviation stop := (12 + len w + 4).

Lemma question_labels_ok :
  w = wire_of_labels (question_labels name) ∧ Forall label_ok (question_labels name) ∧
  bytes_ok w ∧ len w ≤ 255.
Proof using Hw Hname.
  apply name_to_wire_lower_iff in Hw as (_ & Hok & Hlen & Heq); unfold question_labels.
  assert (len w ≤ 255) as Hle.
  { rewrite Heq, canonical_of_labels_len; unfold nss_labels; case_bool_decide; [cbn; lia|].
    rewrite labels_len_split; lia. }
  split_and!; [by rewrite <- canonical_wire_lower| | |done].
  - apply Forall_fmap; eapply Forall_impl; [exact Hok|]; intros l; unfold label_ok; cbn.
    by rewrite to_ascii_lowercase_len.
  - rewrite Heq; apply canonical_of_labels_ok; split_and!; [done|by apply nss_labels_bytes|].
    by rewrite <- Heq.
Qed.

Lemma records_answer_ok : Forall answer_ok records.
Proof using Haddrs.
  apply Forall_forall; intros r ([ip i] & Hin & Hr)%list_elem_of_omap.
  rewrite Forall_forall in Haddrs; specialize (Haddrs _ Hin); cbn in *.
  destruct (address_data_ok qtype ip r Haddrs Hr) as (Ht & Hb & Hl).
  split_and!; [done|unfold is_u16; cbn; lia|done|unfold u16_max; lia].
Qed.

Lemma answers_len_le : len (answers ttl records) ≤ 28 * len records.
Proof using Haddrs.
  clear Hcount; induction Haddrs as [|[ip i] addrs' Hip Ht IH]; [done|]; specialize (IH Ht).
  cbn [omap list_omap fst]; destruct (address_data qtype ip) as [r|] eqn:Hr; [|exact IH].
  destruct (address_data_ok qtype ip r Hip Hr) as (_ & _ & Hl).
  rewrite answers_cons, len_app, answer_bytes_len, len_cons; lia.
Qed.

Lemma answer_packet_ok : packet_ok packet.
Proof using All.
  destruct question_labels_ok as (_ & _ & Hb & Hl); rewrite build_answer_eq by done; split.
  - rewrite !bytes_ok_app; split_and!; [|done|by apply u16_bytes_ok|by apply u16_bytes_ok|].
    + apply header_bytes_ok; unfold header_ok, nss_header, nss_flags; cbn; pose proof (len_nonneg records).
      unfold is_u16, u16_max in *; destruct aa; lia.
    + by apply answers_bytes_ok, records_answer_ok.
  - rewrite !len_app, header_bytes_len; pose proof answers_len_le; unfold u16_max in Hcount.
    change (len (u16_bytes qtype)) with 2; change (len (u16_bytes 1)) with 2; lia.
Qed.

Lemma answer_question : plain_question packet (question_labels name) qtype 1 stop.
Proof using All.
  pose proof answer_packet_ok as Hp; destruct question_labels_ok as (Heq & Hok & Hb & Hl).
  rewrite build_answer_eq in * by done.
  pose proof (header_bytes_len (nss_header id aa (len records))) as Hhd.
  generalize dependent (header_bytes (nss_header id aa (len records))); intros hd Hp Hhd.
  unfold plain_question; split_and!.
  - replace (stop - 4) with (len hd + len w) by lia; rewrite <- Hhd at 1; rewrite Heq, <- !app_assoc.
    by apply name_at_wire.
  - rewrite canonical_of_labels_len, <- wire_of_labels_len, <- Heq; lia.
  - eapply read_u16_within with (pre := hd ++ w); [done|by rewrite <- !app_assoc|len_lia].
  - eapply read_u16_within with (pre := hd ++ w ++ u16_bytes qtype);
      [done|by rewrite <- !app_assoc|len_lia].
Qed.

Definition record_fields (r : ResourceRecord) : DnsName * Z * Z * Z * bytes :=
  (r_name r, r_rr_type r, r_class r, r_ttl r, r_rdata r).

Lemma answer_records_fields labels o (rs : list (Z * bytes)) :
  record_fields <$> answer_records labels ttl o rs =
  (λ r, (labels_name labels, r.1, 1, ttl, r.2)) <$> rs.
Proof. revert o; induction rs as [|r rs IH]; intros o; cbn; [done|]; by rewrite IH. Qed.

Lemma answer_sections :
  ∃ rs, parse_sections packet =
      Ok (nss_header id aa (len records), [mk_question (labels_name (question_labels name)) qtype 1 stop],
          rs, len packet) ∧
    record_fields <$> rs = (λ r, (labels_name (question_labels name), r.1, 1, ttl, r.2)) <$> records.
Proof using All.
  pose proof answer_packet_ok as Hp; pose proof answer_question as Hq.
  eexists; split; [|apply (answer_records_fields (question_labels name) stop)].
  destruct (plain_question_parse _ _ _ _ _ Hp Hq) as [Hpq Hstop].
  assert (header_parse packet = Ok (nss_header id aa (len records))) as Hh.
  { rewrite build_answer_eq in * by done; rewrite <- app_assoc in *; by apply header_parse_bytes. }
  unfold parse_sections; rewrite Hh; cbn [mbind outcome_bind nss_header h_question_count total_records].
  change (Z.to_nat 1) with 1%nat; cbn [parse_questions]; change DNS_HEADER_LEN with 12; rewrite Hpq.
  cbn [mbind outcome_bind q_next_offset].
  assert (len head = stop) as Hlen.
  { rewrite !len_app, header_bytes_len; change (len (u16_bytes qtype)) with 2.
    change (len (u16_bytes 1)) with 2; lia. }
  pose proof (parse_answers packet (question_labels name) qtype 1 stop ttl Hp Hq head records) as Hrs.
  rewrite Hlen in Hrs; unfold total_records, nss_header; cbn [h_answer_count h_authority_count
    h_additional_count].
  replace (Z.to_nat (len records + 0 + 0)) with (length records) by (unfold len; lia).
  rewrite Hrs; [done| |lia]; by apply build_answer_eq.
Qed.
End answer.

(** ** Properties *)

(** The answer packet built from addresses is read back by the parser: one
    question, that of the name in lower case, and exactly one record for each
    address of the family asked for (both for ANY), in their order, with the
    address as its data; nothing follows them. *)
Theorem address_answer_exact id name w qtype addrs ttl aa :
  name_to_wire_lower name = Ok w → Forall scalar name → is_u16 id → is_u16 qtype → is_u32 ttl →
  Forall (λ a, ip_ok a.1) addrs → len (omap (λ a, address_data qtype a.1) addrs) ≤ u16_max →
  let p := build_address_answer id w qtype addrs ttl aa in
  let owner := labels_name (question_labels name) in
  ∃ h q rs, parse_sections p = Ok (h, [q], rs, len p) ∧
    h = nss_header id aa (len rs) ∧ q_name q = owner ∧ q_rr_type q = qtype ∧ q_class q = 1 ∧
    record_fields <$> rs =
      (λ r, (owner, r.1, 1, ttl, r.2)) <$> omap (λ a, address_data qtype a.1) addrs.
Proof.
  intros Hw Hname Hid Hq Httl Ha Hn p owner.
  destruct (answer_sections id qtype ttl aa name w addrs) as (rs & Hp & Hrs); try done.
  eexists _, _, rs; split; [exact Hp|]; split_and!; try done.
  apply (f_equal length) in Hrs; rewrite !length_fmap in Hrs; unfold len; by rewrite Hrs.
Qed.

(** A name that is encoded is decoded to itself in lower case, without its final
    dots. *)
Theorem nss_name_roundtrip name w :
  name_to_wire_lower name = Ok w → Forall scalar name →
  wire_to_presentation w =
    Ok (if bool_decide (nss_name name = []) then lit "." else to_ascii_lowercase (nss_name name)).
Proof.
  intros (_ & Hok & Hlen & ->)%name_to_wire_lower_iff Hs%nss_name_scalar; unfold nss_labels in *.
  case_bool_decide as Hn; [done|]; unfold wire_to_presentation.
  pose proof (labels_len_split (nss_name name)) as Hl; pose proof (labels_len_count _ Hok) as Hc.
  rewrite presentation_labels; [|done|by apply split_on_Forall|rewrite len_fmap in Hc; lia|lia].
  cbv zeta; rewrite <- split_on_lowercase.
  assert (after [] (split_on dot (to_ascii_lowercase (nss_name name))) =
    to_ascii_lowercase (nss_name name)) as ->.
  { rewrite <- (join_split dot (to_ascii_lowercase (nss_name name))) at 2; unfold after.
    generalize (split_on dot (to_ascii_lowercase (nss_name name))); by intros []. }
  rewrite bool_decide_eq_false_2; [done|]; by intros ?%fmap_nil_inv.
Qed.

Lemma shm_roundtrip ip ifindex : ip_ok ip → shm_to_ip (ip_to_shm ip ifindex) = Some ip.
Proof. destruct ip as [o|o]; intros [_ Ho]; cbn; [|done]; by rewrite take_app_length' by len_lia. Qed.

Lemma address_answer_exact_witness :
  let name := lit "Ex.Org." in
  let addrs := [(V4 [192; 0; 2; 7], 2); (V6 (replicate 15 0 ++ [1]), 2)] in
  ∃ h q rs, parse_sections (build_address_answer 7 [2; 101; 120; 3; 111; 114; 103; 0] 255 addrs 60 true) =
      Ok (h, [q], rs, 68) ∧
    h = nss_header 7 true (len rs) ∧ q_name q = labels_name (question_labels name) ∧
    q_rr_type q = 255 ∧ q_class q = 1 ∧
    record_fields <$> rs =
      (λ r, (labels_name (question_labels name), r.1, 1, 60, r.2)) <$>
        [(1, [192; 0; 2; 7]); (28, replicate 15 0 ++ [1])].
Proof.
  intros name addrs.
  apply (address_answer_exact 7 name [2; 101; 120; 3; 111; 114; 103; 0] 255 addrs 60 true);
    try (unfold is_u16, is_u32; lia).
  - reflexivity.
  - repeat constructor; unfold scalar; vm_compute; intuition congruence.
  - repeat constructor; unfold is_u8; cbn; lia.
  - vm_compute; congruence.
Defined.

Lemma nss_name_roundtrip_witness :
  wire_to_presentation [2; 101; 120; 3; 111; 114; 103; 0] = Ok (lit "ex.org").
Proof.
  apply (nss_name_roundtrip (lit "Ex.Org.")); [reflexivity|].
  repeat constructor; unfold scalar; vm_compute; intuition congruence.
Defined.
