(* ===== verification/Llmnr.v ===== *)
(** * LLMNR

    Models [src/llmnr/engine.rs]: the links that answer for names, the packets of
    a query and of its response, what a response says, and the handling of both.
    The socket yields the datagrams of a query one by one; sending fails or
    not. *)

From S2P Require Import Prelude Text Utf8 Net Sorting.

Inductive LlmnrMode : Type := LlmnrNo | LlmnrResolve | LlmnrYes.
#[global] Instance LlmnrMode_eq_dec : EqDecision LlmnrMode.
Proof. solve_decision. Defined.

Definition llmnr_mode_parse (s : str) : LlmnrMode :=
  let v := to_ascii_lowercase s in
  if bool_decide (v ∈ [lit "yes"; lit "true"; lit "1"]) then LlmnrYes
  else if bool_decide (v = lit "resolve") then LlmnrResolve else LlmnrNo.

Record LlmnrLinkCfg : Type := mk_llmnr_link {
  ll_ifindex : Z;
  ll_mode : LlmnrMode;
  ll_claim_names : list str;
  ll_addresses_v4 : list bytes;
  ll_addresses_v6 : list bytes;
}.

Record LlmnrConflict : Type := mk_conflict {
  lc_name : str;
  lc_ifindex : Z;
  lc_peer : SocketAddr;
  lc_at : Z;
}.

Record LlmnrQueryResult : Type := mk_llmnr_result {
  lq_name : str;
  lq_addrs : list IpAddr;
  lq_from : list SocketAddr;
}.

Record LlmnrEngine : Type := mk_llmnr {
  le_links : gmap Z LlmnrLinkCfg;
  le_conflicts : list LlmnrConflict;
  le_inflight : gmap Z (str * Z);
}.

Inductive LlmnrError : Type := LlmnrTimeout | LlmnrWire | LlmnrIo (error : IoError) | LlmnrDisabled.

Definition LLMNR_PORT : Z := 5355.
Definition LLMNR_MCAST_V4 : bytes := [224; 0; 0; 252].

Definition llmnr_new : LlmnrEngine := mk_llmnr ∅ [] ∅.

Definition llmnr_set_link (e : LlmnrEngine) (cfg : LlmnrLinkCfg) : LlmnrEngine :=
  { e with le_links := <[ll_ifindex cfg := cfg]> (le_links e) }.

Definition llmnr_clear_link (e : LlmnrEngine) (ifindex : Z) : LlmnrEngine :=
  { e with le_links := delete ifindex (le_links e) }.

Definition llmnr_norm (n : str) : str := to_ascii_lowercase (trim_end_matches dot n).

Definition we_own (e : LlmnrEngine) (ifindex : Z) (name : str) : bool :=
  let n := llmnr_norm name in
  match le_links e !! ifindex with
  | Some l =>
      bool_decide (ll_mode l = LlmnrYes) &&
      existsb (λ c, bool_decide (llmnr_norm c = n)) (ll_claim_names l)
  | None => false
  end.

Definition any_yes (e : LlmnrEngine) : bool :=
  existsb (λ e, bool_decide (ll_mode e.2 = LlmnrYes)) (map_to_list (le_links e)).

(** ** Packets *)

(** The loop of [parse_qname] from octet [i]; each round moves on. *)
Fixpoint qname_loop (fuel : nat) (pkt : bytes) (i : Z) : option (list str) :=
  match fuel with
  | O => None
  | S fuel =>
      match bget pkt i with
      | None => None
      | Some l =>
          if l =? 0 then Some []
          else if Z.land l 0xc0 =? 0xc0 then None
          else if (63 <? l) || (len pkt <? i + 1 + l) then None
          else
            labels ← qname_loop fuel pkt (i + 1 + l);
            Some (from_utf8_lossy (take (Z.to_nat l) (drop (Z.to_nat (i + 1)) pkt)) :: labels)
      end
  end.

Definition parse_qname (pkt : bytes) : option str :=
  if len pkt <? 13 then None
  else join_with [dot] <$> qname_loop (length pkt) pkt 12.

(** [skip_name], and the loop of [qtype_at]: the octet after a name. *)
Fixpoint skip_name (fuel : nat) (pkt : bytes) (i : Z) : option Z :=
  match fuel with
  | O => None
  | S fuel =>
      match bget pkt i with
      | None => None
      | Some l =>
          if l =? 0 then Some (i + 1)
          else if Z.land l 0xc0 =? 0xc0 then Some (i + 2)
          else skip_name fuel pkt (i + 1 + l)
      end
  end.

Definition after_name (pkt : bytes) (i : Z) : option Z := skip_name (S (length pkt)) pkt i.

(** [u16::from_be_bytes] of two octets in range. *)
Definition be16_at (pkt : bytes) (i : Z) : option Z :=
  a ← bget pkt i; b ← bget pkt (i + 1); Some (be16 a b).

Definition qtype_at (pkt : bytes) : option Z :=
  i ← after_name pkt 12;
  if len pkt <? i + 4 then None else be16_at pkt i.

Fixpoint query_labels (labels : list str) : option bytes :=
  match labels with
  | [] => Some []
  | lab :: labels =>
      if bool_decide (lab = []) || (63 <? str_len lab) then None
      else rest ← query_labels labels; Some (str_len lab :: as_bytes lab ++ rest)
  end.

Definition build_query (id : Z) (name : str) (qtype : Z) : option bytes :=
  labels ← query_labels (split_on dot (trim_end_matches dot name));
  Some (u16_bytes id ++ u16_bytes 0 ++ u16_bytes 1 ++ u16_bytes 0 ++ u16_bytes 0 ++ u16_bytes 0 ++
        labels ++ [0] ++ u16_bytes qtype ++ u16_bytes 1).

(** A record of the response: its type and data. *)
Definition llmnr_record (ttl : Z) (r : Z * bytes) : bytes :=
  [0xc0; 0x0c] ++ u16_bytes r.1 ++ u16_bytes 1 ++ u32_bytes ttl ++ u16_bytes (len r.2) ++ r.2.

(** The header with the flags and counts of a response: octets 2, 3 and 6 to 11
    are written. *)
Definition response_header (query : bytes) (an : Z) : bytes :=
  take 2 query ++ [0x84; 0] ++ take 2 (drop 4 query) ++
  [Z.shiftr an 8 mod 256; an mod 256; 0; 0; 0; 0].

Definition llmnr_response (query : bytes) (v4 v6 : list bytes) : option bytes :=
  if len query <? 12 then None
  else
    let an := (len v4 + len v6) mod 2 ^ 16 in
    qend ← after_name query 12;
    let r := response_header query an ++ drop 12 query in
    Some (take (Z.to_nat (Z.max (qend + 4) 12)) r ++
          (((λ a, (1, a)) <$> v4) ≫= llmnr_record 30) ++ (((λ a, (28, a)) <$> v6) ≫= llmnr_record 30)).

(** The loop of [extract_addrs] over the answers. *)
Fixpoint addrs_loop (an : nat) (pkt : bytes) (i : Z) (out : list IpAddr) : list IpAddr :=
  match an with
  | O => out
  | S an =>
      match after_name pkt i with
      | None => out
      | Some i =>
          if len pkt <? i + 10 then out
          else
            match be16_at pkt i, be16_at pkt (i + 8) with
            | Some typ, Some rdlen =>
                let i := i + 10 in
                if len pkt <? i + rdlen then out
                else
                  let rdata := take (Z.to_nat rdlen) (drop (Z.to_nat i) pkt) in
                  let out :=
                    if (typ =? 1) && (rdlen =? 4) then out ++ [V4 rdata]
                    else if (typ =? 28) && (rdlen =? 16) then out ++ [V6 rdata] else out in
                  addrs_loop an pkt (i + rdlen) out
            | _, _ => out
            end
      end
  end.

Definition extract_addrs (pkt : bytes) (out : list IpAddr) : list IpAddr :=
  if len pkt <? 12 then out
  else
    match be16_at pkt 6, after_name pkt 12 with
    | Some an, Some i => addrs_loop (Z.to_nat an) pkt (i + 4) out
    | _, _ => out
    end.

(** ** Handling *)

(** The response of a link that owns the name. *)
Definition link_response (e : LlmnrEngine) (pkt : bytes) (qname : str) (qtype : Z) (l : LlmnrLinkCfg) :
    option bytes :=
  if negb (bool_decide (ll_mode l = LlmnrYes)) || negb (we_own e (ll_ifindex l) qname) then None
  else
    let v4 := if (qtype =? 1) || (qtype =? 255) then ll_addresses_v4 l else [] in
    let v6 := if (qtype =? 28) || (qtype =? 255) then ll_addresses_v6 l else [] in
    llmnr_response pkt v4 v6.

(** What is sent to the peer, in the order of the links. *)
Definition llmnr_handle_query `{!IterOrder Z LlmnrLinkCfg} (token : Z) (e : LlmnrEngine) (pkt : bytes) :
    list bytes :=
  match parse_qname pkt with
  | None => []
  | Some qname =>
      omap (link_response e pkt qname (default 1 (qtype_at pkt))) (iter_order token (le_links e)).*2
  end.

(** [handle_response] at time [now]. *)
Definition llmnr_handle_response `{!IterOrder Z LlmnrLinkCfg} (token now : Z) (e : LlmnrEngine)
    (pkt : bytes) (peer : SocketAddr) : LlmnrEngine :=
  match be16_at pkt 0, parse_qname pkt with
  | Some id, Some qname =>
      match le_inflight e !! id with
      | None => e
      | Some (name, _) =>
          let e := { e with le_inflight := delete id (le_inflight e) } in
          if negb (bool_decide (llmnr_norm name = llmnr_norm qname)) then e
          else
            { e with le_conflicts := le_conflicts e ++
                omap (λ l, if we_own e (ll_ifindex l) name
                           then Some (mk_conflict name (ll_ifindex l) peer now) else None)
                  (iter_order token (le_links e)).*2 }
      end
  | _, _ => e
  end.

(** [run_udp] on one datagram: the responses sent and the engine after it. *)
Definition llmnr_receive `{!IterOrder Z LlmnrLinkCfg} (token now : Z) (e : LlmnrEngine)
    (pkt : bytes) (peer : SocketAddr) : list bytes * LlmnrEngine :=
  let pkt := take 2048 pkt in
  if len pkt <? 12 then ([], e)
  else if Z.land (default 0 (bget pkt 2)) 0x80 =? 0 then (llmnr_handle_query token e pkt, e)
  else ([], llmnr_handle_response token now e pkt peer).

(** The loop of [query]: [rounds] are what [recv_from] yields before the
    deadline, [None] its error or timeout. *)
Fixpoint query_rounds (id : Z) (rounds : list (option (bytes * SocketAddr))) (addrs : list IpAddr)
    (from : list SocketAddr) : list IpAddr * list SocketAddr :=
  match rounds with
  | Some (pkt, peer) :: rounds =>
      let pkt := take 2048 pkt in
      if (12 <=? len pkt) && bool_decide (be16_at pkt 0 = Some id) &&
         negb (Z.land (default 0 (bget pkt 2)) 0x80 =? 0)
      then query_rounds id rounds (extract_addrs pkt addrs) (from ++ [peer])
      else query_rounds id rounds addrs from
  | _ => (addrs, from)
  end.

Definition llmnr_query (e : LlmnrEngine) (id now : Z) (name : str) (qtype : Z)
    (send_to : bytes → SocketAddr → IoError + unit) (rounds : list (option (bytes * SocketAddr))) :
    outcome LlmnrError LlmnrQueryResult * LlmnrEngine :=
  match build_query id name qtype with
  | None => (Err LlmnrWire, e)
  | Some q =>
      let e := { e with le_inflight := <[id := (name, now)]> (le_inflight e) } in
      match send_to q (sock_new (V4 LLMNR_MCAST_V4) LLMNR_PORT) with
      | inl error => (Err (LlmnrIo error), e)
      | inr _ =>
          let '(addrs, from) := query_rounds id rounds [] [] in
          let e := { e with le_inflight := delete id (le_inflight e) } in
          if bool_decide (addrs = []) then (Err LlmnrTimeout, e)
          else (Ok (mk_llmnr_result name addrs from), e)
      end
  end.

(** [rand_id] from the nanoseconds of the clock. *)
Definition rand_id (nanos : Z) : Z := Z.lxor (nanos mod 2 ^ 16) 0xa5a5.
