(* ===== verification/LlmnrFacts.v ===== *)
(** * What an LLMNR query learns

    The packets of [Llmnr] are read back by the other side: the responder reads
    the name and type that were asked, the querier the addresses of each
    response. *)

From S2P Require Import Prelude Text Utf8 Net Sorting Llmnr.

(** ** Names *)

Lemma bget_at (p q : bytes) x : bget (p ++ x :: q) (len p) = Some x.
Proof. rewrite bget_app_r by lia; by rewrite Z.sub_diag. Qed.

Lemma label_bound labels w lab :
  query_labels (lab :: labels) = Some w →
  1 ≤ len (as_bytes lab) ≤ 63 ∧
  ∃ rest, query_labels labels = Some rest ∧ w = len (as_bytes lab) :: as_bytes lab ++ rest.
Proof.
  cbn; rewrite <- as_bytes_len; case_bool_decide as Hl; cbn; [done|]; case_match eqn:Hn; [done|].
  boolp; intros (rest & Hr & Hw)%bind_Some; simplify_eq; split; [|by eauto].
  split; [|lia]; destruct lab as [|c lab]; [done|]; rewrite as_bytes_cons, len_app.
  assert (1 ≤ len (char_bytes c)) by (unfold char_bytes, len; repeat case_match; cbn; lia).
  pose proof (len_nonneg (as_bytes lab)); lia.
Qed.

Lemma not_pointer l : 1 ≤ l ≤ 63 → (l =? 0) = false ∧ (Z.land l 0xc0 =? 0xc0) = false.
Proof.
  intros Hl; split; [lia|]; apply Z.eqb_neq.
  change 0xc0 with (Z.shiftl 3 6); intros H; apply (f_equal (λ x, Z.shiftr x 6)) in H.
  rewrite Z.shiftr_land, !(Z.shiftr_div_pow2 l) in H by lia.
  by rewrite Z.div_small in H by lia.
Qed.

Lemma label_assoc (pre lab rest post : bytes) x :
  pre ++ x :: (lab ++ rest) ++ post = (pre ++ x :: lab) ++ rest ++ post.
Proof. by rewrite <- !app_assoc. Qed.

Lemma skip_name_query labels : ∀ w pre post fuel,
  query_labels labels = Some w → (length labels < fuel)%nat →
  skip_name fuel (pre ++ w ++ 0 :: post) (len pre) = Some (len pre + len w + 1).
Proof.
  induction labels as [|lab labels IH]; intros w pre post [|fuel] Hw Hf; cbn [length] in Hf; try lia.
  - injection Hw as <-; cbn [app skip_name]; rewrite bget_at, Z.eqb_refl, len_nil; f_equal; lia.
  - apply label_bound in Hw as (Hl & rest & Hr & ->); cbn [app skip_name]; rewrite bget_at.
    destruct (not_pointer _ Hl) as [-> ->].
    rewrite label_assoc.
    replace (len pre + 1 + len (as_bytes lab)) with (len (pre ++ len (as_bytes lab) :: as_bytes lab))
      by len_lia.
    rewrite (IH rest) by (done || lia); f_equal; len_lia.
Qed.

Lemma qname_loop_query labels : ∀ w pre post fuel,
  query_labels labels = Some w → Forall (Forall scalar) labels → (length labels < fuel)%nat →
  qname_loop fuel (pre ++ w ++ 0 :: post) (len pre) = Some labels.
Proof.
  induction labels as [|lab labels IH]; intros w pre post [|fuel] Hw Hs Hf; cbn [length] in Hf; try lia.
  - injection Hw as <-; cbn [app qname_loop]; by rewrite bget_at.
  - apply label_bound in Hw as (Hl & rest & Hr & ->); inversion_clear Hs as [|? ? Hlab Hlabs].
    cbn [app qname_loop]; rewrite bget_at; destruct (not_pointer _ Hl) as [-> ->].
    rewrite label_assoc.
    replace (len pre + 1 + len (as_bytes lab)) with (len (pre ++ len (as_bytes lab) :: as_bytes lab))
      by len_lia.
    rewrite (IH rest) by (done || lia).
    rewrite (proj2 (Z.ltb_ge 63 _)), (proj2 (Z.ltb_ge _ _)) by len_lia; cbn; do 2 f_equal.
    change (pre ++ len (as_bytes lab) :: as_bytes lab) with (pre ++ [len (as_bytes lab)] ++ as_bytes lab).
    rewrite (app_assoc pre), <- (app_assoc (pre ++ _)).
    replace (Z.to_nat (len pre + 1)) with (length (pre ++ [len (as_bytes lab)]))
      by (rewrite length_app; unfold len; cbn; lia).
    rewrite drop_app_length; unfold len; rewrite Nat2Z.id, take_app_length; by apply lossy_as_bytes.
Qed.

(** ** Responses *)

(** An address record has the length of its family. *)
Definition record_ok (r : Z * bytes) : Prop := r.1 = 1 ∧ len r.2 = 4 ∨ r.1 = 28 ∧ len r.2 = 16.

Definition record_addr (r : Z * bytes) : IpAddr := if r.1 =? 1 then V4 r.2 else V6 r.2.

Lemma be16_at_app pre v post : is_u16 v → be16_at (pre ++ u16_bytes v ++ post) (len pre) = Some v.
Proof.
  intros Hv; unfold be16_at, u16_bytes; cbn [app]; rewrite bget_at; cbn.
  change (v / 256 :: v mod 256 :: post) with ([v / 256] ++ v mod 256 :: post).
  rewrite app_assoc; replace (len pre + 1) with (len (pre ++ [v / 256])) by len_lia.
  rewrite bget_at; cbn; by rewrite be16_u16_bytes.
Qed.

Lemma be16_at_offset p pre v post i :
  p = pre ++ u16_bytes v ++ post → i = len pre → is_u16 v → be16_at p i = Some v.
Proof. intros -> -> Hv; by apply be16_at_app. Qed.

Lemma take_drop_mid (p v q : bytes) i n :
  i = len p → n = len v → take (Z.to_nat n) (drop (Z.to_nat i) (p ++ v ++ q)) = v.
Proof.
  intros -> ->; unfold len; by rewrite !Nat2Z.id, drop_app_length, take_app_length.
Qed.

Lemma addrs_loop_record an pre r post out :
  record_ok r →
  addrs_loop (S an) (pre ++ llmnr_record 30 r ++ post) (len pre) out =
  addrs_loop an ((pre ++ llmnr_record 30 r) ++ post) (len (pre ++ llmnr_record 30 r)) (out ++ [record_addr r]).
Proof.
  destruct r as [t data]; intros Hr; unfold record_ok in Hr; cbn [fst snd] in Hr.
  assert (is_u16 t ∧ is_u16 (len data)) as [Ht Hd] by (unfold is_u16; lia).
  set (p := pre ++ llmnr_record 30 (t, data) ++ post); rewrite <- app_assoc; fold p.
  assert (len p = len pre + 12 + len data + len post) as Hp
    by (subst p; unfold llmnr_record; cbn [fst snd]; len_lia).
  pose proof (len_nonneg post); cbn [addrs_loop].
  assert (after_name p (len pre) = Some (len pre + 2)) as ->.
  { unfold after_name; cbn [skip_name]; subst p; unfold llmnr_record; cbn [app]; by rewrite bget_at. }
  rewrite (proj2 (Z.ltb_ge _ _)) by lia.
  rewrite (be16_at_offset p (pre ++ [0xc0; 0x0c]) t
    (u16_bytes 1 ++ u32_bytes 30 ++ u16_bytes (len data) ++ data ++ post));
    [|subst p; unfold llmnr_record; cbn [fst snd]; by rewrite <- !app_assoc|len_lia|done].
  rewrite (be16_at_offset p (pre ++ [0xc0; 0x0c] ++ u16_bytes t ++ u16_bytes 1 ++ u32_bytes 30) (len data)
    (data ++ post)); [|subst p; unfold llmnr_record; cbn [fst snd]; by rewrite <- !app_assoc|len_lia|done].
  rewrite (proj2 (Z.ltb_ge _ _)) by lia.
  replace (take _ (drop _ p)) with data.
  2:{ replace p with ((pre ++ [0xc0; 0x0c] ++ u16_bytes t ++ u16_bytes 1 ++ u32_bytes 30 ++
        u16_bytes (len data)) ++ data ++ post)
        by (subst p; unfold llmnr_record; cbn [fst snd]; by rewrite <- !app_assoc).
      symmetry; apply take_drop_mid; len_lia. }
  f_equal; [unfold llmnr_record; cbn [fst snd]; len_lia|].
  unfold record_addr; cbn [fst snd]; destruct Hr as [[-> ->]|[-> ->]]; done.
Qed.

Lemma addrs_loop_records rs : ∀ pre post out,
  Forall record_ok rs →
  addrs_loop (length rs) (pre ++ (rs ≫= llmnr_record 30) ++ post) (len pre) out =
  out ++ (record_addr <$> rs).
Proof.
  induction rs as [|r rs IH]; intros pre post out Hrs; [by rewrite app_nil_r|].
  inversion_clear Hrs as [|? ? Hr Hrs']; cbn [length]; rewrite bind_cons, <- app_assoc.
  rewrite addrs_loop_record, IH by done; by rewrite <- app_assoc.
Qed.

(** ** A query and its responses *)

Lemma query_labels_length labels : ∀ w, query_labels labels = Some w → (length labels ≤ length w)%nat.
Proof.
  induction labels as [|lab labels IH]; intros w Hw; [cbn; lia|].
  apply label_bound in Hw as (_ & rest & Hr & ->); specialize (IH _ Hr).
  cbn; rewrite length_app; lia.
Qed.

Definition query_header (id : Z) : bytes :=
  u16_bytes id ++ u16_bytes 0 ++ u16_bytes 1 ++ u16_bytes 0 ++ u16_bytes 0 ++ u16_bytes 0.

Definition answer_header (id an : Z) : bytes :=
  u16_bytes id ++ [0x84; 0] ++ u16_bytes 1 ++ u16_bytes an ++ [0; 0; 0; 0].

Section exchange.
Context (id qtype : Z) (name : str) (w : bytes).
Hypothesis Hid : is_u16 id.
Hypothesis Hqtype : is_u16 qtype.
Hypothesis Hname : Forall scalar name.
Hypothesis Hw : query_labels (split_on dot (trim_end_matches dot name)) = Some w.

Notation question := (w ++ 0 :: u16_bytes qtype ++ u16_bytes 1).
Notation q := (query_header id ++ question).

Lemma after_question hdr post :
  len hdr = 12 → after_name (hdr ++ w ++ 0 :: post) 12 = Some (13 + len w).
Proof using Hw.
  intros Hh; unfold after_name; rewrite <- Hh, (skip_name_query _ _ _ _ _ Hw); [f_equal; lia|].
  apply query_labels_length in Hw; rewrite !length_app; lia.
Qed.

Lemma query_qname : parse_qname q = Some (trim_end_matches dot name).
Proof using Hname Hw.
  unfold parse_qname; rewrite (proj2 (Z.ltb_ge _ _)) by (unfold query_header; len_lia).
  change 12 with (len (query_header id)).
  rewrite (qname_loop_query _ _ _ _ _ Hw); [cbn; by rewrite join_split|..].
  - by apply split_on_Forall, trim_end_matches_Forall.
  - apply query_labels_length in Hw; rewrite !length_app; cbn; lia.
Qed.

Lemma query_qtype : qtype_at q = Some qtype.
Proof using Hqtype Hw.
  unfold qtype_at; rewrite after_question by done; cbn [mbind option_bind].
  rewrite (proj2 (Z.ltb_ge _ _)) by (unfold query_header; len_lia).
  apply (be16_at_offset _ (query_header id ++ w ++ [0]) _ (u16_bytes 1));
    [by rewrite <- !app_assoc|unfold query_header; len_lia|done].
Qed.

Lemma response_of v4 v6 rs :
  rs = ((λ a, (1, a)) <$> v4) ++ ((λ a, (28, a)) <$> v6) → len v4 + len v6 < 2 ^ 16 →
  llmnr_response q v4 v6 =
    Some (answer_header id (len rs) ++ question ++ (rs ≫= llmnr_record 30)).
Proof using Hw.
  intros -> Hn; unfold llmnr_response.
  rewrite (proj2 (Z.ltb_ge _ _)) by (unfold query_header; len_lia).
  rewrite after_question by done; cbn [mbind option_bind].
  pose proof (len_nonneg v4); pose proof (len_nonneg v6).
  rewrite Z.mod_small, bind_app, len_app, !len_fmap by lia.
  assert (response_header q (len v4 + len v6) = answer_header id (len v4 + len v6)) as ->.
  { unfold response_header; rewrite Z.shiftr_div_pow2, Z.mod_small by
      (first [lia | Z.to_euclidean_division_equations; lia]); done. }
  change (drop 12 q) with question; rewrite take_ge; [by rewrite <- !app_assoc|].
  unfold len, answer_header; rewrite !length_app; cbn; lia.
Qed.

Lemma response_addrs rs out :
  Forall record_ok rs → len rs < 2 ^ 16 →
  extract_addrs (answer_header id (len rs) ++ question ++ (rs ≫= llmnr_record 30)) out =
  out ++ (record_addr <$> rs).
Proof using Hw.
  intros Hrs Hn; pose proof (len_nonneg rs); unfold extract_addrs.
  rewrite (proj2 (Z.ltb_ge _ _)) by (unfold answer_header; len_lia).
  rewrite <- !app_assoc; cbn [app].
  rewrite after_question by done.
  rewrite (be16_at_offset _ (u16_bytes id ++ [0x84; 0] ++ u16_bytes 1) (len rs)
    ([0; 0; 0; 0] ++ w ++ 0 :: (u16_bytes qtype ++ u16_bytes 1) ++ (rs ≫= llmnr_record 30)));
    [|done|done|unfold is_u16; lia].
  rewrite <- (addrs_loop_records rs (answer_header id (len rs) ++ question) [] out Hrs).
  unfold len at 1; rewrite Nat2Z.id, app_nil_r; f_equal;
    [by rewrite <- !app_assoc|unfold answer_header; len_lia].
Qed.
End exchange.

(** The links in the order of an iteration that answer for a name. *)
Definition owners `{!IterOrder Z LlmnrLinkCfg} (token : Z) (e : LlmnrEngine) (name : str) :
    list LlmnrLinkCfg :=
  List.filter (λ l, we_own e (ll_ifindex l) name) (iter_order token (le_links e)).*2.

(** The addresses of the asked type. *)
Definition link_records (qtype : Z) (l : LlmnrLinkCfg) : list (Z * bytes) :=
  ((λ a, (1, a)) <$> (if (qtype =? 1) || (qtype =? 255) then ll_addresses_v4 l else [])) ++
  ((λ a, (28, a)) <$> (if (qtype =? 28) || (qtype =? 255) then ll_addresses_v6 l else [])).

Definition link_addrs (qtype : Z) (l : LlmnrLinkCfg) : list IpAddr :=
  (V4 <$> (if (qtype =? 1) || (qtype =? 255) then ll_addresses_v4 l else [])) ++
  (V6 <$> (if (qtype =? 28) || (qtype =? 255) then ll_addresses_v6 l else [])).

(** A link stored under its index, whose addresses fit a response of [room]
    octets. *)
Definition llmnr_link_ok (room ifindex : Z) (l : LlmnrLinkCfg) : Prop :=
  ll_ifindex l = ifindex ∧
  Forall (λ a, len a = 4) (ll_addresses_v4 l) ∧ Forall (λ a, len a = 16) (ll_addresses_v6 l) ∧
  16 * len (ll_addresses_v4 l) + 28 * len (ll_addresses_v6 l) ≤ room.

Lemma link_records_addrs qtype l : record_addr <$> link_records qtype l = link_addrs qtype l.
Proof.
  unfold link_records, link_addrs; rewrite fmap_app, <- !list_fmap_compose; f_equal; by apply list_fmap_ext.
Qed.

Section links.
Context (room i : Z) (l : LlmnrLinkCfg) (Hl : llmnr_link_ok room i l) (qtype : Z).

Lemma link_records_ok : Forall record_ok (link_records qtype l).
Proof using Hl.
  destruct Hl as (_ & H4 & H6 & _); unfold link_records; apply Forall_app; split; apply Forall_fmap.
  - case_match; [|constructor]; eapply Forall_impl; [exact H4|]; cbn; unfold record_ok; cbn; auto.
  - case_match; [|constructor]; eapply Forall_impl; [exact H6|]; cbn; unfold record_ok; cbn; auto.
Qed.

Lemma records_len rs : Forall record_ok rs →
  len (rs ≫= llmnr_record 30) = 12 * len rs + foldr (λ r n, len r.2 + n) 0 rs.
Proof.
  induction 1 as [|r rs Hr _ IH]; [done|]; rewrite bind_cons, len_app, len_cons, IH.
  unfold llmnr_record; cbn [foldr]; len_lia.
Qed.

Lemma family_len t n (data : list bytes) k : Forall (λ a, len a = n) data →
  foldr (λ (r : Z * bytes) n, len r.2 + n) k ((λ a, (t, a)) <$> data) = n * len data + k.
Proof.
  induction 1 as [|a data Ha _ IH]; [cbn; unfold len; cbn; lia|]; rewrite fmap_cons, len_cons.
  cbn [foldr snd]; rewrite IH; lia.
Qed.

Lemma link_records_room : len (link_records qtype l ≫= llmnr_record 30) ≤ room.
Proof using Hl.
  rewrite records_len by apply link_records_ok.
  destruct Hl as (_ & H4 & H6 & Hr); unfold link_records.
  rewrite len_app, !len_fmap, foldr_app.
  set (a4 := if (qtype =? 1) || (qtype =? 255) then ll_addresses_v4 l else []).
  set (a6 := if (qtype =? 28) || (qtype =? 255) then ll_addresses_v6 l else []).
  assert (Forall (λ a, len a = 4) a4 ∧ len a4 ≤ len (ll_addresses_v4 l)) as [F4 L4]
    by (subst a4; case_match; split; try done; try constructor; len_lia).
  assert (Forall (λ a, len a = 16) a6 ∧ len a6 ≤ len (ll_addresses_v6 l)) as [F6 L6]
    by (subst a6; case_match; split; try done; try constructor; len_lia).
  rewrite (family_len 28 16), (family_len 1 4) by done; lia.
Qed.
End links.

Lemma trim_idem c s : trim_end_matches c (trim_end_matches c s) = trim_end_matches c s.
Proof. apply trim_end_matches_id; by destruct (trim_end_matches_spec c s) as (n & _ & H). Qed.

Lemma we_own_trim e i name : we_own e i (trim_end_matches dot name) = we_own e i name.
Proof. unfold we_own, llmnr_norm; by rewrite trim_idem. Qed.

Section responder.
Context `{io : !IterOrder Z LlmnrLinkCfg, !IterOrderOk io} (token : Z) (e : LlmnrEngine) (room : Z).
Context (id qtype : Z) (name : str) (w : bytes).
Hypothesis Hid : is_u16 id.
Hypothesis Hqtype : is_u16 qtype.
Hypothesis Hname : Forall scalar name.
Hypothesis Hw : query_labels (split_on dot (trim_end_matches dot name)) = Some w.
Hypothesis Hlinks : map_Forall (llmnr_link_ok room) (le_links e).
Hypothesis Hroom : room < 2 ^ 16.

Notation question := (w ++ 0 :: u16_bytes qtype ++ u16_bytes 1).
Notation q := (query_header id ++ question).

(** The response of a link. *)
Definition owner_response (l : LlmnrLinkCfg) : bytes :=
  answer_header id (len (link_records qtype l)) ++ question ++ (link_records qtype l ≫= llmnr_record 30).

Lemma records_count i l : llmnr_link_ok room i l → len (link_records qtype l) < 2 ^ 16.
Proof using Hroom.
  intros Hl; pose proof (link_records_room _ _ _ Hl qtype) as Hr.
  rewrite (records_len (link_records qtype l)) in Hr by exact (link_records_ok _ _ _ Hl qtype).
  assert (0 ≤ foldr (λ (r : Z * bytes) n, len r.2 + n) 0 (link_records qtype l)).
  { clear; induction (link_records qtype l) as [|r rs IH]; cbn; [lia|]; pose proof (len_nonneg r.2); lia. }
  pose proof (len_nonneg (link_records qtype l)); lia.
Qed.

Lemma link_response_owner i l :
  le_links e !! i = Some l →
  link_response e q (trim_end_matches dot name) qtype l =
  if we_own e (ll_ifindex l) name then Some (owner_response l) else None.
Proof using Hw Hlinks Hroom.
  intros Hi; pose proof (Hlinks i l Hi) as Hl; unfold link_response; rewrite we_own_trim.
  destruct (we_own e (ll_ifindex l) name) eqn:Ho; cbn [negb]; [|by rewrite orb_true_r].
  assert (ll_mode l = LlmnrYes) as Hm.
  { pose proof Hl as (Hx & _); unfold we_own in Ho; rewrite Hx, Hi in Ho; boolp; tauto. }
  rewrite (bool_decide_eq_true_2 _ Hm); cbn.
  rewrite (response_of id qtype name w Hw _ _ (link_records qtype l)); [done|done|].
  pose proof (records_count i l Hl) as Hc; unfold link_records in Hc.
  by rewrite len_app, !len_fmap in Hc.
Qed.

Lemma handle_query_owners :
  llmnr_handle_query token e q = owner_response <$> owners token e name.
Proof using All.
  unfold llmnr_handle_query, owners; rewrite (query_qname id qtype name w Hname Hw).
  rewrite (query_qtype id qtype name w Hqtype Hw).
  change (default 1 (Some qtype)) with qtype.
  assert (Forall (λ l, ∃ i, le_links e !! i = Some l) (iter_order token (le_links e)).*2) as Hall.
  { apply Forall_fmap, Forall_forall; intros [i l] Hin; exists i; cbn.
    rewrite iter_order_perm in Hin; by apply elem_of_map_to_list in Hin. }
  induction Hall as [|l ls (i & Hi) _ IH]; [done|]; cbn [omap list_omap List.filter].
  rewrite (link_response_owner i l Hi), IH; by destruct (we_own e (ll_ifindex l) name).
Qed.

Lemma owners_link l : l ∈ owners token e name → ∃ i, llmnr_link_ok room i l.
Proof using All.
  unfold owners; rewrite elem_of_bfilter; intros [([i l'] & -> & Hin)%list_elem_of_fmap _]; exists i.
  rewrite iter_order_perm in Hin; apply elem_of_map_to_list in Hin; by apply Hlinks.
Qed.

(** The rounds of the querier over the responses of links. *)
Lemma rounds_owners from ls : ∀ addrs froms,
  len q + room ≤ 2048 → Forall (λ l, ∃ i, llmnr_link_ok room i l) ls →
  query_rounds id ((λ r, Some (r, from)) <$> (owner_response <$> ls)) addrs froms =
  (addrs ++ (ls ≫= link_addrs qtype), froms ++ replicate (length ls) from).
Proof using Hid Hw Hroom.
  intros addrs froms Hlen Hls; revert addrs froms.
  induction Hls as [|l ls (i & Hl) _ IH]; intros addrs froms; cbn [fmap list_fmap query_rounds].
  { by rewrite !app_nil_r. }
  assert (take 2048 (owner_response l) = owner_response l) as ->.
  { apply take_ge; pose proof (link_records_room _ _ _ Hl qtype).
    enough (len (owner_response l) ≤ 2048) by (unfold len in *; lia).
    unfold owner_response; revert Hlen; rewrite !len_app; unfold answer_header, query_header; len_lia. }
  replace (be16_at (owner_response l) 0) with (Some id)
    by (symmetry; by apply (be16_at_offset _ [] id _ 0 eq_refl)).
  rewrite (proj2 (Z.leb_le _ _)) by (unfold owner_response, answer_header; len_lia).
  rewrite bool_decide_eq_true_2 by done; change (bget (owner_response l) 2) with (Some 0x84); cbn [default].
  assert (extract_addrs (owner_response l) addrs = addrs ++ link_addrs qtype l) as ->.
  { rewrite <- link_records_addrs; unfold owner_response; apply (response_addrs id qtype name w Hw);
      [exact (link_records_ok _ _ _ Hl qtype)|exact (records_count i l Hl)]. }
  cbn [andb negb]; change (Z.land _ _ =? 0) with false; cbn [negb].
  rewrite IH; cbn [length replicate]; rewrite bind_cons; by rewrite <- !app_assoc.
Qed.
End responder.

(** What a query learns when every link of the network's responder that owns the
    name answers: the addresses of the asked type that the owning links have,
    each link's in its order, or a timeout when they have none. *)
Definition llmnr_learnt (name : str) (qtype : Z) (from : SocketAddr) (ls : list LlmnrLinkCfg) :
    outcome LlmnrError LlmnrQueryResult :=
  if bool_decide (ls ≫= link_addrs qtype = []) then Err LlmnrTimeout
  else Ok (mk_llmnr_result name (ls ≫= link_addrs qtype) (replicate (length ls) from)).

(** C35: a query that a responder receives is answered once by each link that is set to
    answer and claims the name, whatever the order of the links and the case and
    trailing dots of the name; the responder's state does not change; and the
    querier that receives these responses returns exactly the addresses of the
    asked type of those links, or a timeout when there are none, and no longer
    waits for the query. *)
Theorem llmnr_query_answered `{io : !IterOrder Z LlmnrLinkCfg} token now now' (e e' : LlmnrEngine)
    room id qtype name packet send_to from peer :
  IterOrderOk io → is_u16 id → is_u16 qtype → Forall scalar name →
  build_query id name qtype = Some packet → len packet + room ≤ 2048 →
  map_Forall (llmnr_link_ok room) (le_links e) → 0 ≤ room →
  send_to packet (sock_new (V4 [224; 0; 0; 252]) 5355) = inr () →
  let received := llmnr_receive token now e packet peer in
  length received.1 = length (owners token e name) ∧ received.2 = e ∧
  llmnr_query e' id now' name qtype send_to ((λ r, Some (r, from)) <$> received.1) =
    (llmnr_learnt name qtype from (owners token e name),
     { e' with le_inflight := delete id (le_inflight e') }).
Proof.
  intros Hio Hid Hqt Hname Hq Hlen Hlinks Hroom Hsend received; pose proof Hq as Hq'.
  pose proof (len_nonneg packet).
  unfold build_query in Hq'; apply bind_Some in Hq' as (w & Hw & Hp); apply (inj Some) in Hp.
  assert (packet = query_header id ++ w ++ 0 :: u16_bytes qtype ++ u16_bytes 1) as Hpkt
    by (rewrite <- Hp; unfold query_header; by rewrite <- !app_assoc).
  assert (received = (owner_response id qtype w <$> owners token e name, e)) as ->.
  { subst received; unfold llmnr_receive; rewrite take_ge by (unfold len in Hlen; lia).
    rewrite Hpkt, (proj2 (Z.ltb_ge _ _)) by (unfold query_header; len_lia); cbn -[llmnr_handle_query].
    by rewrite <- (handle_query_owners token e room id qtype name w) by (done || lia). }
  cbn [fst snd]; rewrite length_fmap; split_and!; [done|done|].
  unfold llmnr_query, LLMNR_MCAST_V4, LLMNR_PORT; rewrite Hq, Hsend.
  assert (Forall (λ l, ∃ i, llmnr_link_ok room i l) (owners token e name)) as Hown
    by (apply Forall_forall; intros l; eapply owners_link; done || lia).
  rewrite (rounds_owners room id qtype name w) by (done || lia || by rewrite <- Hpkt).
  cbn -[owners]; unfold llmnr_learnt; rewrite delete_insert_eq; by case_bool_decide.
Qed.

Definition example_links : LlmnrEngine :=
  llmnr_set_link
    (llmnr_set_link llmnr_new
      (mk_llmnr_link 2 LlmnrYes [lit "Host."; lit "other"] [[10; 0; 0; 1]; [10; 0; 0; 2]]
        [replicate 16 1]))
    (mk_llmnr_link 3 LlmnrResolve [lit "host"] [[10; 0; 0; 3]] []).

(** Of two links that claim "host" only the one set to answer does. *)
Lemma llmnr_query_answered_witness :
  llmnr_query llmnr_new 7 0 (lit "HOST") 1 (λ _ _, inr ())
    ((λ r, Some (r, sock_new (V4 [10; 0; 0; 1]) 5355)) <$>
      (@llmnr_receive map_order 0 0 example_links
        (default [] (build_query 7 (lit "HOST") 1)) (sock_new (V4 [10; 0; 0; 9]) 5355)).1) =
  (Ok (mk_llmnr_result (lit "HOST") [V4 [10; 0; 0; 1]; V4 [10; 0; 0; 2]]
         [sock_new (V4 [10; 0; 0; 1]) 5355]), llmnr_new).
Proof.
  refine (proj2 (proj2 (@llmnr_query_answered map_order 0 0 0 example_links llmnr_new 100 7 1 (lit "HOST")
    (default [] (build_query 7 (lit "HOST") 1)) (λ _ _, inr ()) (sock_new (V4 [10; 0; 0; 1]) 5355)
    (sock_new (V4 [10; 0; 0; 9]) 5355) _ _ _ _ _ _ _ _ _))).
  - by unfold is_u16.
  - by unfold is_u16.
  - repeat constructor; unfold scalar; lia.
  - reflexivity.
  - vm_compute; discriminate.
  - unfold example_links, llmnr_set_link, llmnr_new; cbn.
    repeat apply map_Forall_insert_2; [..|apply map_Forall_empty];
      unfold llmnr_link_ok; cbn; split_and!; try done; by repeat constructor.
  - done.
  - reflexivity.
Defined.
