(* ===== verification/Hosts.v ===== *)
(** * Hosts

    Models [src/hosts.rs]: the table of [/etc/hosts] in both directions, and
    the local answers to questions. *)

From S2P Require Import Prelude Text Net Sorting Codec Packet Records.

Record Hosts : Type := mk_hosts {
  by_name : gmap str (list IpAddr);
  by_address : gmap IpAddr (list str);
}.

Definition hosts_default : Hosts := mk_hosts ∅ ∅.

Definition canonical_name (name : str) : str := to_ascii_lowercase (trim_end_matches dot name).

Definition ipv4_localhost : bytes := [127; 0; 0; 1].

Definition add_host (ip : IpAddr) (hosts : Hosts) (name : str) : Hosts :=
  let canonical := canonical_name name in
  if bool_decide (canonical = []) then hosts
  else
    let addresses := default [] (by_name hosts !! canonical) in
    let names := default [] (by_address hosts !! ip) in
    mk_hosts (<[canonical := push_new addresses ip]> (by_name hosts))
             (<[ip := push_new names canonical]> (by_address hosts)).

Definition hosts_line (hosts : Hosts) (raw_line : str) : Hosts :=
  let line := match split_once 35 raw_line with Some (head, _) => head | None => raw_line end in
  match split_whitespace line with
  | [] => hosts
  | field :: fields =>
      match parse_ip field with
      | Some ip => foldl (add_host ip) hosts fields
      | None => hosts
      end
  end.

Definition hosts_parse (text : str) : Hosts := foldl hosts_line hosts_default (lines text).

Definition synthetic_addresses (name : str) : list IpAddr :=
  let named s := bool_decide (name = lit s) in
  if named "localhost" || named "localhost.localdomain" then [V4 ipv4_localhost; V6 ipv6_loopback]
  else if named "localhost4" || named "localhost4.localdomain4" then [V4 ipv4_localhost]
  else if named "localhost6" || named "localhost6.localdomain6" then [V6 ipv6_loopback]
  else if named "_localdnsstub" then [V4 [127; 0; 0; 53]]
  else if named "_localdnsproxy" then [V4 [127; 0; 0; 54]]
  else [].

Definition synthetic_names (ip : IpAddr) : list str :=
  match ip with
  | V4 a =>
      if bool_decide (a = ipv4_localhost) then [lit "localhost"]
      else if bool_decide (a = [127; 0; 0; 53]) then [lit "_localdnsstub"]
      else if bool_decide (a = [127; 0; 0; 54]) then [lit "_localdnsproxy"]
      else []
  | V6 a => if bool_decide (a = ipv6_loopback) then [lit "localhost"] else []
  end.

Definition address_record (rr_type : Z) (ip : IpAddr) : option LocalRecord :=
  match ip with
  | V4 a => if (rr_type =? TYPE_A) || (rr_type =? 255) then Some (LocalA a) else None
  | V6 a => if (rr_type =? TYPE_AAAA) || (rr_type =? 255) then Some (LocalAaaa a) else None
  end.

(** Every address of a name: synthetic, literal, from the table. *)
Definition host_addresses (hosts : Hosts) (name : str) : list IpAddr :=
  let addresses := synthetic_addresses name in
  let addresses := match parse_ip name with Some ip => addresses ++ [ip] | None => addresses end in
  foldl push_new addresses (default [] (by_name hosts !! name)).

Definition lookup_forward (hosts : Hosts) (question : Question) : option (list LocalRecord) :=
  match host_addresses hosts (canonical_name (name_text (q_name question))) with
  | [] => None
  | addresses => Some (omap (address_record (q_rr_type question)) addresses)
  end.

Definition lookup_reverse (hosts : Hosts) (question : Question) : option (list LocalRecord) :=
  ip ← parse_reverse_name (name_text (q_name question));
  match foldl push_new (synthetic_names ip) (default [] (by_address hosts !! ip)) with
  | [] => None
  | names => Some (LocalPtr <$> names)
  end.

Definition known_name (hosts : Hosts) (name : str) : bool :=
  let name := canonical_name name in
  bool_decide (is_Some (by_name hosts !! name))
  || negb (bool_decide (synthetic_addresses name = []))
  || bool_decide (is_Some (parse_ip name)).

Definition hosts_lookup (hosts : Hosts) (question : Question) : option (list LocalRecord) :=
  if negb (q_class question =? CLASS_IN) && negb (q_class question =? CLASS_ANY) then None
  else if (q_rr_type question =? TYPE_A) || (q_rr_type question =? TYPE_AAAA)
          || (q_rr_type question =? 255)
  then lookup_forward hosts question
  else if q_rr_type question =? TYPE_PTR then lookup_reverse hosts question
  else if known_name hosts (name_text (q_name question)) then Some [] else None.

(** [Hosts::load], from what reading the file gave; [None] is [NotFound]. *)
Definition hosts_load (text : IoError + option str) : IoError + Hosts :=
  match text with
  | inl e => inl e
  | inr None => inr hosts_default
  | inr (Some text) => inr (hosts_parse text)
  end.
