(* ===== verification/Json.v ===== *)
(** * JSON

    The JSON values of the Varlink interface and of the static record files
    (json.rs): the recursive-descent parser, whose state is the input left and
    the offset in octets, and the printer.  An object is a [BTreeMap], its
    entries in the order of their keys. *)

From S2P Require Import Prelude Stateful Text Records.

Inductive Value : Type :=
  | Null
  | Bool (b : bool)
  | Number (n : Z)
  | String (s : str)
  | Array (values : list Value)
  | Object (entries : list (str * Value)).

Definition object (entries : list (str * Value)) : Value :=
  Object (fold_left (λ m '(k, v), btree_insert k v m) entries []).

Definition json_get (v : Value) (key : str) : option Value :=
  match v with Object o => btree_get key o | _ => None end.

Definition as_str (v : Value) : option str := match v with String s => Some s | _ => None end.
Definition as_bool (v : Value) : option bool := match v with Bool b => Some b | _ => None end.
Definition as_array (v : Value) : option (list Value) :=
  match v with Array vs => Some vs | _ => None end.

Definition as_i64 (v : Value) : option Z :=
  match v with
  | Number n => if (- 2 ^ 63 <=? n) && (n <? 2 ^ 63) then Some n else None
  | _ => None
  end.

Definition as_u64 (v : Value) : option Z :=
  match v with
  | Number n => if (0 <=? n) && (n <? 2 ^ 64) then Some n else None
  | _ => None
  end.

(** ** Printing *)

Definition quote : Z := 34.
Definition backslash : Z := 92.
Definition comma : Z := 44.
Definition colon : Z := 58.
Definition minus : Z := 45.

(** [{:04x}]. *)
Definition show_hex4 (n : Z) : str :=
  hex_digit (Z.land (Z.shiftr n 12) 0xf) ++ hex_digit (Z.land (Z.shiftr n 8) 0xf) ++
  hex_digit (Z.land (Z.shiftr n 4) 0xf) ++ hex_digit (Z.land n 0xf).

Definition write_char (c : Z) : str :=
  if c =? quote then [backslash; quote]
  else if c =? backslash then [backslash; backslash]
  else if c =? 8 then backslash :: lit "b"
  else if c =? 12 then backslash :: lit "f"
  else if c =? 10 then backslash :: lit "n"
  else if c =? 13 then backslash :: lit "r"
  else if c =? 9 then backslash :: lit "t"
  else if c <? 32 then backslash :: lit "u" ++ show_hex4 c
  else [c].

Definition write_string (s : str) : str := [quote] ++ (s ≫= write_char) ++ [quote].

(** [{}] on an [i128]. *)
Definition show_i128 (n : Z) : str :=
  if n <? 0 then minus :: show_digits 40 (- n) [] else show_digits 40 n [].

Fixpoint to_json (v : Value) : str :=
  match v with
  | Null => lit "null"
  | Bool b => if b then lit "true" else lit "false"
  | Number n => show_i128 n
  | String s => write_string s
  | Array vs =>
      lit "[" ++ join_with [comma] (map to_json vs) ++ lit "]"
  | Object o =>
      lit "{" ++ join_with [comma] (map (λ '(k, v), write_string k ++ [colon] ++ to_json v) o) ++
      lit "}"
  end.

(** ** Parsing *)

Record JsonError : Type := mk_json_error {
  je_offset : Z;
  je_message : str;
}.

(** [p_rest] is [remaining()]. *)
Record Parser : Type := mk_parser {
  p_rest : str;
  p_offset : Z;
}.

Abbreviation jp := (st Parser JsonError).

Definition error {A} (message : str) : jp A := λ p, (Err (mk_json_error (p_offset p) message), p).

Definition first_byte (s : str) : option Z :=
  match s with c :: _ => head (char_bytes c) | [] => None end.

Definition byte : jp (option Z) := λ p, (Ok (first_byte (p_rest p)), p).

(** [self.offset += 1] past an ASCII character. *)
Definition bump : jp unit := modify (λ p, mk_parser (tail (p_rest p)) (p_offset p + 1)).

Definition is_json_space (c : Z) : bool := (c =? 32) || (c =? 10) || (c =? 13) || (c =? 9).

Fixpoint skip_spaces (s : str) (offset : Z) : Parser :=
  match s with
  | c :: s' => if is_json_space c then skip_spaces s' (offset + 1) else mk_parser s offset
  | [] => mk_parser [] offset
  end.

Definition skip_whitespace : jp unit := modify (λ p, skip_spaces (p_rest p) (p_offset p)).

Definition literal (l : str) : jp unit := λ p,
  match strip_prefix l (p_rest p) with
  | Some rest => (Ok (), mk_parser rest (p_offset p + str_len l))
  | None => error (lit "expected " ++ l) p
  end.

(** Four octets from the offset on, as hexadecimal digits. *)
Definition parse_hex_quad : jp Z :=
  p ← get;
  match slice (as_bytes (p_rest p)) 0 4 with
  | None => error (lit "short Unicode escape")
  | Some bs =>
      match parse_hex_digits 0 bs with
      | None => error (lit "invalid hexadecimal digit in Unicode escape")
      | Some value => _ ← put (mk_parser (drop 4 (p_rest p)) (p_offset p + 4)); mret value
      end
  end.

(** [char::from_u32]. *)
Definition char_from_u32 (n : Z) : option Z :=
  if (n <=? 0x10ffff) && negb ((0xd800 <=? n) && (n <=? 0xdfff)) then Some n else None.

Definition parse_unicode_escape : jp Z :=
  first ← parse_hex_quad;
  scalar ←
    (if (0xd800 <=? first) && (first <=? 0xdbff) then
       p ← get;
       match strip_prefix (backslash :: lit "u") (p_rest p) with
       | None => error (lit "high surrogate is not followed by a low surrogate")
       | Some rest =>
           _ ← put (mk_parser rest (p_offset p + 2));
           second ← parse_hex_quad;
           if negb ((0xdc00 <=? second) && (second <=? 0xdfff))
           then error (lit "invalid low surrogate")
           else mret (0x10000 + Z.shiftl (first - 0xd800) 10 + (second - 0xdc00))
       end
     else if (0xdc00 <=? first) && (first <=? 0xdfff)
     then error (lit "unpaired low surrogate")
     else mret first);
  match char_from_u32 scalar with
  | Some c => mret c
  | None => error (lit "invalid Unicode scalar value")
  end.

(** The character an escape stands for. *)
Definition parse_escape : jp Z :=
  escape ← byte;
  match escape with
  | None => error (lit "unterminated escape")
  | Some e =>
      _ ← bump;
      if (e =? quote) || (e =? backslash) || (e =? 47) then mret e
      else if e =? 98 then mret 8
      else if e =? 102 then mret 12
      else if e =? 110 then mret 10
      else if e =? 114 then mret 13
      else if e =? 116 then mret 9
      else if e =? 117 then parse_unicode_escape
      else error (lit "invalid escape")
  end.

(** The characters up to the closing quote.  Each turn takes one at least. *)
Fixpoint parse_chars (fuel : nat) (output : str) : jp str :=
  match fuel with
  | O => lift Diverge
  | S fuel =>
      p ← get;
      match p_rest p with
      | [] => error (lit "unterminated string")
      | c :: rest =>
          if c =? quote then _ ← bump; mret output
          else if c =? backslash then
            _ ← bump; c ← parse_escape; parse_chars fuel (output ++ [c])
          else if c <=? 31 then error (lit "control character in string")
          else _ ← put (mk_parser rest (p_offset p + char_len c)); parse_chars fuel (output ++ [c])
      end
  end.

Definition parse_string : jp str :=
  b ← byte;
  if negb (bool_decide (b = Some quote)) then error (lit "expected string")
  else
    _ ← bump;
    p ← get;
    parse_chars (S (length (p_rest p))) [].

Definition take_digits : jp str := λ p,
  let '(digits, rest) := span is_digit (p_rest p) in
  (Ok digits, mk_parser rest (p_offset p + len digits)).

(** The digits: a zero by itself, or those from another digit on. *)
Definition number_digits : jp str :=
  b ← byte;
  match b with
  | Some d =>
      if d =? 48 then
        _ ← bump;
        next ← byte;
        match next with
        | Some n => if is_digit n then error (lit "leading zero in number") else mret [48]
        | None => mret [48]
        end
      else if is_digit d then take_digits
      else error (lit "number has no digits")
  | None => error (lit "number has no digits")
  end.

Definition parse_number : jp Z :=
  b ← byte;
  sign ← (if bool_decide (b = Some minus) then _ ← bump; mret [minus] else mret []);
  digits ← number_digits;
  b ← byte;
  if bool_decide (b = Some 46 ∨ b = Some 101 ∨ b = Some 69)
  then error (lit "non-integer numbers are not supported by this interface")
  else
    match parse_signed (2 ^ 127 - 1) (sign ++ digits) with
    | Some n => mret n
    | None => error (lit "integer out of range")
    end.

(** The elements after the first bracket or comma. *)
Fixpoint parse_elements (parse_value : jp Value) (fuel : nat) (values : list Value) :
    jp (list Value) :=
  match fuel with
  | O => lift Diverge
  | S fuel =>
      v ← parse_value;
      let values := values ++ [v] in
      _ ← skip_whitespace;
      b ← byte;
      if bool_decide (b = Some comma) then _ ← bump; parse_elements parse_value fuel values
      else if bool_decide (b = Some 93) then _ ← bump; mret values
      else error (lit "expected ',' or ']'")
  end.

Fixpoint parse_members (parse_value : jp Value) (fuel : nat) (members : list (str * Value)) :
    jp (list (str * Value)) :=
  match fuel with
  | O => lift Diverge
  | S fuel =>
      _ ← skip_whitespace;
      key ← parse_string;
      _ ← skip_whitespace;
      b ← byte;
      if negb (bool_decide (b = Some colon)) then error (lit "expected ':'")
      else
        _ ← bump;
        v ← parse_value;
        if bool_decide (is_Some (btree_get key members)) then error (lit "duplicate key")
        else
          let members := btree_insert key v members in
          _ ← skip_whitespace;
          b ← byte;
          if bool_decide (b = Some comma) then _ ← bump; parse_members parse_value fuel members
          else if bool_decide (b = Some 125) then _ ← bump; mret members
          else error (lit "expected ',' or '}'")
  end.

Definition parse_array (parse_value : jp Value) : jp Value :=
  _ ← bump;
  _ ← skip_whitespace;
  b ← byte;
  if bool_decide (b = Some 93) then _ ← bump; mret (Array [])
  else
    p ← get;
    values ← parse_elements parse_value (S (length (p_rest p))) [];
    mret (Array values).

Definition parse_object (parse_value : jp Value) : jp Value :=
  _ ← bump;
  _ ← skip_whitespace;
  b ← byte;
  if bool_decide (b = Some 125) then _ ← bump; mret (Object [])
  else
    p ← get;
    members ← parse_members parse_value (S (length (p_rest p))) [];
    mret (Object members).

(** The nesting is no deeper than the input is long, which bounds the recursion.
    The code has no other limit, as here; the stack it needs is not modelled. *)
Fixpoint parse_value (fuel : nat) : jp Value :=
  match fuel with
  | O => lift Diverge
  | S fuel =>
      _ ← skip_whitespace;
      b ← byte;
      match b with
      | None => error (lit "unexpected end of input")
      | Some b =>
          if b =? 110 then _ ← literal (lit "null"); mret Null
          else if b =? 116 then _ ← literal (lit "true"); mret (Bool true)
          else if b =? 102 then _ ← literal (lit "false"); mret (Bool false)
          else if b =? quote then s ← parse_string; mret (String s)
          else if b =? 91 then parse_array (parse_value fuel)
          else if b =? 123 then parse_object (parse_value fuel)
          else if (b =? minus) || is_digit b then n ← parse_number; mret (Number n)
          else error (lit "unexpected token")
      end
  end.

Definition json_parse (input : str) : outcome JsonError Value :=
  ((value ← parse_value (S (length input));
   _ ← skip_whitespace;
   p ← get;
   match p_rest p with
   | [] => mret value
   | _ => error (lit "trailing data")
   end) (mk_parser input 0)).1.
