(* ===== verification/JsonFacts.v ===== *)
(** * JSON: theorems

    The parser returns on every input, and what it returns is well formed; the
    text printed for a well-formed value parses back to it. *)

From S2P Require Import Prelude Stateful Text Records Json.

(** ** Values *)

(** What the types of json.rs promise: characters are characters, numbers are
    [i128], keys are in order. *)
Inductive value_ok : Value → Prop :=
  | ok_null : value_ok Null
  | ok_bool b : value_ok (Bool b)
  | ok_number n : - 2 ^ 127 ≤ n < 2 ^ 127 → value_ok (Number n)
  | ok_string s : str_ok s → value_ok (String s)
  | ok_array vs : Forall value_ok vs → value_ok (Array vs)
  | ok_object o :
      Forall (λ e, str_ok e.1 ∧ value_ok e.2) o → StronglySorted str_lt o.*1 → value_ok (Object o).

Section value_ind.
Context (P : Value → Prop) (HNull : P Null) (HBool : ∀ b, P (Bool b)).
Context (HNumber : ∀ n, P (Number n)) (HString : ∀ s, P (String s)).
Context (HArray : ∀ vs, Forall P vs → P (Array vs)).
Context (HObject : ∀ o, Forall (λ e, P e.2) o → P (Object o)).

Fixpoint value_ind' (v : Value) : P v :=
  match v with
  | Null => HNull
  | Bool b => HBool b
  | Number n => HNumber n
  | String s => HString s
  | Array vs =>
      HArray vs ((fix go vs := match vs return Forall P vs with
        | [] => Forall_nil_2 _
        | v :: vs => Forall_cons_2 _ _ _ (value_ind' v) (go vs)
        end) vs)
  | Object o =>
      HObject o ((fix go o := match o return Forall (λ e, P e.2) o with
        | [] => Forall_nil_2 _
        | e :: o => Forall_cons_2 _ _ _ (value_ind' e.2) (go o)
        end) o)
  end.
End value_ind.

(** ** The parser returns *)

(** [p'] is [p] less at least [k] characters. *)
Definition shrinks (k : nat) (p p' : Parser) : Prop :=
  str_ok (p_rest p') ∧ (length (p_rest p') + k ≤ length (p_rest p))%nat.

(** On inputs of at most [n] characters, [m] returns a value that satisfies [Q]
    and takes at least [k] characters, or fails. *)
Definition eats {A} (n k : nat) (m : jp A) (Q : A → Prop) : Prop :=
  ∀ p, str_ok (p_rest p) → (length (p_rest p) ≤ n)%nat →
    swp m p (λ a p', shrinks k p p' ∧ Q a) (λ _ _, True).

Lemma eats_bind {A B} n k k' (m : jp A) (f : A → jp B) Q Q' :
  eats n k m Q → (∀ a, Q a → eats (n - k) k' (f a) Q') → eats n (k + k') (m ≫= f) Q'.
Proof.
  intros Hm Hf p Hp Hn; apply swp_bind; eapply swp_mono; [by apply Hm| |done].
  intros a p' [[Hp' Hl] Ha]; eapply swp_mono; [apply Hf; [done|done|lia]| |done].
  intros b p'' [[Hp'' Hl'] Hb]; split; [split; [done|lia]|done].
Qed.

Lemma eats_mono {A} n k n' k' (m : jp A) (Q Q' : A → Prop) :
  eats n k m Q → (n' ≤ n)%nat → (k' ≤ k)%nat → (∀ a, Q a → Q' a) → eats n' k' m Q'.
Proof.
  intros Hm Hn Hk HQ p Hp Hl; eapply swp_mono; [apply Hm; [done|lia]| |done].
  intros a p' [[? ?] ?]; split; [split; [done|lia]|auto].
Qed.

Lemma eats_ret {A} n (a : A) (Q : A → Prop) : Q a → eats n 0 (mret a) Q.
Proof. intros Ha p Hp Hl; apply swp_ret; split; [split; [done|lia]|done]. Qed.

Lemma eats_error {A} n k m (Q : A → Prop) : eats n k (error m) Q.
Proof. by intros p Hp Hl. Qed.

Lemma str_ok_tail s : str_ok s → str_ok (tail s).
Proof. destruct s; [done|]; by intros [_ ?]%Forall_cons. Qed.

(** A test of the next octet. *)
Lemma eats_byte {A} n k (f : option Z → jp A) Q :
  (∀ p, str_ok (p_rest p) → (length (p_rest p) ≤ n)%nat →
     swp (f (first_byte (p_rest p))) p (λ a p', shrinks k p p' ∧ Q a) (λ _ _, True)) →
  eats n k (byte ≫= f) Q.
Proof. intros Hf p Hp Hl; by apply Hf. Qed.

Lemma first_byte_None s : first_byte s = None → s = [].
Proof. destruct s as [|c s]; [done|]; cbn; unfold char_bytes; by repeat case_match. Qed.

Lemma first_byte_Some s b : first_byte s = Some b → s ≠ [].
Proof. by intros H ->. Qed.

(** Past a character that is there. *)
Lemma eats_bump_then {A} n k (f : () → jp A) Q p :
  p_rest p ≠ [] → eats (n - 1) k (f ()) Q → str_ok (p_rest p) → (length (p_rest p) ≤ n)%nat →
  swp (bump ≫= f) p (λ a p', shrinks (1 + k) p p' ∧ Q a) (λ _ _, True).
Proof.
  intros Hne Hf Hp Hl; destruct p as [[|c s] o]; [done|]; cbn in *.
  eapply swp_mono; [apply (Hf (mk_parser s (o + 1))); cbn; [by apply str_ok_tail in Hp|lia]| |done].
  intros a p' [[? ?] ?]; cbn in *; split; [split; [done|cbn; lia]|done].
Qed.

Lemma eats_skip n : eats n 0 skip_whitespace (λ _, True).
Proof.
  intros [s o]; cbn; intros Hp Hl; unfold swp, skip_whitespace, modify; cbn; split; [|done].
  clear Hl; revert o Hp; induction s as [|c s IH]; intros o Hp; cbn; [split; [done|cbn; lia]|].
  case_match; [|split; [done|cbn; lia]].
  apply Forall_cons in Hp as [_ Hp]; destruct (IH (o + 1) Hp) as [? ?]; split; [done|cbn in *; lia].
Qed.

Lemma eats_literal n l : l ≠ [] → eats n 1 (literal l) (λ _, True).
Proof.
  intros Hl [s o] Hp Hn; unfold swp, literal; cbn in *.
  destruct (strip_prefix l s) as [rest|] eqn:Hs; [|done]; apply strip_prefix_Some in Hs as ->.
  split; [split; cbn|done].
  - by apply Forall_app in Hp as [_ ?].
  - rewrite length_app; destruct l; [done|cbn; lia].
Qed.

Lemma parse_hex_digits_bound s v acc : parse_hex_digits acc s = Some v → 0 ≤ acc →
  0 ≤ v < (acc + 1) * 16 ^ len s.
Proof.
  revert acc; induction s as [|c s IH]; intros acc; cbn; [intros [= <-] Ha; replace (16 ^ _) with 1 by done; lia|].
  destruct (hex_value c) as [d|] eqn:Hd; cbn; [|done]; intros Hv Ha.
  assert (0 ≤ d < 16) by (unfold hex_value, is_digit in Hd; repeat case_match; simplify_eq; boolp; lia).
  apply IH in Hv; [|lia]; rewrite len_cons, Z.pow_add_r by (pose proof (len_nonneg s); lia).
  pose proof (Z.pow_pos_nonneg 16 (len s) ltac:(lia) (len_nonneg s)).
  generalize dependent (16 ^ len s); intros x Hv Hx; change (16 ^ 1) with 16.
  assert ((acc * 16 + d + 1) * x ≤ (acc + 1) * 16 * x) by (apply Z.mul_le_mono_nonneg_r; lia); lia.
Qed.

Lemma eats_hex_quad n : eats n 0 parse_hex_quad (λ v, 0 ≤ v < 65536).
Proof.
  intros p Hp Hn; unfold parse_hex_quad, swp, mbind, st_bind, get; cbn.
  destruct (slice (as_bytes (p_rest p)) 0 4) as [bs|] eqn:Hs; [|done].
  destruct (parse_hex_digits 0 bs) as [v|] eqn:Hv; cbn; [|done].
  apply slice_len in Hs; apply parse_hex_digits_bound in Hv; [|lia]; rewrite Hs in Hv.
  split; [split; cbn; [by apply Forall_drop|rewrite length_drop; lia]|cbn in Hv; lia].
Qed.

Definition char_ok (c : Z) : Prop := 0 ≤ c < 0x110000.

Lemma eats_unicode_escape n : eats n 0 parse_unicode_escape char_ok.
Proof.
  unfold parse_unicode_escape; apply (eats_bind n 0 0 _ _ (λ v, 0 ≤ v < 65536));
    [apply eats_hex_quad|]; intros first Hfirst.
  apply (eats_bind _ 0 0 _ _ (λ v, 0 ≤ v)).
  - case_match; [|case_match; [apply eats_error|apply eats_ret; lia]]; boolp.
    intros p Hp Hl; apply swp_bind, swp_get; destruct (strip_prefix _ (p_rest p)) as [rest|] eqn:Hs; [|done].
    apply strip_prefix_Some in Hs; rewrite Hs in Hp, Hl; apply swp_bind, swp_put; eapply swp_mono.
    + apply (eats_bind n 0 0 parse_hex_quad _ (λ v, 0 ≤ v < 65536) (λ v, 0 ≤ v));
        [apply eats_hex_quad| |by do 2 apply Forall_cons in Hp as [_ Hp]|cbn in *; lia].
      intros second Hsecond; case_match; [apply eats_error|apply eats_ret]; boolp.
      rewrite Z.shiftl_mul_pow2 by lia; lia.
    + intros v p' [[? Hlen] ?]; split; [split; [done|]|done]; rewrite Hs; cbn in *; lia.
    + done.
  - intros v Hv; case_match eqn:Hc; [|apply eats_error]; apply eats_ret.
    unfold char_from_u32 in Hc; case_match; simplify_eq; boolp; unfold char_ok; lia.
Qed.

Lemma eats_escape n : eats n 1 parse_escape char_ok.
Proof.
  unfold parse_escape; apply eats_byte; intros p Hp Hl.
  destruct (first_byte (p_rest p)) as [e|] eqn:He; [|done].
  apply (eats_bump_then n 0); [by eapply first_byte_Some| |done|done].
  assert (∀ c, char_ok c → eats (n - 1) 0 (mret c) char_ok) as Hret by (intros; by apply eats_ret).
  repeat match goal with |- context [if ?b then _ else _] => destruct b eqn:? end;
    first [apply eats_unicode_escape | apply eats_error | apply Hret];
    unfold char_ok, quote, backslash in *; boolp; intuition lia.
Qed.

Lemma eats_chars fuel n output :
  (n < fuel)%nat → str_ok output → eats n 1 (parse_chars fuel output) str_ok.
Proof.
  revert n output; induction fuel as [|fuel IH]; intros n output Hn Hout [s o] Hp Hl; [lia|].
  cbn in Hp, Hl; cbn [parse_chars]; apply swp_bind, swp_get; cbn [p_rest p_offset].
  destruct s as [|c s]; [done|]; apply Forall_cons in Hp as [Hc Hp]; cbn in Hl.
  assert (∀ c, char_ok c → str_ok (output ++ [c])) as Hsnoc
    by (intros; apply Forall_app; split; [done|by constructor]).
  case_match; [|case_match; [|case_match; [done|]]].
  - apply swp_bind, swp_modify, swp_ret; split; [split; cbn; [done|lia]|done].
  - apply swp_bind, swp_modify; cbn [p_rest tail p_offset].
    eapply swp_mono; [apply (eats_bind (n - 1) 1 1 _ _ char_ok str_ok); [apply eats_escape| |done|cbn; lia]| |done].
    + intros c' Hc'; apply IH; [lia|auto].
    + intros a p' [[? ?] ?]; cbn in *; split; [split; [done|cbn; lia]|done].
  - apply swp_bind, swp_put; eapply swp_mono; [apply (IH (n - 1)%nat); [lia|auto|done|cbn; lia]| |done].
    intros a p' [[? ?] ?]; cbn in *; split; [split; [done|cbn; lia]|done].
Qed.

Lemma eats_string n : eats n 1 parse_string str_ok.
Proof.
  unfold parse_string; apply eats_byte; intros p Hp Hl; case_match eqn:Hb; [done|].
  apply negb_false_iff, bool_decide_eq_true in Hb.
  eapply swp_mono; [apply (eats_bump_then n 1); [by eapply first_byte_Some| |done|done]| |done].
  - intros p' Hp' Hl'; apply swp_bind, swp_get.
    apply (eats_chars _ (length (p_rest p'))); [lia|constructor|done|done].
  - intros a p' [[? ?] ?]; split; [split; [done|lia]|done].
Qed.

Lemma parse_signed_bounds m s v : 0 ≤ m → parse_signed m s = Some v → - (m + 1) ≤ v ≤ m.
Proof.
  intros Hm; assert (parse_unsigned m s = Some v → - (m + 1) ≤ v ≤ m) as Hu
    by (intros H%parse_unsigned_bounds; lia).
  unfold parse_signed; repeat case_match; try done; destruct (parse_digits 0 _) eqn:Hd; cbn; try done.
  all: case_match; try done; intros [= <-]; apply parse_digits_nonneg in Hd; boolp; lia.
Qed.

Lemma eats_digits n : eats n 0 take_digits (λ _, True).
Proof.
  intros [s o] Hp Hl; unfold swp, take_digits; cbn in *.
  pose proof (span_app is_digit s) as Hs; destruct (span is_digit s) as [d rest]; cbn in *; subst s.
  split; [split; cbn; [by apply Forall_app in Hp as [_ ?]|rewrite length_app; lia]|done].
Qed.

(** A step that only looks and bumps. *)
Lemma eats_bumped {A} n (a : A) p :
  str_ok (p_rest p) → (length (p_rest p) ≤ n)%nat →
  swp (bump ≫= λ _, mret a) p (λ _ p', shrinks 0 p p' ∧ True) (λ _ _, True).
Proof.
  intros Hp Hl; apply swp_bind, swp_modify, swp_ret; split; [split; cbn|done].
  - by apply str_ok_tail.
  - destruct (p_rest p); cbn; lia.
Qed.

Lemma eats_number_digits n : eats n 0 number_digits (λ _, True).
Proof.
  unfold number_digits; apply eats_byte; intros p Hp Hl.
  destruct (first_byte (p_rest p)) as [d|]; [|done].
  case_match; [|case_match; [by apply (eats_digits n)|done]]; apply swp_bind, swp_modify.
  assert (∀ x : str, swp (mret x) (mk_parser (tail (p_rest p)) (p_offset p + 1))
    (λ _ p', shrinks 0 p p' ∧ True) (λ (_ : JsonError) _, True)) as Hret.
  { intros x; apply swp_ret; split; [split; cbn|done]; [by apply str_ok_tail|].
    destruct (p_rest p); cbn; lia. }
  unfold byte; apply swp_bind; unfold swp at 1; cbn; repeat case_match; done || apply Hret.
Qed.

Lemma eats_number n : eats n 0 parse_number (λ v, - 2 ^ 127 ≤ v < 2 ^ 127).
Proof.
  unfold parse_number; apply eats_byte; intros p Hp Hl.
  apply (eats_bind n 0 0 _ _ (λ _, True)); [|intros sign _|done|done].
  { case_match; [|by apply eats_ret]; intros p' Hp' Hl'; by eapply eats_bumped. }
  clear p Hp Hl; apply (eats_bind _ 0 0 _ _ (λ _, True)); [apply eats_number_digits|]; intros digits _.
  apply eats_byte; intros p Hp Hl; case_match; [done|].
  case_match eqn:Hs; [|done]; apply parse_signed_bounds in Hs; [|lia].
  apply swp_ret; split; [split; [done|lia]|lia].
Qed.

Section nested.
Context (n : nat) (pv : jp Value) (Hpv : ∀ n', (n' ≤ n)%nat → eats n' 0 pv value_ok).

(** After an element: a comma and more, or the end. *)
Lemma eats_more {A} n' (more : jp A) (close : Z) (a : A) message (Q : A → Prop) :
  (n' ≤ n)%nat → (∀ n'', (S n'' ≤ n')%nat → eats n'' 0 more Q) → Q a →
  eats n' 0 (_ ← skip_whitespace; b ← byte;
    if bool_decide (b = Some comma) then _ ← bump; more
    else if bool_decide (b = Some close) then _ ← bump; mret a else error message) Q.
Proof.
  intros Hn Hmore Ha; apply (eats_bind n' 0 0 _ _ (λ _, True)); [apply eats_skip|]; intros _ _.
  apply eats_byte; intros p Hp Hl; rewrite Nat.sub_0_r in Hl.
  case_bool_decide as Hc; [|case_bool_decide as Hc'; [|done]].
  - apply first_byte_Some in Hc as Hne; assert (0 < n')%nat by (destruct (p_rest p); cbn in *; [done|lia]).
    eapply swp_mono; [apply (eats_bump_then n' 0); [done|apply Hmore; lia|done|done]| |done].
    intros x p' [[? ?] ?]; split; [split; [done|lia]|done].
  - apply first_byte_Some in Hc'.
    eapply swp_mono; [apply (eats_bump_then n' 0); [done|by apply eats_ret|done|done]| |done].
    intros x p' [[? ?] ?]; split; [split; [done|lia]|done].
Qed.

Lemma eats_elements fuel n' values :
  (n' < fuel)%nat → (n' ≤ n)%nat → Forall value_ok values →
  eats n' 0 (parse_elements pv fuel values) (Forall value_ok).
Proof using Hpv.
  revert n' values; induction fuel as [|fuel IH]; intros n' values Hf Hn Hv; [lia|].
  cbn [parse_elements]; apply (eats_bind n' 0 0 _ _ value_ok); [by apply Hpv|]; intros v Hok.
  assert (Forall value_ok (values ++ [v])) by (apply Forall_app; split; [done|by constructor]).
  apply eats_more; [lia| |done]; intros n'' Hn''; apply IH; [lia|lia|done].
Qed.

Definition members_ok (m : list (str * Value)) : Prop :=
  Forall (λ e, str_ok e.1 ∧ value_ok e.2) m ∧ StronglySorted str_lt m.*1.

Lemma eats_members fuel n' members :
  (n' < fuel)%nat → (n' ≤ n)%nat → members_ok members →
  eats n' 0 (parse_members pv fuel members) members_ok.
Proof using Hpv.
  revert n' members; induction fuel as [|fuel IH]; intros n' members Hf Hn [Hv Hs]; [lia|].
  cbn [parse_members]; apply (eats_bind n' 0 0 _ _ (λ _, True)); [apply eats_skip|]; intros _ _.
  eapply (eats_mono _ 1); [|done|lia|done].
  apply (eats_bind _ 1 0 _ _ str_ok); [apply eats_string|]; intros key Hkey.
  apply (eats_bind _ 0 0 _ _ (λ _, True)); [apply eats_skip|]; intros _ _.
  apply eats_byte; intros p Hp Hl; case_match eqn:Hb; [done|].
  apply negb_false_iff, bool_decide_eq_true, first_byte_Some in Hb.
  eapply swp_mono; [eapply (eats_bump_then _ 0); [done| |done|done]| |done].
  2: { intros x p' [[? ?] ?]; split; [split; [done|lia]|done]. }
  apply (eats_bind _ 0 0 _ _ value_ok); [apply Hpv; lia|]; intros v Hok.
  case_match; [apply eats_error|].
  assert (members_ok (btree_insert key v members)) as Hins.
  { split; [by apply btree_insert_Forall|by apply btree_insert_sorted]. }
  apply eats_more; [lia| |done]; intros n'' Hn''; apply IH; [lia|lia|done].
Qed.

(** An opening bracket, then at once its closing one, or the elements. *)
Lemma eats_nested {A} (empty : Value) (close : Z) (items : nat → jp A) (make : A → Value) Q p :
  p_rest p ≠ [] → str_ok (p_rest p) → (length (p_rest p) ≤ S n)%nat → value_ok empty →
  (∀ n' fuel, (n' < fuel)%nat → (n' ≤ n)%nat → eats n' 0 (items fuel) Q) →
  (∀ a, Q a → value_ok (make a)) →
  swp (_ ← bump; _ ← skip_whitespace; b ← byte;
       if bool_decide (b = Some close) then _ ← bump; mret empty
       else p ← get; a ← items (S (length (p_rest p))); mret (make a)) p
    (λ v p', shrinks 0 p p' ∧ value_ok v) (λ _ _, True).
Proof.
  intros Hne Hp Hl Hempty Hitems Hmake.
  eapply swp_mono; [apply (eats_bump_then (S n) 0); [done| |done|done]| |done].
  2: { intros x p' [[? ?] ?]; split; [split; [done|lia]|done]. }
  cbn [Nat.sub]; apply (eats_bind _ 0 0 _ _ (λ _, True)); [apply eats_skip|]; intros _ _.
  apply eats_byte; clear p Hne Hp Hl; intros p Hp Hl; case_bool_decide as Hc.
  - apply swp_bind, swp_modify, swp_ret; split; [split; cbn|done]; [by apply str_ok_tail|].
    destruct (p_rest p); cbn; lia.
  - apply swp_bind, swp_get.
    apply (eats_bind (length (p_rest p)) 0 0 _ _ Q); [apply Hitems; lia| |done|done].
    intros a Ha; by apply eats_ret, Hmake.
Qed.
End nested.

Lemma eats_value fuel n : (n < fuel)%nat → eats n 0 (parse_value fuel) value_ok.
Proof.
  revert n; induction fuel as [|fuel IH]; intros n Hn; [lia|]; cbn [parse_value].
  apply (eats_bind n 0 0 _ _ (λ _, True)); [apply eats_skip|]; intros _ _; rewrite Nat.sub_0_r.
  apply eats_byte; intros p Hp Hl; destruct (first_byte (p_rest p)) as [b|] eqn:Hb; [|done].
  apply first_byte_Some in Hb.
  assert (∀ {A} k (m : jp A) (Q : A → Prop) f, eats n k m Q → (∀ a, Q a → value_ok (f a)) →
    swp (a ← m; mret (f a)) p (λ v p', shrinks 0 p p' ∧ value_ok v) (λ _ _, True)) as Hthen.
  { intros A k m Q f Hm Hf; apply (eats_mono n (k + 0) n 0 _ value_ok value_ok); [|lia|lia|done|done|done].
    eapply eats_bind; [exact Hm|]; intros a Ha; by apply eats_ret, Hf. }
  assert (∀ n', (n' ≤ pred n)%nat → eats n' 0 (parse_value fuel) value_ok) as IH'.
  { intros n' Hn'; destruct n; [|apply IH; lia].
    destruct (p_rest p); [done|cbn in Hl; lia]. }
  assert (length (p_rest p) ≤ S (pred n))%nat by lia.
  repeat match goal with |- context [if ?c then _ else _] => destruct c end; try done.
  - by apply (Hthen _ 1%nat _ (λ _, True) (λ _, Null)); [apply eats_literal|constructor].
  - by apply (Hthen _ 1%nat _ (λ _, True) (λ _, Bool true)); [apply eats_literal|constructor].
  - by apply (Hthen _ 1%nat _ (λ _, True) (λ _, Bool false)); [apply eats_literal|constructor].
  - by apply (Hthen _ 1%nat _ str_ok String); [apply eats_string|constructor].
  - apply (eats_nested (pred n) (Array []) 93 (λ f, parse_elements (parse_value fuel) f []) Array
      (Forall value_ok)); try done.
    + by constructor.
    + intros n' f ? ?; apply (eats_elements (pred n)); auto.
    + by constructor.
  - apply (eats_nested (pred n) (Object []) 125 (λ f, parse_members (parse_value fuel) f []) Object
      members_ok); try done.
    + repeat constructor.
    + intros n' f ? ?; apply (eats_members (pred n)); auto; repeat constructor.
    + intros a [? ?]; by constructor.
  - apply (Hthen _ 0%nat _ (λ v, - 2 ^ 127 ≤ v < 2 ^ 127) Number); [apply eats_number|by constructor].
Qed.

Lemma json_parse_ok input : str_ok input → wp (json_parse input) value_ok.
Proof.
  intros Hi; unfold json_parse.
  assert (eats (length input) 0 (value ← parse_value (S (length input)); _ ← skip_whitespace;
    p ← get; match p_rest p with [] => mret value | _ => error (lit "trailing data") end) value_ok) as H.
  { apply (eats_bind _ 0 0 _ _ value_ok); [apply eats_value; lia|]; intros v Hv.
    apply (eats_bind _ 0 0 _ _ (λ _, True)); [apply eats_skip|]; intros _ _ p Hp Hl.
    apply swp_bind, swp_get; destruct (p_rest p) eqn:Hr; [|done].
    apply swp_ret; split; [split; [by rewrite Hr|lia]|done]. }
  specialize (H (mk_parser input 0) Hi ltac:(done)); unfold swp in H.
  match goal with |- wp (?x.1) _ => destruct x as [[v|e| |] p'] end; cbn in *; try done; apply H.
Qed.

(** ** Printing and parsing back *)

(** [m] reads [s] and returns [a], whatever follows that [D] allows. *)
Definition reads {A} (D : str → Prop) (m : jp A) (s : str) (a : A) : Prop :=
  ∀ rest o, D rest → ∃ o', m (mk_parser (s ++ rest) o) = (Ok a, mk_parser rest o').

Definition anything (rest : str) : Prop := True.

(** Nothing that would continue a number. *)
Definition ends_number (rest : str) : Prop :=
  match rest with
  | c :: _ => is_digit c = false ∧ c ≠ 46 ∧ c ≠ 101 ∧ c ≠ 69 ∧ c < 128
  | [] => True
  end.

Lemma reads_bind {A B} (D D' : str → Prop) (m : jp A) (f : A → jp B) s s' a b :
  reads D' m s a → reads D (f a) s' b → (∀ rest, D rest → D' (s' ++ rest)) →
  reads D (m ≫= f) (s ++ s') b.
Proof.
  intros Hm Hf HD rest o Hr; rewrite <- app_assoc.
  destruct (Hm (s' ++ rest) o (HD _ Hr)) as [o' Ho].
  destruct (Hf rest o' Hr) as [o'' Ho'']; exists o''; unfold mbind, st_bind; by rewrite Ho.
Qed.

Lemma reads_ret {A} D (a : A) : reads D (mret a) [] a.
Proof. intros rest o _; by exists o. Qed.

Lemma reads_mono {A} (D D' : str → Prop) (m : jp A) s a :
  reads D m s a → (∀ rest, D' rest → D rest) → reads D' m s a.
Proof. intros Hm HD rest o Hr; by apply Hm, HD. Qed.

(** A test of the next octet sees the first one of what is to be read. *)
Lemma reads_byte {A} D (f : option Z → jp A) c s a :
  0 ≤ c < 128 → reads D (f (Some c)) (c :: s) a → reads D (byte ≫= f) (c :: s) a.
Proof.
  intros Hc Hf rest o Hr; destruct (Hf rest o Hr) as [o' Ho]; exists o'; rewrite <- Ho.
  unfold mbind, st_bind, byte; cbn; unfold char_bytes.
  by rewrite (proj2 (Z.ltb_lt c 128)) by lia.
Qed.

Lemma reads_bump {A} D (f : () → jp A) c s a :
  reads D (f ()) s a → reads D (bump ≫= f) (c :: s) a.
Proof. intros Hf rest o Hr; exact (Hf rest (o + 1) Hr). Qed.

Lemma reads_skip {A} D (f : () → jp A) c s a :
  is_json_space c = false → reads D (f ()) (c :: s) a →
  reads D (skip_whitespace ≫= f) (c :: s) a.
Proof.
  intros Hc Hf rest o Hr; destruct (Hf rest o Hr) as [o' Ho]; exists o'; rewrite <- Ho.
  unfold skip_whitespace, mbind, st_bind, modify; cbn; by rewrite Hc.
Qed.

Lemma reads_skip_head {A} D (f : () → jp A) c t s a :
  s = c :: t → is_json_space c = false → reads D (f ()) s a → reads D (skip_whitespace ≫= f) s a.
Proof. intros ->; apply reads_skip. Qed.

Lemma reads_byte_head {A} D (f : option Z → jp A) c t s a :
  s = c :: t → 0 ≤ c < 128 → reads D (f (Some c)) s a → reads D (byte ≫= f) s a.
Proof. intros ->; apply reads_byte. Qed.

Lemma reads_literal D l : reads D (literal l) l ().
Proof.
  intros rest o _; unfold literal; cbn [p_rest].
  by rewrite (proj2 (strip_prefix_Some l (l ++ rest) rest) eq_refl); eexists.
Qed.

(** *** Strings *)

Lemma hex_quad_reads D a b c d v :
  Forall (λ x, 0 ≤ x < 128) [a; b; c; d] → parse_hex_digits 0 [a; b; c; d] = Some v →
  reads D parse_hex_quad [a; b; c; d] v.
Proof.
  intros Hr Hv rest o _; unfold parse_hex_quad, mbind, st_bind, get; cbn [p_rest p_offset app].
  assert (as_bytes (a :: b :: c :: d :: rest) = [] ++ [a; b; c; d] ++ as_bytes rest) as ->.
  { repeat (apply Forall_cons in Hr as [? Hr]); unfold as_bytes; cbn; unfold char_bytes.
    by rewrite !(proj2 (Z.ltb_lt _ 128)) by lia. }
  rewrite (slice_app_exact [] [a; b; c; d]), Hv; by eexists.
Qed.

Lemma show_hex4_reads c :
  0 ≤ c < 32 →
  parse_hex_digits 0 (show_hex4 c) = Some c ∧ Forall (λ x, 0 ≤ x < 128) (show_hex4 c).
Proof.
  intros Hc; assert (Forall (λ c, parse_hex_digits 0 (show_hex4 c) = Some c ∧
    Forall (λ x, 0 ≤ x < 128) (show_hex4 c)) (seqZ 0 32)) as H.
  { cbn; repeat constructor; by vm_compute. }
  rewrite Forall_forall in H; apply H, elem_of_seqZ; lia.
Qed.

Lemma simple_escape_reads D e c :
  (e, c) ∈ [(34, 34); (92, 92); (47, 47); (98, 8); (102, 12); (110, 10); (114, 13); (116, 9)] →
  reads D parse_escape [e] c.
Proof.
  intros H rest o _; repeat (apply elem_of_cons in H as [[= -> ->]|H]; [by eexists|]).
  by apply not_elem_of_nil in H.
Qed.

Lemma unicode_escape_reads D c :
  0 ≤ c < 32 → reads D parse_escape (117 :: show_hex4 c) c.
Proof.
  intros Hc; destruct (show_hex4_reads c Hc) as [Hv Hr].
  unfold parse_escape; apply reads_byte; [done|]; apply reads_bump.
  change (reads D parse_unicode_escape (show_hex4 c) c); unfold parse_unicode_escape.
  rewrite <- (app_nil_r (show_hex4 c)); eapply (reads_bind D anything); [|  |done].
  { unfold show_hex4, hex_digit in *; cbn [app] in *; by apply hex_quad_reads. }
  change ([] : str) with ([] ++ [] : str); eapply (reads_bind D anything); [| |done].
  - rewrite (proj2 (Z.leb_gt 0xd800 c)), (proj2 (Z.leb_gt 0xdc00 c)) by lia; apply reads_ret.
  - unfold char_from_u32; rewrite (proj2 (Z.leb_le c _)), (proj2 (Z.leb_gt 0xd800 c)) by lia.
    apply reads_ret.
Qed.

Lemma escape_reads D c :
  0 ≤ c < 32 ∨ c = quote ∨ c = backslash →
  ∃ t, write_char c = backslash :: t ∧ reads D parse_escape t c.
Proof.
  intros Hc; unfold write_char, quote, backslash in *.
  repeat (case_match; boolp; subst; [eexists; split; [done|apply simple_escape_reads; set_solver]|]).
  case_match; boolp; [eexists; split; [done|apply unicode_escape_reads; lia]|lia].
Qed.

Lemma chars_read D s output fuel :
  str_ok s → (length s < fuel)%nat →
  reads D (parse_chars fuel output) ((s ≫= write_char) ++ [quote]) (output ++ s).
Proof.
  revert output fuel; induction s as [|c s IH]; intros output [|fuel] Hs Hf; try (cbn in Hf; lia).
  { intros rest o _; rewrite app_nil_r; by eexists. }
  apply Forall_cons in Hs as [Hc Hs]; cbn in Hf; intros rest o Hr.
  assert (output ++ c :: s = (output ++ [c]) ++ s) as -> by by rewrite <- app_assoc.
  specialize (IH (output ++ [c]) fuel Hs ltac:(lia)); change ((c :: s) ≫= write_char)
    with (write_char c ++ (s ≫= write_char)).
  destruct (decide (0 ≤ c < 32 ∨ c = quote ∨ c = backslash)) as [Hd|Hd].
  - destruct (escape_reads anything c Hd) as (t & -> & Ht).
    rewrite <- !app_assoc; specialize (λ o, IH rest o Hr) as IH'; rewrite <- app_assoc in IH'.
    set (u := (s ≫= write_char) ++ [quote] ++ rest) in *; clearbody u; cbn [app parse_chars].
    unfold mbind, st_bind, get; cbn [p_rest]; change (backslash =? quote) with false.
    rewrite Z.eqb_refl; unfold bump, modify; cbn [p_rest tail p_offset].
    destruct (Ht u (o + 1) I) as [o' ->]; change (c :: s) with ([c] ++ s); rewrite app_assoc; apply IH'.
  - assert (write_char c = [c]) as ->.
    { unfold write_char, quote, backslash in *; repeat case_match; boolp; lia || done. }
    specialize (λ o, IH rest o Hr) as IH'; cbn [app].
    set (u := ((s ≫= write_char) ++ [quote]) ++ rest) in *; clearbody u; cbn [parse_chars].
    unfold mbind, st_bind, get; cbn [p_rest]; rewrite (proj2 (Z.eqb_neq c quote)), (proj2 (Z.eqb_neq c backslash)), (proj2 (Z.leb_gt c 31))
      by lia; apply IH'.
Qed.

Lemma string_reads D s : str_ok s → reads D parse_string (write_string s) s.
Proof.
  intros Hs; unfold parse_string, write_string; apply reads_byte; [done|].
  rewrite bool_decide_eq_true_2 by done; apply reads_bump; intros rest o Hr.
  set (u := (s ≫= write_char) ++ [quote]).
  change (∃ o', parse_chars (S (length (u ++ rest))) [] (mk_parser (u ++ rest) o) =
    (Ok s, mk_parser rest o')).
  apply (chars_read D s [] _ Hs); [|done]; unfold u; rewrite !length_app.
  assert (length s ≤ length (s ≫= write_char))%nat; [|lia].
  clear; induction s as [|c s IH]; cbn; [lia|]; rewrite length_app.
  assert (1 ≤ length (write_char c))%nat; [|lia]; unfold write_char; repeat case_match; cbn; lia.
Qed.

(** *** Numbers *)

Lemma parse_digits_app a s t : parse_digits a (s ++ t) = b ← parse_digits a s; parse_digits b t.
Proof. revert a; induction s as [|c s IH]; intros a; cbn; [done|]; by case_match. Qed.

Definition decimal (v : Z) (ds : str) : Prop :=
  Forall (λ c, is_digit c = true) ds ∧ parse_digits 0 ds = Some v ∧
  match ds with
  | [] => False
  | d :: ds' => if d =? 48 then ds' = [] else 49 ≤ d ≤ 57
  end.

Lemma show_digits_decimal fuel v acc :
  0 ≤ v < 10 ^ Z.of_nat fuel → (0 < fuel)%nat →
  ∃ ds, show_digits fuel v acc = ds ++ acc ∧ decimal v ds ∧ (0 < v → head ds ≠ Some 48).
Proof.
  revert v acc; induction fuel as [|fuel IH]; intros v acc Hv Hf; [lia|]; cbn [show_digits].
  pose proof (Z.mod_pos_bound v 10 ltac:(lia)); pose proof (Z.div_mod v 10 ltac:(lia)).
  assert (is_digit (48 + v mod 10) = true) as Hd by (unfold is_digit; apply andb_true_iff; lia).
  destruct (v / 10 =? 0) eqn:Hz; boolp.
  - exists [48 + v mod 10]; split; [done|]; split; [split; [by constructor|]; split|].
    + cbn; rewrite Hd; f_equal; lia.
    + case_match; boolp; [done|lia].
    + cbn; intros Hp [= ?]; lia.
  - assert (0 < v / 10 < 10 ^ Z.of_nat fuel) as Hq.
    { split; [pose proof (Z.div_pos v 10); lia|]; apply Z.div_lt_upper_bound; [lia|].
      rewrite Nat2Z.inj_succ, Z.pow_succ_r in Hv by lia; lia. }
    destruct fuel as [|fuel]; [cbn in Hq; lia|].
    destruct (IH (v / 10) ((48 + v mod 10) :: acc)) as (ds & -> & (Hall & Hpar & Hhd) & Hne); [lia|lia|].
    exists (ds ++ [48 + v mod 10]); rewrite <- app_assoc; split; [done|].
    specialize (Hne ltac:(lia)); destruct ds as [|d ds]; [done|]; cbn in Hne.
    rewrite (proj2 (Z.eqb_neq d 48)) in Hhd by congruence; split; [|cbn; congruence].
    split; [apply Forall_app; split; [done|by constructor]|]; split.
    + rewrite parse_digits_app, Hpar; cbn; rewrite Hd; f_equal; lia.
    + cbn [app]; by rewrite (proj2 (Z.eqb_neq d 48)) by congruence.
Qed.

Lemma parse_signed_decimal m v ds :
  decimal v ds → 0 ≤ v →
  (v ≤ m → parse_signed m ds = Some v) ∧ (v ≤ m + 1 → parse_signed m (minus :: ds) = Some (- v)).
Proof.
  intros (Hall & Hpar & Hhd) Hv; destruct ds as [|d ds]; [done|].
  assert (48 ≤ d ≤ 57) as Hd
    by (apply Forall_cons in Hall as [H _]; unfold is_digit in H; boolp; lia).
  split; intros Hm.
  - assert (parse_signed m (d :: ds) = parse_unsigned m (d :: ds)) as ->.
    { destruct d as [|p|]; try lia; do 6 (destruct p as [p|p|]; try lia; try done). }
    unfold parse_unsigned; replace (match d :: ds with 43 :: rest => rest | _ => d :: ds end)
      with (d :: ds); [|destruct d as [|p|]; try lia; do 6 (destruct p as [p|p|]; try lia; try done)].
    rewrite Hpar; cbn; by rewrite (proj2 (Z.leb_le v m)) by lia.
  - unfold parse_signed, minus; rewrite Hpar; cbn; by rewrite (proj2 (Z.leb_le v (m + 1))) by lia.
Qed.

Lemma first_byte_ends rest b :
  ends_number rest → first_byte rest = Some b →
  is_digit b = false ∧ b ≠ 46 ∧ b ≠ 101 ∧ b ≠ 69.
Proof.
  destruct rest as [|c rest]; [done|]; cbn; intros (? & ? & ? & ? & ?); unfold char_bytes.
  rewrite (proj2 (Z.ltb_lt c 128)) by lia; cbn; intros [= <-]; auto.
Qed.

Lemma span_digits ds rest :
  Forall (λ c, is_digit c = true) ds → ends_number rest → span is_digit (ds ++ rest) = (ds, rest).
Proof.
  intros Hd Hr; induction Hd as [|d ds Hd Hds IH]; cbn.
  - destruct rest as [|c rest]; [done|]; cbn; by destruct Hr as [-> _].
  - by rewrite Hd, IH.
Qed.

Lemma digits_read v ds : decimal v ds → reads ends_number number_digits ds ds.
Proof.
  intros (Hall & _ & Hhd); destruct ds as [|d ds]; [done|].
  assert (48 ≤ d ≤ 57) as Hd
    by (apply Forall_cons in Hall as [H _]; unfold is_digit in H; boolp; lia).
  unfold number_digits; apply reads_byte; [lia|]; destruct (d =? 48) eqn:Hz.
  - boolp; subst d ds; intros rest o Hr; exists (o + 1); unfold mbind, st_bind, bump, modify; cbn.
    destruct (first_byte rest) as [b|] eqn:Hb; [|done].
    by destruct (first_byte_ends rest b Hr Hb) as [-> _].
  - assert (is_digit d = true) as -> by (by apply Forall_cons in Hall as [? _]).
    intros rest o Hr; unfold take_digits; cbn [p_rest].
    rewrite span_digits by done; by eexists.
Qed.

Lemma number_reads n : - 2 ^ 127 ≤ n < 2 ^ 127 → reads ends_number parse_number (show_i128 n) n.
Proof.
  intros Hn; unfold show_i128, parse_number.
  assert (∀ sign ds v, decimal v ds → parse_signed (2 ^ 127 - 1) (sign ++ ds) = Some n →
    reads ends_number (digits ← number_digits; b ← byte;
      if bool_decide (b = Some 46 ∨ b = Some 101 ∨ b = Some 69)
      then error (lit "non-integer numbers are not supported by this interface")
      else match parse_signed (2 ^ 127 - 1) (sign ++ digits) with
           | Some n => mret n
           | None => error (lit "integer out of range")
           end) ds n) as Hread.
  { intros sign ds v Hds Hsg; rewrite <- (app_nil_r ds) at 1.
    eapply reads_bind; [by eapply digits_read| |done]; intros rest o Hr; exists o.
    unfold mbind, st_bind, byte; cbn; rewrite Hsg, bool_decide_eq_false_2; [done|].
    intros Hb; assert (∃ b, first_byte rest = Some b ∧ (b = 46 ∨ b = 101 ∨ b = 69)) as (b & Hf & Hor)
      by naive_solver.
    pose proof (first_byte_ends rest b Hr Hf); intuition. }
  assert (∀ v, 0 ≤ v ≤ 2 ^ 127 → ∃ ds, show_digits 40 v [] = ds ∧ decimal v ds) as Hshow.
  { intros v Hv; destruct (show_digits_decimal 40 v []) as (ds & -> & Hds & _);
      [|lia|exists ds; by rewrite app_nil_r].
    assert (2 ^ 127 < 10 ^ Z.of_nat 40) by (vm_compute; done); lia. }
  case_match; boolp.
  - destruct (Hshow (- n)) as (ds & -> & Hds); [lia|]; apply reads_byte; [done|].
    rewrite bool_decide_eq_true_2 by done; change (minus :: ds) with ([minus] ++ ds).
    eapply (reads_bind _ anything); [|eapply (Hread [minus]); [done|]|done].
    + intros rest o _; by eexists.
    + cbn [app]; rewrite (proj2 (parse_signed_decimal (2 ^ 127 - 1) (- n) ds Hds ltac:(lia))) by lia.
      f_equal; lia.
  - destruct (Hshow n) as (ds & -> & Hds); [lia|]; destruct ds as [|d ds]; [by destruct Hds as (_ & _ & ?)|].
    assert (48 ≤ d ≤ 57) as Hd.
    { destruct Hds as (Hall & _); apply Forall_cons in Hall as [Hx _]; unfold is_digit in Hx; boolp; lia. }
    apply reads_byte; [lia|]; rewrite bool_decide_eq_false_2 by (unfold minus; intros [= ?]; lia).
    change (d :: ds) with ([] ++ d :: ds); eapply (reads_bind _ anything); [apply reads_ret| |done].
    eapply (Hread []); [done|]; apply (parse_signed_decimal _ n); [done|lia|lia].
Qed.

(** *** Values *)

Lemma number_head n :
  - 2 ^ 127 ≤ n < 2 ^ 127 → ∃ c t, show_i128 n = c :: t ∧ (c = minus ∨ is_digit c = true).
Proof.
  intros Hn; unfold show_i128; destruct (n <? 0) eqn:Hs; boolp; [eexists _, _; split; [done|by left]|].
  destruct (show_digits_decimal 40 n []) as (ds & -> & (Hall & _ & Hne) & _);
    [assert (2 ^ 127 < 10 ^ Z.of_nat 40) by (vm_compute; done); lia|lia|].
  destruct ds as [|d ds]; [done|]; apply Forall_cons in Hall as [Hd _].
  eexists _, _; split; [done|by right].
Qed.

Lemma json_head v :
  value_ok v → ∃ c t, to_json v = c :: t ∧ 0 ≤ c < 128 ∧ is_json_space c = false ∧ c ≠ 93 ∧ c ≠ 125.
Proof.
  destruct 1 as [|[]|n Hn|s|vs|o]; try (eexists _, _; split; [done|]; split_and!; done).
  destruct (number_head n Hn) as (c & t & Hc & Hd); exists c, t; split; [exact Hc|].
  unfold is_digit, minus in Hd; destruct Hd as [->|Hd]; [done|]; boolp; split_and!; try lia.
  unfold is_json_space; rewrite !orb_false_iff; split_and!; apply Z.eqb_neq; lia.
Qed.

Lemma ends_comma rest : ends_number (comma :: rest).
Proof. by repeat split. Qed.

(** After an element: a comma, or the end. *)
Lemma more_reads {A} D (more : jp A) close (a b : A) message c s :
  (c = comma ∧ reads D more s b ∨ c = close ∧ c ≠ comma ∧ 0 ≤ c < 128 ∧ is_json_space c = false ∧
     a = b ∧ s = []) →
  reads D (_ ← skip_whitespace; b ← byte;
    if bool_decide (b = Some comma) then _ ← bump; more
    else if bool_decide (b = Some close) then _ ← bump; mret a else error message) (c :: s) b.
Proof.
  intros [[-> Hm]|(-> & Hne & Hr & Hsp & -> & ->)].
  - apply reads_skip; [done|]; apply reads_byte; [done|].
    rewrite bool_decide_eq_true_2 by done; by apply reads_bump.
  - apply reads_skip; [done|]; apply reads_byte; [done|].
    rewrite bool_decide_eq_false_2, bool_decide_eq_true_2 by congruence.
    apply reads_bump, reads_ret.
Qed.

Lemma elements_read (pv : jp Value) vs v acc fuel :
  Forall (λ v, reads ends_number pv (to_json v) v) (v :: vs) → (length vs < fuel)%nat →
  reads anything (parse_elements pv fuel acc)
    (join_with [comma] (map to_json (v :: vs)) ++ [93]) (acc ++ v :: vs).
Proof.
  revert v acc fuel; induction vs as [|v' vs IH]; intros v acc [|fuel] Hall Hf; try lia;
    apply Forall_cons in Hall as [Hv Hall]; cbn [parse_elements].
  - eapply reads_bind; [exact Hv| |done]; apply more_reads; right; by split_and!.
  - change (join_with [comma] (map to_json (v :: v' :: vs)))
      with (to_json v ++ comma :: join_with [comma] (map to_json (v' :: vs))); rewrite <- app_assoc.
    eapply reads_bind; [exact Hv| |intros; apply ends_comma]; apply more_reads; left; split; [done|].
    change (v :: v' :: vs) with ([v] ++ v' :: vs); rewrite app_assoc; apply IH; [done|cbn in Hf; lia].
Qed.

Definition member_json (e : str * Value) : str := write_string e.1 ++ [colon] ++ to_json e.2.

Lemma member_reads {B} D (pv : jp Value) (next : list (str * Value) → jp B) k v acc s (b : B) :
  str_ok k → reads ends_number pv (to_json v) v → Forall (λ k', str_lt k' k) acc.*1 →
  reads D (next (acc ++ [(k, v)])) s b → (∀ rest, D rest → ends_number (s ++ rest)) →
  reads D (_ ← skip_whitespace; key ← parse_string; _ ← skip_whitespace; b ← byte;
    if negb (bool_decide (b = Some colon)) then error (lit "expected ':'")
    else _ ← bump; v ← pv;
         if bool_decide (is_Some (btree_get key acc)) then error (lit "duplicate key")
         else next (btree_insert key v acc)) (member_json (k, v) ++ s) b.
Proof.
  intros Hk Hv Hlt Hnext HD; unfold member_json; cbn [fst snd]; rewrite <- !app_assoc.
  eapply reads_skip_head; [done..|]; eapply (reads_bind D anything); [by apply string_reads| |done].
  cbn [app]; apply reads_skip; [done|]; apply reads_byte; [done|].
  rewrite bool_decide_eq_true_2 by done; cbn [negb]; apply reads_bump.
  eapply reads_bind; [exact Hv| |exact HD].
  destruct (btree_insert_last k v acc Hlt) as [-> ->]; rewrite bool_decide_eq_false_2; [done|].
  by intros [? ?].
Qed.

(** What follows a member. *)
Definition next_member (pv : jp Value) (fuel : nat) (members : list (str * Value)) :
    jp (list (str * Value)) :=
  _ ← skip_whitespace;
  b ← byte;
  if bool_decide (b = Some comma) then _ ← bump; parse_members pv fuel members
  else if bool_decide (b = Some 125) then _ ← bump; mret members
  else error (lit "expected ',' or '}'").

Lemma members_read (pv : jp Value) o e acc fuel :
  Forall (λ e, str_ok e.1 ∧ reads ends_number pv (to_json e.2) e.2) (e :: o) →
  StronglySorted str_lt (acc ++ e :: o).*1 → (length o < fuel)%nat →
  reads anything (parse_members pv fuel acc)
    (join_with [comma] (map member_json (e :: o)) ++ [125]) (acc ++ e :: o).
Proof.
  revert e acc fuel; induction o as [|e' o IH]; intros [k v] acc [|fuel] Hall Hs Hf; try lia;
    apply Forall_cons in Hall as [[Hk Hv] Hall]; cbn [fst snd] in Hk, Hv;
    assert (Forall (λ k', str_lt k' k) acc.*1) as Hlt.
  1, 3: rewrite fmap_app in Hs; clear -Hs; induction acc as [|[k' v'] acc IHa]; cbn in *; [constructor|];
    apply StronglySorted_inv in Hs as [Hs Hk]; constructor; [|by apply IHa];
    apply Forall_app in Hk as [_ [? _]%Forall_cons]; done.
  - apply (member_reads anything pv (next_member pv fuel)); [done..| |by intros].
    apply more_reads; right; by split_and!.
  - change (join_with [comma] (map member_json ((k, v) :: e' :: o)))
      with (member_json (k, v) ++ comma :: join_with [comma] (map member_json (e' :: o))).
    rewrite <- app_assoc; apply (member_reads anything pv (next_member pv fuel));
      [done..| |intros; apply ends_comma].
    apply more_reads; left; split; [done|].
    change ((k, v) :: e' :: o) with ([(k, v)] ++ e' :: o); rewrite app_assoc.
    apply IH; [done|by rewrite <- app_assoc|cbn in Hf; lia].
Qed.

(** The elements of an array or an object, whatever fuel the input gives. *)
Lemma reads_items {A B} D (items : nat → jp A) (make : A → B) s a :
  (∀ fuel, (length s < fuel)%nat → reads D (items fuel) s a) →
  reads D (p ← get; x ← items (S (length (p_rest p))); mret (make x)) s (make a).
Proof.
  intros H rest o Hr; unfold mbind, st_bind, get; cbn [p_rest].
  destruct (H (S (length (s ++ rest))) ltac:(rewrite length_app; lia) rest o Hr) as [o' ->].
  by exists o'.
Qed.

Lemma join_length sep (l : list str) : Forall (λ s, s ≠ []) l → (length l ≤ length (join_with sep l))%nat.
Proof.
  induction 1 as [|s l Hs Hl IH]; cbn; [lia|]; destruct l as [|s' l]; cbn in *.
  - destruct s; [done|cbn; lia].
  - rewrite !length_app; destruct s; [done|cbn; lia].
Qed.

Lemma join_elem_length sep (l : list str) s : s ∈ l → (length s ≤ length (join_with sep l))%nat.
Proof.
  induction l as [|s' l IH]; [by intros ?%not_elem_of_nil|]; intros [->|Hs]%elem_of_cons;
    destruct l as [|s'' l]; cbn [join_with] in *; rewrite ?length_app; try lia.
  - by apply not_elem_of_nil in Hs.
  - specialize (IH Hs); lia.
Qed.

Lemma member_json_eq o :
  map (λ '(k, v), write_string k ++ [colon] ++ to_json v) o = map member_json o.
Proof. apply map_ext; by intros []. Qed.

Lemma array_reads (pv : jp Value) vs :
  Forall value_ok vs → Forall (λ v, reads ends_number pv (to_json v) v) vs →
  reads anything (parse_array pv) (to_json (Array vs)) (Array vs).
Proof.
  intros Hok Hall; unfold parse_array; cbn [to_json]; apply reads_bump; destruct vs as [|v vs].
  { apply reads_skip; [done|]; apply reads_byte; [done|].
    rewrite bool_decide_eq_true_2 by done; apply reads_bump, reads_ret. }
  set (s := _ ++ lit "]"); apply Forall_cons in Hok as Hv; destruct Hv as [Hv Hvs].
  destruct (json_head v Hv) as (c & t & Hc & Hrc & Hsp & H93 & _).
  assert (∃ t', s = c :: t') as [t' Ht'].
  { unfold s; destruct vs; cbn [map join_with]; rewrite Hc; by eexists. }
  eapply reads_skip_head; [exact Ht'|done|]; eapply reads_byte_head; [exact Ht'|done|].
  rewrite bool_decide_eq_false_2 by congruence.
  apply (reads_items _ (λ f, parse_elements pv f []) Array); intros fuel Hf.
  apply (elements_read pv vs v []); [done|]; unfold s in Hf; rewrite length_app in Hf.
  assert (length (map to_json (v :: vs)) ≤ length (join_with [comma] (map to_json (v :: vs))))%nat as Hj.
  { apply join_length, Forall_forall; intros x (y & <- & Hy%list_elem_of_In)%list_elem_of_In%in_map_iff.
    eapply Forall_forall in Hy; [|exact Hok]; destruct (json_head y Hy) as (? & ? & -> & _); done. }
  rewrite length_map in Hj; cbn in *; lia.
Qed.

Lemma object_reads (pv : jp Value) o :
  Forall (λ e, str_ok e.1) o → StronglySorted str_lt o.*1 →
  Forall (λ e, reads ends_number pv (to_json e.2) e.2) o →
  reads anything (parse_object pv) (to_json (Object o)) (Object o).
Proof.
  intros Hok Hs Hall; unfold parse_object; cbn [to_json]; rewrite member_json_eq; apply reads_bump.
  destruct o as [|e o].
  { apply reads_skip; [done|]; apply reads_byte; [done|].
    rewrite bool_decide_eq_true_2 by done; apply reads_bump, reads_ret. }
  set (s := _ ++ lit "}").
  assert (∃ t', s = quote :: t') as [t' Ht'] by (unfold s; destruct o; by eexists).
  eapply reads_skip_head; [exact Ht'|done|]; eapply reads_byte_head; [exact Ht'|done|].
  rewrite bool_decide_eq_false_2 by done.
  apply (reads_items _ (λ f, parse_members pv f []) Object); intros fuel Hf.
  apply (members_read pv o e []); [by apply Forall_and|done|]; unfold s in Hf; rewrite length_app in Hf.
  assert (length (map member_json (e :: o)) ≤ length (join_with [comma] (map member_json (e :: o))))%nat as Hj.
  { by apply join_length, Forall_forall; intros x (y & <- & Hy)%list_elem_of_In%in_map_iff. }
  rewrite length_map in Hj; cbn in *; lia.
Qed.

Lemma value_reads v fuel :
  value_ok v → (length (to_json v) < fuel)%nat → reads ends_number (parse_value fuel) (to_json v) v.
Proof.
  revert fuel; induction v as [|b|n|s|vs IH|o IH] using value_ind'; intros [|fuel] Hok Hf;
    try lia; destruct (json_head _ Hok) as (c & t & Hc & Hrc & Hsp & _ & _);
    cbn [parse_value]; (eapply reads_skip_head; [exact Hc|done|]);
    (eapply reads_byte_head; [exact Hc|done|]); cbn [to_json] in Hc.
  - injection Hc as <- _; rewrite <- (app_nil_r (to_json Null)).
    eapply (reads_bind _ anything); [apply reads_literal|apply reads_ret|done].
  - rewrite <- (app_nil_r (to_json (Bool b))).
    destruct b; injection Hc as <- _; (eapply (reads_bind _ anything); [apply reads_literal|apply reads_ret|done]).
  - inversion Hok as [| |? Hn| | |]; subst.
    destruct (number_head n Hn) as (c' & t' & Hc' & Hcd); rewrite Hc' in Hc; injection Hc as -> _.
    assert ((c =? 110) = false ∧ (c =? 116) = false ∧ (c =? 102) = false ∧ (c =? quote) = false ∧
      (c =? 91) = false ∧ (c =? 123) = false ∧ (c =? minus) || is_digit c = true)
      as (-> & -> & -> & -> & -> & -> & ->).
    { unfold is_digit, minus, quote in *; destruct Hcd as [->|Hcd]; [done|]; boolp.
      rewrite !Z.eqb_neq; split_and!; try lia; apply orb_true_iff; right; apply andb_true_iff; lia. }
    cbn [to_json]; rewrite <- (app_nil_r (show_i128 n)).
    eapply reads_bind; [by apply number_reads|apply reads_ret|done].
  - injection Hc as <- _; inversion Hok; subst; cbn [to_json]; rewrite <- (app_nil_r (write_string s)).
    eapply (reads_bind _ anything); [by apply string_reads|apply reads_ret|done].
  - injection Hc as <- _; inversion Hok; subst; eapply (reads_mono anything); [|done]; apply array_reads; [done|].
    apply Forall_forall; intros v Hv; eapply Forall_forall in IH; [|done]; apply IH.
    { by eapply Forall_forall in Hv; [|done]. }
    cbn in Hf; rewrite length_app in Hf.
    pose proof (join_elem_length [comma] (map to_json vs) (to_json v)) as Hj.
    specialize (Hj ltac:(by apply list_elem_of_In, in_map, list_elem_of_In)); lia.
  - injection Hc as <- _; inversion Hok as [| | | | |? Hm Hs]; subst; eapply (reads_mono anything); [|done].
    apply object_reads; [by eapply Forall_impl; [exact Hm|intros ? []]|done|].
    apply Forall_forall; intros e He; eapply Forall_forall in IH; [|done]; apply IH.
    { eapply Forall_forall in Hm as [? ?]; done. }
    cbn in Hf; rewrite member_json_eq, length_app in Hf.
    pose proof (join_elem_length [comma] (map member_json o) (member_json e)) as Hj.
    specialize (Hj ltac:(by apply list_elem_of_In, in_map, list_elem_of_In)).
    assert (length (to_json e.2) ≤ length (member_json e))%nat; [|lia].
    unfold member_json; rewrite !length_app; lia.
Qed.

Lemma parse_printed v : value_ok v → json_parse (to_json v) = Ok v.
Proof.
  intros Hv; unfold json_parse.
  destruct (value_reads v (S (length (to_json v))) Hv ltac:(lia) [] 0 I) as [o Ho].
  rewrite app_nil_r in Ho; unfold mbind, st_bind; by rewrite Ho.
Qed.

(** ** Properties *)

(** C32: JSON text is read and written consistently: the parser returns on every
    text, with a value or an error, and a value it returns is well formed; and the
    text printed for a well-formed value, strings with any characters, nested
    arrays and objects and 128-bit integers included, parses back to that
    value. *)
Theorem json_roundtrip :
  (∀ input, str_ok input → wp (json_parse input) value_ok) ∧
  (∀ v, value_ok v → json_parse (to_json v) = Ok v).
Proof. split; [apply json_parse_ok|apply parse_printed]. Qed.
