(* ===== verification/StaticRecords.v ===== *)
(** * Static records

    The answers configured in files of JSON ([static_records*.rs]): the choice
    of the files, where a later directory overrides an earlier one and a link to
    [/dev/null] masks a file, the records read from them, the check every two
    seconds whether the files changed, and the response built for a query. *)

From S2P Require Import Prelude Stateful Text Net ConfigTypes Codec Packet Records WireDnssec.
From S2P Require Import Config Json.

(** ** The files *)

Record file_metadata : Type := mk_metadata {
  md_symlink : bool;
  md_file : bool;
  md_length : Z;
  md_modified : option Z;
}.

(** The file system at one moment.  [rr_metadata] follows links,
    [rr_symlink_metadata] does not. *)
Record rr_filesystem : Type := mk_rr_fs {
  rr_directory : path → directory;
  rr_symlink_metadata : path → str + file_metadata;
  rr_metadata : path → str + file_metadata;
  rr_read_link : path → option path;
  rr_file : path → file;
}.

(** [io::Result]. *)
Abbreviation fres := (outcome str).

Definition from_io {A} (r : str + A) : fres A := match r with inl e => Err e | inr a => Ok a end.

Record SelectedFile : Type := mk_selected {
  sf_path : path;
  sf_masked : bool;
}.

Record FileStamp : Type := mk_stamp {
  fst_path : path;
  fst_masked : bool;
  fst_length : Z;
  fst_modified : option Z;
}.
#[global] Instance FileStamp_eq_dec : EqDecision FileStamp.
Proof. solve_decision. Defined.

Definition is_rr (name : str) : bool :=
  match strip_suffix name (lit ".rr") with
  | Some stem => negb (bool_decide (stem = []))
  | None => false
  end.

Definition is_file (r : str + file_metadata) : bool :=
  match r with inr m => md_file m | inl _ => false end.

Fixpoint select_rr_entries (fs : rr_filesystem) (d : path) (entries : list (str + str))
    (selected : list (str * SelectedFile)) : fres (list (str * SelectedFile)) :=
  match entries with
  | [] => Ok selected
  | inl e :: _ => Err e
  | inr name :: entries =>
      if negb (is_rr name) then select_rr_entries fs d entries selected
      else
        let p := path_join d name in
        metadata ← from_io (rr_symlink_metadata fs p);
        let masked := md_symlink metadata &&
          bool_decide (rr_read_link fs p = Some (abs_path ["dev"; "null"])) in
        select_rr_entries fs d entries
          (if masked || is_file (rr_metadata fs p)
           then btree_insert name (mk_selected p masked) selected else selected)
  end.

Fixpoint select_rr_directories (fs : rr_filesystem) (directories : list path)
    (selected : list (str * SelectedFile)) : fres (list (str * SelectedFile)) :=
  match directories with
  | [] => Ok selected
  | d :: directories =>
      match rr_directory fs d with
      | DirMissing => select_rr_directories fs directories selected
      | DirError e => Err e
      | DirEntries entries =>
          selected ← select_rr_entries fs d entries selected;
          select_rr_directories fs directories selected
      end
  end.

Definition select_files (fs : rr_filesystem) (directories : list path) : fres (list SelectedFile) :=
  selected ← select_rr_directories fs directories [];
  Ok selected.*2.

Fixpoint fingerprint (fs : rr_filesystem) (files : list SelectedFile) : fres (list FileStamp) :=
  match files with
  | [] => Ok []
  | f :: files =>
      metadata ← from_io (if sf_masked f then rr_symlink_metadata fs (sf_path f)
                          else rr_metadata fs (sf_path f));
      stamps ← fingerprint fs files;
      Ok (mk_stamp (sf_path f) (sf_masked f) (md_length metadata) (md_modified metadata) :: stamps)
  end.

(** ** The records *)

Record StaticRecord : Type := mk_static {
  st_class : Z;
  st_rr_type : Z;
  st_rdata : bytes;
}.
#[global] Instance StaticRecord_eq_dec : EqDecision StaticRecord.
Proof. solve_decision. Defined.

Definition static_name (name : str) : str :=
  let name := trim_end_matches dot name in
  if bool_decide (name = []) then lit "." else to_ascii_lowercase name.

(** [u16::try_from(value.as_u64()?).ok()] and the same for [u8]. *)
Definition as_bounded (m : Z) (v : Value) : option Z :=
  n ← as_u64 v; if n <=? m then Some n else None.

Definition parse_ip_address (v : Value) : option IpAddr :=
  match as_str v with
  | Some address => parse_ip address
  | None =>
      values ← as_array v;
      octets ← mapM (as_bounded u8_max) values;
      if len octets =? 4 then Some (V4 octets)
      else if len octets =? 16 then Some (V6 octets)
      else None
  end.

Definition static_rdata (rr_type : Z) (v : Value) : option bytes :=
  if rr_type =? TYPE_A then
    address ← json_get v (lit "address");
    ip ← parse_ip_address address;
    match ip with V4 octets => Some octets | V6 _ => None end
  else if rr_type =? TYPE_AAAA then
    address ← json_get v (lit "address");
    ip ← parse_ip_address address;
    match ip with V4 _ => None | V6 octets => Some octets end
  else if (rr_type =? TYPE_PTR) || (rr_type =? TYPE_NS) || (rr_type =? TYPE_CNAME)
          || (rr_type =? TYPE_DNAME) then
    target ← json_get v (lit "name");
    target ← as_str target;
    to_option (encode_name target)
  else None.

Definition parse_record_value (v : Value) : option (str * StaticRecord) :=
  key ← json_get v (lit "key");
  owner ← json_get key (lit "name");
  owner ← as_str owner;
  _ ← to_option (encode_name owner);
  rr_type ← json_get key (lit "type");
  rr_type ← as_bounded u16_max rr_type;
  class ← match json_get key (lit "class") with
          | Some c => as_bounded u16_max c
          | None => Some CLASS_IN
          end;
  rdata ← static_rdata rr_type v;
  Some (static_name owner, mk_static class rr_type rdata).

Abbreviation database := (gmap str (list StaticRecord)).

Definition add_record_value (db : database) (v : Value) : database :=
  match parse_record_value v with
  | None => db
  | Some (owner, r) =>
      let rrset := default [] (db !! owner) in
      <[owner := if bool_decide (r ∈ rrset) then rrset else rrset ++ [r]]> db
  end.

Definition MAX_RECORD_FILE_SIZE : Z := 1024 * 1024.

Definition read_json_file (fs : rr_filesystem) (p : path) : option Value :=
  match rr_file fs p with
  | FileText text => if MAX_RECORD_FILE_SIZE <? str_len text then None else to_option (json_parse text)
  | _ => None
  end.

Definition load_file (fs : rr_filesystem) (db : database) (f : SelectedFile) : database :=
  if sf_masked f then db
  else
    match read_json_file fs (sf_path f) with
    | Some (Object o) => add_record_value db (Object o)
    | Some (Array values) => fold_left add_record_value values db
    | _ => db
    end.

Definition load_selected_files (fs : rr_filesystem) (files : list SelectedFile) : database :=
  fold_left (load_file fs) files ∅.

(** ** The response *)

Definition FLAG_AD : Z := 0x0020.

Definition static_selected (q : Question) (r : StaticRecord) : bool :=
  ((q_class q =? CLASS_ANY) || (st_class r =? q_class q)) &&
  ((q_rr_type q =? TYPE_ANY) || (st_rr_type r =? q_rr_type q) || (st_rr_type r =? TYPE_CNAME)).

(** The records appended, and how many. *)
Fixpoint append_static_records (q : Question) (rrset : list StaticRecord) (response : bytes)
    (count : Z) : wres (bytes * Z) :=
  match rrset with
  | [] => Ok (response, count)
  | r :: rrset =>
      if negb (static_selected q r) then append_static_records q rrset response count
      else
        rdata_length ← u16_try_from (len (st_rdata r)) ResponseTooLarge;
        let response :=
          response ++ [0xc0; 0x0c] ++ u16_bytes (st_rr_type r) ++ u16_bytes (st_class r) ++
          u32_bytes 0 ++ u16_bytes rdata_length ++ st_rdata r in
        if u16_max <? len response then Err ResponseTooLarge
        else
          count ← ok_or (checked_add u16_max count 1) ResponseTooLarge;
          append_static_records q rrset response count
  end.

Definition build_response (query : bytes) (q : Question) (rrset : list StaticRecord) : wres bytes :=
  _ ← validate query false;
  stop ← question_end query;
  response ← or_panic (slice query 0 stop);
  flags ← index_u16 response 2;
  let flags := Z.lor flags (Z.lor (Z.lor FLAG_QR FLAG_RA) FLAG_AD) in
  let flags := Z.ldiff flags (Z.lor (Z.lor FLAG_AA FLAG_TC) RCODE_MASK) in
  response ← or_panic (splice response 2 (u16_bytes flags));
  response ← or_panic (splice response 6 (replicate 6 0));
  '(response, answer_count) ← append_static_records q rrset response 0;
  or_panic (splice response 6 (u16_bytes answer_count)).

(** ** The state *)

Definition RECHECK_INTERVAL : Z := 2 * second.

Record StaticRecords : Type := mk_static_records {
  sr_enabled : bool;
  sr_directories : list path;
  sr_records : database;
  sr_fingerprint : list FileStamp;
  sr_last_checked : option Z;
}.

Definition static_records_new (enabled : bool) (directories : list path) : StaticRecords :=
  mk_static_records enabled directories ∅ [] None.

Definition static_records_system (enabled : bool) : StaticRecords :=
  static_records_new enabled
    [abs_path ["usr"; "lib"; "systemd"; "resolve"; "static.d"];
     abs_path ["usr"; "local"; "lib"; "systemd"; "resolve"; "static.d"];
     abs_path ["run"; "systemd"; "resolve"; "static.d"];
     abs_path ["etc"; "systemd"; "resolve"; "static.d"]].

Definition invalidate (s : StaticRecords) : StaticRecords :=
  { s with sr_last_checked := None; sr_fingerprint := []; sr_records := ∅ }.

(** The time of the last check is set before the files are looked at, and
    stays when that fails.  [fs] is the file system while they are chosen and
    stamped, [fs'] while they are read. *)
Definition refresh_if_due (fs fs' : rr_filesystem) (now : Z) (s : StaticRecords) : StaticRecords :=
  let due :=
    match sr_last_checked s with
    | Some checked => RECHECK_INTERVAL <=? Z.max (now - checked) 0
    | None => true
    end in
  if negb due then s
  else
    let s := { s with sr_last_checked := Some now } in
    match (selected ← select_files fs (sr_directories s);
           stamps ← fingerprint fs selected;
           Ok (selected, stamps)) with
    | Ok (selected, stamps) =>
        if bool_decide (stamps = sr_fingerprint s) then s
        else { s with sr_records := load_selected_files fs' selected; sr_fingerprint := stamps }
    | _ => s
    end.

Definition static_answer (fs fs' : rr_filesystem) (now : Z) (query : bytes) (s : StaticRecords) :
    wres (option bytes) * StaticRecords :=
  if negb (sr_enabled s) then (Ok None, s)
  else
    let s := refresh_if_due fs fs' now s in
    (question ← first_question query;
     match sr_records s !! static_name (name_text (q_name question)) with
     | None => Ok None
     | Some records =>
         r ← build_response query question records;
         Ok (Some r)
     end, s).
