(* ===== verification/HostsFacts.v ===== *)
(** * Hosts: theorems

    The two directions of the table hold the same entries, those of the file,
    and questions are answered from them. *)

From S2P Require Import Prelude Text Net NetFacts Sorting Codec Packet PacketFacts LocalFacts Records Hosts.

(** The addresses and names a line gives. *)
Definition line_entry (raw_line : str) (ip : IpAddr) (name : str) : Prop :=
  let line := match split_once 35 raw_line with Some (head, _) => head | None => raw_line end in
  ∃ field fields raw, split_whitespace line = field :: fields ∧ parse_ip field = Some ip ∧
    raw ∈ fields ∧ canonical_name raw = name ∧ name ≠ [].

Definition host_entry (text : str) (ip : IpAddr) (name : str) : Prop :=
  ∃ raw_line, raw_line ∈ lines text ∧ line_entry raw_line ip name.

Definition has_name (h : Hosts) (ip : IpAddr) (name : str) : Prop :=
  ip ∈ default [] (by_name h !! name).
Definition has_address (h : Hosts) (ip : IpAddr) (name : str) : Prop :=
  name ∈ default [] (by_address h !! ip).

Lemma add_host_spec ip h raw ip' name :
  (has_name (add_host ip h raw) ip' name ↔
    has_name h ip' name ∨ ip' = ip ∧ name = canonical_name raw ∧ name ≠ []) ∧
  (has_address (add_host ip h raw) ip' name ↔
    has_address h ip' name ∨ ip' = ip ∧ name = canonical_name raw ∧ name ≠ []).
Proof.
  unfold add_host, has_name, has_address; case_bool_decide as Hn; cbn.
  { rewrite Hn; split; split; try tauto; intros [|(_ & -> & H)]; done. }
  split.
  - destruct (decide (name = canonical_name raw)) as [->|Hne].
    + rewrite lookup_insert_eq; cbn; rewrite elem_of_push_new; tauto.
    + rewrite lookup_insert_ne by done; tauto.
  - destruct (decide (ip' = ip)) as [->|Hne].
    + rewrite lookup_insert_eq; cbn; rewrite elem_of_push_new; split; [|tauto].
      intros [| ->]; [by left|right; tauto].
    + rewrite lookup_insert_ne by done; tauto.
Qed.

Lemma add_hosts_spec ip fields h ip' name :
  (has_name (foldl (add_host ip) h fields) ip' name ↔
    has_name h ip' name ∨ ∃ raw, raw ∈ fields ∧ ip' = ip ∧ name = canonical_name raw ∧ name ≠ []) ∧
  (has_address (foldl (add_host ip) h fields) ip' name ↔
    has_address h ip' name ∨
    ∃ raw, raw ∈ fields ∧ ip' = ip ∧ name = canonical_name raw ∧ name ≠ []).
Proof.
  revert h; induction fields as [|raw fields IH]; intros h; cbn [foldl].
  - setoid_rewrite elem_of_nil; split; split; try tauto; intros [|(? & [] & _)]; done.
  - destruct (IH (add_host ip h raw)) as [-> ->], (add_host_spec ip h raw ip' name) as [-> ->].
    assert ((∃ r, r ∈ raw :: fields ∧ ip' = ip ∧ name = canonical_name r ∧ name ≠ []) ↔
      (ip' = ip ∧ name = canonical_name raw ∧ name ≠ []) ∨
      (∃ r, r ∈ fields ∧ ip' = ip ∧ name = canonical_name r ∧ name ≠ [])) as ->; [|tauto].
    setoid_rewrite elem_of_cons; split.
    + intros (r & [->|] & ?); [by left|right; by exists r].
    + intros [|(r & ? & ?)]; [exists raw|exists r]; tauto.
Qed.

Lemma hosts_line_spec h line ip name :
  (has_name (hosts_line h line) ip name ↔ has_name h ip name ∨ line_entry line ip name) ∧
  (has_address (hosts_line h line) ip name ↔ has_address h ip name ∨ line_entry line ip name).
Proof.
  unfold hosts_line, line_entry.
  set (l := match split_once 35 line with Some (head, _) => head | None => line end); clearbody l.
  destruct (split_whitespace l) as [|field fields].
  { split; split; try tauto; intros [|(? & ? & ? & ? & _)]; done. }
  destruct (parse_ip field) as [ip'|] eqn:Hp.
  - destruct (add_hosts_spec ip' fields h ip name) as [-> ->].
    assert ((∃ raw, raw ∈ fields ∧ ip = ip' ∧ name = canonical_name raw ∧ name ≠ []) ↔
      ∃ f fs raw, field :: fields = f :: fs ∧ parse_ip f = Some ip ∧ raw ∈ fs ∧
        canonical_name raw = name ∧ name ≠ []) as ->; [|tauto].
    split.
    + intros (raw & ? & -> & -> & ?); by exists field, fields, raw.
    + intros (f & fs & raw & [= <- <-] & Hf & ? & <- & ?); exists raw; split_and!; congruence || done.
  - split; split; try tauto; intros [|(f & fs & raw & [= <- <-] & ? & _)]; done || congruence.
Qed.

Lemma hosts_lines_spec ls h ip name :
  (has_name (foldl hosts_line h ls) ip name ↔
    has_name h ip name ∨ ∃ l, l ∈ ls ∧ line_entry l ip name) ∧
  (has_address (foldl hosts_line h ls) ip name ↔
    has_address h ip name ∨ ∃ l, l ∈ ls ∧ line_entry l ip name).
Proof.
  revert h; induction ls as [|l ls IH]; intros h; cbn [foldl].
  - setoid_rewrite elem_of_nil; split; split; try tauto; intros [|(? & [] & _)]; done.
  - destruct (IH (hosts_line h l)) as [-> ->], (hosts_line_spec h l ip name) as [-> ->].
    assert ((∃ x, x ∈ l :: ls ∧ line_entry x ip name) ↔
      line_entry l ip name ∨ ∃ x, x ∈ ls ∧ line_entry x ip name) as ->; [|tauto].
    setoid_rewrite elem_of_cons; split.
    + intros (x & [->|] & ?); [by left|right; by exists x].
    + intros [|(x & ? & ?)]; [exists l|exists x]; tauto.
Qed.

Lemma hosts_parse_spec text ip name :
  (has_name (hosts_parse text) ip name ↔ host_entry text ip name) ∧
  (has_address (hosts_parse text) ip name ↔ host_entry text ip name).
Proof.
  unfold hosts_parse, host_entry.
  destruct (hosts_lines_spec (lines text) hosts_default ip name) as [-> ->].
  unfold has_name, has_address; cbn; rewrite !lookup_empty; cbn.
  rewrite !elem_of_nil; tauto.
Qed.

Lemma elem_of_host_addresses h name ip :
  ip ∈ host_addresses h name ↔
  ip ∈ synthetic_addresses name ∨ parse_ip name = Some ip ∨ has_name h ip name.
Proof.
  unfold host_addresses; rewrite elem_of_foldl_push_new; fold (has_name h ip name).
  destruct (parse_ip name) as [x|]; [|naive_solver].
  rewrite elem_of_app, list_elem_of_singleton; naive_solver.
Qed.

(** ** What the tables hold *)

Definition hosts_ok (h : Hosts) : Prop :=
  ∀ ip name, (has_name h ip name → ip_ok ip) ∧ (has_address h ip name → str_ok name).

Lemma canonical_name_ok s : str_ok s → str_ok (canonical_name s).
Proof. intros Hs; apply lower_char_ok; by apply (trim_end_matches_Forall _ dot). Qed.

Lemma hosts_default_ok : hosts_ok hosts_default.
Proof.
  intros ip name; unfold has_name, has_address; cbn; rewrite !lookup_empty; cbn.
  by rewrite !elem_of_nil.
Qed.

Lemma hosts_parse_ok text : str_ok text → hosts_ok (hosts_parse text).
Proof.
  intros Ht ip name; destruct (hosts_parse_spec text ip name) as [-> ->]; split;
    intros (line & Hline & field & fields & raw & Hw & Hip & Hraw & <- & _).
  { by eapply parse_ip_ok. }
  apply lines_Forall in Ht; rewrite Forall_forall in Ht; apply Ht in Hline; apply canonical_name_ok.
  assert (str_ok match split_once 35 line with Some (head, _) => head | None => line end) as Hs.
  { destruct (split_once 35 line) as [[a b]|] eqn:E; [|done].
    by apply (split_once_Forall _ _ _ _ _ E) in Hline as [? _]. }
  apply split_whitespace_Forall in Hs; rewrite Hw, Forall_cons in Hs.
  destruct Hs as [_ Hs]; rewrite Forall_forall in Hs; by apply Hs.
Qed.

Lemma synthetic_addresses_ok name ip : ip ∈ synthetic_addresses name → ip_ok ip.
Proof.
  assert (Forall ip_ok [V4 ipv4_localhost; V6 ipv6_loopback; V4 [127; 0; 0; 53]; V4 [127; 0; 0; 54]])
    as Hall.
  { repeat apply Forall_cons_2; [..|constructor];
      (split; [|done]; repeat (apply Forall_cons_2; [unfold is_u8; lia|]); constructor). }
  rewrite Forall_forall in Hall; unfold synthetic_addresses; repeat case_match; intros H';
    apply Hall; set_solver.
Qed.

Lemma synthetic_names_ok ip name : name ∈ synthetic_names ip → str_ok name.
Proof.
  unfold synthetic_names; repeat case_match; rewrite ?list_elem_of_singleton, ?elem_of_nil;
    intros; subst; try done; by apply str_okb_ok.
Qed.

Lemma address_record_ok t ip r : ip_ok ip → address_record t ip = Some r → local_ok r.
Proof. destruct ip; cbn; intros ? H; case_match; by simplify_eq. Qed.

Lemma hosts_lookup_ok h q records :
  hosts_ok h → hosts_lookup h q = Some records → Forall local_ok records.
Proof.
  intros Hh; unfold hosts_lookup; case_match; [done|]; case_match.
  { unfold lookup_forward.
    destruct (host_addresses h _) as [|x l] eqn:Ha; [done|]; intros <-%(inj Some).
    rewrite <- Ha; apply Forall_forall; intros r (ip & Hip & Hr)%list_elem_of_omap.
    eapply address_record_ok; [|exact Hr].
    apply elem_of_host_addresses in Hip as [?|[?|?]];
      eauto using synthetic_addresses_ok, parse_ip_ok; by eapply Hh. }
  case_match; [|case_match; [|done]; by intros [= <-]].
  unfold lookup_reverse; intros (ip & _ & Hl)%bind_Some.
  destruct (foldl push_new _ _) as [|x l] eqn:Hn; [done|].
  apply (inj Some) in Hl as <-; rewrite <- Hn; apply Forall_fmap, Forall_forall; intros name; rewrite elem_of_foldl_push_new.
  intros [?|?]; [by eapply synthetic_names_ok|by eapply (Hh ip)].
Qed.

(** ** Properties *)

(** Where the addresses of a name come from. *)
Definition name_address (text name : str) (ip : IpAddr) : Prop :=
  ip ∈ synthetic_addresses name ∨ parse_ip name = Some ip ∨ host_entry text ip name.

(** C34: questions are answered from the hosts file exactly.  For the text of
    any hosts file: an address question is answered when the name, without case
    and final dots, is a local name, an address literal or in the file, with
    exactly its addresses of the asked family; a reverse question is answered
    with exactly the names the file (or the local names) gives the address;
    questions about other names are left to the network. *)
Theorem hosts_lookup_exact text q :
  q_class q = CLASS_IN ∨ q_class q = CLASS_ANY →
  (q_rr_type q = TYPE_A ∨ q_rr_type q = TYPE_AAAA ∨ q_rr_type q = 255 →
   let name := canonical_name (name_text (q_name q)) in
   match hosts_lookup (hosts_parse text) q with
   | None => ∀ ip, ¬ name_address text name ip
   | Some records =>
       (∃ ip, name_address text name ip) ∧
       ∀ r, r ∈ records ↔
         ∃ ip, name_address text name ip ∧ address_record (q_rr_type q) ip = Some r
   end) ∧
  (q_rr_type q = TYPE_PTR → ∀ ip, parse_reverse_name (name_text (q_name q)) = Some ip →
   match hosts_lookup (hosts_parse text) q with
   | None => ∀ name, ¬ (name ∈ synthetic_names ip ∨ host_entry text ip name)
   | Some records =>
       ∀ r, r ∈ records ↔
         ∃ name, r = LocalPtr name ∧ (name ∈ synthetic_names ip ∨ host_entry text ip name)
   end).
Proof.
  intros Hc; unfold hosts_lookup.
  assert (negb (q_class q =? CLASS_IN) && negb (q_class q =? CLASS_ANY) = false) as ->.
  { destruct Hc as [-> | ->]; [done|by rewrite andb_comm]. }
  split.
  - intros Ht; set (name := canonical_name (name_text (q_name q))).
    assert ((q_rr_type q =? TYPE_A) || (q_rr_type q =? TYPE_AAAA) || (q_rr_type q =? 255) = true) as ->.
    { destruct Ht as [-> |[-> | ->]]; done. }
    unfold lookup_forward; fold name; clearbody name.
    assert (∀ ip, ip ∈ host_addresses (hosts_parse text) name ↔ name_address text name ip) as Ha.
    { intros ip; rewrite elem_of_host_addresses, (proj1 (hosts_parse_spec text ip name)); done. }
    destruct (host_addresses (hosts_parse text) name) as [|x l].
    + intros ip Hip; apply Ha in Hip; by apply elem_of_nil in Hip.
    + split; [exists x; apply Ha; by left|]; intros r; rewrite list_elem_of_omap.
      by setoid_rewrite Ha.
  - intros Ht ip Hip; rewrite Ht.
    change (if (TYPE_PTR =? TYPE_A) || (TYPE_PTR =? TYPE_AAAA) || (TYPE_PTR =? 255)
            then lookup_forward (hosts_parse text) q
            else if TYPE_PTR =? TYPE_PTR then lookup_reverse (hosts_parse text) q
            else if known_name (hosts_parse text) (name_text (q_name q)) then Some [] else None)
      with (lookup_reverse (hosts_parse text) q).
    unfold lookup_reverse; rewrite Hip; cbn [mbind option_bind].
    assert (∀ name, name ∈ foldl push_new (synthetic_names ip)
        (default [] (by_address (hosts_parse text) !! ip)) ↔
      name ∈ synthetic_names ip ∨ host_entry text ip name) as Hn.
    { intros name; by rewrite elem_of_foldl_push_new, <- (proj2 (hosts_parse_spec text ip name)). }
    destruct (foldl push_new _ _) as [|x l].
    + intros name Hname; apply Hn in Hname; by apply elem_of_nil in Hname.
    + intros r; rewrite list_elem_of_fmap; by setoid_rewrite Hn.
Qed.

Definition example_hosts : str := lit "192.0.2.10 Host.Example. alias # comment" ++ [10].
Definition example_host_question : Question :=
  mk_question (mk_name (lit "HOST.example") []) TYPE_A CLASS_IN 0.

Lemma hosts_lookup_exact_witness :
  hosts_lookup (hosts_parse example_hosts) example_host_question = Some [LocalA [192; 0; 2; 10]] ∧
  (LocalA [192; 0; 2; 10] ∈ [LocalA [192; 0; 2; 10]] ↔
   ∃ ip, name_address example_hosts (lit "host.example") ip ∧
     address_record TYPE_A ip = Some (LocalA [192; 0; 2; 10])).
Proof.
  assert (hosts_lookup (hosts_parse example_hosts) example_host_question =
    Some [LocalA [192; 0; 2; 10]]) as Hl by (by vm_compute).
  split; [exact Hl|].
  destruct (hosts_lookup_exact example_hosts example_host_question (or_introl eq_refl)) as [Hf _].
  specialize (Hf (or_introl eq_refl)); cbn zeta in Hf; rewrite Hl in Hf.
  apply (proj2 Hf).
Defined.
