(* ===== verification/StaticFacts.v ===== *)
(** * Static records: theorems

    The records read from the files are well formed, and the response built from
    them matches the query and holds exactly the records asked for. *)

From S2P Require Import Prelude Stateful Text Net NetFacts ConfigTypes Codec Names CodecFacts.
From S2P Require Import Packet PacketFacts LocalFacts Records WireDnssec WireDnssecFacts Config Json.
From S2P Require Import JsonFacts EdnsFacts StaticRecords.

(** ** The database *)

Definition static_ok (r : StaticRecord) : Prop :=
  is_u16 (st_class r) ∧ is_u16 (st_rr_type r) ∧ bytes_ok (st_rdata r) ∧ len (st_rdata r) ≤ 255.

Definition database_ok (db : database) : Prop := map_Forall (λ _, Forall static_ok) db.

(** Files hold text. *)
Definition files_ok (fs : rr_filesystem) : Prop :=
  ∀ p text, rr_file fs p = FileText text → str_ok text.

Lemma as_bounded_range m v n : as_bounded m v = Some n → 0 ≤ n ≤ m.
Proof.
  unfold as_bounded, as_u64; intros (k & Hk & H)%bind_Some.
  destruct v; try done; repeat case_match; simplify_eq; boolp; lia.
Qed.

Lemma btree_get_Forall {V} (P : str * V → Prop) k (m : list (str * V)) v :
  Forall P m → btree_get k m = Some v → ∃ k', P (k', v).
Proof.
  intros Hm; induction Hm as [|[k' v'] m Hx _ IH]; cbn; [done|].
  case_match; intros; simplify_eq; eauto.
Qed.

Lemma json_get_ok v k w : value_ok v → json_get v k = Some w → value_ok w.
Proof.
  destruct v; try done; intros Hv Hg; inversion_clear Hv as [| | | | |? Ho _].
  by destruct (btree_get_Forall _ _ _ _ Ho Hg) as (? & ? & ?).
Qed.

Lemma as_str_ok v s : value_ok v → as_str v = Some s → str_ok s.
Proof. destruct v; try done; intros Hv [= <-]; by inversion Hv. Qed.

Lemma parse_ip_address_ok v ip : parse_ip_address v = Some ip → ip_ok ip.
Proof.
  unfold parse_ip_address; case_match; [apply parse_ip_ok|].
  intros (vs & _ & (os & Hos & H')%bind_Some)%bind_Some.
  assert (bytes_ok os) as Hb.
  { apply mapM_Some_1 in Hos; apply Forall_forall; intros o Ho.
    apply list_elem_of_lookup in Ho as [i Hi].
    destruct (Forall2_lookup_r _ _ _ _ _ Hos Hi) as (v' & _ & Hv%as_bounded_range).
    unfold is_u8, u8_max in *; lia. }
  repeat case_match; simplify_eq; boolp; done.
Qed.

Lemma static_rdata_ok t v rd :
  value_ok v → static_rdata t v = Some rd → bytes_ok rd ∧ len rd ≤ 255.
Proof.
  intros Hv; unfold static_rdata; repeat case_match; [..|done].
  1,2: intros (a & _ & (ip & Hip%parse_ip_address_ok & Hm)%bind_Some)%bind_Some;
    destruct ip; simplify_eq; destruct Hip as [? ->]; split; [done|lia].
  intros (target & Ht & (s & Hs & He)%bind_Some)%bind_Some.
  destruct (encode_name s) as [w| | |] eqn:Hw; cbn in He; simplify_eq; split.
  - by eapply encode_name_ok.
  - apply encode_name_iff in Hw as (_ & _ & -> & ?); lia.
Qed.

Lemma parse_record_value_ok v owner r :
  value_ok v → parse_record_value v = Some (owner, r) → static_ok r.
Proof.
  intros Hv; unfold parse_record_value; intros H.
  apply bind_Some in H as (key & _ & H); apply bind_Some in H as (name & _ & H).
  apply bind_Some in H as (owner' & _ & H); apply bind_Some in H as (w & _ & H).
  apply bind_Some in H as (tv & _ & H); apply bind_Some in H as (t & Ht%as_bounded_range & H).
  apply bind_Some in H as (c & Hc & H); apply bind_Some in H as (rd & Hrd & H).
  assert (is_u16 c).
  { destruct (json_get key (lit "class")); simplify_eq; [|done].
    apply as_bounded_range in Hc; unfold is_u16, u16_max in *; lia. }
  apply static_rdata_ok in Hrd as [? ?]; [|done]; simplify_eq.
  split_and!; [done|unfold is_u16, u16_max in *; cbn; lia|done..].
Qed.

Lemma add_record_value_ok db v : database_ok db → value_ok v → database_ok (add_record_value db v).
Proof.
  intros Hdb Hv; unfold add_record_value.
  destruct (parse_record_value v) as [[owner r]|] eqn:Hr; [|done].
  apply parse_record_value_ok in Hr; [|done]; apply map_Forall_insert_2; [|done].
  assert (Forall static_ok (default [] (db !! owner))) as Hold.
  { destruct (db !! owner) eqn:Ho; cbn; [by apply Hdb in Ho|constructor]. }
  case_bool_decide; [done|]; apply Forall_app; auto.
Qed.

Lemma load_file_ok fs db f : files_ok fs → database_ok db → database_ok (load_file fs db f).
Proof.
  intros Hfs Hdb; unfold load_file, read_json_file; case_match; [done|].
  destruct (rr_file fs (sf_path f)) as [| | |text] eqn:Hf; try done.
  destruct (MAX_RECORD_FILE_SIZE <? str_len text); [done|].
  apply Hfs, json_parse_ok in Hf; destruct (json_parse text) as [v|e| |]; cbn in *; try done.
  destruct v as [| | | |vs|o]; try done; [|by apply add_record_value_ok].
  inversion_clear Hf as [| | | |? Hvs|]; revert db Hdb.
  induction Hvs as [|v vs Hv _ IH]; intros db Hdb; cbn; [done|].
  by apply IH, add_record_value_ok.
Qed.

Lemma load_selected_files_ok fs files : files_ok fs → database_ok (load_selected_files fs files).
Proof.
  intros Hfs; unfold load_selected_files; generalize (map_Forall_empty (M := gmap str)
    (λ _, Forall static_ok)); fold database_ok; generalize (∅ : database).
  induction files as [|f files IH]; intros db Hdb; cbn; [done|].
  by apply IH, load_file_ok.
Qed.

Lemma refresh_if_due_ok fs fs' now s :
  files_ok fs' → database_ok (sr_records s) → database_ok (sr_records (refresh_if_due fs fs' now s)).
Proof.
  intros Hfs Hdb; unfold refresh_if_due; destruct (negb _); [done|].
  destruct (_ ≫= _) as [[files stamps]|e| |]; try done.
  case_bool_decide; [done|]; by apply load_selected_files_ok.
Qed.

(** ** The response *)

#[global] Instance static_answer_record : Appendable StaticRecord :=
  {| ans_type := st_rr_type; ans_class := st_class |}.

(** The records the response holds, each with its data. *)
Definition static_answers (q : Question) (rrset : list StaticRecord) : list (StaticRecord * bytes) :=
  (λ r, (r, st_rdata r)) <$> List.filter (static_selected q) rrset.

Definition static_flags (flags : Z) : Z :=
  Z.ldiff (Z.lor flags (Z.lor (Z.lor FLAG_QR FLAG_RA) FLAG_AD)) cleared_flags.

Lemma static_flags_reply h : header_ok h → reply_flags h (static_flags (h_flags h)).
Proof.
  intros (_ & Hf & _); split; [by apply is_u16_ldiff, is_u16_lor|]; intros h' Hh'.
  assert (∀ mask, Z.land (static_flags (h_flags h)) mask =
    Z.lor (Z.land (h_flags h) (Z.ldiff mask cleared_flags))
      (Z.land (Z.ldiff (Z.lor (Z.lor FLAG_QR FLAG_RA) FLAG_AD) cleared_flags) mask)) as Hland.
  { intros mask; unfold static_flags; rewrite <- (Z.lor_0_r (Z.ldiff _ cleared_flags)).
    by rewrite land_set_clear, Z.lor_0_r. }
  unfold is_response, opcode; rewrite Hh', !Hland; split.
  - apply negb_true_iff, Z.eqb_neq; by intros [_ ?]%Z.lor_eq_0_iff.
  - change (Z.ldiff FLAG_OPCODE cleared_flags) with FLAG_OPCODE; by rewrite Z.lor_0_r.
Qed.

Definition fits (start n : Z) (xs : list (StaticRecord * bytes)) : Prop :=
  xs = [] ∨ start + len (answers 0 xs) ≤ u16_max ∧ n + len xs ≤ u16_max.
#[global] Instance fits_dec start n xs : Decision (fits start n xs).
Proof. unfold fits; apply _. Defined.

Lemma append_static_records_eq q rrset resp n :
  append_static_records q rrset resp n =
  if decide (fits (len resp) n (static_answers q rrset))
  then Ok (resp ++ answers 0 (static_answers q rrset), n + len (static_answers q rrset))
  else Err ResponseTooLarge.
Proof.
  revert resp n; induction rrset as [|r rrset IH]; intros resp n; cbn [append_static_records].
  { rewrite decide_True by (by left); cbn; by rewrite app_nil_r, Z.add_0_r. }
  unfold static_answers in *; cbn [List.filter]; destruct (static_selected q r); cbn [negb]; [|apply IH].
  set (xs := (λ r, (r, st_rdata r)) <$> List.filter (static_selected q) rrset) in *.
  rewrite fmap_cons; fold xs; unfold u16_try_from.
  pose proof (len_nonneg resp); pose proof (len_nonneg (answers 0 xs)); pose proof (len_nonneg xs).
  pose proof (answer_bytes_len 0 (r, st_rdata r)) as Hb; cbn [snd] in Hb.
  pose proof (len_nonneg (st_rdata r)).
  assert (fits (len resp) n ((r, st_rdata r) :: xs) ↔
    len resp + (12 + len (st_rdata r)) + len (answers 0 xs) ≤ u16_max ∧
    n + 1 + len xs ≤ u16_max) as Hfits.
  { unfold fits; rewrite answers_cons, len_app, len_cons, Hb; split; [intros [?|?]; [done|]|right]; lia. }
  rewrite answers_cons, len_cons.
  destruct (Z.leb_spec (len (st_rdata r)) u16_max); cbn [mbind outcome_bind]; cycle 1.
  { rewrite decide_False; [done|]; rewrite Hfits; lia. }
  change ([192; 12] ++ u16_bytes (st_rr_type r) ++ u16_bytes (st_class r) ++ u32_bytes 0 ++
    u16_bytes (len (st_rdata r)) ++ st_rdata r) with (answer_bytes 0 (r, st_rdata r)).
  rewrite len_app, Hb; destruct (Z.ltb_spec u16_max (len resp + (12 + len (st_rdata r)))).
  { rewrite decide_False; [done|]; rewrite Hfits; lia. }
  unfold checked_add; destruct (Z.leb_spec (n + 1) u16_max); cbn [ok_or mbind outcome_bind]; cycle 1.
  { rewrite decide_False; [done|]; rewrite Hfits; lia. }
  rewrite IH, <- app_assoc; replace (n + (1 + len xs)) with (n + 1 + len xs) by lia.
  apply decide_ext; rewrite Hfits; unfold fits; rewrite len_app, Hb.
  split; [intros [Hx|?]|right]; [|lia..].
  assert (len (answers 0 xs) = 0 ∧ len xs = 0) by (by rewrite Hx); lia.
Qed.

Lemma static_answers_ok q rrset : Forall static_ok rrset → Forall answer_ok (static_answers q rrset).
Proof.
  intros H; apply Forall_fmap, Forall_forall; intros r Hr%list_elem_of_In.
  apply List.filter_In in Hr as [Hr%list_elem_of_In _]; rewrite Forall_forall in H.
  destruct (H r Hr) as (? & ? & ? & ?); split_and!; try done; cbn; unfold u16_max; lia.
Qed.

Lemma splice_splice {A} (p q r v w : list A) a b :
  splice p a v = Some q → b = a + len v → splice q b w = Some r → splice p a (v ++ w) = Some r.
Proof.
  intros (? & Hpv & ->)%splice_Some -> (? & Hqw & ->)%splice_Some; unfold splice.
  rewrite !len_app in *; unfold len in *.
  rewrite length_take, length_drop in Hqw.
  rewrite !(proj2 (Z.leb_le _ _)) by lia; f_equal; cbn [andb].
  assert (Z.to_nat (a + Z.of_nat (length v)) = length (take (Z.to_nat a) p ++ v)) as Hn
    by (rewrite length_app, length_take; lia).
  rewrite Hn, !(app_assoc (take _ p) v (drop _ p)), take_app_length.
  rewrite drop_app_ge, drop_drop, <- !app_assoc by (rewrite length_app, length_take; lia).
  do 4 f_equal; rewrite length_app, length_take; lia.
Qed.

Lemma build_response_spec query h labels t c stop rrset :
  answerable query h labels t c stop → Forall static_ok rrset →
  let q := mk_question (labels_name labels) t c stop in
  let xs := static_answers q rrset in
  if decide (fits stop 0 xs)
  then ∃ r, build_response query q rrset = Ok r ∧
    answered query h labels t c stop (static_flags (h_flags h)) 0 xs r
  else build_response query q rrset = Err ResponseTooLarge.
Proof.
  intros Ha Hrs q xs; pose proof (answerable_header _ _ _ _ _ _ Ha) as (Hok & _ & _ & Hqc).
  pose proof (static_flags_reply h Hok) as Hreply.
  destruct (response_prefix query h labels t c stop _ 0 Ha Hreply)
    as (r0 & r1 & r2 & r3 & Hr0 & Hfl & Hw1 & Hw2 & Hs3 & Hp3 & Hl3 & Hh3 & Hq3); [done|].
  unfold build_response; pose proof Ha as [Hp Hv Hh Hq].
  destruct (first_question_plain _ _ _ _ _ _ Hp Hh Hqc Hq) as [_ Hqe].
  rewrite Hv; cbn [mbind outcome_bind]; rewrite Hqe; cbn [mbind outcome_bind].
  rewrite Hr0; cbn [or_panic mbind outcome_bind]; rewrite (index_read_u16 _ _ _ Hfl).
  cbn [mbind outcome_bind]; fold cleared_flags; fold (static_flags (h_flags h)).
  unfold write_u16 in Hw1, Hw2; inv_ok.
  match goal with H : splice r0 2 _ = _ |- _ => rewrite H end; cbn [or_panic mbind outcome_bind].
  match goal with H : splice r1 6 _ = _ |- _ =>
    rewrite (splice_splice _ _ _ _ _ 6 8 H eq_refl Hs3 :
      splice r1 6 (replicate 6 0) = Some r3) end; cbn [or_panic mbind outcome_bind].
  rewrite append_static_records_eq, Hl3; fold xs; destruct (decide (fits stop 0 xs)) as [Hf|]; [|done].
  cbn [mbind outcome_bind]; rewrite Z.add_0_l.
  pose proof (len_nonneg xs); pose proof (answers_len_ge 0 xs); pose proof (len_nonneg r3).
  assert (0 ≤ len xs ≤ u16_max ∧ len (answers 0 xs) ≤ u16_max) as [Hx Hxl].
  { destruct Hf as [-> |?]; [done|unfold u16_max in *; lia]. }
  destruct (write_u16_total r3 6 (len xs) Hp3) as (r4 & _ & Hs4).
  { lia. }
  { apply plain_question_parse in Hq3 as [_ ?]; [lia|done]. }
  rewrite (splice_app _ _ _ _ _ Hs4); cbn [or_panic]; eexists; split; [done|].
  destruct (set_answer_count r3 r4 h labels t c stop (static_flags (h_flags h)) 0 (len xs))
    as (Hp4 & Hl4 & Hh4 & Hq4); try done; [unfold is_u16, u16_max in *; lia|].
  apply with_answers; try done; split.
  - apply bytes_ok_app; split; [apply Hp4|]; by apply answers_bytes_ok, static_answers_ok.
  - rewrite len_app; apply plain_question_parse in Hq as [_ ?]; [|done].
    destruct Hp, Hf as [Hx'|?]; [|unfold u16_max in *; lia].
    rewrite Hx'; change (len (answers 0 [])) with 0; lia.
Qed.

Lemma static_answer_spec fs fs' now query h labels t c stop s :
  answerable query h labels t c stop → files_ok fs' → database_ok (sr_records s) →
  sr_enabled s = true →
  let s' := refresh_if_due fs fs' now s in
  let q := mk_question (labels_name labels) t c stop in
  ∃ r, static_answer fs fs' now query s = (r, s') ∧ database_ok (sr_records s') ∧
  match sr_records s' !! static_name (name_text (labels_name labels)) with
  | None => r = Ok None
  | Some rrset =>
      let xs := static_answers q rrset in
      if decide (fits stop 0 xs)
      then ∃ p, r = Ok (Some p) ∧ answered query h labels t c stop (static_flags (h_flags h)) 0 xs p
      else r = Err ResponseTooLarge
  end.
Proof.
  intros Ha Hfs Hdb He s' q; pose proof (refresh_if_due_ok fs fs' now s Hfs Hdb) as Hdb'.
  fold s' in Hdb'; unfold static_answer; rewrite He; cbn [negb]; fold s'; eexists; split_and!; [done..|].
  pose proof (answerable_header _ _ _ _ _ _ Ha) as (_ & _ & _ & Hqc); pose proof Ha as [Hp Hv Hh Hq].
  destruct (first_question_plain _ _ _ _ _ _ Hp Hh Hqc Hq) as [-> _]; cbn [mbind outcome_bind q_name].
  destruct (sr_records s' !! _) as [rrset|] eqn:Hrr; [|done].
  pose proof (build_response_spec query h labels t c stop rrset Ha) as Hb.
  specialize (Hb (map_Forall_lookup_1 _ _ _ _ Hdb' Hrr)); cbn zeta in *; unfold q.
  destruct (decide _); [destruct Hb as (p & -> & ?); eauto|by rewrite Hb].
Qed.

(** ** Any packet *)

Lemma or_panic_splice_wp p o v Q :
  packet_ok p → bytes_ok v → 0 ≤ o → o + len v ≤ len p →
  (∀ q, packet_ok q → len q = len p → Q q) → wp (@or_panic WireError _ (splice p o v)) Q.
Proof.
  intros Hp Hv Ho Hl HQ; destruct (splice_is_Some p o v) as [q Hq]; [lia..|].
  rewrite Hq; apply HQ; [by eapply packet_ok_splice|by eapply splice_len].
Qed.

Lemma build_response_wp query q rrset :
  packet_ok query → Forall static_ok rrset → wp (build_response query q rrset) packet_ok.
Proof.
  intros Hp Hrs; unfold build_response; wp_call u Hu; wp_call stop Hstop.
  apply question_end_bounds in Hstop as Hb; [|done].
  destruct (slice_is_Some query 0 stop) as [r0 Hr0]; [lia..|].
  assert (packet_ok r0) as Hp0 by (by eapply packet_ok_slice).
  rewrite Hr0; cbn [or_panic mbind outcome_bind]; apply slice_len in Hr0.
  destruct (read_u16_total r0 2) as [f Hf]; [apply Hp0|lia..|].
  rewrite (index_read_u16 _ _ _ Hf); cbn [mbind outcome_bind]; apply read_u16_range in Hf; [|apply Hp0].
  fold cleared_flags; fold (static_flags f).
  assert (is_u16 (static_flags f)) by (by apply is_u16_ldiff, is_u16_lor).
  apply wp_bind, or_panic_splice_wp; [done|by apply u16_bytes_ok|lia|len_lia|]; intros r1 Hp1 Hl1.
  apply wp_bind, or_panic_splice_wp; [done|apply Forall_replicate; unfold is_u8; lia|lia|len_lia|].
  intros r2 Hp2 Hl2; rewrite append_static_records_eq; case_decide as Hfit; [|done].
  cbn [mbind outcome_bind]; rewrite Z.add_0_l; set (xs := static_answers q rrset) in *.
  pose proof (len_nonneg xs); pose proof (len_nonneg (answers 0 xs)); pose proof (len_nonneg r2).
  assert (is_u16 (len xs) ∧ (xs = [] ∨ len r2 + len (answers 0 xs) ≤ u16_max)) as [Hx Hsize].
  { destruct Hfit as [-> |?]; [by split; [|left]|]; unfold is_u16, u16_max in *; split; [|right]; lia. }
  apply or_panic_splice_wp; [|by apply u16_bytes_ok|lia|rewrite len_app; len_lia|done]; split.
  - apply bytes_ok_app; split; [apply Hp2|]; by apply answers_bytes_ok, static_answers_ok.
  - rewrite len_app; destruct Hsize as [->|?]; [|unfold u16_max in *; lia].
    change (len (answers 0 [])) with 0; destruct Hp2; lia.
Qed.

Lemma static_answer_wp fs fs' now query s :
  packet_ok query → files_ok fs' → database_ok (sr_records s) →
  let '(r, s') := static_answer fs fs' now query s in
  database_ok (sr_records s') ∧
  wp r (λ o, match o with Some p => packet_ok p | None => True end).
Proof.
  intros Hp Hfs Hdb; unfold static_answer; destruct (negb _); [done|].
  pose proof (refresh_if_due_ok fs fs' now s Hfs Hdb) as Hdb'; split; [done|].
  wp_call q Hq; destruct (sr_records _ !! _) as [rrset|] eqn:Hrr; [|done].
  apply wp_bind; eapply wp_mono; [apply build_response_wp; [done|]|done].
  by apply (map_Forall_lookup_1 _ _ _ _ Hdb' Hrr).
Qed.

(** ** Where the records come from *)

(** The values of a file, none when it is masked or cannot be used. *)
Definition file_values (fs : rr_filesystem) (f : SelectedFile) : list Value :=
  if sf_masked f then []
  else
    match read_json_file fs (sf_path f) with
    | Some (Object o) => [Object o]
    | Some (Array values) => values
    | _ => []
    end.

Definition has_record (db : database) (owner : str) (r : StaticRecord) : Prop :=
  r ∈ default [] (db !! owner).

Definition configured (fs : rr_filesystem) (files : list SelectedFile) (owner : str)
    (r : StaticRecord) : Prop :=
  ∃ f v, f ∈ files ∧ v ∈ file_values fs f ∧ parse_record_value v = Some (owner, r).

Definition distinct (db : database) : Prop :=
  map_Forall (λ _ rrset, NoDup rrset ∧ rrset ≠ []) db.

Lemma load_file_values fs db f : load_file fs db f = fold_left add_record_value (file_values fs f) db.
Proof. unfold load_file, file_values; by repeat case_match. Qed.

Lemma add_record_value_spec db v owner r :
  has_record (add_record_value db v) owner r ↔
  has_record db owner r ∨ parse_record_value v = Some (owner, r).
Proof.
  unfold add_record_value, has_record; destruct (parse_record_value v) as [[o r']|]; [|naive_solver].
  destruct (decide (owner = o)) as [->|Hne]; [|rewrite lookup_insert_ne by done; naive_solver].
  rewrite lookup_insert_eq; cbn; case_bool_decide; [naive_solver|].
  rewrite elem_of_app, list_elem_of_singleton; naive_solver.
Qed.

Lemma add_record_value_distinct db v : distinct db → distinct (add_record_value db v).
Proof.
  intros Hd; unfold add_record_value; destruct (parse_record_value v) as [[o r]|]; [|done].
  apply map_Forall_insert_2; [|done].
  assert (NoDup (default [] (db !! o))) as Hn.
  { destruct (db !! o) eqn:Ho; cbn; [by apply Hd in Ho as [? _]|constructor]. }
  case_bool_decide as Hr; [split; [done|by destruct (default [] (db !! o)); [apply elem_of_nil in Hr|]]|].
  split; [|by destruct (default [] (db !! o))].
  apply NoDup_app; split_and!; [done|set_solver|apply NoDup_singleton].
Qed.

Lemma load_values_spec vs db owner r :
  (has_record (fold_left add_record_value vs db) owner r ↔
    has_record db owner r ∨ ∃ v, v ∈ vs ∧ parse_record_value v = Some (owner, r)) ∧
  (distinct db → distinct (fold_left add_record_value vs db)).
Proof.
  revert db; induction vs as [|v vs IH]; intros db; cbn [fold_left].
  { setoid_rewrite elem_of_nil; naive_solver. }
  destruct (IH (add_record_value db v)) as [-> Hd]; rewrite add_record_value_spec.
  setoid_rewrite elem_of_cons; split; [naive_solver|eauto using add_record_value_distinct].
Qed.

Lemma load_selected_files_spec fs files :
  distinct (load_selected_files fs files) ∧
  ∀ owner r, has_record (load_selected_files fs files) owner r ↔ configured fs files owner r.
Proof.
  assert (∀ db, (distinct db → distinct (fold_left (load_file fs) files db)) ∧
    ∀ owner r, has_record (fold_left (load_file fs) files db) owner r ↔
      has_record db owner r ∨ configured fs files owner r) as Hall.
  { unfold configured; induction files as [|f files IH]; intros db; cbn [fold_left].
    { setoid_rewrite elem_of_nil; naive_solver. }
    destruct (IH (load_file fs db f)) as [Hd Hr]; split.
    - intros; apply Hd; rewrite load_file_values; by apply (load_values_spec _ _ [] (mk_static 0 0 [])).
    - intros owner r; rewrite Hr, load_file_values, (proj1 (load_values_spec _ _ _ _)).
      setoid_rewrite elem_of_cons; naive_solver. }
  destruct (Hall ∅) as [Hd Hr]; split; [apply Hd, map_Forall_empty|]; intros owner r.
  unfold load_selected_files; rewrite Hr; unfold has_record at 1; rewrite lookup_empty; cbn.
  rewrite elem_of_nil; tauto.
Qed.

Lemma fingerprint_nil fs files : fingerprint fs files = Ok [] → files = [].
Proof. destruct files; [done|]; cbn; intros H; by inv_ok. Qed.

(** ** What a file says

    A record in a file, independently of how the code reads it. *)

Definition member (v : Value) (k : string) (w : Value) : Prop := ∃ o, v = Object o ∧ (lit k, w) ∈ o.

(** The text is a name, and [w] its encoding. *)
Definition name_wire (text : str) (w : bytes) : Prop :=
  is_ascii (stripped_name text) = true ∧ Forall label_ok (name_labels text) ∧
  w = wire_of_labels (name_labels text) ∧ len w ≤ 255.

(** An address as text or as an array of its octets. *)
Definition address_value (v : Value) (ip : IpAddr) : Prop :=
  (∃ text, v = String text ∧ parse_ip text = Some ip) ∨
  (∃ octets, v = Array (Number <$> octets) ∧ Forall (λ b, 0 ≤ b ≤ 255) octets ∧
     (len octets = 4 ∧ ip = V4 octets ∨ len octets = 16 ∧ ip = V6 octets)).

(** The value describes the record [r] of [owner]: an address record (A, AAAA), or
    one that names a target (NS, CNAME, PTR, DNAME); the class is IN by default. *)
Definition describes (v : Value) (owner : str) (r : StaticRecord) : Prop :=
  ∃ key, member v "key" key ∧ member key "name" (String owner) ∧ (∃ w, name_wire owner w) ∧
    member key "type" (Number (st_rr_type r)) ∧ 0 ≤ st_rr_type r ≤ 65535 ∧
    (member key "class" (Number (st_class r)) ∧ 0 ≤ st_class r ≤ 65535 ∨
     (∀ c, ¬ member key "class" c) ∧ st_class r = 1) ∧
    (st_rr_type r = 1 ∧ (∃ a, member v "address" a ∧ address_value a (V4 (st_rdata r))) ∨
     st_rr_type r = 28 ∧ (∃ a, member v "address" a ∧ address_value a (V6 (st_rdata r))) ∨
     st_rr_type r ∈ [2; 5; 12; 39] ∧
       ∃ target, member v "name" (String target) ∧ name_wire target (st_rdata r)).

(** The file is not masked, has at most 1 MiB, and is the value or an array with it. *)
Definition file_holds (fs : rr_filesystem) (f : SelectedFile) (v : Value) : Prop :=
  sf_masked f = false ∧ ∃ text whole, rr_file fs (sf_path f) = FileText text ∧ str_len text ≤ 1048576 ∧
    json_parse text = Ok whole ∧
    ((∃ o, whole = Object o ∧ v = whole) ∨ ∃ values, whole = Array values ∧ v ∈ values).

(** The same name, without case and final dots. *)
Definition same_name (a b : str) : Prop :=
  to_ascii_lowercase (trim_end_matches dot a) = to_ascii_lowercase (trim_end_matches dot b).

Definition files_say (fs : rr_filesystem) (files : list SelectedFile) (name : str) (r : StaticRecord) : Prop :=
  ∃ f v owner, f ∈ files ∧ file_holds fs f v ∧ describes v owner r ∧ same_name owner name.

Lemma btree_get_iff {V} k (m : list (str * V)) v :
  StronglySorted str_lt m.*1 → btree_get k m = Some v ↔ (k, v) ∈ m.
Proof.
  induction m as [|[k' v'] m IH]; cbn; intros Hs; [by rewrite elem_of_nil|].
  apply StronglySorted_inv in Hs as [Hs Hlt]; rewrite elem_of_cons; case_bool_decide as Hk.
  - subst k'; split; [intros [= ->]; by left|]; intros [[= ->]|Hin]; [done|].
    rewrite Forall_forall in Hlt; specialize (Hlt k); destruct (str_lt_irrefl k); apply Hlt.
    apply list_elem_of_fmap; by exists (k, v).
  - rewrite IH by done; split; [by right|]; intros [[= -> _]|]; done.
Qed.

Lemma json_get_iff v k w : value_ok v → json_get v (lit k) = Some w ↔ member v k w.
Proof.
  intros Hv; unfold member; destruct v as [| | | | |o]; cbn; try (split; [done|by intros (o & [=] & _)]).
  inversion_clear Hv as [| | | | |? _ Hs]; rewrite btree_get_iff by done.
  split; [by exists o|]; by intros (o' & [= ->] & ?).
Qed.

Lemma member_ok v k w : value_ok v → member v k w → value_ok w.
Proof. intros Hv Hm%json_get_iff; [|done]; by eapply json_get_ok. Qed.

Lemma as_bounded_iff m v n : m < 2 ^ 64 → as_bounded m v = Some n ↔ v = Number n ∧ 0 ≤ n ≤ m.
Proof.
  intros Hm; unfold as_bounded, as_u64; split.
  - intros (k & Hk & H)%bind_Some; destruct v as [| |x| | |]; try done.
    destruct ((0 <=? x) && _) eqn:Hx; [|done]; boolp; simplify_eq; destruct (Z.leb_spec k m); [|done].
    injection H as <-; split; [done|lia].
  - intros [-> ?]; rewrite (proj2 (Z.leb_le 0 n)), (proj2 (Z.ltb_lt n (2 ^ 64))) by lia; cbn.
    by rewrite (proj2 (Z.leb_le n m)) by lia.
Qed.

Lemma as_str_iff v s : as_str v = Some s ↔ v = String s.
Proof. destruct v; cbn; split; by intros [= ->]. Qed.

Lemma encode_wire text w : to_option (encode_name text) = Some w ↔ name_wire text w.
Proof.
  unfold name_wire; rewrite <- encode_name_iff; destruct (encode_name text); cbn; split; by intros [= ->].
Qed.

Lemma address_value_iff v ip : parse_ip_address v = Some ip ↔ address_value v ip.
Proof.
  unfold parse_ip_address, address_value; destruct v as [| | |text|values|]; cbn [as_str as_array];
    try (split; [done|]; by intros [(? & [=] & _)|(? & [=] & _)]).
  - split; [left; eauto|]; by intros [(? & [= ->] & ?)|(? & [=] & _)].
  - cbn [mbind option_bind]; assert (∀ octets, mapM (as_bounded u8_max) values = Some octets ↔
      values = Number <$> octets ∧ Forall (λ b, 0 ≤ b ≤ 255) octets) as Hm.
    { intros octets; rewrite mapM_Some; split.
      - induction 1 as [|v b vs bs Hb _ [-> IH]]; [by split; [|constructor]|].
        apply as_bounded_iff in Hb as [-> ?]; [|done]; split; [done|by constructor].
      - intros [-> H]; induction H as [|b bs Hb _ IH]; cbn; constructor; [|done]; by apply as_bounded_iff. }
    split.
    + intros (octets & [-> Hb]%Hm & Ho)%bind_Some; right; exists octets; split_and!; [done..|].
      destruct (Z.eqb_spec (len octets) 4); [injection Ho as <-; by left|].
      destruct (Z.eqb_spec (len octets) 16); [injection Ho as <-; by right|done].
    + intros [(? & [=] & _)|(octets & [= ->] & Hb & Hl)].
      rewrite (proj2 (Hm octets)) by done; cbn [mbind option_bind].
      by destruct Hl as [[-> ->]|[-> ->]].
Qed.

Lemma static_rdata_iff t v rd :
  value_ok v → static_rdata t v = Some rd ↔
  (t = 1 ∧ (∃ a, member v "address" a ∧ address_value a (V4 rd)) ∨
   t = 28 ∧ (∃ a, member v "address" a ∧ address_value a (V6 rd)) ∨
   t ∈ [2; 5; 12; 39] ∧ ∃ target, member v "name" (String target) ∧ name_wire target rd).
Proof.
  intros Hv; unfold static_rdata; rewrite !elem_of_cons, elem_of_nil.
  unfold TYPE_A, TYPE_AAAA, TYPE_PTR, TYPE_NS, TYPE_CNAME, TYPE_DNAME.
  setoid_rewrite <- json_get_iff; [|done..]; setoid_rewrite <- address_value_iff; setoid_rewrite <- encode_wire.
  destruct (Z.eqb_spec t 1) as [->|H1]; [|destruct (Z.eqb_spec t 28) as [->|H28]].
  - split.
    + intros (a & Ha & (ip & Hip & H)%bind_Some)%bind_Some; destruct ip; simplify_eq; left; eauto.
    + intros [[_ (a & -> & Hip)]|[[? _]|[? _]]]; [cbn; by rewrite Hip|lia..].
  - split.
    + intros (a & Ha & (ip & Hip & H)%bind_Some)%bind_Some; destruct ip; simplify_eq; right; left; eauto.
    + intros [[? _]|[[_ (a & -> & Hip)]|[? _]]]; [lia|cbn; by rewrite Hip|lia].
  - destruct ((t =? 12) || (t =? 2) || (t =? 5) || (t =? 39)) eqn:Ht.
    + assert (t = 2 ∨ t = 5 ∨ t = 12 ∨ t = 39 ∨ False) as Ht' by (rewrite !orb_true_iff, !Z.eqb_eq in Ht; lia).
      split.
      * intros (a & Ha & (s & Hs%as_str_iff & H)%bind_Some)%bind_Some; subst; right; right; eauto.
      * intros [[? _]|[[? _]|[_ (s & -> & H)]]]; [lia..|exact H].
    + rewrite !orb_false_iff, !Z.eqb_neq in Ht; split; [done|]; intros [[? _]|[[? _]|[? _]]]; lia.
Qed.

Lemma parse_record_value_iff v name r :
  value_ok v → parse_record_value v = Some (name, r) ↔
  ∃ owner, name = static_name owner ∧ describes v owner r.
Proof.
  intros Hv; unfold parse_record_value, describes; split.
  - intros (key & Hkey%json_get_iff & H)%bind_Some; [|done].
    assert (value_ok key) as Hk by (by eapply member_ok).
    apply bind_Some in H as (nv & Hn%json_get_iff & H); [|done].
    apply bind_Some in H as (owner & ->%as_str_iff & H); apply bind_Some in H as (w & Hw%encode_wire & H).
    apply bind_Some in H as (tv & Ht%json_get_iff & H); [|done].
    apply bind_Some in H as (t & [-> Htb]%as_bounded_iff & H); [|done].
    apply bind_Some in H as (c & Hc & H); apply bind_Some in H as (rd & Hrd%static_rdata_iff & [= <- <-]); [|done].
    exists owner; split; [done|]; exists key; unfold u16_max in Htb.
    split_and!; [done|done|eauto|done|cbn; lia|cbn; lia| |done].
    destruct (json_get key (lit "class")) as [cv|] eqn:Hcv.
    + apply as_bounded_iff in Hc as [-> ?]; [|done]; apply json_get_iff in Hcv; [|done]; by left.
    + injection Hc as <-; right; split; [|done]; intros c Hm%json_get_iff; [congruence|done].
  - intros (owner & -> & key & Hkey & Hn & [w Hw] & Ht & Htb & Hc & Hrd).
    assert (value_ok key) as Hk by (by eapply member_ok).
    apply json_get_iff in Hkey, Hn, Ht; [|done..]; apply encode_wire in Hw.
    rewrite Hkey; cbn [mbind option_bind]; rewrite Hn; cbn [as_str mbind option_bind]; rewrite Hw.
    cbn [mbind option_bind]; rewrite Ht; cbn [mbind option_bind].
    rewrite (proj2 (as_bounded_iff u16_max (Number (st_rr_type r)) (st_rr_type r) ltac:(done))) by done.
    assert (match json_get key (lit "class") with
            | Some c => as_bounded u16_max c | None => Some CLASS_IN end = Some (st_class r)) as Hclass.
    { destruct Hc as [[Hm%json_get_iff Hb]|[Hno ->]]; [rewrite Hm; by apply as_bounded_iff|done|].
      destruct (json_get key (lit "class")) as [c|] eqn:Hg; [|done].
      apply json_get_iff in Hg; [by apply Hno in Hg|done]. }
    cbn [mbind option_bind]; rewrite Hclass; cbn [mbind option_bind].
    rewrite (proj2 (static_rdata_iff _ _ (st_rdata r) Hv)) by done; by destruct r.
Qed.

Lemma static_name_iff a b : static_name a = static_name b ↔ same_name a b.
Proof.
  unfold static_name, same_name.
  assert (∀ x, to_ascii_lowercase (trim_end_matches dot x) ≠ lit ".") as Hdot.
  { intros x; destruct (trim_end_matches_spec dot x) as (n & _ & Hl); unfold to_ascii_lowercase.
    change (lit ".") with [dot]; intros (c & l & Hc & Hn & Hx)%fmap_cons_inv; symmetry in Hn.
    apply fmap_nil_inv in Hn as ->; rewrite Hx in Hl; apply Hl; cbn; f_equal.
    unfold lower_char, dot in *; revert Hc; case_match; boolp; lia. }
  assert (∀ x : str, to_ascii_lowercase x = [] ↔ x = []) as Hnil by (by intros [|c x]).
  case_bool_decide as Ha; case_bool_decide as Hb; [|split; intros H'..|done].
  - by rewrite Ha, Hb.
  - symmetry in H'; by apply Hdot in H'.
  - destruct Hb; apply Hnil; by rewrite <- H', Ha.
  - by apply Hdot in H'.
  - destruct Ha; apply Hnil; by rewrite H', Hb.
Qed.

Lemma file_values_iff fs f v : v ∈ file_values fs f ↔ file_holds fs f v.
Proof.
  unfold file_values, file_holds, read_json_file, MAX_RECORD_FILE_SIZE; split.
  - destruct (sf_masked f); [by intros ?%elem_of_nil|]; intros Hin; split; [done|].
    destruct (rr_file fs (sf_path f)) as [| | |text]; try by apply elem_of_nil in Hin.
    destruct (Z.ltb_spec (1024 * 1024) (str_len text)); [by apply elem_of_nil in Hin|].
    destruct (json_parse text) as [whole| | |] eqn:Hp; try by apply elem_of_nil in Hin.
    exists text, whole; split_and!; [done|lia|done|].
    destruct whole as [| | | |values|o]; cbn in Hin; try by apply elem_of_nil in Hin.
    + right; eauto.
    + apply list_elem_of_singleton in Hin as ->; left; eauto.
  - intros (-> & text & whole & -> & Hl & Hp & Hw); destruct (Z.ltb_spec (1024 * 1024) (str_len text)); [lia|].
    rewrite Hp; cbn; destruct Hw as [(o & -> & ->)|(values & -> & Hin)]; [by left|done].
Qed.

Lemma file_values_ok fs f v : files_ok fs → v ∈ file_values fs f → value_ok v.
Proof.
  intros Hfs (_ & text & whole & Hf & _ & Hp & Hw)%file_values_iff.
  apply Hfs, json_parse_ok in Hf; rewrite Hp in Hf; cbn in Hf.
  destruct Hw as [(o & -> & ->)|(values & -> & Hin)]; [done|].
  inversion_clear Hf as [| | | |? Hvs|]; rewrite Forall_forall in Hvs; by apply Hvs.
Qed.

(** The records the code reads are those the files say. *)
Lemma configured_iff fs files name r :
  files_ok fs → configured fs files (static_name name) r ↔ files_say fs files name r.
Proof.
  intros Hfs; unfold configured, files_say; split.
  - intros (f & v & Hf & Hv & Hr); pose proof (file_values_ok fs f v Hfs Hv) as Hok.
    apply parse_record_value_iff in Hr as (owner & Hn%static_name_iff & Hd); [|done].
    exists f, v, owner; split_and!; [done|by apply file_values_iff|done|]; by unfold same_name in *.
  - intros (f & v & owner & Hf & Hv%file_values_iff & Hd & Hn); pose proof (file_values_ok fs f v Hfs Hv) as Hok.
    exists f, v; split_and!; [done..|]; apply parse_record_value_iff; [done|]; exists owner; split; [|done].
    symmetry; by apply static_name_iff.
Qed.

(** ** Which files are in force

    What happens to the records: a query, at a time and with the files as they
    are while they are chosen and while they are read, or a reload of the
    configuration. *)
Inductive visit : Type :=
  | Asked (fs fs' : rr_filesystem) (now : Z) (query : bytes)
  | Invalidated.

Definition after_visit (s : StaticRecords) (v : visit) : StaticRecords :=
  match v with
  | Asked fs fs' now query => (static_answer fs fs' now query s).2
  | Invalidated => invalidate s
  end.

Definition visit_ok (v : visit) : Prop :=
  match v with Asked _ fs' _ _ => files_ok fs' | Invalidated => True end.

(** Files as they were read, and their stamps. *)
Record snapshot : Type := mk_snapshot {
  sn_fs : rr_filesystem;
  sn_files : list SelectedFile;
  sn_stamps : list FileStamp;
}.

Definition listing (fs : rr_filesystem) (directories : list path) :
    option (list SelectedFile * list FileStamp) :=
  match select_files fs directories with
  | Ok files => match fingerprint fs files with Ok stamps => Some (files, stamps) | _ => None end
  | _ => None
  end.

(** The files are looked at by the first query, and by a query two seconds or more
    after the last look; they are read again when they can be listed and their
    stamps differ from those of the files in force. *)
Definition next_in_force (directories : list path) (x : option Z * option snapshot) (v : visit) :
    option Z * option snapshot :=
  match v with
  | Invalidated => (None, None)
  | Asked fs fs' now _ =>
      if match x.1 with Some last => now <? last + 2 * second | None => false end then x
      else (Some now,
        match listing fs directories with
        | None => x.2
        | Some (files, stamps) =>
            if bool_decide (sn_stamps <$> x.2 = Some stamps) then x.2
            else Some (mk_snapshot fs' files stamps)
        end)
  end.

Definition in_force (directories : list path) (history : list visit) : option snapshot :=
  (foldl (next_in_force directories) (None, None) history).2.

Definition holds_snapshot (s : StaticRecords) (sn : option snapshot) : Prop :=
  match sn with
  | None => sr_records s = ∅ ∧ sr_fingerprint s = []
  | Some sn => sr_records s = load_selected_files (sn_fs sn) (sn_files sn) ∧
      sr_fingerprint s = sn_stamps sn ∧ files_ok (sn_fs sn)
  end.

Record follows (directories : list path) (s : StaticRecords) (x : option Z * option snapshot) : Prop := {
  fo_enabled : sr_enabled s = true;
  fo_directories : sr_directories s = directories;
  fo_checked : sr_last_checked s = x.1;
  fo_snapshot : holds_snapshot s x.2;
}.

Lemma refresh_follows directories s x fs fs' now query :
  follows directories s x → files_ok fs' →
  follows directories (refresh_if_due fs fs' now s) (next_in_force directories x (Asked fs fs' now query)).
Proof.
  destruct x as [last sn]; intros [He Hd Hc Hs] Hfs; cbn in *; unfold refresh_if_due; rewrite Hc.
  assert (negb match last with Some checked => RECHECK_INTERVAL <=? Z.max (now - checked) 0 | None => true end =
    match last with Some last => now <? last + 2 * second | None => false end) as ->.
  { destruct last as [last|]; [|done]; unfold RECHECK_INTERVAL, second.
    destruct (Z.leb_spec (2 * 1000000000) (Z.max (now - last) 0)), (Z.ltb_spec now (last + 2 * 1000000000)); cbn; lia. }
  destruct (match last with Some last => now <? last + 2 * second | None => false end); [by split|].
  change (sr_directories { s with sr_last_checked := Some now }) with (sr_directories s).
  unfold listing; rewrite Hd; destruct (select_files fs directories) as [files| | |]; cbn [mbind outcome_bind];
    [|split; cbn; try done; by destruct sn..].
  destruct (fingerprint fs files) as [stamps| | |] eqn:Hf; cbn [mbind outcome_bind];
    [|split; cbn; try done; by destruct sn..].
  change (sr_fingerprint { s with sr_last_checked := Some now }) with (sr_fingerprint s).
  destruct sn as [sn|]; cbn in Hs |- *.
  - destruct Hs as (Hr & Hst & Hok); rewrite Hst.
    rewrite (bool_decide_ext (stamps = sn_stamps sn) (Some (sn_stamps sn) = Some stamps)) by naive_solver.
    by case_bool_decide; split; cbn.
  - destruct Hs as [Hr Hst]; rewrite Hst, (bool_decide_eq_false_2 (None = _)) by done.
    case_bool_decide as Hnil; split; cbn; try done; split_and!; try done.
    + rewrite Hnil in Hf; apply fingerprint_nil in Hf as ->; exact Hr.
    + rewrite Hnil; exact Hst.
Qed.

Lemma visit_follows directories s x v :
  follows directories s x → visit_ok v → follows directories (after_visit s v) (next_in_force directories x v).
Proof.
  intros Hf Hv; destruct v as [fs fs' now query|]; cbn [after_visit].
  - unfold static_answer; rewrite (fo_enabled _ _ _ Hf); cbn [negb snd]; by apply refresh_follows.
  - destruct Hf; by split.
Qed.

Lemma history_follows directories history :
  Forall visit_ok history →
  follows directories (foldl after_visit (static_records_new true directories) history)
    (foldl (next_in_force directories) (None, None) history).
Proof.
  assert (follows directories (static_records_new true directories) (None, None)) as Hf by done.
  intros Hv; revert Hf; generalize (static_records_new true directories), (@None Z, @None snapshot).
  induction Hv as [|v history Hv _ IH]; intros s x Hf; cbn; [done|]; by apply IH, visit_follows.
Qed.

(** The class and type asked for; a CNAME answers every type. *)
Definition asked_for (t c : Z) (r : StaticRecord) : Prop :=
  (c = 255 ∨ st_class r = c) ∧ (t = 255 ∨ st_rr_type r = t ∨ st_rr_type r = 5).

Lemma static_selected_iff name t c stop r :
  static_selected (mk_question name t c stop) r = true ↔ asked_for t c r.
Proof.
  unfold static_selected, asked_for; cbn [q_class q_rr_type]; unfold CLASS_ANY, TYPE_ANY, TYPE_CNAME.
  rewrite andb_true_iff, !orb_true_iff, !Z.eqb_eq; tauto.
Qed.

Definition snapshot_says (sn : option snapshot) (name : str) (r : StaticRecord) : Prop :=
  match sn with Some sn => files_say (sn_fs sn) (sn_files sn) name r | None => False end.

(** The records in use are those of the files in force. *)
Lemma snapshot_records s sn name :
  holds_snapshot s sn → distinct (sr_records s) ∧
  ∀ r, has_record (sr_records s) (static_name name) r ↔ snapshot_says sn name r.
Proof.
  destruct sn as [sn|]; cbn.
  - intros (-> & _ & Hok); destruct (load_selected_files_spec (sn_fs sn) (sn_files sn)) as [Hd Hr].
    split; [done|]; intros r; by rewrite Hr, configured_iff.
  - intros [-> _]; split; [apply map_Forall_empty|]; intros r; unfold has_record; rewrite lookup_empty; cbn.
    by rewrite elem_of_nil.
Qed.

(** ** Properties *)

(** C33: static records are answered exactly.  After any history of queries and
    reloads, a query is answered from the files in force: those read when the
    directories were last looked at (by the first query, and then by the first
    query after two seconds) and found changed.  The query is left to others when
    no unmasked file among them has a record of its name, without case and final
    dots.  Otherwise the response matches the query and parses, to its end, as
    exactly the records the files describe for that name of the asked class and
    type and CNAMEs, without duplicates, owned by the question's name with TTL 0;
    it is an error exactly when they do not fit in 65535 octets. *)
Theorem static_answer_exact directories history fs fs' now query h labels t c stop :
  answerable query h labels t c stop → Forall visit_ok history → files_ok fs' →
  let s := foldl after_visit (static_records_new true directories) history in
  let r := (static_answer fs fs' now query s).1 in
  let has := snapshot_says (in_force directories (history ++ [Asked fs fs' now query]))
               (name_text (labels_name labels)) in
  (r = Ok None ∧ ∀ record, ¬ has record) ∨
  (∃ record, has record) ∧ ∃ xs : list (StaticRecord * bytes),
    NoDup xs.*1 ∧ Forall (λ x, x.2 = st_rdata x.1) xs ∧
    (∀ record, record ∈ xs.*1 ↔ has record ∧ asked_for t c record) ∧
    if decide (fits stop 0 xs)
    then ∃ p, r = Ok (Some p) ∧ answered query h labels t c stop (static_flags (h_flags h)) 0 xs p
    else r = Err ResponseTooLarge.
Proof.
  intros Ha Hh Hfs s r has; pose proof (history_follows directories history Hh) as Hf; fold s in Hf.
  assert (database_ok (sr_records s)) as Hdb.
  { destruct Hf as [_ _ _ Hs]; destruct (foldl _ _ _).2 as [sn|]; [|destruct Hs as [-> _]; apply map_Forall_empty].
    destruct Hs as (-> & _ & Hok); by apply load_selected_files_ok. }
  destruct (static_answer_spec fs fs' now query h labels t c stop s) as (r' & Hr & _ & Hm);
    [done..|apply Hf|].
  unfold r; rewrite Hr; cbn [fst]; pose proof (refresh_follows _ _ _ fs fs' now query Hf Hfs) as Hf'.
  destruct (snapshot_records _ _ (name_text (labels_name labels)) (fo_snapshot _ _ _ Hf')) as [Hd Hrec].
  assert (∀ x, snapshot_says (next_in_force directories (foldl (next_in_force directories) (None, None) history)
    (Asked fs fs' now query)).2 (name_text (labels_name labels)) x ↔ has x) as Hhas.
  { intros x; unfold has, in_force; by rewrite foldl_snoc. }
  setoid_rewrite Hhas in Hrec; clear Hhas; unfold has_record in Hrec.
  destruct (sr_records (refresh_if_due fs fs' now s) !! _) as [rrset|] eqn:Hl; cycle 1.
  { left; split; [done|]; intros record Hrec'%Hrec; by apply elem_of_nil in Hrec'. }
  right; cbn in Hrec; apply Hd in Hl as [Hnd Hne]; split.
  { destruct rrset as [|x rrset]; [done|]; exists x; apply Hrec; by left. }
  set (q := mk_question (labels_name labels) t c stop) in *.
  exists (static_answers q rrset); unfold static_answers at 1 2 3.
  rewrite <- list_fmap_compose, list_fmap_id; split_and!; [..|exact Hm].
  - by apply NoDup_ListNoDup, List.NoDup_filter, NoDup_ListNoDup.
  - by apply Forall_fmap, Forall_true.
  - intros record; rewrite list_elem_of_In, List.filter_In, <- list_elem_of_In, Hrec.
    by unfold q; rewrite static_selected_iff.
Qed.

Definition example_rr_directory : path := abs_path ["etc"; "systemd"; "resolve"; "static.d"].
Definition example_rr_text : str :=
  to_json (object [(lit "key", object [(lit "name", String (lit "X.y.")); (lit "type", Number 1)]);
                   (lit "address", String (lit "192.0.2.7"))]).
Definition example_rr_fs : rr_filesystem := {|
  rr_directory d := if bool_decide (d = example_rr_directory) then DirEntries [inr (lit "a.rr")]
                    else DirMissing;
  rr_symlink_metadata _ := inr (mk_metadata false true 60 None);
  rr_metadata _ := inr (mk_metadata false true 60 None);
  rr_read_link _ := None;
  rr_file _ := FileText example_rr_text;
|}.
Definition example_rr_files : list SelectedFile :=
  [mk_selected (path_join example_rr_directory (lit "a.rr")) false].
Definition example_static_record : StaticRecord := mk_static 1 1 [192; 0; 2; 7].

(** A query at the start, and one three seconds later. *)
Definition example_history : list visit := [Asked example_rr_fs example_rr_fs 0 example_query].

Lemma static_answer_exact_witness :
  let s := foldl after_visit (static_records_new true [example_rr_directory]) example_history in
  let sn := in_force [example_rr_directory]
    (example_history ++ [Asked example_rr_fs example_rr_fs (3 * second) example_query]) in
  ∃ xs : list (StaticRecord * bytes), (∀ record, record ∈ xs.*1 ↔
      snapshot_says sn (name_text (labels_name [[120]; [121]])) record ∧ asked_for 1 1 record) ∧
    ∃ p, (static_answer example_rr_fs example_rr_fs (3 * second) example_query s).1 = Ok (Some p) ∧
      answered example_query example_header [[120]; [121]] 1 1 21
        (static_flags (h_flags example_header)) 0 xs p.
Proof.
  intros s sn.
  assert (files_ok example_rr_fs) as Hfs by (intros p text [= <-]; by apply str_okb_ok; vm_compute).
  destruct (static_answer_exact [example_rr_directory] example_history example_rr_fs example_rr_fs (3 * second)
    example_query example_header [[120]; [121]] 1 1 21) as [[Hr _]|(_ & xs & _ & _ & Hx & Hr)].
  - exact example_query_answerable.
  - by constructor.
  - exact Hfs.
  - by vm_compute in Hr.
  - exists xs; split; [exact Hx|]; revert Hr; case_decide; [done|].
    intros Hr; by vm_compute in Hr.
Defined.
