(* ===== verification/Networkd.v ===== *)
(** * Link state of networkd

    Models the parsing in [src/networkd.rs]: the state file of a link and what
    it says of DNS.  Reading the directory and the monitor thread are not
    modelled. *)

From S2P Require Import Prelude Stateful Text Net Sorting ConfigTypes Config.

Inductive OperationalState : Type :=
  | OperMissing | OperOff | OperNoCarrier | OperDormant | OperDegradedCarrier | OperCarrier
  | OperDegraded | OperEnslaved | OperRoutable | OperUnknown.

Definition operational_state_parse (value : option str) : OperationalState :=
  match value with
  | None => OperMissing
  | Some value =>
      default OperUnknown (match_str value
        [("off", OperOff); ("no-carrier", OperNoCarrier); ("dormant", OperDormant);
         ("degraded-carrier", OperDegradedCarrier); ("carrier", OperCarrier);
         ("degraded", OperDegraded); ("enslaved", OperEnslaved); ("routable", OperRoutable)])
  end.

Definition oper_resolver_relevant (s : OperationalState) : bool :=
  match s with OperDegradedCarrier | OperDegraded | OperRoutable => true | _ => false end.

Record NetworkdLinkState : Type := mk_networkd {
  n_ifindex : Z;
  n_managed : bool;
  n_operstate : OperationalState;
  n_dns_servers : list SocketAddr;
  n_dns_server_specs : list DnsServerSpec;
  n_domains : list Domain;
  n_default_route : option bool;
  n_llmnr : SupportMode;
  n_multicast_dns : SupportMode;
  n_dns_over_tls : option TlsMode;
  n_dnssec : option ValidationMode;
  n_dnssec_negative_trust_anchors : list str;
}.

Definition resolver_relevant (l : NetworkdLinkState) : bool :=
  negb (n_managed l) || oper_resolver_relevant (n_operstate l).

(** ** The state file *)

(** A value in matching quotes without them. *)
Definition unquote (value : str) : iores str :=
  let quoted q := starts_with value [q] && ends_with value [q] in
  if (2 <=? str_len value) && (quoted 34 || quoted 39) then
    '(_, tail) ← or_panic (split_at_byte 1 value);
    '(inner, _) ← or_panic (split_at_byte (str_len value - 2) tail);
    Ok inner
  else Ok value.

Fixpoint parse_environment_lines (ls : list str) (values : gmap str str) : iores (gmap str str) :=
  match ls with
  | [] => Ok values
  | line :: ls =>
      let line := trim line in
      if bool_decide (line = []) || starts_with line (lit "#")
      then parse_environment_lines ls values
      else
        match split_once 61 line with
        | None => parse_environment_lines ls values
        | Some (key, value) =>
            value ← unquote (trim value);
            parse_environment_lines ls (<[trim key := value]> values)
        end
  end.

Definition parse_environment (text : str) : iores (gmap str str) :=
  parse_environment_lines (lines text) ∅.

Definition networkd_normalize_name (value : str) : iores str :=
  let value := trim value in
  if bool_decide (value = lit ".") || bool_decide (value = lit "~") || bool_decide (value = lit "~.")
  then Ok (lit ".")
  else
    let value := trim_end_matches dot (default value (strip_prefix [tilde] value)) in
    if bool_decide (value = []) || negb (is_ascii value) || (253 <? str_len value)
       || existsb (λ label, bool_decide (label = []) || (63 <? str_len label)) (split_on dot value)
    then Err (IoInvalidData (lit "invalid networkd DNS domain " ++ value))
    else Ok (to_ascii_lowercase value).

Definition invalid_data (e : ConfigError) : IoError := IoInvalidData (config_error_to_string e).

(** The tokens of a value, each normalized, without duplicates. *)
Definition parse_dns_specs (value : str) : iores (list DnsServerSpec) :=
  push_normalized (λ token, map_err invalid_data (parse_server_spec token))
    (split_whitespace value) [].

Definition parse_domains (value : str) (route_only : bool) : iores (list Domain) :=
  push_normalized (λ token, name ← networkd_normalize_name token; Ok (mk_domain name route_only))
    (split_whitespace value) [].

Definition parse_names (value : str) : iores (list str) :=
  push_normalized networkd_normalize_name (split_whitespace value) [].

Definition parse_choice {A} (what : string) (arms : list (string * A)) (value : str) : iores A :=
  ok_or (match_str (to_ascii_lowercase (trim value)) arms) (IoInvalidData (lit what ++ value)).

Definition networkd_parse_bool : str → iores bool :=
  parse_choice "invalid networkd boolean "
    [("yes", true); ("true", true); ("on", true); ("1", true);
     ("no", false); ("false", false); ("off", false); ("0", false)].

Definition parse_support_mode : str → iores SupportMode :=
  parse_choice "invalid networkd resolver support mode "
    [("yes", SupportYes); ("resolve", SupportResolve); ("no", SupportNo)].

Definition parse_tls_mode : str → iores TlsMode :=
  parse_choice "invalid networkd DNS-over-TLS mode "
    [("no", TlsNo); ("opportunistic", Opportunistic); ("yes", TlsYes)].

Definition parse_validation_mode : str → iores ValidationMode :=
  parse_choice "invalid networkd DNSSEC mode "
    [("no", ValidationNo); ("allow-downgrade", AllowDowngrade); ("yes", ValidationYes)].

(** [value.map(parse).transpose()?]. *)
Definition parse_optional {A} (parse : str → iores A) (value : option str) : iores (option A) :=
  match value with
  | None => Ok None
  | Some value => a ← parse value; Ok (Some a)
  end.

Definition parse_link_state (ifindex : Z) (text : str) : iores NetworkdLinkState :=
  values ← parse_environment text;
  let value key := values !! lit key in
  let managed :=
    match value "ADMIN_STATE" with
    | None => false
    | Some s => negb (bool_decide (s = lit "pending") || bool_decide (s = lit "initialized")
                      || bool_decide (s = lit "unmanaged"))
    end in
  let operstate := operational_state_parse (value "OPER_STATE") in
  if negb managed then
    Ok (mk_networkd ifindex false operstate [] [] [] None SupportYes SupportYes None None [])
  else
    specs ← parse_dns_specs (default [] (value "DNS"));
    let servers := foldl push_new [] (address <$> specs) in
    searched ← parse_domains (default [] (value "DOMAINS")) false;
    routed ← parse_domains (default [] (value "ROUTE_DOMAINS")) true;
    default_route ← parse_optional networkd_parse_bool (value "DNS_DEFAULT_ROUTE");
    llmnr ← parse_optional parse_support_mode (value "LLMNR");
    mdns ← parse_optional parse_support_mode (value "MDNS");
    tls ← parse_optional parse_tls_mode (value "DNS_OVER_TLS");
    validation ← parse_optional parse_validation_mode (value "DNSSEC");
    anchors ← parse_names (default [] (value "DNSSEC_NTA"));
    Ok (mk_networkd ifindex true operstate servers specs (foldl push_new searched routed)
          default_route (default SupportYes llmnr) (default SupportYes mdns) tls validation anchors).
