(* ===== verification/Inflight.v ===== *)
(** * Queries in flight

    Threads that ask the same question share one transaction
    ([resolver_prelude.rs]): the first becomes its leader, the others wait for the
    response it leaves.  An [Arc<InflightEntry>] is its number in a heap, so
    that [Arc::ptr_eq] compares numbers. *)

From S2P Require Import Prelude Codec Packet.

Record InflightKey : Type := mk_inflight_key {
  ik_route : Z;
  ik_query : bytes;
}.
#[global] Instance InflightKey_eq_dec : EqDecision InflightKey.
Proof. solve_decision. Defined.
#[global] Instance InflightKey_countable : Countable InflightKey.
Proof.
  refine (inj_countable' (λ k, (ik_route k, ik_query k)) (λ '(r, q), mk_inflight_key r q) _).
  by intros [].
Defined.

Definition inflight_key (route : Z) (query : bytes) : wres InflightKey :=
  query ← rewrite_id query 0;
  Ok (mk_inflight_key route query).

Record InflightState : Type := mk_inflight_state {
  is_running : bool;
  is_response : option bytes;
}.

Record Inflight : Type := mk_inflight {
  if_entries : gmap InflightKey nat;
  if_heap : gmap nat InflightState;
  if_next : nat;
}.

Definition inflight_default : Inflight := mk_inflight ∅ ∅ 0.

Inductive InflightRole : Type :=
  | Leader (entry : nat)
  | Follower (entry : nat).

(** One critical section. *)
Definition begin (key : InflightKey) (f : Inflight) : InflightRole * Inflight :=
  match if_entries f !! key with
  | Some entry => (Follower entry, f)
  | None =>
      let entry := if_next f in
      (Leader entry,
       mk_inflight (<[key := entry]> (if_entries f))
         (<[entry := mk_inflight_state true None]> (if_heap f)) (S entry))
  end.

(** [finish] has two: the state of the entry, then the table. *)
Definition finish_state (entry : nat) (response : option bytes) (f : Inflight) : Inflight :=
  { f with if_heap := <[entry := mk_inflight_state false response]> (if_heap f) }.

Definition finish_table (key : InflightKey) (entry : nat) (f : Inflight) : Inflight :=
  if bool_decide (if_entries f !! key = Some entry)
  then { f with if_entries := delete key (if_entries f) }
  else f.

(** What [wait] sees under the lock: the response, once nothing is running. *)
Definition wait_ready (entry : nat) (f : Inflight) : option (option bytes) :=
  match if_heap f !! entry with
  | Some s => if is_running s then None else Some (is_response s)
  | None => None
  end.
