(* ===== verification/InflightFacts.v ===== *)
(** * Queries in flight: theorems

    Any number of threads take the steps of [query_on_link] on the shared table:
    [begin], then the leader's two critical sections of [finish] or the
    follower's [wait].  The steps of a thread are in order, those of different
    threads in any order. *)

From stdpp Require Import functions relations.
From S2P Require Import Prelude Codec Packet Inflight.

(** ** Threads *)

Inductive phase : Type :=
  | Idle
  | Leading (key : InflightKey) (entry : nat)
  | Removing (key : InflightKey) (entry : nat)
  | Waiting (key : InflightKey) (entry : nat)
  | Got (key : InflightKey) (response : option bytes).

(** The table, the phase of each thread and, for the statements, what leaders
    have left in each entry. *)
Record system : Type := mk_system {
  sy_inflight : Inflight;
  sy_phase : nat → phase;
  sy_finished : gmap nat (InflightKey * option bytes);
}.

Definition started : system := mk_system inflight_default (λ _, Idle) ∅.

Definition role_phase (key : InflightKey) (role : InflightRole) : phase :=
  match role with Leader e => Leading key e | Follower e => Waiting key e end.

Inductive step : system → system → Prop :=
  | step_begin i key f p d role f' :
      p i = Idle → begin key f = (role, f') →
      step (mk_system f p d) (mk_system f' (<[i := role_phase key role]> p) d)
  | step_finish_state i key e response f p d :
      p i = Leading key e →
      step (mk_system f p d)
        (mk_system (finish_state e response f) (<[i := Removing key e]> p)
           (<[e := (key, response)]> d))
  | step_finish_table i key e f p d :
      p i = Removing key e →
      step (mk_system f p d) (mk_system (finish_table key e f) (<[i := Idle]> p) d)
  | step_wait i key e r f p d :
      p i = Waiting key e → wait_ready e f = Some r →
      step (mk_system f p d) (mk_system f (<[i := Got key r]> p) d)
  | step_return i key r f p d :
      p i = Got key r → step (mk_system f p d) (mk_system f (<[i := Idle]> p) d).

(** The thread holds the entry of [key] in the table. *)
Definition holds (p : phase) (key : InflightKey) (e : nat) : Prop :=
  p = Leading key e ∨ p = Removing key e.

(** What a thread's phase says of the table. *)
Definition phase_ok (f : Inflight) (d : gmap nat (InflightKey * option bytes)) (p : phase) : Prop :=
  match p with
  | Idle => True
  | Leading key e => if_entries f !! key = Some e ∧ d !! e = None
  | Removing key e => if_entries f !! key = Some e ∧ ∃ r, d !! e = Some (key, r)
  | Waiting key e => if_entries f !! key = Some e ∨ ∃ r, d !! e = Some (key, r)
  | Got key r => ∃ e, d !! e = Some (key, r)
  end.

Record protocol (s : system) : Prop := {
  pr_phases i : phase_ok (sy_inflight s) (sy_finished s) (sy_phase s i);
  pr_unique i j key e e' :
    holds (sy_phase s i) key e → holds (sy_phase s j) key e' → i = j;
  pr_held key e : if_entries (sy_inflight s) !! key = Some e →
    (e < if_next (sy_inflight s))%nat ∧ ∃ i, holds (sy_phase s i) key e;
  pr_shared key key' e : if_entries (sy_inflight s) !! key = Some e →
    if_entries (sy_inflight s) !! key' = Some e → key = key';
  pr_finished e key r : sy_finished s !! e = Some (key, r) →
    (e < if_next (sy_inflight s))%nat ∧
    if_heap (sy_inflight s) !! e = Some (mk_inflight_state false r) ∧
    (∀ key', if_entries (sy_inflight s) !! key' = Some e → key' = key);
  pr_running e key : if_entries (sy_inflight s) !! key = Some e → sy_finished s !! e = None →
    if_heap (sy_inflight s) !! e = Some (mk_inflight_state true None);
}.

Lemma protocol_started : protocol started.
Proof.
  split; cbn; try done; intros *; rewrite ?lookup_empty; try done.
  by intros [|].
Qed.

Ltac at_thread j i :=
  destruct (decide (j = i)) as [->|]; [rewrite fn_lookup_insert|rewrite fn_lookup_insert_ne by done].

(** A thread that takes a step without touching the table. *)
Lemma protocol_phase f p d i q :
  protocol (mk_system f p d) → phase_ok f d q →
  (∀ key e, ¬ holds (p i) key e) → (∀ key e, ¬ holds q key e) →
  protocol (mk_system f (<[i := q]> p) d).
Proof.
  intros [Hph Hun Hheld Hsh Hfin Hrun] Hq Hp Hq'; cbn in *.
  assert (∀ j key e, holds (<[i := q]> p j) key e ↔ holds (p j) key e) as Hh.
  { intros j key e; at_thread j i; [|done]; split; intros H; exfalso; [by eapply Hq'|by eapply Hp]. }
  split; cbn; try done.
  - intros j; at_thread j i; [done|apply Hph].
  - intros j j' key e e'; rewrite !Hh; apply Hun.
  - intros key e He; setoid_rewrite Hh; by apply Hheld.
Qed.

Lemma begin_protocol f p d i key role f' :
  protocol (mk_system f p d) → p i = Idle → begin key f = (role, f') →
  protocol (mk_system f' (<[i := role_phase key role]> p) d).
Proof.
  intros Hs Hi; unfold begin; destruct (if_entries f !! key) as [e|] eqn:He; intros [= <- <-].
  { apply protocol_phase; [done|by left|rewrite Hi|]; intros ? ? [|]; done. }
  destruct Hs as [Hph Hun Hheld Hsh Hfin Hrun]; cbn in *.
  assert (∀ j e, ¬ holds (p j) key e) as Hno.
  { intros j e Hj; pose proof (Hph j) as Hok.
    destruct Hj as [Hj|Hj]; rewrite Hj in Hok; cbn in Hok; destruct Hok; congruence. }
  assert (d !! if_next f = None) as Hnext.
  { destruct (d !! if_next f) as [[k r]|] eqn:Hd; [|done]; apply Hfin in Hd as [? _]; lia. }
  assert (∀ k e, if_entries f !! k = Some e → k ≠ key ∧ e ≠ if_next f) as Hold.
  { intros k e Hk; split; [congruence|]; apply Hheld in Hk as [? _]; lia. }
  split; cbn.
  - intros j; at_thread j i; [cbn; by rewrite lookup_insert_eq|]; specialize (Hph j).
    destruct (p j); cbn in *; try done.
    1-2: destruct Hph as [Hk ?]; destruct (Hold _ _ Hk); by rewrite lookup_insert_ne by done.
    destruct Hph as [Hk|?]; [left|by right]; destruct (Hold _ _ Hk).
    by rewrite lookup_insert_ne by done.
  - intros j j' k e e'; at_thread j i; at_thread j' i; [done|..|apply Hun]; intros Hj Hj'.
    + destruct Hj as [[= <- <-]|]; [by apply Hno in Hj'|done].
    + destruct Hj' as [[= <- <-]|]; [by apply Hno in Hj|done].
  - intros k e; destruct (decide (k = key)) as [->|].
    + rewrite lookup_insert_eq; intros [= <-]; split; [lia|]; exists i.
      rewrite fn_lookup_insert; by left.
    + rewrite lookup_insert_ne by done; intros Hk; apply Hheld in Hk as [? [j Hj]]; split; [lia|].
      exists j; at_thread j i; [|done]; rewrite Hi in Hj; by destruct Hj.
  - intros k k' e; destruct (decide (k = key)) as [->|], (decide (k' = key)) as [->|];
      rewrite ?lookup_insert_eq, ?lookup_insert_ne by done; [done|..|apply Hsh].
    + intros [= <-] Hk; by apply Hold in Hk as [_ ?].
    + intros Hk [= <-]; by apply Hold in Hk as [_ ?].
  - intros e k r Hd; apply Hfin in Hd as (? & ? & Hk'); split_and!; [lia| |].
    + by rewrite lookup_insert_ne by lia.
    + intros k'; destruct (decide (k' = key)) as [->|]; [|rewrite lookup_insert_ne by done; apply Hk'].
      rewrite lookup_insert_eq; intros [= ?]; lia.
  - intros e k; destruct (decide (k = key)) as [->|].
    + rewrite lookup_insert_eq; intros [= <-] _; by rewrite lookup_insert_eq.
    + rewrite lookup_insert_ne by done; intros Hk ?.
      rewrite lookup_insert_ne by (by apply not_eq_sym, (Hold _ _ Hk)); by apply (Hrun _ k).
Qed.

Lemma finish_state_protocol f p d i key e response :
  protocol (mk_system f p d) → p i = Leading key e →
  protocol (mk_system (finish_state e response f) (<[i := Removing key e]> p)
    (<[e := (key, response)]> d)).
Proof.
  intros [Hph Hun Hheld Hsh Hfin Hrun] Hi; cbn in *.
  pose proof (Hph i) as Hk; rewrite Hi in Hk; destruct Hk as [Hk Hd].
  assert (∀ j k e', holds (<[i := Removing key e]> p j) k e' ↔ holds (p j) k e') as Hh.
  { intros j k e'; at_thread j i; [|done]; rewrite Hi; unfold holds; naive_solver. }
  split; cbn; [|intros j j' k e1 e2; rewrite !Hh; apply Hun
    |intros k e1 Hk1; setoid_rewrite Hh; by apply Hheld|done|..].
  - intros j; at_thread j i; [cbn; rewrite lookup_insert_eq; eauto|]; specialize (Hph j).
    assert (∀ k r, d !! e = Some (k, r) → False) as Hnone by congruence.
    destruct (p j) as [|k e'|k e'|k e'|k r] eqn:Hj; cbn in *; try done.
    + destruct Hph as [Hk' Hd']; split; [done|]; rewrite lookup_insert_ne; [done|]; intros <-.
      assert (k = key) as -> by eauto; cut (j = i); [done|].
      apply (Hun j i key e e); rewrite ?Hj, ?Hi; by left.
    + destruct Hph as [Hk' [r Hd']]; split; [done|]; exists r.
      rewrite lookup_insert_ne; [done|]; intros <-; eauto.
    + destruct Hph as [?|[r Hd']]; [by left|right]; exists r.
      rewrite lookup_insert_ne; [done|]; intros <-; eauto.
    + destruct Hph as [e' Hd']; exists e'; rewrite lookup_insert_ne; [done|]; intros <-; eauto.
  - intros e' k r; destruct (decide (e' = e)) as [->|].
    + rewrite !lookup_insert_eq; intros [= <- <-]; split_and!; [by apply (Hheld key)|done|].
      intros k' Hk'; by apply (Hsh k' key e).
    + rewrite !lookup_insert_ne by done; apply Hfin.
  - intros e' k Hk'; destruct (decide (e' = e)) as [->|]; [by rewrite lookup_insert_eq|].
    rewrite !lookup_insert_ne by done; by apply (Hrun e' k).
Qed.

Lemma finish_table_protocol f p d i key e :
  protocol (mk_system f p d) → p i = Removing key e →
  protocol (mk_system (finish_table key e f) (<[i := Idle]> p) d).
Proof.
  intros [Hph Hun Hheld Hsh Hfin Hrun] Hi; cbn in *.
  pose proof (Hph i) as Hk; rewrite Hi in Hk; destruct Hk as [Hk [r Hd]].
  unfold finish_table; rewrite bool_decide_true by done.
  assert (∀ j k e', holds (<[i := Idle]> p j) k e' → holds (p j) k e' ∧ k ≠ key) as Hh.
  { intros j k e'; at_thread j i; [by intros [|]|]; intros Hj; split; [done|]; intros ->.
    cut (j = i); [done|]; eapply (Hun j i key e' e); [done|]; rewrite Hi; by right. }
  assert (∀ k e', delete key (if_entries f) !! k = Some e' ↔
    k ≠ key ∧ if_entries f !! k = Some e') as Hdel.
  { intros k e'; rewrite lookup_delete_Some; naive_solver. }
  split; cbn.
  - intros j; at_thread j i; [done|]; specialize (Hph j).
    assert (∀ k e', p j = Leading k e' ∨ p j = Removing k e' → k ≠ key) as Hne.
    { intros k e' Hj; apply (Hh j k e'); by rewrite fn_lookup_insert_ne. }
    destruct (p j) as [|k e'|k e'|k e'|k r'] eqn:Hj; cbn in *; try done; rewrite Hdel.
    1-2: destruct Hph; eauto 10.
    destruct Hph as [Hk'|?]; [|by right]; destruct (decide (k = key)) as [->|]; [right|by left].
    simplify_eq; eauto.
  - intros j j' k e1 e2 [Hj _]%Hh [Hj' _]%Hh; by eapply Hun.
  - intros k e' [Hne Hk']%Hdel; apply Hheld in Hk' as [? [j Hj]]; split; [done|]; exists j.
    at_thread j i; [|done]; rewrite Hi in Hj; destruct Hj as [?|[= <- <-]]; done.
  - intros k k' e' [_ ?]%Hdel [_ ?]%Hdel; by eapply Hsh.
  - intros e' k r' Hd'; apply Hfin in Hd' as (? & ? & Hk'); split_and!; [done..|].
    intros k' [_ ?]%Hdel; by apply Hk'.
  - intros e' k [_ ?]%Hdel; by apply (Hrun e' k).
Qed.

(** A follower sees a response only when the leader has left it. *)
Lemma ready_finished s i key e r :
  protocol s → sy_phase s i = Waiting key e → wait_ready e (sy_inflight s) = Some r →
  sy_finished s !! e = Some (key, r).
Proof.
  intros [Hph _ _ _ Hfin Hrun] Hi Hw; specialize (Hph i); rewrite Hi in Hph; cbn in Hph.
  assert (∀ r', sy_finished s !! e = Some (key, r') → r' = r) as Heq.
  { intros r' Hd; apply Hfin in Hd as (_ & Hd & _); unfold wait_ready in Hw.
    rewrite Hd in Hw; by simplify_eq/=. }
  destruct (sy_finished s !! e) as [[k r']|] eqn:Hd.
  - destruct Hph as [Hk|[r0 Hr0]]; [|rewrite Hr0; by rewrite (Heq r0 Hr0)].
    apply Hfin in Hd as Hd'; destruct Hd' as (_ & _ & Hk'); specialize (Hk' _ Hk) as ->.
    by rewrite (Heq r' eq_refl).
  - destruct Hph as [Hk|[? ?]]; [|congruence]; apply (Hrun e key) in Hk; [|done].
    by unfold wait_ready in Hw; rewrite Hk in Hw.
Qed.

Lemma step_protocol s s' : protocol s → step s s' → protocol s'.
Proof.
  intros Hs Hst; destruct Hst as [i key f p d role f' Hi Hb|i key e r f p d Hi|i key e f p d Hi
    |i key e r f p d Hi Hw|i key r f p d Hi].
  - by eapply begin_protocol.
  - by apply finish_state_protocol.
  - by apply finish_table_protocol.
  - apply protocol_phase; [done| |rewrite Hi|]; [|by intros ? ? [|]..].
    exists e; by apply (ready_finished (mk_system f p d) i key e r).
  - apply protocol_phase; [done|done|rewrite Hi|]; by intros ? ? [|].
Qed.

Lemma reachable_protocol s : rtc step started s → protocol s.
Proof.
  intros Hr; pose proof protocol_started as Hs; induction Hr as [|s s1 s2 Hst _ IH]; [done|].
  by apply IH; eapply step_protocol.
Qed.

Lemma waiting_cases s i key e :
  protocol s → sy_phase s i = Waiting key e →
  (∃ j, sy_phase s j = Leading key e) ∨
  ∃ r, sy_finished s !! e = Some (key, r) ∧ wait_ready e (sy_inflight s) = Some r.
Proof.
  intros Hs Hi; pose proof (pr_phases _ Hs i) as Hph; rewrite Hi in Hph; cbn in Hph.
  assert (∀ r, sy_finished s !! e = Some (key, r) → wait_ready e (sy_inflight s) = Some r) as Hr.
  { intros r Hd; apply (pr_finished _ Hs) in Hd as (_ & Hd & _); unfold wait_ready; by rewrite Hd. }
  destruct Hph as [Hk|[r Hd]]; [|right; eauto].
  destruct (pr_held _ Hs _ _ Hk) as [_ [j [Hj|Hj]]]; [by left; exists j|right].
  pose proof (pr_phases _ Hs j) as Hph; rewrite Hj in Hph; destruct Hph as [_ [r Hd]]; eauto.
Qed.

(** A follower leaves its wait only with the response of its entry. *)
Lemma waiting_step s s' i key e :
  protocol s → sy_phase s i = Waiting key e → step s s' →
  sy_phase s' i = Waiting key e ∨ ∃ r, sy_phase s' i = Got key r ∧ sy_finished s !! e = Some (key, r).
Proof.
  intros Hs Hi Hst; destruct Hst as [j k f p d role f' Hj _|j k e' r f p d Hj|j k e' f p d Hj
    |j k e' r f p d Hj Hw|j k r f p d Hj]; cbn in Hi |- *; at_thread i j; try (by left); try congruence.
  rewrite Hj in Hi; injection Hi as -> ->; right; exists r; split; [done|].
  by apply (ready_finished (mk_system f p d) j key e r).
Qed.

(** ** Properties *)

(** C26: one transaction per question.  However the threads interleave, at most
    one of them leads the transaction of a key at a time, from its [begin] until
    it has taken the entry out of the table; what a follower is given is what
    the leader of an entry of the same key left there; and once no thread
    leads, the table is empty. *)
Theorem inflight_single_leader s :
  rtc step started s →
  (∀ i j key e e', holds (sy_phase s i) key e → holds (sy_phase s j) key e' → i = j ∧ e = e') ∧
  (∀ i key r, sy_phase s i = Got key r → ∃ e, sy_finished s !! e = Some (key, r)) ∧
  ((∀ i key e, ¬ holds (sy_phase s i) key e) → if_entries (sy_inflight s) = ∅).
Proof.
  intros Hs%reachable_protocol; split_and!.
  - intros i j key e e' Hi Hj; pose proof (pr_unique _ Hs _ _ _ _ _ Hi Hj) as <-; split; [done|].
    destruct Hi as [Hi|Hi], Hj as [Hj|Hj]; congruence.
  - intros i key r Hi; pose proof (pr_phases _ Hs i) as Hph; by rewrite Hi in Hph.
  - intros Hno; apply map_empty; intros key.
    destruct (if_entries (sy_inflight s) !! key) as [e|] eqn:Hk; [|done].
    apply (pr_held _ Hs) in Hk as [_ [i Hi]]; by apply Hno in Hi.
Qed.

Definition example_ikey : InflightKey := mk_inflight_key 0 [1].

(** Thread 0 leads, thread 1 follows. *)
Lemma example_steps : ∃ s, rtc step started s ∧
  sy_phase s 0%nat = Leading example_ikey 0 ∧ sy_phase s 1%nat = Waiting example_ikey 0.
Proof.
  eexists; split_and!.
  - eapply rtc_l; [by apply (step_begin 0 example_ikey)|].
    eapply rtc_l; [by apply (step_begin 1 example_ikey)|apply rtc_refl].
  - by vm_compute.
  - by vm_compute.
Qed.

Lemma inflight_single_leader_witness : ∃ s, rtc step started s ∧
  sy_phase s 0%nat = Leading example_ikey 0 ∧
  ∀ j e, holds (sy_phase s j) example_ikey e → 0%nat = j ∧ 0%nat = e.
Proof.
  destruct example_steps as (s & Hs & H0 & H1); exists s; split_and!; [done..|].
  intros j e Hj; apply (proj1 (inflight_single_leader s Hs) 0%nat j example_ikey); [by left|done].
Defined.

(** C27: followers are served by their leader.  In every reachable state, whatever
    step any thread takes, a follower that waits for an entry goes on waiting or
    is given exactly the response the leader of that entry has left for its key,
    never anything while the leader is at work.  It can return at once when a
    response was left, and otherwise the leader is at work and the response it
    leaves next (or none, when it fails) is what the follower can then return
    with: no follower waits for an entry that nobody will finish. *)
Theorem inflight_followers_served s i key e :
  rtc step started s → sy_phase s i = Waiting key e →
  (∀ s', step s s' → sy_phase s' i = Waiting key e ∨
     ∃ r, sy_phase s' i = Got key r ∧ sy_finished s !! e = Some (key, r) ∧
       ∀ j, sy_phase s j ≠ Leading key e) ∧
  ((∃ r s', step s s' ∧ sy_phase s' i = Got key r ∧ sy_finished s !! e = Some (key, r)) ∨
   (∃ j, sy_phase s j = Leading key e ∧
      ∀ r, ∃ s1 s2, step s s1 ∧ step s1 s2 ∧ sy_phase s1 j = Removing key e ∧
        sy_finished s1 !! e = Some (key, r) ∧ sy_phase s2 i = Got key r)).
Proof.
  intros Hs%reachable_protocol Hi; split.
  { intros s' Hst; destruct (waiting_step _ _ _ _ _ Hs Hi Hst) as [?|(r & Hr & Hd)]; [by left|right].
    exists r; split_and!; [done..|]; intros j Hj; pose proof (pr_phases _ Hs j) as Hph; rewrite Hj in Hph.
    destruct Hph; congruence. }
  destruct (waiting_cases s i key e Hs Hi) as [[j Hj]|(r & Hd & Hw)]; destruct s as [f p d]; cbn in *.
  - right; exists j; split; [done|]; intros r.
    assert (i ≠ j) by congruence.
    eexists _, _; split_and!; [by apply (step_finish_state j key e r)| | |apply lookup_insert_eq|].
    + apply (step_wait i key e r); [by rewrite fn_lookup_insert_ne|].
      unfold wait_ready; cbn; by rewrite lookup_insert_eq.
    + cbn; by rewrite fn_lookup_insert.
    + cbn; by rewrite fn_lookup_insert.
  - left; exists r; eexists; split_and!; [by apply (step_wait i key e r)| |done].
    cbn; by rewrite fn_lookup_insert.
Qed.

Lemma inflight_followers_served_witness : ∃ s, rtc step started s ∧
  sy_phase s 0%nat = Leading example_ikey 0 ∧
  ∀ s', step s s' → sy_phase s' 1%nat = Waiting example_ikey 0.
Proof.
  destruct example_steps as (s & Hs & H0 & H1); exists s; split_and!; [done..|]; intros s' Hst.
  destruct (proj1 (inflight_followers_served s 1 example_ikey 0 Hs H1) s' Hst) as [?|(r & _ & _ & Hn)];
    [done|by destruct (Hn 0%nat)].
Defined.
