(* ===== verification/World.v ===== *)
(** * The resolver's state and its surroundings

    Models [src/resolver_prelude.rs] (budget, server keys and states, the
    resolver's fields) and the errors of [src/resolver_support.rs], and sets up
    the monad the resolver's methods run in.

    The [Resolver] is shared between threads, each field behind a lock of its
    own.  A method is run by one thread; [World] is the shared state, the
    thread's local state and a count of the events so far.  Every critical
    section is one event, as is every reading of the clock and every call of
    the operating system; what they yield is given by an environment [Env] as a
    function of the event, and before every critical section the environment
    may change the shared state ([others]), as other threads do.  So a theorem
    for every environment holds under every interleaving. *)

From S2P Require Import Prelude Stateful Text Net Sorting ConfigTypes Config Codec Packet.
From S2P Require Import CacheX Cache Routing Edns Transport Float Policy Hosts Json StaticRecords.
From S2P Require Import Networkd Inflight.

(** ** Errors *)

Inductive ResolveError : Type :=
  | RIo (error : IoError)
  | RWire (error : WireError)
  | RLink (error : LinkError)
  | RNoNameServers
  | RNoSuchResourceRecord
  | RDnsError (rcode : Z) (query : str)
  | RDnssecValidationFailed (result : str) (code : option Z) (message : option str)
  | RNoTrustAnchor
  | RQueryAborted
  | RQueryRefused
  | RResourceRecordTypeObsolete
  | RInconsistentServiceRecords
  | RStubLoop
  | RUnsupportedFamily (family : Z)
  | RProtocol (message : str).

Abbreviation rres := (outcome ResolveError).

Definition is_timeout (e : ResolveError) : bool :=
  match e with RIo (IoTimedOut _) | RIo IoWouldBlock => true | _ => false end.

Definition varlink_id (e : ResolveError) : str :=
  lit match e with
      | RNoNameServers => "io.systemd.Resolve.NoNameServers"
      | RNoSuchResourceRecord => "io.systemd.Resolve.NoSuchResourceRecord"
      | RDnsError _ _ => "io.systemd.Resolve.DNSError"
      | RDnssecValidationFailed _ _ _ => "io.systemd.Resolve.DNSSECValidationFailed"
      | RNoTrustAnchor => "io.systemd.Resolve.NoTrustAnchor"
      | RQueryAborted => "io.systemd.Resolve.QueryAborted"
      | RQueryRefused => "io.systemd.Resolve.QueryRefused"
      | RResourceRecordTypeObsolete => "io.systemd.Resolve.ResourceRecordTypeObsolete"
      | RInconsistentServiceRecords => "io.systemd.Resolve.InconsistentServiceRecords"
      | RStubLoop => "io.systemd.Resolve.StubLoop"
      | RUnsupportedFamily _ => "io.systemd.Resolve.BadAddressSize"
      | RLink (NoSuchLink _) => "io.systemd.Resolve.NoSuchLink"
      | RLink _ => "io.systemd.Resolve.InvalidParameter"
      | RWire CnameLoop => "io.systemd.Resolve.CNAMELoop"
      | RIo (IoTimedOut _) | RIo IoWouldBlock => "io.systemd.Resolve.QueryTimedOut"
      | _ => "io.systemd.Resolve.MaxAttemptsReached"
      end.

(** ** Servers *)

Definition UDP_POOL_PER_SERVER_MAX : Z := 8.
Definition TCP_POOL_PER_SERVER_MAX : Z := 4.
Definition TLS_POOL_PER_SERVER_MAX : Z := 4.
Definition DNS_TRANSACTION_ATTEMPTS_MAX : Z := 24.
Definition DNS_QUERY_TIMEOUT : Z := 120 * second.
Definition DNS_TRANSACTION_UDP_TIMEOUT : Z := 5 * second.
Definition DNS_TRANSACTION_TCP_TIMEOUT : Z := 10 * second.

Inductive QueryMode : Type := ModeFull | ModeProxy.

Record ServerKey : Type := mk_server_key {
  sk_scope : Z;
  sk_server : SocketAddr;
  sk_slot : Z;
}.
#[global] Instance ServerKey_eq_dec : EqDecision ServerKey.
Proof. solve_decision. Defined.
#[global] Instance ServerKey_countable : Countable ServerKey.
Proof.
  refine (inj_countable' (λ k, (sk_scope k, sk_server k, sk_slot k))
    (λ '(a, b, c), mk_server_key a b c) _); by intros [].
Defined.

Definition key_with_slot (scope : ScopeKind) (server : SocketAddr) (slot : Z) : ServerKey :=
  mk_server_key
    (match scope with ScopeGlobal => 0 | ScopeFallback => -1 | ScopeLink ifindex => ifindex end)
    server slot.

Definition key_new (scope : ScopeKind) (server : SocketAddr) : ServerKey :=
  key_with_slot scope server 0.

Definition scope_kind (k : ServerKey) : ScopeKind :=
  if 0 <? sk_scope k then ScopeLink (sk_scope k)
  else if sk_scope k <? 0 then ScopeFallback else ScopeGlobal.

Definition key_ifindex (k : ServerKey) : option Z :=
  if 0 <? sk_scope k then Some (sk_scope k) else None.

Record TlsPoolKey : Type := mk_pool_key {
  tp_server : ServerKey;
  tp_strict : bool;
}.
#[global] Instance TlsPoolKey_eq_dec : EqDecision TlsPoolKey.
Proof. solve_decision. Defined.
#[global] Instance TlsPoolKey_countable : Countable TlsPoolKey.
Proof.
  refine (inj_countable' (λ k, (tp_server k, tp_strict k)) (λ '(a, b), mk_pool_key a b) _).
  by intros [].
Defined.

Record ServerState : Type := mk_server_state {
  ss_metric : ServerMetric;
  ss_cooldown_until : option Z;
  ss_features : ServerFeatureState;
  ss_tls : TlsCapability;
  ss_transport : ServerTransportState;
  ss_missing_root_rrsig : bool;
  ss_packet_do_off : bool;
  ss_packet_invalid : bool;
}.

Definition server_state_default : ServerState :=
  mk_server_state metric_default None features_default tls_default transport_default
    false false false.

Record Counters : Type := mk_counters {
  ct_current_transactions : Z;
  ct_transactions : Z;
  ct_timeouts : Z;
  ct_timeouts_served_stale : Z;
  ct_failures_served_stale : Z;
  ct_cache_hits : Z;
  ct_cache_misses : Z;
  ct_failures : Z;
  ct_local_answers : Z;
}.

Record DnsAttemptBudget : Type := mk_budget {
  b_attempts : Z;
  b_deadline : Z;
}.

(** ** The shared state *)

Record Shared : Type := mk_shared {
  sh_states : gmap ServerKey ServerState;
  sh_udp_sockets : gmap ServerKey (list Z);
  sh_tcp_streams : gmap ServerKey (list Z);
  sh_tls_streams : gmap TlsPoolKey (list Z);
  sh_routing : RoutingTable;
  sh_networkd_links : gmap Z NetworkdLinkState;
  sh_link_server_specs : gmap Z (list DnsServerSpec);
  sh_routing_generation : Z;
  sh_cache : Cache;
  sh_hosts : Hosts;
  sh_static : StaticRecords;
  sh_inflight : Inflight;
  sh_next_id : Z;
  sh_counters : Counters;
}.

(** The fields that do not change: [config], [global_servers] and
    [fallback_servers]. *)
Record Resolver : Type := mk_resolver {
  rs_config : Config;
  rs_global_servers : list SocketAddr;
  rs_fallback_servers : list SocketAddr;
}.

(** ** The environment *)

(** The result of a call of the operating system. *)
Abbreviation io A := (IoError + A)%type.

(** What event [n] yields: the clock, the changes other threads made since the
    event before, and the operating system.  A socket or stream is its
    descriptor.  [os_tcp_read] and [os_tls_read] are given the number of octets
    asked for, [os_tls_write] returns the number written, [os_read_file] the text
    of a file, [os_metadata] its device and inode, [None] when there is none.  [while_blocked] is
    what other threads did while this one waited for an entry of [Inflight],
    [arrival] the order in which the threads of a scope send their results. *)
Record Env : Type := mk_env {
  env_now : nat → Z;
  others : nat → Shared → Shared;
  os_if_index : nat → str → io Z;
  os_udp_connect : nat → SocketAddr → option Z → io Z;
  os_udp_path_mtu : nat → Z → io Z;
  os_set_timeout : nat → Z → Z → io unit;
  os_udp_send : nat → Z → bytes → io Z;
  os_udp_recv : nat → Z → io (bytes * Z);
  os_tcp_connect : nat → SocketAddr → option Z → Z → io Z;
  os_tcp_write : nat → Z → bytes → io unit;
  os_tcp_read : nat → Z → Z → io bytes;
  os_tls_connect : nat → SocketAddr → option Z → option str → bool → Z → io Z;
  os_tls_set_timeout : nat → Z → Z → io unit;
  os_tls_write : nat → Z → bytes → io Z;
  os_tls_read : nat → Z → Z → io bytes;
  os_read_file : nat → str → io (option str);
  os_metadata : nat → str → io (option (Z * Z));
  os_static_files : nat → rr_filesystem;
  while_blocked : nat → nat → Shared → Shared;
  arrival : nat → nat → list nat;
}.

(** What a thread sent, and where. *)
Inductive sent : Type :=
  | SentUdp (server : ServerKey) (packet : bytes)
  | SentTcp (server : ServerKey) (packet : bytes)
  | SentTls (server : ServerKey) (strict : bool) (packet : bytes).

Record World : Type := mk_world {
  w_shared : Shared;
  w_events : nat;
  w_budget : DnsAttemptBudget;
  w_sent : list sent;
}.

Abbreviation rst := (st World ResolveError).

Definition wire {A} (r : wres A) : rst A := lift (map_err RWire r).

(** [let _ = ...] and [.ok()]: an error is dropped. *)
Definition try_io {A} (m : rst A) : rst (option A) :=
  r ← attempt m;
  mret (to_option r).

Section events.
Context (env : Env).

(** An event of the environment. *)
Definition next_event {A} (f : nat → A) : rst A := λ w,
  (Ok (f (w_events w)), { w with w_events := S (w_events w) }).

Definition now : rst Z := next_event (env_now env).

Definition os {A} (f : nat → io A) : rst A :=
  r ← next_event f;
  match r with inl e => fail (RIo e) | inr a => mret a end.

(** A critical section. *)
Definition atomically {A} (f : st Shared ResolveError A) : rst A := λ w,
  let '(r, sh) := f (others env (w_events w) (w_shared w)) in
  (r, { w with w_shared := sh; w_events := S (w_events w) }).

Definition reading {A} (f : Shared → A) : rst A := atomically (λ sh, (Ok (f sh), sh)).
Definition updating (f : Shared → Shared) : rst unit := atomically (λ sh, (Ok (), f sh)).

(** [fetch_add] on a counter. *)
Definition count (f : Counters → Counters) : rst unit :=
  updating (λ sh, { sh with sh_counters := f (sh_counters sh) }).

Definition log_sent (e : sent) : rst unit :=
  modify (λ w, { w with w_sent := w_sent w ++ [e] }).

(** *** The attempt budget *)

(** [DnsAttemptBudget::new]; the budget is a local of [query_servers]. *)
Definition budget_new : rst unit :=
  t ← now;
  modify (λ w, { w with w_budget :=
    mk_budget 0 (default t (instant_checked_add t DNS_QUERY_TIMEOUT)) }).

Definition budget_remaining : rst Z :=
  t ← now;
  w ← get;
  let d := b_deadline (w_budget w) - t in
  if 0 <? d then mret d else fail (RIo (IoTimedOut (lit "DNS query timed out"))).

Definition exhausted (b : DnsAttemptBudget) : bool :=
  DNS_TRANSACTION_ATTEMPTS_MAX <=? b_attempts b.

Definition budget_exhausted : rst bool := w ← get; mret (exhausted (w_budget w)).

Definition budget_expired : rst bool :=
  t ← now;
  w ← get;
  mret (b_deadline (w_budget w) <=? t).

Definition begin_attempt : rst Z :=
  e ← budget_exhausted;
  if e : bool then fail (RProtocol (lit "maximum DNS transaction attempts reached"))
  else
    remaining ← budget_remaining;
    _ ← modify (λ w, { w with w_budget :=
      mk_budget (b_attempts (w_budget w) + 1) (b_deadline (w_budget w)) });
    mret remaining.

(** *** Server states *)

(** [states.entry(server).or_default()], changed by [f]. *)
Definition server_state (sh : Shared) (server : ServerKey) : ServerState :=
  default server_state_default (sh_states sh !! server).

Definition with_state (server : ServerKey) (s : ServerState) (sh : Shared) : Shared :=
  { sh with sh_states := <[server := s]> (sh_states sh) }.

Definition on_state {A} (server : ServerKey) (f : ServerState → A * ServerState) : rst A :=
  atomically (λ sh,
    let '(a, s) := f (server_state sh server) in (Ok a, with_state server s sh)).

Definition update_state (server : ServerKey) (f : ServerState → ServerState) : rst unit :=
  on_state server (λ s, ((), f s)).
End events.
