(* ===== verification/WorldFacts.v ===== *)
(** * The resolver's monad: theorems

    A program logic for methods of the resolver.  [hoare I P k m Q] says
    that [m], run from a shared state that satisfies [I], under any interference
    that keeps [I], neither panics nor loops, keeps [I] and the attempt budget,
    sends at most [k] packets, each of which satisfies [P], and returns values
    that satisfy [Q]. *)

From S2P Require Import Prelude Stateful Text Net ConfigTypes Config Codec CacheX Cache Routing Hosts.
From S2P Require Import StaticRecords Inflight World.

Section hoare.
Context (env : Env) (I : Shared → Prop) (P : sent → Prop).

Definition step_ok (k : Z) (w w' : World) : Prop :=
  I (w_shared w') ∧ w_budget w' = w_budget w ∧
  ∃ l, w_sent w' = w_sent w ++ l ∧ Forall P l ∧ len l ≤ k.

Definition hoare {A} (k : Z) (m : rst A) (Q : A → Prop) : Prop :=
  ∀ w, I (w_shared w) → swp m w (λ a w', step_ok k w w' ∧ Q a) (λ _ w', step_ok k w w').

Lemma step_ok_refl w : I (w_shared w) → step_ok 0 w w.
Proof. intros H; split_and!; [done..|]; exists []; by rewrite app_nil_r. Qed.

Lemma step_ok_trans k k' w1 w2 w3 :
  step_ok k w1 w2 → step_ok k' w2 w3 → step_ok (k + k') w1 w3.
Proof.
  intros (_ & Hb & l & Hl & Hp & Hk) (HI & Hb' & l' & Hl' & Hp' & Hk'); split_and!; [done|congruence|].
  exists (l ++ l'); rewrite Hl', Hl, app_assoc, len_app; split_and!; [done|by apply Forall_app|lia].
Qed.

Lemma step_ok_mono k k' w w' : step_ok k w w' → k ≤ k' → step_ok k' w w'.
Proof.
  intros (HI & Hb & l & Hl & Hp & Hk) Hle; split_and!; [done..|]; exists l; split_and!; [done..|lia].
Qed.

Lemma hoare_mono {A} k k' (m : rst A) (Q Q' : A → Prop) :
  hoare k m Q → k ≤ k' → (∀ a, Q a → Q' a) → hoare k' m Q'.
Proof.
  intros Hm Hk HQ w Hw; eapply swp_mono; [by apply Hm| |].
  - intros a w' [Hs Ha]; split; [exact (step_ok_mono _ _ _ _ Hs Hk)|auto].
  - intros e w' Hs; exact (step_ok_mono _ _ _ _ Hs Hk).
Qed.

Lemma hoare_bind {A B} k k' (m : rst A) (f : A → rst B) Q Q' :
  hoare k m Q → (∀ a, Q a → hoare k' (f a) Q') → 0 ≤ k' → hoare (k + k') (m ≫= f) Q'.
Proof.
  intros Hm Hf Hk w Hw; apply swp_bind; eapply swp_mono; [by apply Hm| |].
  - intros a w' [Hs Ha]; eapply swp_mono; [apply Hf; [done|apply Hs]| |].
    + intros b w'' [Hs' Hb]; split; [exact (step_ok_trans _ _ _ _ _ Hs Hs')|done].
    + intros e w'' Hs'; exact (step_ok_trans _ _ _ _ _ Hs Hs').
  - intros e w' Hs; apply (step_ok_mono _ _ _ _ Hs); lia.
Qed.

Lemma hoare_then {A B} k (m : rst A) (f : A → rst B) Q Q' :
  hoare k m Q → (∀ a, Q a → hoare 0 (f a) Q') → hoare k (m ≫= f) Q'.
Proof. intros Hm Hf; replace k with (k + 0) by lia; eapply hoare_bind; [exact Hm|exact Hf|lia]. Qed.

Lemma hoare_after {A B} k (m : rst A) (f : A → rst B) Q Q' :
  hoare 0 m Q → (∀ a, Q a → hoare k (f a) Q') → 0 ≤ k → hoare k (m ≫= f) Q'.
Proof. intros Hm Hf Hk; change k with (0 + k); by eapply hoare_bind. Qed.

Lemma hoare_ret {A} (a : A) (Q : A → Prop) : Q a → hoare 0 (mret a) Q.
Proof. intros Ha w Hw; apply swp_ret; split; [by apply step_ok_refl|done]. Qed.

Lemma hoare_fail {A} (e : ResolveError) (Q : A → Prop) : hoare 0 (fail e) Q.
Proof. intros w Hw; apply swp_fail; by apply step_ok_refl. Qed.

Lemma hoare_lift {A} (r : rres A) Q : wp r Q → hoare 0 (lift r) Q.
Proof.
  intros Hr w Hw; apply swp_lift; [|intros; by apply step_ok_refl].
  eapply wp_mono; [done|]; intros a Ha; split; [by apply step_ok_refl|done].
Qed.

Lemma hoare_wire {A} (r : wres A) Q : wp r Q → hoare 0 (wire r) Q.
Proof. intros Hr; apply hoare_lift; by destruct r. Qed.

Lemma hoare_attempt {A} k (m : rst A) Q :
  hoare k m Q → hoare k (attempt m) (λ r, match r with Ok a => Q a | Err _ => True | _ => False end).
Proof.
  intros Hm w Hw; apply swp_attempt; eapply swp_mono; [by apply Hm| |]; cbn; [tauto|].
  intros e w' Hs; by split.
Qed.

Lemma hoare_try_io {A} k (m : rst A) Q :
  hoare k m Q → 0 ≤ k → hoare k (try_io m) (λ r, match r with Some a => Q a | None => True end).
Proof.
  intros Hm Hk; eapply hoare_then; [by apply hoare_attempt|].
  intros [a| | |] H; cbn in H; try done; by apply hoare_ret.
Qed.

Lemma hoare_next_event {A} (f : nat → A) : hoare 0 (next_event f) (λ a, ∃ n, f n = a).
Proof.
  intros w Hw; unfold swp, next_event; split; [|by eexists].
  split_and!; [done..|]; exists []; by rewrite app_nil_r.
Qed.

Lemma hoare_clock : hoare 0 (now env) (λ t, ∃ n, env_now env n = t).
Proof. eapply hoare_mono; [apply hoare_next_event|lia|done]. Qed.

Lemma hoare_now : hoare 0 (now env) (λ _, True).
Proof. eapply hoare_mono; [apply hoare_next_event|lia|done]. Qed.

Lemma hoare_os {A} (f : nat → io A) : hoare 0 (os f) (λ a, ∃ n, f n = inr a).
Proof.
  eapply hoare_then; [apply hoare_next_event|].
  intros [e|a] [n Hn]; [apply hoare_fail|apply hoare_ret; by exists n].
Qed.

Lemma hoare_log_sent e : P e → hoare 1 (log_sent e) (λ _, True).
Proof.
  intros He w Hw; unfold swp, log_sent; cbn; split; [|done].
  split_and!; [done..|]; exists [e]; split_and!; [done|by apply Forall_singleton|done].
Qed.

Hypothesis Hothers : ∀ n sh, I sh → I (others env n sh).

Lemma hoare_atomically {A} (f : st Shared ResolveError A) (Q : A → Prop) :
  (∀ sh, I sh → swp f sh (λ a sh', I sh' ∧ Q a) (λ _ sh', I sh')) → hoare 0 (atomically env f) Q.
Proof.
  intros Hf w Hw; specialize (Hf _ (Hothers (w_events w) _ Hw)); unfold swp, atomically in *.
  destruct (f _) as [[a|e| |] sh']; try done.
  - destruct Hf as [HI HQ]; split; [|done]; split_and!; [done..|]; exists []; by rewrite app_nil_r.
  - split_and!; [done..|]; exists []; by rewrite app_nil_r.
Qed.

Lemma hoare_reading {A} (f : Shared → A) (Q : A → Prop) :
  (∀ sh, I sh → Q (f sh)) → hoare 0 (reading env f) Q.
Proof. intros HQ; apply hoare_atomically; intros sh Hsh; split; [done|by apply HQ]. Qed.

Lemma hoare_updating (f : Shared → Shared) :
  (∀ sh, I sh → I (f sh)) → hoare 0 (updating env f) (λ _, True).
Proof. intros Hf; apply hoare_atomically; intros sh Hsh; split; [by apply Hf|done]. Qed.

Lemma hoare_on_state {A} server (f : ServerState → A * ServerState) (Q : A → Prop) :
  (∀ sh, I sh → let '(a, s) := f (server_state sh server) in I (with_state server s sh) ∧ Q a) →
  hoare 0 (on_state env server f) Q.
Proof.
  intros Hf; apply hoare_atomically; intros sh Hsh; specialize (Hf sh Hsh); unfold swp.
  by destruct (f (server_state sh server)) as [a s].
Qed.

Lemma hoare_update_state server (f : ServerState → ServerState) :
  (∀ sh, I sh → I (with_state server (f (server_state sh server)) sh)) →
  hoare 0 (update_state env server f) (λ _, True).
Proof. intros Hf; apply hoare_on_state; intros sh Hsh; split; [by apply Hf|done]. Qed.

Lemma hoare_budget_remaining : hoare 0 (budget_remaining env) (λ d, 0 < d).
Proof.
  eapply hoare_then; [apply hoare_now|]; intros t _ w Hw; unfold swp, get, mbind, st_bind; cbn.
  destruct (0 <? b_deadline (w_budget w) - t) eqn:Hd; cbn.
  - split; [by apply step_ok_refl|by boolp].
  - by apply step_ok_refl.
Qed.
End hoare.

Arguments hoare : simpl never.

(** A method that returns without a promise. *)
Abbreviation quiet I P m := (hoare I P 0 m (λ _, True)).

Lemma quiet_bind {A B} I P (m : rst A) (f : A → rst B) :
  quiet I P m → (∀ a, quiet I P (f a)) → quiet I P (m ≫= f).
Proof. intros Hm Hf; eapply hoare_then; [exact Hm|intros; apply Hf]. Qed.

Lemma quiet_weaken {A} I P (m : rst A) Q : hoare I P 0 m Q → quiet I P m.
Proof. intros Hm; by eapply hoare_mono. Qed.

(** ** Attempts

    A method that takes attempts of the budget: each buys at most three
    packets. *)

Definition PACKETS_PER_ATTEMPT : Z := 3.

Section costs.
Context (env : Env) (I : Shared → Prop) (P : sent → Prop).

Definition attempts (w : World) : Z := b_attempts (w_budget w).

Definition spent (w w' : World) : Prop :=
  I (w_shared w') ∧ b_deadline (w_budget w') = b_deadline (w_budget w) ∧
  attempts w ≤ attempts w' ≤ Z.max (attempts w) DNS_TRANSACTION_ATTEMPTS_MAX ∧
  ∃ l, w_sent w' = w_sent w ++ l ∧ Forall P l ∧
    len l ≤ PACKETS_PER_ATTEMPT * (attempts w' - attempts w).

(** [m] takes at least [n] attempts when it returns. *)
Definition costs {A} (n : Z) (m : rst A) (Q : A → Prop) : Prop :=
  ∀ w, I (w_shared w) →
    swp m w (λ a w', spent w w' ∧ attempts w + n ≤ attempts w' ∧ Q a) (λ _ w', spent w w').

Lemma spent_trans w1 w2 w3 : spent w1 w2 → spent w2 w3 → spent w1 w3.
Proof.
  intros (_ & Hd & Ha & l & Hl & Hp & Hk) (HI & Hd' & Ha' & l' & Hl' & Hp' & Hk').
  unfold spent, PACKETS_PER_ATTEMPT in *; split_and!; [done|congruence|lia|lia|].
  exists (l ++ l'); rewrite Hl', Hl, app_assoc, len_app; split_and!; [done|by apply Forall_app|lia].
Qed.

Lemma step_spent w w' : step_ok I P 0 w w' → spent w w'.
Proof.
  intros (HI & Hb & l & Hl & Hp & Hk); unfold spent, attempts; rewrite Hb.
  split_and!; [done|done|lia|lia|]; exists l; split_and!; [done..|lia].
Qed.

Lemma costs_hoare {A} (m : rst A) Q : hoare I P 0 m Q → costs 0 m Q.
Proof.
  intros Hm w Hw; eapply swp_mono; [by apply Hm| |].
  - intros a w' [Hs Ha]; split_and!; [by apply step_spent| |done].
    destruct Hs as (_ & Hb & _); unfold attempts; rewrite Hb; lia.
  - intros e w' Hs; by apply step_spent.
Qed.

Lemma costs_mono {A} n n' (m : rst A) (Q Q' : A → Prop) :
  costs n m Q → n' ≤ n → (∀ a, Q a → Q' a) → costs n' m Q'.
Proof.
  intros Hm Hn HQ w Hw; eapply swp_mono; [by apply Hm| |done].
  intros a w' (Hs & Ha & H); split_and!; [done|lia|auto].
Qed.

Lemma costs_bind {A B} n n' (m : rst A) (f : A → rst B) Q Q' :
  costs n m Q → (∀ a, Q a → costs n' (f a) Q') → costs (n + n') (m ≫= f) Q'.
Proof.
  intros Hm Hf w Hw; apply swp_bind; eapply swp_mono; [by apply Hm| |done].
  intros a w' (Hs & Hn & Ha); eapply swp_mono; [apply Hf; [done|apply Hs]| |].
  - intros b w'' (Hs' & Hn' & Hb); split_and!; [by eapply spent_trans|lia|done].
  - intros e w'' Hs'; by eapply spent_trans.
Qed.

Lemma costs_after {A B} n (m : rst A) (f : A → rst B) Q Q' :
  hoare I P 0 m Q → (∀ a, Q a → costs n (f a) Q') → costs n (m ≫= f) Q'.
Proof. intros Hm Hf; change n with (0 + n); eapply costs_bind; [by apply costs_hoare|done]. Qed.

Lemma costs_attempt {A} (m : rst A) Q :
  costs 0 m Q →
  costs 0 (attempt m) (λ r, match r with Ok a => Q a | Err _ => True | _ => False end).
Proof.
  intros Hm w Hw; apply swp_attempt; eapply swp_mono; [by apply Hm| |]; cbn; [tauto|].
  intros e w' Hs; split_and!; [done| |done]; destruct Hs as (_ & _ & Ha & _); lia.
Qed.

Lemma begin_attempt_spec w :
  I (w_shared w) →
  swp (begin_attempt env) w
    (λ d w', I (w_shared w') ∧ 0 < d ∧ w_sent w' = w_sent w ∧
       attempts w < DNS_TRANSACTION_ATTEMPTS_MAX ∧
       w_budget w' = mk_budget (attempts w + 1) (b_deadline (w_budget w)))
    (λ _ w', spent w w').
Proof.
  intros Hw; unfold begin_attempt, budget_exhausted, swp, mbind, st_bind, get, mret, st_ret; cbn.
  destruct (exhausted (w_budget w)) eqn:He; unfold exhausted in He; boolp.
  { by apply step_spent, step_ok_refl. }
  pose proof (hoare_budget_remaining env I P w Hw) as Hb; revert Hb; unfold swp.
  destruct (budget_remaining env w) as [[d|e| |] w1]; cbn; try done; [|by apply step_spent].
  intros [(HI & Hb & l & Hl & _ & Hk) Hd]; destruct l as [|e l]; [|rewrite len_cons in Hk; pose proof (len_nonneg l); lia].
  rewrite app_nil_r in Hl.
  rewrite Hb; split_and!; done.
Qed.

(** An attempt that sends no more than it may. *)
Lemma costs_begin {A} (f : Z → rst A) Q :
  (∀ remaining, 0 < remaining → hoare I P PACKETS_PER_ATTEMPT (f remaining) Q) →
  costs 1 (begin_attempt env ≫= f) Q.
Proof.
  intros Hf w Hw; apply swp_bind; eapply swp_mono; [by apply begin_attempt_spec| |done].
  intros d w1 (HI & Hd & Hl & Hmax & Hb).
  assert (∀ w2, step_ok I P PACKETS_PER_ATTEMPT w1 w2 →
            spent w w2 ∧ attempts w2 = attempts w + 1) as Hsp.
  { intros w2 (HI' & Hb' & l & Hl' & Hp & Hk); unfold spent, attempts in *; rewrite Hb', Hb; cbn.
    split; [|done]; split_and!; [done|done|lia|lia|]; exists l; rewrite Hl', Hl.
    split_and!; [done..|unfold PACKETS_PER_ATTEMPT in *; lia]. }
  eapply swp_mono; [by apply Hf|intros a w2 [Hs Ha]|intros e w2 Hs; by apply Hsp].
  destruct (Hsp w2 Hs) as [? ->]; auto with lia.
Qed.
End costs.

(** ** An environment to compute with

    Each event takes ten milliseconds.  Every UDP packet is answered by [reply];
    other transports are not available. *)

Definition unavailable {A} : io A := inl (IoOs 5).

Definition no_static_files : rr_filesystem :=
  mk_rr_fs (λ _, DirMissing) (λ _, inl []) (λ _, inl []) (λ _, None) (λ _, FileMissing).

(** The leader of an entry gives up. *)
Definition abandon (entry : nat) (f : Inflight) : Inflight :=
  { f with if_entries := filter (λ ke, ke.2 ≠ entry) (if_entries f);
           if_heap := <[entry := mk_inflight_state false None]> (if_heap f) }.

Definition example_env (others : nat → Shared → Shared) (reply : bytes) : Env := {|
  env_now n := Z.min (Z.of_nat n * 10000000) 20000000000000000;
  World.others := others;
  os_if_index _ _ := unavailable;
  os_udp_connect _ _ _ := inr 3;
  os_udp_path_mtu _ _ := unavailable;
  os_set_timeout _ _ _ := inr ();
  os_udp_send _ _ p := inr (len p);
  os_udp_recv n _ := if Z.of_nat n <? 1000000000 then inr (reply, 0) else unavailable;
  os_tcp_connect _ _ _ _ := unavailable;
  os_tcp_write _ _ _ := unavailable;
  os_tcp_read _ _ _ := unavailable;
  os_tls_connect _ _ _ _ _ _ := unavailable;
  os_tls_set_timeout _ _ _ := unavailable;
  os_tls_write _ _ _ := unavailable;
  os_tls_read _ _ _ := unavailable;
  os_read_file _ _ := inr None;
  os_metadata _ _ := inr None;
  os_static_files _ := no_static_files;
  while_blocked _ e sh := { sh with sh_inflight := abandon e (sh_inflight sh) };
  arrival _ n := seq 0 n;
|}.

Definition example_shared : Shared := {|
  sh_states := ∅; sh_udp_sockets := ∅; sh_tcp_streams := ∅; sh_tls_streams := ∅;
  sh_routing := table_default; sh_networkd_links := ∅; sh_link_server_specs := ∅;
  sh_routing_generation := 0;
  sh_cache := mk_dns_cache (mk_cache (replicate 16 (mk_shard ∅ 0)) 15 1 0 1 0 0 0) 16 60 true;
  sh_hosts := hosts_default; sh_static := static_records_system true;
  sh_inflight := inflight_default; sh_next_id := 0;
  sh_counters := mk_counters 0 0 0 0 0 0 0 0 0;
|}.

Definition example_world : World :=
  mk_world example_shared 0 (mk_budget 0 DNS_QUERY_TIMEOUT) [].
