(* ===== verification/Servers.v ===== *)
(** * Servers of a scope

    Models [src/resolver_link_specs.rs], [src/resolver_server_identity.rs],
    [src/interface.rs] and, of [src/resolver_methods_03.rs], the choice of a
    server and what is remembered of it. *)

From S2P Require Import Prelude Stateful Text Net Sorting ConfigTypes Config Routing.
From S2P Require Import Float Policy World.

(** ** Link specifications *)

Definition same_dns_endpoint (left right : SocketAddr) : bool :=
  bool_decide (sock_ip left = sock_ip right) && (sock_port left =? sock_port right).

Definition with_address (spec : DnsServerSpec) (a : SocketAddr) : DnsServerSpec :=
  { spec with address := a }.

(** The stored specifications of a link's current addresses. *)
Definition project_link_specs (addresses : list SocketAddr) (specs : option (list DnsServerSpec)) :
    list DnsServerSpec :=
  foldl (λ output a,
    let matched := filter (λ spec, same_dns_endpoint (address spec) a = true) (default [] specs) in
    let output' := foldl push_new output ((λ spec, with_address spec a) <$> matched) in
    if bool_decide (length output' = length output) then output ++ [plain_spec a] else output')
    [] addresses.

Definition normalize_link_spec (addresses : list SocketAddr) (spec : DnsServerSpec) :
    DnsServerSpec :=
  match list_find (λ a, same_dns_endpoint (address spec) a = true) addresses with
  | Some (_, a) => with_address spec a
  | None => spec
  end.

Definition normalize_link_specs (addresses : list SocketAddr) (specs : list DnsServerSpec) :
    list DnsServerSpec :=
  foldl push_new [] (normalize_link_spec addresses <$> specs).

(** ** Specifications of a scope *)

(** The configured specifications of each server, or its bare address. *)
Definition specs_for_servers (configured : list DnsServerSpec) (servers : list SocketAddr) :
    list DnsServerSpec :=
  foldl (λ output a,
    let output' := foldl push_new output (filter (λ spec, address spec = a) configured) in
    if bool_decide (length output' = length output) then output ++ [plain_spec a] else output')
    [] servers.

(** Several specifications of one address are told apart by their slot. *)
Definition server_keys_for_specs (scope : ScopeKind) (specs : list DnsServerSpec) :
    list ServerKey :=
  (fix go (slots : gmap SocketAddr Z) (specs : list DnsServerSpec) : list ServerKey :=
    match specs with
    | [] => []
    | spec :: specs =>
        let slot := default 0 (slots !! address spec) in
        key_with_slot scope (address spec) slot :: go (<[address spec := slot + 1]> slots) specs
    end) ∅ specs.

Section servers.
Context (env : Env) (self : Resolver).

Definition get_link (ifindex : Z) : rst (option LinkState) :=
  reading env (λ sh, table_link (sh_routing sh) ifindex).

Definition link_dns_specs (ifindex : Z) : rst (list DnsServerSpec) :=
  link ← get_link ifindex;
  match link with
  | None => mret []
  | Some link =>
      stored ← reading env sh_link_server_specs;
      mret (project_link_specs (l_dns_servers link) (stored !! ifindex))
  end.

Definition server_specs_for_scope (scope : ScopeKind) (servers : list SocketAddr) :
    rst (list DnsServerSpec) :=
  configured ←
    match scope with
    | ScopeGlobal => mret (configured_upstream_specs (rs_config self))
    | ScopeFallback => mret (configured_fallback_upstream_specs (rs_config self))
    | ScopeLink ifindex => link_dns_specs ifindex
    end;
  mret (specs_for_servers configured servers).

Definition server_spec_for_key (server : ServerKey) : rst DnsServerSpec :=
  specs ← server_specs_for_scope (scope_kind server) [sk_server server];
  mret (default (plain_spec (sk_server server))
    (filter (λ spec, address spec = sk_server server) specs !! Z.to_nat (sk_slot server))).

(** [interface::resolve_ifindex]. *)
Definition resolve_ifindex (value : str) : rst Z :=
  match parse_signed i32_max value with
  | Some ifindex =>
      if 0 <? ifindex then mret ifindex
      else fail (RIo (IoInvalidInput (lit "interface index must be positive")))
  | None =>
      if contains_char 0 value then fail (RIo (IoInvalidInput (lit "interface contains NUL")))
      else os (λ n, os_if_index env n value)
  end.

Definition server_transport_ifindex (server : ServerKey) : rst (option Z) :=
  spec ← server_spec_for_key server;
  match interface spec with
  | Some interface => ifindex ← resolve_ifindex interface; mret (Some ifindex)
  | None => mret (key_ifindex server)
  end.

Definition server_dns_over_tls_mode (server : ServerKey) : rst TlsMode :=
  match scope_kind server with
  | ScopeLink ifindex =>
      link ← get_link ifindex;
      mret (match link with Some l => l_dns_over_tls l | None => dns_over_tls (rs_config self) end)
  | ScopeGlobal | ScopeFallback => mret (dns_over_tls (rs_config self))
  end.

Definition server_dnssec_mode (server : ServerKey) : rst ValidationMode :=
  match scope_kind server with
  | ScopeLink ifindex =>
      link ← get_link ifindex;
      mret (match link with Some l => l_dnssec l | None => dnssec (rs_config self) end)
  | ScopeGlobal | ScopeFallback => mret (dnssec (rs_config self))
  end.

Definition set_port (a : SocketAddr) (port : Z) : SocketAddr :=
  match a with SockV4 i _ => SockV4 i port | SockV6 i _ f s => SockV6 i port f s end.

Definition server_tls_endpoint (server : ServerKey) : rst (SocketAddr * option str) :=
  spec ← server_spec_for_key server;
  let endpoint := address spec in
  let endpoint :=
    if (sock_port endpoint =? 53) || (sock_port endpoint =? 853) then set_port endpoint 853
    else endpoint in
  mret (endpoint, server_name spec).

(** ** Choosing a server *)

Definition duration_milliseconds (d : Z) : Z :=
  let ms := d / 1000000 in if ms <=? i32_max then ms else i32_max.

(** The metric of a server: one already attempted is made dearest. *)
Definition effective_metric (attempted : bool) (t : Z) (s : ServerState) : ServerMetric :=
  let cooldown :=
    match ss_cooldown_until s with
    | Some until => if t <=? until then duration_milliseconds (until - t) else 0
    | None => 0
    end in
  let m := { ss_metric s with cooldown_ms := cooldown } in
  if attempted then { m with cooldown_ms := i32_max; m_failures := i32_max / 1000 } else m.

(** The critical section creates the states of servers it has not seen. *)
Definition metrics_of (servers : list ServerKey) (attempted : gset ServerKey) (t : Z) :
    st Shared ResolveError (list ServerMetric) := λ sh,
  foldl (λ '(r, sh) server,
    let s := server_state sh server in
    (l ← r; Ok (l ++ [effective_metric (bool_decide (server ∈ attempted)) t s]),
     with_state server s sh)) (Ok [], sh) servers.

Definition select_server (servers : list ServerKey) (attempted : gset ServerKey) :
    rst (option ServerKey) :=
  t ← now env;
  metrics ← atomically env (metrics_of servers attempted t);
  match choose_server metrics with
  | None => mret None
  | Some index => server ← lift (or_panic (servers !! index)); mret (Some server)
  end.

Definition record_success (server : ServerKey) (duration : Z) : rst unit :=
  update_state env server (λ s,
    let m := ss_metric s in
    { s with
        ss_metric := { m with
          round_trip_ms := update_rtt (round_trip_ms m)
                             (f64_mul (as_secs_f64 duration) (f64_of_Z 1000)) true;
          m_failures := 0 };
        ss_cooldown_until := None }).

(** The cooldown doubles with every failure up to a minute. *)
Definition cooldown_delay (fails : Z) : Z :=
  Z.min (saturating_mul (2 ^ 64 - 1) 250 (Z.shiftl 1 (Z.max 0 (Z.min fails 8)))) 60000.

Definition record_failure (server : ServerKey) (duration : Z) : rst unit :=
  t ← now env;
  update_state env server (λ s,
    let m := ss_metric s in
    let fails := Z.min (m_failures m + 1) i32_max in
    { s with
        ss_metric := { m with
          round_trip_ms := update_rtt (round_trip_ms m)
                             (f64_mul (as_secs_f64 duration) (f64_of_Z 1000)) false;
          m_failures := fails };
        ss_cooldown_until := instant_checked_add t (cooldown_delay fails * 1000000) }).
End servers.
