(* ===== verification/Links.v ===== *)
(** * Links

    The operations of the resolver on links ([resolver_methods_01.rs],
    [resolver_link_specs.rs]): each changes the routing table or the server
    specifications of a link in a critical section of its own, and what changed
    a route starts a new generation and flushes the cache.  A [LinkError] is the
    [RLink] of [ResolveError]. *)

From S2P Require Import Prelude Stateful Text Net Sorting ConfigTypes Config Cache Routing Hosts.
From S2P Require Import Networkd World Servers.

Section links.
Context (env : Env) (self : Resolver).

Definition link_is_managed (ifindex : Z) : rst bool :=
  reading env (λ sh,
    match sh_networkd_links sh !! ifindex with Some l => n_managed l | None => false end).

Definition networkd_link_relevant (ifindex : Z) : rst bool :=
  reading env (λ sh,
    match sh_networkd_links sh !! ifindex with Some l => resolver_relevant l | None => true end).

Definition ensure_link_writable (ifindex : Z) : rst unit :=
  managed ← link_is_managed ifindex;
  if managed : bool then fail (RLink (ManagedLink ifindex)) else mret ().

(** [self.routing_mut().method(...)?]. *)
Definition on_routing {A} (f : RoutingTable → lres A * RoutingTable) : rst A :=
  atomically env (λ sh,
    let '(r, t) := f (sh_routing sh) in (map_err RLink r, { sh with sh_routing := t })).

Definition finish_routing_change (changed : bool) : rst unit :=
  if changed then
    _ ← updating env (λ sh, { sh with sh_routing_generation :=
          (sh_routing_generation sh + 1) mod 2 ^ 64 });
    updating env (λ sh, { sh with sh_cache := dns_cache_flush (sh_cache sh) })
  else mret ().

(** ** The server specifications *)

Definition replace_specs (ifindex : Z) (specs : list DnsServerSpec)
    (stored : gmap Z (list DnsServerSpec)) : bool * gmap Z (list DnsServerSpec) :=
  if bool_decide (specs = []) then
    (bool_decide (is_Some (stored !! ifindex)), delete ifindex stored)
  else if bool_decide (stored !! ifindex = Some specs) then (false, stored)
  else (true, <[ifindex := specs]> stored).

Definition on_specs {A} (f : gmap Z (list DnsServerSpec) → A * gmap Z (list DnsServerSpec)) :
    rst A :=
  atomically env (λ sh,
    let '(a, m) := f (sh_link_server_specs sh) in (Ok a, { sh with sh_link_server_specs := m })).

Definition replace_link_server_specs (ifindex : Z) (specs : list DnsServerSpec) : rst bool :=
  on_specs (replace_specs ifindex specs).

Definition remove_link_server_specs (ifindex : Z) : rst bool :=
  on_specs (λ m, (bool_decide (is_Some (m !! ifindex)), delete ifindex m)).

Definition set_link_dns_specs (ifindex : Z) (specs : list DnsServerSpec) : rst unit :=
  _ ← ensure_link_writable ifindex;
  '(route_changed, normalized) ← on_routing (λ t,
    let '(r, t) := set_dns t ifindex (address <$> specs) in
    (changed ← r;
     Ok (changed, match table_link t ifindex with Some l => l_dns_servers l | None => [] end), t));
  spec_changed ← replace_link_server_specs ifindex (normalize_link_specs normalized specs);
  finish_routing_change (route_changed || spec_changed).

Definition set_link_dns (ifindex : Z) (servers : list SocketAddr) : rst unit :=
  set_link_dns_specs ifindex (plain_spec <$> servers).

(** ** Settings of a link *)

Definition set_link (ifindex : Z) (f : RoutingTable → lres bool * RoutingTable) : rst unit :=
  _ ← ensure_link_writable ifindex;
  changed ← on_routing f;
  finish_routing_change changed.

Definition set_link_domains (ifindex : Z) (ds : list Domain) : rst unit :=
  set_link ifindex (λ t, set_domains t ifindex ds).
Definition set_link_default_route (ifindex : Z) (v : option bool) : rst unit :=
  set_link ifindex (λ t, set_default_route t ifindex v).
Definition set_link_llmnr (ifindex : Z) (mode : SupportMode) : rst unit :=
  set_link ifindex (λ t, set_llmnr t ifindex mode).
Definition set_link_multicast_dns (ifindex : Z) (mode : SupportMode) : rst unit :=
  set_link ifindex (λ t, set_multicast_dns t ifindex mode).
Definition set_link_dns_over_tls (ifindex : Z) (mode : TlsMode) : rst unit :=
  set_link ifindex (λ t, set_dns_over_tls t ifindex mode).
Definition set_link_dnssec (ifindex : Z) (mode : ValidationMode) : rst unit :=
  set_link ifindex (λ t, set_dnssec t ifindex mode).
Definition set_link_dnssec_negative_trust_anchors (ifindex : Z) (anchors : list str) : rst unit :=
  set_link ifindex (λ t, set_dnssec_negative_trust_anchors t ifindex anchors).

Definition revert_link (ifindex : Z) : rst unit :=
  _ ← ensure_link_writable ifindex;
  route_changed ← on_routing (λ t, revert t ifindex);
  identity_changed ← remove_link_server_specs ifindex;
  finish_routing_change (route_changed || identity_changed).

(** ** Synchronization *)

(** Only the specifications of links that are left. *)
Definition retain_specs (live : gset Z) (m : gmap Z (list DnsServerSpec)) :
    bool * gmap Z (list DnsServerSpec) :=
  let m' := filter (λ kv, kv.1 ∈ live) m in
  (negb (bool_decide (size m' = size m)), m').

Definition resolver_sync_kernel_links (kernels : list KernelLinkState) : rst unit :=
  route_changed ← on_routing (λ t, sync_kernel_links t kernels);
  live ← reading env (λ sh, list_to_set (l_ifindex <$> table_links (sh_routing sh)));
  identity_changed ← on_specs (retain_specs live);
  finish_routing_change (route_changed || identity_changed).

(** The state of the loops of [sync_networkd_links], under the locks of
    [networkd_links] and [routing]. *)
Record sync_state : Type := mk_sync {
  sy_routing : RoutingTable;
  sy_changed : bool;
  sy_removed : list Z;
  sy_managed : list (Z * list SocketAddr * list DnsServerSpec);
}.

Abbreviation sst := (st sync_state LinkError).

(** [changed |= routing.method(...)?]. *)
Definition sync_routing (f : RoutingTable → lres bool * RoutingTable) : sst unit := λ s,
  let '(r, t) := f (sy_routing s) in
  match r with
  | Ok changed => (Ok (), { s with sy_routing := t; sy_changed := sy_changed s || changed })
  | Err e => (Err e, { s with sy_routing := t })
  | Panic => (Panic, { s with sy_routing := t })
  | Diverge => (Diverge, { s with sy_routing := t })
  end.

Definition push_removed (ifindex : Z) : sst unit :=
  modify (λ s, { s with sy_removed := sy_removed s ++ [ifindex] }).

(** A link that was managed and is no longer. *)
Definition sync_previous (incoming : gmap Z NetworkdLinkState)
    (previous : Z * NetworkdLinkState) : sst unit :=
  let '(ifindex, previous) := previous in
  let still_managed :=
    match incoming !! ifindex with Some l => n_managed l | None => false end in
  if n_managed previous && negb still_managed then
    _ ← push_removed ifindex;
    s ← get;
    match table_link (sy_routing s) ifindex with
    | Some _ => sync_routing (λ t, revert t ifindex)
    | None => mret ()
    end
  else mret ().

Definition sync_incoming (link : Z * NetworkdLinkState) : sst unit :=
  let '(_, l) := link in
  if negb (n_managed l) then mret ()
  else
    let i := n_ifindex l in
    s ← get;
    match table_link (sy_routing s) i with
    | None => push_removed i
    | Some _ =>
        _ ← sync_routing (λ t, set_dns t i (n_dns_servers l));
        _ ← sync_routing (λ t, set_domains t i (n_domains l));
        _ ← sync_routing (λ t, set_default_route t i (n_default_route l));
        _ ← sync_routing (λ t, set_llmnr t i (n_llmnr l));
        _ ← sync_routing (λ t, set_multicast_dns t i (n_multicast_dns l));
        _ ← sync_routing (λ t, set_dns_over_tls t i
              (default (dns_over_tls (rs_config self)) (n_dns_over_tls l)));
        _ ← sync_routing (λ t, set_dnssec t i (default (dnssec (rs_config self)) (n_dnssec l)));
        _ ← sync_routing (λ t, set_dnssec_negative_trust_anchors t i
              (n_dnssec_negative_trust_anchors l));
        s ← get;
        match table_link (sy_routing s) i with
        | Some state =>
            put { s with sy_managed :=
              sy_managed s ++ [(i, l_dns_servers state, n_dns_server_specs l)] }
        | None => mret ()
        end
    end.

(** The two maps are iterated in the order of their tables. *)
Context `{io : !IterOrder Z NetworkdLinkState}.

Definition sync_locked (incoming : gmap Z NetworkdLinkState) (sh : Shared) :
    rres (bool * list Z * list (Z * list SocketAddr * list DnsServerSpec)) * Shared :=
  let '(r, s) :=
    (_ ← for_each (iter_order 0 (sh_networkd_links sh)) (sync_previous incoming);
     for_each (iter_order 1 incoming) sync_incoming) (mk_sync (sh_routing sh) false [] []) in
  let sh := { sh with sh_routing := sy_routing s } in
  match r with
  | Ok _ => (Ok (sy_changed s, sy_removed s, sy_managed s), { sh with sh_networkd_links := incoming })
  | Err e => (Err (RLink e), sh)
  | Panic => (Panic, sh)
  | Diverge => (Diverge, sh)
  end.

(** [identity_changed |= ...] over a list. *)
Fixpoint any_changed {A} (f : A → rst bool) (l : list A) (changed : bool) : rst bool :=
  match l with
  | [] => mret changed
  | x :: l => c ← f x; any_changed f l (changed || c)
  end.

Definition managed_specs (servers : list SocketAddr) (specs : list DnsServerSpec) :
    list DnsServerSpec :=
  if bool_decide (specs = []) then plain_spec <$> servers
  else normalize_link_specs servers specs.

Definition sync_networkd_links (links : list NetworkdLinkState) : rst unit :=
  let incoming := list_to_map (reverse ((λ l, (n_ifindex l, l)) <$> links)) in
  '(changed, removed, managed) ← atomically env (sync_locked incoming);
  identity_changed ← any_changed remove_link_server_specs removed false;
  identity_changed ← any_changed (λ '(i, servers, specs),
      replace_link_server_specs i (managed_specs servers specs)) managed identity_changed;
  finish_routing_change (changed || identity_changed).

(** ** Reading *)

Definition resolver_search_domains (ifindex : option Z) : rst (list Domain) :=
  r ← reading env (λ sh, search_domains (sh_routing sh) (domains (rs_config self)) ifindex);
  lift (map_err RLink r).

Definition multicast_dns_mode_for_link (ifindex : option Z) : rst SupportMode :=
  match ifindex with
  | Some i =>
      link ← get_link env i;
      mret (match link with Some l => l_multicast_dns l | None => multicast_dns (rs_config self) end)
  | None => mret (multicast_dns (rs_config self))
  end.

Definition multicast_dns_resolve_enabled (ifindex : option Z) : rst bool :=
  mode ← multicast_dns_mode_for_link ifindex;
  mret (negb (bool_decide (mode = SupportNo))).

Definition multicast_dns_respond_enabled (ifindex : Z) : rst bool :=
  mode ← multicast_dns_mode_for_link (Some ifindex);
  mret (bool_decide (mode = SupportYes)).
End links.
