(* ===== verification/LinksFacts.v ===== *)
(** * Links: theorems

    What an operation on a link does to the shared state, run without
    interference: which errors it gives, that a failed operation leaves the
    routes, and that a change of routes starts a new generation and empties the
    cache. *)

From S2P Require Import Prelude Stateful Text Net Sorting ConfigTypes Config Cache Routing.
From S2P Require Import RoutingFacts Hosts Networkd World WorldFacts Servers Links.

(** The operations of the bus interfaces on one link. *)
Inductive link_op : Type :=
  | LinkDns (specs : list DnsServerSpec)
  | LinkDomains (ds : list Domain)
  | LinkDefaultRoute (v : option bool)
  | LinkLlmnr (mode : SupportMode)
  | LinkMulticastDns (mode : SupportMode)
  | LinkDnsOverTls (mode : TlsMode)
  | LinkDnssec (mode : ValidationMode)
  | LinkAnchors (anchors : list str)
  | LinkRevert.

Definition run_link_op (env : Env) (i : Z) (op : link_op) : rst unit :=
  match op with
  | LinkDns specs => set_link_dns_specs env i specs
  | LinkDomains ds => set_link_domains env i ds
  | LinkDefaultRoute v => set_link_default_route env i v
  | LinkLlmnr mode => set_link_llmnr env i mode
  | LinkMulticastDns mode => set_link_multicast_dns env i mode
  | LinkDnsOverTls mode => set_link_dns_over_tls env i mode
  | LinkDnssec mode => set_link_dnssec env i mode
  | LinkAnchors anchors => set_link_dnssec_negative_trust_anchors env i anchors
  | LinkRevert => revert_link env i
  end.

(** What it asks of the routing table, and of the specifications once the table
    is [t]. *)
Definition link_routing (i : Z) (op : link_op) : routing_op :=
  match op with
  | LinkDns specs => SetDns i (address <$> specs)
  | LinkDomains ds => SetDomains i ds
  | LinkDefaultRoute v => SetDefaultRoute i v
  | LinkLlmnr mode => SetLlmnr i mode
  | LinkMulticastDns mode => SetMulticastDns i mode
  | LinkDnsOverTls mode => SetDnsOverTls i mode
  | LinkDnssec mode => SetDnssec i mode
  | LinkAnchors anchors => SetNegativeTrustAnchors i anchors
  | LinkRevert => Revert i
  end.

Definition link_specs (i : Z) (op : link_op) (t : RoutingTable)
    (m : gmap Z (list DnsServerSpec)) : bool * gmap Z (list DnsServerSpec) :=
  match op with
  | LinkDns specs =>
      replace_specs i (normalize_link_specs
        match table_link t i with Some l => l_dns_servers l | None => [] end specs) m
  | LinkRevert => (bool_decide (is_Some (m !! i)), delete i m)
  | _ => (false, m)
  end.

Definition managed (sh : Shared) (i : Z) : bool :=
  match sh_networkd_links sh !! i with Some l => n_managed l | None => false end.

(** The shared state after a change was found. *)
Definition next_generation (sh : Shared) : Shared :=
  { sh with sh_routing_generation := (sh_routing_generation sh + 1) mod 2 ^ 64;
            sh_cache := dns_cache_flush (sh_cache sh) }.

Definition link_result (i : Z) (op : link_op) (sh : Shared) : rres unit * Shared :=
  if managed sh i then (Err (RLink (ManagedLink i)), sh)
  else
    let '(r, t) := routing_step (sh_routing sh) (link_routing i op) in
    let sh := { sh with sh_routing := t } in
    match r with
    | Ok changed =>
        let '(changed', m) := link_specs i op t (sh_link_server_specs sh) in
        let sh := { sh with sh_link_server_specs := m } in
        (Ok (), if changed || changed' then next_generation sh else sh)
    | Err e => (Err (RLink e), sh)
    | Panic => (Panic, sh)
    | Diverge => (Diverge, sh)
    end.

Section alone.
Context (env : Env) (Halone : ∀ n sh, others env n sh = sh).

Definition outcome_of {A} (x : rres A * World) : rres A * Shared := (x.1, w_shared x.2).

Lemma atomically_alone {A} (f : st Shared ResolveError A) w :
  atomically env f w =
    ((f (w_shared w)).1,
     { w with w_shared := (f (w_shared w)).2; w_events := S (w_events w) }).
Proof using Halone. unfold atomically; rewrite Halone; by destruct (f (w_shared w)). Qed.

Lemma finish_alone changed w :
  outcome_of (finish_routing_change env changed w) =
    (Ok (), if changed then next_generation (w_shared w) else w_shared w).
Proof using Halone.
  unfold finish_routing_change; destruct changed; [|done].
  unfold updating, mbind, st_bind; by rewrite atomically_alone, atomically_alone.
Qed.

Lemma writable_alone i w :
  ensure_link_writable env i w =
    (if managed (w_shared w) i then Err (RLink (ManagedLink i)) else Ok (),
     { w with w_events := S (w_events w) }).
Proof using Halone.
  unfold ensure_link_writable, link_is_managed, reading, mbind, st_bind; rewrite atomically_alone.
  cbn; fold (managed (w_shared w) i); by destruct (managed (w_shared w) i), w.
Qed.

Lemma on_routing_alone {A} (f : RoutingTable → lres A * RoutingTable) w :
  on_routing env f w =
    (map_err RLink (f (sh_routing (w_shared w))).1,
     { w with w_shared := { w_shared w with sh_routing := (f (sh_routing (w_shared w))).2 };
              w_events := S (w_events w) }).
Proof using Halone. unfold on_routing; rewrite atomically_alone; by destruct (f _). Qed.

Lemma on_specs_alone {A} (f : gmap Z (list DnsServerSpec) → A * gmap Z (list DnsServerSpec)) w :
  on_specs env f w =
    (Ok (f (sh_link_server_specs (w_shared w))).1,
     { w with w_shared := { w_shared w with sh_link_server_specs :=
                              (f (sh_link_server_specs (w_shared w))).2 };
              w_events := S (w_events w) }).
Proof using Halone. unfold on_specs; rewrite atomically_alone; by destruct (f _). Qed.

Lemma set_link_alone i f w :
  outcome_of (set_link env i f w) =
    if managed (w_shared w) i then (Err (RLink (ManagedLink i)), w_shared w)
    else
      let '(r, t) := f (sh_routing (w_shared w)) in
      let sh := { w_shared w with sh_routing := t } in
      match r with
      | Ok changed => (Ok (), if changed then next_generation sh else sh)
      | Err e => (Err (RLink e), sh)
      | Panic => (Panic, sh)
      | Diverge => (Diverge, sh)
      end.
Proof using Halone.
  unfold set_link, mbind, st_bind; rewrite writable_alone.
  destruct (managed (w_shared w) i); [done|]; rewrite on_routing_alone; cbn [w_shared].
  change (w_shared { w with w_events := S (w_events w) }) with (w_shared w).
  destruct (f (sh_routing (w_shared w))) as [[changed| | |] t]; cbn [fst snd map_err]; try done.
  by rewrite finish_alone.
Qed.

Lemma run_link_op_alone i op w :
  outcome_of (run_link_op env i op w) = link_result i op (w_shared w).
Proof using Halone.
  unfold link_result.
  assert (∀ f, (∀ t, f t = routing_step t (link_routing i op)) →
    link_specs i op = (λ _ m, (false, m)) → run_link_op env i op = set_link env i f →
    outcome_of (run_link_op env i op w) = link_result i op (w_shared w)) as Hset.
  { intros f Hf Hsp ->; rewrite set_link_alone; unfold link_result; rewrite Hsp, Hf.
    destruct (managed _ _); [done|]; destruct (routing_step _ _) as [[[]| | |] t]; done. }
  destruct op; try (eapply Hset; reflexivity); clear Hset; cbn [run_link_op].
  - unfold set_link_dns_specs, mbind, st_bind; rewrite writable_alone.
    destruct (managed (w_shared w) i); [done|]; rewrite on_routing_alone.
    change (w_shared { w with w_events := S (w_events w) }) with (w_shared w).
    cbn [link_routing routing_step].
    destruct (set_dns (sh_routing (w_shared w)) i (address <$> specs)) as [[changed| | |] t];
      cbn [fst snd map_err mbind outcome_bind]; try done.
    unfold replace_link_server_specs; rewrite on_specs_alone; rewrite finish_alone.
    cbn [link_specs]; by destruct (replace_specs _ _ _).
  - unfold revert_link, mbind, st_bind; rewrite writable_alone.
    destruct (managed (w_shared w) i); [done|]; rewrite on_routing_alone.
    change (w_shared { w with w_events := S (w_events w) }) with (w_shared w).
    cbn [link_routing routing_step].
    destruct (revert (sh_routing (w_shared w)) i) as [[changed| | |] t];
      cbn [fst snd map_err]; try done.
    unfold remove_link_server_specs; by rewrite on_specs_alone, finish_alone.
Qed.
End alone.

(** ** Changes *)

(** The specifications stay when no change of them is found. *)
Lemma link_specs_same i op t m m' : link_specs i op t m = (false, m') → m' = m.
Proof.
  destruct op; cbn; try by intros [= <-].
  - unfold replace_specs; case_bool_decide; [|by case_bool_decide; intros [= <-]].
    intros [= Hn%bool_decide_eq_false <-]; apply delete_id; by apply eq_None_not_Some.
  - intros [= Hn%bool_decide_eq_false <-]; apply delete_id; by apply eq_None_not_Some.
Qed.

(** Nothing about routes changed: at most a link without servers appeared. *)
Definition routes_kept (sh sh' : Shared) : Prop :=
  ∃ t, same_routes (sh_routing sh) t ∧ sh' = { sh with sh_routing := t }.

Lemma link_result_kept i op sh r sh' :
  link_result i op sh = (r, sh') →
  routes_kept sh sh' ∨
  r = Ok () ∧ managed sh i = false ∧ ∃ t m,
    (∃ b, routing_step (sh_routing sh) (link_routing i op) = (Ok b, t)) ∧
    link_specs i op t (sh_link_server_specs sh) = ((link_specs i op t (sh_link_server_specs sh)).1, m) ∧
    sh' = next_generation { sh with sh_routing := t; sh_link_server_specs := m }.
Proof.
  unfold link_result; intros H.
  assert (routes_kept sh sh) as Hsame.
  { exists (sh_routing sh); split; [constructor|by destruct sh]. }
  destruct (managed sh i); [injection H as <- <-; by left|].
  destruct (routing_step _ _) as [r' t] eqn:Hr.
  assert (r' ≠ Ok true → same_routes (sh_routing sh) t) as Hun.
  { intros Hne; eapply routing_unreported; [exact Hr|done|by destruct op]. }
  destruct r' as [changed|e| |]; try (injection H as <- <-; left; exists t; split; [by apply Hun|done]).
  destruct (link_specs i op t _) as [changed' m] eqn:Hs; change (sh_link_server_specs _) with
    (sh_link_server_specs sh) in Hs; injection H as <- <-.
  destruct changed; cbn [orb].
  { right; split_and!; [done..|]; exists t, m; rewrite Hs; eauto. }
  destruct changed'; [right; split_and!; [done..|]; exists t, m; rewrite Hs; eauto|left].
  apply link_specs_same in Hs as ->; exists t; split; [by apply Hun|by destruct sh].
Qed.

(** ** Errors *)

Definition first_error {A B E} (f : A → outcome E B) (l : list A) : option E :=
  head (omap (λ x, match f x with Err e => Some e | _ => None end) l).

Definition input_error (op : link_op) : option LinkError :=
  match op with
  | LinkDomains ds => first_error normalize_domain ds
  | LinkAnchors anchors => first_error normalize_name anchors
  | _ => None
  end.

(** The error of an operation on the table [t]. *)
Definition table_error (t : RoutingTable) (i : Z) (op : link_op) : option LinkError :=
  if i <=? 0 then Some (InvalidIfindex i)
  else if bool_decide (rt_links t !! i = None) &&
          (rt_kernel_synchronized t || match op with LinkRevert => true | _ => false end)
  then Some (NoSuchLink i)
  else input_error op.

Definition link_error (sh : Shared) (i : Z) (op : link_op) : option LinkError :=
  if managed sh i then Some (ManagedLink i) else table_error (sh_routing sh) i op.

(** A result that is a value, or exactly the error [e]. *)
Definition result_is {A E} (e : option E) (r : outcome E A) : Prop :=
  match e with Some e => r = Err e | None => ∃ a, r = Ok a end.

Lemma push_normalized_result {A B E} `{EqDecision B} (f : A → outcome E B) xs output :
  (∀ x, safe (f x)) → result_is (first_error f xs) (push_normalized f xs output).
Proof.
  intros Hf; revert output; induction xs as [|x xs IH]; intros output; [by eexists|].
  unfold first_error; cbn; specialize (Hf x); destruct (f x); cbn in *; try done; apply IH.
Qed.

Lemma normalize_name_safe s : safe (normalize_name s).
Proof. unfold normalize_name; by repeat case_match. Qed.

Lemma normalize_domain_safe d : safe (normalize_domain d).
Proof.
  unfold normalize_domain; pose proof (normalize_name_safe (d_name d)).
  by destruct (normalize_name (d_name d)).
Qed.

Lemma update_link_result t i f e :
  0 < i → (rt_links t !! i = None → rt_kernel_synchronized t = false) →
  (∀ l, result_is e (f l)) → result_is e (update_link t i f).1.
Proof.
  intros Hi Hs Hf; unfold update_link, link_mut, link_new, validate_ifindex.
  rewrite (proj2 (Z.leb_gt _ _)) by done; cbn [mbind outcome_bind].
  destruct (rt_links t !! i) as [l|]; [|rewrite (Hs eq_refl); cbn [mbind outcome_bind]];
    match goal with |- context [f ?l] => specialize (Hf l); destruct e as [e|]; cbn in Hf end.
  1,3: by rewrite Hf.
  all: destruct Hf as [[l'|] ->]; by eexists.
Qed.

Lemma update_link_missing t i f :
  i ≤ 0 → (update_link t i f).1 = Err (InvalidIfindex i).
Proof.
  intros Hi; unfold update_link, link_mut, validate_ifindex; by rewrite (proj2 (Z.leb_le _ _)).
Qed.

Lemma update_link_unknown t i f :
  0 < i → rt_links t !! i = None → rt_kernel_synchronized t = true →
  (update_link t i f).1 = Err (NoSuchLink i).
Proof.
  intros Hi Hl Hs; unfold update_link, link_mut, validate_ifindex.
  rewrite (proj2 (Z.leb_gt _ _)) by done; cbn [mbind outcome_bind]; by rewrite Hl, Hs.
Qed.

(** The change a setter makes to a link; [None] for [revert]. *)
Definition link_update (i : Z) (op : link_op) : option (LinkState → lres (option LinkState)) :=
  match op with
  | LinkDns specs => Some (λ l,
      normalized ← push_normalized (λ s, Ok (normalize_server i s)) (address <$> specs) [];
      changed_to (l_dns_servers l) normalized { l with l_dns_servers := normalized })
  | LinkDomains ds => Some (λ l,
      normalized ← push_normalized normalize_domain ds [];
      changed_to (l_domains l) normalized { l with l_domains := normalized })
  | LinkDefaultRoute v =>
      Some (λ l, changed_to (l_default_route l) v { l with l_default_route := v })
  | LinkLlmnr m => Some (λ l, changed_to (l_llmnr l) m { l with l_llmnr := m })
  | LinkMulticastDns m => Some (λ l, changed_to (l_multicast_dns l) m { l with l_multicast_dns := m })
  | LinkDnsOverTls m => Some (λ l, changed_to (l_dns_over_tls l) m { l with l_dns_over_tls := m })
  | LinkDnssec m => Some (λ l, changed_to (l_dnssec l) m { l with l_dnssec := m })
  | LinkAnchors anchors => Some (λ l,
      normalized ← push_normalized normalize_name anchors [];
      changed_to (l_dnssec_negative_trust_anchors l) normalized
        { l with l_dnssec_negative_trust_anchors := normalized })
  | LinkRevert => None
  end.

Lemma link_update_step t i op f :
  link_update i op = Some f → routing_step t (link_routing i op) = update_link t i f.
Proof. by destruct op; intros [= <-]. Qed.

Lemma bind_result {A B E} (m : outcome E A) (k : A → outcome E B) e :
  result_is e m → (∀ a, ∃ b, k a = Ok b) → result_is e (m ≫= k).
Proof. destruct e; cbn; [by intros ->|]; intros [a ->] Hk; destruct (Hk a) as [b ?]; by exists b. Qed.

Lemma link_update_result i op f l : link_update i op = Some f → result_is (input_error op) (f l).
Proof.
  destruct op; intros [= <-]; try by eexists.
  - apply bind_result; [|by eexists]; change (input_error (LinkDns specs)) with
      (@None LinkError); generalize (@nil SocketAddr).
    induction (address <$> specs) as [|x xs IH]; intros out; [by eexists|apply IH].
  - apply bind_result; [|by eexists]; apply push_normalized_result, normalize_domain_safe.
  - apply bind_result; [|by eexists]; apply push_normalized_result, normalize_name_safe.
Qed.

Lemma routing_step_result t i op :
  result_is (table_error t i op) (routing_step t (link_routing i op)).1.
Proof.
  unfold table_error; destruct (link_update i op) as [f|] eqn:Hu.
  - rewrite (link_update_step _ _ _ _ Hu); destruct (Z.leb_spec i 0); [by apply update_link_missing|].
    assert (match op with LinkRevert => true | _ => false end = false) as -> by (by destruct op).
    rewrite orb_false_r; destruct (rt_links t !! i) as [l|] eqn:Hl, (rt_kernel_synchronized t) eqn:Hs;
      cbn [bool_decide andb]; try rewrite bool_decide_false by done;
      try rewrite bool_decide_true by done; cbn [andb]; [..|by apply update_link_unknown|];
      (apply update_link_result; [done|congruence|]; intros l'; by eapply link_update_result).
  - destruct op; try done; cbn [link_routing routing_step]; unfold revert, validate_ifindex.
    destruct (Z.leb_spec i 0); [done|]; cbn [mbind outcome_bind]; rewrite orb_true_r, andb_true_r.
    destruct (rt_links t !! i) as [l|]; [|done]; rewrite bool_decide_false by done.
    cbn [ok_or mbind outcome_bind]; unfold link_new, validate_ifindex.
    rewrite (proj2 (Z.leb_gt _ _)) by done; cbn; case_bool_decide; by eexists.
Qed.

(** ** The values set *)

(** [l] holds the distinct values [f] gives for [input]. *)
Definition lists {A B} (f : A → lres B) (input : list A) (l : list B) : Prop :=
  NoDup l ∧ ∀ y, y ∈ l ↔ ∃ x, x ∈ input ∧ f x = Ok y.

(** The link [l] as the operation left it; [old] is the link before. *)
Definition link_shows (i : Z) (op : link_op) (old : option LinkState) (l : LinkState) : Prop :=
  match op with
  | LinkDns specs => lists (λ s, Ok (normalize_server i s)) (address <$> specs) (l_dns_servers l)
  | LinkDomains ds => lists normalize_domain ds (l_domains l)
  | LinkDefaultRoute v => l_default_route l = v
  | LinkLlmnr mode => l_llmnr l = mode
  | LinkMulticastDns mode => l_multicast_dns l = mode
  | LinkDnsOverTls mode => l_dns_over_tls l = mode
  | LinkDnssec mode => l_dnssec l = mode
  | LinkAnchors anchors => lists normalize_name anchors (l_dnssec_negative_trust_anchors l)
  | LinkRevert => ∃ fresh, link_new i = Ok fresh ∧ l = { fresh with l_kernel := old ≫= l_kernel }
  end.

Lemma push_normalized_lists {A B} `{EqDecision B} (f : A → lres B) input l :
  push_normalized f input [] = Ok l → lists f input l.
Proof.
  intros H; apply push_normalized_spec in H as [Hd Hl]; [|constructor]; split; [done|].
  intros y; rewrite Hl, elem_of_nil; tauto.
Qed.

Lemma changed_to_cases {A} `{EqDecision A} (x y : A) l l' o :
  changed_to x y l' = Ok o → default l o = if decide (x = y) then l else l'.
Proof. unfold changed_to; intros [= <-]; case_bool_decide; case_decide; done. Qed.

Lemma link_update_shows i op f old l o :
  link_update i op = Some f → f l = Ok o → link_shows i op old (default l o).
Proof.
  destruct op; intros [= <-] Ho; cbn [link_shows];
    try (apply (changed_to_cases _ _ l) in Ho as ->; by case_decide).
  all: apply bind_Ok in Ho as (n & Hn%push_normalized_lists & Ho).
  all: apply (changed_to_cases _ _ l) in Ho as ->; case_decide; [congruence|done].
Qed.

Lemma update_link_Ok t i f b t' :
  update_link t i f = (Ok b, t') →
  ∃ l o, f l = Ok o ∧ rt_links t' !! i = Some (default l o).
Proof.
  unfold update_link; intros H; destruct (link_mut t i) as [[l t1]| | |] eqn:Hm; try done.
  assert (rt_links t1 !! i = Some l) as Hl.
  { unfold link_mut in Hm; apply bind_Ok in Hm as (u & _ & Hm).
    destruct (rt_links t !! i) as [l0|] eqn:Hl0; [by injection Hm as <- <-|].
    destruct (rt_kernel_synchronized t); [done|]; apply bind_Ok in Hm as (l0 & _ & [= <- <-]).
    apply lookup_insert_eq. }
  destruct (f l) as [[l'|]| | |] eqn:Hf; try done; injection H as _ <-; exists l; eexists;
    (split; [exact Hf|]); [apply lookup_insert_eq|done].
Qed.

Lemma routing_step_shows t i op b t' :
  routing_step t (link_routing i op) = (Ok b, t') →
  ∃ l, rt_links t' !! i = Some l ∧ link_shows i op (rt_links t !! i) l.
Proof.
  intros H; destruct (link_update i op) as [f|] eqn:Hu.
  - rewrite (link_update_step _ _ _ _ Hu) in H; apply update_link_Ok in H as (l & o & Hf & Hl).
    eexists; split; [exact Hl|]; by eapply link_update_shows.
  - destruct op; try done; cbn [link_routing routing_step] in H; unfold revert in H.
    destruct (_ ← validate_ifindex i; _) as [[l reset]| | |] eqn:Hr; try done.
    apply bind_Ok in Hr as (u & _ & Hr); apply bind_Ok in Hr as (l' & Hl & Hr).
    apply bind_Ok in Hr as (r & Hn & [= -> ->]); apply ok_or_Ok in Hl; rewrite Hl.
    case_bool_decide as Heq; injection H as _ <-.
    + exists l; split; [done|]; exists reset; by split.
    + eexists; split; [apply lookup_insert_eq|]; exists reset; by split.
Qed.

(** ** Properties *)

(** C28: a change of routes empties the cache.  An operation on a link that
    succeeds leaves the link with the values asked for (normalized, without
    duplicates), and either nothing about routes changed, or the generation
    that cached answers are filed under was advanced and the cache emptied, and
    nothing else changed but the routing table and the link's specifications. *)
Theorem link_change_flushes env i op w w' :
  (∀ n sh, others env n sh = sh) → run_link_op env i op w = (Ok (), w') →
  (∃ l, table_link (sh_routing (w_shared w')) i = Some l ∧
     link_shows i op (table_link (sh_routing (w_shared w)) i) l) ∧
  (routes_kept (w_shared w) (w_shared w') ∨
   ∃ t m, w_shared w' =
     next_generation { w_shared w with sh_routing := t; sh_link_server_specs := m }).
Proof.
  intros Ha H; pose proof (run_link_op_alone env Ha i op w) as Hr; rewrite H in Hr.
  unfold outcome_of in Hr; cbn [fst snd] in Hr; symmetry in Hr; split.
  - unfold link_result in Hr; destruct (managed _ _); [done|].
    destruct (routing_step _ _) as [[b| | |] t] eqn:Hs; try done.
    destruct (link_specs i op t _) as [b' m]; injection Hr as Hw.
    apply routing_step_shows in Hs as (l & Hl & Hv); exists l; split; [|done].
    rewrite <- Hw; by destruct (b || b').
  - destruct (link_result_kept _ _ _ _ _ Hr) as [?|(_ & _ & t & m & _ & _ & ?)]; [by left|right; eauto].
Qed.

(** C29: the errors of the operations on a link, exactly.  Without interference an
    operation fails exactly when the link is managed by the network manager, its
    index is not positive, the link is unknown although the kernel's links are
    known (or nothing is there to revert), or a domain or trust anchor cannot be
    normalized; the error is the first of these, the routes, specifications,
    generation and cache stay, and in every other case it succeeds. *)
Theorem link_errors_exact env i op w :
  (∀ n sh, others env n sh = sh) →
  match link_error (w_shared w) i op with
  | Some e => (run_link_op env i op w).1 = Err (RLink e) ∧
      routes_kept (w_shared w) (w_shared (run_link_op env i op w).2)
  | None => (run_link_op env i op w).1 = Ok ()
  end.
Proof.
  intros Ha; pose proof (run_link_op_alone env Ha i op w) as Hr; unfold outcome_of in Hr.
  destruct (run_link_op env i op w) as [r w']; cbn [fst snd] in *; symmetry in Hr.
  pose proof (link_result_kept _ _ _ _ _ Hr) as Hkept; unfold link_result, link_error in *.
  destruct (managed (w_shared w) i).
  { injection Hr as <- _; destruct Hkept as [?|[? _]]; done. }
  pose proof (routing_step_result (sh_routing (w_shared w)) i op) as Hres.
  destruct (routing_step _ _) as [r' t]; cbn [fst] in Hres.
  destruct (table_error _ i op) as [e|]; cbn in Hres.
  - subst r'; injection Hr as <- _; destruct Hkept as [?|[? _]]; done.
  - destruct Hres as [b ->]; destruct (link_specs i op t _); by injection Hr as <- _.
Qed.

Lemma link_change_flushes_witness :
  ∃ w', run_link_op (example_env (λ _, id) []) 2 (LinkDomains [mk_domain (lit "Corp.") true])
      example_world = (Ok (), w') ∧
    (∃ l, table_link (sh_routing (w_shared w')) 2 = Some l ∧
       lists normalize_domain [mk_domain (lit "Corp.") true] (l_domains l)).
Proof.
  destruct (run_link_op (example_env (λ _, id) []) 2 (LinkDomains [mk_domain (lit "Corp.") true])
    example_world) as [r w'] eqn:H.
  assert (r = Ok ()) as -> by (apply (f_equal fst) in H; by vm_compute in H).
  exists w'; split; [done|].
  exact (proj1 (link_change_flushes (example_env (λ _, id) []) 2 (LinkDomains [mk_domain (lit "Corp.") true])
    example_world w' (λ _ _, eq_refl) H)).
Defined.

(** Link 3 is managed. *)
Definition example_managed : World :=
  let l := mk_networkd 3 true OperRoutable [] [] [] None SupportYes SupportYes None None [] in
  { example_world with w_shared := { example_shared with sh_networkd_links := {[ 3 := l ]} } }.

Lemma link_errors_exact_witness :
  (run_link_op (example_env (λ _, id) []) 3 LinkRevert example_managed).1 =
    Err (RLink (ManagedLink 3)) ∧
  routes_kept (w_shared example_managed)
    (w_shared (run_link_op (example_env (λ _, id) []) 3 LinkRevert example_managed).2).
Proof.
  exact (link_errors_exact (example_env (λ _, id) []) 3 LinkRevert example_managed
    (λ _ _, eq_refl)).
Defined.
