(* ===== verification/Exchange.v ===== *)
(** * Exchanging packets with a server

    Models [src/resolver_methods_04.rs] (sockets, streams and their pools, one
    exchange over UDP, TCP or TLS), the streams of [src/tls.rs], and
    [src/resolver_edns.rs]: the loop that asks one server at falling feature
    levels until it has an answer.

    [fuel] bounds the number of datagrams one UDP exchange looks at: the code
    reads until a datagram matches or the time is up. *)

From S2P Require Import Prelude Stateful Text Net ConfigTypes Codec Packet WireDnssec.
From S2P Require Import Edns Transport World Servers.

(** ** Pools of idle sockets *)

Section pools.
Context {K : Type} `{Countable K}.

(** [pool.get_mut(&key).and_then(Vec::pop)]. *)
Definition pop_pool (pool : gmap K (list Z)) (k : K) : option Z * gmap K (list Z) :=
  match pool !! k with
  | None => (None, pool)
  | Some fds =>
      match last fds with
      | None => (None, pool)
      | Some fd => (Some fd, <[k := take (length fds - 1) fds]> pool)
      end
  end.

Definition push_pool (max : Z) (pool : gmap K (list Z)) (k : K) (fd : Z) : gmap K (list Z) :=
  let fds := default [] (pool !! k) in
  <[k := if len fds <? max then fds ++ [fd] else fds]> pool.
End pools.

Section exchange.
Context (env : Env) (self : Resolver) (fuel : nat).

Definition udp_transaction_timeout (remaining : Z) : Z :=
  Z.min (Z.min (query_timeout (rs_config self)) DNS_TRANSACTION_UDP_TIMEOUT) remaining.

Definition tcp_transaction_timeout (remaining : Z) : Z :=
  let timeout :=
    if query_timeout (rs_config self) =? DNS_TRANSACTION_UDP_TIMEOUT
    then DNS_TRANSACTION_TCP_TIMEOUT
    else Z.min (query_timeout (rs_config self)) DNS_TRANSACTION_TCP_TIMEOUT in
  Z.min timeout remaining.

(** [set_read_timeout] and [set_write_timeout]: a zero duration is an error. *)
Definition set_socket_timeout (fd d : Z) : rst unit :=
  if d =? 0 then fail (RIo (IoInvalidInput (lit "cannot set a 0 duration timeout")))
  else os (λ n, os_set_timeout env n fd d).

(** [timeout.checked_sub(started.elapsed())], when something is left. *)
Definition time_left (timeout started : Z) : rst (option Z) :=
  t ← now env;
  let elapsed := Z.max 0 (t - started) in
  mret (if elapsed <? timeout then Some (timeout - elapsed) else None).

(** ** UDP *)

Definition take_udp_socket (server : ServerKey) : rst Z :=
  pooled ← atomically env (λ sh,
    let '(fd, pool) := pop_pool (sh_udp_sockets sh) server in
    (Ok fd, { sh with sh_udp_sockets := pool }));
  match pooled with
  | Some fd => mret fd
  | None =>
      ifindex ← server_transport_ifindex env self server;
      os (λ n, os_udp_connect env n (sk_server server) ifindex)
  end.

Definition recycle_udp_socket (server : ServerKey) (fd : Z) : rst unit :=
  updating env (λ sh, { sh with sh_udp_sockets :=
    push_pool UDP_POOL_PER_SERVER_MAX (sh_udp_sockets sh) server fd }).

Fixpoint udp_receive (n : nat) (fd : Z) (query : bytes) (timeout started : Z) :
    rst (bytes * Z) :=
  match n with
  | O => lift Diverge
  | S n =>
      left ← time_left timeout started;
      match left with
      | None => fail (RIo (IoTimedOut (lit "DNS UDP query timed out")))
      | Some remaining =>
          _ ← set_socket_timeout fd remaining;
          '(response, fragment_size) ← os (λ n, os_udp_recv env n fd);
          match response_matches query response with
          | Ok _ => mret (response, fragment_size)
          | Err _ => udp_receive n fd query timeout started
          | Panic => lift Panic
          | Diverge => lift Diverge
          end
      end
  end.

Definition exchange_udp (server : ServerKey) (query : bytes) (remaining : Z) : rst (bytes * Z) :=
  fd ← take_udp_socket server;
  let timeout := udp_transaction_timeout remaining in
  _ ← set_socket_timeout fd timeout;
  _ ← set_socket_timeout fd timeout;
  _ ← log_sent (SentUdp server query);
  sent ← os (λ n, os_udp_send env n fd query);
  if negb (sent =? len query) then fail (RProtocol (lit "short UDP send"))
  else
    started ← now env;
    r ← udp_receive fuel fd query timeout started;
    _ ← recycle_udp_socket server fd;
    mret r.

Definition udp_path_mtu (server : ServerKey) : rst (option Z) :=
  r ← try_io (take_udp_socket server);
  match r with
  | None => mret None
  | Some fd =>
      mtu ← try_io (os (λ n, os_udp_path_mtu env n fd));
      _ ← recycle_udp_socket server fd;
      mret mtu
  end.

(** ** TCP *)

Definition new_tcp_stream (server : ServerKey) (timeout : Z) : rst Z :=
  ifindex ← server_transport_ifindex env self server;
  fd ← os (λ n, os_tcp_connect env n (sk_server server) ifindex timeout);
  _ ← set_socket_timeout fd timeout;
  _ ← set_socket_timeout fd timeout;
  mret fd.

Definition take_tcp_stream (server : ServerKey) (timeout : Z) : rst (Z * bool) :=
  pooled ← atomically env (λ sh,
    let '(fd, pool) := pop_pool (sh_tcp_streams sh) server in
    (Ok fd, { sh with sh_tcp_streams := pool }));
  fd ← match pooled with Some fd => mret fd | None => new_tcp_stream server timeout end;
  _ ← set_socket_timeout fd timeout;
  _ ← set_socket_timeout fd timeout;
  mret (fd, bool_decide (is_Some pooled)).

Definition recycle_tcp_stream (server : ServerKey) (fd : Z) : rst unit :=
  updating env (λ sh, { sh with sh_tcp_streams :=
    push_pool TCP_POOL_PER_SERVER_MAX (sh_tcp_streams sh) server fd }).

(** What is read from a stream after the query: the frame, which must match. *)
Definition check_stream_response (query response : bytes) (truncated_message : str) : rst bytes :=
  _ ← wire (response_matches query response);
  header ← wire (header_parse response);
  if truncated header then fail (RProtocol truncated_message) else mret response.

Definition exchange_tcp_stream (server : ServerKey) (fd : Z) (query : bytes) : rst bytes :=
  if 65535 <? len query then fail (RProtocol (lit "DNS query exceeds the TCP frame limit"))
  else
    _ ← log_sent (SentTcp server query);
    _ ← os (λ n, os_tcp_write env n fd (u16_bytes (len query)));
    _ ← os (λ n, os_tcp_write env n fd query);
    prefix ← os (λ n, os_tcp_read env n fd 2);
    length ← wire (index_u16 prefix 0);
    if length <? DNS_HEADER_LEN then fail (RProtocol (lit "short DNS-over-TCP frame"))
    else
      response ← os (λ n, os_tcp_read env n fd length);
      check_stream_response query response (lit "truncated DNS-over-TCP response").

(** One exchange, and a second one on a fresh stream when an idle one failed. *)
Definition exchange_tcp (server : ServerKey) (query : bytes) (remaining : Z) : rst bytes :=
  let timeout := tcp_transaction_timeout remaining in
  started ← now env;
  '(fd, reused) ← take_tcp_stream server timeout;
  result ← attempt (exchange_tcp_stream server fd query);
  if is_ok result then _ ← recycle_tcp_stream server fd; lift result
  else if negb reused then lift result
  else
    left ← time_left timeout started;
    match left with
    | None => lift result
    | Some timeout =>
        fresh ← new_tcp_stream server timeout;
        result ← attempt (exchange_tcp_stream server fresh query);
        if is_ok result then _ ← recycle_tcp_stream server fresh; lift result else lift result
    end.

(** ** TLS *)

(** [TlsStream::write_all]: at most one call per octet. *)
Fixpoint tls_write_all (n : nat) (fd : Z) (buffer : bytes) : rst unit :=
  match buffer, n with
  | [], _ => mret ()
  | _, O => lift Diverge
  | _, S n =>
      written ← os (λ k, os_tls_write env k fd buffer);
      if written =? 0 then fail (RIo (IoWriteZero (lit "TLS stream closed")))
      else
        rest ← wire (slice_from buffer written);
        tls_write_all n fd rest
  end.

(** [TlsStream::read_exact] of [count] octets. *)
Fixpoint tls_read_exact (n : nat) (fd count : Z) : rst bytes :=
  if count <=? 0 then mret []
  else match n with
       | O => lift Diverge
       | S n =>
           data ← os (λ k, os_tls_read env k fd count);
           if bool_decide (data = []) then fail (RIo (IoUnexpectedEof (lit "TLS stream closed")))
           else if count <? len data then lift Panic
           else
             rest ← tls_read_exact n fd (count - len data);
             mret (data ++ rest)
       end.

(** [TlsStream::connect]. *)
Definition tls_connect (endpoint : SocketAddr) (ifindex : option Z) (name : option str)
    (strict : bool) (timeout : Z) : rst Z :=
  if contains_char 0 (default [] name)
  then fail (RIo (IoInvalidInput (lit "server name contains NUL")))
  else os (λ n, os_tls_connect env n endpoint ifindex name strict timeout).

Definition new_tls_stream (server : ServerKey) (strict : bool) (timeout : Z) : rst Z :=
  '(endpoint, name) ← server_tls_endpoint env self server;
  ifindex ← server_transport_ifindex env self server;
  tls_connect endpoint ifindex name strict timeout.

Definition take_tls_stream (server : ServerKey) (strict : bool) (timeout : Z) : rst (Z * bool) :=
  pooled ← atomically env (λ sh,
    let '(fd, pool) := pop_pool (sh_tls_streams sh) (mk_pool_key server strict) in
    (Ok fd, { sh with sh_tls_streams := pool }));
  fd ← match pooled with Some fd => mret fd | None => new_tls_stream server strict timeout end;
  _ ← os (λ n, os_tls_set_timeout env n fd timeout);
  mret (fd, bool_decide (is_Some pooled)).

Definition recycle_tls_stream (server : ServerKey) (strict : bool) (fd : Z) : rst unit :=
  updating env (λ sh, { sh with sh_tls_streams :=
    push_pool TLS_POOL_PER_SERVER_MAX (sh_tls_streams sh) (mk_pool_key server strict) fd }).

Definition exchange_tls_stream (server : ServerKey) (strict : bool) (fd : Z) (query : bytes) :
    rst bytes :=
  if 65535 <? len query then fail (RProtocol (lit "DNS query exceeds the TLS frame limit"))
  else
    _ ← log_sent (SentTls server strict query);
    _ ← tls_write_all 2 fd (u16_bytes (len query));
    _ ← tls_write_all (length query) fd query;
    prefix ← tls_read_exact 2 fd 2;
    length ← wire (index_u16 prefix 0);
    if length <? DNS_HEADER_LEN then fail (RProtocol (lit "short DNS-over-TLS frame"))
    else
      response ← tls_read_exact (Z.to_nat length) fd length;
      check_stream_response query response (lit "truncated DNS-over-TLS response").

Definition exchange_tls (server : ServerKey) (query : bytes) (remaining : Z) (strict : bool) :
    rst bytes :=
  let timeout := tcp_transaction_timeout remaining in
  started ← now env;
  '(fd, reused) ← take_tls_stream server strict timeout;
  result ← attempt (exchange_tls_stream server strict fd query);
  if is_ok result then _ ← recycle_tls_stream server strict fd; lift result
  else if negb reused then lift result
  else
    left ← time_left timeout started;
    match left with
    | None => lift result
    | Some timeout =>
        fresh ← new_tls_stream server strict timeout;
        result ← attempt (exchange_tls_stream server strict fresh query);
        if is_ok result then _ ← recycle_tls_stream server strict fresh; lift result
        else lift result
    end.

(** ** What is remembered of an exchange *)

Definition server_tls_possible (server : ServerKey) (strict : bool) : rst bool :=
  t ← now env;
  on_state env server (λ s,
    let '(possible, tls) := tls_possible (ss_tls s) strict t in (possible, { s with ss_tls := tls })).

Definition record_tls_success (server : ServerKey) : rst unit :=
  update_state env server (λ s, { s with ss_tls := tls_record_success (ss_tls s) }).

Definition record_tls_failure (server : ServerKey) (strict : bool) : rst unit :=
  t ← now env;
  _ ← update_state env server (λ s, { s with ss_tls := tls_record_failure (ss_tls s) strict t });
  updating env (λ sh, { sh with sh_tls_streams :=
    delete (mk_pool_key server strict) (sh_tls_streams sh) }).

Definition record_bad_opt (server : ServerKey) (level : FeatureLevel) : rst FeatureLevel :=
  t ← now env;
  on_state env server (λ s,
    let '(low, f) := features_record_bad_opt (ss_features s) level t in
    (low, { s with ss_features := f; ss_transport := clear_failures (ss_transport s) })).

Definition record_do_off (server : ServerKey) (level : FeatureLevel) : rst FeatureLevel :=
  t ← now env;
  on_state env server (λ s,
    let '(low, f) := features_record_do_off (ss_features s) level t in
    (low, { s with ss_packet_do_off := true; ss_features := f;
                   ss_transport := clear_failures (ss_transport s) })).

Definition record_missing_root_rrsig (server : ServerKey) (allow_downgrade : bool) :
    rst FeatureLevel :=
  t ← now env;
  _ ← update_state env server (λ s,
    let s := { s with ss_missing_root_rrsig := true } in
    if allow_downgrade
    then { s with ss_features := downgrade_to (ss_features s) LevelEdns0 t;
                  ss_transport := clear_failures (ss_transport s) }
    else s);
  mret LevelEdns0.

Definition downgrade_feature (server : ServerKey) (level : FeatureLevel) : rst unit :=
  t ← now env;
  update_state env server (λ s,
    { s with ss_features := downgrade_to (ss_features s) level t;
             ss_transport := clear_failures (ss_transport s) }).

Definition record_transport_success (server : ServerKey) (mode : TransportMode) : rst unit :=
  update_state env server (λ s,
    { s with ss_transport := transport_record_success (ss_transport s) mode }).

Definition record_transport_failure (server : ServerKey) (mode : TransportMode) :
    rst (option TransportMode * Z) :=
  on_state env server (λ s,
    let '(switched, t) := transport_record_failure (ss_transport s) mode in
    ((switched, failures t mode), { s with ss_transport := t })).

Definition record_transport_truncated (server : ServerKey) : rst unit :=
  update_state env server (λ s, { s with ss_transport := record_truncated (ss_transport s) }).

Definition record_invalid_packet (server : ServerKey) : rst unit :=
  update_state env server (λ s, { s with ss_packet_invalid := true }).

Definition clear_transport_failures (server : ServerKey) : rst unit :=
  update_state env server (λ s, { s with ss_transport := clear_failures (ss_transport s) }).

Definition record_udp_packet (server : ServerKey) (dns_size fragment_size : Z) : rst unit :=
  update_state env server (λ s,
    { s with ss_transport := transport_record_udp_packet (ss_transport s) dns_size fragment_size
               (sock_is_ipv6 (sk_server server)) }).

(** ** Asking one server *)

Definition RCODE_FORMERR : Z := 1.
Definition RCODE_SERVFAIL : Z := 2.
Definition RCODE_NOTIMP : Z := 4.
Definition RCODE_BADVERS : Z := 16.
Definition EDNS_OPTION_EXTENDED_ERROR : Z := 15.
Definition EDE_NOT_READY : Z := 14.
Definition MAX_FEATURE_RETRIES : Z := 2.
Definition MAX_TRANSPORT_RETRIES : Z := 2.

Definition preferred_feature_level (mode : ValidationMode) : FeatureLevel :=
  match mode with ValidationNo => LevelEdns0 | _ => LevelDnssecOk end.

Definition extended_error_code (opt : OptRecord) : wres (option Z) :=
  match list_find (λ o, o_code o = EDNS_OPTION_EXTENDED_ERROR) (opt_options opt) with
  | None => Ok None
  | Some (_, option) =>
      bs ← ok_or (slice (o_data option) 0 2) InvalidRecord;
      code ← index_u16 bs 0;
      Ok (Some code)
  end.

Definition udp_requires_tcp_retry (truncated : bool) (fragment_size : Z) (level : FeatureLevel) :
    bool :=
  truncated || (negb (fragment_size =? 0) && level_lt LevelUdp level).

Definition rcode_requests_feature_downgrade (rcode : Z) : bool :=
  (rcode =? RCODE_FORMERR) || (rcode =? RCODE_SERVFAIL) || (rcode =? RCODE_NOTIMP).

(** The locals of the loop. *)
Record loop_state : Type := mk_loop {
  x_forced_level : option FeatureLevel;
  x_rcode_probe : bool;
  x_servfail_retried : bool;
  x_feature_retries : Z;
  x_transport_retries : Z;
}.

Definition loop_start : loop_state := mk_loop None false false 0 0.

(** [feature_retries += 1; forced_level = Some(level); continue]. *)
Definition retry_at (x : loop_state) (level : FeatureLevel) : loop_state :=
  { x with x_feature_retries := x_feature_retries x + 1; x_forced_level := Some level }.

(** An answer and how it came. *)
Record received : Type := mk_received {
  rx_response : bytes;
  rx_transport : TransportMode;
  rx_via_tls : bool;
}.

Section one_server.
Context (server : ServerKey) (query : bytes) (dnssec_mode : ValidationMode) (tls_mode : TlsMode).

Definition strict_dnssec : bool := bool_decide (dnssec_mode = ValidationYes).
Definition strict_tls : bool := bool_decide (tls_mode = TlsYes).
Definition uses_tls : bool := negb (bool_decide (tls_mode = TlsNo)).

(** The critical section that chooses the level, transport and payload size. *)
Definition choose_level (x : loop_state) (path_mtu : option Z) :
    rst (FeatureLevel * TransportMode * Z) :=
  t ← now env;
  on_state env server (λ s,
    let best_level :=
      if ss_missing_root_rrsig s && negb strict_dnssec then LevelEdns0
      else preferred_feature_level dnssec_mode in
    let '(level, f) :=
      match x_forced_level x with
      | Some level => (level, ss_features s)
      | None => possible_level (ss_features s) best_level t
      end in
    let payload_size :=
      dns_udp_payload_size path_mtu (sock_is_ipv6 (sk_server server))
        (ip_is_loopback (sock_ip (sk_server server)))
        (t_packet_fragmented (ss_transport s)) (t_received_udp_fragment_max (ss_transport s)) in
    ((level, t_mode (ss_transport s), payload_size), { s with ss_features := f })).

Definition is_io (e : ResolveError) : bool := match e with RIo _ => true | _ => false end.

Definition transmit_tls (x : loop_state) (packet : bytes) (remaining : Z) :
    rst (loop_state + received) :=
  r ← attempt (exchange_tls server packet remaining strict_tls);
  match r with
  | Ok response =>
      _ ← record_tls_success server;
      mret (inr (mk_received response ModeTcp true))
  | Err error =>
      if is_io error then
        _ ← record_tls_failure server strict_tls;
        if negb strict_tls then mret (inl x) else fail error
      else fail error
  | Panic => lift Panic
  | Diverge => lift Diverge
  end.

(** TCP after a truncated or fragmented UDP answer. *)
Definition transmit_tcp_retry (x : loop_state) (level : FeatureLevel) (packet : bytes) :
    rst (loop_state + received) :=
  remaining ← budget_remaining env;
  r ← attempt (exchange_tcp server packet remaining);
  match r with
  | Ok response =>
      _ ← record_transport_success server ModeTcp;
      mret (inr (mk_received response ModeTcp false))
  | Err error =>
      '(_, n) ← record_transport_failure server ModeTcp;
      if (TRANSPORT_RETRY_ATTEMPTS <=? n) && level_lt LevelUdp level && negb strict_dnssec
         && (x_feature_retries x <? MAX_FEATURE_RETRIES)
      then
        _ ← downgrade_feature server (lower level);
        mret (inl (retry_at x (lower level)))
      else fail error
  | Panic => lift Panic
  | Diverge => lift Diverge
  end.

(** After a UDP exchange that failed. *)
Definition udp_failed (x : loop_state) (level : FeatureLevel) (managed_opt : bool)
    (error : ResolveError) : rst (loop_state + received) :=
  low ←
    (if managed_opt && negb strict_dnssec then
       t ← now env;
       on_state env server (λ s,
         let '(low, f) := features_record_failure (ss_features s) level t in
         (low, { s with ss_features := f }))
     else mret None);
  match (if x_feature_retries x <? MAX_FEATURE_RETRIES then low else None) with
  | Some low =>
      _ ← clear_transport_failures server;
      mret (inl (retry_at x low))
  | None =>
      if bool_decide (level = LevelUdp) then
        '(switched, _) ← record_transport_failure server ModeUdp;
        if bool_decide (switched = Some ModeTcp) && (x_transport_retries x <? MAX_TRANSPORT_RETRIES)
        then mret (inl { x with x_transport_retries := x_transport_retries x + 1 })
        else fail error
      else fail error
  end.

Definition transmit_udp (x : loop_state) (level : FeatureLevel) (out : PreparedQuery)
    (remaining : Z) : rst (loop_state + received) :=
  r ← attempt (exchange_udp server (pq_packet out) remaining);
  match r with
  | Ok (response, fragment_size) =>
      _ ← record_udp_packet server (len response) fragment_size;
      header ← wire (header_parse response);
      if udp_requires_tcp_retry (truncated header) fragment_size level then
        _ ← record_transport_success server ModeUdp;
        _ ← (if truncated header then record_transport_truncated server else mret ());
        transmit_tcp_retry x level (pq_packet out)
      else
        _ ← record_transport_success server ModeUdp;
        mret (inr (mk_received response ModeUdp false))
  | Err error => udp_failed x level (pq_managed_opt out) error
  | Panic => lift Panic
  | Diverge => lift Diverge
  end.

Definition transmit_tcp (x : loop_state) (packet : bytes) (remaining : Z) :
    rst (loop_state + received) :=
  r ← attempt (exchange_tcp server packet remaining);
  match r with
  | Ok response =>
      _ ← record_transport_success server ModeTcp;
      mret (inr (mk_received response ModeTcp false))
  | Err error =>
      '(switched, _) ← record_transport_failure server ModeTcp;
      if bool_decide (switched = Some ModeUdp) && (x_transport_retries x <? MAX_TRANSPORT_RETRIES)
      then mret (inl { x with x_transport_retries := x_transport_retries x + 1 })
      else fail error
  | Panic => lift Panic
  | Diverge => lift Diverge
  end.

(** [return edns::response_for_client(query, &response)]. *)
Definition answer_client (response : bytes) : rst (loop_state + bytes) :=
  r ← wire (response_for_client query response); mret (inr r).

(** A response that cannot be read is remembered. *)
Definition or_invalid {A} (r : wres A) : rst A :=
  match r with
  | Ok a => mret a
  | Err e => _ ← record_invalid_packet server; fail (RWire e)
  | Panic => lift Panic
  | Diverge => lift Diverge
  end.

Definition retry_or_answer (x : loop_state) (low : FeatureLevel) (response : bytes) :
    rst (loop_state + bytes) :=
  if x_feature_retries x <? MAX_FEATURE_RETRIES then mret (inl (retry_at x low))
  else answer_client response.

(** The OPT record of the answer to a query with EDNS: [None] when it is as
    expected. *)
Definition check_opt (x : loop_state) (level : FeatureLevel) (opt : option OptRecord) (rcode : Z)
    (response : bytes) : rst (option (loop_state + bytes)) :=
  match opt with
  | None =>
      if strict_dnssec
      then fail (RProtocol (lit "DNS server omitted a required EDNS response"))
      else
        low ← record_bad_opt server level;
        r ← (if (rcode =? 0) || negb (rcode_requests_feature_downgrade rcode)
             then answer_client response
             else retry_or_answer x low response);
        mret (Some r)
  | Some opt =>
      if negb (opt_version opt =? 0) || (rcode =? RCODE_BADVERS) then
        if strict_dnssec
        then fail (RProtocol (lit "DNS server does not support the required EDNS version"))
        else low ← record_bad_opt server level; r ← retry_or_answer x low response; mret (Some r)
      else if level_dnssec_ok level && negb (opt_dnssec_ok opt) then
        if strict_dnssec
        then fail (RProtocol (lit "DNS server did not echo the EDNS DO flag"))
        else low ← record_do_off server level; r ← retry_or_answer x low response; mret (Some r)
      else mret None
  end.

Definition missing_signatures (x : loop_state) : rst (loop_state + bytes) :=
  low ← record_missing_root_rrsig server (negb strict_dnssec);
  if strict_dnssec
  then fail (RProtocol (lit "DNS server omitted required root RRSIG records"))
  else if x_feature_retries x <? MAX_FEATURE_RETRIES then mret (inl (retry_at x low))
  else fail (RProtocol (lit "DNS server repeatedly omitted required root RRSIG records")).

(** SERVFAIL: with an extended error, or retried once: [None] when it stands. *)
Definition check_servfail (x : loop_state) (level : FeatureLevel) (opt : option OptRecord)
    (response : bytes) : rst (option (loop_state + bytes)) :=
  ede ← match opt with Some opt => wire (extended_error_code opt) | None => mret None end;
  match ede with
  | Some ede =>
      if ede =? EDE_NOT_READY then mret (Some (inl { x with x_forced_level := Some level }))
      else r ← answer_client response; mret (Some r)
  | None =>
      if level_lt LevelUdp level && negb strict_dnssec && negb (x_servfail_retried x)
      then mret (Some (inl { x with x_servfail_retried := true; x_forced_level := Some level }))
      else mret None
  end.

Definition accept_response (x : loop_state) (level : FeatureLevel) (managed_opt : bool) (rcode : Z)
    (rx : received) : rst (loop_state + bytes) :=
  _ ← (if managed_opt then
         t ← now env;
         update_state env server (λ s,
           let s :=
             if x_rcode_probe x && negb (rcode_requests_feature_downgrade rcode)
             then { s with ss_features := downgrade_to (ss_features s) level t;
                           ss_transport := clear_failures (ss_transport s) }
             else s in
           let verified_level :=
             if bool_decide (rx_transport rx = ModeUdp) || rx_via_tls rx then level else LevelUdp in
           { s with ss_features := features_record_success (ss_features s) verified_level })
       else mret ());
  answer_client (rx_response rx).

Definition inspect_response (x : loop_state) (level : FeatureLevel) (out : PreparedQuery)
    (rx : received) : rst (loop_state + bytes) :=
  let response := rx_response rx in
  opt ← or_invalid (inspect_opt response);
  rcode ← or_invalid (full_rcode response opt);
  checked ←
    (if pq_managed_opt out && pq_sent_edns out then check_opt x level opt rcode response
     else mret None);
  match checked with
  | Some r => mret r
  | None =>
      missing ← (if pq_managed_opt out && level_dnssec_ok level
                 then wire (root_rrsig_missing response) else mret false);
      if missing : bool then missing_signatures x
      else
        failed ← (if rcode =? RCODE_SERVFAIL then check_servfail x level opt response
                  else mret None);
        match failed with
        | Some r => mret r
        | None =>
            if rcode_requests_feature_downgrade rcode && level_lt LevelUdp level
               && negb strict_dnssec && (x_feature_retries x <? MAX_FEATURE_RETRIES)
            then mret (inl { retry_at x (lower level) with x_rcode_probe := true })
            else accept_response x level (pq_managed_opt out) rcode rx
        end
  end.

(** One turn of the loop: go on, or return an answer. *)
Definition exchange_turn (x : loop_state) : rst (loop_state + bytes) :=
  possible ← (if uses_tls then server_tls_possible server strict_tls else mret false);
  let use_tls : bool := possible in
  path_mtu ← (if use_tls then mret None else udp_path_mtu server);
  '(level, transport, payload_size) ← choose_level x path_mtu;
  out ← wire (prepare_query query level payload_size);
  remaining ← begin_attempt env;
  sent ← (if use_tls then transmit_tls x (pq_packet out) remaining
          else match transport with
               | ModeUdp => transmit_udp x level out remaining
               | ModeTcp => transmit_tcp x (pq_packet out) remaining
               end);
  match sent with
  | inl x => mret (inl x)
  | inr rx => inspect_response x level out rx
  end.

(** Every turn takes one attempt of the budget. *)
Fixpoint exchange_loop (n : nat) (x : loop_state) : rst bytes :=
  match n with
  | O => lift Diverge
  | S n =>
      r ← exchange_turn x;
      match r with
      | inl x => exchange_loop n x
      | inr response => mret response
      end
  end.
End one_server.

Definition exchange_with_features (server : ServerKey) (query : bytes) : rst bytes :=
  dnssec_mode ← server_dnssec_mode env self server;
  tls_mode ← server_dns_over_tls_mode env self server;
  exchange_loop server query dnssec_mode tls_mode
    (S (Z.to_nat DNS_TRANSACTION_ATTEMPTS_MAX)) loop_start.
End exchange.
