(* ===== verification/Query.v ===== *)
(** * Queries

    The path of a query through the resolver: [resolver_query_on_link.rs] (refused
    types, static records, hosts, the cache, the scopes, the transaction shared by
    threads), [resolver_methods_03.rs] (the scopes and the servers of a scope),
    [resolver_redirect_follow.rs], [resolver_lookup_exact.rs] and the lookups of
    [resolver_methods_04.rs] and [resolver_lookup_public.rs].

    The threads of a [thread::scope] run one after the other, in the order in which
    their results arrive, each with the changes of other threads before each of
    its critical sections. *)

From S2P Require Import Prelude Stateful Text Net Sorting ConfigTypes Config Codec Packet Records.
From S2P Require Import Redirects WireDnssec CacheX Cache Routing Edns Transport Hosts Json.
From S2P Require Import StaticRecords Networkd Inflight World Servers Links Exchange.

(** ** Helpers of [resolver_support.rs] *)

Definition ends_with_dot (s : str) : bool := ends_with s [dot].

(** Add a candidate that is not there yet, whatever its case. *)
Definition push_candidate (candidates : list str) (c : str) : list str :=
  if existsb (λ e, eq_ignore_ascii_case e c) candidates then candidates else candidates ++ [c].

Definition lookup_candidates (name : str) (ds : list Domain) (single_label : bool) : list str :=
  let relative := trim_end_matches dot name in
  if bool_decide (relative = []) || ends_with_dot name || contains_char dot relative then [name]
  else
    let candidates := fold_left (λ acc d,
      if d_route_only d || bool_decide (d_name d = lit ".") then acc
      else push_candidate acc (relative ++ [dot] ++ d_name d)) ds [] in
    if single_label then push_candidate candidates relative else candidates.

Definition normalize_shared_response (response : bytes) : option bytes :=
  to_option (rewrite_id response 0).

Definition response_is_success (response : bytes) : bool :=
  match header_parse response with Ok h => response_code h =? 0 | _ => false end.

Definition rotate_left_32 (n : Z) : Z :=
  Z.lor (Z.land (Z.shiftl n 32) (2 ^ 64 - 1)) (Z.shiftr n 32).

Definition route_cache_id (generation : Z) (ifindex : option Z) : Z :=
  let ifindex := match ifindex with Some i => if 0 <=? i then i else 0 | None => 0 end in
  Z.lxor (rotate_left_32 generation) ifindex.

Definition RCODE_REFUSED : Z := 5.

Section query.
Context (env : Env) (self : Resolver) (fuel : nat) `{io : !IterOrder XKey CacheEntry}.

(** ** The servers of a scope *)

(** The locals of the loop over the attempts. *)
Record rounds : Type := mk_rounds {
  ro_attempted : gset ServerKey;
  ro_last_response : option (bytes * SocketAddr);
  ro_last_error : option ResolveError;
}.

(** [budget.exhausted() || budget.expired()]. *)
Definition budget_over : rst bool :=
  e ← budget_exhausted;
  if e : bool then mret true else budget_expired env.

Fixpoint server_rounds (n : nat) (keys : list ServerKey) (query : bytes) (s : rounds) :
    rst (rounds + bytes * SocketAddr) :=
  match n with
  | O => mret (inl s)
  | S n =>
      over ← budget_over;
      if over : bool then mret (inl s)
      else
        let attempted :=
          if bool_decide (size (ro_attempted s) = length keys) then ∅ else ro_attempted s in
        chosen ← select_server env keys attempted;
        match chosen with
        | None => mret (inl { s with ro_attempted := attempted })
        | Some key =>
            let s := { s with ro_attempted := {[ key ]} ∪ attempted } in
            started ← now env;
            r ← attempt (exchange_with_features env self fuel key query);
            match r with
            | Ok response =>
                finished ← now env;
                _ ← record_success env key (finished - started);
                header ← wire (header_parse response);
                if response_code header =? RCODE_REFUSED then
                  let s := { s with ro_last_response := Some (response, sk_server key) } in
                  if bool_decide (size (ro_attempted s) = length keys) then mret (inl s)
                  else server_rounds n keys query s
                else mret (inr (response, sk_server key))
            | Err error =>
                finished ← now env;
                _ ← record_failure env key (finished - started);
                let s := { s with ro_last_error := Some error } in
                over ← budget_over;
                if over : bool then mret (inl s) else server_rounds n keys query s
            | Panic => lift Panic
            | Diverge => lift Diverge
            end
        end
  end.

(** What is returned when no attempt gave an answer. *)
Definition rounds_result (s : rounds) : rst (bytes * SocketAddr) :=
  match ro_last_response s with
  | Some r => mret r
  | None =>
      expired ← budget_expired env;
      if expired : bool then fail (RIo (IoTimedOut (lit "DNS query timed out")))
      else
        exhausted ← budget_exhausted;
        if exhausted : bool then fail (RProtocol (lit "maximum DNS transaction attempts reached"))
        else fail (default RNoNameServers (ro_last_error s))
  end.

Definition query_servers (scope : ScopeKind) (servers : list SocketAddr) (query : bytes) :
    rst (bytes * SocketAddr) :=
  specs ← server_specs_for_scope env self scope servers;
  if bool_decide (specs = []) then fail RNoNameServers
  else
    let keys := server_keys_for_specs scope specs in
    _ ← budget_new env;
    r ← server_rounds (Z.to_nat (attempts (rs_config self))) keys query (mk_rounds ∅ None None);
    match r with
    | inr answer => mret answer
    | inl s => rounds_result s
    end.

(** ** The scopes of a query *)

(** [for result in receiver]: the first success, the last other response, the
    last error. *)
Record arrivals : Type := mk_arrivals {
  ar_success : option (bytes * SocketAddr);
  ar_response : option (bytes * SocketAddr);
  ar_error : option ResolveError;
}.

Definition arrive (a : arrivals) (r : rres (bytes * SocketAddr)) : arrivals :=
  match r with
  | Ok (response, server) =>
      if response_is_success response then
        match ar_success a with
        | None => { a with ar_success := Some (response, server) }
        | Some _ => a
        end
      else { a with ar_response := Some (response, server) }
  | Err e => { a with ar_error := Some e }
  | Panic | Diverge => a
  end.

Fixpoint run_scopes (scopes : list RouteScope) (query : bytes) (a : arrivals) : rst arrivals :=
  match scopes with
  | [] => mret a
  | s :: scopes =>
      r ← attempt (query_servers (sc_kind s) (sc_servers s) query);
      match r with
      | Panic => lift Panic
      | Diverge => lift Diverge
      | r => run_scopes scopes query (arrive a r)
      end
  end.

Definition query_scopes (scopes : list RouteScope) (query : bytes) : rst (bytes * SocketAddr) :=
  match scopes with
  | [s] => query_servers (sc_kind s) (sc_servers s) query
  | _ =>
      order ← next_event (λ n, arrival env n (length scopes));
      a ← run_scopes (omap (λ i, scopes !! i) order) query (mk_arrivals None None None);
      match ar_success a, ar_response a with
      | Some r, _ | None, Some r => mret r
      | None, None => fail (default RNoNameServers (ar_error a))
      end
  end.

(** ** One query *)

Definition static_records_answer (enabled : bool) (query : bytes) : rst (option bytes) :=
  if negb enabled then mret None
  else
    t ← now env;
    fs ← next_event (os_static_files env);
    fs' ← next_event (os_static_files env);
    r ← atomically env (λ sh,
      let '(r, s) := static_answer fs fs' t query (sh_static sh) in
      (Ok r, { sh with sh_static := s }));
    wire r.

Definition cache_get (key : CacheKey) (id : Z) (allow_stale : bool) : rst (option bytes) :=
  t ← now env;
  atomically env (λ sh,
    match dns_cache_get (sh_cache sh) key id allow_stale t with
    | Ok (r, c) => (Ok r, { sh with sh_cache := c })
    | Err e => match e with end
    | Panic => (Panic, sh)
    | Diverge => (Diverge, sh)
    end).

(** [let _ = self.cache.insert(...)]. *)
Definition cache_insert_response (key : CacheKey) (response : bytes) : rst unit :=
  t ← now env;
  atomically env (λ sh,
    match dns_cache_insert (sh_cache sh) key response t with
    | Ok (_, c) => (Ok (), { sh with sh_cache := c })
    | Err _ => (Ok (), sh)
    | Panic => (Panic, sh)
    | Diverge => (Diverge, sh)
    end).

Definition inflight_begin (key : InflightKey) : rst InflightRole :=
  atomically env (λ sh,
    let '(role, f) := begin key (sh_inflight sh) in (Ok role, { sh with sh_inflight := f })).

(** [transaction_leader.complete(response)], and its [Drop]. *)
Definition inflight_finish (key : InflightKey) (entry : nat) (response : option bytes) : rst unit :=
  _ ← updating env (λ sh, { sh with sh_inflight := finish_state entry response (sh_inflight sh) });
  updating env (λ sh, { sh with sh_inflight := finish_table key entry (sh_inflight sh) }).

(** [entry.wait()]: returns once the entry is not running. *)
Definition inflight_wait (entry : nat) : rst (option bytes) := λ w,
  let sh := while_blocked env (w_events w) entry (w_shared w) in
  let w := { w with w_shared := sh; w_events := S (w_events w) } in
  match wait_ready entry (sh_inflight sh) with
  | Some r => (Ok r, w)
  | None => (Diverge, w)
  end.

Definition relevant_scope (s : RouteScope) : rst bool :=
  match sc_kind s with
  | ScopeLink ifindex => networkd_link_relevant env ifindex
  | ScopeGlobal | ScopeFallback => mret true
  end.

Fixpoint filter_scopes (scopes : list RouteScope) : rst (list RouteScope) :=
  match scopes with
  | [] => mret []
  | s :: scopes =>
      keep ← relevant_scope s;
      rest ← filter_scopes scopes;
      mret (if keep : bool then s :: rest else rest)
  end.

(** The work of the leader; [None] when the transaction failed for good. *)
Definition lead (key : CacheKey) (id : Z) (scopes : list RouteScope) (query : bytes) :
    rst (rres bytes) :=
  r ← attempt (query_scopes scopes query);
  match r with
  | Ok (response, server) =>
      _ ← (if cache (rs_config self) &&
              (cache_from_localhost (rs_config self) || negb (ip_is_loopback (sock_ip server)))
           then cache_insert_response key response else mret ());
      mret (Ok response)
  | Err error =>
      let timed_out := is_timeout error in
      stale ← (if cache (rs_config self) then cache_get key id true else mret None);
      match stale with
      | Some response =>
          _ ← count env (λ c, { c with ct_cache_hits := u64_incr (ct_cache_hits c) });
          _ ← (if timed_out then
                 _ ← count env (λ c, { c with ct_timeouts := u64_incr (ct_timeouts c) });
                 count env (λ c, { c with ct_timeouts_served_stale :=
                   u64_incr (ct_timeouts_served_stale c) })
               else count env (λ c, { c with ct_failures_served_stale :=
                      u64_incr (ct_failures_served_stale c) }));
          mret (Ok response)
      | None =>
          _ ← (if timed_out
               then count env (λ c, { c with ct_timeouts := u64_incr (ct_timeouts c) })
               else mret ());
          _ ← count env (λ c, { c with ct_failures := u64_incr (ct_failures c) });
          mret (Err error)
      end
  | Panic => lift Panic
  | Diverge => lift Diverge
  end.

(** The loop over the roles: a follower of a leader that failed asks again. *)
Fixpoint transaction (n : nat) (ikey : InflightKey) (key : CacheKey) (id : Z)
    (scopes : list RouteScope) (query : bytes) : rst bytes :=
  match n with
  | O => lift Diverge
  | S n =>
      role ← inflight_begin ikey;
      match role with
      | Leader entry =>
          result ← lead key id scopes query;
          _ ← inflight_finish ikey entry
                (response ← to_option result; normalize_shared_response response);
          lift result
      | Follower entry =>
          response ← inflight_wait entry;
          match response with
          | Some response => wire (rewrite_id response id)
          | None => transaction n ikey key id scopes query
          end
      end
  end.

(** From the choice of the scopes on. *)
Definition ask_scopes (query : bytes) (header : Header) (question : Question)
    (ifindex : option Z) (route : Z) (key : CacheKey) : rst bytes :=
  selected ← reading env (λ sh,
    select (sh_routing sh) (name_text (q_name question)) ifindex (rs_global_servers self)
      (rs_fallback_servers self) (domains (rs_config self)));
  selected ← lift (map_err RLink selected);
  scopes ← filter_scopes selected;
  if bool_decide (scopes = []) then
    _ ← count env (λ c, { c with ct_failures := u64_incr (ct_failures c) });
    fail RNoNameServers
  else
    ikey ← wire (inflight_key route query);
    transaction fuel ikey key (h_id header) scopes query.

(** The static records and the hosts: the answer, if there is one. *)
Definition local_answers (query : bytes) (question : Question) : rst (option bytes) :=
  answer ← static_records_answer (read_static_records (rs_config self)) query;
  match answer with
  | Some response =>
      _ ← count env (λ c, { c with ct_local_answers := u64_incr (ct_local_answers c) });
      mret (Some response)
  | None =>
      records ← reading env (λ sh, hosts_lookup (sh_hosts sh) question);
      match records with
      | Some records =>
          _ ← count env (λ c, { c with ct_local_answers := u64_incr (ct_local_answers c) });
          response ← wire (local_response query records 0);
          mret (Some response)
      | None => mret None
      end
  end.

(** What runs while the transaction is counted as active. *)
Definition active_query (query : bytes) (mode : QueryMode) (header : Header) (question : Question)
    (ifindex : option Z) : rst bytes :=
  answer ← match mode with ModeFull => local_answers query question | ModeProxy => mret None end;
  match answer with
  | Some response => mret response
  | None =>
      generation ← reading env sh_routing_generation;
      let route := route_cache_id generation ifindex in
      let key := mk_key (canonical_wire (q_name question)) (q_rr_type question) (q_class question)
                   (checking_disabled header) route in
      hit ← (if cache (rs_config self) then cache_get key (h_id header) false else mret None);
      match hit with
      | Some response =>
          _ ← count env (λ c, { c with ct_cache_hits := u64_incr (ct_cache_hits c) });
          mret response
      | None =>
          _ ← (if cache (rs_config self)
               then count env (λ c, { c with ct_cache_misses := u64_incr (ct_cache_misses c) })
               else mret ());
          ask_scopes query header question ifindex route key
      end
  end.

Definition query_on_link (query : bytes) (mode : QueryMode) (ifindex : option Z) : rst bytes :=
  _ ← wire (validate query false);
  header ← wire (header_parse query);
  question ← wire (first_question query);
  match (i ← ifindex; if i <? 0 then Some i else None) with
  | Some i => fail (RLink (InvalidIfindex i))
  | None =>
      if bool_decide (q_rr_type question ∈ refuse_record_types (rs_config self))
      then wire (refused_for query)
      else
        _ ← count env (λ c, { c with ct_transactions := u64_incr (ct_transactions c) });
        _ ← count env (λ c, { c with ct_current_transactions :=
              u64_incr (ct_current_transactions c) });
        r ← attempt (active_query query mode header question ifindex);
        _ ← count env (λ c, { c with ct_current_transactions :=
              (ct_current_transactions c - 1) mod 2 ^ 64 });
        lift r
  end.

Definition resolver_query (query : bytes) (mode : QueryMode) : rst bytes :=
  query_on_link query mode None.

Definition query_or_servfail (query : bytes) (mode : QueryMode) : rst bytes :=
  r ← attempt (resolver_query query mode);
  match r with
  | Ok response => mret response
  | Err _ => wire (servfail_for query)
  | Panic => lift Panic
  | Diverge => lift Diverge
  end.
End query.
