(* ===== verification/Lookup.v ===== *)
(** * Lookups

    What clients of the resolver call: [resolver_redirect_follow.rs] (a question
    asked again for the target of a redirection), [resolver_lookup_exact.rs]
    (the addresses of a name), the search over candidate names of
    [resolver_methods_04.rs], and [resolver_lookup_public.rs] (reverse lookups,
    records, maintenance, statistics and the state of the servers). *)

From S2P Require Import Prelude Stateful Text Net Sorting ConfigTypes Config Codec Packet Records.
From S2P Require Import Redirects CacheX Cache Routing Edns Transport Policy Hosts Json.
From S2P Require Import StaticRecords Networkd Inflight World Servers Links Exchange Query.

Record NameLookup : Type := mk_name_lookup {
  nl_addresses : list IpAddr;
  nl_canonical_name : str;
  nl_flags : Z;
}.

Record AddressLookup : Type := mk_address_lookup {
  al_names : list str;
  al_flags : Z;
}.

Definition CNAME_LOOP_PROTOCOL_ERROR : str := lit "CNAME or DNAME redirect loop".

Definition cname_loop : ResolveError := RWire CnameLoop.

Section lookup.
Context (env : Env) (self : Resolver) (fuel : nat) `{io : !IterOrder XKey CacheEntry}.

(** [fetch_add] on an [AtomicU16]. *)
Definition transaction_id : rst Z :=
  atomically env (λ sh,
    (Ok (sh_next_id sh), { sh with sh_next_id := (sh_next_id sh + 1) mod 2 ^ 16 })).

(** ** Redirections across transactions *)

(** The response for the question at the end of a chain; [visited] are the
    names asked so far. *)
Fixpoint redirects_loop (n : nat) (name : str) (class rr_type : Z) (ifindex : option Z)
    (visited : gset bytes) (redirects : Z) : rst (bytes * str) :=
  match n with
  | O => lift Diverge
  | S n =>
      id ← transaction_id;
      query ← wire (make_query_with_class name rr_type class id);
      question ← wire (first_question query);
      let asked := canonical_wire (q_name question) in
      if bool_decide (asked ∈ visited) then fail cname_loop
      else
        response ← query_on_link env self fuel query ModeFull ifindex;
        header ← wire (header_parse response);
        let rcode := response_code header in
        if negb (rcode =? 0) then fail (RDnsError rcode name)
        else
          answer ← wire (classify_redirect_answer response);
          match answer with
          | Direct canonical_name packet_redirects =>
              if CNAME_REDIRECTS_MAX <? redirects + packet_redirects then fail cname_loop
              else mret (response, canonical_name)
          | Redirect canonical_name packet_redirects =>
              if packet_redirects =? 0 then fail (RProtocol CNAME_LOOP_PROTOCOL_ERROR)
              else if CNAME_REDIRECTS_MAX <? redirects + packet_redirects then fail cname_loop
              else redirects_loop n canonical_name class rr_type ifindex ({[asked]} ∪ visited)
                     (redirects + packet_redirects)
          | NoData => fail RNoSuchResourceRecord
          end
  end.

(** Every transaction but the last follows at least one of at most 16
    redirections, so 18 rounds are enough. *)
Definition query_following_redirects (name : str) (class rr_type : Z) (ifindex : option Z) :
    rst (bytes * str) :=
  redirects_loop 18 name class rr_type ifindex ∅ 0.

(** ** The addresses of a name *)

(** What one thread sends: the place of its type, the type and its result. *)
Abbreviation type_outcome := (nat * (Z * rres (bytes * str)))%type.

Fixpoint run_types (name : str) (ifindex : option Z) (types : list (nat * Z)) :
    rst (list type_outcome) :=
  match types with
  | [] => mret []
  | (index, rr_type) :: types =>
      r ← attempt (query_following_redirects name CLASS_IN rr_type ifindex);
      match r with
      | Panic => lift Panic
      | Diverge => lift Diverge
      | r => rest ← run_types name ifindex types; mret ((index, (rr_type, r)) :: rest)
      end
  end.

Definition index_le (a b : type_outcome) : bool := (a.1 <=? b.1)%nat.

Definition type_outcomes (name : str) (types : list Z) (ifindex : option Z) :
    rst (list (Z * rres (bytes * str))) :=
  let indexed := imap (λ i rr_type, (i, rr_type)) types in
  if (1 <? length types)%nat then
    order ← next_event (λ n, arrival env n (length types));
    outcomes ← run_types name ifindex (omap (λ i, indexed !! i) order);
    mret (snd <$> sort_by index_le outcomes)
  else
    outcomes ← run_types name ifindex indexed;
    mret (snd <$> outcomes).

(** The locals of the loop over the outcomes. *)
Record gathered : Type := mk_gathered {
  ga_addresses : list IpAddr;
  ga_canonical_name : option str;
  ga_last_error : option ResolveError;
}.

Definition response_family (rr_type : Z) : option Z :=
  if rr_type =? TYPE_A then Some 2 else if rr_type =? TYPE_AAAA then Some 10 else None.

Definition gather (g : gathered) (outcome : Z * rres (bytes * str)) : rres gathered :=
  let '(rr_type, result) := outcome in
  match result with
  | Ok (response, followed_name) =>
      records ← map_err RWire (extract_address_records response (response_family rr_type));
      let named :=
        if negb (bool_decide (Records.addresses records = [])) && negb (bool_decide (is_Some (ga_canonical_name g)))
        then Some (if bool_decide (Records.canonical_name records = []) then followed_name
                   else Records.canonical_name records)
        else ga_canonical_name g in
      Ok { g with ga_addresses := foldl push_new (ga_addresses g) (Records.addresses records);
                  ga_canonical_name := named }
  | Err error => Ok { g with ga_last_error := Some error }
  | Panic => Panic
  | Diverge => Diverge
  end.

Fixpoint gather_all (g : gathered) (outcomes : list (Z * rres (bytes * str))) : rres gathered :=
  match outcomes with
  | [] => Ok g
  | o :: outcomes => g ← gather g o; gather_all g outcomes
  end.

Definition lookup_name_exact (name : str) (types : list Z) (ifindex : option Z) : rst NameLookup :=
  outcomes ← type_outcomes name types ifindex;
  g ← lift (gather_all (mk_gathered [] None None) outcomes);
  if bool_decide (ga_addresses g = []) then fail (default RNoSuchResourceRecord (ga_last_error g))
  else mret (mk_name_lookup (ga_addresses g)
               (default (trim_end_matches dot name) (ga_canonical_name g)) 0).

(** Whether the hosts have the name, for one of the types. *)
Fixpoint local_name (hosts : Hosts) (name : str) (types : list Z) : wres bool :=
  match types with
  | [] => Ok false
  | rr_type :: types =>
      query ← make_query name rr_type 0;
      question ← first_question query;
      if bool_decide (is_Some (hosts_lookup hosts question)) then Ok true
      else local_name hosts name types
  end.

Definition has_local_name (name : str) (types : list Z) : rst bool :=
  r ← reading env (λ sh, local_name (sh_hosts sh) name types);
  wire r.

Fixpoint lookup_first (candidates : list str) (types : list Z) (ifindex : option Z)
    (last_error : option ResolveError) : rst NameLookup :=
  match candidates with
  | [] => fail (default RNoSuchResourceRecord last_error)
  | c :: candidates =>
      r ← attempt (lookup_name_exact c types ifindex);
      match r with
      | Ok result => mret result
      | Err error => lookup_first candidates types ifindex (Some error)
      | Panic => lift Panic
      | Diverge => lift Diverge
      end
  end.

Definition family_types (family : Z) : option (list Z) :=
  if family =? 0 then Some [TYPE_A; TYPE_AAAA]
  else if family =? 2 then Some [TYPE_A]
  else if family =? 10 then Some [TYPE_AAAA] else None.

Definition lookup_name_on_link (name : str) (family : Z) (ifindex : option Z) : rst NameLookup :=
  match family_types family with
  | None => fail (RUnsupportedFamily family)
  | Some types =>
      found ← has_local_name name types;
      if found : bool then lookup_name_exact name types ifindex
      else
        ds ← resolver_search_domains env self ifindex;
        lookup_first (lookup_candidates name ds (resolve_unicast_single_label (rs_config self)))
          types ifindex None
  end.

Definition lookup_name (name : str) (family : Z) : rst NameLookup :=
  lookup_name_on_link name family None.

(** ** Reverse lookups and records *)

Definition lookup_address_on_link (a : IpAddr) (ifindex : option Z) : rst AddressLookup :=
  '(response, _) ← query_following_redirects (reverse_name a) CLASS_IN TYPE_PTR ifindex;
  names ← wire (extract_ptr_names response);
  if bool_decide (names = []) then fail RNoSuchResourceRecord
  else mret (mk_address_lookup names 0).

Definition lookup_address (a : IpAddr) : rst AddressLookup := lookup_address_on_link a None.

Definition resolve_record_on_link (name : str) (class rr_type : Z) (ifindex : option Z) :
    rst bytes :=
  '(response, _) ← query_following_redirects name class rr_type ifindex;
  mret response.

Definition resolve_record_with_class (name : str) (class rr_type : Z) : rst bytes :=
  resolve_record_on_link name class rr_type None.

Definition resolve_record (name : str) (rr_type : Z) : rst bytes :=
  resolve_record_with_class name CLASS_IN rr_type.

(** ** Maintenance *)

Definition reload_hosts : rst unit :=
  hosts ← (if read_etc_hosts (rs_config self) then
             os (λ n, hosts_load (os_read_file env n (hosts_path (rs_config self))))
           else mret hosts_default);
  _ ← updating env (λ sh, { sh with sh_hosts := hosts });
  updating env (λ sh, { sh with sh_static := invalidate (sh_static sh) }).

Definition flush_cache : rst unit :=
  updating env (λ sh, { sh with sh_cache := dns_cache_flush (sh_cache sh) }).

Definition reset_server_state (s : ServerState) : ServerState :=
  { s with ss_metric := metric_default; ss_cooldown_until := None;
           ss_features := features_reset (ss_features s); ss_tls := tls_default;
           ss_transport := transport_reset (ss_transport s); ss_missing_root_rrsig := false;
           ss_packet_do_off := false; ss_packet_invalid := false }.

Definition reset_server_features : rst unit :=
  updating env (λ sh, { sh with sh_states := reset_server_state <$> sh_states sh }).

(** Every counter but that of the running transactions. *)
Definition reset_statistics : rst unit :=
  _ ← count env (λ c, { c with ct_transactions := 0 });
  _ ← count env (λ c, { c with ct_timeouts := 0 });
  _ ← count env (λ c, { c with ct_timeouts_served_stale := 0 });
  _ ← count env (λ c, { c with ct_failures_served_stale := 0 });
  _ ← count env (λ c, { c with ct_cache_hits := 0 });
  _ ← count env (λ c, { c with ct_cache_misses := 0 });
  _ ← count env (λ c, { c with ct_failures := 0 });
  count env (λ c, { c with ct_local_answers := 0 }).

Record ResolverStats : Type := mk_stats {
  rt_counters : Counters;
  rt_cache_entries : Z;
}.

Definition read_counter (f : Counters → Z) : rst Z := reading env (λ sh, f (sh_counters sh)).

Definition stats : rst ResolverStats :=
  current ← read_counter ct_current_transactions;
  transactions ← read_counter ct_transactions;
  timeouts ← read_counter ct_timeouts;
  timeouts_stale ← read_counter ct_timeouts_served_stale;
  failures_stale ← read_counter ct_failures_served_stale;
  hits ← read_counter ct_cache_hits;
  misses ← read_counter ct_cache_misses;
  failures ← read_counter ct_failures;
  local ← read_counter ct_local_answers;
  entries ← reading env (λ sh, dns_cache_len (sh_cache sh));
  mret (mk_stats (mk_counters current transactions timeouts timeouts_stale failures_stale hits misses
                    failures local) entries).

Definition resolver_cache_snapshot : rst (list CacheSnapshot) :=
  t ← now env;
  reading env (λ sh, dns_cache_snapshot (sh_cache sh) t).

(** ** The state of the servers *)

Record ServerStateDescriptor : Type := mk_descriptor {
  sd_key : ServerKey;
  sd_spec : DnsServerSpec;
  sd_server_type : str;
  sd_interface : option str;
  sd_interface_index : option Z;
  sd_dnssec_mode : ValidationMode;
  sd_dns_over_tls_mode : TlsMode;
}.

Record ResolverServerState : Type := mk_resolver_state {
  st_server : str;
  st_server_type : str;
  st_interface : option str;
  st_interface_index : option Z;
  st_verified_feature_level : str;
  st_possible_feature_level : str;
  st_dnssec_mode : str;
  st_dnssec_supported : bool;
  st_received_udp_fragment_max : Z;
  st_failed_udp_attempts : Z;
  st_failed_tcp_attempts : Z;
  st_packet_truncated : bool;
  st_packet_bad_opt : bool;
  st_packet_rrsig_missing : bool;
  st_packet_invalid : bool;
  st_packet_do_off : bool;
}.

Definition server_state_descriptors (scope : ScopeKind) (specs : list DnsServerSpec)
    (server_type : str) (link : option (option str * Z)) (dm : ValidationMode) (tm : TlsMode) :
    list ServerStateDescriptor :=
  zip_with (λ key spec,
    let '(interface, index) :=
      match link with
      | None => (None, None)
      | Some (name, ifindex) =>
          (match name with Some n => Some n | None => ConfigTypes.interface spec end, Some ifindex)
      end in
    mk_descriptor key spec server_type interface index dm tm)
    (server_keys_for_specs scope specs) specs.

Definition format_server_spec (spec : DnsServerSpec) : str :=
  let a := address spec in
  let output :=
    if sock_port a =? 53 then show_ip (sock_ip a)
    else if sock_is_ipv6 a
    then lit "[" ++ show_ip (sock_ip a) ++ lit "]:" ++ show_unsigned (sock_port a)
    else show_ip (sock_ip a) ++ lit ":" ++ show_unsigned (sock_port a) in
  let output :=
    match ConfigTypes.interface spec with Some i => output ++ lit "%" ++ i | None => output end in
  match server_name spec with Some n => output ++ lit "#" ++ n | None => output end.

Definition resolver_feature_level_name (level : FeatureLevel) (transport : TransportMode)
    (tls : bool) : str :=
  if tls then
    match level with LevelDnssecOk => lit "TLS+EDNS0+DO" | _ => lit "TLS+EDNS0" end
  else
    match level, transport with
    | LevelDnssecOk, _ => lit "UDP+EDNS0+DO"
    | LevelEdns0, _ => lit "UDP+EDNS0"
    | LevelUdp, ModeTcp => lit "TCP"
    | LevelUdp, ModeUdp => lit "UDP"
    end.

Definition resolver_validation_mode_name (mode : ValidationMode) : str :=
  match mode with
  | ValidationNo => lit "no"
  | AllowDowngrade => lit "allow-downgrade"
  | ValidationYes => lit "yes"
  end.

Definition describe_server (states : gmap ServerKey ServerState) (d : ServerStateDescriptor) :
    ResolverServerState :=
  let state := default server_state_default (states !! sd_key d) in
  let with_tls := negb (bool_decide (sd_dns_over_tls_mode d = TlsNo)) in
  let strict := bool_decide (sd_dnssec_mode d = ValidationYes) in
  let failed_tcp := failures (ss_transport state) ModeTcp in
  let bad_opt := f_bad_opt (ss_features state) in
  let supported :=
    strict || (negb bad_opt && negb (ss_missing_root_rrsig state) && negb (ss_packet_do_off state)
               && (failed_tcp <? TRANSPORT_RETRY_ATTEMPTS)) in
  let best := if bool_decide (sd_dnssec_mode d = ValidationNo) then LevelEdns0 else LevelDnssecOk in
  let mode := t_mode (ss_transport state) in
  {| st_server := format_server_spec (sd_spec d);
     st_server_type := sd_server_type d;
     st_interface := sd_interface d;
     st_interface_index := sd_interface_index d;
     st_verified_feature_level :=
       if f_verified_once (ss_features state)
       then resolver_feature_level_name (f_verified (ss_features state)) mode
              (with_tls && tls_verified (ss_tls state))
       else lit "n/a";
     st_possible_feature_level :=
       resolver_feature_level_name (level_min (f_possible (ss_features state)) best) mode
         (with_tls && tls_can (ss_tls state));
     st_dnssec_mode := resolver_validation_mode_name (sd_dnssec_mode d);
     st_dnssec_supported := supported;
     st_received_udp_fragment_max := t_received_udp_fragment_max (ss_transport state);
     st_failed_udp_attempts := failures (ss_transport state) ModeUdp;
     st_failed_tcp_attempts := failed_tcp;
     st_packet_truncated := t_packet_truncated (ss_transport state);
     st_packet_bad_opt := bad_opt;
     st_packet_rrsig_missing := ss_missing_root_rrsig state;
     st_packet_invalid := ss_packet_invalid state;
     st_packet_do_off := ss_packet_do_off state |}.

Fixpoint link_descriptors (links : list LinkState) : rst (list ServerStateDescriptor) :=
  match links with
  | [] => mret []
  | link :: links =>
      specs ← link_dns_specs env (l_ifindex link);
      rest ← link_descriptors links;
      mret (server_state_descriptors (ScopeLink (l_ifindex link)) specs (lit "link")
              (Some (kl_ifname <$> l_kernel link, l_ifindex link)) (l_dnssec link)
              (l_dns_over_tls link) ++ rest)
  end.

Definition server_state_snapshot : rst (list ResolverServerState) :=
  let c := rs_config self in
  let system := server_state_descriptors ScopeGlobal (configured_upstream_specs c) (lit "system")
                  None (dnssec c) (dns_over_tls c) in
  let fallback := server_state_descriptors ScopeFallback (configured_fallback_upstream_specs c)
                    (lit "fallback") None (dnssec c) (dns_over_tls c) in
  links ← reading env (λ sh, table_links (sh_routing sh));
  by_link ← link_descriptors links;
  reading env (λ sh, describe_server (sh_states sh) <$> (system ++ fallback ++ by_link)).
End lookup.

(** ** A new resolver *)

Definition initial_states (scope : ScopeKind) (servers : list SocketAddr)
    (states : gmap ServerKey ServerState) : gmap ServerKey ServerState :=
  foldl (λ m s, let k := key_new scope s in
                <[k := default server_state_default (m !! k)]> m) states servers.

(** From the configuration and what reading the hosts file gave. *)
Definition resolver_new (c : Config) (hosts_file : IoError + option str) :
    outcome Empty_set (Resolver * Shared) :=
  let global := configured_upstreams c in
  let fallback := configured_fallback_upstreams c in
  let hosts :=
    if read_etc_hosts c
    then match hosts_load hosts_file with inr h => h | inl _ => hosts_default end
    else hosts_default in
  cache ← new_dns_cache (cache_size c) (cache_max_ttl c) (stale_retention c) (cache_negative c);
  Ok (mk_resolver c global fallback,
      {| sh_states := initial_states ScopeFallback fallback (initial_states ScopeGlobal global ∅);
         sh_udp_sockets := ∅; sh_tcp_streams := ∅; sh_tls_streams := ∅;
         sh_routing := table_default; sh_networkd_links := ∅; sh_link_server_specs := ∅;
         sh_routing_generation := 1; sh_cache := cache; sh_hosts := hosts;
         sh_static := static_records_system true; sh_inflight := inflight_default;
         sh_next_id := 1; sh_counters := mk_counters 0 0 0 0 0 0 0 0 0 |}).
