(* ===== verification/Daemon.v ===== *)
(** * The stub resolver's sockets

    Models [src/daemon.rs]: the sockets it binds, the dispatch of datagrams to
    the queues of the workers and the workers, as threads that take a step at a
    time, the clients over TCP, the watchdog
    and the main loop.  Sockets are numbers; what the system does at an event is
    a function of the number of the event.  Messages to the journal and pauses
    have no effect here. *)

From S2P Require Import Prelude Stateful Text Net Sorting ConfigTypes Codec CacheX World Query Lookup.

Definition MAX_UDP_PACKET : Z := 65535.
Definition UDP_QUEUE_PER_WORKER : Z := 256.

(** ** Errors of the system *)

Definition EINTR : Z := 4.
Definition EPIPE : Z := 32.
Definition EADDRINUSE : Z := 98.
Definition ECONNRESET : Z := 104.

Definition is_addr_in_use (e : IoError) : bool :=
  match e with IoOs n => n =? EADDRINUSE | _ => false end.

(** The kinds after which a listener waits again. *)
Definition is_transient (e : IoError) : bool :=
  match e with
  | IoWouldBlock | IoTimedOut _ => true
  | IoOs n => n =? EINTR
  | _ => false
  end.

(** The kinds that end a connection without an error. *)
Definition is_closed (e : IoError) : bool :=
  match e with
  | IoUnexpectedEof _ => true
  | IoOs n => (n =? ECONNRESET) || (n =? EPIPE)
  | _ => false
  end.

(** ** The queues of the workers *)

Record UdpEndpoint : Type := mk_udp_endpoint {
  ue_socket : Z;
  ue_mode : QueryMode;
}.

Record TcpEndpoint : Type := mk_tcp_endpoint {
  te_listener : Z;
  te_mode : QueryMode;
}.

Record UdpJob : Type := mk_job {
  uj_socket : Z;
  uj_packet : bytes;
  uj_peer : SocketAddr;
  uj_mode : QueryMode;
}.

(** A bounded channel: the jobs sent and not yet received, and whether its
    receiver still exists. *)
Record channel : Type := mk_channel {
  ch_jobs : list UdpJob;
  ch_open : bool;
}.

Inductive sending : Type := Sent (c : channel) | SendFull | SendDisconnected.

(** [SyncSender::try_send]. *)
Definition try_send (c : channel) (job : UdpJob) : sending :=
  if negb (ch_open c) then SendDisconnected
  else if UDP_QUEUE_PER_WORKER <=? len (ch_jobs c) then SendFull
  else Sent (mk_channel (ch_jobs c ++ [job]) true).

(** [next] is a [usize] that wraps around. *)
Record UdpDispatcher : Type := mk_dispatcher {
  ud_senders : list channel;
  ud_next : Z;
}.

Definition dispatcher_new (senders : list channel) : UdpDispatcher := mk_dispatcher senders 0.

(** Where a call of [dispatch] is: about to try the channel at [offset] from
    [start], or returned.  Each step makes one access to what the threads share. *)
Inductive dispatching : Type :=
  | DispatchAt (start offset : Z) (connected : bool)
  | Dispatched (result : bool).

(** [next.fetch_add], unless there are no channels. *)
Definition dispatch_begin (d : UdpDispatcher) : dispatching * UdpDispatcher :=
  if bool_decide (ud_senders d = []) then (Dispatched false, d)
  else (DispatchAt (ud_next d mod len (ud_senders d)) 0 false,
        mk_dispatcher (ud_senders d) ((ud_next d + 1) mod 2 ^ 64)).

Definition dispatch_index (d : UdpDispatcher) (start offset : Z) : nat :=
  Z.to_nat ((start + offset) mod len (ud_senders d)).

(** One round of the loop, with its [try_send], or the return after the last. *)
Definition dispatch_try (d : UdpDispatcher) (job : UdpJob) (start offset : Z) (connected : bool) :
    dispatching * UdpDispatcher :=
  if len (ud_senders d) <=? offset then (Dispatched connected, d)
  else
    let index := dispatch_index d start offset in
    match ud_senders d !! index with
    | None => (Dispatched connected, d)
    | Some c =>
        match try_send c job with
        | Sent c => (Dispatched true, mk_dispatcher (<[index := c]> (ud_senders d)) (ud_next d))
        | SendFull => (DispatchAt start (offset + 1) true, d)
        | SendDisconnected => (DispatchAt start (offset + 1) connected, d)
        end
    end.

(** ** Receiving datagrams *)

(** Where a listener is: at the head of its loop, in [dispatch], or returned. *)
Inductive listener_at : Type :=
  | ListenerLoop
  | ListenerDispatch (job : UdpJob) (start offset : Z) (connected : bool)
  | ListenerStopped.

(** [if !dispatcher.dispatch(job) { break; }] *)
Definition after_dispatch (job : UdpJob) (r : dispatching) : listener_at :=
  match r with
  | DispatchAt start offset connected => ListenerDispatch job start offset connected
  | Dispatched true => ListenerLoop
  | Dispatched false => ListenerStopped
  end.

Definition received_job (endpoint : UdpEndpoint) (packet : bytes) (peer : SocketAddr) : UdpJob :=
  mk_job (ue_socket endpoint) (take (Z.to_nat MAX_UDP_PACKET) packet) peer (ue_mode endpoint).

(** The steps of a listener at the head of its loop, given whether a stop was
    requested and what the socket returned, and in [dispatch]. *)
Definition udp_listener (endpoint : UdpEndpoint) (stop : bool) (received : io (bytes * SocketAddr))
    (d : UdpDispatcher) : listener_at * UdpDispatcher :=
  if stop then (ListenerStopped, d)
  else
    match received with
    | inr (packet, peer) =>
        let '(r, d) := dispatch_begin d in (after_dispatch (received_job endpoint packet peer) r, d)
    | inl _ => (ListenerLoop, d)
    end.

Definition udp_listener_dispatch (job : UdpJob) (start offset : Z) (connected : bool)
    (d : UdpDispatcher) : listener_at * UdpDispatcher :=
  let '(r, d) := dispatch_try d job start offset connected in (after_dispatch job r, d).

(** ** The watchdog *)

(** In nanoseconds. *)
Definition watchdog_interval (watchdog_usec watchdog_pid : option str) (current_pid : Z) : option Z :=
  let pid_matches :=
    match watchdog_pid with
    | None => true
    | Some pid => bool_decide (parse_unsigned u32_max pid = Some current_pid)
    end in
  if pid_matches then
    usec ← watchdog_usec ≫= parse_unsigned u64_max;
    if usec =? 0 then None else Some (Z.max (usec / 2) 1 * 1000)
  else None.

Record Watchdog : Type := mk_watchdog {
  wd_interval : Z;
  wd_next : Z;
}.

(** [Watchdog::from_environment], once the interval is known. *)
Definition watchdog_start (interval now : Z) : option Watchdog :=
  mk_watchdog interval <$> instant_checked_add now interval.

(** Whether the watchdog is notified. *)
Definition ping_if_due (w : Watchdog) (now : Z) : bool * Watchdog :=
  if now <? wd_next w then (false, w) else 
    (true, mk_watchdog (wd_interval w) (default now (instant_checked_add now (wd_interval w)))).

Definition sleep_duration (w : option Watchdog) : Z :=
  match w with
  | Some w => Z.min (wd_interval w) (200 * 1000000)
  | None => 200 * 1000000
  end.

(** ** Sockets, workers and clients *)

Record StubOs : Type := mk_stub_os {
  so_bind_udp : nat → SocketAddr → io Z;
  so_read_timeout : nat → Z → io unit;
  so_bind_tcp : nat → SocketAddr → io Z;
  so_nonblocking : nat → Z → io unit;
  so_send_to : nat → Z → SocketAddr → bytes → io unit;
  so_stream_timeout : nat → Z → io unit;
  so_write : nat → bytes → io unit;
}.

Section daemon.
Context (env : Env) (self : Resolver) (fuel : nat) `{order : !IterOrder XKey CacheEntry}.
Context (so : StubOs).

Definition bind_udp (address : SocketAddr) (mode : QueryMode) (ignore_addr_in_use : bool)
    (endpoints : list UdpEndpoint) : rst (io (list UdpEndpoint)) :=
  r ← next_event (λ n, so_bind_udp so n address);
  match r with
  | inr socket =>
      r ← next_event (λ n, so_read_timeout so n socket);
      mret match r with
           | inr _ => inr (endpoints ++ [mk_udp_endpoint socket mode])
           | inl e => inl e
           end
  | inl e => mret (if ignore_addr_in_use && is_addr_in_use e then inr endpoints else inl e)
  end.

Definition bind_tcp (address : SocketAddr) (mode : QueryMode) (ignore_addr_in_use : bool)
    (endpoints : list TcpEndpoint) : rst (io (list TcpEndpoint)) :=
  r ← next_event (λ n, so_bind_tcp so n address);
  match r with
  | inr listener =>
      r ← next_event (λ n, so_nonblocking so n listener);
      mret match r with
           | inr _ => inr (endpoints ++ [mk_tcp_endpoint listener mode])
           | inl e => inl e
           end
  | inl e => mret (if ignore_addr_in_use && is_addr_in_use e then inr endpoints else inl e)
  end.

Fixpoint bind_endpoints (addresses : list SocketAddr) (mode : QueryMode)
    (udp_enabled tcp_enabled ignore_addr_in_use : bool)
    (udp : list UdpEndpoint) (tcp : list TcpEndpoint) :
    rst (io (list UdpEndpoint * list TcpEndpoint)) :=
  match addresses with
  | [] => mret (inr (udp, tcp))
  | address :: addresses =>
      r ← (if udp_enabled then bind_udp address mode ignore_addr_in_use udp else mret (inr udp));
      match r with
      | inl e => mret (inl e)
      | inr udp =>
          r ← (if tcp_enabled then bind_tcp address mode ignore_addr_in_use tcp else mret (inr tcp));
          match r with
          | inl e => mret (inl e)
          | inr tcp =>
              bind_endpoints addresses mode udp_enabled tcp_enabled ignore_addr_in_use udp tcp
          end
      end
  end.

Fixpoint bind_extra (extra : list DnsStubListenerExtra) (udp : list UdpEndpoint)
    (tcp : list TcpEndpoint) : rst (io (list UdpEndpoint * list TcpEndpoint)) :=
  match extra with
  | [] => mret (inr (udp, tcp))
  | listener :: extra =>
      r ← bind_endpoints [extra_address listener] ModeFull (udp_enabled (extra_mode listener))
            (tcp_enabled (extra_mode listener)) false udp tcp;
      match r with
      | inl e => mret (inl e)
      | inr (udp, tcp) => bind_extra extra udp tcp
      end
  end.

(** The sockets of [run_stub]. *)
Definition bind_stub : rst (io (list UdpEndpoint * list TcpEndpoint)) :=
  let c := rs_config self in
  let mode := dns_stub_listener c in
  r ← bind_endpoints (listeners c) ModeFull (udp_enabled mode) (tcp_enabled mode) true [] [];
  match r with
  | inl e => mret (inl e)
  | inr (udp, tcp) =>
      r ← bind_endpoints (proxy_listeners c) ModeProxy (udp_enabled mode) (tcp_enabled mode) true
            udp tcp;
      match r with
      | inl e => mret (inl e)
      | inr (udp, tcp) => bind_extra (dns_stub_listener_extra c) udp tcp
      end
  end.

Inductive receiving : Type :=
  | RecvJob (job : UdpJob) (c : channel)
  | RecvTimeout
  | RecvDisconnected.

(** [Receiver::recv_timeout]; [connected] is whether a sender still exists. *)
Definition recv_timeout (c : channel) (connected : bool) : receiving :=
  match ch_jobs c with
  | job :: jobs => RecvJob job (mk_channel jobs (ch_open c))
  | [] => if connected then RecvTimeout else RecvDisconnected
  end.

(** Where a worker is: at the head of its loop, serving a job, or returned. *)
Inductive worker_at : Type :=
  | WorkerLoop
  | WorkerServing (job : UdpJob)
  | WorkerStopped.

(** The step of a worker at the head of its loop, on its channel.  When it returns
    the receiver is dropped, and the jobs in the channel with it. *)
Definition udp_worker (stop connected : bool) (c : channel) : worker_at * channel :=
  if stop then (WorkerStopped, mk_channel [] false)
  else
    match recv_timeout c connected with
    | RecvJob job c => (WorkerServing job, c)
    | RecvTimeout => (WorkerLoop, c)
    | RecvDisconnected => (WorkerStopped, mk_channel [] false)
    end.

(** A datagram given to a socket to be sent, and what became of it. *)
Record transmission : Type := mk_transmission {
  tx_socket : Z;
  tx_peer : SocketAddr;
  tx_packet : bytes;
  tx_result : io unit;
}.

(** [UdpSocket::send_to]. *)
Definition send_to (socket : Z) (packet : bytes) (peer : SocketAddr) : rst transmission :=
  r ← next_event (λ n, so_send_to so n socket peer packet);
  mret (mk_transmission socket peer packet r).

(** The rest of a worker's round; it ends in the same way when sending fails.  A
    query that cannot be answered at all has no reply. *)
Definition serve_job (job : UdpJob) : rst (option transmission) :=
  r ← attempt (query_or_servfail env self fuel (uj_packet job) (uj_mode job));
  match r with
  | Ok response => t ← send_to (uj_socket job) response (uj_peer job); mret (Some t)
  | Err _ => mret None
  | Panic => lift Panic
  | Diverge => lift Diverge
  end.

(** A connection: what the client sends, and the error of a read beyond that. *)
Record tcp_stream : Type := mk_stream {
  ts_input : bytes;
  ts_end : IoError;
}.

Definition read_exact (s : tcp_stream) (n : Z) : io (bytes * tcp_stream) :=
  if n <=? len (ts_input s)
  then inr (take (Z.to_nat n) (ts_input s), mk_stream (drop (Z.to_nat n) (ts_input s)) (ts_end s))
  else inl (ts_end s).

(** [TcpRejected] is the [InvalidData] that wraps the resolver's error. *)
Inductive TcpError : Type := TcpIo (e : IoError) | TcpRejected (e : ResolveError).

(** How a connection ended, and what was written to it. *)
Record tcp_result : Type := mk_tcp_result {
  tr_written : bytes;
  tr_error : option TcpError;
}.

Definition zero_frame : IoError := IoInvalidData (lit "zero-length DNS-over-TCP frame").
Definition large_response : IoError := IoInvalidData (lit "DNS response is too large").

Fixpoint tcp_loop (rounds : nat) (s : tcp_stream) (mode : QueryMode) (written : bytes) :
    rst tcp_result :=
  let stop (e : option TcpError) : rst tcp_result := mret (mk_tcp_result written e) in
  match rounds with
  | O => stop None
  | S rounds =>
      match read_exact s 2 with
      | inl e => stop (if is_closed e then None else Some (TcpIo e))
      | inr (prefix, s) =>
          let length := match prefix with [a; b] => be16 a b | _ => 0 end in
          if length =? 0 then stop (Some (TcpIo zero_frame))
          else
            match read_exact s length with
            | inl e => stop (Some (TcpIo e))
            | inr (query, s) =>
                r ← attempt (query_or_servfail env self fuel query mode);
                match r with
                | Ok response =>
                    if 65535 <? len response then stop (Some (TcpIo large_response))
                    else
                      let size := u16_bytes (len response) in
                      r ← next_event (λ n, so_write so n size);
                      match r with
                      | inl e => stop (Some (TcpIo e))
                      | inr _ =>
                          r ← next_event (λ n, so_write so n response);
                          match r with
                          | inl e => mret (mk_tcp_result (written ++ size) (Some (TcpIo e)))
                          | inr _ => tcp_loop rounds s mode (written ++ size ++ response)
                          end
                      end
                | Err e => stop (Some (TcpRejected e))
                | Panic => lift Panic
                | Diverge => lift Diverge
                end
            end
      end
  end.

Definition tcp_client (s : tcp_stream) (mode : QueryMode) : rst tcp_result :=
  let failed (e : IoError) := mk_tcp_result [] (Some (TcpIo e)) in
  r ← next_event (λ n, so_stream_timeout so n (query_timeout (rs_config self)));
  match r with
  | inl e => mret (failed e)
  | inr _ =>
      r ← next_event (λ n, so_stream_timeout so n (query_timeout (rs_config self)));
      match r with
      | inl e => mret (failed e)
      | inr _ => tcp_loop 128 s mode []
      end
  end.

(** [rounds] are the rounds of the loop, as for datagrams; the result are the
    connections for which a thread is started, and the mode they are served in. *)
Fixpoint tcp_listener (endpoint : TcpEndpoint) (rounds : list (bool * io (tcp_stream * SocketAddr))) :
    list (tcp_stream * SocketAddr * QueryMode) :=
  match rounds with
  | [] | (true, _) :: _ => []
  | (false, inr (stream, peer)) :: rounds =>
      (stream, peer, te_mode endpoint) :: tcp_listener endpoint rounds
  | (false, inl _) :: rounds => tcp_listener endpoint rounds
  end.

(** ** The main loop *)

(** What a round sees: whether to stop, whether to reload, and the time. *)
Record tick : Type := mk_tick {
  tk_stop : bool;
  tk_reload : bool;
  tk_now : Z;
}.

Definition ready : str := lit "READY=1" ++ [10] ++ lit "STATUS=Processing requests".
Definition reloading : str := lit "RELOADING=1" ++ [10] ++ lit "STATUS=Reloading hosts database".
Definition stopping : str := lit "STOPPING=1" ++ [10] ++ lit "STATUS=Shutting down".

(** The notifications to the service manager. *)
Fixpoint stub_loop (ticks : list tick) (watchdog : option Watchdog) : rst (list str) :=
  match ticks with
  | [] => mret []
  | t :: ticks =>
      if tk_stop t then mret [stopping]
      else
        reloads ← (if tk_reload t then
                     _ ← attempt (reload_hosts env self);
                     mret [reloading; ready]
                   else mret []);
        let '(pings, watchdog) :=
          match watchdog with
          | Some w => let '(ping, w) := ping_if_due w (tk_now t) in
                      (if ping : bool then [lit "WATCHDOG=1"] else [], Some w)
          | None => ([], None)
          end in
        rest ← stub_loop ticks watchdog;
        mret (reloads ++ pings ++ rest)
  end.

(** The main thread; the threads it starts run the functions above.  [usec] and
    [pid] are the environment variables of the watchdog. *)
Definition run_stub (usec pid : option str) (current_pid : Z) (ticks : list tick) :
    rst (io (list UdpEndpoint * list TcpEndpoint * list str)) :=
  r ← bind_stub;
  match r with
  | inl e => mret (inl e)
  | inr (udp, tcp) =>
      start ← now env;
      let watchdog := watchdog_interval usec pid current_pid ≫= λ i, watchdog_start i start in
      notifications ← stub_loop ticks watchdog;
      mret (inr (udp, tcp, ready :: notifications))
  end.
End daemon.
