(* ===== verification/ResolvConf.v ===== *)
(** * The published resolver configuration

    Models [src/resolvconf_publish.rs]: which file [/etc/resolv.conf] is, and the
    bodies of the published files. *)

From S2P Require Import Prelude Stateful Text Net Sorting ConfigTypes Config Codec Hosts Json World.

(** ** Modes *)

Inductive ResolvConfMode : Type := Uplink | Stub | Static | Missing | Foreign.

Definition resolv_conf_mode_as_str (m : ResolvConfMode) : str :=
  lit match m with
      | Uplink => "uplink"
      | Stub => "stub"
      | Static => "static"
      | Missing => "missing"
      | Foreign => "foreign"
      end.

Definition SYSTEM_RESOLV_CONF : str := lit "/etc/resolv.conf".
Definition STATIC_RESOLV_CONF_PATHS : list str :=
  [lit "/usr/lib/systemd/resolv.conf"; lit "/lib/systemd/resolv.conf"].

(** [Path::join] with a relative name. *)
Definition join_path (dir name : str) : str :=
  if bool_decide (dir = []) || ends_with dir (lit "/") then dir ++ name
  else dir ++ lit "/" ++ name.

Section modes.
Context (env : Env).

(** The pair of device and inode is compared by [same_inode]. *)
Definition path_matches (system : Z * Z) (candidate : str) : rst bool :=
  m ← os (λ n, os_metadata env n candidate);
  mret (match m with Some i => bool_decide (system = i) | None => false end).

Fixpoint matching_mode (system : Z * Z) (candidates : list (ResolvConfMode * str)) :
    rst ResolvConfMode :=
  match candidates with
  | [] => mret Foreign
  | (mode, p) :: candidates =>
      b ← path_matches system p;
      if b : bool then mret mode else matching_mode system candidates
  end.

Definition detect_resolv_conf_mode (system_path run_dir : str) (static_paths : list str) :
    rst ResolvConfMode :=
  m ← os (λ n, os_metadata env n system_path);
  match m with
  | None => mret Missing
  | Some system =>
      matching_mode system
        ([(Uplink, join_path run_dir (lit "resolv.conf"));
          (Stub, join_path run_dir (lit "stub-resolv.conf"))] ++
         ((λ p, (Static, p)) <$> static_paths))
  end.

Definition system_resolv_conf_mode (run_dir : str) : rst ResolvConfMode :=
  detect_resolv_conf_mode SYSTEM_RESOLV_CONF run_dir STATIC_RESOLV_CONF_PATHS.
End modes.

(** ** The bodies *)

Record GlobalDnsState : Type := mk_global_dns {
  gd_search : list str;
  gd_uplink_servers : list IpAddr;
  gd_options : list str;
  gd_banner : option str;
}.

Record ResolvConfPublisher : Type := mk_publisher {
  pb_run_dir : str;
  pb_stub_addresses : list IpAddr;
}.

Definition publisher_default : ResolvConfPublisher :=
  mk_publisher (lit "/run/systemd/resolve") [V4 [127; 0; 0; 53]; V4 [127; 0; 0; 54]].

Definition space : str := lit " ".

Definition header (s : GlobalDnsState) (which : str) : str :=
  lit "# This is " ++ which ++ lit " managed by systemd-resolved-rs." ++ newline ++
  lit "# Do not edit this file manually." ++ newline ++
  match gd_banner s with Some b => lit "# " ++ b ++ newline | None => [] end ++ newline.

Definition render_search (s : GlobalDnsState) : str :=
  let cleaned := dedup (filter (λ d, d ≠ [] ∧ d ≠ lit ".")
    ((λ d, to_ascii_lowercase (trim_end_matches dot (trim d))) <$> gd_search s)) in
  if bool_decide (cleaned = []) then []
  else lit "search " ++ join_with space cleaned ++ newline.

Definition render_options (s : GlobalDnsState) : str :=
  let opts := if bool_decide (gd_options s = []) then [lit "edns0"; lit "trust-ad"]
              else gd_options s in
  lit "options " ++ join_with space opts ++ newline.

Definition nameservers (l : list IpAddr) : str :=
  concat ((λ a, lit "nameserver " ++ show_ip a ++ newline) <$> l).

(** The backslashes are in the file: the literal escapes them. *)
Definition stub_notice : str :=
  lit "# Run \" ++ [34] ++ lit "resolvectl status\" ++ [34] ++
  lit " to see details about the uplink DNS servers" ++ newline ++
  lit "\" ++ newline ++
  lit "             # currently in use." ++ newline ++ newline.

Definition uplink_notice : str :=
  lit "# This file lists the uplink DNS servers discovered by systemd-resolved-rs." ++ newline ++
  lit "\" ++ newline ++
  lit "             # Applications that cannot use the stub may point at this file." ++
  newline ++ newline.

Definition stub_body (p : ResolvConfPublisher) (s : GlobalDnsState) : str :=
  header s (lit "/run/systemd/resolve/stub-resolv.conf") ++ stub_notice ++
  nameservers (pb_stub_addresses p) ++ render_search s ++ render_options s.

Definition uplink_body (s : GlobalDnsState) : str :=
  let opts := filter (λ o, o ≠ lit "trust-ad") (gd_options s) in
  header s (lit "/run/systemd/resolve/resolv.conf") ++ uplink_notice ++
  (if bool_decide (gd_uplink_servers s = [])
   then lit "# No uplink DNS servers are currently known." ++ newline
   else nameservers (gd_uplink_servers s)) ++
  render_search s ++
  (if bool_decide (opts = []) then lit "options edns0" ++ newline
   else lit "options " ++ join_with space opts ++ newline).

Definition link_body (ifindex : Z) (ifname : str) (dns : list IpAddr) (ds : list str) : str :=
  lit "# link " ++ show_i128 ifindex ++ lit " (" ++ ifname ++ lit ")" ++ newline ++
  concat ((λ d, lit "DNS=" ++ show_ip d ++ newline) <$> dns) ++
  concat ((λ d, lit "Domains=" ++ d ++ newline) <$> ds).
