(* ===== verification/Startup.v ===== *)
(** * Startup

    Models [src/main.rs]: the command line, the environment variables, the
    configuration they make of the files, and the order in which the parts of
    the daemon are started and stopped.  The theorems say where each setting
    comes from, that a configuration that is run is valid, and that every thread
    that was started is told to stop before it is waited for. *)

From S2P Require Import Prelude Stateful Text Net ConfigTypes Config ResolvConf.

Record Options : Type := mk_options {
  o_config : str;
  o_listeners : list str;
  o_proxy_listeners : list str;
  o_upstreams : list str;
  o_varlink : option str;
  o_runtime_directory : option str;
  o_workers : option Z;
  o_port : option Z;
  o_check_config : bool;
  o_no_stub : bool;
  o_no_varlink : bool;
  o_no_dbus : bool;
}.

Definition options_default : Options :=
  mk_options (lit "/etc/systemd/resolved.conf") [] [] [] None None None None false false false false.

(** [Box<dyn Error>]: an error of the configuration, a number that does not
    parse, a message, or an error of the operating system. *)
Inductive MainError : Type :=
  | MainConfig (error : ConfigError)
  | MainNumber (text : str)
  | MainMessage (message : str)
  | MainIo (error : str).

Abbreviation mres := (outcome MainError).

(** ** The command line *)

(** The value of an option and the arguments left. *)
Definition option_value (inline : option str) (arguments : list str) (option : str) :
    mres (str * list str) :=
  let missing := Err (MainMessage (option ++ lit " requires a value")) in
  match inline with
  | Some value => if bool_decide (value = []) then missing else Ok (value, arguments)
  | None => match arguments with value :: arguments => Ok (value, arguments) | [] => missing end
  end.

Definition number (m : Z) (text : str) : mres Z := ok_or (parse_unsigned m text) (MainNumber text).

(** What the command line asks for: to run, or only to show a text. *)
Inductive parsed_line : Type := RunWith (options : Options) | ShowVersion | ShowHelp.

(** Options that take no value, with what they set. *)
Definition flag_option (name : str) : option (Options → Options) :=
  if bool_decide (name = lit "--check-config") then Some (λ o, { o with o_check_config := true })
  else if bool_decide (name = lit "--no-stub") then Some (λ o, { o with o_no_stub := true })
  else if bool_decide (name = lit "--no-varlink") then Some (λ o, { o with o_no_varlink := true })
  else if bool_decide (name = lit "--no-dbus") then Some (λ o, { o with o_no_dbus := true })
  else None.

(** Options that take a value, with what they make of it. *)
Definition value_option (name : str) : option (str → Options → mres Options) :=
  if bool_decide (name = lit "--config") then Some (λ v o, Ok { o with o_config := v })
  else if bool_decide (name = lit "--listen")
  then Some (λ v o, Ok { o with o_listeners := o_listeners o ++ [v] })
  else if bool_decide (name = lit "--proxy-listen")
  then Some (λ v o, Ok { o with o_proxy_listeners := o_proxy_listeners o ++ [v] })
  else if bool_decide (name = lit "--upstream")
  then Some (λ v o, Ok { o with o_upstreams := o_upstreams o ++ [v] })
  else if bool_decide (name = lit "--varlink") then Some (λ v o, Ok { o with o_varlink := Some v })
  else if bool_decide (name = lit "--runtime-directory")
  then Some (λ v o, Ok { o with o_runtime_directory := Some v })
  else if bool_decide (name = lit "--workers")
  then Some (λ v o, n ← number usize_max v; Ok { o with o_workers := Some n })
  else if bool_decide (name = lit "--port")
  then Some (λ v o, n ← number u16_max v; Ok { o with o_port := Some n })
  else None.

Definition split_argument (argument : str) : str * option str :=
  match split_once 61 argument with
  | Some (name, value) => (name, Some value)
  | None => (argument, None)
  end.

(** The loop over the arguments; each round takes one or two. *)
Fixpoint parse_loop (fuel : nat) (arguments : list str) (o : Options) : mres parsed_line :=
  match fuel with
  | O => Diverge
  | S fuel =>
      match arguments with
      | [] => Ok (RunWith o)
      | argument :: arguments =>
          let '(name, inline) := split_argument argument in
          match flag_option name, value_option name with
          | Some set, _ => parse_loop fuel arguments (set o)
          | None, Some set =>
              '(value, arguments) ← option_value inline arguments name;
              o ← set value o;
              parse_loop fuel arguments o
          | None, None =>
              if bool_decide (name = lit "--version") then Ok ShowVersion
              else if bool_decide (name = lit "--help") || bool_decide (name = lit "-h")
              then Ok ShowHelp
              else Err (MainMessage (lit "unknown option: " ++ argument))
          end
      end
  end.

Definition parse_options (arguments : list str) : mres parsed_line :=
  parse_loop (S (length arguments)) arguments options_default.

(** ** The environment *)

Inductive variable : Type := Unset | NotUnicode | SetTo (value : str).

Definition is_blank_value (s : str) : bool := bool_decide (trim s = []).

Definition config_error {A} (r : cres A) : mres A := map_err MainConfig r.

(** The variables [RESOLVED_RS_...]. *)
Record Environment : Type := mk_environment {
  e_stub_addr : variable;
  e_stub_addr_alt : variable;
  e_run_dir : variable;
  e_varlink : variable;
  e_workers : variable;
}.

(** [if let Ok(value) = env::var(..)], when the value is not blank. *)
Definition when_set {A} (v : variable) (f : str → A → mres A) (a : A) : mres A :=
  match v with
  | SetTo value => if is_blank_value value then Ok a else f value a
  | _ => Ok a
  end.

Definition apply_stub_addr (v : variable) (c : Config) : mres Config :=
  when_set v (λ value c, a ← config_error (parse_server value); Ok { c with listeners := [a] }) c.

Definition apply_stub_addr_alt (v : variable) (c : Config) : mres Config :=
  match v with
  | SetTo value =>
      if is_blank_value value || eq_ignore_ascii_case value (lit "none")
      then Ok { c with proxy_listeners := [] }
      else a ← config_error (parse_server value); Ok { c with proxy_listeners := [a] }
  | _ => Ok c
  end.

Definition is_unset (v : variable) : bool := match v with Unset => true | _ => false end.

Definition apply_run_dir (v varlink : variable) (c : Config) : mres Config :=
  when_set v (λ value c,
    let c := { c with runtime_directory := value } in
    Ok (if is_unset varlink
        then { c with varlink_path := join_path value (lit "io.systemd.Resolve") } else c)) c.

Definition apply_varlink (v : variable) (c : Config) : mres Config :=
  when_set v (λ value c, Ok { c with varlink_path := value }) c.

Definition apply_workers (v : variable) (c : Config) : mres Config :=
  when_set v (λ value c, n ← number usize_max value; Ok { c with workers := n }) c.

Definition apply_environment (e : Environment) (c : Config) : mres Config :=
  c ← apply_stub_addr (e_stub_addr e) c;
  c ← apply_stub_addr_alt (e_stub_addr_alt e) c;
  c ← apply_run_dir (e_run_dir e) (e_varlink e) c;
  c ← apply_varlink (e_varlink e) c;
  apply_workers (e_workers e) c.

(** ** The configuration *)

Fixpoint parse_servers (values : list str) : mres (list SocketAddr) :=
  match values with
  | [] => Ok []
  | v :: values =>
      a ← config_error (parse_server v);
      l ← parse_servers values;
      Ok (a :: l)
  end.

(** [SocketAddr::set_port] on every address. *)
Definition with_port (port : Z) (a : SocketAddr) : SocketAddr :=
  match a with
  | SockV4 ip _ => SockV4 ip port
  | SockV6 ip _ flowinfo scope_id => SockV6 ip port flowinfo scope_id
  end.
Definition rewrite_ports (addresses : list SocketAddr) (port : Z) : list SocketAddr :=
  with_port port <$> addresses.

(** [if let Some(value) = option { .. }]. *)
Definition on_some {A B} (o : option A) (f : A → B → B) (b : B) : B :=
  match o with Some a => f a b | None => b end.

Definition apply_addresses (o : Options) (c : Config) : mres Config :=
  c ← (if bool_decide (o_listeners o = []) then Ok c
       else l ← parse_servers (o_listeners o); Ok { c with listeners := l });
  c ← (if bool_decide (o_proxy_listeners o = []) then Ok c
       else l ← parse_servers (o_proxy_listeners o); Ok { c with proxy_listeners := l });
  if bool_decide (o_upstreams o = []) then Ok c
  else l ← parse_servers (o_upstreams o);
       Ok { c with upstreams := l; fallback_upstreams := [] }.

Definition apply_settings (o : Options) (c : Config) : Config :=
  let c := on_some (o_varlink o) (λ p c, { c with varlink_path := p }) c in
  let c := on_some (o_runtime_directory o) (λ p c, { c with runtime_directory := p }) c in
  let c := on_some (o_workers o) (λ n c, { c with workers := n }) c in
  let c := on_some (o_port o) (λ port c,
    { c with listeners := rewrite_ports (listeners c) port;
             proxy_listeners := rewrite_ports (proxy_listeners c) port }) c in
  if o_no_stub o then { c with dns_stub_listener := StubNo; dns_stub_listener_extra := [] } else c.

(** [PathBuf::from]: the components of a path; only a leading dot is one. *)
Definition path_of (s : str) : path :=
  let pieces := split_on 47 s in
  mk_path (starts_with s (lit "/"))
    (filter (λ e, e ≠ []) (take 1 pieces) ++ filter (λ e, e ≠ [] ∧ e ≠ lit ".") (drop 1 pieces)).

Definition configured_resolver (fs : filesystem) (credentials : option path) (e : Environment)
    (o : Options) : mres Config :=
  c ← config_error (load fs credentials (path_of (o_config o)));
  c ← apply_environment e c;
  c ← apply_addresses o c;
  let c := apply_settings o c in
  _ ← config_error (config_validate c);
  Ok c.

(** ** Running *)

Inductive thread : Type := Netlink | NetworkdThread | DbusThread | VarlinkThread.

Inductive step : Type :=
  | InstallSignalHandlers
  | WriteRuntimeFiles
  | Spawn (t : thread)
  | RunStub
  | RequestStop
  | Join (t : thread).

#[global] Instance thread_eq_dec : EqDecision thread.
Proof. solve_decision. Defined.
#[global] Instance step_eq_dec : EqDecision step.
Proof. solve_decision. Defined.

Definition primary_stub_enabled (c : Config) : bool :=
  negb (bool_decide (dns_stub_listener c = StubNo))
  && (negb (bool_decide (listeners c = [])) || negb (bool_decide (proxy_listeners c = []))).

Definition stub_enabled (c : Config) : bool :=
  primary_stub_enabled c || negb (bool_decide (dns_stub_listener_extra c = [])).

(** The threads that are started, in their order. *)
Definition threads (o : Options) : list thread :=
  [Netlink; NetworkdThread] ++ (if o_no_dbus o then [] else [DbusThread])
  ++ (if o_no_varlink o then [] else [VarlinkThread]).

(** [fails] says which step fails; [?] ends the sequence there. *)
Fixpoint start (fails : step → option str) (steps : list step) : list step * option str :=
  match steps with
  | [] => ([], None)
  | s :: steps =>
      match fails s with
      | Some e => ([], Some e)
      | None => let '(l, e) := start fails steps in (s :: l, e)
      end
  end.

(** The steps that were taken, and the result. *)
Definition run_resolver (fails : step → option str) (c : Config) (o : Options) :
    list step * mres unit :=
  if o_no_varlink o && o_no_dbus o && negb (stub_enabled c)
  then ([], Err (MainMessage (lit "all resolver interfaces are disabled")))
  else
    match start fails ([InstallSignalHandlers; WriteRuntimeFiles] ++ (Spawn <$> threads o)) with
    | (steps, Some e) => (steps, Err (MainIo e))
    | (steps, None) =>
        (steps ++ [RunStub; RequestStop]
           ++ (if o_no_varlink o then [] else [Join VarlinkThread])
           ++ (if o_no_dbus o then [] else [Join DbusThread])
           ++ [Join NetworkdThread; Join Netlink],
         match fails RunStub with Some e => Err (MainIo e) | None => Ok () end)
    end.

Definition execute (fs : filesystem) (credentials : option path) (e : Environment)
    (fails : step → option str) (arguments : list str) : list step * mres unit :=
  match parse_options arguments with
  | Ok (RunWith o) =>
      match configured_resolver fs credentials e o with
      | Ok c => if o_check_config o then ([], Ok ()) else run_resolver fails c o
      | Err e => ([], Err e)
      | Panic => ([], Panic)
      | Diverge => ([], Diverge)
      end
  | Ok _ => ([], Ok ())
  | Err e => ([], Err e)
  | Panic => ([], Panic)
  | Diverge => ([], Diverge)
  end.

(** ** The command line *)

Lemma option_value_shorter inline arguments name v rest :
  option_value inline arguments name = Ok (v, rest) → (length rest ≤ length arguments)%nat.
Proof.
  unfold option_value; destruct inline; [case_bool_decide; [done|]; by intros [= _ <-]|].
  destruct arguments; [done|]; intros [= _ <-]; cbn; lia.
Qed.

Lemma value_option_safe name set v o : value_option name = Some set → safe (set v o).
Proof.
  unfold value_option, number; intros H; repeat case_bool_decide; simplify_eq; try done.
  all: apply wp_bind, wp_ok_or; intros; done.
Qed.

(** The arguments are always read to their end, or to an error. *)
Lemma parse_loop_safe fuel arguments o :
  (length arguments < fuel)%nat → safe (parse_loop fuel arguments o).
Proof.
  revert arguments o; induction fuel as [|fuel IH]; intros arguments o Hf; [lia|]; cbn [parse_loop].
  destruct arguments as [|a arguments]; [done|]; cbn in Hf; destruct (split_argument a) as [name inline].
  destruct (flag_option name) as [set|]; [apply IH; lia|].
  destruct (value_option name) as [set|] eqn:Hv; [|by repeat case_match].
  apply wp_bind; destruct (option_value inline arguments name) as [[v rest]| | |] eqn:Ho; try done.
  - apply option_value_shorter in Ho; cbn; apply wp_bind.
    eapply wp_mono; [by eapply value_option_safe|]; intros o' _; apply IH; lia.
  - unfold option_value in Ho; by repeat case_match.
  - unfold option_value in Ho; by repeat case_match.
Qed.

(** A value may follow its option or be joined to it. *)
Lemma parse_loop_joined fuel name v arguments o set :
  61 ∉ name → v ≠ [] → flag_option name = None → value_option name = Some set →
  parse_loop (S fuel) ((name ++ lit "=" ++ v) :: arguments) o =
  (o ← set v o; parse_loop fuel arguments o) ∧
  parse_loop (S fuel) (name :: v :: arguments) o = (o ← set v o; parse_loop fuel arguments o).
Proof.
  intros Hn Hv Hf Hs; cbn [parse_loop]; unfold split_argument.
  assert (split_once 61 (name ++ lit "=" ++ v) = Some (name, v)) as ->.
  { clear Hf Hs; induction name as [|c name IH]; [done|]; apply not_elem_of_cons in Hn as [Hc Hn].
    cbn [split_once app]; rewrite (proj2 (Z.eqb_neq _ _)) by congruence; by rewrite IH. }
  assert (split_once 61 name = None) as ->.
  { clear Hf Hs; induction name as [|c name IH]; [done|]; apply not_elem_of_cons in Hn as [Hc Hn].
    cbn [split_once]; rewrite (proj2 (Z.eqb_neq _ _)) by congruence; by rewrite IH. }
  rewrite Hf, Hs; unfold option_value; by rewrite bool_decide_eq_false_2.
Qed.

(** ** Sources of the configuration *)

Definition env_value (v : variable) : option str :=
  match v with SetTo s => if is_blank_value s then None else Some s | _ => None end.

Lemma when_set_Ok {A} v f (a b : A) :
  when_set v f a = Ok b → match env_value v with Some s => f s a = Ok b | None => b = a end.
Proof. unfold when_set, env_value; repeat case_match; naive_solver. Qed.

(** The command line first, then the environment, then the files. *)
Definition chosen {A} (option variable : option A) (file : A) : A :=
  match option with Some a => a | None => default file variable end.

Definition server_of (s : str) : option SocketAddr := to_option (parse_server s).

(** Addresses given on the command line. *)
Definition servers_of (values : list str) : option (list SocketAddr) :=
  if bool_decide (values = []) then None else to_option (parse_servers values).

Definition env_listeners (e : Environment) : option (list SocketAddr) :=
  s ← env_value (e_stub_addr e); a ← server_of s; Some [a].

Definition env_proxy_listeners (e : Environment) : option (list SocketAddr) :=
  match e_stub_addr_alt e with
  | SetTo s =>
      if is_blank_value s || eq_ignore_ascii_case s (lit "none") then Some []
      else a ← server_of s; Some [a]
  | _ => None
  end.

Definition env_varlink (e : Environment) : option str :=
  match env_value (e_varlink e) with
  | Some p => Some p
  | None =>
      d ← env_value (e_run_dir e);
      if is_unset (e_varlink e) then Some (join_path d (lit "io.systemd.Resolve")) else None
  end.

Definition env_workers (e : Environment) : option Z :=
  env_value (e_workers e) ≫= parse_unsigned usize_max.

(** What the environment does not decide stays. *)
Definition same_rest (c c' : Config) : Prop :=
  upstreams c = upstreams c' ∧ upstream_specs c = upstream_specs c' ∧
  fallback_upstreams c = fallback_upstreams c' ∧
  fallback_upstream_specs c = fallback_upstream_specs c' ∧
  dns_stub_listener c = dns_stub_listener c' ∧
  dns_stub_listener_extra c = dns_stub_listener_extra c' ∧ domains c = domains c' ∧
  refuse_record_types c = refuse_record_types c' ∧ cache_size c = cache_size c' ∧
  dnssec c = dnssec c' ∧ dns_over_tls c = dns_over_tls c'.

Lemma map_err_Ok {A E E'} (f : E → E') (r : outcome E A) a : map_err f r = Ok a → r = Ok a.
Proof. by destruct r; cbn; intros [= ->]. Qed.

Lemma apply_stub_addr_Ok e c c' :
  apply_stub_addr (e_stub_addr e) c = Ok c' →
  c' = { c with listeners := default (listeners c) (env_listeners e) }.
Proof.
  unfold env_listeners, server_of; intros H%when_set_Ok; destruct (env_value (e_stub_addr e)).
  - apply bind_Ok in H as (a & Ha%map_err_Ok & [= <-]); cbn; by rewrite Ha.
  - subst; by destruct c.
Qed.

Lemma apply_stub_addr_alt_Ok e c c' :
  apply_stub_addr_alt (e_stub_addr_alt e) c = Ok c' →
  c' = { c with proxy_listeners := default (proxy_listeners c) (env_proxy_listeners e) }.
Proof.
  unfold apply_stub_addr_alt, env_proxy_listeners, server_of; intros H.
  destruct (e_stub_addr_alt e) as [| |s]; [injection H as <-; by destruct c..|].
  destruct (_ || _); [by injection H as <-|].
  apply bind_Ok in H as (a & Ha%map_err_Ok & [= <-]); cbn; by rewrite Ha.
Qed.

Lemma apply_paths_Ok e c c1 c' :
  apply_run_dir (e_run_dir e) (e_varlink e) c = Ok c1 → apply_varlink (e_varlink e) c1 = Ok c' →
  c' = { c with runtime_directory := default (runtime_directory c) (env_value (e_run_dir e));
                varlink_path := default (varlink_path c) (env_varlink e) }.
Proof.
  unfold env_varlink; intros H1%when_set_Ok H2%when_set_Ok.
  destruct (env_value (e_run_dir e)) as [d|] eqn:Hd, (env_value (e_varlink e)) as [v|] eqn:Hv;
    cbn in *; destruct c; cbn in *; subst; try injection H1 as <-; try injection H2 as <-;
    destruct (is_unset (e_varlink e)); done.
Qed.

Lemma apply_workers_Ok e c c' :
  apply_workers (e_workers e) c = Ok c' → c' = { c with workers := default (workers c) (env_workers e) }.
Proof.
  unfold env_workers, number; intros H%when_set_Ok; destruct (env_value (e_workers e)).
  - apply bind_Ok in H as (n & Hn%ok_or_Ok & [= <-]); cbn; by rewrite Hn.
  - subst; by destruct c.
Qed.

Lemma apply_environment_Ok e c c' :
  apply_environment e c = Ok c' →
  listeners c' = default (listeners c) (env_listeners e) ∧
  proxy_listeners c' = default (proxy_listeners c) (env_proxy_listeners e) ∧
  runtime_directory c' = default (runtime_directory c) (env_value (e_run_dir e)) ∧
  varlink_path c' = default (varlink_path c) (env_varlink e) ∧
  workers c' = default (workers c) (env_workers e) ∧ same_rest c' c.
Proof.
  intros (c1 & H1%apply_stub_addr_Ok & H)%bind_Ok.
  apply bind_Ok in H as (c2 & H2%apply_stub_addr_alt_Ok & H).
  apply bind_Ok in H as (c3 & H3 & H); apply bind_Ok in H as (c4 & H4 & H5%apply_workers_Ok).
  pose proof (apply_paths_Ok _ _ _ _ H3 H4) as H34; subst c1 c2 c4 c'; by repeat split.
Qed.

Lemma apply_addresses_Ok o c c' :
  apply_addresses o c = Ok c' →
  c' = { c with listeners := default (listeners c) (servers_of (o_listeners o));
                proxy_listeners := default (proxy_listeners c) (servers_of (o_proxy_listeners o));
                upstreams := default (upstreams c) (servers_of (o_upstreams o));
                fallback_upstreams := if bool_decide (o_upstreams o = []) then fallback_upstreams c
                                      else [] }.
Proof.
  unfold apply_addresses, servers_of; intros (c1 & H1 & H)%bind_Ok; apply bind_Ok in H as (c2 & H2 & H).
  destruct (bool_decide (o_listeners o = [])); [injection H1 as <-|apply bind_Ok in H1 as (l1 & -> & [= <-])];
    (destruct (bool_decide (o_proxy_listeners o = []));
     [injection H2 as <-|apply bind_Ok in H2 as (l2 & -> & [= <-])]);
    (destruct (bool_decide (o_upstreams o = []));
     [injection H as <-|apply bind_Ok in H as (l3 & -> & [= <-])]);
    cbn; by destruct c.
Qed.

(** The port given on the command line applies to every listener. *)
Definition on_port (o : Options) (l : list SocketAddr) : list SocketAddr :=
  match o_port o with Some port => rewrite_ports l port | None => l end.

Lemma apply_settings_eq o c :
  apply_settings o c =
    { c with varlink_path := default (varlink_path c) (o_varlink o);
             runtime_directory := default (runtime_directory c) (o_runtime_directory o);
             workers := default (workers c) (o_workers o);
             listeners := on_port o (listeners c);
             proxy_listeners := on_port o (proxy_listeners c);
             dns_stub_listener := if o_no_stub o then StubNo else dns_stub_listener c;
             dns_stub_listener_extra := if o_no_stub o then [] else dns_stub_listener_extra c }.
Proof.
  destruct c; unfold apply_settings, on_port, on_some.
  by destruct (o_varlink o), (o_runtime_directory o), (o_workers o), (o_port o), (o_no_stub o).
Qed.

(** ** Threads *)

Lemma start_spec fails steps :
  let '(l, e) := start fails steps in ∃ rest, steps = l ++ rest ∧ (e = None → rest = []).
Proof.
  induction steps as [|s steps IH]; cbn [start]; [by exists []|].
  destruct (fails s); [by exists (s :: steps)|]; destruct (start fails steps) as [l e].
  destruct IH as (rest & -> & He); by exists rest.
Qed.

Definition spawned (steps : list step) : list thread :=
  omap (λ s, match s with Spawn t => Some t | _ => None end) steps.

Definition start_steps (o : Options) : list step :=
  [InstallSignalHandlers; WriteRuntimeFiles] ++ (Spawn <$> threads o).

Lemma spawned_start o : spawned (start_steps o) = threads o ∧ RunStub ∉ start_steps o.
Proof.
  unfold start_steps, threads; destruct (o_no_dbus o), (o_no_varlink o);
    (split; [done|]); by apply (bool_decide_unpack (RunStub ∉ _)).
Qed.

(** ** Properties *)

(** C30: where the settings of a daemon that is run come from: the command line
    decides before the environment and the environment before the files, the
    port given applies to every listener of the stub, servers given on the
    command line replace those of the files and their fallback, what neither
    says is that of the files, and the result is valid. *)
Theorem configuration_sources fs credentials e o c :
  configured_resolver fs credentials e o = Ok c →
  ∃ file, load fs credentials (path_of (o_config o)) = Ok file ∧ config_validate c = Ok () ∧
    listeners c = on_port o (chosen (servers_of (o_listeners o)) (env_listeners e) (listeners file)) ∧
    proxy_listeners c = on_port o (chosen (servers_of (o_proxy_listeners o))
                                     (env_proxy_listeners e) (proxy_listeners file)) ∧
    upstreams c = default (upstreams file) (servers_of (o_upstreams o)) ∧
    fallback_upstreams c = (if bool_decide (o_upstreams o = []) then fallback_upstreams file else []) ∧
    varlink_path c = chosen (o_varlink o) (env_varlink e) (varlink_path file) ∧
    runtime_directory c =
      chosen (o_runtime_directory o) (env_value (e_run_dir e)) (runtime_directory file) ∧
    workers c = chosen (o_workers o) (env_workers e) (workers file) ∧
    (stub_enabled c = true → o_no_stub o = false) ∧ domains c = domains file ∧
    dnssec c = dnssec file ∧ dns_over_tls c = dns_over_tls file.
Proof.
  intros (file & Hload%map_err_Ok & H)%bind_Ok; exists file; split; [done|].
  apply bind_Ok in H as (c1 & (H1 & H2 & H3 & H4 & H5 & Hrest)%apply_environment_Ok & H).
  apply bind_Ok in H as (c2 & ->%apply_addresses_Ok & H).
  apply bind_Ok in H as (u & Hv%map_err_Ok & [= <-]); rewrite apply_settings_eq in *.
  destruct u, Hrest as (R1 & _ & R3 & _ & R5 & R6 & R7 & _ & _ & R10 & R11).
  split; [done|]; clear Hv Hload; destruct c1; cbn in *; subst; unfold chosen.
  split_and!; try done; try (by destruct (servers_of _)).
  by destruct (o_no_stub o).
Qed.

(** The threads of a run: those started are the threads of the options, or the
    first of them when a step fails; a run that serves asks the threads to stop
    once it ends, whatever its result, and then waits for each thread it
    started, the last one first. *)
Theorem run_stops_threads fails c o :
  let '(steps, r) := run_resolver fails c o in
  (∃ rest, threads o = spawned steps ++ rest) ∧
  (RunStub ∈ steps →
   steps = start_steps o ++ [RunStub; RequestStop] ++ (Join <$> reverse (threads o))) ∧
  (RunStub ∉ steps → ∃ e, r = Err e).
Proof.
  unfold run_resolver; destruct (_ && _).
  { split_and!; [by exists (threads o)|by intros ?%not_elem_of_nil|eauto]. }
  fold (start_steps o); pose proof (start_spec fails (start_steps o)) as H.
  destruct (spawned_start o) as [Hsp Hrun], (start fails (start_steps o)) as [steps [e|]].
  all: destruct H as (rest & Heq & Hend).
  - rewrite Heq in Hsp, Hrun; apply not_elem_of_app in Hrun as [Hrun _].
    split_and!; [exists (spawned rest); by rewrite <- Hsp; unfold spawned; rewrite omap_app|done|eauto].
  - rewrite (Hend eq_refl), app_nil_r in Heq; subst steps.
    unfold start_steps, threads; destruct (o_no_dbus o), (o_no_varlink o); split_and!;
      first [by exists []|done|set_solver].
Qed.

(** A daemon on another port whose environment names a listener. *)
Definition example_environment : Environment :=
  mk_environment (SetTo (lit "127.0.0.9")) Unset (SetTo (lit "/run/r")) Unset (SetTo (lit "4")).

Definition example_files : filesystem := mk_fs (λ _, FileMissing) (λ _, DirMissing).

Definition example_options : Options := { options_default with o_port := Some 5300; o_workers := Some 2 }.

Lemma configuration_sources_witness :
  ∃ c, configured_resolver example_files None example_environment example_options = Ok c ∧
    listeners c = [SockV4 [127; 0; 0; 9] 5300] ∧
    varlink_path c = lit "/run/r/io.systemd.Resolve" ∧ workers c = 2.
Proof.
  destruct (configured_resolver example_files None example_environment example_options)
    as [c| | |] eqn:H; try (apply (f_equal to_option) in H; vm_compute in H; discriminate H).
  exists c; split; [done|].
  destruct (configuration_sources _ _ _ _ _ H) as (file & _ & _ & -> & _ & _ & _ & -> & _ & -> & _).
  by vm_compute.
Defined.
