(* ===== verification/Varlink.v ===== *)
(** * Varlink

    Models [src/varlink.rs] with [varlink_dns_configuration.rs] and
    [varlink_monitor.rs]: the messages of a connection, the methods they call, the
    checks of their parameters and the JSON replies.  A handler that answers with
    a [Value] whatever happens is a method of the resolver that returns it; what
    Rust returns early with [return] is the [Err] of [outcome Value]. *)

From S2P Require Import Prelude Stateful Text Utf8 Net Sorting ConfigTypes Config Codec Packet.
From S2P Require Import Records Redirects CacheX Cache Routing Edns Transport Policy Hosts Json.
From S2P Require Import StaticRecords Networkd Inflight World Servers Links Exchange Query Lookup.
From S2P Require Import ResolvConf.

Definition MAX_MESSAGE_SIZE : Z := 1024 * 1024.
Definition SD_RESOLVED_NO_TXT : Z := Z.shiftl 1 6.
Definition SD_RESOLVED_NO_ADDRESS : Z := Z.shiftl 1 7.

(** ** Replies *)

(** [BTreeMap::from]. *)
Definition fields (entries : list (str * Value)) : list (str * Value) :=
  fold_left (λ m '(k, v), btree_insert k v m) entries [].

Definition success (parameters : Value) : Value := object [(lit "parameters", parameters)].

Definition varlink_error (identifier : str) : Value :=
  object [(lit "error", String identifier); (lit "parameters", Object [])].

Definition invalid_parameter (parameter : str) : Value :=
  object [(lit "error", String (lit "org.varlink.service.InvalidParameter"));
          (lit "parameters", object [(lit "parameter", String parameter)])].

Definition or_null {A} (f : A → Value) (o : option A) : Value :=
  match o with Some a => f a | None => Null end.

Definition resolver_error (e : ResolveError) : Value :=
  match e with
  | RDnssecValidationFailed result code message =>
      object [(lit "error", String (lit "io.systemd.Resolve.DNSSECValidationFailed"));
              (lit "parameters",
               object [(lit "result", String result);
                       (lit "extendedDNSErrorCode", or_null Number code);
                       (lit "extendedDNSErrorMessage", or_null String message)])]
  | RDnsError rcode query =>
      object [(lit "error", String (lit "io.systemd.Resolve.DNSError"));
              (lit "parameters",
               object [(lit "rcode", Number rcode); (lit "queryString", String query)])]
  | e => varlink_error (varlink_id e)
  end.

(** ** Endpoints *)

Inductive VarlinkEndpoint : Type := EndResolve | EndMonitor | EndAny.

Definition allows (e : VarlinkEndpoint) (method : str) : bool :=
  match e with
  | EndResolve =>
      starts_with method (lit "org.varlink.service.")
      || (starts_with method (lit "io.systemd.Resolve.")
          && negb (starts_with method (lit "io.systemd.Resolve.Monitor.")))
  | EndMonitor =>
      starts_with method (lit "org.varlink.service.")
      || starts_with method (lit "io.systemd.Resolve.Monitor.")
  | EndAny => true
  end.

Definition is_endpoint (a b : VarlinkEndpoint) : bool :=
  match a, b with
  | EndResolve, EndResolve | EndMonitor, EndMonitor | EndAny, EndAny => true
  | _, _ => false
  end.

Definition interfaces (e : VarlinkEndpoint) : list Value :=
  (if is_endpoint e EndResolve || is_endpoint e EndAny
   then [String (lit "io.systemd.Resolve")] else []) ++
  (if is_endpoint e EndMonitor || is_endpoint e EndAny
   then [String (lit "io.systemd.Resolve.Monitor")] else []) ++
  [String (lit "org.varlink.service")].

Definition INTERFACE_DESCRIPTION : str := join_with newline
  [lit "interface io.systemd.Resolve";
   lit "method ResolveHostname(ifindex: ?int, name: string, family: ?int, flags: ?int) " ++
   lit "-> (addresses: [](ifindex: ?int, family: int, address: []int), name: string, " ++
   lit "flags: int)";
   lit "method ResolveAddress(ifindex: ?int, family: int, address: []int, flags: ?int) " ++
   lit "-> (names: [](ifindex: ?int, name: string), flags: int)";
   lit "method ResolveService(name: ?string, type: ?string, domain: string, ifindex: " ++
   lit "?int, family: ?int, flags: ?int) -> (services: [](priority: int, weight: int, " ++
   lit "port: int, hostname: string, canonicalName: ?string, addresses: ?[](ifindex: " ++
   lit "?int, family: int, address: []int)), txt: ?[]string, canonical: (name: ?string, " ++
   lit "type: string, domain: string), flags: int)";
   lit "method ResolveRecord(ifindex: ?int, name: string, class: ?int, type: int, " ++
   lit "flags: ?int) -> (rrs: [](ifindex: ?int, rr: ?object, raw: string), flags: int)";
   lit "type DNSServer (address: []int, addressString: string, family: int, port: int, " ++
   lit "ifindex: ?int, name: ?string, accessible: ?bool)";
   lit "type SearchDomain (name: string, routeOnly: bool, ifindex: ?int)";
   lit "type DNSConfiguration (ifname: ?string, ifindex: ?int, delegate: ?string, " ++
   lit "defaultRoute: ?bool, currentServer: ?DNSServer, servers: ?[]DNSServer, " ++
   lit "fallbackServers: ?[]DNSServer, searchDomains: ?[]SearchDomain, " ++
   lit "negativeTrustAnchors: ?[]string, dnssec: ?string, dnssecSupported: ?bool, " ++
   lit "dnsOverTLS: ?string, llmnr: ?string, mDNS: ?string, resolvConfMode: ?string, " ++
   lit "scopes: ?[]string)";
   lit "method DumpDNSConfiguration() -> (configuration: []DNSConfiguration)";
   lit "error QueryAborted";
   lit "error QueryRefused";
   lit "error DNSSECValidationFailed(result: string, extendedDNSErrorCode: ?int, " ++
   lit "extendedDNSErrorMessage: ?string)";
   lit "error NoTrustAnchor";
   lit "error StubLoop";
   lit "error ResourceRecordTypeObsolete";
   lit "error InconsistentServiceRecords"].

Definition MONITOR_INTERFACE_DESCRIPTION : str := join_with newline
  [lit "interface io.systemd.Resolve.Monitor";
   lit "type ResourceKey (class: ?int, type: int, name: string)";
   lit "type ResourceRecord (key: ResourceKey, address: ?[]int, items: ?[]string)";
   lit "type CacheEntry (key: ResourceKey, rrs: ?[](rr: ?ResourceRecord, raw: string), " ++
   lit "type: ?string, until: int)";
   lit "type ScopeCache (protocol: string, family: ?int, ifindex: ?int, ifname: " ++
   lit "?string, cache: []CacheEntry, dnssec: ?string, dnsOverTLS: ?string)";
   lit "method DumpCache() -> (dump: []ScopeCache)";
   lit "type ServerState (Server: string, Type: string, Interface: ?string, " ++
   lit "InterfaceIndex: ?int, VerifiedFeatureLevel: string, PossibleFeatureLevel: " ++
   lit "string, DNSSECMode: string, DNSSECSupported: bool, ReceivedUDPFragmentMax: int, " ++
   lit "FailedUDPAttempts: int, FailedTCPAttempts: int, PacketTruncated: bool, " ++
   lit "PacketBadOpt: bool, PacketRRSIGMissing: bool, PacketInvalid: bool, PacketDoOff: " ++
   lit "bool)";
   lit "method DumpServerState() -> (dump: []ServerState)";
   lit "type TransactionStatistics (currentTransactions: int, totalTransactions: int, " ++
   lit "totalTimeouts: int, totalTimeoutsServedStale: int, totalFailedResponses: int, " ++
   lit "totalFailedResponsesServedStale: int)";
   lit "type CacheStatistics (size: int, hits: int, misses: int)";
   lit "type DnssecStatistics (secure: int, insecure: int, bogus: int, indeterminate: " ++
   lit "int)";
   lit "method DumpStatistics() -> (transactions: TransactionStatistics, cache: " ++
   lit "CacheStatistics, dnssec: DnssecStatistics)";
   lit "method ResetStatistics()"].

Definition description (e : VarlinkEndpoint) (interface : str) : option str :=
  if (is_endpoint e EndResolve || is_endpoint e EndAny)
     && bool_decide (interface = lit "io.systemd.Resolve") then Some INTERFACE_DESCRIPTION
  else if (is_endpoint e EndMonitor || is_endpoint e EndAny)
     && bool_decide (interface = lit "io.systemd.Resolve.Monitor")
  then Some MONITOR_INTERFACE_DESCRIPTION
  else None.

(** ** Parameters *)

Definition try_range (lo hi : Z) (n : Z) : option Z :=
  if (lo <=? n) && (n <=? hi) then Some n else None.

Definition to_u16 : Z → option Z := try_range 0 65535.
Definition to_i32 : Z → option Z := try_range (- 2 ^ 31) (2 ^ 31 - 1).

Definition required (f : Value → option Z) (parameters : Value) (key : str) : outcome Value Z :=
  match json_get parameters key ≫= f with
  | Some n => Ok n
  | None => Err (invalid_parameter key)
  end.

Definition optional {A} (f : Value → option A) (parameters : Value) (key : str) (default : A) :
    outcome Value A :=
  match json_get parameters key with
  | None | Some Null => Ok default
  | Some v => match f v with Some a => Ok a | None => Err (invalid_parameter key) end
  end.

Definition required_u16 := required (λ v, as_u64 v ≫= to_u16).
Definition required_i32 := required (λ v, as_i64 v ≫= to_i32).
Definition optional_u16 := optional (λ v, as_u64 v ≫= to_u16).
Definition optional_u64 := optional as_u64.
Definition optional_i32 := optional (λ v, as_i64 v ≫= to_i32).

Definition optional_string (parameters : Value) (key : str) : outcome Value (option str) :=
  optional (λ v, (λ s, if bool_decide (s = []) then None else Some s) <$> as_str v)
    parameters key None.

Definition required_string (parameters : Value) (key : str) : outcome Value str :=
  match json_get parameters key ≫= as_str with
  | Some s => Ok s
  | None => Err (invalid_parameter key)
  end.

Definition optional_ifindex (parameters : Value) : outcome Value Z :=
  i ← optional_i32 parameters (lit "ifindex") 0;
  if 0 <=? i then Ok i else Err (invalid_parameter (lit "ifindex")).

Definition on_link (ifindex : Z) : option Z := if 0 <? ifindex then Some ifindex else None.

(** ** Texts *)

Definition BASE64_ALPHABET : str :=
  lit "ABCDEFGHIJKLMNOPQRSTUVWXYZabcdefghijklmnopqrstuvwxyz0123456789+/".

Definition base64_char (i : Z) : Z := default 0 (BASE64_ALPHABET !! Z.to_nat i).

Fixpoint base64 (input : bytes) : str :=
  match input with
  | [] => []
  | [a] =>
      [base64_char (Z.shiftr a 2); base64_char (Z.lor (Z.shiftl (Z.land a 3) 4) (Z.shiftr 0 4));
       61; 61]
  | [a; b] =>
      [base64_char (Z.shiftr a 2); base64_char (Z.lor (Z.shiftl (Z.land a 3) 4) (Z.shiftr b 4));
       base64_char (Z.lor (Z.shiftl (Z.land b 15) 2) (Z.shiftr 0 6)); 61]
  | a :: b :: c :: rest =>
      base64_char (Z.shiftr a 2) ::
      base64_char (Z.lor (Z.shiftl (Z.land a 3) 4) (Z.shiftr b 4)) ::
      base64_char (Z.lor (Z.shiftl (Z.land b 15) 2) (Z.shiftr c 6)) ::
      base64_char (Z.land c 63) :: base64 rest
  end.

(** [{byte:03o}]. *)
Definition show_octal3 (b : Z) : str :=
  [48 + Z.shiftr b 6; 48 + Z.land (Z.shiftr b 3) 7; 48 + Z.land b 7].

Definition octescape (input : bytes) : str :=
  input ≫= λ b, if (32 <=? b) && (b <=? 126) && negb (b =? 92) then [b]
                else 92 :: show_octal3 b.

Definition response_flags (response : bytes) : Z :=
  match header_parse response with
  | Ok h =>
      let flags := Z.shiftl 1 10 in
      if negb (Z.land (h_flags h) 0x20 =? 0) then Z.lor flags (Z.shiftl 1 9) else flags
  | _ => 0
  end.

Definition octets_value (p : bytes) : Value := Array (Number <$> p).

(** The family and the octets of an address. *)
Definition address_parts (a : IpAddr) : Z * bytes :=
  match a with V4 octets => (2, octets) | V6 octets => (10, octets) end.

Definition resolved_address (a : IpAddr) (ifindex : Z) : Value :=
  let '(family, octets) := address_parts a in
  let entries := fields [(lit "family", Number family); (lit "address", octets_value octets)] in
  Object (if 0 <? ifindex then btree_insert (lit "ifindex") (Number ifindex) entries else entries).

(** ** Services *)

Record ServiceQuestion : Type := mk_service_question {
  sq_owner : str;
  sq_name : option str;
  sq_service_type : str;
  sq_domain : str;
}.

Record ServiceRequest : Type := mk_service_request {
  sv_question : ServiceQuestion;
  sv_family : Z;
  sv_ifindex : Z;
  sv_flags : Z;
}.

Definition service_instance_is_valid (value : str) : bool :=
  negb (bool_decide (value = [])) && (str_len value <=? 63) && is_ascii value
  && negb (existsb (λ b, (b =? dot) || (b =? 0)) value).

Definition is_alphanumeric (b : Z) : bool :=
  is_digit b || ((65 <=? b) && (b <=? 90)) || ((97 <=? b) && (b <=? 122)).

Definition service_label_is_valid (label : str) : bool :=
  starts_with label (lit "_") && (1 <? str_len label) && (str_len label <=? 63) && is_ascii label
  && forallb (λ b, is_alphanumeric b || (b =? 45)) (drop 1 label).

Definition service_type_is_valid (value : str) : bool :=
  match split_on dot (trim_end_matches dot value) with
  | [service; protocol] => service_label_is_valid service && service_label_is_valid protocol
  | _ => false
  end.

(** The loop over [index] of [split_service_owner]: [before] are the labels
    before, the rest of the labels follow. *)
Fixpoint split_service_labels (before : list str) (labels : list str) :
    option (option str * str * str) :=
  match labels with
  | service :: ((protocol :: ((_ :: _) as rest)) as labels') =>
      let candidate := service ++ [dot] ++ protocol in
      if negb (service_type_is_valid candidate) then
        split_service_labels (before ++ [service]) labels'
      else
        let domain := join_with [dot] rest in
        if bool_decide (domain = []) || (1 <? length before)%nat then None
        else
          let name := match before with [name] => Some name | _ => None end in
          if match name with Some n => negb (service_instance_is_valid n) | None => false end
          then None
          else Some (name, to_ascii_lowercase candidate, to_ascii_lowercase domain)
  | _ => None
  end.

Definition split_service_owner (owner : str) : option (option str * str * str) :=
  split_service_labels [] (split_on dot owner).

Definition nonempty (o : option str) : option str :=
  match o with Some [] => None | o => o end.

Definition service_names (name service_type : option str) (domain : str) :
    option (option str * str * str * str) :=
  match service_type with
  | Some t =>
      if negb (service_type_is_valid t) then None
      else
        let owner :=
          match name with
          | Some n => n ++ [dot] ++ t ++ [dot] ++ domain
          | None => t ++ [dot] ++ domain
          end in
        Some (name, to_ascii_lowercase t, to_ascii_lowercase domain, owner)
  | None =>
      match name with
      | Some _ => None
      | None =>
          '(n, t, d) ← split_service_owner domain;
          Some (n, t, d, domain)
      end
  end.

Definition service_question (name service_type : option str) (domain : str) :
    option ServiceQuestion :=
  let name := nonempty name in
  let service_type := nonempty service_type in
  let domain := trim_end_matches dot domain in
  if bool_decide (domain = [])
     || match name with Some n => negb (service_instance_is_valid n) | None => false end
  then None
  else
    '(n, t, d, owner) ← service_names name service_type domain;
    _ ← to_option (make_query owner TYPE_SRV 0);
    Some (mk_service_question owner n t d).

Definition invalid_if (b : bool) (key : string) : outcome Value unit :=
  if b then Err (invalid_parameter (lit key)) else Ok ().

Definition fails_for {A} (f : A → bool) (o : option A) : bool :=
  match o with Some a => negb (f a) | None => false end.

Definition service_request (parameters : Value) : outcome Value ServiceRequest :=
  name ← optional_string parameters (lit "name");
  service_type ← optional_string parameters (lit "type");
  domain ← required_string parameters (lit "domain");
  family ← optional_i32 parameters (lit "family") 0;
  _ ← invalid_if (negb (bool_decide (family ∈ [0; 2; 10]))) "family";
  ifindex ← optional_ifindex parameters;
  flags ← optional_u64 parameters (lit "flags") 0;
  _ ← invalid_if (fails_for service_instance_is_valid name) "name";
  _ ← invalid_if (fails_for service_type_is_valid service_type) "type";
  _ ← invalid_if (bool_decide (is_Some name) && bool_decide (service_type = None)) "type";
  match service_question name service_type domain with
  | Some q => Ok (mk_service_request q family ifindex flags)
  | None => Err (invalid_parameter (lit "domain"))
  end.

Definition apply_refused_service_flags (self : Resolver) (r : ServiceRequest) : ServiceRequest :=
  let refused := refuse_record_types (rs_config self) in
  let r := if bool_decide (TYPE_A ∈ refused ∧ TYPE_AAAA ∈ refused)
           then { r with sv_flags := Z.lor (sv_flags r) SD_RESOLVED_NO_ADDRESS } else r in
  if bool_decide (TYPE_TXT ∈ refused)
  then { r with sv_flags := Z.lor (sv_flags r) SD_RESOLVED_NO_TXT } else r.

Section handlers.
Context (env : Env) (self : Resolver) (fuel : nat) `{io : !IterOrder XKey CacheEntry}.

(** [match m { Ok(a) => k(a), Err(reply) => return reply }]. *)
Definition or_reply {A} (m : outcome Value A) (k : A → rst Value) : rst Value :=
  match m with
  | Ok a => k a
  | Err reply => mret reply
  | Panic => lift Panic
  | Diverge => lift Diverge
  end.

(** A call of the resolver; [on_error] is the reply to an error. *)
Definition calling {A} (m : rst A) (on_error : ResolveError → rst Value) (k : A → rst Value) :
    rst Value :=
  r ← attempt m;
  match r with
  | Ok a => k a
  | Err e => on_error e
  | Panic => lift Panic
  | Diverge => lift Diverge
  end.

Definition reply_error (e : ResolveError) : rst Value := mret (resolver_error e).

(** What a parser of the wire layer gives; its panic is a panic. *)
Definition parsed {A} (r : wres A) : rst (option A) :=
  match r with
  | Ok a => mret (Some a)
  | Err _ => mret None
  | Panic => lift Panic
  | Diverge => lift Diverge
  end.

(** ** Resolving *)

Definition hostname_address (ifindex : Z) (a : IpAddr) : Value :=
  let '(family, octets) := address_parts a in
  object [(lit "ifindex", Number ifindex); (lit "family", Number family);
          (lit "address", octets_value octets)].

Definition varlink_resolve_hostname (parameters : Value) : rst Value :=
  or_reply
    (name ← required_string parameters (lit "name");
     family ← optional_i32 parameters (lit "family") 0;
     ifindex ← optional_ifindex parameters;
     Ok (name, family, ifindex))
    (λ '(name, family, ifindex),
       calling (lookup_name_on_link env self fuel name family (on_link ifindex)) reply_error
         (λ result,
            mret (success (object
              [(lit "addresses", Array (hostname_address ifindex <$> nl_addresses result));
               (lit "name", String (nl_canonical_name result));
               (lit "flags", Number (nl_flags result))])))).

Definition to_u8 : Z → option Z := try_range 0 255.

Definition address_of (family : Z) (octets : bytes) : option IpAddr :=
  if (family =? 2) && (len octets =? 4) then Some (V4 octets)
  else if (family =? 10) && (len octets =? 16) then Some (V6 octets) else None.

Definition address_parameters (parameters : Value) : outcome Value (IpAddr * Z) :=
  match json_get parameters (lit "address") ≫= as_array with
  | None => Err (invalid_parameter (lit "address"))
  | Some values =>
      family ← required_i32 parameters (lit "family");
      ifindex ← optional_ifindex parameters;
      match mapM (λ v, as_u64 v ≫= to_u8) values with
      | None => Err (invalid_parameter (lit "address"))
      | Some octets =>
          match address_of family octets with
          | Some a => Ok (a, ifindex)
          | None => Err (varlink_error (lit "io.systemd.Resolve.BadAddressSize"))
          end
      end
  end.

Definition varlink_resolve_address (parameters : Value) : rst Value :=
  or_reply (address_parameters parameters)
    (λ '(a, ifindex),
       calling (lookup_address_on_link env self fuel a (on_link ifindex)) reply_error
         (λ result,
            mret (success (object
              [(lit "names", Array ((λ name,
                  object [(lit "ifindex", Number ifindex); (lit "name", String name)])
                  <$> al_names result));
               (lit "flags", Number (al_flags result))])))).

Definition record_type (parameters : Value) : outcome Value Z :=
  t ← required_u16 parameters (lit "type");
  if bool_decide (t ∈ [0; 41; 249; 250])
  then Err (varlink_error (lit "io.systemd.Resolve.ResourceRecordTypeInvalidForQuery"))
  else if bool_decide (t ∈ [251; 252])
  then Err (varlink_error (lit "io.systemd.Resolve.ZoneTransfersNotPermitted"))
  else Ok t.

Definition record_parameters (parameters : Value) : outcome Value (str * Z * Z * Z) :=
  name ← required_string parameters (lit "name");
  _ ← invalid_if (bool_decide (name = [])) "name";
  class ← optional_u16 parameters (lit "class") CLASS_IN;
  _ ← invalid_if (negb ((class =? CLASS_IN) || (class =? CLASS_ANY))) "class";
  rr_type ← record_type parameters;
  ifindex ← optional_ifindex parameters;
  Ok (name, class, rr_type, ifindex).

Definition varlink_record (ifindex : Z) (r : AnswerRecord) : Value :=
  let entries := if 0 <? ifindex then btree_insert (lit "ifindex") (Number ifindex) [] else [] in
  Object (btree_insert (lit "raw") (String (base64 (a_raw r))) entries).

Definition varlink_resolve_record (parameters : Value) : rst Value :=
  or_reply (record_parameters parameters)
    (λ '(name, class, rr_type, ifindex),
       calling (resolve_record_on_link env self fuel name class rr_type (on_link ifindex))
         reply_error
         (λ response,
            records ← parsed (extract_answer_records response);
            mret match records with
                 | None => varlink_error (lit "io.systemd.Resolve.InvalidReply")
                 | Some [] => varlink_error (lit "io.systemd.Resolve.NoSuchResourceRecord")
                 | Some records =>
                     success (object
                       [(lit "rrs", Array (varlink_record ifindex <$> records));
                        (lit "flags", Number (response_flags response))])
                 end)).

(** ** Services *)

Record ServiceEntries : Type := mk_service_entries {
  se_values : list Value;
  se_root_target : bool;
  se_last_address_error : option ResolveError;
}.

Definition has_flag (flags flag : Z) : bool := negb (Z.land flags flag =? 0).

Definition service_entry (r : SrvRecord) (addresses : option (str * list Value)) : Value :=
  let entries := fields
    [(lit "priority", Number (srv_priority r)); (lit "weight", Number (srv_weight r));
     (lit "port", Number (srv_port r)); (lit "hostname", String (name_text (srv_target r)))] in
  Object match addresses with
         | Some (canonical, values) =>
             btree_insert (lit "addresses") (Array values)
               (btree_insert (lit "canonicalName") (String canonical) entries)
         | None => entries
         end.

Fixpoint resolve_service_entries (records : list SrvRecord) (request : ServiceRequest)
    (e : ServiceEntries) : rst ServiceEntries :=
  match records with
  | [] => mret e
  | r :: records =>
      if bool_decide (name_text (srv_target r) = lit ".") then
        resolve_service_entries records request { e with se_root_target := true }
      else if has_flag (sv_flags request) SD_RESOLVED_NO_ADDRESS then
        resolve_service_entries records request
          { e with se_values := se_values e ++ [service_entry r None] }
      else
        r' ← attempt (lookup_name_on_link env self fuel (name_text (srv_target r))
               (sv_family request) (on_link (sv_ifindex request)));
        match r' with
        | Ok lookup =>
            let values := (λ a, resolved_address a (sv_ifindex request)) <$> nl_addresses lookup in
            resolve_service_entries records request
              { e with se_values := se_values e ++
                  [service_entry r (Some (nl_canonical_name lookup, values))] }
        | Err error =>
            resolve_service_entries records request { e with se_last_address_error := Some error }
        | Panic => lift Panic
        | Diverge => lift Diverge
        end
  end.

Definition service_parameters (q : ServiceQuestion) (services : list Value) (srv_response : bytes)
    (request_flags : Z) : list (str * Value) :=
  fields
    [(lit "services", Array services);
     (lit "canonical",
      object [(lit "name", or_null String (sq_name q)); (lit "type", String (sq_service_type q));
              (lit "domain", String (sq_domain q))]);
     (lit "flags", Number (Z.lor (response_flags srv_response)
        (Z.land request_flags (Z.lor SD_RESOLVED_NO_ADDRESS SD_RESOLVED_NO_TXT))))].

Definition add_service_txt (request : ServiceRequest) (output : list (str * Value)) : rst Value :=
  if has_flag (sv_flags request) SD_RESOLVED_NO_TXT then mret (success (Object output))
  else
    calling (resolve_record_on_link env self fuel (sq_owner (sv_question request)) CLASS_IN TYPE_TXT
               (on_link (sv_ifindex request)))
      (λ e, match e with
            | RNoSuchResourceRecord => mret (success (Object output))
            | e => reply_error e
            end)
      (λ response,
         records ← parsed (extract_service_records response);
         mret match records with
              | None => varlink_error (lit "io.systemd.Resolve.InvalidReply")
              | Some records =>
                  success (Object
                    (if bool_decide (service_txt records = []) then output
                     else btree_insert (lit "txt")
                            (Array ((λ item, String (octescape item)) <$> service_txt records))
                            output))
              end).

Definition varlink_resolve_service (parameters : Value) : rst Value :=
  or_reply (service_request parameters)
    (λ request,
       let request := apply_refused_service_flags self request in
       calling (resolve_record_on_link env self fuel (sq_owner (sv_question request)) CLASS_IN
                  TYPE_SRV (on_link (sv_ifindex request))) reply_error
         (λ srv_response,
            records ← parsed (extract_service_records srv_response);
            match records with
            | None => mret (varlink_error (lit "io.systemd.Resolve.InvalidReply"))
            | Some records =>
                entries ← resolve_service_entries (service_srv records) request
                            (mk_service_entries [] false None);
                if bool_decide (se_values entries = []) then
                  mret (if se_root_target entries
                        then varlink_error (lit "io.systemd.Resolve.ServiceNotProvided")
                        else match se_last_address_error entries with
                             | Some e => resolver_error e
                             | None => varlink_error (lit "io.systemd.Resolve.NoSuchResourceRecord")
                             end)
                else
                  add_service_txt request
                    (service_parameters (sv_question request) (se_values entries) srv_response
                       (sv_flags request))
            end)).
End handlers.

(** ** The configuration *)

Definition support_mode_name (m : SupportMode) : str :=
  lit match m with SupportNo => "no" | SupportResolve => "resolve" | SupportYes => "yes" end.
Definition validation_mode_name (m : ValidationMode) : str :=
  lit match m with
      | ValidationNo => "no" | AllowDowngrade => "allow-downgrade" | ValidationYes => "yes"
      end.
Definition tls_mode_name (m : TlsMode) : str :=
  lit match m with TlsNo => "no" | Opportunistic => "opportunistic" | TlsYes => "yes" end.

Definition search_domain_configuration (d : Domain) (ifindex : option Z) : Value :=
  object [(lit "name", String (d_name d)); (lit "routeOnly", Bool (d_route_only d));
          (lit "ifindex", or_null Number ifindex)].

Definition configured_server_specs (c : Config) (fallback : bool) : list DnsServerSpec :=
  let '(specs, addresses) :=
    if fallback then (fallback_upstream_specs c, fallback_upstreams c)
    else (upstream_specs c, upstreams c) in
  if bool_decide (specs = []) then plain_spec <$> addresses else specs.

Section configuration.
Context (env : Env) (self : Resolver).

Definition dns_server_configuration (default_ifindex : option Z) (accessible : option bool)
    (server : DnsServerSpec) : rst Value :=
  let ip := sock_ip (address server) in
  let '(family, octets) := address_parts ip in
  resolved ← match ConfigTypes.interface server with
             | Some i => try_io (resolve_ifindex env i)
             | None => mret None
             end;
  let ifindex := match resolved with Some i => Some i | None => default_ifindex end in
  let address_string :=
    match ip, ConfigTypes.interface server with
    | V6 _, Some i => show_ip ip ++ lit "%" ++ i
    | _, _ => show_ip ip
    end in
  mret (object
    [(lit "address", octets_value octets); (lit "addressString", String address_string);
     (lit "family", Number family); (lit "port", Number (sock_port (address server)));
     (lit "ifindex", or_null Number ifindex);
     (lit "name", or_null String (server_name server));
     (lit "accessible", or_null Bool accessible)]).

Fixpoint collect {A} (f : A → rst Value) (l : list A) : rst (list Value) :=
  match l with
  | [] => mret []
  | x :: l => v ← f x; vs ← collect f l; mret (v :: vs)
  end.

Definition first_of {A} (f : A → rst Value) (o : option A) : rst Value :=
  match o with Some a => f a | None => mret Null end.

Definition global_dns_configuration : rst Value :=
  let c := rs_config self in
  let servers := configured_server_specs c false in
  let fallback_servers := configured_server_specs c true in
  let describe := dns_server_configuration None (Some true) in
  current ← first_of describe
    (match head servers with Some s => Some s | None => head fallback_servers end);
  mode ← try_io (system_resolv_conf_mode env (runtime_directory c));
  described ← collect describe servers;
  described_fallback ← collect describe fallback_servers;
  mret (object
    [(lit "ifname", Null); (lit "ifindex", Null); (lit "delegate", Null);
     (lit "defaultRoute", Null); (lit "currentServer", current);
     (lit "servers", Array described); (lit "fallbackServers", Array described_fallback);
     (lit "searchDomains", Array ((λ d, search_domain_configuration d None) <$> domains c));
     (lit "negativeTrustAnchors", Null);
     (lit "dnssec", String (validation_mode_name (dnssec c))); (lit "dnssecSupported", Null);
     (lit "dnsOverTLS", String (tls_mode_name (dns_over_tls c)));
     (lit "llmnr", String (support_mode_name (llmnr c)));
     (lit "mDNS", String (support_mode_name (multicast_dns c)));
     (lit "resolvConfMode", String (resolv_conf_mode_as_str (default Foreign mode)));
     (lit "scopes", Null)]).

Definition link_dns_configuration (l : LinkState) : rst Value :=
  servers ← link_dns_specs env (l_ifindex l);
  let describe :=
    dns_server_configuration (Some (l_ifindex l)) (Some (kernel_relevant_unicast l)) in
  current ← first_of describe (head servers);
  described ← collect describe servers;
  mret (object
    [(lit "ifname", or_null (λ k, String (kl_ifname k)) (l_kernel l));
     (lit "ifindex", Number (l_ifindex l)); (lit "delegate", Null);
     (lit "defaultRoute", or_null Bool (l_default_route l)); (lit "currentServer", current);
     (lit "servers", Array described); (lit "fallbackServers", Null);
     (lit "searchDomains",
      Array ((λ d, search_domain_configuration d (Some (l_ifindex l))) <$> l_domains l));
     (lit "negativeTrustAnchors", Array (String <$> l_dnssec_negative_trust_anchors l));
     (lit "dnssec", String (validation_mode_name (l_dnssec l))); (lit "dnssecSupported", Null);
     (lit "dnsOverTLS", String (tls_mode_name (l_dns_over_tls l)));
     (lit "llmnr", String (support_mode_name (l_llmnr l)));
     (lit "mDNS", String (support_mode_name (l_multicast_dns l)));
     (lit "resolvConfMode", Null); (lit "scopes", Null)]).

Definition resolver_links : rst (list LinkState) :=
  reading env (λ sh, table_links (sh_routing sh)).

Definition dump_dns_configuration : rst Value :=
  global ← global_dns_configuration;
  links ← resolver_links;
  described ← collect link_dns_configuration links;
  mret (success (object [(lit "configuration", Array (global :: described))])).

(** ** The monitor *)

Definition monitor_scope_cache (protocol : str) (family ifindex : option Z) (ifname : option str)
    (cache : list Value) (dnssec dns_over_tls : option str) : Value :=
  let add {A} (key : string) (f : A → Value) (o : option A) (m : list (str * Value)) :=
    match o with Some a => btree_insert (lit key) (f a) m | None => m end in
  Object (add "dnsOverTLS" String dns_over_tls (add "dnssec" String dnssec
    (add "ifname" String ifname (add "ifindex" Number ifindex (add "family" Number family
      (fields [(lit "protocol", String protocol); (lit "cache", Array cache)])))))).

Definition u128_max : Z := 2 ^ 128 - 1.
Definition i128_max : Z := 2 ^ 127 - 1.

(** The loop over at most six octets of the fraction; [None] at one that is not
    a digit. *)
Fixpoint fraction_micros (digits : bytes) (acc scale : Z) : option Z :=
  match digits with
  | [] => Some acc
  | b :: digits =>
      if is_digit b then
        fraction_micros digits (Z.min u128_max (acc + Z.min u128_max ((b - 48) * scale))) (scale / 10)
      else None
  end.

Definition uptime_micros (text : str) : Z :=
  match split_whitespace text with
  | [] => 0
  | value :: _ =>
      let '(seconds, fraction) := default (value, []) (split_once dot value) in
      match parse_unsigned u128_max seconds, fraction_micros (take 6 (as_bytes fraction)) 0 100000 with
      | Some s, Some f =>
          Z.min i128_max (Z.min u128_max (Z.min u128_max (s * 1000000) + f))
      | _, _ => 0
      end
  end.

Definition boottime_usec : rst Z :=
  text ← next_event (λ n, os_read_file env n (lit "/proc/uptime"));
  mret match text with inr (Some text) => uptime_micros text | _ => 0 end.

Definition cache_until_usec (remaining : Z) : rst Z :=
  boot ← boottime_usec;
  mret (Z.min i128_max (boot + Z.min i128_max (remaining / 1000))).
End configuration.

Definition cache_type_name (rcode : Z) : str :=
  lit (if rcode =? 0 then "NODATA" else if rcode =? 2 then "SERVFAIL"
       else if rcode =? 3 then "NXDOMAIN" else if rcode =? 5 then "REFUSED" else "ERROR").

Definition invalid_name : str := lit "<invalid>".

(** [offset] never exceeds the length, so as many rounds are enough. *)
Fixpoint wire_labels (n : nat) (name : bytes) (labels : list str) : str :=
  match n with
  | O => invalid_name
  | S n =>
      match name with
      | [] => invalid_name
      | length :: rest =>
          if length =? 0 then
            if bool_decide (labels = []) then lit "." else join_with [dot] labels
          else if 63 <? length then invalid_name
          else match slice rest 0 length with
               | None => invalid_name
               | Some label =>
                   wire_labels n (drop (Z.to_nat length) rest) (labels ++ [from_utf8_lossy label])
               end
      end
  end.

Definition wire_name_text (name : bytes) : str := wire_labels (length name) name [].

Definition monitor_resource_key (name : bytes) (class rr_type : Z) : Value :=
  object [(lit "class", Number class); (lit "type", Number rr_type);
          (lit "name", String (wire_name_text name))].

Fixpoint monitor_txt_loop (n : nat) (p : bytes) (items : list Value) : list Value :=
  match n, p with
  | S n, length :: rest =>
      if len rest <? length then []
      else monitor_txt_loop n (drop (Z.to_nat length) rest)
             (items ++ [String (octescape (take (Z.to_nat length) rest))])
  | _, _ => items
  end.

Definition monitor_txt_items (p : bytes) : list Value := monitor_txt_loop (length p) p [].

Definition monitor_fields (rr_type : Z) (rdata : bytes) : list (str * Value) :=
  if (rr_type =? TYPE_A) && (len rdata =? 4) then [(lit "address", octets_value rdata)]
  else if (rr_type =? TYPE_AAAA) && (len rdata =? 16) then [(lit "address", octets_value rdata)]
  else if rr_type =? TYPE_TXT then
    let items := monitor_txt_items rdata in
    if bool_decide (items = []) then [] else [(lit "items", Array items)]
  else [].

Definition monitor_resource_record (r : AnswerRecord) : rst Value :=
  parsed ← parsed (parse_record (a_raw r) 0);
  mret (Object (fields
    ((lit "key", monitor_resource_key (canonical_wire (a_name r)) (a_class r) (a_rr_type r)) ::
     match parsed with Some p => monitor_fields (a_rr_type r) (r_rdata p) | None => [] end))).

Definition monitor_record (r : AnswerRecord) : rst Value :=
  rr ← monitor_resource_record r;
  mret (object [(lit "rr", rr); (lit "raw", String (base64 (a_raw r)))]).

Definition monitor_server_state (s : ResolverServerState) : Value :=
  let add {A} (key : string) (f : A → Value) (o : option A) (m : list (str * Value)) :=
    match o with Some a => btree_insert (lit key) (f a) m | None => m end in
  Object (add "InterfaceIndex" Number (st_interface_index s)
    (add "Interface" String (st_interface s)
      (fields
        [(lit "Server", String (st_server s)); (lit "Type", String (st_server_type s));
         (lit "VerifiedFeatureLevel", String (st_verified_feature_level s));
         (lit "PossibleFeatureLevel", String (st_possible_feature_level s));
         (lit "DNSSECMode", String (st_dnssec_mode s));
         (lit "DNSSECSupported", Bool (st_dnssec_supported s));
         (lit "ReceivedUDPFragmentMax", Number (st_received_udp_fragment_max s));
         (lit "FailedUDPAttempts", Number (st_failed_udp_attempts s));
         (lit "FailedTCPAttempts", Number (st_failed_tcp_attempts s));
         (lit "PacketTruncated", Bool (st_packet_truncated s));
         (lit "PacketBadOpt", Bool (st_packet_bad_opt s));
         (lit "PacketRRSIGMissing", Bool (st_packet_rrsig_missing s));
         (lit "PacketInvalid", Bool (st_packet_invalid s));
         (lit "PacketDoOff", Bool (st_packet_do_off s))]))).

Definition statistics_value (s : ResolverStats) : Value :=
  let c := rt_counters s in
  success (object
    [(lit "transactions", Number (ct_transactions c)); (lit "cacheHits", Number (ct_cache_hits c));
     (lit "cacheMisses", Number (ct_cache_misses c)); (lit "failures", Number (ct_failures c));
     (lit "localAnswers", Number (ct_local_answers c));
     (lit "cacheEntries", Number (rt_cache_entries s))]).

Definition monitor_statistics_value (s : ResolverStats) : Value :=
  let c := rt_counters s in
  success (object
    [(lit "transactions", object
       [(lit "currentTransactions", Number (ct_current_transactions c));
        (lit "totalTransactions", Number (ct_transactions c));
        (lit "totalTimeouts", Number (ct_timeouts c));
        (lit "totalTimeoutsServedStale", Number (ct_timeouts_served_stale c));
        (lit "totalFailedResponses", Number (ct_failures c));
        (lit "totalFailedResponsesServedStale", Number (ct_failures_served_stale c))]);
     (lit "cache", object
       [(lit "size", Number (rt_cache_entries s)); (lit "hits", Number (ct_cache_hits c));
        (lit "misses", Number (ct_cache_misses c))]);
     (lit "dnssec", object
       [(lit "secure", Number 0); (lit "insecure", Number 0); (lit "bogus", Number 0);
        (lit "indeterminate", Number 0)])]).

Section dispatch.
Context (env : Env) (self : Resolver) (fuel : nat) `{order : !IterOrder XKey CacheEntry}.
(** [CARGO_PKG_VERSION], set by the build. *)
Context (version : str).

Definition monitor_cache_entry (e : CacheSnapshot) : rst Value :=
  until ← cache_until_usec env (sn_remaining e);
  records ← (if sn_rcode e =? 0 then
               r ← parsed (extract_answer_records (sn_response e)); mret (default [] r)
             else mret []);
  let base :=
    [(lit "key", monitor_resource_key (sn_name e) (sn_class e) (sn_rr_type e));
     (lit "until", Number until)] in
  if (sn_rcode e =? 0) && negb (bool_decide (records = [])) then
    rrs ← collect monitor_record records;
    mret (Object (fields (base ++ [(lit "rrs", Array rrs)])))
  else mret (Object (fields (base ++ [(lit "type", String (cache_type_name (sn_rcode e)))]))).

Definition monitor_link_cache (l : LinkState) : Value :=
  monitor_scope_cache (lit "dns") None (Some (l_ifindex l)) (kl_ifname <$> l_kernel l) []
    (Some (validation_mode_name (l_dnssec l))) (Some (tls_mode_name (l_dns_over_tls l))).

Definition monitor_dump_cache : rst Value :=
  snapshot ← resolver_cache_snapshot env;
  entries ← collect monitor_cache_entry snapshot;
  let global :=
    monitor_scope_cache (lit "dns") None None None entries
      (Some (validation_mode_name (dnssec (rs_config self))))
      (Some (tls_mode_name (dns_over_tls (rs_config self)))) in
  links ← resolver_links env;
  mret (success (object [(lit "dump", Array (global :: (monitor_link_cache <$> links)))])).

Definition monitor_dump_server_state : rst Value :=
  states ← server_state_snapshot env self;
  mret (success (object [(lit "dump", Array (monitor_server_state <$> states))])).

Definition monitor_dump_statistics : rst Value :=
  s ← stats env;
  mret (monitor_statistics_value s).

Definition statistics : rst Value :=
  s ← stats env;
  mret (statistics_value s).

Definition permission_denied : Value := varlink_error (lit "org.varlink.service.PermissionDenied").

(** Also [monitor_authorized] with an operation that returns an empty object. *)
Definition control (can_control : bool) (operation : rst unit) : rst Value :=
  if can_control then _ ← operation; mret (success (Object []))
  else mret permission_denied.

Definition get_info (e : VarlinkEndpoint) : Value :=
  success (object
    [(lit "vendor", String (lit "SisyphusAeolides"));
     (lit "product", String (lit "systemd-resolved-rs"));
     (lit "version", String version);
     (lit "url", String (lit "https://github.com/SisyphusAeolides/systemd-resolved-rs"));
     (lit "interfaces", Array (interfaces e))]).

Definition get_interface_description (e : VarlinkEndpoint) (parameters : Value) : Value :=
  match (json_get parameters (lit "interface") ≫= as_str) ≫= description e with
  | Some d => success (object [(lit "description", String d)])
  | None => varlink_error (lit "org.varlink.service.InterfaceNotFound")
  end.

Definition method_not_found : Value := varlink_error (lit "org.varlink.service.MethodNotFound").

(** The arms of the match over the method, in its order. *)
Definition call_method (can_control : bool) (e : VarlinkEndpoint) (method : str)
    (parameters : Value) : rst Value :=
  let named (name : string) : bool := bool_decide (method = lit name) in
  if named "org.varlink.service.GetInfo" then mret (get_info e)
  else if named "org.varlink.service.GetInterfaceDescription" then
    mret (get_interface_description e parameters)
  else if named "io.systemd.Resolve.ResolveHostname" then
    varlink_resolve_hostname env self fuel parameters
  else if named "io.systemd.Resolve.ResolveAddress" then
    varlink_resolve_address env self fuel parameters
  else if named "io.systemd.Resolve.ResolveRecord" then
    varlink_resolve_record env self fuel parameters
  else if named "io.systemd.Resolve.ResolveService" then
    varlink_resolve_service env self fuel parameters
  else if named "io.systemd.Resolve.DumpDNSConfiguration" then dump_dns_configuration env self
  else if named "io.systemd.Resolve.Monitor.DumpCache" then monitor_dump_cache
  else if named "io.systemd.Resolve.Monitor.DumpServerState" then monitor_dump_server_state
  else if named "io.systemd.Resolve.Monitor.DumpStatistics" then monitor_dump_statistics
  else if named "io.systemd.Resolve.Monitor.ResetStatistics" then
    control can_control (reset_statistics env)
  else if named "io.systemd.Resolve.FlushCaches" then control can_control (flush_cache env)
  else if named "io.systemd.Resolve.ResetServerFeatures" then
    control can_control (reset_server_features env)
  else if named "io.systemd.Resolve.ResetStatistics" then control can_control (reset_statistics env)
  else if named "io.systemd.Resolve.GetStatistics" then statistics
  else mret method_not_found.

Definition dispatch_for_endpoint (input : str) (can_control : bool) (e : VarlinkEndpoint) :
    rst Value :=
  match json_parse input with
  | Ok request =>
      match json_get request (lit "method") ≫= as_str with
      | None => mret (invalid_parameter (lit "method"))
      | Some method =>
          if negb (allows e method) then mret method_not_found
          else call_method can_control e method
                 (default (Object []) (json_get request (lit "parameters")))
      end
  | Err _ => mret (invalid_parameter (lit "message"))
  | Panic => lift Panic
  | Diverge => lift Diverge
  end.

Definition dispatch_with_access (input : str) (can_control : bool) : rst Value :=
  dispatch_for_endpoint input can_control EndAny.

Definition dispatch (input : str) : rst Value := dispatch_with_access input false.

(** ** A connection *)

(** What the connection wrote, and the error that ended it. *)
Record served : Type := mk_served {
  sv_written : bytes;
  sv_error : option IoError;
}.

(** [position] of the first NUL and [drain(..=end)]. *)
Fixpoint take_message (pending : bytes) : option (bytes * bytes) :=
  match pending with
  | [] => None
  | b :: rest =>
      if b =? 0 then Some ([], rest)
      else (λ '(message, rest), (b :: message, rest)) <$> take_message rest
  end.

Definition reply_to (message : bytes) (can_control : bool) (e : VarlinkEndpoint) : rst Value :=
  match from_utf8 message with
  | Some text => dispatch_for_endpoint text can_control e
  | None => mret (invalid_parameter (lit "message"))
  end.

(** [write_all] of event [n]. *)
Context (os_write : nat → bytes → io unit).

Definition too_large : IoError := IoInvalidData (lit "Varlink message is too large").

(** The messages in [pending], then the next read.  Each round takes a message
    or a read, so their number bounds the rounds. *)
Fixpoint serve_loop (n : nat) (can_control : bool) (e : VarlinkEndpoint) (pending : bytes)
    (reads : list (io bytes)) (written : bytes) : rst served :=
  match n with
  | O => lift Diverge
  | S n =>
      match take_message pending with
      | Some (message, pending) =>
          reply ← reply_to message can_control e;
          let text := as_bytes (to_json reply) in
          r ← next_event (λ k, os_write k text);
          match r with
          | inl error => mret (mk_served written (Some error))
          | inr _ =>
              r ← next_event (λ k, os_write k [0]);
              match r with
              | inl error => mret (mk_served (written ++ text) (Some error))
              | inr _ => serve_loop n can_control e pending reads (written ++ text ++ [0])
              end
          end
      | None =>
          match reads with
          | [] => mret (mk_served written None)
          | inl error :: _ => mret (mk_served written (Some error))
          | inr [] :: _ => mret (mk_served written None)
          | inr chunk :: reads =>
              let pending := pending ++ chunk in
              if MAX_MESSAGE_SIZE <? len pending then mret (mk_served written (Some too_large))
              else serve_loop n can_control e pending reads written
          end
      end
  end.

Definition input_size (reads : list (io bytes)) : nat :=
  list_sum ((λ r, match r with inr chunk => length chunk | inl _ => 0%nat end) <$> reads).

(** Whether the peer's credentials are known to be root's. *)
Definition peer_can_control (peer : io Z) : bool :=
  match peer with inr uid => uid =? 0 | inl _ => false end.

(** [timeout] is the result of [set_read_timeout], [reads] are the results of the
    reads, the end of the stream after them; [peer] is the user at the other
    end. *)
Definition serve_connection (timeout : io unit) (peer : io Z) (reads : list (io bytes))
    (e : VarlinkEndpoint) : rst served :=
  match timeout with
  | inl error => mret (mk_served [] (Some error))
  | inr _ => serve_loop (S (length reads + input_size reads)) (peer_can_control peer) e [] reads []
  end.
End dispatch.

(** ** Activated sockets *)

(** The loop over the descriptors; a name is given for each or for none. *)
Fixpoint assign_fds (index : Z) (names : list (option str)) (main monitor : option Z) :
    iores (option Z * option Z) :=
  match names with
  | [] => Ok (main, monitor)
  | name :: names =>
      let fd := 3 + index in
      match name with
      | None =>
          if index =? 0 then assign_fds (index + 1) names (Some fd) monitor
          else assign_fds (index + 1) names main (Some fd)
      | Some name =>
          if bool_decide (name = lit "varlink") && negb (bool_decide (is_Some main))
          then assign_fds (index + 1) names (Some fd) monitor
          else if bool_decide (name = lit "varlink-monitor") && negb (bool_decide (is_Some monitor))
          then assign_fds (index + 1) names main (Some fd)
          else if bool_decide (name = lit "varlink") || bool_decide (name = lit "varlink-monitor")
          then Err (IoInvalidInput (lit "duplicate activated Varlink descriptor name"))
          else Err (IoInvalidInput (lit "unexpected activated Varlink descriptor name"))
      end
  end.

Definition activated_varlink_fds (count : Z) (names : option str) : iores (option Z * option Z) :=
  if count =? 0 then Ok (None, None)
  else if 2 <? count
  then Err (IoInvalidInput (lit "expected at most two activated Varlink descriptors"))
  else
    match split_on 58 <$> nonempty names with
    | Some names =>
        if len names =? count then assign_fds 0 (Some <$> names) None None
        else Err (IoInvalidInput
               (lit "activated Varlink descriptor names do not match descriptor count"))
    | None => assign_fds 0 (replicate (Z.to_nat count) None) None None
    end.
