(* ===== verification/Dbus.v ===== *)
(** * D-Bus

    Models [src/dbus.rs] ([dbus_core.rs], [dbus_manager.rs], [dbus_link.rs],
    [dbus_helpers.rs]): the methods and properties of the Manager and Link
    objects, the conversion of their arguments and replies, the mapping of
    errors, and the Link objects that follow the links of the resolver.  Which
    method a message calls is decided by zbus, outside the repository; a call is
    a value of [ManagerMethod] or [LinkMethod].  A method returns a
    [DbusError + A]; the texts [libc] gives for error numbers ([strerror]) and the
    object paths zbus accepts ([object_path]) are parameters. *)

From S2P Require Import Prelude Stateful Text Net Sorting ConfigTypes Config Codec Packet Records.
From S2P Require Import CacheX Cache Routing Edns World Servers Links Exchange Query Lookup.
From S2P Require Import ResolvConf Varlink.

Definition LINK_PATH_PREFIX : str := lit "/org/freedesktop/resolve1/link".
Definition AF_UNSPEC : Z := 0.
Definition AF_INET : Z := 2.
Definition AF_INET6 : Z := 10.
Definition DBUS_DNS_PORT : Z := 53.
Definition SD_RESOLVED_DNS : Z := Z.shiftl 1 0.
Definition SD_RESOLVED_LLMNR_IPV4 : Z := Z.shiftl 1 1.
Definition SD_RESOLVED_LLMNR_IPV6 : Z := Z.shiftl 1 2.
Definition SD_RESOLVED_MDNS_IPV4 : Z := Z.shiftl 1 3.
Definition SD_RESOLVED_MDNS_IPV6 : Z := Z.shiftl 1 4.
Definition SD_RESOLVED_PROTOCOL_DNS : Z := Z.shiftl 1 10.

(** ** Errors *)

Inductive DbusError : Type :=
  | ZBus (message : str)
  | DNoNameServers (message : str)
  | DInvalidReply (message : str)
  | DCNameLoop (message : str)
  | DNoSuchResourceRecord (message : str)
  | DNoSuchService (message : str)
  | DResourceRecordTypeUnsupported (message : str)
  | DNoSuchLink (message : str)
  | DLinkBusy (message : str)
  | DNetworkDown (message : str)
  | DInvalidArgs (message : str)
  | DNotSupported (message : str)
  | DnsFormErr (message : str)
  | DnsServFail (message : str)
  | DnsNxDomain (message : str)
  | DnsNotImp (message : str)
  | DnsRefused (message : str)
  | DnsYxDomain (message : str)
  | DnsYrrset (message : str)
  | DnsNxrrset (message : str)
  | DnsNotAuth (message : str)
  | DnsNotZone (message : str)
  | DnsBadVers (message : str)
  | DnsBadKey (message : str)
  | DnsBadTime (message : str)
  | DnsBadMode (message : str)
  | DnsBadName (message : str)
  | DnsBadAlg (message : str)
  | DnsBadTrunc (message : str)
  | DnsBadCookie (message : str).

(** [Display] of an [i32]. *)
Definition show_i32 (v : Z) : str :=
  if v <? 0 then lit "-" ++ show_unsigned (- v) else show_unsigned v.

Definition wire_error_text (e : WireError) : str :=
  match e with
  | ShortPacket => lit "short DNS packet"
  | InvalidLabel => lit "invalid DNS label"
  | CompressionLoop => lit "DNS compression loop"
  | NameTooLong => lit "DNS name exceeds 255 wire octets"
  | TrailingData => lit "data follows the declared DNS sections"
  | WrongDirection => lit "unexpected DNS packet direction"
  | UnsupportedOpcode opcode => lit "unsupported DNS opcode " ++ show_unsigned opcode
  | WrongQuestionCount count => lit "DNS packet contains " ++ show_unsigned count ++ lit " questions"
  | NoQuestion => lit "DNS packet has no question"
  | QuestionMismatch => lit "DNS response question does not match the query"
  | InvalidName name => lit "invalid DNS name: " ++ name
  | InvalidRecord => lit "invalid DNS resource record"
  | CnameLoop => lit "CNAME or DNAME redirect loop or limit exceeded"
  | ResponseTooLarge => lit "DNS response exceeds 65535 octets"
  end.

Definition link_error_text (e : LinkError) : str :=
  match e with
  | InvalidIfindex ifindex => lit "invalid interface index " ++ show_i32 ifindex
  | InvalidDomain domain => lit "invalid routing domain " ++ domain
  | NoSuchLink ifindex => lit "no state exists for interface " ++ show_i32 ifindex
  | ManagedLink ifindex => lit "link " ++ show_i32 ifindex ++ lit " is managed"
  end.

Definition map_link_error (error : LinkError) : DbusError :=
  match error with
  | NoSuchLink _ | InvalidIfindex _ => DNoSuchLink (link_error_text error)
  | ManagedLink _ => DLinkBusy (link_error_text error)
  | InvalidDomain _ => DInvalidArgs (link_error_text error)
  end.

Definition dns_rcode_error (rcode : Z) (message : str) : DbusError :=
  match rcode with
  | 1 => DnsFormErr message
  | 2 => DnsServFail message
  | 3 => DnsNxDomain message
  | 4 => DnsNotImp message
  | 5 => DnsRefused message
  | 6 => DnsYxDomain message
  | 7 => DnsYrrset message
  | 8 => DnsNxrrset message
  | 9 => DnsNotAuth message
  | 10 => DnsNotZone message
  | 16 => DnsBadVers message
  | 17 => DnsBadKey message
  | 18 => DnsBadTime message
  | 19 => DnsBadMode message
  | 20 => DnsBadName message
  | 21 => DnsBadAlg message
  | 22 => DnsBadTrunc message
  | 23 => DnsBadCookie message
  | _ => DInvalidReply message
  end.

Section errors.
Context (strerror : Z → str).

Definition os_error_text (errno : Z) : str :=
  strerror errno ++ lit " (os error " ++ show_i32 errno ++ lit ")".

(** [Display] of [io::Error]; a receive that would block is error 11. *)
Definition io_error_text (e : IoError) : str :=
  match e with
  | IoTimedOut m | IoInvalidData m | IoInvalidInput m | IoWriteZero m | IoUnexpectedEof m => m
  | IoWouldBlock => os_error_text 11
  | IoOs errno => os_error_text errno
  end.

Definition resolve_error_text (e : ResolveError) : str :=
  match e with
  | RIo error => io_error_text error
  | RWire error => wire_error_text error
  | RLink error => link_error_text error
  | RNoNameServers => lit "no DNS name servers are configured"
  | RNoSuchResourceRecord => lit "no such DNS resource record"
  | RDnsError rcode query =>
      lit "DNS response code " ++ show_unsigned rcode ++ lit " for " ++ query
  | RDnssecValidationFailed result _ _ => lit "DNSSEC validation failed: " ++ result
  | RNoTrustAnchor => lit "no DNSSEC trust anchor"
  | RQueryAborted => lit "DNS query aborted"
  | RQueryRefused => lit "DNS query refused"
  | RResourceRecordTypeObsolete => lit "DNS resource record type is obsolete"
  | RInconsistentServiceRecords => lit "DNS service records are inconsistent"
  | RStubLoop => lit "DNS stub loop detected"
  | RUnsupportedFamily family => lit "unsupported address family " ++ show_i32 family
  | RProtocol message => lit "DNS protocol error: " ++ message
  end.

Definition map_resolve_error (error : ResolveError) : DbusError :=
  let text := resolve_error_text error in
  match error with
  | RNoNameServers => DNoNameServers text
  | RNoSuchResourceRecord => DNoSuchResourceRecord text
  | RLink link => map_link_error link
  | RUnsupportedFamily _ => DInvalidArgs text
  | RIo _ => DNetworkDown text
  | RWire CnameLoop => DCNameLoop text
  | RDnsError rcode _ => dns_rcode_error rcode text
  | RQueryRefused => DnsRefused text
  | RResourceRecordTypeObsolete => DResourceRecordTypeUnsupported text
  | RQueryAborted => DNetworkDown text
  | RDnssecValidationFailed _ _ _ | RNoTrustAnchor | RInconsistentServiceRecords | RStubLoop
  | RWire _ | RProtocol _ => DInvalidReply text
  end.
End errors.

(** ** Arguments *)

Abbreviation dres A := (DbusError + A)%type.

Definition validate_lookup_ifindex (ifindex : Z) : dres unit :=
  if ifindex <? 0 then inl (DInvalidArgs (lit "invalid interface index " ++ show_i32 ifindex))
  else inr ().

Definition positive_ifindex (ifindex : Z) : option Z :=
  if 0 <? ifindex then Some ifindex else None.

Definition validate_family (family : Z) : dres unit :=
  if bool_decide (family ∈ [AF_UNSPEC; AF_INET; AF_INET6]) then inr ()
  else inl (DInvalidArgs (lit "unsupported address family " ++ show_i32 family)).

Definition decode_address (family : Z) (address : bytes) : dres IpAddr :=
  if (family =? AF_INET) && (len address =? 4) then inr (V4 address)
  else if (family =? AF_INET6) && (len address =? 16) then inr (V6 address)
  else inl (DInvalidArgs (lit "address length does not match family " ++ show_i32 family)).

Definition address_bytes (a : IpAddr) : Z * bytes :=
  match a with V4 octets => (AF_INET, octets) | V6 octets => (AF_INET6, octets) end.

(** [iter().map(f).collect::<Result<Vec<_>, _>>()]: the first error is returned. *)
Fixpoint collect_decoded {A B} (f : A → dres B) (l : list A) : dres (list B) :=
  match l with
  | [] => inr []
  | x :: l =>
      match f x with
      | inl e => inl e
      | inr y => match collect_decoded f l with inl e => inl e | inr ys => inr (y :: ys) end
      end
  end.

Definition decode_dns_servers (addresses : list (Z * bytes)) (port : Z) : dres (list SocketAddr) :=
  collect_decoded (λ '(family, address),
    match decode_address family address with
    | inl e => inl e
    | inr ip => inr (sock_new ip port)
    end) addresses.

Definition dns_ex_input_port (port : Z) : Z :=
  if bool_decide (port ∈ [0; 53; 853]) then DBUS_DNS_PORT else port.

Definition dns_ex_output_port (port : Z) : Z := if bool_decide (port ∈ [53; 853]) then 0 else port.

Definition decode_dns_server_spec (entry : Z * bytes * Z * str) : dres DnsServerSpec :=
  let '(family, address, port, name) := entry in
  match decode_address family address with
  | inl e => inl e
  | inr ip =>
      inr (mk_spec (sock_new ip (dns_ex_input_port port)) None
             (if bool_decide (name = []) then None else Some name))
  end.

Definition decode_dns_server_specs (addresses : list (Z * bytes * Z * str)) :
    dres (list DnsServerSpec) :=
  collect_decoded decode_dns_server_spec addresses.

Definition mode_text (value : str) : str := to_ascii_lowercase (trim value).

Definition one_of (value : str) (l : list string) : bool := bool_decide (value ∈ lit <$> l).

Definition dbus_parse_support_mode (value : str) : dres SupportMode :=
  let v := mode_text value in
  if one_of v [""%string; "yes"; "true"; "on"; "1"]%string then inr SupportYes
  else if one_of v ["resolve"]%string then inr SupportResolve
  else if one_of v ["no"; "false"; "off"; "0"]%string then inr SupportNo
  else inl (DInvalidArgs (lit "invalid resolver support mode " ++ value)).

Definition dbus_parse_tls_mode (value : str) : dres TlsMode :=
  let v := mode_text value in
  if one_of v [""%string; "no"; "false"; "off"; "0"]%string then inr TlsNo
  else if one_of v ["opportunistic"]%string then inr Opportunistic
  else if one_of v ["yes"; "true"; "on"; "1"]%string then inr TlsYes
  else inl (DInvalidArgs (lit "invalid DNS-over-TLS mode " ++ value)).

Definition dbus_parse_validation_mode (value : str) : dres ValidationMode :=
  let v := mode_text value in
  if one_of v [""%string; "allow-downgrade"]%string then inr AllowDowngrade
  else if one_of v ["no"; "false"; "off"; "0"]%string then inr ValidationNo
  else if one_of v ["yes"; "true"; "on"; "1"]%string then inr ValidationYes
  else inl (DInvalidArgs (lit "invalid DNSSEC mode " ++ value)).

Definition support_mode_string (m : SupportMode) : str :=
  lit match m with SupportNo => "no" | SupportResolve => "resolve" | SupportYes => "yes" end.
Definition tls_mode_string (m : TlsMode) : str :=
  lit match m with TlsNo => "no" | Opportunistic => "opportunistic" | TlsYes => "yes" end.
Definition validation_mode_string (m : ValidationMode) : str :=
  lit match m with
      | ValidationNo => "no" | AllowDowngrade => "allow-downgrade" | ValidationYes => "yes"
      end.

(** ** Services *)

Definition dbus_service_instance_is_valid (value : str) : bool :=
  negb (bool_decide (value = [])) && (str_len value <=? 63) && is_ascii value
  && negb (existsb (λ b, (b =? dot) || (b =? 0)) value).

Definition valid_service_label (value : str) : bool :=
  starts_with value (lit "_") && (1 <? str_len value) && (str_len value <=? 63) && is_ascii value
  && forallb (λ b, is_alphanumeric b || (b =? 45)) (drop 1 value).

Definition dbus_service_type_is_valid (value : str) : bool :=
  match split_on dot value with
  | [service; protocol] => valid_service_label service && valid_service_label protocol
  | _ => false
  end.

(** The owner of the SRV records, and the canonical name, type and domain. *)
Definition service_owner (name service_type domain : str) : dres (str * str * str * str) :=
  let name := trim_end_matches dot name in
  let service_type := trim_end_matches dot service_type in
  let domain := trim_end_matches dot domain in
  if bool_decide (domain = []) || negb (dbus_service_type_is_valid service_type)
  then inl (DInvalidArgs (lit "invalid service type or domain"))
  else if negb (bool_decide (name = [])) && negb (dbus_service_instance_is_valid name)
  then inl (DInvalidArgs (lit "invalid service instance name"))
  else
    let owner :=
      if bool_decide (name = []) then service_type ++ [dot] ++ domain
      else name ++ [dot] ++ service_type ++ [dot] ++ domain in
    inr (owner, name, to_ascii_lowercase service_type, to_ascii_lowercase domain).

(** ** Object paths *)

(** [{byte:02x}]. *)
Definition hex_char (d : Z) : Z := if d <? 10 then 48 + d else 87 + d.
Definition show_hex2 (b : Z) : str := [hex_char (Z.shiftr b 4); hex_char (Z.land b 15)].

Definition is_alphabetic (b : Z) : bool :=
  ((65 <=? b) && (b <=? 90)) || ((97 <=? b) && (b <=? 122)).

(** The loop over the octets; [first] is whether the index is zero. *)
Fixpoint encode_label_bytes (first : bool) (value : bytes) : str :=
  match value with
  | [] => []
  | b :: value =>
      (if is_alphabetic b || (negb first && is_digit b) then [b] else lit "_" ++ show_hex2 b)
        ++ encode_label_bytes false value
  end.

Definition encode_bus_label (value : str) : str :=
  if bool_decide (value = []) then lit "_" else encode_label_bytes true (as_bytes value).

(** ** Replies *)

Definition reply_address (ifindex : Z) (a : IpAddr) : Z * Z * bytes :=
  let '(family, octets) := address_bytes a in (Z.max ifindex 0, family, octets).

Definition name_lookup_reply (lookup : NameLookup) (ifindex : Z) :
    list (Z * Z * bytes) * str * Z :=
  (reply_address ifindex <$> nl_addresses lookup, nl_canonical_name lookup,
   Z.lor (nl_flags lookup) SD_RESOLVED_PROTOCOL_DNS).

Definition address_lookup_reply (lookup : AddressLookup) (ifindex : Z) : list (Z * str) * Z :=
  ((λ name, (Z.max ifindex 0, name)) <$> al_names lookup,
   Z.lor (al_flags lookup) SD_RESOLVED_PROTOCOL_DNS).

Definition dbus_response_flags (response : bytes) : Z :=
  match header_parse response with
  | Ok h =>
      Z.lor SD_RESOLVED_PROTOCOL_DNS
        (if negb (Z.land (h_flags h) 0x0020 =? 0) then Z.shiftl 1 9 else 0)
  | _ => SD_RESOLVED_PROTOCOL_DNS
  end.

Definition manager_dns_entry (ifindex : Z) (server : SocketAddr) : Z * Z * bytes :=
  let '(family, octets) := address_bytes (sock_ip server) in (ifindex, family, octets).

Definition manager_dns (servers : list SocketAddr) (ifindex : Z) : list (Z * Z * bytes) :=
  manager_dns_entry ifindex <$> servers.

Definition link_dns_entry (server : SocketAddr) : Z * bytes := address_bytes (sock_ip server).

Definition link_dns_ex_entry (server : DnsServerSpec) : Z * bytes * Z * str :=
  let '(family, octets) := address_bytes (sock_ip (address server)) in
  (family, octets, dns_ex_output_port (sock_port (address server)), default [] (server_name server)).

Section methods.
Context (strerror : Z → str) (object_path : str → str + str).
Context (env : Env) (self : Resolver) (fuel : nat) `{io : !IterOrder XKey CacheEntry}.

Abbreviation dst A := (rst (dres A)).

(** [?] on a [Result<_, DbusError>]. *)
Definition or_error {A B} (r : dres A) (k : A → dst B) : dst B :=
  match r with inl e => mret (inl e) | inr a => k a end.

(** A call of the resolver with [map_err(map_resolve_error)?].  The link
    operations fail with a [LinkError], which [map_resolve_error] maps with
    [map_link_error] as they do. *)
Definition resolved {A B} (m : rst A) (k : A → dst B) : dst B :=
  r ← attempt m;
  match r with
  | Ok a => k a
  | Err e => mret (inl (map_resolve_error strerror e))
  | Panic => lift Panic
  | Diverge => lift Diverge
  end.

Definition returned {A} (m : rst A) : dst A := resolved m (λ a, mret (inr a)).

(** A parser of the wire layer with [map_err(InvalidReply)?]. *)
Definition or_invalid_reply {A B} (r : wres A) (k : A → dst B) : dst B :=
  match r with
  | Ok a => k a
  | Err e => mret (inl (DInvalidReply (wire_error_text e)))
  | Panic => lift Panic
  | Diverge => lift Diverge
  end.

(** ** Resolving *)

Definition dbus_resolve_hostname (ifindex : Z) (name : str) (family flags : Z) :
    dst (list (Z * Z * bytes) * str * Z) :=
  or_error (validate_lookup_ifindex ifindex) (λ _,
    resolved (lookup_name_on_link env self fuel name family (positive_ifindex ifindex))
      (λ lookup, mret (inr (name_lookup_reply lookup ifindex)))).

Definition dbus_resolve_address (ifindex family : Z) (address : bytes) (flags : Z) :
    dst (list (Z * str) * Z) :=
  or_error (validate_lookup_ifindex ifindex) (λ _,
    or_error (decode_address family address) (λ ip,
      resolved (lookup_address_on_link env self fuel ip (positive_ifindex ifindex))
        (λ lookup, mret (inr (address_lookup_reply lookup ifindex))))).

Definition dbus_resolve_record (ifindex : Z) (name : str) (class rr_type flags : Z) :
    dst (list (Z * Z * Z * bytes) * Z) :=
  or_error (validate_lookup_ifindex ifindex) (λ _,
    resolved (resolve_record_on_link env self fuel name class rr_type (positive_ifindex ifindex))
      (λ response,
         or_invalid_reply (extract_answer_records response) (λ records,
           mret (inr ((λ r, (Z.max ifindex 0, a_class r, a_rr_type r, a_raw r)) <$> records,
                      dbus_response_flags response))))).

(** Priority, weight, port, host name, addresses and canonical name. *)
Abbreviation service := (Z * Z * Z * str * list (Z * Z * bytes) * str)%type.

Record service_state : Type := mk_service_state {
  sv_services : list service;
  sv_root_target : bool;
  sv_last_error : option ResolveError;
}.

Fixpoint service_loop (records : list SrvRecord) (ifindex family flags : Z) (s : service_state) :
    rst service_state :=
  match records with
  | [] => mret s
  | r :: records =>
      let push addresses canonical :=
        { s with sv_services := sv_services s ++
            [(srv_priority r, srv_weight r, srv_port r, name_text (srv_target r), addresses,
              canonical)] } in
      if bool_decide (name_text (srv_target r) = lit ".") then
        service_loop records ifindex family flags { s with sv_root_target := true }
      else if Z.land flags SD_RESOLVED_NO_ADDRESS =? 0 then
        found ← attempt (lookup_name_on_link env self fuel (name_text (srv_target r)) family
                           (positive_ifindex ifindex));
        match found with
        | Ok lookup =>
            service_loop records ifindex family flags
              (push (reply_address ifindex <$> nl_addresses lookup) (nl_canonical_name lookup))
        | Err e => service_loop records ifindex family flags { s with sv_last_error := Some e }
        | Panic => lift Panic
        | Diverge => lift Diverge
        end
      else service_loop records ifindex family flags (push [] [])
  end.

Definition no_services {A} (s : service_state) : dres A :=
  if sv_root_target s then inl (DNoSuchService (lit "service is explicitly not provided"))
  else match sv_last_error s with
       | Some e => inl (map_resolve_error strerror e)
       | None => inl (DNoSuchService (lit "service was not found"))
       end.

Definition service_txt_data (owner : str) (ifindex flags : Z) : dst (list bytes) :=
  if negb (Z.land flags SD_RESOLVED_NO_TXT =? 0) then mret (inr [])
  else
    r ← attempt (resolve_record_on_link env self fuel owner CLASS_IN TYPE_TXT
                   (positive_ifindex ifindex));
    match r with
    | Ok response =>
        or_invalid_reply (extract_service_records response) (λ records,
          mret (inr (service_txt records)))
    | Err RNoSuchResourceRecord => mret (inr [])
    | Err e => mret (inl (map_resolve_error strerror e))
    | Panic => lift Panic
    | Diverge => lift Diverge
    end.

Definition service_flags (flags : Z) : Z :=
  let refused := refuse_record_types (rs_config self) in
  let flags := if bool_decide (TYPE_A ∈ refused ∧ TYPE_AAAA ∈ refused)
               then Z.lor flags SD_RESOLVED_NO_ADDRESS else flags in
  if bool_decide (TYPE_TXT ∈ refused) then Z.lor flags SD_RESOLVED_NO_TXT else flags.

Definition resolve_service_reply (ifindex : Z) (name service_type domain : str)
    (family flags : Z) : dst (list service * list bytes * str * str * str * Z) :=
  or_error (service_owner name service_type domain) (λ '(owner, cname, ctype, cdomain),
    let flags := service_flags flags in
    resolved (resolve_record_on_link env self fuel owner CLASS_IN TYPE_SRV
                (positive_ifindex ifindex)) (λ response,
      or_invalid_reply (extract_service_records response) (λ records,
        s ← service_loop (service_srv records) ifindex family flags (mk_service_state [] false None);
        if bool_decide (sv_services s = []) then mret (no_services s)
        else
          txt ← service_txt_data owner ifindex flags;
          or_error txt (λ txt,
            mret (inr (sv_services s, txt, cname, ctype, cdomain,
                       dbus_response_flags response)))))).

Definition dbus_resolve_service (ifindex : Z) (name service_type domain : str)
    (family flags : Z) : dst (list service * list bytes * str * str * str * Z) :=
  or_error (validate_lookup_ifindex ifindex) (λ _,
    or_error (validate_family family) (λ _,
      resolve_service_reply ifindex name service_type domain family flags)).

(** ** Links *)

Definition link_object_path (ifindex : Z) : dres str :=
  if ifindex <=? 0 then inl (DNoSuchLink (lit "invalid interface index " ++ show_i32 ifindex))
  else
    match object_path (LINK_PATH_PREFIX ++ lit "/" ++ encode_bus_label (show_i32 ifindex)) with
    | inr path => inr path
    | inl e => inl (DInvalidArgs e)
    end.

Definition no_link (ifindex : Z) : DbusError :=
  DNoSuchLink (lit "no state exists for interface " ++ show_i32 ifindex).

(** [LinkObject::state]. *)
Definition link_state (ifindex : Z) : dst LinkState :=
  link ← get_link env ifindex;
  mret (match link with Some l => inr l | None => inl (no_link ifindex) end).

Definition dbus_get_link (ifindex : Z) : dst str :=
  link ← link_state ifindex;
  or_error link (λ _, mret (link_object_path ifindex)).

Definition dbus_set_dns (ifindex : Z) (addresses : list (Z * bytes)) : dst unit :=
  or_error (decode_dns_servers addresses DBUS_DNS_PORT)
    (λ servers, returned (set_link_dns env ifindex servers)).
Definition dbus_set_dns_ex (ifindex : Z) (addresses : list (Z * bytes * Z * str)) : dst unit :=
  or_error (decode_dns_server_specs addresses)
    (λ specs, returned (set_link_dns_specs env ifindex specs)).
Definition dbus_set_domains (ifindex : Z) (ds : list (str * bool)) : dst unit :=
  returned (set_link_domains env ifindex ((λ '(name, route_only), mk_domain name route_only) <$> ds)).
Definition dbus_set_default_route (ifindex : Z) (enable : bool) : dst unit :=
  returned (set_link_default_route env ifindex (Some enable)).
Definition dbus_set_llmnr (ifindex : Z) (mode : str) : dst unit :=
  or_error (dbus_parse_support_mode mode) (λ mode, returned (set_link_llmnr env ifindex mode)).
Definition dbus_set_multicast_dns (ifindex : Z) (mode : str) : dst unit :=
  or_error (dbus_parse_support_mode mode) (λ mode, returned (set_link_multicast_dns env ifindex mode)).
Definition dbus_set_dns_over_tls (ifindex : Z) (mode : str) : dst unit :=
  or_error (dbus_parse_tls_mode mode) (λ mode, returned (set_link_dns_over_tls env ifindex mode)).
Definition dbus_set_dnssec (ifindex : Z) (mode : str) : dst unit :=
  or_error (dbus_parse_validation_mode mode) (λ mode, returned (set_link_dnssec env ifindex mode)).
Definition dbus_set_anchors (ifindex : Z) (names : list str) : dst unit :=
  returned (set_link_dnssec_negative_trust_anchors env ifindex names).
Definition dbus_revert (ifindex : Z) : dst unit := returned (revert_link env ifindex).

Definition register_service : dst str :=
  mret (inl (DNotSupported (lit "DNS-SD service registration is not implemented"))).
Definition unregister_service : dst unit :=
  mret (inl (DNotSupported (lit "DNS-SD service registration is not implemented"))).
Definition get_delegate (id : str) : dst str :=
  mret (inl (DNoSuchService (lit "no DNS delegate exists for " ++ id))).

(** ** Properties of a link *)

(** [zbus::fdo::Error::Failed], with the error whose text it shows. *)
Inductive FdoError : Type := FdoFailed (error : DbusError).

Definition link_property {A} (ifindex : Z) (f : LinkState → A) : rst (FdoError + A) :=
  link ← link_state ifindex;
  mret (match link with inl e => inl (FdoFailed e) | inr l => inr (f l) end).

Definition scopes_mask (l : LinkState) : Z :=
  let mask := if bool_decide (l_dns_servers l = []) then 0 else SD_RESOLVED_DNS in
  let mask := if bool_decide (l_llmnr l = SupportNo) then mask
              else Z.lor mask (Z.lor SD_RESOLVED_LLMNR_IPV4 SD_RESOLVED_LLMNR_IPV6) in
  if bool_decide (l_multicast_dns l = SupportNo) then mask
  else Z.lor mask (Z.lor SD_RESOLVED_MDNS_IPV4 SD_RESOLVED_MDNS_IPV6).

Definition link_current_dns_server (l : LinkState) : Z * bytes :=
  match l_dns_servers l with [] => (AF_UNSPEC, []) | s :: _ => link_dns_entry s end.

(** The properties a link reads from its state, by their names on the bus. *)
Record LinkProperties : Type := mk_link_properties {
  lp_scopes_mask : Z;
  lp_dns : list (Z * bytes);
  lp_current_dns_server : Z * bytes;
  lp_domains : list (str * bool);
  lp_default_route : bool;
  lp_llmnr : str;
  lp_multicast_dns : str;
  lp_dns_over_tls : str;
  lp_dnssec : str;
  lp_dnssec_negative_trust_anchors : list str;
}.

Definition link_properties (l : LinkState) : LinkProperties :=
  mk_link_properties (scopes_mask l) (link_dns_entry <$> l_dns_servers l) (link_current_dns_server l)
    ((λ d, (d_name d, d_route_only d)) <$> l_domains l) (effective_default_route l)
    (support_mode_string (l_llmnr l)) (support_mode_string (l_multicast_dns l))
    (tls_mode_string (l_dns_over_tls l)) (validation_mode_string (l_dnssec l))
    (l_dnssec_negative_trust_anchors l).

Definition link_dns_ex (ifindex : Z) : rst (list (Z * bytes * Z * str)) :=
  specs ← link_dns_specs env ifindex;
  mret (link_dns_ex_entry <$> specs).

Definition link_current_dns_server_ex (ifindex : Z) : rst (Z * bytes * Z * str) :=
  specs ← link_dns_specs env ifindex;
  mret (match specs with [] => (AF_UNSPEC, [], 0, []) | s :: _ => link_dns_ex_entry s end).

(** ** Properties of the manager *)

Definition llmnr_hostname : rst str :=
  text ← try_io (os (λ n, os_read_file env n (lit "/etc/hostname")));
  mret match text with
       | Some (Some name) => if bool_decide (trim name = []) then lit "localhost" else trim name
       | _ => lit "localhost"
       end.

Definition manager_dns_ex_entry (ifindex : Z) (server : DnsServerSpec) :
    rst (Z * Z * bytes * Z * str) :=
  let '(family, octets) := address_bytes (sock_ip (address server)) in
  ifindex ← match interface server with
            | Some i => r ← try_io (resolve_ifindex env i); mret (default ifindex r)
            | None => mret ifindex
            end;
  mret (ifindex, family, octets, dns_ex_output_port (sock_port (address server)),
        default [] (server_name server)).

Fixpoint manager_dns_ex (servers : list DnsServerSpec) (ifindex : Z) :
    rst (list (Z * Z * bytes * Z * str)) :=
  match servers with
  | [] => mret []
  | s :: servers =>
      e ← manager_dns_ex_entry ifindex s;
      rest ← manager_dns_ex servers ifindex;
      mret (e :: rest)
  end.

(** The properties of the manager that show its configuration. *)
Record ManagerProperties : Type := mk_manager_properties {
  mp_llmnr : str;
  mp_multicast_dns : str;
  mp_dns_over_tls : str;
  mp_dns : list (Z * Z * bytes);
  mp_fallback_dns : list (Z * Z * bytes);
  mp_dnssec : str;
  mp_dns_stub_listener : str;
}.

Definition manager_properties : ManagerProperties :=
  let c := rs_config self in
  mk_manager_properties (support_mode_string (llmnr c)) (support_mode_string (multicast_dns c))
    (tls_mode_string (dns_over_tls c)) (manager_dns (configured_upstreams c) 0)
    (manager_dns (configured_fallback_upstreams c) 0) (validation_mode_string (dnssec c))
    (stub_mode_as_str (dns_stub_listener c)).

Definition current_dns_server : Z * Z * bytes :=
  match effective_upstreams (rs_config self) with
  | [] => (0, AF_UNSPEC, [])
  | s :: _ => manager_dns_entry 0 s
  end.

Definition current_dns_server_ex : rst (Z * Z * bytes * Z * str) :=
  match effective_upstream_specs (rs_config self) with
  | [] => mret (0, AF_UNSPEC, [], 0, [])
  | s :: _ => manager_dns_ex_entry 0 s
  end.

Definition manager_domains : rst (list (Z * str * bool)) :=
  links ← resolver_links env;
  mret (((λ d, (0, d_name d, d_route_only d)) <$> domains (rs_config self)) ++
        (links ≫= λ l, (λ d, (l_ifindex l, d_name d, d_route_only d)) <$> l_domains l)).

Definition transaction_statistics : rst (Z * Z) :=
  s ← stats env;
  mret (0, ct_transactions (rt_counters s)).

Definition cache_statistics : rst (Z * Z * Z) :=
  s ← stats env;
  mret (rt_cache_entries s, ct_cache_hits (rt_counters s), ct_cache_misses (rt_counters s)).

Definition dbus_resolv_conf_mode : rst str :=
  mode ← try_io (system_resolv_conf_mode env (runtime_directory (rs_config self)));
  mret (resolv_conf_mode_as_str (default Foreign mode)).

(** ** Calls *)

Inductive LinkMethod : Type :=
  | SetDNS (addresses : list (Z * bytes))
  | SetDNSEx (addresses : list (Z * bytes * Z * str))
  | SetDomainsOf (ds : list (str * bool))
  | SetDefaultRouteOf (enable : bool)
  | SetLLMNR (mode : str)
  | SetMulticastDNS (mode : str)
  | SetDNSOverTLS (mode : str)
  | SetDNSSEC (mode : str)
  | SetDNSSECNegativeTrustAnchors (names : list str)
  | RevertOf.

(** A method of the Link object of [ifindex]; the Manager has each of them as
    [SetLink...] with the index as its first argument and the same body. *)
Definition link_call (ifindex : Z) (m : LinkMethod) : dst unit :=
  match m with
  | SetDNS addresses => dbus_set_dns ifindex addresses
  | SetDNSEx addresses => dbus_set_dns_ex ifindex addresses
  | SetDomainsOf ds => dbus_set_domains ifindex ds
  | SetDefaultRouteOf enable => dbus_set_default_route ifindex enable
  | SetLLMNR mode => dbus_set_llmnr ifindex mode
  | SetMulticastDNS mode => dbus_set_multicast_dns ifindex mode
  | SetDNSOverTLS mode => dbus_set_dns_over_tls ifindex mode
  | SetDNSSEC mode => dbus_set_dnssec ifindex mode
  | SetDNSSECNegativeTrustAnchors names => dbus_set_anchors ifindex names
  | RevertOf => dbus_revert ifindex
  end.

Inductive ManagerMethod : Type :=
  | ResolveHostname (ifindex : Z) (name : str) (family flags : Z)
  | ResolveAddress (ifindex family : Z) (address : bytes) (flags : Z)
  | ResolveRecord (ifindex : Z) (name : str) (class rr_type flags : Z)
  | ResolveService (ifindex : Z) (name service_type domain : str) (family flags : Z)
  | GetLink (ifindex : Z)
  | OnLink (ifindex : Z) (m : LinkMethod)
  | RegisterService
  | UnregisterService
  | GetDelegate (id : str)
  | ListDelegates
  | ResetStatistics
  | FlushCaches
  | ResetServerFeatures
  | ReadDNSEx | ReadFallbackDNSEx | ReadCurrentDNSServerEx | ReadDomains | ReadLLMNRHostname
  | ReadTransactionStatistics | ReadCacheStatistics | ReadResolvConfMode
  | ReadLink (ifindex : Z)
  | ReadLinkDNSEx (ifindex : Z) | ReadLinkCurrentDNSServerEx (ifindex : Z).

(** The error a call is answered with, if any. *)
Definition answered {A} (m : dst A) : rst (option DbusError) :=
  r ← m;
  mret (match r with inl e => Some e | inr _ => None end).

Definition value {A} (m : rst A) : rst (option DbusError) := _ ← m; mret None.

Definition dbus_call (m : ManagerMethod) : rst (option DbusError) :=
  match m with
  | ResolveHostname i name family flags => answered (dbus_resolve_hostname i name family flags)
  | ResolveAddress i family address flags => answered (dbus_resolve_address i family address flags)
  | ResolveRecord i name class rr_type flags =>
      answered (dbus_resolve_record i name class rr_type flags)
  | ResolveService i name service_type domain family flags =>
      answered (dbus_resolve_service i name service_type domain family flags)
  | GetLink i => answered (dbus_get_link i)
  | OnLink i m => answered (link_call i m)
  | RegisterService => answered register_service
  | UnregisterService => answered unregister_service
  | GetDelegate id => answered (get_delegate id)
  | ListDelegates => mret None
  | ResetStatistics => value (reset_statistics env)
  | FlushCaches => value (flush_cache env)
  | ResetServerFeatures => value (reset_server_features env)
  | ReadDNSEx => value (manager_dns_ex (configured_upstream_specs (rs_config self)) 0)
  | ReadFallbackDNSEx => value (manager_dns_ex (configured_fallback_upstream_specs (rs_config self)) 0)
  | ReadCurrentDNSServerEx => value current_dns_server_ex
  | ReadDomains => value manager_domains
  | ReadLLMNRHostname => value llmnr_hostname
  | ReadTransactionStatistics => value transaction_statistics
  | ReadCacheStatistics => value cache_statistics
  | ReadResolvConfMode => value dbus_resolv_conf_mode
  | ReadLink i => value (link_property i link_properties)
  | ReadLinkDNSEx i => value (link_dns_ex i)
  | ReadLinkCurrentDNSServerEx i => value (link_current_dns_server_ex i)
  end.

(** Calls one after the other, with the error each is answered with. *)
Fixpoint dbus_calls (l : list ManagerMethod) : rst (list (option DbusError)) :=
  match l with
  | [] => mret []
  | m :: l => e ← dbus_call m; es ← dbus_calls l; mret (e :: es)
  end.
End methods.

(** ** Link objects *)

(** The object server of zbus: [object_at] and [object_remove] say whether an
    object was added or removed, or fail; [objects] are the links published at
    each path. *)
Class ObjectServer (O : Type) : Type := {
  object_at : O → str → Z → (str + bool) * O;
  object_remove : O → str → (str + bool) * O;
  objects : O → gmap str Z;
}.

(** What its documentation promises: an object is added where there is none and
    removed where there is one, and a call that fails changes nothing. *)
Class ObjectServerOk {O : Type} (OS : ObjectServer O) : Prop := {
  at_ok o path i b o' : object_at o path i = (inr b, o') →
    objects o' = match objects o !! path with
                 | Some _ => objects o
                 | None => <[path := i]> (objects o)
                 end;
  at_error o path i e o' : object_at o path i = (inl e, o') → objects o' = objects o;
  remove_ok o path b o' : object_remove o path = (inr b, o') → objects o' = delete path (objects o);
  remove_error o path e o' : object_remove o path = (inl e, o') → objects o' = objects o;
}.

(** A path that is refused, with the error of [link_object_path], or an error of
    the object server. *)
Inductive SyncError : Type := PathFailure (error : DbusError) | BusFailure (error : str).

(** The order in which a [BTreeSet] is iterated. *)
Definition increasing (s : gset Z) : list Z := sort_by Z.leb (elements s).

Section objects.
Context (object_path : str → str + str) {O : Type} `{OS : !ObjectServer O}.

(** A path and a call of the object server for each link; the first error ends
    the loop. *)
Fixpoint each_link (f : O → str → Z → (str + bool) * O) (l : list Z) (o : O) :
    (SyncError + unit) * O :=
  match l with
  | [] => (inr (), o)
  | i :: l =>
      match link_object_path object_path i with
      | inl e => (inl (PathFailure e), o)
      | inr path =>
          match f o path i with
          | (inl e, o) => (inl (BusFailure e), o)
          | (inr _, o) => each_link f l o
          end
      end
  end.

Definition synchronize_link_objects (links : list LinkState) (registered : gset Z) (o : O) :
    (SyncError + gset Z) * O :=
  let current : gset Z := list_to_set (l_ifindex <$> links) in
  match each_link object_at (increasing (current ∖ registered)) o with
  | (inl e, o) => (inl e, o)
  | (inr _, o) =>
      match each_link (λ o path _, object_remove o path) (increasing (registered ∖ current)) o with
      | (inl e, o) => (inl e, o)
      | (inr _, o) => (inr current, o)
      end
  end.

(** The loop of [DbusServer::run]: [stops] are the answers of [stop_requested],
    one at the head of each round.  The result is that of [run], [None] while the
    loop goes on, with the links registered and the objects then. *)
Fixpoint dbus_run (env : Env) (stops : list bool) (registered : gset Z) (o : O) :
    rst (option (SyncError + unit) * gset Z * O) :=
  match stops with
  | [] => mret (None, registered, o)
  | true :: _ => mret (Some (inr ()), registered, o)
  | false :: stops =>
      links ← resolver_links env;
      match synchronize_link_objects links registered o with
      | (inl e, o) => mret (Some (inl e), registered, o)
      | (inr registered, o) => dbus_run env stops registered o
      end
  end.
End objects.
