(* ===== verification/ExchangeFacts.v ===== *)
(** * Exchanging packets: theorems

    One exchange with a server ends within the attempt budget, never panics, and
    returns only an answer to the question asked; with strict DNS-over-TLS
    nothing is sent in the clear, and with strict DNSSEC nothing unsigned is
    accepted. *)

From S2P Require Import Prelude Stateful Text Net ConfigTypes Config Codec Names CodecFacts Packet.
From S2P Require Import PacketFacts WireDnssec WireDnssecFacts Edns EdnsFacts Transport Routing.
From S2P Require Import CacheX Cache Hosts Json StaticRecords Inflight Networkd World WorldFacts Servers Exchange.

(** What is relied on of the operating system: received data are octets, no
    more than fit or were asked for, and a stream does not write more than it
    was given. *)
Record env_ok (env : Env) : Prop := {
  eo_recv : ∀ n fd r f, os_udp_recv env n fd = inr (r, f) → bytes_ok r ∧ len r ≤ 65535;
  eo_tcp_read : ∀ n fd k r, os_tcp_read env n fd k = inr r → bytes_ok r ∧ len r = k;
  eo_tls_read : ∀ n fd k r, os_tls_read env n fd k = inr r → bytes_ok r ∧ len r ≤ k;
  eo_tls_write : ∀ n fd b k, os_tls_write env n fd b = inr k → 0 ≤ k ≤ len b;
}.

(** Receiving ends: after [fuel] datagrams the time of a UDP exchange has run out, or
    the socket has no more of them.  A round of the loop reads the clock, sets the
    timeout and receives. *)
Definition receiving_ends (env : Env) (fuel : nat) : Prop :=
  ∀ n k, (fuel ≤ S k)%nat →
    env_now env n + DNS_TRANSACTION_UDP_TIMEOUT ≤ env_now env (n + 1 + 3 * k) ∨
    ∀ fd, ∃ e, os_udp_recv env (n + 3 + 3 * k) fd = inl e.

Lemma received_ok r : bytes_ok r → len r ≤ 65535 → packet_ok r.
Proof. split; [done|lia]. Qed.

Section methods.
Context (env : Env) (self : Resolver) (fuel : nat).
Context (FI : ServerKey → ServerFeatureState → Prop) (P : sent → Prop).
Context (Henv : env_ok env) (Hfuel : (0 < fuel)%nat) (Hclock : receiving_ends env fuel).

(** An exchange changes the states of the servers and the pools of sockets;
    [J] is about the rest. *)
Context (J : Shared → Prop).
Context (HJ : ∀ sh states udp tcp tls, J sh →
  J { sh with sh_states := states; sh_udp_sockets := udp; sh_tcp_streams := tcp;
              sh_tls_streams := tls }).

(** The invariant of the shared state: what is remembered of the features. *)
Definition features_inv (sh : Shared) : Prop :=
  (∀ server, FI server (ss_features (server_state sh server))) ∧ J sh.

Context (Hothers : ∀ n sh, features_inv sh → features_inv (others env n sh)).

Abbreviation hoare' := (hoare features_inv P).
Abbreviation quiet' m := (hoare features_inv P 0 m (λ _, True)).

Lemma with_state_inv server s sh :
  features_inv sh → FI server (ss_features s) → features_inv (with_state server s sh).
Proof.
  intros [Hsh HJsh] Hs; split; [|by apply (HJ sh (<[server := s]> (sh_states sh)))].
  intros server'; unfold server_state, with_state; cbn.
  destruct (decide (server' = server)) as [->|Hne].
  - by rewrite lookup_insert_eq.
  - rewrite lookup_insert_ne by done; apply Hsh.
Qed.

Lemma pools_inv sh udp tcp tls :
  features_inv sh →
  features_inv { sh with sh_udp_sockets := udp; sh_tcp_streams := tcp; sh_tls_streams := tls }.
Proof. intros [Hsh HJsh]; split; [exact Hsh|by apply (HJ sh (sh_states sh))]. Qed.

(** A change of the state of a server that keeps the features. *)
Lemma quiet_on_state {A} server (f : ServerState → A * ServerState) :
  (∀ s, FI server (ss_features s) → FI server (ss_features (f s).2)) →
  quiet' (on_state env server f).
Proof.
  intros Hf; apply hoare_on_state; [done|]; intros sh Hsh.
  specialize (Hf (server_state sh server) (proj1 Hsh server)).
  destruct (f (server_state sh server)) as [a s]; split; [by apply with_state_inv|done].
Qed.

Lemma quiet_update_state server f :
  (∀ s, FI server (ss_features s) → FI server (ss_features (f s))) →
  quiet' (update_state env server f).
Proof. intros Hf; apply quiet_on_state; intros s Hs; by apply Hf. Qed.

Lemma quiet_ret {A} (a : A) : quiet' (mret a).
Proof. by apply hoare_ret. Qed.

Lemma quiet_now : quiet' (now env).
Proof. apply hoare_now. Qed.

Lemma quiet_os {A} (f : nat → io A) : quiet' (os f).
Proof. eapply quiet_weaken, hoare_os. Qed.

Lemma quiet_reading {A} (f : Shared → A) : quiet' (reading env f).
Proof. by apply hoare_reading. Qed.

Lemma quiet_wire {A} (r : wres A) : safe r → quiet' (wire r).
Proof. apply hoare_wire. Qed.

Create HintDb quiet.
Hint Resolve quiet_ret quiet_now quiet_os quiet_reading hoare_fail : quiet.

Ltac quiet :=
  repeat first
    [ solve [eauto with quiet]
    | apply quiet_bind; [|intros ?]
    | case_match ].

(** ** Servers *)

Lemma get_link_quiet i : quiet' (get_link env i).
Proof. apply quiet_reading. Qed.

Lemma link_dns_specs_quiet i : quiet' (link_dns_specs env i).
Proof. unfold link_dns_specs; apply quiet_bind; [apply get_link_quiet|intros]; quiet. Qed.
Hint Resolve get_link_quiet link_dns_specs_quiet : quiet.

Lemma server_spec_for_key_quiet server : quiet' (server_spec_for_key env self server).
Proof. unfold server_spec_for_key, server_specs_for_scope; quiet. Qed.
Hint Resolve server_spec_for_key_quiet : quiet.

Lemma server_transport_ifindex_quiet server : quiet' (server_transport_ifindex env self server).
Proof. unfold server_transport_ifindex, resolve_ifindex; quiet. Qed.

Lemma server_tls_endpoint_quiet server : quiet' (server_tls_endpoint env self server).
Proof. unfold server_tls_endpoint; quiet. Qed.
Hint Resolve server_transport_ifindex_quiet server_tls_endpoint_quiet : quiet.

Lemma server_dnssec_mode_quiet server : quiet' (server_dnssec_mode env self server).
Proof. unfold server_dnssec_mode; quiet. Qed.

Lemma server_tls_mode_quiet server : quiet' (server_dns_over_tls_mode env self server).
Proof. unfold server_dns_over_tls_mode; quiet. Qed.

(** ** Sockets *)

Lemma set_socket_timeout_quiet fd d : quiet' (set_socket_timeout env fd d).
Proof. unfold set_socket_timeout; quiet. Qed.

Lemma time_left_quiet timeout started : quiet' (time_left env timeout started).
Proof. unfold time_left; quiet. Qed.
Hint Resolve set_socket_timeout_quiet time_left_quiet : quiet.

Lemma take_udp_socket_quiet server : quiet' (take_udp_socket env self server).
Proof.
  unfold take_udp_socket; apply quiet_bind; [|intros; quiet].
  apply hoare_atomically; [done|]; intros sh Hsh; unfold swp.
  destruct (pop_pool _ _) as [fd pool]; split; [by apply pools_inv|done].
Qed.

Lemma recycle_udp_socket_quiet server fd : quiet' (recycle_udp_socket env server fd).
Proof. apply hoare_updating; [done|]; intros; by apply pools_inv. Qed.
Hint Resolve take_udp_socket_quiet recycle_udp_socket_quiet : quiet.

Lemma quiet_try_io {A} (m : rst A) : quiet' m → quiet' (try_io m).
Proof. intros Hm; eapply quiet_weaken, hoare_try_io; [exact Hm|lia]. Qed.
Hint Resolve quiet_try_io : quiet.

Lemma udp_path_mtu_quiet server : quiet' (udp_path_mtu env self server).
Proof. unfold udp_path_mtu; quiet. Qed.

(** A method that consumes one event and changes nothing else. *)
Definition tick (w : World) : World := { w with w_events := S (w_events w) }.

Lemma tick_step w w' : step_ok features_inv P 0 (tick w) w' → step_ok features_inv P 0 w w'.
Proof. done. Qed.

Lemma swp_os {A} (f : nat → io A) w (Q : A → World → Prop) (R : ResolveError → World → Prop) :
  match f (w_events w) with inl e => R (RIo e) (tick w) | inr a => Q a (tick w) end →
  swp (os f) w Q R.
Proof. intros H; unfold swp, os, mbind, st_bind, next_event; cbn; by destruct (f (w_events w)). Qed.

Lemma swp_time_left timeout started w (Q : option Z → World → Prop) R :
  (let elapsed := Z.max 0 (env_now env (w_events w) - started) in
   Q (if elapsed <? timeout then Some (timeout - elapsed) else None) (tick w)) →
  swp (time_left env timeout started) w Q R.
Proof. done. Qed.

Lemma udp_receive_spec n i e0 fd query timeout started w :
  packet_ok query → timeout ≤ DNS_TRANSACTION_UDP_TIMEOUT → started = env_now env e0 →
  (n + i = fuel)%nat → (0 < n)%nat → w_events w = (e0 + 1 + 3 * i)%nat → features_inv (w_shared w) →
  swp (udp_receive env n fd query timeout started) w
    (λ r w', step_ok features_inv P 0 w w' ∧
       packet_ok r.1 ∧ len r.1 ≤ 65535 ∧ response_matches query r.1 = Ok ())
    (λ _ w', step_ok features_inv P 0 w w').
Proof.
  intros Hq Ht Hs; revert i w; induction n as [|n IH]; intros i w Hi Hn Hw HI; [lia|].
  cbn [udp_receive]; apply swp_bind, swp_time_left; cbn zeta; rewrite Hw.
  destruct (Z.ltb_spec (Z.max 0 (env_now env (e0 + 1 + 3 * i) - started)) timeout) as [Hlt|Hge].
  2:{ apply swp_fail, tick_step; by apply step_ok_refl. }
  assert ((0 < n)%nat ∨ ∃ e, os_udp_recv env (w_events (tick (tick w))) fd = inl e) as Hn0.
  { replace (w_events (tick (tick w))) with (e0 + 3 + 3 * i)%nat by (cbn; lia); destruct n; [|left; lia]; destruct (Hclock e0 i ltac:(lia)); [lia|by right]. }
  apply swp_bind; unfold set_socket_timeout; case_match; [apply swp_fail, tick_step; by apply step_ok_refl|].
  apply swp_os; destruct (os_set_timeout _ _ _ _) as [e|[]].
  { apply tick_step, tick_step; by apply step_ok_refl. }
  apply swp_bind, swp_os; destruct (os_udp_recv env (w_events (tick (tick w))) fd) as [e|[r frag]] eqn:Hr.
  { do 3 apply tick_step; by apply step_ok_refl. }
  assert (0 < n)%nat as Hn1.
  { by destruct Hn0 as [|[e He]]. }
  destruct (eo_recv env Henv _ _ _ _ Hr) as [Hb Hl].
  pose proof (response_matches_safe query r Hq (received_ok r Hb Hl)) as Hsafe.
  destruct (response_matches query r) as [[]|e| |] eqn:Hm; try done.
  - apply swp_ret; split; [do 3 apply tick_step; by apply step_ok_refl|].
    split_and!; [by apply received_ok|done..].
  - eapply swp_mono; [apply (IH (S i)); [lia..| |done]| |].
    + cbn; rewrite Hw; lia.
    + intros a w' [Hst Hp]; split; [|done]; by do 3 apply tick_step.
    + intros e' w' Hst; by do 3 apply tick_step.
Qed.

Lemma udp_timeout_bound remaining : udp_transaction_timeout self remaining ≤ DNS_TRANSACTION_UDP_TIMEOUT.
Proof. unfold udp_transaction_timeout; lia. Qed.

(** A UDP exchange sends one packet and returns a response that matches it. *)
Lemma exchange_udp_spec server query remaining :
  packet_ok query → P (SentUdp server query) →
  hoare' 1 (exchange_udp env self fuel server query remaining)
    (λ r, packet_ok r.1 ∧ len r.1 ≤ 65535 ∧ response_matches query r.1 = Ok ()).
Proof.
  intros Hq HP; unfold exchange_udp.
  eapply hoare_after; [apply take_udp_socket_quiet| |lia]; intros fd _; cbn zeta.
  eapply hoare_after; [apply set_socket_timeout_quiet| |lia]; intros _ _.
  eapply hoare_after; [apply set_socket_timeout_quiet| |lia]; intros _ _.
  eapply hoare_then; [by apply hoare_log_sent|]; intros _ _.
  eapply hoare_after; [apply quiet_os| |lia]; intros n _; case_match; [apply hoare_fail|].
  intros w HI; apply swp_bind; unfold now, swp at 1, next_event.
  apply swp_bind; eapply swp_mono.
  - apply (udp_receive_spec fuel 0 (w_events w)); [done|apply udp_timeout_bound|done|lia|done| |done].
    cbn; lia.
  - intros r w' [Hst Hr]; apply tick_step in Hst.
    apply swp_bind; eapply swp_mono; [apply recycle_udp_socket_quiet, Hst| |].
    + intros _ w'' [Hst' _]; apply swp_ret; split; [|done].
      change 0 with (0 + 0); by eapply step_ok_trans.
    + intros e w'' Hst'; change 0 with (0 + 0); by eapply step_ok_trans.
  - intros e w' Hst; by apply tick_step.
Qed.

(** ** Streams *)

(** What an exchange returns. *)
Definition answers (query response : bytes) : Prop :=
  packet_ok response ∧ len response ≤ 65535 ∧ response_matches query response = Ok ().

Lemma check_stream_response_spec query response message :
  packet_ok query → packet_ok response → len response ≤ 65535 →
  hoare' 0 (check_stream_response query response message) (answers query).
Proof.
  intros Hq Hr Hl; unfold check_stream_response.
  eapply hoare_after; [apply hoare_wire, wp_strengthen, response_matches_safe; done| |lia].
  intros [] [Hm _]; eapply hoare_after; [apply quiet_wire; eauto with wire| |lia]; intros h _.
  case_match; [apply hoare_fail|apply hoare_ret; by split_and!].
Qed.

Lemma index_u16_length b : len b = 2 → bytes_ok b → wp (index_u16 b 0) (λ n, 0 ≤ n ≤ 65535).
Proof.
  intros Hl Hb; unfold index_u16; apply wp_bind, index_wp; [lia|]; intros x Hx.
  apply wp_bind, index_wp; [lia|]; intros y Hy; cbn.
  pose proof (bytes_ok_bget _ _ _ Hb Hx); pose proof (bytes_ok_bget _ _ _ Hb Hy).
  pose proof (be16_range x y) as H'; unfold is_u16 in H'; specialize (H' ltac:(done) ltac:(done)); lia.
Qed.

Lemma exchange_tcp_stream_spec server fd query :
  packet_ok query → P (SentTcp server query) →
  hoare' 1 (exchange_tcp_stream env server fd query) (answers query).
Proof.
  intros Hq HP; unfold exchange_tcp_stream; case_match.
  { eapply hoare_mono; [apply hoare_fail|lia|done]. }
  eapply hoare_then; [by apply hoare_log_sent|]; intros _ _.
  eapply hoare_after; [apply quiet_os| |lia]; intros _ _.
  eapply hoare_after; [apply quiet_os| |lia]; intros _ _.
  eapply hoare_after; [apply hoare_os| |lia]; intros prefix [n Hn].
  destruct (eo_tcp_read env Henv _ _ _ _ Hn) as [Hb Hl].
  eapply hoare_after; [apply hoare_wire; by apply index_u16_length| |lia].
  intros size Hsize; cbn in Hsize.
  case_match; [apply hoare_fail|].
  eapply hoare_after; [apply hoare_os| |lia]; intros response [m Hm].
  destruct (eo_tcp_read env Henv _ _ _ _ Hm) as [Hb' Hl'].
  apply check_stream_response_spec; [done|apply received_ok; [done|lia]|lia].
Qed.

Lemma new_tcp_stream_quiet server timeout : quiet' (new_tcp_stream env self server timeout).
Proof. unfold new_tcp_stream; quiet. Qed.
Hint Resolve new_tcp_stream_quiet : quiet.

Lemma take_tcp_stream_quiet server timeout : quiet' (take_tcp_stream env self server timeout).
Proof.
  unfold take_tcp_stream; apply quiet_bind; [|intros; quiet].
  apply hoare_atomically; [done|]; intros sh Hsh; unfold swp.
  destruct (pop_pool _ _) as [fd pool]; split; [by apply pools_inv|done].
Qed.

Lemma recycle_tcp_stream_quiet server fd : quiet' (recycle_tcp_stream env server fd).
Proof. apply hoare_updating; [done|]; intros; by apply pools_inv. Qed.

(** The result of an attempt: the stream goes back to its pool if it is good. *)
Lemma recycle_result {A} (r : rres A) (recycle : rst unit) Q :
  match r with Ok a => Q a | Err _ => True | _ => False end → quiet' recycle →
  hoare' 0 (if is_ok r then _ ← recycle; lift r else lift r) Q.
Proof.
  intros Hr Hq; assert (hoare' 0 (lift r) Q) as Hl by (apply hoare_lift; by destruct r).
  destruct (is_ok r); [|done]; eapply hoare_after; [exact Hq|done|lia].
Qed.

Lemma exchange_tcp_spec server query remaining :
  packet_ok query → P (SentTcp server query) →
  hoare' 2 (exchange_tcp env self server query remaining) (answers query).
Proof.
  intros Hq HP; unfold exchange_tcp; cbn zeta.
  eapply hoare_after; [apply quiet_now| |lia]; intros started _.
  eapply hoare_after; [apply take_tcp_stream_quiet| |lia]; intros [fd reused] _.
  change 2 with (1 + 1); eapply hoare_bind;
    [by apply hoare_attempt, exchange_tcp_stream_spec| |lia]; intros r Hr.
  assert (hoare' 1 (lift r) (answers query)) as Hlift.
  { eapply (hoare_mono _ _ 0); [apply (hoare_lift _ _ r (answers query)); by destruct r|lia|done]. }
  destruct (is_ok r) eqn:Hok.
  { eapply hoare_after; [apply recycle_tcp_stream_quiet|done|lia]. }
  case_match; [done|]; eapply hoare_after; [apply time_left_quiet| |lia]; intros [left|] _; [|done].
  eapply hoare_after; [apply new_tcp_stream_quiet| |lia]; intros fresh _.
  eapply hoare_then; [by apply hoare_attempt, exchange_tcp_stream_spec|]; intros r' Hr'.
  by apply recycle_result, recycle_tcp_stream_quiet.
Qed.

Lemma tls_write_all_quiet n fd b : (length b ≤ n)%nat → quiet' (tls_write_all env n fd b).
Proof.
  revert b; induction n as [|n IH]; intros b Hb; destruct b as [|x b]; try (apply quiet_ret);
    cbn [tls_write_all]; [cbn in Hb; lia|].
  eapply hoare_after; [apply hoare_os| |lia]; intros k [m Hm].
  apply (eo_tls_write env Henv) in Hm; case_match; [apply hoare_fail|]; boolp.
  unfold slice_from, or_panic; destruct (slice (x :: b) k (len (x :: b))) as [rest|] eqn:Hs.
  - eapply hoare_after; [apply hoare_wire; exact (eq_refl : wp (Ok rest) (λ r, r = rest))| |lia].
    intros r ->; apply IH; apply slice_len in Hs; unfold len in *; cbn in *; lia.
  - exfalso; revert Hs; apply not_eq_None_Some, slice_is_Some; lia.
Qed.

Lemma tls_read_exact_spec n fd k :
  0 ≤ k → (Z.to_nat k ≤ n)%nat →
  hoare' 0 (tls_read_exact env n fd k) (λ r, bytes_ok r ∧ len r = k).
Proof.
  revert k; induction n as [|n IH]; intros k Hk Hn; cbn [tls_read_exact];
    (case_match; boolp; [apply hoare_ret; split; [constructor|unfold len; cbn; lia]|]); [lia|].
  eapply hoare_after; [apply hoare_os| |lia]; intros data [m Hm].
  apply (eo_tls_read env Henv) in Hm as [Hb Hl]; case_bool_decide as Hd; [apply hoare_fail|].
  rewrite (proj2 (Z.ltb_ge _ _)) by lia.
  assert (0 < len data) by (destruct data; [done|unfold len; cbn; lia]).
  eapply hoare_after; [apply IH; lia| |lia]; intros rest [Hb' Hl']; apply hoare_ret.
  split; [by apply Forall_app|rewrite len_app; lia].
Qed.

Lemma u16_bytes_length n : (length (u16_bytes n) ≤ 2)%nat.
Proof. done. Qed.

Lemma exchange_tls_stream_spec server strict fd query :
  packet_ok query → P (SentTls server strict query) →
  hoare' 1 (exchange_tls_stream env server strict fd query) (answers query).
Proof.
  intros Hq HP; unfold exchange_tls_stream; case_match.
  { eapply hoare_mono; [apply hoare_fail|lia|done]. }
  eapply hoare_then; [by apply hoare_log_sent|]; intros _ _.
  eapply hoare_after; [apply tls_write_all_quiet, u16_bytes_length| |lia]; intros _ _.
  eapply hoare_after; [apply tls_write_all_quiet; lia| |lia]; intros _ _.
  eapply hoare_after; [apply (tls_read_exact_spec 2 fd 2); lia| |lia]; intros prefix [Hb Hl].
  eapply hoare_after; [apply hoare_wire; by apply index_u16_length| |lia].
  intros size Hsize; cbn in Hsize; case_match; [apply hoare_fail|].
  eapply hoare_after; [apply tls_read_exact_spec; lia| |lia]; intros response [Hb' Hl'].
  apply check_stream_response_spec; [done|apply received_ok; [done|lia]|lia].
Qed.

Lemma new_tls_stream_quiet server strict timeout :
  quiet' (new_tls_stream env self server strict timeout).
Proof. unfold new_tls_stream, tls_connect; quiet. Qed.
Hint Resolve new_tls_stream_quiet : quiet.

Lemma take_tls_stream_quiet server strict timeout :
  quiet' (take_tls_stream env self server strict timeout).
Proof.
  unfold take_tls_stream; apply quiet_bind; [|intros; quiet].
  apply hoare_atomically; [done|]; intros sh Hsh; unfold swp.
  destruct (pop_pool _ _) as [fd pool]; split; [by apply pools_inv|done].
Qed.

Lemma recycle_tls_stream_quiet server strict fd : quiet' (recycle_tls_stream env server strict fd).
Proof. apply hoare_updating; [done|]; intros; by apply pools_inv. Qed.

Lemma exchange_tls_spec server query remaining strict :
  packet_ok query → P (SentTls server strict query) →
  hoare' 2 (exchange_tls env self server query remaining strict) (answers query).
Proof.
  intros Hq HP; unfold exchange_tls; cbn zeta.
  eapply hoare_after; [apply quiet_now| |lia]; intros started _.
  eapply hoare_after; [apply take_tls_stream_quiet| |lia]; intros [fd reused] _.
  change 2 with (1 + 1); eapply hoare_bind;
    [by apply hoare_attempt, exchange_tls_stream_spec| |lia]; intros r Hr.
  assert (hoare' 1 (lift r) (answers query)) as Hlift.
  { eapply (hoare_mono _ _ 0); [apply (hoare_lift _ _ r (answers query)); by destruct r|lia|done]. }
  destruct (is_ok r) eqn:Hok.
  { eapply hoare_after; [apply recycle_tls_stream_quiet|done|lia]. }
  case_match; [done|]; eapply hoare_after; [apply time_left_quiet| |lia]; intros [left|] _; [|done].
  eapply hoare_after; [apply new_tls_stream_quiet| |lia]; intros fresh _.
  eapply hoare_then; [by apply hoare_attempt, exchange_tls_stream_spec|]; intros r' Hr'.
  by apply recycle_result, recycle_tls_stream_quiet.
Qed.

(** ** What is remembered *)

Lemma server_tls_possible_quiet server strict : quiet' (server_tls_possible env server strict).
Proof.
  unfold server_tls_possible; apply quiet_bind; [apply quiet_now|]; intros t.
  apply quiet_on_state; intros s Hs; by destruct (tls_possible _ _ _).
Qed.

Lemma server_tls_possible_strict server :
  hoare' 0 (server_tls_possible env server true) (λ b, b = true).
Proof.
  unfold server_tls_possible; eapply hoare_after; [apply quiet_now| |lia]; intros t _.
  apply hoare_on_state; [done|]; intros sh Hsh; cbn; split; [|done].
  apply with_state_inv; [done|apply (proj1 Hsh)].
Qed.

Lemma record_tls_success_quiet server : quiet' (record_tls_success env server).
Proof. by apply quiet_update_state. Qed.

Lemma record_tls_failure_quiet server strict : quiet' (record_tls_failure env server strict).
Proof.
  unfold record_tls_failure; apply quiet_bind; [apply quiet_now|]; intros t.
  apply quiet_bind; [by apply quiet_update_state|]; intros _; apply hoare_updating; [done|]; intros; by apply pools_inv.
Qed.

Lemma record_transport_success_quiet server mode :
  quiet' (record_transport_success env server mode).
Proof. by apply quiet_update_state. Qed.

Lemma record_transport_failure_quiet server mode :
  quiet' (record_transport_failure env server mode).
Proof. apply quiet_on_state; intros s Hs; by destruct (transport_record_failure _ _). Qed.

Lemma record_transport_truncated_quiet server : quiet' (record_transport_truncated env server).
Proof. by apply quiet_update_state. Qed.

Lemma record_invalid_packet_quiet server : quiet' (record_invalid_packet env server).
Proof. by apply quiet_update_state. Qed.

Lemma clear_transport_failures_quiet server : quiet' (clear_transport_failures env server).
Proof. by apply quiet_update_state. Qed.

Lemma record_udp_packet_quiet server size frag : quiet' (record_udp_packet env server size frag).
Proof. by apply quiet_update_state. Qed.

Hint Resolve server_tls_possible_quiet record_tls_success_quiet record_tls_failure_quiet
  record_transport_success_quiet record_transport_failure_quiet record_transport_truncated_quiet
  record_invalid_packet_quiet clear_transport_failures_quiet record_udp_packet_quiet : quiet.

(** ** One server *)

Section one_server.
Context (server : ServerKey) (query : bytes) (dnssec_mode : ValidationMode) (tls_mode : TlsMode).
Context (Hquery : packet_ok query).

Abbreviation strict := (strict_dnssec dnssec_mode).

(** Whether the server is held to the level strict DNSSEC asks for. *)
Context (held : bool) (Hheld : held = true → strict = true).

(** A packet the loop may send: the query prepared for a level. *)
Definition sendable (p : bytes) : Prop :=
  ∃ level size out, is_u16 size ∧ prepare_query query level size = Ok out ∧ pq_packet out = p ∧
    (held = true → level = LevelDnssecOk).

(** What the loop relies on of the remembered features. *)
Record features_ok : Prop := {
  fo_possible f best t : FI server f → (held = true → best = LevelDnssecOk) →
    FI server (possible_level f best t).2 ∧
    (held = true → (possible_level f best t).1 = LevelDnssecOk);
  fo_success f level : FI server f → FI server (features_record_success f level);
  fo_downgrade f level t : strict = false → FI server f → FI server (downgrade_to f level t);
  fo_failure f level t :
    strict = false → FI server f → FI server (features_record_failure f level t).2;
  fo_bad_opt f level t :
    strict = false → FI server f → FI server (features_record_bad_opt f level t).2;
  fo_do_off f level t :
    strict = false → FI server f → FI server (features_record_do_off f level t).2;
}.

(** Which packets may be sent. *)
Record sends_ok : Prop := {
  so_udp p : strict_tls tls_mode = false → sendable p → P (SentUdp server p);
  so_tcp p : strict_tls tls_mode = false → sendable p → P (SentTcp server p);
  so_tls p : sendable p → P (SentTls server (strict_tls tls_mode) p);
}.

Context (HF : features_ok) (HS : sends_ok).

Definition loop_inv (x : loop_state) : Prop :=
  (strict = true → x_rcode_probe x = false) ∧
  (held = true → x_forced_level x = None ∨ x_forced_level x = Some LevelDnssecOk).

(** A response of a server that does DNSSEC. *)
Definition signed_response (r : bytes) : Prop :=
  ∃ opt, inspect_opt r = Ok (Some opt) ∧ opt_version opt = 0 ∧ opt_dnssec_ok opt = true ∧
    root_rrsig_missing r = Ok false.

(** An answer the loop may return. *)
Definition accepted (response : bytes) : Prop :=
  ∃ level size out r, is_u16 size ∧ prepare_query query level size = Ok out ∧
    answers (pq_packet out) r ∧ response_for_client query r = Ok response ∧
    (held = true → level = LevelDnssecOk ∧ (pq_managed_opt out = true → signed_response r)).

Lemma payload_size_u16 mtu v6 lo fr mx : is_u16 (dns_udp_payload_size mtu v6 lo fr mx).
Proof.
  unfold dns_udp_payload_size, resolved_dns_udp_payload_size, is_u16, DNS_PACKET_SIZE_MAX, DNS_PACKET_UNICAST_SIZE_MAX.
  cbn zeta; match goal with |- context [if ?b <? 512 then 512 else ?b] => generalize b end.
  intros z; repeat case_match; boolp; lia.
Qed.

Lemma choose_level_spec x mtu :
  loop_inv x →
  hoare' 0 (choose_level env server dnssec_mode x mtu)
    (λ r, (held = true → r.1.1 = LevelDnssecOk) ∧ is_u16 r.2).
Proof.
  intros Hx; unfold choose_level; eapply hoare_after; [apply quiet_now| |lia]; intros t _.
  apply hoare_on_state; [done|]; intros sh Hsh; cbn zeta; set (s := server_state sh server).
  set (best := if ss_missing_root_rrsig s && negb strict then LevelEdns0 else _).
  assert (held = true → best = LevelDnssecOk) as Hbest.
  { intros Hst%Hheld; unfold best; rewrite Hst, andb_false_r.
    unfold strict_dnssec in Hst; apply bool_decide_eq_true in Hst; by rewrite Hst. }
  destruct (fo_possible HF (ss_features s) best t (proj1 Hsh server) Hbest) as [Hp1 Hp2].
  destruct (x_forced_level x) as [level|] eqn:Hf.
  - split; [apply with_state_inv; [done|apply (proj1 Hsh)]|]; split; [|apply payload_size_u16].
    intros Hst; destruct (proj2 Hx Hst) as [H|H]; cbn; congruence.
  - destruct (possible_level (ss_features s) best t) as [level f]; cbn in *.
    split; [by apply with_state_inv|]; split; [done|apply payload_size_u16].
Qed.

(** What one transmission yields. *)
Definition transmitted (out : PreparedQuery) (r : loop_state + received) : Prop :=
  match r with inl x => loop_inv x | inr rx => answers (pq_packet out) (rx_response rx) end.

Lemma loop_inv_lenient x : strict = false → loop_inv x.
Proof. intros H; split; [congruence|intros Hh%Hheld; congruence]. Qed.

Lemma downgrade_feature_quiet level :
  strict = false → quiet' (downgrade_feature env server level).
Proof.
  intros Hst; unfold downgrade_feature; apply quiet_bind; [apply quiet_now|]; intros t.
  apply quiet_update_state; intros s Hs; by apply (fo_downgrade HF).
Qed.

Lemma transmit_tls_spec x out remaining :
  loop_inv x → sendable (pq_packet out) → packet_ok (pq_packet out) →
  hoare' 2 (transmit_tls env self server tls_mode x (pq_packet out) remaining) (transmitted out).
Proof.
  intros Hx Hs Hp; unfold transmit_tls.
  eapply hoare_then; [by apply hoare_attempt, exchange_tls_spec, (so_tls HS)|].
  intros [response|e| |] Hr; try done.
  - eapply hoare_after; [apply record_tls_success_quiet| |lia]; intros _ _; by apply hoare_ret.
  - case_match; [|apply hoare_fail].
    eapply hoare_after; [apply record_tls_failure_quiet| |lia]; intros _ _.
    case_match; [by apply hoare_ret|apply hoare_fail].
Qed.

Lemma transmit_tcp_spec x out remaining :
  strict_tls tls_mode = false → loop_inv x → sendable (pq_packet out) → packet_ok (pq_packet out) →
  hoare' 2 (transmit_tcp env self server x (pq_packet out) remaining) (transmitted out).
Proof.
  intros Ht Hx Hs Hp; unfold transmit_tcp.
  eapply hoare_then; [by apply hoare_attempt, exchange_tcp_spec, (so_tcp HS)|].
  intros [response|e| |] Hr; try done.
  - eapply hoare_after; [apply record_transport_success_quiet| |lia]; intros _ _; by apply hoare_ret.
  - eapply hoare_after; [apply record_transport_failure_quiet| |lia]; intros [switched n] _.
    case_match; [by apply hoare_ret|apply hoare_fail].
Qed.

Lemma transmit_tcp_retry_spec x level out :
  strict_tls tls_mode = false → loop_inv x → sendable (pq_packet out) → packet_ok (pq_packet out) →
  hoare' 2 (transmit_tcp_retry env self server dnssec_mode x level (pq_packet out)) (transmitted out).
Proof.
  intros Ht Hx Hs Hp; unfold transmit_tcp_retry.
  eapply hoare_after; [apply hoare_budget_remaining| |lia]; intros remaining _.
  eapply hoare_then; [by apply hoare_attempt, exchange_tcp_spec, (so_tcp HS)|].
  intros [response|e| |] Hr; try done.
  - eapply hoare_after; [apply record_transport_success_quiet| |lia]; intros _ _; by apply hoare_ret.
  - eapply hoare_after; [apply record_transport_failure_quiet| |lia]; intros [switched n] _.
    case_match eqn:Hc; [|apply hoare_fail]; apply andb_true_iff in Hc as [Hc _].
    apply andb_true_iff in Hc as [_ Hst%negb_true_iff].
    eapply hoare_after; [by apply downgrade_feature_quiet| |lia]; intros _ _.
    by apply hoare_ret, loop_inv_lenient.
Qed.

Lemma udp_failed_spec x level out managed e :
  loop_inv x → hoare' 0 (udp_failed env server dnssec_mode x level managed e) (transmitted out).
Proof.
  intros Hx; unfold udp_failed.
  eapply (hoare_after _ _ _ _ _ (λ low, low ≠ None → strict = false)); [| |lia].
  - case_match eqn:Hc; [|by apply hoare_ret]; apply andb_true_iff in Hc as [_ Hst%negb_true_iff].
    eapply hoare_after; [apply quiet_now| |lia]; intros t _.
    eapply hoare_mono; [apply quiet_on_state|lia|done].
    intros s Hs; pose proof (fo_failure HF (ss_features s) level t Hst Hs).
    by destruct (features_record_failure _ _ _).
  - intros low Hlow; destruct (if x_feature_retries x <? _ then low else None) as [l|] eqn:Hl.
    + eapply hoare_after; [apply clear_transport_failures_quiet| |lia]; intros _ _.
      apply hoare_ret, loop_inv_lenient, Hlow; intros ->; by case_match.
    + clear Hl; case_bool_decide; [|apply hoare_fail].
      eapply hoare_after; [apply record_transport_failure_quiet| |lia]; intros [switched n] _.
      case_match; [by apply hoare_ret|apply hoare_fail].
Qed.

Lemma transmit_udp_spec x level out remaining :
  strict_tls tls_mode = false → loop_inv x → sendable (pq_packet out) → packet_ok (pq_packet out) →
  hoare' 3 (transmit_udp env self fuel server dnssec_mode x level out remaining) (transmitted out).
Proof.
  intros Ht Hx Hs Hp; unfold transmit_udp; change 3 with (1 + 2).
  eapply hoare_bind; [by apply hoare_attempt, exchange_udp_spec, (so_udp HS)| |lia].
  intros [[response frag]|e| |] Hr; try done.
  - destruct Hr as (Hpr & Hlr & Hm).
    eapply hoare_after; [apply record_udp_packet_quiet| |lia]; intros _ _.
    eapply hoare_after; [apply quiet_wire; eauto with wire| |lia]; intros h _; case_match.
    + eapply hoare_after; [apply record_transport_success_quiet| |lia]; intros _ _.
      eapply hoare_after; [case_match; [apply record_transport_truncated_quiet|apply quiet_ret]| |lia].
      intros _ _; by apply transmit_tcp_retry_spec.
    + eapply hoare_mono; [|instantiate (1 := 0); lia|done].
      eapply hoare_after; [apply record_transport_success_quiet| |lia]; intros _ _.
      apply hoare_ret; by split_and!.
  - eapply (hoare_mono _ _ 0); [by apply udp_failed_spec|lia|done].
Qed.

(** *** Inspecting the answer *)

Lemma record_bad_opt_quiet level :
  strict = false → quiet' (record_bad_opt env server level).
Proof.
  intros Hst; unfold record_bad_opt; apply quiet_bind; [apply quiet_now|]; intros t.
  apply quiet_on_state; intros s Hs; pose proof (fo_bad_opt HF (ss_features s) level t Hst Hs).
  by destruct (features_record_bad_opt _ _ _).
Qed.

Lemma record_do_off_quiet level :
  strict = false → quiet' (record_do_off env server level).
Proof.
  intros Hst; unfold record_do_off; apply quiet_bind; [apply quiet_now|]; intros t.
  apply quiet_on_state; intros s Hs; pose proof (fo_do_off HF (ss_features s) level t Hst Hs).
  by destruct (features_record_do_off _ _ _).
Qed.

Lemma record_missing_root_rrsig_quiet :
  quiet' (record_missing_root_rrsig env server (negb strict)).
Proof.
  unfold record_missing_root_rrsig; apply quiet_bind; [apply quiet_now|]; intros t.
  apply quiet_bind; [|intros; apply quiet_ret].
  apply quiet_update_state; intros s Hs; destruct strict eqn:Hst; cbn; [done|].
  by apply (fo_downgrade HF).
Qed.

Lemma or_invalid_spec {A} (r : wres A) Q : wp r Q → hoare' 0 (or_invalid env server r) Q.
Proof.
  destruct r; cbn; try done; intros H; [by apply hoare_ret|].
  eapply hoare_after; [apply record_invalid_packet_quiet| |lia]; intros; apply hoare_fail.
Qed.

Lemma wp_eq {E A} (r : outcome E A) : safe r → wp r (λ a, r = Ok a).
Proof. by destruct r. Qed.

Lemma strict_cases : strict = true ∨ strict = false.
Proof. destruct strict; auto. Qed.

Section answer.
Context (x : loop_state) (level : FeatureLevel) (size : Z) (out : PreparedQuery) (rx : received).
Context (Hx : loop_inv x) (Hlevel : held = true → level = LevelDnssecOk).
Context (Hsize : is_u16 size) (Hout : prepare_query query level size = Ok out).
Context (Hedns : pq_managed_opt out = true → pq_sent_edns out = uses_edns level).
Context (Hrx : answers (pq_packet out) (rx_response rx)).

Definition inspected (r : loop_state + bytes) : Prop :=
  match r with inl x => loop_inv x | inr response => accepted response end.

Abbreviation signed_if_held :=
  (held = true → pq_managed_opt out = true → signed_response (rx_response rx)).

Lemma answer_client_spec :
  signed_if_held → hoare' 0 (answer_client query (rx_response rx)) inspected.
Proof.
  intros Hs; unfold answer_client; eapply hoare_after; [apply hoare_wire, wp_eq| |lia].
  - apply response_for_client_safe; [done|apply Hrx].
  - intros r Hr; apply hoare_ret; exists level, size, out, (rx_response rx); auto 10.
Qed.

Lemma retry_or_answer_spec low :
  strict = false → hoare' 0 (retry_or_answer query x low (rx_response rx)) inspected.
Proof.
  intros Hst; unfold retry_or_answer; case_match.
  - by apply hoare_ret, loop_inv_lenient.
  - apply answer_client_spec; intros Hh%Hheld; congruence.
Qed.

Lemma check_opt_spec opt rcode :
  hoare' 0 (check_opt env server query dnssec_mode x level opt rcode (rx_response rx))
    (λ c, match c with
          | Some r => inspected r
          | None => held = true → ∃ o, opt = Some o ∧ opt_version o = 0 ∧ opt_dnssec_ok o = true
          end).
Proof.
  destruct opt as [opt|]; unfold check_opt; destruct strict_cases as [Hst|Hst]; rewrite Hst;
    try apply hoare_fail.
  - destruct (negb (opt_version opt =? 0) || _) eqn:Hv; [apply hoare_fail|].
    apply orb_false_iff in Hv as [Hv%negb_false_iff _].
    destruct (level_dnssec_ok level && _) eqn:Hd; [apply hoare_fail|].
    apply hoare_ret; intros Hh; rewrite Hlevel in Hd by done; exists opt.
    apply Z.eqb_eq in Hv; cbn in Hd; apply negb_false_iff in Hd; auto.
  - case_match; [|case_match; [|apply hoare_ret; intros Hh%Hheld; congruence]].
    + eapply hoare_after; [by apply record_bad_opt_quiet| |lia]; intros low _.
      eapply hoare_then; [by apply retry_or_answer_spec|]; intros r Hr; by apply hoare_ret.
    + eapply hoare_after; [by apply record_do_off_quiet| |lia]; intros low _.
      eapply hoare_then; [by apply retry_or_answer_spec|]; intros r Hr; by apply hoare_ret.
  - eapply hoare_after; [by apply record_bad_opt_quiet| |lia]; intros low _.
    eapply (hoare_then _ _ _ _ _ inspected); [|intros r Hr; by apply hoare_ret].
    case_match; [apply answer_client_spec; intros Hh%Hheld; congruence|by apply retry_or_answer_spec].
Qed.

Lemma missing_signatures_spec :
  hoare' 0 (missing_signatures env server dnssec_mode x) inspected.
Proof.
  unfold missing_signatures; eapply hoare_after; [apply record_missing_root_rrsig_quiet| |lia].
  intros low _; destruct strict_cases as [Hst|Hst]; rewrite Hst; [apply hoare_fail|].
  case_match; [|apply hoare_fail].
  by apply hoare_ret, loop_inv_lenient.
Qed.

Lemma extended_error_code_safe opt : safe (extended_error_code opt).
Proof.
  unfold extended_error_code; case_match; [|done]; case_match.
  apply wp_bind, wp_ok_or; intros bs Hbs; apply slice_len in Hbs as Hl.
  apply wp_bind; eapply wp_mono; [apply index_u16_wp; lia|done].
Qed.

Lemma check_servfail_spec opt :
  signed_if_held →
  hoare' 0 (check_servfail query dnssec_mode x level opt (rx_response rx))
    (λ c, match c with Some r => inspected r | None => True end).
Proof.
  intros Hs; unfold check_servfail.
  eapply (hoare_after _ _ _ _ _ (λ _, True)); [| |lia].
  { destruct opt; [apply quiet_wire, extended_error_code_safe|apply quiet_ret]. }
  intros [ede|] _.
  - case_match; [apply hoare_ret|].
    + split; [apply Hx|intros Hh; right; cbn; by rewrite Hlevel].
    + eapply hoare_then; [by apply answer_client_spec|]; intros r Hr; by apply hoare_ret.
  - case_match eqn:Hc; [|by apply hoare_ret].
    apply andb_true_iff in Hc as [[_ Hst%negb_true_iff]%andb_true_iff _].
    by apply hoare_ret, loop_inv_lenient.
Qed.

Lemma accept_response_spec rcode :
  signed_if_held →
  hoare' 0 (accept_response env server query x level (pq_managed_opt out) rcode rx) inspected.
Proof.
  intros Hs; unfold accept_response.
  eapply hoare_after; [|intros _ _; by apply answer_client_spec|lia].
  case_match; [|apply quiet_ret]; apply quiet_bind; [apply quiet_now|]; intros t.
  apply quiet_update_state; intros s Hf; apply (fo_success HF).
  destruct (x_rcode_probe x && _) eqn:Hp; [|done]; apply andb_true_iff in Hp as [Hp _].
  apply (fo_downgrade HF); [|done].
  destruct strict_cases as [Hst|Hst]; [|done]; pose proof (proj1 Hx Hst); congruence.
Qed.

Lemma inspect_response_spec :
  hoare' 0 (inspect_response env server query dnssec_mode x level out rx) inspected.
Proof.
  unfold inspect_response; cbn zeta.
  eapply hoare_after; [apply or_invalid_spec, wp_eq, inspect_opt_safe, Hrx| |lia]; intros opt Hopt.
  eapply hoare_after; [apply (or_invalid_spec _ (λ _, True)), full_rcode_safe| |lia]; intros rcode _.
  eapply (hoare_after _ _ _ _ _ (λ c, match c with
    | Some r => inspected r
    | None => held = true → pq_managed_opt out = true →
        ∃ o, opt = Some o ∧ opt_version o = 0 ∧ opt_dnssec_ok o = true
    end)); [| |lia].
  { destruct (pq_managed_opt out && _) eqn:Hm.
    - eapply hoare_mono; [apply check_opt_spec|lia|]; intros [r|]; auto.
    - apply hoare_ret; intros Hst Hman; rewrite Hman, Hedns, Hlevel in Hm; done. }
  intros [r|] Hc; [by apply hoare_ret|].
  eapply (hoare_after _ _ _ _ _ (λ m, held = true → pq_managed_opt out = true →
    root_rrsig_missing (rx_response rx) = Ok m)); [| |lia].
  { destruct (pq_managed_opt out && _) eqn:Hm.
    - eapply hoare_mono; [apply hoare_wire, wp_eq, root_rrsig_missing_safe, Hrx|lia|]; auto.
    - apply hoare_ret; intros Hst Hman; rewrite Hman, Hlevel in Hm; done. }
  intros [] Hroot; [apply missing_signatures_spec|].
  assert signed_if_held as Hs.
  { intros Hst Hman; destruct (Hc Hst Hman) as (o & -> & ? & ?); exists o; auto. }
  eapply (hoare_after _ _ _ _ _ (λ c, match c with Some r => inspected r | None => True end)); [| |lia].
  { case_match; [by apply check_servfail_spec|by apply hoare_ret]. }
  intros [r|] Hf; [by apply hoare_ret|]; case_match eqn:Hd; [|by apply accept_response_spec].
  apply andb_true_iff in Hd as [[[_ _]%andb_true_iff Hst%negb_true_iff]%andb_true_iff _].
  by apply hoare_ret, loop_inv_lenient.
Qed.
End answer.

(** *** The loop *)

Abbreviation costs' := (costs features_inv P).

Lemma turn_possible_spec :
  hoare' 0 (if uses_tls tls_mode then server_tls_possible env server (strict_tls tls_mode)
            else mret false)
    (λ possible, strict_tls tls_mode = true → possible = true).
Proof.
  unfold uses_tls, strict_tls; destruct tls_mode; cbn.
  - by apply hoare_ret.
  - eapply hoare_mono; [apply server_tls_possible_quiet|lia|done].
  - eapply hoare_mono; [apply server_tls_possible_strict|lia|done].
Qed.

Lemma prepare_turn_spec level size :
  is_u16 size →
  hoare' 0 (wire (prepare_query query level size)) (λ out, prepare_query query level size = Ok out ∧
    packet_ok (pq_packet out) ∧ (pq_managed_opt out = true → pq_sent_edns out = uses_edns level)).
Proof.
  intros Hsize; apply hoare_wire; pose proof (prepare_query_packet query level size Hquery Hsize).
  by destruct (prepare_query query level size).
Qed.

Lemma exchange_turn_spec x :
  loop_inv x →
  costs' 1 (exchange_turn env self fuel server query dnssec_mode tls_mode x) inspected.
Proof.
  intros Hx; unfold exchange_turn.
  eapply costs_after; [apply turn_possible_spec|]; intros use_tls Htls; cbn zeta.
  eapply costs_after; [destruct use_tls; [apply quiet_ret|apply udp_path_mtu_quiet]|].
  intros mtu _; eapply costs_after; [by apply choose_level_spec|].
  intros [[level transport] size] [Hlevel Hsize]; cbn in Hlevel, Hsize.
  eapply costs_after; [by apply prepare_turn_spec|]; intros out (Hout & Hp & Hedns).
  assert (sendable (pq_packet out)) as Hs by (exists level, size, out; auto).
  apply costs_begin; intros remaining Hrem.
  eapply (hoare_then _ _ _ _ _ (transmitted out)).
  - destruct use_tls; [eapply hoare_mono; [by apply transmit_tls_spec|done|done]|].
    assert (strict_tls tls_mode = false) as Ht
      by (destruct (strict_tls tls_mode); [by specialize (Htls eq_refl)|done]).
    destruct transport; [by apply transmit_udp_spec|].
    eapply hoare_mono; [by apply transmit_tcp_spec|done|done].
  - intros [x'|rx] Hr; [by apply hoare_ret|]; by eapply inspect_response_spec.
Qed.

Lemma exchange_loop_spec n x w :
  features_inv (w_shared w) → loop_inv x →
  DNS_TRANSACTION_ATTEMPTS_MAX < Z.of_nat n + attempts w →
  attempts w ≤ DNS_TRANSACTION_ATTEMPTS_MAX →
  swp (exchange_loop env self fuel server query dnssec_mode tls_mode n x) w
    (λ response w', spent features_inv P w w' ∧ accepted response)
    (λ _ w', spent features_inv P w w').
Proof.
  revert x w; induction n as [|n IH]; intros x w Hw Hx Hn Hmax; [lia|]; cbn [exchange_loop].
  apply swp_bind; eapply swp_mono; [by apply exchange_turn_spec| |done].
  intros [x'|response] w1 (Hs & Hat & Hr); [|by apply swp_ret].
  pose proof (λ w2, spent_trans features_inv P w w1 w2 Hs) as Htrans.
  eapply swp_mono; [apply IH; [apply Hs|done|lia|]|intros r w2 [? ?]|intros e w2 ?]; auto.
  destruct Hs as (_ & _ & Hat' & _); lia.
Qed.
End one_server.

(** ** The exchange *)

Lemma hoare_returns {A} (m : rst A) a :
  quiet' m → (∀ w, (m w).1 = Ok a) → hoare' 0 m (λ a', a' = a).
Proof.
  intros Hm Ha w Hw; specialize (Hm w Hw); specialize (Ha w); unfold swp in *.
  destruct (m w) as [r w']; cbn in Ha; subst r; split; [apply Hm|done].
Qed.

Lemma exchange_with_features_spec server query held (DM : ValidationMode → Prop)
    (TM : TlsMode → Prop) w :
  packet_ok query →
  hoare' 0 (server_dnssec_mode env self server) DM →
  hoare' 0 (server_dns_over_tls_mode env self server) TM →
  (∀ dm tm, DM dm → TM tm → (held = true → strict_dnssec dm = true) ∧
     features_ok server dm held ∧ sends_ok server query tm held) →
  features_inv (w_shared w) → 0 ≤ attempts w ≤ DNS_TRANSACTION_ATTEMPTS_MAX →
  swp (exchange_with_features env self fuel server query) w
    (λ response w', spent features_inv P w w' ∧ accepted query held response)
    (λ _ w', spent features_inv P w w').
Proof.
  intros Hq Hdm Htm Hmodes Hw Hmax; unfold exchange_with_features.
  assert (∀ w' w'', step_ok features_inv P 0 w' w'' → spent features_inv P w w' →
            spent features_inv P w w'') as Hstep
    by (intros w' w'' Hs Hsp; eapply spent_trans; [done|by apply step_spent]).
  pose proof (step_spent features_inv P w w (step_ok_refl _ _ w Hw)) as Hrefl.
  apply swp_bind; eapply swp_mono; [by apply Hdm| |intros e w0 Hs; exact (Hstep _ _ Hs Hrefl)].
  intros dm w1 [Hs1 Hdm1]; pose proof (Hstep _ _ Hs1 Hrefl) as Hsp1.
  apply swp_bind; eapply swp_mono; [apply Htm, Hs1| |intros e w0 Hs; exact (Hstep _ _ Hs Hsp1)].
  intros tm w2 [Hs2 Htm2].
  destruct (Hmodes dm tm Hdm1 Htm2) as (Hheld & HF & HS).
  pose proof (Hstep _ _ Hs2 Hsp1) as Hsp.
  assert (attempts w2 = attempts w) as Hat.
  { destruct Hs1 as (_ & Hb1 & _), Hs2 as (_ & Hb2 & _); unfold attempts; by rewrite Hb2, Hb1. }
  eapply swp_mono; [apply exchange_loop_spec with (held := held); try done| |].
  - apply Hs2.
  - split; [done|by left].
  - rewrite Hat; unfold DNS_TRANSACTION_ATTEMPTS_MAX in *; lia.
  - lia.
  - intros r w3 [Hs3 Hr]; split; [by eapply spent_trans|done].
  - intros e w3 Hs3; by eapply spent_trans.
Qed.
End methods.

(** ** The answer to a client's query *)

(** [raw] is a response with the identifier and the question of a query. *)
Definition answers_question (h : Header) (labels : list bytes) (t c : Z) (raw : bytes) : Prop :=
  ∃ h' q, header_parse raw = Ok h' ∧ h_id h' = h_id h ∧ validate raw true = Ok () ∧
    first_question raw = Ok q ∧ canonical_wire (q_name q) = canonical_of_labels labels ∧
    q_rr_type q = t ∧ q_class q = c.

(** A packet sent to [server] for a query. *)
Definition sent_to (e : sent) : ServerKey :=
  match e with SentUdp s _ | SentTcp s _ | SentTls s _ _ => s end.
Definition sent_packet (e : sent) : bytes :=
  match e with SentUdp _ p | SentTcp _ p | SentTls _ _ p => p end.

Definition sent_query (server : ServerKey) (h : Header) (labels : list bytes) (t c : Z)
    (e : sent) : Prop :=
  sent_to e = server ∧
  ∃ level size stop, sent_for h labels t c stop
    (if uses_edns level then Some (level_opt level size) else None) (sent_packet e).

Lemma response_matches_inv query raw :
  response_matches query raw = Ok () →
  ∃ h h' q q', header_parse query = Ok h ∧ header_parse raw = Ok h' ∧ h_id h = h_id h' ∧
    validate raw true = Ok () ∧ first_question query = Ok q ∧ first_question raw = Ok q' ∧
    canonical_wire (q_name q) = canonical_wire (q_name q') ∧
    q_rr_type q = q_rr_type q' ∧ q_class q = q_class q'.
Proof.
  intros Hm; unfold response_matches in Hm; inv_ok; boolp.
  repeat match goal with u : () |- _ => destruct u end; eexists _, _, _, _; split_and!; eauto.
  by apply dec_stable.
Qed.

Lemma sendable_sent query h labels t c o held p :
  client_query query h labels t c o → len query ≤ 65000 → sendable query held p →
  ∃ level size stop, sent_for h labels t c stop
    (if uses_edns level then Some (level_opt level size) else None) p.
Proof.
  intros Hq Hl (level & size & out & Hs & Hout & <- & _).
  destruct (prepare_query_spec query h labels t c o level size Hq Hs Hl)
    as (pq & stop & Hpq & _ & _ & _ & Hsent); rewrite Hout in Hpq; apply Ok_inj in Hpq as <-.
  by exists level, size, stop.
Qed.

Lemma accepted_answer query h labels t c o held response :
  client_query query h labels t c o → len query ≤ 65000 → accepted query held response →
  ∃ raw, answers_question h labels t c raw ∧ response_for_client query raw = Ok response ∧
    (held = true → signed_response raw).
Proof.
  intros Hq Hl (level & size & out & raw & Hs & Hout & (Hpr & _ & Hm) & Hr & Hheld).
  destruct (prepare_query_spec query h labels t c o level size Hq Hs Hl)
    as (pq & stop & Hpq & Hman & _ & _ & _ & _ & Hh & Hfq & _).
  rewrite Hout in Hpq; apply Ok_inj in Hpq as <-; exists raw; split_and!; [|done|].
  - destruct (response_matches_inv _ _ Hm)
      as (h1 & h2 & q1 & q2 & Hh1 & Hh2 & Hid & Hv & Hq1 & Hq2 & Hn & Ht & Hc).
    rewrite Hh in Hh1; apply Ok_inj in Hh1 as <-; rewrite Hfq in Hq1; apply Ok_inj in Hq1 as <-.
    exists h2, q2; split_and!; done || (symmetry; done).
  - intros Hx; by apply Hheld.
Qed.

Lemma client_query_packet query h labels t c o : client_query query h labels t c o → packet_ok query.
Proof. intros (pre & tail & _ & Ha & _); apply Ha. Qed.

(** What is remembered of a server that was never lowered. *)
Definition undiminished (f : ServerFeatureState) : Prop :=
  f_possible f = LevelDnssecOk ∧ f_bad_opt f = false.

Lemma undiminished_features server dm :
  strict_dnssec dm = true →
  features_ok (λ s f, s = server → undiminished f) server dm true.
Proof.
  intros Hst; split; try congruence.
  - intros f best t Hf Hb; destruct (Hf eq_refl) as [H1 H2]; rewrite (Hb eq_refl).
    unfold possible_level; rewrite H2; cbn; rewrite H1; cbn; by rewrite H1.
  - intros f level Hf Hs; destruct (Hf Hs) as [H1 H2]; unfold features_record_success.
    cbn; repeat case_match; by split.
Qed.

Lemma any_features server dm : features_ok (λ _ _, True) server dm false.
Proof. by split. Qed.

(** What one exchange spent: [P] holds of what was sent. *)
Definition exchange_cost (P : sent → Prop) (w w' : World) : Prop :=
  attempts w ≤ attempts w' ≤ DNS_TRANSACTION_ATTEMPTS_MAX ∧
  b_deadline (w_budget w') = b_deadline (w_budget w) ∧
  ∃ l, w_sent w' = w_sent w ++ l ∧ Forall P l ∧
    len l ≤ PACKETS_PER_ATTEMPT * (attempts w' - attempts w).

(** A result that is neither a panic nor an endless loop, and whose value
    satisfies [Q]. *)
Definition returned {A} (r : rres A) (Q : A → Prop) : Prop :=
  match r with Ok a => Q a | Err _ => True | Panic | Diverge => False end.

Lemma spent_cost I P w w' :
  spent I P w w' → attempts w ≤ DNS_TRANSACTION_ATTEMPTS_MAX → exchange_cost P w w'.
Proof. intros (_ & Hd & Ha & Hl) Hw; split_and!; [lia|lia|done|done]. Qed.

Lemma exchange_runs env self fuel FI J P server query held DM TM w :
  env_ok env → (0 < fuel)%nat → receiving_ends env fuel →
  (∀ sh states udp tcp tls, J sh →
     J { sh with sh_states := states; sh_udp_sockets := udp; sh_tcp_streams := tcp;
                 sh_tls_streams := tls }) →
  (∀ n sh, features_inv FI J sh → features_inv FI J (others env n sh)) → packet_ok query →
  hoare (features_inv FI J) P 0 (server_dnssec_mode env self server) DM →
  hoare (features_inv FI J) P 0 (server_dns_over_tls_mode env self server) TM →
  (∀ dm tm, DM dm → TM tm → (held = true → strict_dnssec dm = true) ∧
     features_ok FI server dm held ∧ sends_ok P server query tm held) →
  features_inv FI J (w_shared w) → 0 ≤ attempts w ≤ DNS_TRANSACTION_ATTEMPTS_MAX →
  ∃ r w', exchange_with_features env self fuel server query w = (r, w') ∧
    features_inv FI J (w_shared w') ∧ exchange_cost P w w' ∧ returned r (accepted query held).
Proof.
  intros Henv Hfuel Hclock HJ Hothers Hq Hdm Htm Hmodes Hw Hat.
  pose proof (exchange_with_features_spec env self fuel FI P Henv Hfuel Hclock J HJ Hothers
    server query held DM TM w Hq Hdm Htm Hmodes Hw Hat) as H; unfold swp in H.
  destruct (exchange_with_features _ _ _ _ _ w) as [r w']; exists r, w'; split; [done|].
  destruct r; try done; cbn.
  - destruct H as [Hs Ha]; split_and!; [apply Hs|by eapply spent_cost; [|lia]|done].
  - split_and!; [apply H|by eapply spent_cost; [|lia]|done].
Qed.

(** A server that answers over UDP, with and without the DO bit, and nothing
    else.  Each event takes ten milliseconds. *)
Definition example_server : ServerKey := key_new ScopeGlobal (SockV4 [192; 0; 2; 53] 53).

Definition example_reply (flags : Z) : bytes :=
  [0; 7; 129; 128; 0; 1; 0; 0; 0; 0; 0; 1; 1; 120; 1; 121; 0; 0; 1; 0; 1;
   0; 0; 41; 4; 208; 0; 0; flags; 0; 0; 0].

Definition example_resolver (dm : ValidationMode) (tm : TlsMode) : Resolver :=
  mk_resolver { config_default with dnssec := dm; dns_over_tls := tm }
    [SockV4 [192; 0; 2; 53] 53] [].

Lemma example_env_ok others flags : 0 ≤ flags < 256 → env_ok (example_env others (example_reply flags)).
Proof.
  intros Hf; split; cbn; try done; intros n fd r f; case_match; intros [= <- <-]; split; [|by vm_compute].
  unfold example_reply, bytes_ok; repeat (constructor; [unfold is_u8; lia|]); constructor.
Qed.

Lemma example_receiving others reply : receiving_ends (example_env others reply) 200.
Proof.
  intros n k Hk; unfold example_env; cbn [env_now os_udp_recv].
  change DNS_TRANSACTION_UDP_TIMEOUT with 5000000000.
  destruct (Z.ltb_spec (Z.of_nat (n + 3 + 3 * k)) 1000000000) as [Hlt|]; [left; lia|right; by eexists].
Qed.

Lemma example_client_query : client_query example_query example_header [[120]; [121]] 1 1 None.
Proof. exists example_query, []; split; [done|]; split; [apply example_query_answerable|done]. Qed.

(** The exchange with it succeeds. *)
Lemma example_exchange :
  let '(r, w) := exchange_with_features (example_env (λ _, id) (example_reply 128))
    (example_resolver ValidationYes TlsNo) 200 example_server example_query example_world in
  is_ok r = true ∧ attempts w = 1 ∧ len (w_sent w) = 1.
Proof. vm_compute; auto. Qed.

(** Strict DNSSEC does not raise a level that was lowered before the mode was
    set: an answer without any OPT record is taken. *)
Definition example_plain_reply : bytes :=
  [0; 7; 129; 128; 0; 1; 0; 0; 0; 0; 0; 0; 1; 120; 1; 121; 0; 0; 1; 0; 1].

Lemma lowered_server_unsigned :
  let lowered := { server_state_default with
    ss_features := downgrade_to features_default LevelUdp 0 } in
  let w := { example_world with w_shared := with_state example_server lowered example_shared } in
  (exchange_with_features (example_env (λ _, id) example_plain_reply)
    (example_resolver ValidationYes TlsNo) 200 example_server example_query w).1 =
  Ok example_plain_reply ∧ inspect_opt example_plain_reply = Ok None.
Proof. by vm_compute. Qed.

(** ** Properties *)

(** C6: an exchange with a server, whatever its modes, whatever the network
    and other threads do, ends: it takes at most what is left of the 24
    attempts, with at most three packets each, all of them to that server and
    all of them the client's query at some feature level; and what it returns
    is the client's form of a response with the identifier and the question of
    the query. *)
Theorem exchange_answers env self fuel server query h labels t c o w :
  env_ok env → (0 < fuel)%nat → receiving_ends env fuel →
  client_query query h labels t c o → len query ≤ 65000 →
  0 ≤ attempts w ≤ DNS_TRANSACTION_ATTEMPTS_MAX →
  ∃ r w', exchange_with_features env self fuel server query w = (r, w') ∧
    exchange_cost (sent_query server h labels t c) w w' ∧
    returned r (λ response, ∃ raw,
      answers_question h labels t c raw ∧ response_for_client query raw = Ok response).
Proof.
  intros Henv Hfuel Hclock Hq Hl Hw.
  destruct (exchange_runs env self fuel (λ _ _, True) (λ _, True) (sent_query server h labels t c) server query
    false (λ _, True) (λ _, True) w) as (r & w' & Hr & _ & Hc & Ha); try done.
  - by eapply client_query_packet.
  - by apply server_dnssec_mode_quiet.
  - by apply server_tls_mode_quiet.
  - intros dm tm _ _; split_and!; [done|apply any_features|].
    split; intros; (split; [done|by eapply sendable_sent]).
  - exists r, w'; split_and!; [done..|]; destruct r; try done.
    destruct (accepted_answer _ _ _ _ _ _ _ _ Hq Hl Ha) as (raw & ? & ? & _); by exists raw.
Qed.

Lemma exchange_answers_witness :
  ∃ r w', exchange_with_features (example_env (λ _, id) (example_reply 128))
      (example_resolver AllowDowngrade Opportunistic) 200 example_server example_query example_world
      = (r, w') ∧
    exchange_cost (sent_query example_server example_header [[120]; [121]] 1 1) example_world w' ∧
    returned r (λ response, ∃ raw, answers_question example_header [[120]; [121]] 1 1 raw ∧
      response_for_client example_query raw = Ok response).
Proof.
  apply (exchange_answers (example_env (λ _, id) (example_reply 128))
    (example_resolver AllowDowngrade Opportunistic) 200 example_server example_query example_header
    [[120]; [121]] 1 1 None example_world);
    [apply example_env_ok; lia|lia|apply example_receiving|apply example_client_query|by vm_compute..].
Defined.

(** C7: with DNS-over-TLS set to [yes] every packet of an exchange goes over
    TLS with a verified certificate; nothing is sent in the clear. *)
Theorem strict_tls_never_clear env self fuel server query w :
  env_ok env → (0 < fuel)%nat → receiving_ends env fuel → packet_ok query →
  (∀ w, (server_dns_over_tls_mode env self server w).1 = Ok TlsYes) →
  0 ≤ attempts w ≤ DNS_TRANSACTION_ATTEMPTS_MAX →
  ∃ r w', exchange_with_features env self fuel server query w = (r, w') ∧
    exchange_cost (λ e, ∃ packet, e = SentTls server true packet) w w' ∧ returned r (λ _, True).
Proof.
  intros Henv Hfuel Hclock Hq Hmode Hw.
  destruct (exchange_runs env self fuel (λ _ _, True) (λ _, True) (λ e, ∃ packet, e = SentTls server true packet)
    server query false (λ _, True) (eq TlsYes) w) as (r & w' & Hr & _ & Hc & Ha); try done.
  - by apply server_dnssec_mode_quiet.
  - eapply hoare_mono; [apply hoare_returns; [by apply server_tls_mode_quiet|exact Hmode]|lia|done].
  - intros dm tm _ <-; split_and!; [done|apply any_features|]; split; [done..|].
    intros p _; by exists p.
  - exists r, w'; split_and!; [done..|]; by destruct r.
Qed.

Lemma strict_tls_never_clear_witness :
  ∃ r w', exchange_with_features (example_env (λ _, id) (example_reply 128))
      (example_resolver ValidationNo TlsYes) 200 example_server example_query example_world
      = (r, w') ∧
    exchange_cost (λ e, ∃ packet, e = SentTls example_server true packet) example_world w' ∧
    returned r (λ _, True).
Proof.
  apply (strict_tls_never_clear (example_env (λ _, id) (example_reply 128))
    (example_resolver ValidationNo TlsYes) 200 example_server example_query example_world);
    [apply example_env_ok; lia|lia|apply example_receiving|apply example_query_answerable|done|by vm_compute].
Defined.

(** C8: with DNSSEC set to [yes], and a server whose feature level was never
    lowered, an answer is accepted only from a response that has an OPT record
    of version 0 with the DO bit, and no unsigned record of the root; and the
    level is not lowered. *)
Theorem strict_dnssec_signed env self fuel server query h labels t c o w :
  env_ok env → (0 < fuel)%nat → receiving_ends env fuel →
  client_query query h labels t c o → len query ≤ 65000 →
  (∀ w, (server_dnssec_mode env self server w).1 = Ok ValidationYes) →
  let unlowered sh := undiminished (ss_features (server_state sh server)) in
  (∀ n sh, unlowered sh → unlowered (others env n sh)) → unlowered (w_shared w) →
  0 ≤ attempts w ≤ DNS_TRANSACTION_ATTEMPTS_MAX →
  ∃ r w', exchange_with_features env self fuel server query w = (r, w') ∧
    unlowered (w_shared w') ∧
    returned r (λ response, ∃ raw, answers_question h labels t c raw ∧ signed_response raw ∧
      response_for_client query raw = Ok response).
Proof.
  intros Henv Hfuel Hclock Hq Hl Hmode unlowered Hothers Hinit Hw.
  set (FI s f := s = server → undiminished f).
  assert (∀ sh, features_inv FI (λ _, True) sh ↔ unlowered sh) as Hinv.
  { intros sh; split; [intros [H _]; by apply H|intros H; split; [|done]; intros s ->; exact H]. }
  destruct (exchange_runs env self fuel FI (λ _, True) (λ _, True) server query true (eq ValidationYes)
    (λ _, True) w) as (r & w' & Hr & Hi & Hc & Ha); try done.
  - intros n sh; rewrite !Hinv; apply Hothers.
  - by eapply client_query_packet.
  - eapply hoare_mono; [apply hoare_returns; [apply server_dnssec_mode_quiet|exact Hmode]|lia|done].
    intros n sh; rewrite !Hinv; apply Hothers.
  - apply server_tls_mode_quiet; intros n sh; rewrite !Hinv; apply Hothers.
  - intros dm tm <- _; split_and!; [done|by apply undiminished_features|by split].
  - by apply Hinv.
  - exists r, w'; split; [done|]; split; [by apply (proj1 (Hinv _))|].
    destruct r; try done.
    destruct (accepted_answer _ _ _ _ _ _ _ _ Hq Hl Ha) as (raw & ? & ? & Hs).
    exists raw; auto.
Qed.

Lemma strict_dnssec_signed_witness :
  ∃ r w', exchange_with_features (example_env (λ _, id) (example_reply 128))
      (example_resolver ValidationYes TlsNo) 200 example_server example_query example_world
      = (r, w') ∧
    undiminished (ss_features (server_state (w_shared w') example_server)) ∧
    returned r (λ response, ∃ raw, answers_question example_header [[120]; [121]] 1 1 raw ∧
      signed_response raw ∧ response_for_client example_query raw = Ok response).
Proof.
  apply (strict_dnssec_signed (example_env (λ _, id) (example_reply 128))
    (example_resolver ValidationYes TlsNo) 200 example_server example_query example_header
    [[120]; [121]] 1 1 None example_world);
    [apply example_env_ok; lia|lia|apply example_receiving|apply example_client_query|by vm_compute|done
    |done|by vm_compute..].
Defined.
