(* ===== verification/ResolverInv.v ===== *)
(** * What the resolver's shared state holds

    The invariant of the shared state that every query keeps and relies on:
    every cached response, and every response left for the followers of
    a transaction, comes from a response some server gave to a query for the same
    question; hosts and static records are well formed.  [calls] is the triple
    for methods that keep it. *)

From S2P Require Import Prelude Stateful Text Net Sorting Codec Names CodecFacts Packet PacketFacts.
From S2P Require Import RedirectFacts RecordsFacts Edns EdnsFacts CacheX CacheXFacts Cache CacheFacts Provenance Routing Hosts.
From S2P Require Import HostsFacts StaticRecords StaticFacts Inflight World WorldFacts ExchangeFacts.

(** ** Responses of servers *)

(** The key a question is cached under. *)
Definition question_key (q : Question) : XKey :=
  mk_xkey (canonical_wire (q_name q)) (q_rr_type q) (q_class q).

(** A response that matches [query] as it was sent at some feature level. *)
Definition answer_to (query raw : bytes) : Prop :=
  ∃ level size out, is_u16 size ∧ prepare_query query level size = Ok out ∧
    answers (pq_packet out) raw.

(** [response] comes from a response to a query for the question [k]. *)
Definition from_server (k : XKey) (response : bytes) : Prop :=
  ∃ query q raw, packet_ok query ∧ first_question query = Ok q ∧ question_key q = k ∧
    answer_to query raw ∧ derived raw response.

Lemma from_server_packet k r : from_server k r → packet_ok r ∧ len r ≤ 65535.
Proof.
  intros (query & q & raw & _ & _ & _ & (? & ? & ? & _ & _ & Hr & Hl & _) & Hd).
  by apply (derived_packet raw).
Qed.

Lemma from_server_id k r id r' :
  from_server k r → is_u16 id → rewrite_id r id = Ok r' → from_server k r'.
Proof.
  intros (query & q & raw & ? & ? & ? & ? & Hd) Hid Hr.
  exists query, q, raw; split_and!; try done; by eapply derived_id.
Qed.

Lemma from_server_aged k r elapsed stale r' :
  from_server k r → 0 ≤ elapsed → age_ttls r elapsed stale = Ok r' → from_server k r'.
Proof.
  intros (query & q & raw & ? & ? & ? & ? & Hd) He Hr.
  exists query, q, raw; split_and!; try done; by eapply derived_aged.
Qed.

(** What an exchange returns. *)
Lemma accepted_from_server query q response :
  packet_ok query → first_question query = Ok q → accepted query false response →
  from_server (question_key q) response.
Proof.
  intros Hp Hq (level & size & out & raw & Hs & Hout & Hans & Hr & _).
  exists query, q, raw; split_and!; [done..|by exists level, size, out|].
  eapply derived_client; [constructor|exact Hr].
Qed.

Lemma question_key_ok query q : packet_ok query → first_question query = Ok q → key_ok (question_key q).
Proof.
  intros Hp Hq; unfold first_question in Hq; apply bind_Ok in Hq as (h & _ & Hq).
  case_match; [done|]; pose proof (parse_question_wf _ _ _ Hp Hq) as (labels & Hl & Hn).
  apply parse_question_iff in Hq as (ne & _ & Ht & Hc & _).
  unfold question_key, key_ok; rewrite Hn; split_and!; cbn;
    [by apply canonical_of_labels_ok|by eapply read_u16_range; [apply Hp|]..].
Qed.

Lemma age_ttls_id p elapsed stale q :
  packet_ok p → 0 ≤ elapsed → age_ttls p elapsed stale = Ok q → read_u16 q 0 = read_u16 p 0.
Proof.
  intros Hp He Hq; pose proof Hq as Hs; unfold age_ttls in Hs.
  apply bind_Ok in Hs as ([[[h qs] rs] o] & Hs & _).
  destruct (age_ttls_shape p elapsed stale _ _ _ _ Hp He Hs) as (q' & Hq' & _ & _ & Hh & _).
  rewrite Hq in Hq'; apply Ok_inj in Hq' as <-.
  apply parse_sections_Ok in Hs as (_ & Hhp & _); [|done].
  apply header_parse_iff in Hh as (_ & -> & _), Hhp as (_ & -> & _); done.
Qed.

(** ** The cache *)

Section cache.
Context `{io : !IterOrder XKey CacheEntry, !IterOrderOk io}.

(** The times of an entry fit an [Instant] while the machine is up for less than
    [UPTIME_MAX] and stale answers are kept for at most [STALE_MAX]. *)
Definition UPTIME_MAX : Z := 2 ^ 61 * second.
Definition STALE_MAX : Z := 2 ^ 62 * second.

Lemma uptime_fits window now : window ≤ STALE_MAX → now ≤ UPTIME_MAX → time_fits window now.
Proof. unfold time_fits, STALE_MAX, UPTIME_MAX, INSTANT_END, second; lia. Qed.

Definition cache_ok (c : Cache) : Prop :=
  cache_wf (ca_global c) ∧ 0 ≤ c_stale_window (ca_global c) ≤ STALE_MAX ∧
  ∀ k e, peek (ca_global c) k = Some e → from_server k (e_answer e).

Lemma cache_ok_get c key id allow now :
  cache_ok c → key_ok (to_xkey key) → is_u16 id →
  ∃ r c', dns_cache_get c key id allow now = Ok (r, c') ∧ cache_ok c' ∧
    ∀ q, r = Some q → from_server (to_xkey key) q ∧ read_u16 q 0 = Ok id.
Proof using All.
  intros (Hwf & Hwin & Hent) Hk Hid.
  destruct (lookup_peek (ca_global c) (to_xkey key) now Hwf Hk) as (g & Hg & Hs & Hm & Hmax & Hw & _).
  destruct (cache_wf_frame _ g Hwf Hs Hm Hmax) as [Hwf' Hpeek].
  assert (cache_ok (with_global c g)) as Hok.
  { split_and!; cbn; [done|lia|lia|]; intros k e; rewrite Hpeek; apply Hent. }
  unfold dns_cache_get; rewrite Hg; cbn [mbind outcome_bind].
  destruct (served_entry _ allow) as [e|] eqn:Hf; [|by exists None, (with_global c g)].
  assert (peek (ca_global c) (to_xkey key) = Some e) as Hpk.
  { destruct (peek _ _) as [e'|]; [|done].
    destruct (is_fresh e' now), (is_servable_stale e' now), allow; naive_solver. }
  apply Hent in Hpk as Hfs; destruct (from_server_packet _ _ Hfs) as [Hp _].
  pose proof (write_u16_safe (e_answer e) 0 id) as Hsafe; fold (rewrite_id (e_answer e) id) in Hsafe.
  destruct (rewrite_id (e_answer e) id) as [p| | |] eqn:Hr; try done;
    [|by exists None, (with_global c g)].
  cbn [mbind outcome_bind]; destruct (rewrite_id_shape (e_answer e) id p Hp Hid Hr) as (Hpp & _ & Hi & _).
  pose proof (elapsed_nonneg now (e_inserted e)) as Hel.
  pose proof (age_ttls_safe p _ (e_expires_at e <=? now) Hpp Hel) as Hsafe'.
  destruct (age_ttls p _ _) as [q| | |] eqn:Hq; try done; [|by exists None, (with_global c g)].
  exists (Some q), (with_global c g); split_and!; [done..|]; intros q' [= <-]; split.
  - eapply from_server_aged; [by eapply from_server_id|exact Hel|exact Hq].
  - by rewrite (age_ttls_id p _ _ q Hpp Hel Hq).
Qed.

Lemma cache_ok_insert c key response now :
  cache_ok c → now ≤ UPTIME_MAX → key_ok (to_xkey key) → from_server (to_xkey key) response →
  (∃ b c', dns_cache_insert c key response now = Ok (b, c') ∧ cache_ok c') ∨
  ∃ e, dns_cache_insert c key response now = Err e.
Proof using All.
  intros Hc Hnow Hk Hfs; destruct (from_server_packet _ _ Hfs) as [Hp _]; unfold dns_cache_insert.
  pose proof (admitted_ttl_safe c response Hp) as Hsafe.
  destruct (admitted_ttl c response) as [[ttl|]| | |] eqn:Ha; try done;
    [|left; by exists false, c|right; by eexists].
  cbn [mbind outcome_bind]; apply admitted_ttl_Some in Ha as Hx; destruct Hx as (h & Hh & _).
  rewrite Hh; cbn [mbind outcome_bind]; apply header_parse_len in Hh as Hlen.
  destruct (rewrite_id_spec response 0 Hp) as (p & Hr & _); [lia|done|].
  rewrite Hr; cbn [mbind outcome_bind]; destruct Hc as (Hwf & Hwin & Hent).
  destruct (cache_insert_spec (ca_global c) (to_xkey key) (response_code h) p ttl false now)
    as (g & Hg & Hwf' & Hwin' & _ & Hnew & Hold);
    [done|done|lia|apply time_fits_entry, uptime_fits; lia|].
  unfold infallible; rewrite Hg; cbn [map_err mbind outcome_bind]; left.
  exists true, (with_global c g); split; [done|]; split_and!; cbn; [done|lia|lia|].
  intros k e Hpk; destruct (decide (k = to_xkey key)) as [->|Hne]; [|by apply Hent; auto].
  rewrite Hnew in Hpk; injection Hpk as <-; by eapply from_server_id.
Qed.

Lemma cache_ok_new capacity max window negative :
  0 ≤ capacity → 0 ≤ window ≤ STALE_MAX → ∃ c, new_dns_cache capacity max window negative = Ok c ∧ cache_ok c.
Proof using All.
  intros Hcap Hw; destruct (new_dns_cache_reached capacity max window negative Hcap)
    as (c & Hc & Hr & _ & Hwin); [lia|]; exists c; split; [done|]; destruct Hr as [_ Hwf _ _ Hent].
  split_and!; [done|lia|lia|]; intros k e (? & ? & Hk & _)%Hent; by rewrite lookup_empty in Hk.
Qed.

Lemma cache_ok_flush c : cache_ok c → cache_ok (dns_cache_flush c).
Proof using All.
  intros (Hwf & Hwin & _); destruct (cache_flush_spec (ca_global c) Hwf) as [Hwf' Hpeek].
  split_and!; cbn; [done|lia|lia|]; intros k e; by rewrite Hpeek.
Qed.
End cache.

(** ** Transactions in flight *)

(** A response left for the followers of [key]. *)
Definition shared_answer (key : InflightKey) (response : bytes) : Prop :=
  ∃ query q, packet_ok query ∧ rewrite_id query 0 = Ok (ik_query key) ∧
    first_question query = Ok q ∧ from_server (question_key q) response.

(** [owner] says for which key each entry was made.  [mine] is the entry this
    thread leads or follows. *)
Record inflight_owned (mine : option (nat * InflightKey)) (owner : gmap nat InflightKey)
    (f : Inflight) : Prop := {
  io_entries key e : if_entries f !! key = Some e →
    owner !! e = Some key ∧ is_Some (if_heap f !! e);
  io_responses e s r : if_heap f !! e = Some s → is_response s = Some r →
    ∃ key, owner !! e = Some key ∧ shared_answer key r;
  io_next e : is_Some (owner !! e) → (e < if_next f)%nat;
  io_mine e key : mine = Some (e, key) → owner !! e = Some key ∧ is_Some (if_heap f !! e);
}.

Definition inflight_ok (mine : option (nat * InflightKey)) (f : Inflight) : Prop :=
  ∃ owner, inflight_owned mine owner f.

Lemma inflight_ok_default : inflight_ok None inflight_default.
Proof. exists ∅; split; cbn; intros *; rewrite ?lookup_empty; try done; by intros [? ?]. Qed.

Lemma inflight_ok_None mine f : inflight_ok mine f → inflight_ok None f.
Proof. intros [owner []]; by exists owner. Qed.

Definition role_entry (role : InflightRole) : nat :=
  match role with Leader e | Follower e => e end.

Lemma inflight_ok_begin key f role f' :
  inflight_ok None f → begin key f = (role, f') → inflight_ok (Some (role_entry role, key)) f'.
Proof.
  intros [owner Ho]; unfold begin; destruct (if_entries f !! key) as [e|] eqn:He; intros [= <- <-].
  { exists owner; destruct Ho as [He' Hr Hn _]; split; try done.
    intros e' key' [= <- <-]; by apply He'. }
  destruct Ho as [He' Hr Hn _].
  assert (owner !! if_next f = None) as Hnew.
  { apply eq_None_not_Some; intros H%Hn; lia. }
  exists (<[if_next f := key]> owner); split; cbn.
  - intros key' e; destruct (decide (key' = key)) as [->|].
    + rewrite lookup_insert_eq; intros [= <-]; by rewrite !lookup_insert_eq.
    + rewrite lookup_insert_ne by done; intros [Ho Hh]%He'.
      assert (e ≠ if_next f) by congruence; by rewrite !lookup_insert_ne.
  - intros e s r; destruct (decide (e = if_next f)) as [->|].
    + rewrite lookup_insert_eq; by intros [= <-].
    + rewrite !lookup_insert_ne by done; apply Hr.
  - intros e; destruct (decide (e = if_next f)) as [->|]; [lia|].
    rewrite lookup_insert_ne by done; intros H%Hn; lia.
  - intros e key' [= <- <-]; by rewrite !lookup_insert_eq.
Qed.

Lemma inflight_ok_finish_state e key response f :
  inflight_ok (Some (e, key)) f → (∀ r, response = Some r → shared_answer key r) →
  inflight_ok (Some (e, key)) (finish_state e response f).
Proof.
  intros [owner [He Hr Hn Hm]] Hresp; destruct (Hm e key eq_refl) as [Ho Hh].
  exists owner; split; cbn; [| |done|].
  - intros k e' [Ho' Hh']%He; split; [done|].
    destruct (decide (e' = e)) as [->|]; [by rewrite lookup_insert_eq|by rewrite lookup_insert_ne].
  - intros e' s r; destruct (decide (e' = e)) as [->|]; [|rewrite lookup_insert_ne by done; apply Hr].
    rewrite lookup_insert_eq; intros [= <-] Hs; exists key; split; [done|by apply Hresp].
  - intros e' k [= <- <-]; by rewrite lookup_insert_eq.
Qed.

Lemma inflight_ok_finish_table mine e key f :
  inflight_ok mine f → inflight_ok mine (finish_table key e f).
Proof.
  intros [owner [He Hr Hn Hm]]; unfold finish_table; case_bool_decide; [|by exists owner].
  exists owner; split; cbn; try done.
  intros k e' [_ ?]%lookup_delete_Some; by apply He.
Qed.

(** ** The shared state *)

(** [R] is about the routing table. *)
Record resolver_inv (R : RoutingTable → Prop) (mine : option (nat * InflightKey))
    (sh : Shared) : Prop := {
  ri_cache : cache_ok (sh_cache sh);
  ri_hosts : hosts_ok (sh_hosts sh);
  ri_static : database_ok (sr_records (sh_static sh));
  ri_inflight : inflight_ok mine (sh_inflight sh);
  ri_routing : R (sh_routing sh);
  ri_next_id : is_u16 (sh_next_id sh);
}.

(** Changes that keep it. *)
Lemma resolver_inv_frame R mine sh sh' :
  resolver_inv R mine sh → sh_cache sh' = sh_cache sh → sh_hosts sh' = sh_hosts sh →
  sh_static sh' = sh_static sh → sh_inflight sh' = sh_inflight sh →
  sh_routing sh' = sh_routing sh → sh_next_id sh' = sh_next_id sh → resolver_inv R mine sh'.
Proof. intros [] H1 H2 H3 H4 H5 H6; split; by rewrite ?H1, ?H2, ?H3, ?H4, ?H5, ?H6. Qed.

Lemma resolver_inv_None R mine sh : resolver_inv R mine sh → resolver_inv R None sh.
Proof. intros []; split; try done; by eapply inflight_ok_None. Qed.

(** ** Methods that keep an invariant *)

Section calls.
Context (env : Env) (I : Shared → Prop) (P : sent → Prop).

(** [I] holds, and what was sent satisfies [P]. *)
Definition kept (w w' : World) : Prop :=
  I (w_shared w') ∧ ∃ l, w_sent w' = w_sent w ++ l ∧ Forall P l.

(** Run from a state that satisfies [I], [m] returns, keeps [I], sends only what
    satisfies [P], and its value satisfies [Q]. *)
Definition calls {A} (m : rst A) (Q : A → Prop) : Prop :=
  ∀ w, I (w_shared w) → swp m w (λ a w', kept w w' ∧ Q a) (λ _ w', kept w w').

Lemma kept_refl w : I (w_shared w) → kept w w.
Proof. split; [done|]; exists []; by rewrite app_nil_r. Qed.

Lemma kept_trans w1 w2 w3 : kept w1 w2 → kept w2 w3 → kept w1 w3.
Proof.
  intros (_ & l & Hl & Hp) (HI & l' & Hl' & Hp'); split; [done|].
  exists (l ++ l'); rewrite Hl', Hl, app_assoc; split; [done|by apply Forall_app].
Qed.

Lemma step_kept k w w' : step_ok I P k w w' → kept w w'.
Proof. intros (HI & _ & l & Hl & Hp & _); split; [done|eauto]. Qed.

Lemma spent_kept w w' : spent I P w w' → kept w w'.
Proof. intros (HI & _ & _ & l & Hl & Hp & _); split; [done|eauto]. Qed.

Lemma calls_hoare {A} k (m : rst A) Q : hoare I P k m Q → calls m Q.
Proof.
  intros Hm w Hw; eapply swp_mono; [by apply Hm| |].
  - intros a w' [Hs Ha]; split; [by eapply step_kept|done].
  - intros e w' Hs; exact (step_kept _ _ _ Hs).
Qed.

Lemma calls_mono {A} (m : rst A) (Q Q' : A → Prop) : calls m Q → (∀ a, Q a → Q' a) → calls m Q'.
Proof. intros Hm HQ w Hw; eapply swp_mono; [by apply Hm| |done]; naive_solver. Qed.

Lemma calls_bind {A B} (m : rst A) (f : A → rst B) Q Q' :
  calls m Q → (∀ a, Q a → calls (f a) Q') → calls (m ≫= f) Q'.
Proof.
  intros Hm Hf w Hw; apply swp_bind; eapply swp_mono; [by apply Hm| |done].
  intros a w' [Hs Ha]; eapply swp_mono; [apply Hf; [done|apply Hs]| |].
  - intros b w'' [Hs' Hb]; split; [by eapply kept_trans|done].
  - intros e w'' Hs'; exact (kept_trans _ _ _ Hs Hs').
Qed.

Lemma calls_ret {A} (a : A) (Q : A → Prop) : Q a → calls (mret a) Q.
Proof. intros Ha; eapply calls_hoare; by apply hoare_ret. Qed.

Lemma calls_fail {A} (e : ResolveError) (Q : A → Prop) : calls (fail e) Q.
Proof. eapply calls_hoare, hoare_fail. Qed.

Lemma calls_lift {A} (r : rres A) Q : wp r Q → calls (lift r) Q.
Proof. intros Hr; eapply calls_hoare; by apply hoare_lift. Qed.

Lemma calls_wire {A} (r : wres A) Q : wp r Q → calls (wire r) Q.
Proof. intros Hr; eapply calls_hoare; by apply hoare_wire. Qed.

Lemma calls_attempt {A} (m : rst A) Q :
  calls m Q → calls (attempt m) (λ r, match r with Ok a => Q a | Err _ => True | _ => False end).
Proof.
  intros Hm w Hw; apply swp_attempt; eapply swp_mono; [by apply Hm| |]; cbn; [tauto|].
  intros e w' Hs; by split.
Qed.

Hypothesis Hothers : ∀ n sh, I sh → I (others env n sh).

Lemma calls_atomically {A} (f : st Shared ResolveError A) (Q : A → Prop) :
  (∀ sh, I sh → swp f sh (λ a sh', I sh' ∧ Q a) (λ _ sh', I sh')) → calls (atomically env f) Q.
Proof using Hothers. intros Hf; eapply calls_hoare; by apply hoare_atomically. Qed.

Lemma calls_reading {A} (f : Shared → A) (Q : A → Prop) :
  (∀ sh, I sh → Q (f sh)) → calls (reading env f) Q.
Proof using Hothers. intros Hf; eapply calls_hoare; by apply hoare_reading. Qed.

Lemma calls_updating (f : Shared → Shared) :
  (∀ sh, I sh → I (f sh)) → calls (updating env f) (λ _, True).
Proof using Hothers. intros Hf; eapply calls_hoare; by apply hoare_updating. Qed.

(** *** Attempts *)

(** The same, with attempts of the budget counted. *)
Definition trial {A} (m : rst A) (Q : A → Prop) : Prop :=
  ∀ w, I (w_shared w) → 0 ≤ attempts w ≤ DNS_TRANSACTION_ATTEMPTS_MAX →
    swp m w (λ a w', spent I P w w' ∧ Q a) (λ _ w', spent I P w w').

Lemma trial_hoare {A} (m : rst A) Q : hoare I P 0 m Q → trial m Q.
Proof.
  intros Hm w Hw _; eapply swp_mono; [by apply Hm| |].
  - intros a w' [Hs Ha]; split; [by apply step_spent|done].
  - intros e w' Hs; by apply step_spent.
Qed.

Lemma trial_bind {A B} (m : rst A) (f : A → rst B) Q Q' :
  trial m Q → (∀ a, Q a → trial (f a) Q') → trial (m ≫= f) Q'.
Proof.
  intros Hm Hf w Hw Hat; apply swp_bind; eapply swp_mono; [by apply Hm| |done].
  intros a w' [Hs Ha]; pose proof Hs as (HI & _ & Hat' & _).
  eapply swp_mono; [apply Hf; [done|done|lia]| |].
  - intros b w'' [Hs' Hb]; split; [by eapply spent_trans|done].
  - intros e w'' Hs'; exact (spent_trans _ _ _ _ _ Hs Hs').
Qed.

Lemma trial_ret {A} (a : A) (Q : A → Prop) : Q a → trial (mret a) Q.
Proof. intros Ha; apply trial_hoare; by apply hoare_ret. Qed.

Lemma trial_fail {A} (e : ResolveError) (Q : A → Prop) : trial (fail e) Q.
Proof. apply trial_hoare, hoare_fail. Qed.

Lemma trial_attempt {A} (m : rst A) Q :
  trial m Q → trial (attempt m) (λ r, match r with Ok a => Q a | Err _ => True | _ => False end).
Proof.
  intros Hm w Hw Hat; apply swp_attempt; eapply swp_mono; [by apply Hm| |]; cbn; [tauto|].
  intros e w' Hs; by split.
Qed.

Lemma calls_budget {A} (m : rst A) Q : trial m Q → calls (budget_new env ≫= λ _, m) Q.
Proof.
  intros Hm w Hw; apply swp_bind; unfold budget_new, swp, mbind, st_bind, now, next_event, modify; cbn.
  match goal with |- match m ?w1 with _ => _ end => specialize (Hm w1 Hw) end.
  unfold swp, attempts in Hm; cbn in Hm; specialize (Hm ltac:(unfold DNS_TRANSACTION_ATTEMPTS_MAX; lia)).
  destruct (m _) as [[a|e| |] w']; try done; cbn.
  - destruct Hm as [Hs Ha]; split; [|done]; apply spent_kept in Hs; exact Hs.
  - apply spent_kept in Hm; exact Hm.
Qed.
End calls.

(** ** Methods that do not fail *)

(** What returns no error, though it may handle some. *)
Definition replies {A} (m : rst A) : Prop := ∀ w e, (m w).1 ≠ Err e.

Lemma replies_ret {A} (a : A) : replies (mret a).
Proof. done. Qed.
Lemma replies_panic {A} : replies (lift Panic : rst A).
Proof. done. Qed.
Lemma replies_diverge {A} : replies (lift Diverge : rst A).
Proof. done. Qed.
Lemma replies_event {A} (f : nat → A) : replies (next_event f).
Proof. done. Qed.
Lemma replies_reading {A} env (f : Shared → A) : replies (reading env f).
Proof. done. Qed.
Lemma replies_updating env f : replies (updating env f).
Proof. done. Qed.
Lemma replies_attempt {A} (m : rst A) : replies (attempt m).
Proof. intros w e; unfold attempt; destruct (m w) as [[] w']; done. Qed.

Lemma replies_bind {A B} (m : rst A) (k : A → rst B) :
  replies m → (∀ a, replies (k a)) → replies (m ≫= k).
Proof.
  intros Hm Hk w e; specialize (Hm w); unfold mbind, st_bind.
  destruct (m w) as [[a|e'| |] w']; cbn in *; [apply Hk|by specialize (Hm e')|done|done].
Qed.

Create HintDb replies.
#[export] Hint Resolve replies_ret replies_panic replies_diverge replies_event replies_reading
  replies_updating replies_attempt : replies.

Ltac replies := repeat first
  [ solve [eauto 2 with replies]
  | match goal with
    | |- replies (_ ≫= _) => apply replies_bind; [|intros]
    | |- replies (match ?x with _ => _ end) => destruct x
    | |- replies (let '(_, _) := ?x in _) => destruct x
    end ].

Lemma try_replies {A} (m : rst A) : replies (try_io m).
Proof. unfold try_io; replies. Qed.
#[export] Hint Resolve try_replies : replies.
