(* ===== verification/QueryFacts.v ===== *)
(** * Queries: theorems

    The path of a query from the client to its answer: it returns whatever the
    network and other threads do, sends the query only to servers of the scopes
    chosen for its name, keeps the invariant of the shared state, and its
    answer is a local one or comes from a server's response to the same
    question. *)

From S2P Require Import Prelude Stateful Text Net Sorting ConfigTypes Config Codec Names CodecFacts.
From S2P Require Import Packet PacketFacts LocalFacts Records Edns EdnsFacts CacheX CacheXFacts Cache.
From S2P Require Import CacheFacts Provenance Routing RoutingFacts Float Policy Hosts HostsFacts.
From S2P Require Import StaticRecords StaticFacts Networkd Inflight World WorldFacts Servers Links.
From S2P Require Import Exchange ExchangeFacts ResolverInv Query.

(** ** The keys of a scope's servers *)

Lemma foldl_specs_address (f : SocketAddr → list DnsServerSpec) servers output spec :
  (∀ a s, s ∈ f a → address s = a) →
  spec ∈ foldl (λ output a,
    let output' := foldl push_new output (f a) in
    if bool_decide (length output' = length output) then output ++ [plain_spec a] else output')
    output servers →
  spec ∈ output ∨ address spec ∈ servers.
Proof.
  intros Hf; revert output; induction servers as [|a servers IH]; intros output; cbn; [by left|].
  intros [Hin|Hin]%IH; [|right; by right]; revert Hin; case_bool_decide.
  - rewrite elem_of_app, list_elem_of_singleton; intros [?| ->]; [by left|right; by left].
  - rewrite elem_of_foldl_push_new; intros [?|Hs]; [by left|].
    right; apply Hf in Hs as ->; by left.
Qed.

Lemma specs_for_servers_address configured servers spec :
  spec ∈ specs_for_servers configured servers → address spec ∈ servers.
Proof.
  intros H; apply foldl_specs_address in H as [[]%elem_of_nil|?]; [done|].
  intros a s Hs; by apply list_elem_of_filter in Hs as [? _].
Qed.

(** The server [k] is one of [servers], asked for the scope [kind]. *)
Definition server_of (kind : ScopeKind) (servers : list SocketAddr) (k : ServerKey) : Prop :=
  ∃ a slot, k = key_with_slot kind a slot ∧ a ∈ servers.

Lemma server_keys_of kind configured servers k :
  k ∈ server_keys_for_specs kind (specs_for_servers configured servers) →
  server_of kind servers k.
Proof.
  unfold server_keys_for_specs.
  match goal with |- _ ∈ ?f ∅ _ → _ => set (go := f) end.
  assert (∀ specs slots, k ∈ go slots specs → ∃ spec slot,
    spec ∈ specs ∧ k = key_with_slot kind (address spec) slot) as Hgo.
  { induction specs as [|spec specs IH]; intros slots; cbn; [by intros []%elem_of_nil|].
    intros [-> |(s & slot & ? & ?)%IH]%elem_of_cons; [exists spec; eexists; split; [by left|done]|].
    exists s, slot; split; [by right|done]. }
  intros (spec & slot & Hs & ->)%Hgo; exists (address spec), slot; split; [done|].
  by eapply specs_for_servers_address.
Qed.

Section query.
Context (env : Env) (self : Resolver) (fuel : nat).
Context `{io : !IterOrder XKey CacheEntry, !IterOrderOk io}.
Context (R : RoutingTable → Prop).

(** What is relied on: of the operating system, of the clock, of the files, and
    that other threads keep the invariant. *)
Record query_env : Prop := {
  qe_env : env_ok env;
  qe_fuel : (0 < fuel)%nat;
  qe_receiving : receiving_ends env fuel;
  qe_uptime n : env_now env n ≤ UPTIME_MAX;
  qe_files n : files_ok (os_static_files env n);
  qe_others mine n sh : resolver_inv R mine sh → resolver_inv R mine (others env n sh);
}.

Context (HE : query_env).

Abbreviation inv mine := (features_inv (λ _ _, True) (resolver_inv R mine)).

Lemma inv_iff mine sh : inv mine sh ↔ resolver_inv R mine sh.
Proof. unfold features_inv; tauto. Qed.

Lemma inv_others mine n sh : inv mine sh → inv mine (others env n sh).
Proof using HE. rewrite !inv_iff; by apply (qe_others HE). Qed.

Lemma inv_pools mine sh states udp tcp tls :
  resolver_inv R mine sh →
  resolver_inv R mine { sh with sh_states := states; sh_udp_sockets := udp;
    sh_tcp_streams := tcp; sh_tls_streams := tls }.
Proof. intros H; by apply (resolver_inv_frame R mine sh). Qed.

(** ** The servers of a scope *)

Section servers.
Context (mine : option (nat * InflightKey)) (query : bytes) (Hquery : packet_ok query).
Context (Allowed : ServerKey → Prop).

(** The query at some level, to an allowed server. *)
Definition sent_ok (e : sent) : Prop :=
  Allowed (sent_to e) ∧ sendable query false (sent_packet e).

Abbreviation hoare' := (hoare (inv mine) sent_ok).

Lemma metrics_of_spec keys attempted t sh :
  inv mine sh → ∃ l sh', metrics_of keys attempted t sh = (Ok l, sh') ∧
    inv mine sh' ∧ length l = length keys.
Proof.
  unfold metrics_of; intros Hsh.
  assert (∀ acc sh, inv mine sh → ∃ l sh',
    foldl (λ '(r, sh) server, let s := server_state sh server in
      (l ← r; Ok (l ++ [effective_metric (bool_decide (server ∈ attempted)) t s]),
       with_state server s sh)) (Ok acc : rres _, sh) keys = (Ok l, sh') ∧
    inv mine sh' ∧ length l = (length acc + length keys)%nat) as H.
  { clear sh Hsh; induction keys as [|k keys IH]; intros acc sh Hsh; cbn [foldl].
    { exists acc, sh; split_and!; [done..|cbn; lia]. }
    edestruct (IH (acc ++ [effective_metric (bool_decide (k ∈ attempted)) t (server_state sh k)])
      (with_state k (server_state sh k) sh)) as (l & sh' & Hl & Hsh' & Hlen).
    { apply with_state_inv; [intros; by apply inv_pools|done|done]. }
    exists l, sh'; split_and!; [exact Hl|done|]; rewrite Hlen, length_app; cbn; lia. }
  exact (H [] sh Hsh).
Qed.

Lemma select_server_spec keys attempted :
  hoare' 0 (select_server env keys attempted) (λ o, ∀ k, o = Some k → k ∈ keys).
Proof using HE.
  unfold select_server; eapply hoare_after; [apply hoare_now| |lia]; intros t _.
  eapply hoare_after with (Q := λ l, length l = length keys); [|intros l Hl|lia].
  { apply hoare_atomically; [intros; by apply inv_others|]; intros sh Hsh.
    destruct (metrics_of_spec keys attempted t sh Hsh) as (l & sh' & Hm & ? & ?).
    unfold swp; by rewrite Hm. }
  destruct (choose_server l) as [i|] eqn:Hi; [|by apply hoare_ret].
  apply choose_server_bound in Hi; rewrite Hl in Hi.
  destruct (lookup_lt_is_Some_2 keys i Hi) as [k Hk]; rewrite Hk; cbn [or_panic].
  eapply hoare_after with (Q := λ k, k ∈ keys); [|intros k' Hk'; by apply hoare_ret; intros ? [= <-]|lia].
  apply hoare_lift; cbn; by eapply list_elem_of_lookup_2.
Qed.

Lemma exchange_trial server :
  Allowed server →
  trial (inv mine) sent_ok (exchange_with_features env self fuel server query) (accepted query false).
Proof using HE Hquery.
  intros Ha w Hw Hat; destruct HE as [Henv Hfuel Hclock _ _ _].
  apply (exchange_with_features_spec env self fuel (λ _ _, True) sent_ok Henv Hfuel Hclock
    (resolver_inv R mine) (inv_pools mine) (inv_others mine) server query false (λ _, True) (λ _, True) w
    Hquery); [..|done|done].
  - apply server_dnssec_mode_quiet; intros; by apply inv_others.
  - apply server_tls_mode_quiet; intros; by apply inv_others.
  - intros dm tm _ _; split_and!; [done|apply any_features|]; by split.
Qed.

(** *** The rounds *)

Lemma budget_exhausted_quiet : quiet (inv mine) sent_ok budget_exhausted.
Proof.
  intros w Hw; unfold budget_exhausted, swp, mbind, st_bind, get, mret, st_ret; cbn.
  split; [by apply step_ok_refl|done].
Qed.

Lemma budget_expired_quiet : quiet (inv mine) sent_ok (budget_expired env).
Proof.
  unfold budget_expired; eapply hoare_after; [apply hoare_now| |lia]; intros t _ w Hw.
  unfold swp, mbind, st_bind, get, mret, st_ret; cbn; split; [by apply step_ok_refl|done].
Qed.

Lemma budget_over_quiet : quiet (inv mine) sent_ok (budget_over env).
Proof.
  unfold budget_over; apply quiet_bind; [apply budget_exhausted_quiet|]; intros [].
  - by apply hoare_ret.
  - apply budget_expired_quiet.
Qed.

Lemma record_success_quiet server d : quiet (inv mine) sent_ok (record_success env server d).
Proof using HE.
  apply quiet_update_state; [intros; by apply inv_pools|intros; by apply inv_others|done].
Qed.

Lemma record_failure_quiet server d : quiet (inv mine) sent_ok (record_failure env server d).
Proof using HE.
  unfold record_failure; apply quiet_bind; [apply hoare_now|]; intros t.
  apply quiet_update_state; [intros; by apply inv_pools|intros; by apply inv_others|done].
Qed.

Definition rounds_ok (s : rounds) : Prop :=
  ∀ r a, ro_last_response s = Some (r, a) → accepted query false r.

Definition rounds_post (r : rounds + bytes * SocketAddr) : Prop :=
  match r with inl s => rounds_ok s | inr (response, _) => accepted query false response end.

Lemma accepted_packet response : accepted query false response → packet_ok response ∧ len response ≤ 65535.
Proof.
  intros (level & size & out & raw & _ & _ & (Hr & Hl & _) & Hc & _).
  apply (derived_packet raw Hr Hl); eapply derived_client; [constructor|exact Hc].
Qed.

Lemma server_rounds_spec n keys s :
  Forall Allowed keys → rounds_ok s →
  trial (inv mine) sent_ok (server_rounds env self fuel n keys query s) rounds_post.
Proof using HE Hquery.
  intros Hkeys; revert s; induction n as [|n IH]; intros s Hs; cbn [server_rounds].
  { by apply trial_ret. }
  eapply trial_bind; [apply trial_hoare, budget_over_quiet|]; intros [] _; [by apply trial_ret|].
  eapply trial_bind; [apply trial_hoare, select_server_spec|]; intros [key|] Hkey;
    [|by apply trial_ret].
  specialize (Hkey key eq_refl); rewrite Forall_forall in Hkeys; apply Hkeys in Hkey.
  rewrite <- Forall_forall in Hkeys.
  eapply trial_bind; [apply trial_hoare, hoare_now|]; intros started _.
  eapply trial_bind; [by apply trial_attempt, exchange_trial|]; intros [response|e| |] Hr; try done.
  - eapply trial_bind; [apply trial_hoare, hoare_now|]; intros finished _.
    eapply trial_bind; [apply trial_hoare, record_success_quiet|]; intros _ _.
    eapply trial_bind; [apply trial_hoare, hoare_wire, header_parse_safe|]; intros h _.
    case_match; [|by apply trial_ret].
    assert (∀ att, rounds_ok { s with ro_attempted := att;
      ro_last_response := Some (response, sk_server key) }) as Hs'.
    { intros att r a [= <- <-]; done. }
    case_bool_decide; [apply trial_ret; apply Hs'|apply IH; apply Hs'].
  - eapply trial_bind; [apply trial_hoare, hoare_now|]; intros finished _.
    eapply trial_bind; [apply trial_hoare, record_failure_quiet|]; intros _ _.
    eapply trial_bind; [apply trial_hoare, budget_over_quiet|]; intros [] _; [by apply trial_ret|].
    by apply IH.
Qed.

Lemma rounds_result_spec s :
  rounds_ok s → hoare' 0 (rounds_result env s) (λ r, accepted query false r.1).
Proof.
  intros Hs; unfold rounds_result; destruct (ro_last_response s) as [[r a]|] eqn:Hr.
  { apply hoare_ret; by eapply Hs. }
  eapply hoare_after; [apply budget_expired_quiet| |lia]; intros [] _; [apply hoare_fail|].
  eapply hoare_after; [apply budget_exhausted_quiet| |lia]; intros [] _; apply hoare_fail.
Qed.

Lemma server_specs_for_scope_spec kind servers :
  hoare' 0 (server_specs_for_scope env self kind servers)
    (λ specs, ∃ configured, specs = specs_for_servers configured servers).
Proof using HE.
  unfold server_specs_for_scope; eapply hoare_after with (Q := λ _, True);
    [|intros c _; apply hoare_ret; eauto|lia].
  destruct kind; first [by apply hoare_ret|apply link_dns_specs_quiet; intros; by apply inv_others].
Qed.

Lemma query_servers_spec kind servers :
  (∀ k, server_of kind servers k → Allowed k) →
  calls (inv mine) sent_ok (query_servers env self fuel kind servers query)
    (λ r, accepted query false r.1).
Proof using HE Hquery.
  intros Ha; unfold query_servers.
  eapply calls_bind; [eapply calls_hoare, server_specs_for_scope_spec|]; intros specs [configured ->].
  case_bool_decide; [apply calls_fail|].
  set (keys := server_keys_for_specs kind (specs_for_servers configured servers)).
  assert (Forall Allowed keys) as Hkeys.
  { apply Forall_forall; intros k Hk; apply Ha; by eapply server_keys_of. }
  apply calls_budget; eapply trial_bind; [by apply server_rounds_spec|].
  intros [s|[response server]] Hr; [by apply trial_hoare, rounds_result_spec|by apply trial_ret].
Qed.

(** ** The scopes *)

Definition arrivals_ok (a : arrivals) : Prop :=
  ∀ r, ar_success a = Some r ∨ ar_response a = Some r → accepted query false r.1.

Lemma arrive_ok a r :
  arrivals_ok a → match r with Ok a => accepted query false a.1 | _ => True end →
  arrivals_ok (arrive a r).
Proof.
  intros Ha Hr; destruct r as [[response server]|e| |]; cbn [arrive]; try done.
  destruct (response_is_success response); [destruct (ar_success a) eqn:Hs; [done|]|].
  - intros r [[= <-]|Hx]; [done|]; apply Ha; by right.
  - intros r [Hx|[= <-]]; [|done]; apply Ha; by left.
Qed.

Definition scopes_allowed (scopes : list RouteScope) : Prop :=
  ∀ s k, s ∈ scopes → server_of (sc_kind s) (sc_servers s) k → Allowed k.

Lemma run_scopes_spec scopes a :
  scopes_allowed scopes → arrivals_ok a →
  calls (inv mine) sent_ok (run_scopes env self fuel scopes query a) arrivals_ok.
Proof using HE Hquery.
  revert a; induction scopes as [|s scopes IH]; intros a Hs Ha; cbn [run_scopes]; [by apply calls_ret|].
  eapply calls_bind.
  { apply calls_attempt, query_servers_spec; intros k; apply Hs; by left. }
  assert (scopes_allowed scopes) by (intros s' k Hs'; apply Hs; by right).
  intros [x|e| |] Hx; try done; (apply IH; [done|by apply arrive_ok]).
Qed.

Lemma query_scopes_spec scopes :
  scopes_allowed scopes →
  calls (inv mine) sent_ok (query_scopes env self fuel scopes query) (λ r, accepted query false r.1).
Proof using HE Hquery.
  intros Hs; unfold query_scopes.
  assert (calls (inv mine) sent_ok
    (order ← next_event (λ n, arrival env n (length scopes));
     a ← run_scopes env self fuel (omap (λ i, scopes !! i) order) query (mk_arrivals None None None);
     match ar_success a, ar_response a with
     | Some r, _ | None, Some r => mret r
     | None, None => fail (default RNoNameServers (ar_error a))
     end) (λ r, accepted query false r.1)) as Hmany.
  { eapply calls_bind; [eapply calls_hoare, hoare_next_event|]; intros order _.
    eapply calls_bind.
    - apply run_scopes_spec; [|by intros ? [|]].
      intros s k (i & _ & Hi)%list_elem_of_omap; apply Hs; by eapply list_elem_of_lookup_2.
    - intros a Ha; destruct (ar_success a) eqn:H1; [by apply calls_ret, Ha; left|].
      destruct (ar_response a) eqn:H2; [by apply calls_ret, Ha; right|apply calls_fail]. }
  destruct scopes as [|s [|s' scopes]]; [exact Hmany| |exact Hmany].
  apply query_servers_spec; intros k; apply Hs; by left.
Qed.
End servers.

Lemma relevant_quiet mine P s : quiet (inv mine) P (relevant_scope env s).
Proof using HE.
  unfold relevant_scope; case_match; first [by apply hoare_ret
    |apply hoare_reading; [intros; by apply inv_others|done]].
Qed.

Lemma filter_scopes_spec mine P scopes :
  hoare (inv mine) P 0 (filter_scopes env scopes) (λ l, ∀ s, s ∈ l → s ∈ scopes).
Proof using HE.
  induction scopes as [|s scopes IH]; cbn [filter_scopes]; [by apply hoare_ret|].
  eapply hoare_after; [apply relevant_quiet| |lia]; intros keep _.
  eapply hoare_after; [exact IH| |lia]; intros rest Hrest; apply hoare_ret.
  intros x; destruct keep; rewrite ?elem_of_cons; [intros [-> |?]; [by left|right]|right]; by apply Hrest.
Qed.

Lemma select_safe t name ifindex gs fs gd : safe (select t name ifindex gs fs gd).
Proof.
  unfold select, validate_ifindex; destruct (nonzero ifindex) as [i|].
  - destruct (i <=? 0); [done|]; cbn [mbind outcome_bind]; by destruct (rt_links t !! i).
  - apply wp_bind; eapply wp_mono with (Q := λ _, True); [|intros n _; by destruct (max_of _)].
    unfold normalize_name; by repeat case_match.
Qed.

Lemma count_calls mine P f : calls (inv mine) P (count env f) (λ _, True).
Proof using HE.
  apply calls_updating; [intros; by apply inv_others|]; intros sh; rewrite !inv_iff; intros Hsh.
  by eapply resolver_inv_frame.
Qed.

(** ** One query *)

(** A follower whose leader failed asks again; it does so [n] times. *)
Inductive follows_failed (ikey : InflightKey) : nat → World → World → Prop :=
  | follows_none w : follows_failed ikey 0 w w
  | follows_once n e w w1 w2 w' :
      inflight_begin env ikey w = (Ok (Follower e), w1) →
      inflight_wait env e w1 = (Ok None, w2) →
      follows_failed ikey n w2 w' → follows_failed ikey (S n) w w'.

(** What is relied on of the threads this one waits for: they keep the
    invariant, they finish, and not [fuel] of them in a row fail. *)
Record waits_ok : Prop := {
  wo_blocked mine n e sh :
    resolver_inv R mine sh → resolver_inv R mine (while_blocked env n e sh);
  wo_finish n e key sh :
    resolver_inv R (Some (e, key)) sh →
    wait_ready e (sh_inflight (while_blocked env n e sh)) ≠ None;
  wo_patient ikey w w' : ¬ follows_failed ikey fuel w w';
}.

Context (HW : waits_ok).

Section one.
Context (query : bytes) (header : Header) (q : Question).
Context (Hquery : packet_ok query) (Hh : header_parse query = Ok header).
Context (Hq : first_question query = Ok q).

(** What is asked of the answer, wherever it comes from. *)
Context (Good : bytes → Prop).

Record good_answers : Prop := {
  ga_accepted r : accepted query false r → Good r;
  ga_cached r : from_server (question_key q) r → read_u16 r 0 = Ok (h_id header) → Good r;
  ga_followed ikey r r' :
    rewrite_id query 0 = Ok (ik_query ikey) → shared_answer ikey r →
    rewrite_id r (h_id header) = Ok r' → Good r';
  ga_local records r : Forall local_ok records → local_response query records 0 = Ok r → Good r;
  ga_static rrset r : Forall static_ok rrset → build_response query q rrset = Ok r → Good r;
  ga_refused r : refused_for query = Ok r → Good r;
}.

Context (HG : good_answers).

(** The servers of the scopes chosen for the name. *)
Definition chosen (ifindex : option Z) (k : ServerKey) : Prop :=
  ∃ t scopes s, R t ∧
    select t (name_text (q_name q)) ifindex (rs_global_servers self) (rs_fallback_servers self)
      (domains (rs_config self)) = Ok scopes ∧
    s ∈ scopes ∧ server_of (sc_kind s) (sc_servers s) k.

Abbreviation sends ifindex := (sent_ok query (chosen ifindex)).
Abbreviation id := (h_id header).

Lemma header_id_u16 : is_u16 id.
Proof using Hquery Hh.
  apply header_parse_iff in Hh as (_ & Hid & _); by eapply read_u16_range; [apply Hquery|].
Qed.

Lemma cache_get_spec mine P key allow :
  to_xkey key = question_key q →
  calls (inv mine) P (cache_get env key id allow)
    (λ o, ∀ r, o = Some r → from_server (question_key q) r ∧ read_u16 r 0 = Ok id).
Proof using All.
  intros Hk; unfold cache_get; eapply calls_bind; [eapply calls_hoare, hoare_now|]; intros t _.
  apply calls_atomically; [intros; by apply inv_others|]; intros sh; rewrite inv_iff; intros Hsh.
  destruct (cache_ok_get (sh_cache sh) key id allow t (ri_cache _ _ _ Hsh)) as (o & c & Hg & Hc & Ho).
  { rewrite Hk; by eapply question_key_ok. }
  { apply header_id_u16. }
  unfold swp; rewrite Hg, inv_iff; split; [by destruct Hsh|]; by rewrite <- Hk.
Qed.

Lemma cache_insert_response_spec mine P key response :
  to_xkey key = question_key q → from_server (question_key q) response →
  calls (inv mine) P (cache_insert_response env key response) (λ _, True).
Proof using All.
  intros Hk Hr; unfold cache_insert_response.
  eapply calls_bind; [eapply calls_hoare, hoare_clock|]; intros t [n Hn].
  apply calls_atomically; [intros; by apply inv_others|]; intros sh; rewrite inv_iff; intros Hsh.
  destruct (cache_ok_insert (sh_cache sh) key response t (ri_cache _ _ _ Hsh))
    as [(b & c & Hi & Hc)|[e Hi]].
  { rewrite <- Hn; by apply (qe_uptime HE). }
  { rewrite Hk; by eapply question_key_ok. }
  { by rewrite Hk. }
  - unfold swp; rewrite Hi, inv_iff; split; [by destruct Hsh|done].
  - unfold swp; rewrite Hi, inv_iff; by split.
Qed.

(** *** The transaction *)

Lemma lead_spec mine ifindex key scopes :
  to_xkey key = question_key q → scopes_allowed (chosen ifindex) scopes →
  calls (inv mine) (sends ifindex) (lead env self fuel key id scopes query)
    (λ r, match r with
          | Ok response => Good response ∧ from_server (question_key q) response
          | Err _ => True
          | _ => False
          end).
Proof using All.
  intros Hk Hs; unfold lead; eapply calls_bind; [by apply calls_attempt, query_scopes_spec|].
  intros [[response server]|e| |] Hr; try done; cbn in Hr.
  - pose proof (accepted_from_server query q response Hquery Hq Hr) as Hfs.
    eapply calls_bind with (Q := λ _, True); [|intros _ _; apply calls_ret; split; [by apply HG|done]].
    case_match; [by apply cache_insert_response_spec|by apply calls_ret].
  - eapply calls_bind with (Q := λ o, ∀ r, o = Some r →
      from_server (question_key q) r ∧ read_u16 r 0 = Ok id).
    { case_match; [by apply cache_get_spec|by apply calls_ret]. }
    intros [response|] Ho.
    + destruct (Ho response eq_refl) as [Hfs Hi].
      eapply calls_bind; [apply count_calls|]; intros _ _.
      eapply calls_bind with (Q := λ _, True); [|intros _ _; apply calls_ret; split; [by apply (ga_cached HG)|done]].
      case_match; [eapply calls_bind; [apply count_calls|]; intros _ _|]; apply count_calls.
    + eapply calls_bind with (Q := λ _, True); [case_match; [apply count_calls|by apply calls_ret]|].
      intros _ _; eapply calls_bind; [apply count_calls|]; intros _ _; by apply calls_ret.
Qed.

Lemma inflight_begin_spec ikey w :
  inv None (w_shared w) →
  swp (inflight_begin env ikey) w
    (λ role w', inv (Some (role_entry role, ikey)) (w_shared w') ∧ w_sent w' = w_sent w)
    (λ _ _, False).
Proof using HE.
  intros Hw; apply (inv_others None (w_events w)) in Hw; unfold swp, inflight_begin, atomically.
  destruct (begin ikey _) as [role f] eqn:Hb; split; [|done].
  rewrite inv_iff in *; destruct Hw as [? ? ? Hi ?]; split; try done.
  by eapply inflight_ok_begin.
Qed.

Lemma inflight_finish_spec P ikey entry response :
  (∀ r, response = Some r → shared_answer ikey r) →
  calls (inv (Some (entry, ikey))) P (inflight_finish env ikey entry response) (λ _, True).
Proof using HE.
  intros Hr; unfold inflight_finish; eapply calls_bind.
  - apply calls_updating; [intros; by apply inv_others|]; intros sh; rewrite !inv_iff.
    intros []; split; try done; by apply inflight_ok_finish_state.
  - intros _ _; apply calls_updating; [intros; by apply inv_others|]; intros sh; rewrite !inv_iff.
    intros []; split; try done; by apply inflight_ok_finish_table.
Qed.

Lemma inflight_wait_spec P ikey entry :
  calls (inv (Some (entry, ikey))) P (inflight_wait env entry)
    (λ o, ∀ r, o = Some r → shared_answer ikey r).
Proof using HW.
  intros w Hw; rewrite inv_iff in Hw; unfold swp, inflight_wait.
  pose proof (wo_finish HW (w_events w) entry ikey _ Hw) as Hfin.
  apply (wo_blocked HW _ (w_events w) entry) in Hw.
  destruct (wait_ready entry _) as [o|] eqn:Hready; [|done]; split.
  { split; [by apply inv_iff|]; exists []; by rewrite app_nil_r. }
  intros r ->; destruct Hw as [_ _ _ [owner [_ Hresp _ Hm]] _].
  destruct (Hm entry ikey eq_refl) as [Ho _]; unfold wait_ready in Hready.
  destruct (if_heap _ !! entry) as [s|] eqn:Hs; [|done].
  destruct (is_running s); [done|]; injection Hready as Hready.
  destruct (Hresp _ _ _ Hs Hready) as (key & Ho' & Hsh); by rewrite Ho in Ho'; injection Ho' as <-.
Qed.

(** Run under the invariant of one's own entry. *)
Lemma calls_mine {A} P mine (m : rst A) Q w w0 :
  calls (inv mine) P m Q → inv mine (w_shared w) → w_sent w = w_sent w0 →
  swp m w (λ a w', kept (inv None) P w0 w' ∧ Q a) (λ _ w', kept (inv None) P w0 w').
Proof.
  intros Hm Hw Hs; assert (∀ w', kept (inv mine) P w w' → kept (inv None) P w0 w') as Hk.
  { intros w' (HI & l & Hl & Hp); split; [|exists l; by rewrite <- Hs].
    rewrite inv_iff in *; by eapply resolver_inv_None. }
  eapply swp_mono; [by apply Hm|naive_solver|naive_solver].
Qed.

Lemma led_answer ikey result :
  rewrite_id query 0 = Ok (ik_query ikey) →
  match result with
  | Ok response => Good response ∧ from_server (question_key q) response
  | Err _ => True
  | _ => False
  end →
  ∀ r, (response ← to_option (result : rres bytes); normalize_shared_response response) = Some r →
  shared_answer ikey r.
Proof using Hquery Hq.
  intros Hik Hr r; destruct result as [response| | |]; try done; cbn; intros Hn.
  destruct Hr as [_ Hfs]; unfold normalize_shared_response in Hn.
  destruct (rewrite_id response 0) as [r'| | |] eqn:Hrw; try done; injection Hn as ->.
  exists query, q; split_and!; [done..|]; by eapply from_server_id.
Qed.

Lemma transaction_spec n ifindex ikey key scopes w :
  to_xkey key = question_key q → rewrite_id query 0 = Ok (ik_query ikey) →
  scopes_allowed (chosen ifindex) scopes → inv None (w_shared w) →
  (∀ w', ¬ follows_failed ikey n w w') →
  swp (transaction env self fuel n ikey key id scopes query) w
    (λ r w', kept (inv None) (sends ifindex) w w' ∧ Good r)
    (λ _ w', kept (inv None) (sends ifindex) w w').
Proof using All.
  intros Hk Hik Hs; revert w; induction n as [|n IH]; intros w Hw Hp.
  { destruct (Hp w); constructor. }
  cbn [transaction]; apply swp_bind; pose proof (inflight_begin_spec ikey w Hw) as Hb.
  unfold swp in Hb |- * at 1; destruct (inflight_begin env ikey w) as [[role| | |] w1] eqn:Hbegin;
    try done; destruct Hb as [Hw1 Hsent]; destruct role as [entry|entry]; cbn [role_entry] in Hw1.
  - eapply (calls_mine _ (Some (entry, ikey))); [|exact Hw1|exact Hsent].
    eapply calls_bind; [by apply lead_spec|]; intros result Hr.
    eapply calls_bind; [by apply inflight_finish_spec, led_answer|]; intros _ _.
    apply calls_lift; destruct result; naive_solver.
  - apply swp_bind; pose proof (inflight_wait_spec (sends ifindex) ikey entry w1 Hw1) as Hwt.
    unfold swp in Hwt |- * at 1; destruct (inflight_wait env entry w1) as [[o| | |] w2] eqn:Hwait;
      try done; [destruct Hwt as [Hk2 Ho]|].
    2:{ destruct Hwt as (HI & l & Hl & HP); split; [|exists l; by rewrite <- Hsent].
        rewrite inv_iff in *; by eapply resolver_inv_None. }
    assert (kept (inv None) (sends ifindex) w w2) as Hkept.
    { destruct Hk2 as (HI & l & Hl & HP); split; [|exists l; by rewrite <- Hsent].
      rewrite inv_iff in *; by eapply resolver_inv_None. }
    destruct o as [response|].
    + specialize (Ho response eq_refl); unfold wire.
      pose proof (write_u16_safe response 0 id) as Hsafe; fold (rewrite_id response id) in Hsafe.
      apply swp_lift; [|done].
      destruct (rewrite_id response id) as [r| | |] eqn:Hrw; try done; cbn; split; [done|].
      by eapply (ga_followed HG).
    + eapply swp_mono; [apply IH; [apply Hkept|]| |].
      * intros w' Hf; apply (Hp w'); by econstructor.
      * intros r w3 [Hk3 Hr]; split; [by eapply kept_trans|done].
      * intros e w3 Hk3; exact (kept_trans _ _ _ _ _ Hkept Hk3).
Qed.

Lemma ask_scopes_spec ifindex route key :
  to_xkey key = question_key q →
  calls (inv None) (sends ifindex) (ask_scopes env self fuel query header q ifindex route key) Good.
Proof using All.
  intros Hk; unfold ask_scopes; eapply calls_bind with (Q := λ r, ∃ t, R t ∧
    r = select t (name_text (q_name q)) ifindex (rs_global_servers self)
          (rs_fallback_servers self) (domains (rs_config self))).
  { apply calls_reading; [intros; by apply inv_others|]; intros sh; rewrite inv_iff.
    intros Hsh; exists (sh_routing sh); split; [apply Hsh|done]. }
  intros r (t & Ht & ->); eapply calls_bind with (Q := λ l,
    select t (name_text (q_name q)) ifindex (rs_global_servers self)
          (rs_fallback_servers self) (domains (rs_config self)) = Ok l).
  { apply calls_lift; pose proof (select_safe t (name_text (q_name q)) ifindex
      (rs_global_servers self) (rs_fallback_servers self) (domains (rs_config self))).
    by destruct (select _ _ _ _ _ _). }
  intros selected Hsel; eapply calls_bind; [eapply calls_hoare, filter_scopes_spec|].
  intros scopes Hsub; case_bool_decide.
  { eapply calls_bind; [apply count_calls|]; intros _ _; apply calls_fail. }
  eapply calls_bind with (Q := λ ikey, rewrite_id query 0 = Ok (ik_query ikey)).
  { apply calls_wire; unfold inflight_key; apply wp_bind.
    eapply wp_mono; [apply wp_strengthen, write_u16_safe|]; intros p [Hp _]; exact Hp. }
  intros ikey Hik w Hw; apply transaction_spec; try done.
  - intros s k Hs Hsk; exists t, selected, s; auto.
  - intros w'; apply (wo_patient HW).
Qed.

(** *** Local answers *)

Lemma static_answer_good fs fs' now s :
  files_ok fs' → database_ok (sr_records s) →
  let '(r, s') := static_answer fs fs' now query s in
  database_ok (sr_records s') ∧ wp r (λ o, ∀ r, o = Some r → Good r).
Proof using Hquery Hq HG.
  intros Hfs Hdb; unfold static_answer; destruct (negb _); [by split|].
  pose proof (refresh_if_due_ok fs fs' now s Hfs Hdb) as Hdb'; split; [done|].
  rewrite Hq; cbn [mbind outcome_bind]; destruct (sr_records _ !! _) as [rrset|] eqn:Hrr; [|done].
  pose proof (map_Forall_lookup_1 _ _ _ _ Hdb' Hrr) as Hrs; cbn in Hrs.
  apply wp_bind; eapply wp_mono; [by apply wp_strengthen, build_response_wp|].
  intros p [Hp _] r [= <-]; by eapply (ga_static HG).
Qed.

Lemma static_records_answer_spec mine P enabled :
  calls (inv mine) P (static_records_answer env enabled query) (λ o, ∀ r, o = Some r → Good r).
Proof using All.
  unfold static_records_answer; destruct (negb enabled); [by apply calls_ret|].
  eapply calls_bind; [eapply calls_hoare, hoare_now|]; intros t _.
  eapply calls_bind; [eapply calls_hoare, hoare_next_event|]; intros fs _.
  eapply calls_bind; [eapply calls_hoare, hoare_next_event|]; intros fs' [n <-].
  eapply calls_bind with (Q := λ r, wp r (λ o, ∀ r, o = Some r → Good r));
    [|intros r Hr; by apply calls_wire].
  apply calls_atomically; [intros; by apply inv_others|]; intros sh; rewrite inv_iff; intros Hsh.
  pose proof (static_answer_good fs (os_static_files env n) t (sh_static sh)) as Hst.
  specialize (Hst (qe_files HE n) (ri_static _ _ _ Hsh)); unfold swp.
  destruct (static_answer _ _ t query (sh_static sh)) as [r s]; destruct Hst as [Hdb Hr].
  rewrite inv_iff; split; [by destruct Hsh|done].
Qed.

Lemma local_answers_spec mine P :
  calls (inv mine) P (local_answers env self query q) (λ o, ∀ r, o = Some r → Good r).
Proof using All.
  unfold local_answers; eapply calls_bind; [apply static_records_answer_spec|].
  intros [response|] Ho.
  { eapply calls_bind; [apply count_calls|]; intros _ _; by apply calls_ret. }
  eapply calls_bind with (Q := λ o, ∀ records, o = Some records → Forall local_ok records).
  { apply calls_reading; [intros; by apply inv_others|]; intros sh; rewrite inv_iff.
    intros Hsh records Hr; eapply hosts_lookup_ok; [apply Hsh|done]. }
  intros [records|] Hrec; [|by apply calls_ret]; specialize (Hrec records eq_refl).
  eapply calls_bind; [apply count_calls|]; intros _ _.
  eapply calls_bind with (Q := Good); [|intros r Hr; apply calls_ret; by intros ? [= <-]].
  apply calls_wire; eapply wp_mono; [by apply wp_strengthen, local_response_wp|].
  intros r [Hr _]; by eapply (ga_local HG).
Qed.

(** *** The whole query *)

Lemma active_query_spec mode ifindex :
  calls (inv None) (sends ifindex) (active_query env self fuel query mode header q ifindex) Good.
Proof using All.
  unfold active_query; eapply calls_bind with (Q := λ o, ∀ r, o = Some r → Good r).
  { destruct mode; [apply local_answers_spec|by apply calls_ret]. }
  intros [response|] Ho; [by apply calls_ret, Ho|].
  eapply calls_bind with (Q := λ _, True); [by apply calls_reading; [intros; by apply inv_others|]|].
  intros generation _; cbn zeta; set (key := mk_key _ _ _ _ _).
  eapply calls_bind with (Q := λ o, ∀ r, o = Some r →
    from_server (question_key q) r ∧ read_u16 r 0 = Ok id).
  { case_match; [by apply cache_get_spec|by apply calls_ret]. }
  intros [response|] Hhit.
  - destruct (Hhit response eq_refl) as [Hfs Hi].
    eapply calls_bind; [apply count_calls|]; intros _ _; by apply calls_ret, (ga_cached HG).
  - eapply calls_bind with (Q := λ _, True); [case_match; [apply count_calls|by apply calls_ret]|].
    intros _ _; by apply ask_scopes_spec.
Qed.
End one.

(** A packet of the query to a server chosen for its name. *)
Definition sent_for_query (query : bytes) (ifindex : option Z) (e : sent) : Prop :=
  ∃ q, first_question query = Ok q ∧ sent_ok query (chosen q ifindex) e.

Lemma calls_sent {A} I (P P' : sent → Prop) (m : rst A) Q :
  (∀ e, P e → P' e) → calls I P m Q → calls I P' m Q.
Proof.
  intros HP Hm w Hw; assert (∀ w', kept I P w w' → kept I P' w w') as Hk.
  { intros w' (HI & l & Hl & Hp); split; [done|]; exists l; split; [done|].
    by eapply Forall_impl. }
  eapply swp_mono; [by apply Hm|naive_solver|naive_solver].
Qed.

Lemma query_on_link_spec query mode ifindex Good :
  packet_ok query →
  (∀ header q, header_parse query = Ok header → first_question query = Ok q →
     good_answers query header q Good) →
  calls (inv None) (sent_for_query query ifindex)
    (query_on_link env self fuel query mode ifindex) Good.
Proof using All.
  intros Hquery HG; unfold query_on_link.
  eapply calls_bind; [by apply calls_wire, validate_safe|]; intros _ _.
  eapply calls_bind; [apply calls_wire, wp_strengthen, header_parse_safe|]; intros header [Hh _].
  eapply calls_bind; [by apply calls_wire, wp_strengthen, first_question_safe|]; intros q [Hq _].
  specialize (HG header q Hh Hq); case_match; [apply calls_fail|].
  case_bool_decide.
  { apply calls_wire; eapply wp_mono; [by apply wp_strengthen, error_response_wp|].
    intros r [Hr _]; by eapply (ga_refused _ _ _ _ HG). }
  eapply calls_bind; [apply count_calls|]; intros _ _.
  eapply calls_bind; [apply count_calls|]; intros _ _.
  eapply calls_bind.
  { apply calls_attempt; eapply (calls_sent _ (sent_ok query (chosen q ifindex))).
    - intros e He; by exists q.
    - by eapply active_query_spec. }
  intros r Hr; eapply calls_bind; [apply count_calls|]; intros _ _.
  apply calls_lift; by destruct r.
Qed.
End query.

(** ** Any packet *)

Lemma any_answers query header q : good_answers query header q (λ _, True).
Proof. by split. Qed.

(** ** Queries of clients *)

(** The answer to a client: one that matches its query, or one that comes from
    the response of a server to the same question, with the client's
    identifier. *)
Definition client_answer (query : bytes) (h : Header) (labels : list bytes) (t c : Z)
    (response : bytes) : Prop :=
  response_matches query response = Ok () ∨
  from_server (mk_xkey (canonical_of_labels labels) t c) response ∧
  read_u16 response 0 = Ok (h_id h).

Section client.
Context (query : bytes) (h : Header) (labels : list bytes) (t c : Z) (o : option OptRecord).
Context (Hc : client_query query h labels t c o) (Hlen : len query ≤ 65000).

Lemma client_answerable : ∃ stop, answerable query h labels t c stop.
Proof using Hc. destruct Hc as (pre & tail & _ & Ha & _); eauto. Qed.

Lemma client_asked : ∃ stop, asked labels t c stop query.
Proof using Hc.
  destruct client_answerable as [stop Ha]; exists stop; split; [apply Ha|]; exists h.
  pose proof (answerable_header _ _ _ _ _ _ Ha) as (_ & _ & _ & ?); split; [apply Ha|done].
Qed.

Lemma asked_key p stop q :
  packet_ok p → asked labels t c stop p → first_question p = Ok q →
  question_key q = mk_xkey (canonical_of_labels labels) t c.
Proof.
  intros Hp [Hpl (h' & Hh' & Hqc)] Hq.
  destruct (first_question_plain _ _ _ _ _ _ Hp Hh' Hqc Hpl) as [Hfq _].
  by rewrite Hq in Hfq; apply Ok_inj in Hfq as ->.
Qed.

Lemma accepted_id response : accepted query false response → read_u16 response 0 = Ok (h_id h).
Proof using Hc Hlen.
  intros (level & size & out & raw & Hs & Hout & (Hp & Hl & Hm) & Hr & _).
  destruct (prepare_query_spec query h labels t c o level size Hc Hs Hlen)
    as (pq & stop & Hpq & _ & _ & _ & _ & _ & Hh & _).
  rewrite Hout in Hpq; apply Ok_inj in Hpq as <-.
  destruct (response_matches_inv _ _ Hm) as (h1 & h2 & ? & ? & Hh1 & Hh2 & Hid & _).
  rewrite Hh in Hh1; apply Ok_inj in Hh1 as <-; cbn in Hid; rewrite Hid.
  destruct (response_for_client_cases query raw response Hp Hl Hr)
    as [->|(h3 & ? & ? & ? & Hh3 & _ & _ & _ & _ & Hh4 & _)].
  - by apply header_parse_iff in Hh2 as (_ & ? & _).
  - rewrite Hh2 in Hh3; apply Ok_inj in Hh3 as <-; by apply header_parse_iff in Hh4 as (_ & ? & _).
Qed.

(** A query that differs in its identifier only asks the same. *)
Lemma asked_same p query' stop :
  packet_ok query' → rewrite_id query 0 = Ok p → rewrite_id query' 0 = Ok p →
  asked labels t c stop query → asked labels t c stop query'.
Proof using Hc.
  intros Hp' Hr Hr' Ha; pose proof (client_query_packet _ _ _ _ _ _ Hc) as Hp.
  assert (is_u16 0) as H0 by done.
  destruct (rewrite_id_shape query 0 p Hp H0 Hr) as (_ & Hl & _ & Hag).
  destruct (rewrite_id_shape query' 0 p Hp' H0 Hr') as (_ & Hl' & _ & Hag').
  pose proof Ha as [Hpl (h1 & Hh1 & _)].
  apply plain_question_parse in Hpl as [_ Hb]; [|done].
  destruct (header_parse_total query' Hp') as [h' Hh']; [lia|].
  eapply (asked_agree query); [done|done|exact Hh1|exact Hh'| |lia| |done].
  - symmetry; apply (header_agree query query' h1 h'); [split; [lia|]|done|done].
    intros i Hi; by rewrite <- Hag, Hag'.
  - intros i Hi; by rewrite <- Hag', Hag by lia.
Qed.

Lemma client_answers header q :
  header_parse query = Ok header → first_question query = Ok q →
  good_answers query header q (client_answer query h labels t c).
Proof using Hc Hlen.
  intros Hh Hq; pose proof (client_query_packet _ _ _ _ _ _ Hc) as Hp.
  destruct client_answerable as [stop Ha], client_asked as [stop' Hasked].
  pose proof (an_header _ _ _ _ _ _ Ha) as Hh'; rewrite Hh in Hh'; apply Ok_inj in Hh' as ->.
  pose proof (asked_key query stop' q Hp Hasked Hq) as Hkey.
  assert (is_u16 (h_id h)) as Hid by (by apply (header_id_u16 query h)).
  split.
  - intros r Hr; right; rewrite <- Hkey; split; [by apply (accepted_from_server query)|by apply accepted_id].
  - intros r Hr Hi; right; by rewrite <- Hkey.
  - intros ikey r r' Hik (query' & q' & Hp' & Hik' & Hq' & Hfs) Hr; right.
    pose proof (asked_same _ query' stop' Hp' Hik Hik' Hasked) as Hasked'.
    rewrite (asked_key query' stop' q' Hp' Hasked' Hq') in Hfs.
    split; [by eapply from_server_id|].
    by apply (rewrite_id_shape r (h_id h) r' (proj1 (from_server_packet _ _ Hfs)) Hid Hr).
  - intros records r Hrec Hr; left.
    destruct (local_response_inv query h labels t c stop records 0 r Ha) as (Hn & xs & He & Hsize);
      [done|done|].
    destruct (local_response_spec query h labels t c stop records 0 xs Ha) as (r' & Hr' & Hans);
      [done..|].
    rewrite Hr in Hr'; apply Ok_inj in Hr' as <-; apply Hans.
  - intros rrset r Hrs Hr; left; pose proof (build_response_spec query h labels t c stop rrset Ha Hrs) as Hb.
    destruct (first_question_plain _ _ _ _ _ _ Hp Hh (proj2 (proj2 (proj2
      (answerable_header _ _ _ _ _ _ Ha)))) (an_question _ _ _ _ _ _ Ha)) as [Hfq _].
    rewrite Hq in Hfq; apply Ok_inj in Hfq as ->; cbn zeta in Hb; case_decide; [|congruence].
    destruct Hb as (r' & Hr' & Hans); rewrite Hr in Hr'; apply Ok_inj in Hr' as <-; apply Hans.
  - intros r Hr; left.
    destruct (error_response_matches query h labels t c stop 5 Ha) as (r' & ? & Hr' & Hm & _); [lia|].
    unfold refused_for in Hr; rewrite Hr in Hr'; by apply Ok_inj in Hr' as <-.
Qed.
End client.

(** ** Names of one link *)

(** Every scope whose domains match the name at least as well as the domains of
    link [i] is that link. *)
Definition private_to (self : Resolver) (n : str) (i : Z) (t : RoutingTable) : Prop :=
  table_wf t ∧ ∃ l k, rt_links t !! i = Some l ∧ usable l = true ∧ match_length n (l_domains l) k ∧
    ∀ s ds k', eligible t (rs_global_servers self) (domains (rs_config self)) s ds →
      match_length n ds k' → k ≤ k' → sc_kind s = ScopeLink i.

(** A server of link [i] in a table that satisfies [R]. *)
Definition link_server (R : RoutingTable → Prop) (i : Z) (k : ServerKey) : Prop :=
  sk_scope k = i ∧ ∃ t l, R t ∧ rt_links t !! i = Some l ∧ sk_server k ∈ l_dns_servers l.

Lemma private_chosen self n i q k :
  domains_ok (domains (rs_config self)) → normalize_name (name_text (q_name q)) = Ok n →
  chosen self (private_to self n i) q None k → link_server (private_to self n i) i k.
Proof.
  intros Hgd Hn (t & scopes & s & HR & Hsel & Hs & a & slot & -> & Ha).
  pose proof HR as [Hwf (l & j & Hl & Hu & Hj & Hbest)]; apply usable_iff in Hu as [Hd Hr].
  destruct (select_spec t (name_text (q_name q)) n (rs_global_servers self)
    (rs_fallback_servers self) (domains (rs_config self)) Hwf Hgd Hn) as (scopes' & Hsel' & Hin).
  rewrite Hsel in Hsel'; apply Ok_inj in Hsel' as <-; apply Hin in Hs.
  pose proof (eligible_link t (rs_global_servers self) (domains (rs_config self)) i l Hl Hd Hr) as He.
  destruct Hs as [(ds & k' & He' & Hk' & Hmax)|[Hno _]]; [|by destruct (Hno _ _ _ He Hj)].
  pose proof (Hbest _ _ _ He' Hk' (Hmax _ _ _ He Hj)) as Hkind.
  destruct He' as [?|i' l' Hl' ? ?]; [done|]; cbn in Hkind, Ha; injection Hkind as ->.
  split; [done|]; exists t, l'; by split_and!.
Qed.

(** ** An environment in which queries run *)

Definition finite_world (t : RoutingTable) : World :=
  { example_world with w_shared := { example_shared with sh_routing := t } }.

Lemma example_inv (R : RoutingTable → Prop) t : R t → resolver_inv R None (w_shared (finite_world t)).
Proof.
  intros Ht; split; cbn; [|apply hosts_default_ok|apply map_Forall_empty|apply inflight_ok_default|done|by unfold is_u16; cbn].
  destruct (cache_ok_new (io := map_order) 16 60 0 true ltac:(lia) ltac:(done)) as (c & Hc & Hok).
  assert (new_dns_cache 16 60 0 true = Ok (sh_cache example_shared)) as Heq by (by vm_compute).
  rewrite Hc in Heq; by injection Heq as ->.
Qed.

Lemma example_uptime others reply n : env_now (example_env others reply) n ≤ UPTIME_MAX.
Proof. unfold example_env, UPTIME_MAX, second; cbn [env_now]; lia. Qed.

Lemma example_query_env R flags :
  0 ≤ flags < 256 → query_env (example_env (λ _, id) (example_reply flags)) 200 R.
Proof.
  intros Hf; split; [by apply example_env_ok|lia|apply example_receiving|apply example_uptime| |done].
  intros n p text; by cbn.
Qed.

Lemma example_waits R reply : waits_ok (example_env (λ _, id) reply) 200 R.
Proof.
  split.
  - intros mine n e sh [? ? ? [owner [He Hr Hn Hm]] ? ?]; split; try done; cbn; exists owner; split; cbn.
    + intros key e' [Hk Hne]%map_lookup_filter_Some; cbn in Hne.
      rewrite lookup_insert_ne by done; by apply He.
    + intros e' s r; destruct (decide (e' = e)) as [->|].
      * rewrite lookup_insert_eq; by intros [= <-].
      * rewrite lookup_insert_ne by done; apply Hr.
    + done.
    + intros e' key Hx; destruct (Hm e' key Hx) as [Ho Hh]; split; [done|].
      destruct (decide (e' = e)) as [->|]; [by rewrite lookup_insert_eq|by rewrite lookup_insert_ne].
  - intros n e key sh _; cbn; unfold wait_ready; cbn; by rewrite lookup_insert_eq.
  - intros ikey w w' Hf; inversion Hf as [|n e ? w1 w2 ? Hb Hw Hf2]; subst.
    inversion Hf2 as [|n' e' ? w3 w4 ? Hb' _ _]; subst.
    unfold inflight_begin, atomically, begin in Hb, Hb'; cbn in Hb, Hb'.
    destruct (if_entries (sh_inflight (w_shared w)) !! ikey) as [e0|] eqn:He; [|done].
    injection Hb as -> <-; unfold inflight_wait in Hw; cbn in Hw.
    destruct (wait_ready _ _) as [o|]; [|done]; injection Hw as _ <-; cbn in Hb'.
    destruct (filter _ _ !! ikey) as [e1|] eqn:He1; [|done].
    apply map_lookup_filter_Some in He1 as [He1 Hne]; cbn in *; congruence.
Qed.

Lemma query_or_servfail_answers env self fuel (io : IterOrder XKey CacheEntry) R query h labels t c o mode w :
  IterOrderOk io → query_env env fuel R → waits_ok env fuel R →
  client_query query h labels t c o → len query ≤ 65000 → resolver_inv R None (w_shared w) →
  ∃ response w', query_or_servfail env self fuel query mode w = (Ok response, w') ∧
    client_answer query h labels t c response ∧ resolver_inv R None (w_shared w').
Proof.
  intros Hio HE HW Hc Hlen Hw; pose proof (client_query_packet _ _ _ _ _ _ Hc) as Hp.
  assert (calls (features_inv (λ _ _, True) (resolver_inv R None))
    (sent_for_query self R query None) (resolver_query env self fuel query mode)
    (client_answer query h labels t c)) as Hq.
  { apply query_on_link_spec; try done; intros; by eapply client_answers. }
  specialize (Hq w (proj2 (inv_iff R None _) Hw)).
  destruct (client_answerable query h labels t c o Hc) as [stop Ha].
  destruct (error_response_matches query h labels t c stop 2 Ha) as (r & h2 & Hr & Hm & _); [lia|].
  unfold query_or_servfail, mbind, st_bind, attempt; unfold swp in Hq.
  destruct (resolver_query _ _ _ _ _ w) as [[response|e| |] w']; try done.
  - destruct Hq as [[Hinv _] Hx]; exists response, w'; split_and!; [done..|by apply inv_iff in Hinv].
  - destruct Hq as [Hinv _]; exists r, w'; unfold servfail_for, wire, lift; rewrite Hr.
    split_and!; [done|by left|by apply inv_iff in Hinv].
Qed.

(** ** Properties *)



(** Queries end.  Whatever packet a client sends, in either mode and for any
    interface, [query_on_link] neither panics nor runs for ever, and keeps the
    invariant of the shared state: a well-formed cache in which every response
    is filed under the question of a query it answers, in-flight entries whose
    responses belong to their key, well-formed hosts and static records. *)
Theorem query_returns env self fuel (io : IterOrder XKey CacheEntry) R query mode ifindex w :
  IterOrderOk io → query_env env fuel R → waits_ok env fuel R → packet_ok query →
  resolver_inv R None (w_shared w) →
  ∃ r w', query_on_link env self fuel query mode ifindex w = (r, w') ∧
    r ≠ Panic ∧ r ≠ Diverge ∧ resolver_inv R None (w_shared w').
Proof.
  intros Hio HE HW Hp Hw.
  pose proof (query_on_link_spec env self fuel R HE HW query mode ifindex (λ _, True) Hp
    (λ header q _ _, any_answers query header q) w (proj2 (inv_iff R None _) Hw)) as Hq.
  unfold swp in Hq; destruct (query_on_link _ _ _ _ _ _ w) as [r w']; exists r, w'.
  destruct r; try done; split_and!; try done; apply (inv_iff R None), Hq.
Qed.

Lemma query_returns_witness :
  ∃ r w', query_on_link (io := map_order) (example_env (λ _, id) (example_reply 128))
      (example_resolver AllowDowngrade TlsNo) 200 [0; 1; 2] ModeProxy (Some 7)
      (finite_world table_default) = (r, w') ∧
    r ≠ Panic ∧ r ≠ Diverge ∧ resolver_inv (λ _, True) None (w_shared w').
Proof.
  apply (query_returns (example_env (λ _, id) (example_reply 128))
    (example_resolver AllowDowngrade TlsNo) 200 map_order (λ _, True) [0; 1; 2] ModeProxy (Some 7)
    (finite_world table_default) map_order_ok);
    [apply example_query_env; lia|apply example_waits| |by apply example_inv].
  split; [|done]; repeat (apply Forall_cons_2; [unfold is_u8; lia|]); constructor.
Defined.

(** C3: names of a link stay on the link.  As long as the routing tables of other
    threads keep link [i] the only one whose domains match the name best, every
    packet sent for a query of that name, at whatever feature level and over
    whatever transport, goes to a server of link [i] and for its scope: not to
    the global servers, not to the fallback servers, not to another link's. *)
Theorem split_dns_confined env self fuel (io : IterOrder XKey CacheEntry) query q n i mode w :
  IterOrderOk io → query_env env fuel (private_to self n i) → waits_ok env fuel (private_to self n i) →
  packet_ok query → first_question query = Ok q → normalize_name (name_text (q_name q)) = Ok n →
  domains_ok (domains (rs_config self)) →
  resolver_inv (private_to self n i) None (w_shared w) →
  ∃ packets, w_sent (query_on_link env self fuel query mode None w).2 = w_sent w ++ packets ∧
    Forall (λ e, link_server (private_to self n i) i (sent_to e) ∧
                 sendable query false (sent_packet e)) packets.
Proof.
  intros Hio HE HW Hp Hq Hn Hgd Hw.
  pose proof (query_on_link_spec env self fuel _ HE HW query mode None (λ _, True) Hp
    (λ header q _ _, any_answers query header q) w (proj2 (inv_iff _ None _) Hw)) as Hcalls.
  assert (∀ w', kept (features_inv (λ _ _, True) (resolver_inv (private_to self n i) None))
    (sent_for_query self (private_to self n i) query None) w w' →
    ∃ packets, w_sent w' = w_sent w ++ packets ∧
      Forall (λ e, link_server (private_to self n i) i (sent_to e) ∧
                   sendable query false (sent_packet e)) packets) as Hk.
  { intros w' (_ & l & Hl & HP); exists l; split; [done|]; eapply Forall_impl; [exact HP|].
    intros e (q' & Hq' & He & Hs); rewrite Hq in Hq'; apply Ok_inj in Hq' as <-.
    split; [by eapply private_chosen|done]. }
  unfold swp in Hcalls; destruct (query_on_link _ _ _ _ _ _ w) as [[r|e| |] w']; cbn [snd]; try done.
  - apply Hk, Hcalls.
  - by apply Hk.
Qed.

(** The query for [host.corp], of link 2. *)
Definition example_corp_query : bytes :=
  [0; 7; 1; 0; 0; 1; 0; 0; 0; 0; 0; 0; 4; 104; 111; 115; 116; 4; 99; 111; 114; 112; 0; 0; 1; 0; 1].

Lemma example_private :
  private_to (example_resolver AllowDowngrade TlsNo) (lit "host.corp") 2 example_table.
Proof.
  split; [apply example_table_wf|]; exists example_link, 1; split_and!; [done..| |].
  - exists (mk_domain (lit "corp") true); split_and!; [by left|right; by exists [lit "host"]|done].
  - intros s ds k He Hk _; destruct He as [?|i l Hl _ _]; [|].
    + destruct Hk as (d & Hd & _); by apply elem_of_nil in Hd.
    + cbn in Hl; apply lookup_singleton_Some in Hl as [<- <-]; done.
Qed.

Lemma split_dns_confined_witness :
  ∃ packets, w_sent (query_on_link (io := map_order) (example_env (λ _, id) (example_reply 128))
      (example_resolver AllowDowngrade TlsNo) 200 example_corp_query ModeFull None
      (finite_world example_table)).2 = w_sent (finite_world example_table) ++ packets ∧
    Forall (λ e, link_server (private_to (example_resolver AllowDowngrade TlsNo)
                   (lit "host.corp") 2) 2 (sent_to e) ∧
                 sendable example_corp_query false (sent_packet e)) packets.
Proof.
  apply (split_dns_confined (example_env (λ _, id) (example_reply 128))
    (example_resolver AllowDowngrade TlsNo) 200 map_order example_corp_query
    (mk_question (mk_name (lit "host.corp") [4; 104; 111; 115; 116; 4; 99; 111; 114; 112; 0]) 1 1 27)
    (lit "host.corp") 2 ModeFull (finite_world example_table) map_order_ok);
    [apply example_query_env; lia|apply example_waits| |by vm_compute|by vm_compute|constructor
    |apply example_inv, example_private].
  split; [|done]; repeat (apply Forall_cons_2; [unfold is_u8; lia|]); constructor.
Defined.
