(* ===== verification/LookupFacts.v ===== *)
(** * The operations of the resolver: theorems

    A new resolver satisfies the invariant of the shared state, and every
    operation offered to clients and to the bus keeps it; none of them panics or
    runs for ever.  Following redirections ends within its 18 rounds. *)

From S2P Require Import Prelude Stateful Text Net Sorting ConfigTypes Config Codec Names CodecFacts.
From S2P Require Import Packet PacketFacts LocalFacts Records Redirects RedirectFacts RecordsFacts.
From S2P Require Import Edns EdnsFacts CacheX CacheXFacts Cache CacheFacts Provenance Routing.
From S2P Require Import RoutingFacts Transport Policy Hosts HostsFacts StaticRecords StaticFacts.
From S2P Require Import Networkd Inflight World WorldFacts Servers Links LinksFacts Exchange.
From S2P Require Import ExchangeFacts ResolverInv Query QueryFacts Lookup.

(** ** Answers are packets *)

Lemma packet_answers query header q :
  packet_ok query → header_parse query = Ok header → good_answers query header q packet_ok.
Proof.
  intros Hp Hh; assert (is_u16 (h_id header)) as Hid by (by apply (header_id_u16 query)).
  split.
  - intros r Hr; by eapply accepted_packet.
  - intros r Hr _; by eapply from_server_packet.
  - intros ikey r r' _ (_ & q' & _ & _ & _ & Hfs) Hr.
    by apply (rewrite_id_shape r (h_id header) r' (proj1 (from_server_packet _ _ Hfs)) Hid Hr).
  - intros records r Hrec Hr; pose proof (local_response_wp query records 0 Hp) as Hw.
    rewrite Hr in Hw; by apply Hw.
  - intros rrset r Hrs Hr; pose proof (build_response_wp query q rrset Hp Hrs) as Hw.
    by rewrite Hr in Hw.
  - intros r Hr; pose proof (error_response_wp 5 query Hp) as Hw; unfold refused_for in Hr.
    rewrite Hr in Hw; by apply Hw.
Qed.

Lemma make_query_wp name t c id :
  is_u16 t → is_u16 c → is_u16 id → wp (make_query_with_class name t c id) packet_ok.
Proof.
  intros Ht Hc Hid; assert (safe (make_query_with_class name t c id)) as Hs.
  { unfold make_query_with_class; by wp_call w Hw. }
  eapply wp_mono; [apply wp_strengthen, Hs|]; intros p [Hp _]; by apply make_query_shape in Hp as [? _].
Qed.

(** ** Reading the state *)

Section readers.
Context (env : Env) (self : Resolver) `{io : !IterOrder XKey CacheEntry}.
Context (I : Shared → Prop) (P : sent → Prop).
Context (Hothers : ∀ n sh, I sh → I (others env n sh)).

Lemma read_calls {A} (f : Shared → A) : calls I P (reading env f) (λ _, True).
Proof using Hothers. by apply calls_reading. Qed.

Lemma stats_keeps : calls I P (stats env) (λ _, True).
Proof using Hothers.
  unfold stats, read_counter; do 10 (eapply calls_bind; [apply read_calls|]; intros ? _).
  by apply calls_ret.
Qed.

Lemma cache_snapshot_keeps (Q : list CacheSnapshot → Prop) :
  (∀ sh t, I sh → Q (dns_cache_snapshot (sh_cache sh) t)) →
  calls I P (resolver_cache_snapshot env) Q.
Proof using Hothers.
  intros HQ; unfold resolver_cache_snapshot; eapply calls_bind; [eapply calls_hoare, hoare_now|].
  intros t _; apply calls_reading; [done|]; intros sh Hsh; by apply HQ.
Qed.

Lemma link_specs_keep i : calls I P (link_dns_specs env i) (λ _, True).
Proof using Hothers.
  unfold link_dns_specs; eapply calls_bind; [apply read_calls|]; intros [link|] _;
    [|by apply calls_ret].
  eapply calls_bind; [apply read_calls|]; intros ? _; by apply calls_ret.
Qed.

Lemma link_descriptors_keep links : calls I P (link_descriptors env links) (λ _, True).
Proof using Hothers.
  induction links as [|l links IH]; cbn [link_descriptors]; [by apply calls_ret|].
  eapply calls_bind; [apply link_specs_keep|]; intros specs _.
  eapply calls_bind; [exact IH|]; intros rest _; by apply calls_ret.
Qed.

Lemma server_states_keep : calls I P (server_state_snapshot env self) (λ _, True).
Proof using Hothers.
  unfold server_state_snapshot; eapply calls_bind; [apply read_calls|]; intros links _.
  eapply calls_bind; [apply link_descriptors_keep|]; intros; apply read_calls.
Qed.
End readers.

Section lookup.
Context (env : Env) (self : Resolver) (fuel : nat).
Context `{io : !IterOrder XKey CacheEntry, !IterOrderOk io}.
Context (HE : query_env env fuel table_wf) (HW : waits_ok env fuel table_wf).

Abbreviation inv := (features_inv (λ _ _, True) (resolver_inv table_wf None)).
Abbreviation keep m Q := (calls inv (λ _, True) m Q).

Lemma inv_env n sh : inv sh → inv (others env n sh).
Proof using HE. by eapply inv_others. Qed.

Lemma keep_updating f :
  (∀ sh, resolver_inv table_wf None sh → resolver_inv table_wf None (f sh)) →
  keep (updating env f) (λ _, True).
Proof using HE.
  intros Hf; apply calls_updating; [apply inv_env|]; intros sh; rewrite !inv_iff; apply Hf.
Qed.

Lemma keep_reading {A} (f : Shared → A) (Q : A → Prop) :
  (∀ sh, resolver_inv table_wf None sh → Q (f sh)) → keep (reading env f) Q.
Proof using HE.
  intros Hf; apply calls_reading; [apply inv_env|]; intros sh; rewrite inv_iff; apply Hf.
Qed.

Lemma keep_read {A} (f : Shared → A) : keep (reading env f) (λ _, True).
Proof using HE. by apply keep_reading. Qed.

Lemma query_keeps query mode ifindex :
  packet_ok query → keep (query_on_link env self fuel query mode ifindex) packet_ok.
Proof using All.
  intros Hp; eapply calls_sent; [|apply (query_on_link_spec env self fuel table_wf)]; try done.
  intros header q Hh _; by apply packet_answers.
Qed.

(** ** Redirections *)

Lemma transaction_id_keeps : keep (transaction_id env) is_u16.
Proof using HE.
  apply calls_atomically; [apply inv_env|]; intros sh; rewrite inv_iff; intros Hsh.
  unfold swp; rewrite inv_iff; destruct Hsh; split; [split|]; try done.
  cbn; unfold is_u16; pose proof (Z.mod_pos_bound (sh_next_id sh + 1) (2 ^ 16)); lia.
Qed.

(** Each round but the last counts at least one of at most 16 redirections. *)
Lemma redirects_loop_keeps n name class rr_type ifindex visited redirects :
  is_u16 class → is_u16 rr_type → 0 ≤ redirects ≤ CNAME_REDIRECTS_MAX →
  CNAME_REDIRECTS_MAX - redirects < Z.of_nat n →
  keep (redirects_loop env self fuel n name class rr_type ifindex visited redirects)
    (λ r, packet_ok r.1).
Proof using All.
  intros Hc Ht; revert name visited redirects; induction n as [|n IH];
    intros name visited redirects Hr Hn; [lia|]; cbn [redirects_loop].
  eapply calls_bind; [apply transaction_id_keeps|]; intros id Hid.
  eapply calls_bind; [by apply calls_wire, make_query_wp|]; intros query Hq.
  eapply calls_bind; [by apply calls_wire, first_question_safe|]; intros question _.
  case_bool_decide; [apply calls_fail|].
  eapply calls_bind; [by apply query_keeps|]; intros response Hresp.
  eapply calls_bind; [apply calls_wire, header_parse_safe|]; intros header _.
  case_match; [apply calls_fail|].
  eapply calls_bind; [by apply calls_wire, classify_redirect_answer_wp|]; intros answer Ha.
  destruct answer as [target k|target k|]; [..|apply calls_fail]; cbn in Ha.
  - case_match; [apply calls_fail|by apply calls_ret].
  - destruct (Z.eqb_spec k 0); [apply calls_fail|].
    destruct (Z.ltb_spec CNAME_REDIRECTS_MAX (redirects + k)); [apply calls_fail|].
    apply IH; lia.
Qed.

Lemma following_keeps name class rr_type ifindex :
  is_u16 class → is_u16 rr_type →
  keep (query_following_redirects env self fuel name class rr_type ifindex) (λ r, packet_ok r.1).
Proof using All. intros; apply redirects_loop_keeps; unfold CNAME_REDIRECTS_MAX; by try lia. Qed.

(** ** The addresses of a name *)

Definition outcome_packet (r : rres (bytes * str)) : Prop :=
  match r with Ok (response, _) => packet_ok response | Err _ => True | _ => False end.

Lemma run_types_keeps name ifindex types :
  Forall (λ it, is_u16 it.2) types →
  keep (run_types env self fuel name ifindex types) (Forall (λ o, outcome_packet o.2.2)).
Proof using All.
  induction 1 as [|[index rr_type] types Ht _ IH]; cbn [run_types]; [by apply calls_ret|].
  eapply calls_bind; [by apply calls_attempt, following_keeps|]; intros r Hr.
  assert (outcome_packet r) as Hout by (by destruct r as [[]| | |]).
  destruct r as [[response followed]|e| |]; try done;
    (eapply calls_bind; [exact IH|]; intros rest Hrest; apply calls_ret; by constructor).
Qed.

Lemma type_outcomes_keeps name types ifindex :
  Forall is_u16 types →
  keep (type_outcomes env self fuel name types ifindex) (Forall (λ o, outcome_packet o.2)).
Proof using All.
  intros Ht; assert (∀ i x, imap (λ i t, (i, t)) types !! i = Some x → is_u16 x.2) as Hi.
  { intros i x; rewrite list_lookup_imap, fmap_Some; intros (t & Hl & ->); cbn.
    by eapply Forall_lookup_1 in Hl. }
  unfold type_outcomes; case_match.
  - eapply calls_bind; [eapply calls_hoare, hoare_next_event|]; intros order _.
    eapply calls_bind.
    { apply run_types_keeps, Forall_forall; intros x; rewrite list_elem_of_omap.
      intros (i & _ & Hx); by eapply Hi. }
    intros outcomes Ho; apply calls_ret, Forall_fmap; by rewrite sort_by_perm.
  - eapply calls_bind.
    { apply run_types_keeps, Forall_lookup; by apply Hi. }
    intros outcomes Ho; by apply calls_ret, Forall_fmap.
Qed.

Lemma gather_all_safe g outcomes :
  Forall (λ o, outcome_packet o.2) outcomes → safe (gather_all g outcomes).
Proof.
  intros Ho; revert g; induction Ho as [|[rr_type r] outcomes Hr _ IH]; intros g; [done|].
  cbn [gather_all]; apply wp_bind; cbn in Hr; unfold gather.
  destruct r as [[response followed]|e| |]; try done; [|apply IH].
  apply wp_bind; unfold map_err.
  pose proof (extract_address_records_safe response (response_family rr_type) Hr) as Hs.
  destruct (extract_address_records _ _); try done; apply IH.
Qed.

Lemma lookup_name_exact_keeps name types ifindex :
  Forall is_u16 types → keep (lookup_name_exact env self fuel name types ifindex) (λ _, True).
Proof using All.
  intros Ht; unfold lookup_name_exact; eapply calls_bind; [by apply type_outcomes_keeps|].
  intros outcomes Ho; eapply calls_bind; [by apply calls_lift, gather_all_safe|]; intros g _.
  case_bool_decide; [apply calls_fail|by apply calls_ret].
Qed.

Lemma local_name_safe hosts name types : Forall is_u16 types → safe (local_name hosts name types).
Proof.
  induction 1 as [|t types Ht _ IH]; [done|]; cbn [local_name]; apply wp_bind.
  eapply wp_mono; [by apply make_query_wp|]; intros query Hq.
  wp_call question Hquestion; by case_bool_decide.
Qed.

Lemma lookup_first_keeps candidates types ifindex last :
  Forall is_u16 types → keep (lookup_first env self fuel candidates types ifindex last) (λ _, True).
Proof using All.
  intros Ht; revert last; induction candidates as [|c candidates IH]; intros last;
    cbn [lookup_first]; [apply calls_fail|].
  eapply calls_bind; [by apply calls_attempt, lookup_name_exact_keeps|]; intros r Hr.
  destruct r; [by apply calls_ret|apply IH|done|done].
Qed.

Lemma lookup_name_keeps name family ifindex :
  keep (lookup_name_on_link env self fuel name family ifindex) (λ _, True).
Proof using All.
  unfold lookup_name_on_link; destruct (family_types family) as [types|] eqn:Hf; [|apply calls_fail].
  assert (Forall is_u16 types) as Ht.
  { unfold family_types in Hf; repeat case_match; simplify_eq; by repeat constructor. }
  eapply calls_bind.
  { unfold has_local_name; eapply calls_bind with (Q := λ r, safe r).
    - apply keep_reading; intros; by apply local_name_safe.
    - intros r Hr; by apply calls_wire. }
  intros found _; case_match; [by apply lookup_name_exact_keeps|].
  eapply calls_bind with (Q := λ _, True); [|intros; by apply lookup_first_keeps].
  unfold resolver_search_domains; eapply calls_bind with (Q := λ r, safe r).
  - apply keep_reading; intros sh _; unfold search_domains, validate_ifindex, ok_or.
    by repeat case_match.
  - intros r Hr; apply calls_lift; by destruct r.
Qed.

Lemma lookup_address_keeps a ifindex :
  keep (lookup_address_on_link env self fuel a ifindex) (λ _, True).
Proof using All.
  unfold lookup_address_on_link; eapply calls_bind; [by apply following_keeps|].
  intros [response name] Hr; eapply calls_bind; [by apply calls_wire, extract_ptr_names_safe|].
  intros names _; case_bool_decide; [apply calls_fail|by apply calls_ret].
Qed.

Lemma resolve_record_keeps name class rr_type ifindex :
  is_u16 class → is_u16 rr_type →
  keep (resolve_record_on_link env self fuel name class rr_type ifindex) (λ _, True).
Proof using All.
  intros; unfold resolve_record_on_link; eapply calls_bind; [by apply following_keeps|].
  intros [response name'] _; by apply calls_ret.
Qed.
End lookup.

(** ** Operations on links *)

Lemma result_safe {A E} (e : option E) (r : outcome E A) : result_is e r → safe r.
Proof. destruct e; cbn; [by intros ->|by intros [a ->]]. Qed.

Lemma sync_links_safe kernels changed seen t : safe (sync_links kernels changed seen t).1.
Proof.
  revert changed seen t; induction kernels as [|k kernels IH]; intros changed seen t; [done|].
  cbn [sync_links]; unfold entry_link, link_new, validate_ifindex.
  destruct (kl_ifindex k <=? 0); [done|]; cbn [mbind outcome_bind].
  destruct (rt_links t !! kl_ifindex k); case_bool_decide; apply IH.
Qed.

Lemma routing_step_safe t op : safe (routing_step t op).1.
Proof.
  destruct op as [i servers|i ds|i v|i mode|i mode|i mode|i mode|i anchors|kernels|i].
  - pose proof (routing_step_result t i (LinkDns (plain_spec <$> servers))) as H; cbn in H.
    rewrite <- list_fmap_compose, (list_fmap_id servers : (address ∘ plain_spec) <$> servers = _) in H.
    by eapply result_safe.
  - eapply result_safe, (routing_step_result t i (LinkDomains ds)).
  - eapply result_safe, (routing_step_result t i (LinkDefaultRoute v)).
  - eapply result_safe, (routing_step_result t i (LinkLlmnr mode)).
  - eapply result_safe, (routing_step_result t i (LinkMulticastDns mode)).
  - eapply result_safe, (routing_step_result t i (LinkDnsOverTls mode)).
  - eapply result_safe, (routing_step_result t i (LinkDnssec mode)).
  - eapply result_safe, (routing_step_result t i (LinkAnchors anchors)).
  - cbn [routing_step]; unfold sync_kernel_links.
    pose proof (sync_links_safe kernels (negb (rt_kernel_synchronized t)) ∅ t) as Hs.
    by destruct (sync_links _ _ _ _) as [[[]| | |] t'].
  - eapply result_safe, (routing_step_result t i LinkRevert).
Qed.

(** The loops of [sync_networkd_links] keep the table well formed. *)
Section sync.
Context (self : Resolver).

Definition sync_wf (s : sync_state) : Prop := table_wf (sy_routing s).

Abbreviation syncs m := (∀ s, sync_wf s → swp m s (λ _, sync_wf) (λ _, sync_wf)).

Lemma syncs_bind {A B} (m : st sync_state LinkError A) (k : A → st sync_state LinkError B) :
  syncs m → (∀ a, syncs (k a)) → syncs (m ≫= k).
Proof. intros Hm Hk s Hs; apply swp_bind; eapply swp_mono; [by apply Hm|intros; by apply Hk|done]. Qed.

Lemma sync_step op : syncs (sync_routing (λ t, routing_step t op)).
Proof.
  intros s Hs; pose proof (routing_step_safe (sy_routing s) op) as Hsafe.
  pose proof (routing_step_wf (sy_routing s) op Hs) as Hwf; unfold swp, sync_routing.
  by destruct (routing_step _ op) as [[]].
Qed.

Lemma push_removed_syncs i : syncs (push_removed i).
Proof. intros s Hs; by apply swp_modify. Qed.

Lemma sync_previous_syncs incoming p : syncs (sync_previous incoming p).
Proof.
  destruct p as [i l]; cbn [sync_previous].
  destruct (n_managed l && _); [|intros s Hs; by apply swp_ret].
  apply syncs_bind; [apply push_removed_syncs|]; intros _.
  apply syncs_bind; [intros s Hs; by apply swp_get|]; intros s0; destruct (table_link _ i).
  - apply (sync_step (Revert i)).
  - intros s Hs; by apply swp_ret.
Qed.

Lemma sync_incoming_syncs p : syncs (sync_incoming self p).
Proof.
  destruct p as [j l]; unfold sync_incoming; case_match; [intros s Hs; by apply swp_ret|].
  apply syncs_bind; [intros s Hs; by apply swp_get|]; intros s0; case_match; [|apply push_removed_syncs].
  apply syncs_bind; [apply (sync_step (SetDns _ _))|]; intros _.
  apply syncs_bind; [apply (sync_step (SetDomains _ _))|]; intros _.
  apply syncs_bind; [apply (sync_step (SetDefaultRoute _ _))|]; intros _.
  apply syncs_bind; [apply (sync_step (SetLlmnr _ _))|]; intros _.
  apply syncs_bind; [apply (sync_step (SetMulticastDns _ _))|]; intros _.
  apply syncs_bind; [apply (sync_step (SetDnsOverTls _ _))|]; intros _.
  apply syncs_bind; [apply (sync_step (SetDnssec _ _))|]; intros _.
  apply syncs_bind; [apply (sync_step (SetNegativeTrustAnchors _ _))|]; intros _.
  intros s Hs; apply swp_bind, swp_get; case_match; [by apply swp_put|by apply swp_ret].
Qed.
End sync.

Section operations.
Context (env : Env) (self : Resolver) (fuel : nat).
Context `{io : !IterOrder XKey CacheEntry, !IterOrderOk io}.
Context `{io' : !IterOrder Z NetworkdLinkState}.
Context (HE : query_env env fuel table_wf) (HW : waits_ok env fuel table_wf).

Abbreviation inv := (features_inv (λ _ _, True) (resolver_inv table_wf None)).
Abbreviation keep m Q := (calls inv (λ _, True) m Q).

Lemma on_routing_keeps {A} (f : RoutingTable → lres A * RoutingTable) :
  (∀ t, table_wf t → table_wf (f t).2 ∧ safe (f t).1) → keep (on_routing env f) (λ _, True).
Proof using HE.
  intros Hf; apply calls_atomically; [by eapply inv_env|]; intros sh; rewrite inv_iff.
  intros []; unfold swp; destruct (Hf (sh_routing sh)) as [Hwf Hs]; [done|].
  destruct (f (sh_routing sh)) as [[a|e| |] t]; cbn in *; try done; rewrite inv_iff; by repeat split.
Qed.

Lemma on_specs_keeps {A} (f : gmap Z (list DnsServerSpec) → A * gmap Z (list DnsServerSpec)) :
  keep (on_specs env f) (λ _, True).
Proof using HE.
  apply calls_atomically; [by eapply inv_env|]; intros sh; rewrite inv_iff; intros Hsh; unfold swp.
  destruct (f _) as [a m]; rewrite inv_iff; split; [|done]; by apply (resolver_inv_frame _ _ sh).
Qed.

Lemma flush_keeps :
  keep (updating env (λ sh, { sh with sh_cache := dns_cache_flush (sh_cache sh) })) (λ _, True).
Proof using HE IterOrderOk0.
  apply (keep_updating env fuel HE); intros sh []; split; try done; by apply cache_ok_flush.
Qed.

Lemma finish_keeps changed : keep (finish_routing_change env changed) (λ _, True).
Proof using All.
  unfold finish_routing_change; destruct changed; [|by apply calls_ret].
  eapply calls_bind; [|intros; apply flush_keeps].
  apply (keep_updating env fuel HE); intros sh Hsh; by apply (resolver_inv_frame _ _ sh).
Qed.

Lemma writable_keeps i : keep (ensure_link_writable env i) (λ _, True).
Proof using HE.
  unfold ensure_link_writable; eapply calls_bind; [by eapply keep_read|]; intros managed _.
  destruct managed; [apply calls_fail|by apply calls_ret].
Qed.

Lemma set_link_keeps i op : keep (set_link env i (λ t, routing_step t op)) (λ _, True).
Proof using All.
  unfold set_link; eapply calls_bind; [apply writable_keeps|]; intros _ _.
  eapply calls_bind; [|intros; apply finish_keeps]; apply on_routing_keeps.
  intros t Ht; split; [by apply routing_step_wf|apply routing_step_safe].
Qed.

Lemma link_op_keeps i op : keep (run_link_op env i op) (λ _, True).
Proof using All.
  destruct op as [specs| | | | | | | |];
    [|apply (set_link_keeps i (SetDomains _ _))|apply (set_link_keeps i (SetDefaultRoute _ _))
     |apply (set_link_keeps i (SetLlmnr _ _))|apply (set_link_keeps i (SetMulticastDns _ _))
     |apply (set_link_keeps i (SetDnsOverTls _ _))|apply (set_link_keeps i (SetDnssec _ _))
     |apply (set_link_keeps i (SetNegativeTrustAnchors _ _))|].
  - cbn [run_link_op]; unfold set_link_dns_specs; eapply calls_bind; [apply writable_keeps|].
    intros _ _; eapply calls_bind.
    + apply on_routing_keeps; intros t Ht.
      pose proof (routing_step_wf t (SetDns i (address <$> specs)) Ht) as Hwf.
      pose proof (routing_step_safe t (SetDns i (address <$> specs))) as Hs; cbn in Hwf, Hs.
      destruct (set_dns t i _) as [r t']; split; [done|]; by destruct r.
    + intros [changed servers] _; eapply calls_bind; [apply on_specs_keeps|]; intros; apply finish_keeps.
  - cbn [run_link_op]; unfold revert_link; eapply calls_bind; [apply writable_keeps|].
    intros _ _; eapply calls_bind.
    + apply on_routing_keeps; intros t Ht; split; [by apply (routing_step_wf t (Revert i))|].
      apply (routing_step_safe t (Revert i)).
    + intros changed _; eapply calls_bind; [apply on_specs_keeps|]; intros; apply finish_keeps.
Qed.

Lemma kernel_links_keep kernels : keep (resolver_sync_kernel_links env kernels) (λ _, True).
Proof using All.
  unfold resolver_sync_kernel_links; eapply calls_bind.
  { apply on_routing_keeps; intros t Ht; split; [by apply (routing_step_wf t (SyncKernelLinks kernels))|].
    apply (routing_step_safe t (SyncKernelLinks kernels)). }
  intros changed _; eapply calls_bind; [by eapply keep_read|]; intros live _.
  eapply calls_bind; [apply on_specs_keeps|]; intros; apply finish_keeps.
Qed.

Lemma any_changed_keeps {A} (f : A → rst bool) l changed :
  (∀ x, keep (f x) (λ _, True)) → keep (any_changed f l changed) (λ _, True).
Proof.
  intros Hf; revert changed; induction l as [|x l IH]; intros changed; [by apply calls_ret|].
  cbn [any_changed]; eapply calls_bind; [apply Hf|intros c _; apply IH].
Qed.

Lemma networkd_links_keep links : keep (sync_networkd_links env self links) (λ _, True).
Proof using All.
  unfold sync_networkd_links; eapply calls_bind with (Q := λ _, True).
  - apply calls_atomically; [by eapply inv_env|]; intros sh; rewrite inv_iff; intros Hsh.
    unfold swp, sync_locked.
    match goal with |- context [?m (mk_sync ?t false [] [])] =>
      assert (swp m (mk_sync t false [] []) (λ _, sync_wf) (λ _, sync_wf)) as Hm end.
    { apply syncs_bind; [| |apply Hsh].
      - intros s Hs; apply swp_for_each; [intros x s' _; apply sync_previous_syncs|done].
      - intros _ s Hs; apply swp_for_each; [intros x s' _; apply sync_incoming_syncs|done]. }
    unfold swp in Hm; match goal with |- context [?m (mk_sync ?t false [] [])] =>
      destruct (m (mk_sync t false [] [])) as [r s] end.
    destruct r; try done; rewrite inv_iff; destruct Hsh; try (split; [|done]); by split.
  - intros [[changed removed] managed] _; eapply calls_bind.
    { apply any_changed_keeps; intros; apply on_specs_keeps. }
    intros c _; eapply calls_bind; [|intros; apply finish_keeps].
    apply any_changed_keeps; intros [[i servers] specs]; apply on_specs_keeps.
Qed.

(** ** Maintenance *)

Lemma reload_hosts_keeps :
  (∀ n p text, os_read_file env n p = inr (Some text) → str_ok text) →
  keep (reload_hosts env self) (λ _, True).
Proof using All.
  intros Hfiles; unfold reload_hosts; eapply calls_bind with (Q := hosts_ok).
  - destruct (read_etc_hosts (rs_config self)); [|apply calls_ret, hosts_default_ok].
    eapply calls_mono; [eapply calls_hoare, hoare_os|]; intros hosts [n Hn]; unfold hosts_load in Hn.
    destruct (os_read_file env n _) as [e|[text|]] eqn:Hr; simplify_eq.
    + by eapply hosts_parse_ok, Hfiles.
    + apply hosts_default_ok.
  - intros hosts Hh; eapply calls_bind; [|intros _ _]; apply (keep_updating env fuel HE);
      intros sh []; split; try done; apply map_Forall_empty.
Qed.

Lemma reset_features_keeps : keep (reset_server_features env) (λ _, True).
Proof using HE.
  apply (keep_updating env fuel HE); intros sh Hsh; by apply (resolver_inv_frame _ _ sh).
Qed.

Lemma reset_statistics_keeps : keep (reset_statistics env) (λ _, True).
Proof using HE.
  unfold reset_statistics; do 7 (eapply calls_bind; [by eapply count_calls|]; intros _ _).
  by eapply count_calls.
Qed.

(** ** Sequences of operations *)

Inductive resolver_op : Type :=
  | OpQuery (query : bytes) (mode : QueryMode) (ifindex : option Z)
  | OpName (name : str) (family : Z) (ifindex : option Z)
  | OpAddress (a : IpAddr) (ifindex : option Z)
  | OpRecord (name : str) (class rr_type : Z) (ifindex : option Z)
  | OpLink (ifindex : Z) (op : link_op)
  | OpKernelLinks (kernels : list KernelLinkState)
  | OpNetworkdLinks (links : list NetworkdLinkState)
  | OpReloadHosts
  | OpFlushCache
  | OpResetFeatures
  | OpResetStatistics
  | OpStats
  | OpCache
  | OpServers.

(** The octets of a query are octets, types and classes have 16 bits. *)
Definition op_ok (op : resolver_op) : Prop :=
  match op with
  | OpQuery query _ _ => packet_ok query
  | OpRecord _ class rr_type _ => is_u16 class ∧ is_u16 rr_type
  | _ => True
  end.

Definition discard {A} (m : rst A) : rst unit := _ ← m; mret ().

Definition run_op (op : resolver_op) : rst unit :=
  match op with
  | OpQuery query mode ifindex => discard (query_on_link env self fuel query mode ifindex)
  | OpName name family ifindex => discard (lookup_name_on_link env self fuel name family ifindex)
  | OpAddress a ifindex => discard (lookup_address_on_link env self fuel a ifindex)
  | OpRecord name class rr_type ifindex =>
      discard (resolve_record_on_link env self fuel name class rr_type ifindex)
  | OpLink i op => run_link_op env i op
  | OpKernelLinks kernels => resolver_sync_kernel_links env kernels
  | OpNetworkdLinks links => sync_networkd_links env self links
  | OpReloadHosts => reload_hosts env self
  | OpFlushCache => flush_cache env
  | OpResetFeatures => reset_server_features env
  | OpResetStatistics => reset_statistics env
  | OpStats => discard (stats env)
  | OpCache => discard (resolver_cache_snapshot env)
  | OpServers => discard (server_state_snapshot env self)
  end.

(** One after the other, whatever errors they give. *)
Fixpoint run_ops (ops : list resolver_op) : rst unit :=
  match ops with
  | [] => mret ()
  | op :: ops => _ ← attempt (E := ResolveError) (run_op op); run_ops ops
  end.

Context (Hfiles : ∀ n p text, os_read_file env n p = inr (Some text) → str_ok text).

Lemma discard_keeps {A} (m : rst A) Q : keep m Q → keep (discard m) (λ _, True).
Proof. intros Hm; unfold discard; eapply calls_bind; [exact Hm|]; intros; by apply calls_ret. Qed.

Lemma run_op_keeps op : op_ok op → keep (run_op op) (λ _, True).
Proof using All.
  destruct op; cbn [op_ok run_op]; intros Hok.
  - by eapply discard_keeps, query_keeps.
  - by eapply discard_keeps, lookup_name_keeps.
  - by eapply discard_keeps, lookup_address_keeps.
  - eapply discard_keeps, resolve_record_keeps; try done; by destruct Hok.
  - apply link_op_keeps.
  - apply kernel_links_keep.
  - apply networkd_links_keep.
  - by apply reload_hosts_keeps.
  - apply flush_keeps.
  - apply reset_features_keeps.
  - apply reset_statistics_keeps.
  - eapply discard_keeps, stats_keeps; by eapply inv_env.
  - eapply discard_keeps, cache_snapshot_keeps with (Q := λ _, True); [by eapply inv_env|done].
  - eapply discard_keeps, server_states_keep; by eapply inv_env.
Qed.

Lemma run_ops_keep ops w :
  Forall op_ok ops → resolver_inv table_wf None (w_shared w) →
  ∃ w', run_ops ops w = (Ok (), w') ∧ resolver_inv table_wf None (w_shared w').
Proof using All.
  intros Hops; revert w; induction Hops as [|op ops Hop _ IH]; intros w Hw; [by exists w|].
  cbn [run_ops]; unfold mbind, st_bind, attempt.
  pose proof (run_op_keeps op Hop w (proj2 (inv_iff table_wf None _) Hw)) as Hr; unfold swp in Hr.
  destruct (run_op op w) as [[a|e| |] w1]; try done; apply IH, (inv_iff table_wf None), Hr.
Qed.
End operations.

(** ** A new resolver *)

Lemma resolver_new_ok `{io : !IterOrder XKey CacheEntry, !IterOrderOk io} c hosts_file :
  0 ≤ cache_size c → 0 ≤ stale_retention c ≤ STALE_MAX →
  (∀ text, hosts_file = inr (Some text) → str_ok text) →
  ∃ self sh, resolver_new c hosts_file = Ok (self, sh) ∧ rs_config self = c ∧
    resolver_inv table_wf None sh.
Proof.
  intros Hcap Hstale Htext; unfold resolver_new.
  destruct (cache_ok_new (cache_size c) (cache_max_ttl c) (stale_retention c) (cache_negative c) Hcap Hstale)
    as (cache & Hc & Hok); rewrite Hc; cbn [mbind outcome_bind]; do 2 eexists; split; [reflexivity|].
  split; [done|]; split; cbn -[static_records_system]; try done.
  - destruct (read_etc_hosts c), hosts_file as [e|[text|]]; try apply hosts_default_ok.
    by apply hosts_parse_ok, Htext.
  - apply inflight_ok_default.
Qed.

(** ** Properties *)


Definition example_ops : list resolver_op :=
  [OpLink 2 (LinkDns [plain_spec (SockV4 [192; 0; 2; 1] 53)]);
   OpLink 2 (LinkDomains [mk_domain (lit "Corp.") true]);
   OpQuery [0; 1; 2] ModeProxy (Some 7); OpName (lit "host.corp") 0 None;
   OpReloadHosts; OpKernelLinks []; OpNetworkdLinks []; OpFlushCache; OpServers].

