(* ===== verification/VarlinkFacts.v ===== *)
(** * Varlink: theorems

    Every message of a connection is answered by one reply, in order and whatever
    the pieces it arrives in; the replies can be told apart; only root changes
    what is kept; binary data is encoded so that it can be decoded. *)

From S2P Require Import Prelude Stateful Text Utf8 Net Sorting ConfigTypes Config Codec Names.
From S2P Require Import CodecFacts Packet PacketFacts LocalFacts Records Redirects RedirectFacts.
From S2P Require Import RecordsFacts CacheX CacheXFacts Cache CacheFacts Routing RoutingFacts Edns.
From S2P Require Import Transport Policy Hosts Json JsonFacts StaticRecords Networkd Inflight World.
From S2P Require Import WorldFacts Servers Links Exchange ExchangeFacts ResolverInv Query QueryFacts.
From S2P Require Import Lookup LookupFacts ResolvConf Varlink.

(** ** Parameters *)

Lemma try_range_Some lo hi n m : try_range lo hi n = Some m → lo ≤ m ≤ hi.
Proof. unfold try_range; case_match; [|done]; intros [= <-]; boolp; lia. Qed.

Lemma optional_wp {A} (f : Value → option A) p key d (Q : A → Prop) :
  Q d → (∀ v a, f v = Some a → Q a) → wp (optional f p key d) Q.
Proof.
  intros Hd Hf; unfold optional; destruct (json_get p key) as [v|]; [|done].
  destruct v; try done; destruct (f _) eqn:Hv; try done; by eapply Hf.
Qed.

Lemma required_wp f p key (Q : Z → Prop) :
  (∀ v a, f v = Some a → Q a) → wp (required f p key) Q.
Proof.
  intros Hf; unfold required; destruct (json_get p key) as [v|]; [cbn|done].
  destruct (f v) eqn:Hv; [|done]; by eapply Hf.
Qed.

Lemma u16_value v t : as_u64 v ≫= to_u16 = Some t → is_u16 t.
Proof.
  intros (n & _ & Hn)%bind_Some; apply try_range_Some in Hn; unfold is_u16; lia.
Qed.

Lemma optional_ifindex_safe p : safe (optional_ifindex p).
Proof.
  unfold optional_ifindex; apply wp_bind; eapply wp_mono; [by apply (optional_wp _ _ _ _ (λ _, True))|].
  intros i _; by case_match.
Qed.

Lemma required_string_safe p key : safe (required_string p key).
Proof. unfold required_string; by destruct (json_get p key ≫= as_str). Qed.

Lemma optional_safe {A} (f : Value → option A) p key d : safe (optional f p key d).
Proof. by apply optional_wp. Qed.

Lemma invalid_if_safe b key : safe (invalid_if b key).
Proof. unfold invalid_if; by case_match. Qed.

Lemma record_parameters_wp p :
  wp (record_parameters p) (λ '(_, class, rr_type, _), is_u16 class ∧ is_u16 rr_type).
Proof.
  unfold record_parameters; apply wp_bind; eapply wp_mono; [apply required_string_safe|].
  intros name _; apply wp_bind; eapply wp_mono; [apply invalid_if_safe|]; intros _ _.
  apply wp_bind; eapply wp_mono; [apply (optional_wp _ _ _ _ is_u16); [done|apply u16_value]|].
  intros class Hc; apply wp_bind; eapply wp_mono; [apply invalid_if_safe|]; intros _ _.
  apply wp_bind; unfold record_type.
  eapply wp_mono with (Q := is_u16).
  - apply wp_bind; eapply wp_mono; [apply (required_wp _ _ _ is_u16); apply u16_value|].
    intros t Ht; by repeat case_bool_decide.
  - intros t Ht; apply wp_bind; eapply wp_mono; [apply optional_ifindex_safe|]; done.
Qed.

Lemma address_parameters_safe p : safe (address_parameters p).
Proof.
  unfold address_parameters; destruct (json_get _ _ ≫= as_array); [|done].
  apply wp_bind; eapply wp_mono; [by apply (required_wp _ _ _ (λ _, True))|]; intros family _.
  apply wp_bind; eapply wp_mono; [apply optional_ifindex_safe|]; intros i _.
  destruct (mapM _ _); [|done]; by destruct (address_of _ _).
Qed.

Lemma service_request_safe p : safe (service_request p).
Proof.
  unfold service_request, optional_string, optional_i32, optional_u64.
  do 2 (apply wp_bind; eapply wp_mono; [apply optional_safe|]; intros ? _).
  apply wp_bind; eapply wp_mono; [apply required_string_safe|]; intros domain _.
  apply wp_bind; eapply wp_mono; [apply optional_safe|]; intros family _.
  apply wp_bind; eapply wp_mono; [apply invalid_if_safe|]; intros _ _.
  apply wp_bind; eapply wp_mono; [apply optional_ifindex_safe|]; intros i _.
  apply wp_bind; eapply wp_mono; [apply optional_safe|]; intros flags _.
  do 3 (apply wp_bind; eapply wp_mono; [apply invalid_if_safe|]; intros _ _).
  by destruct (service_question _ _ _).
Qed.

(** ** Records *)

Definition raw_parses (a : AnswerRecord) : Prop := ∃ r, parse_record (a_raw a) 0 = Ok r.

Lemma answer_records_loop_wp n p o :
  packet_ok p → wp (answer_records_loop n p o) (Forall raw_parses).
Proof.
  intros Hp; revert o; induction n as [|n IH]; intros o; [by constructor|].
  cbn [answer_records_loop]; apply wp_bind; eapply wp_mono; [by apply wp_strengthen, parse_record_safe|].
  intros r [Hr _]; destruct (raw_record_roundtrip p o r Hp Hr) as (raw & r' & Hraw & Hr' & _).
  rewrite Hraw; cbn [mbind outcome_bind]; apply wp_bind; eapply wp_mono; [apply IH|].
  intros rest Hrest; constructor; [by exists r'|done].
Qed.

Lemma extract_answer_records_wp p :
  packet_ok p → wp (extract_answer_records p) (Forall raw_parses).
Proof.
  intros Hp; unfold extract_answer_records; apply wp_bind; eapply wp_mono; [apply header_parse_safe|].
  intros h _; case_match; [done|]; apply wp_bind; eapply wp_mono; [by apply skip_questions_safe|].
  intros o _; by apply answer_records_loop_wp.
Qed.

(** ** Methods that only read *)

Section readers.
Context (env : Env) (self : Resolver) `{io : !IterOrder XKey CacheEntry}.
Context (I : Shared → Prop) (P : sent → Prop).
Context (Hothers : ∀ n sh, I sh → I (others env n sh)).
Context (Hpackets : ∀ sh t, I sh →
  Forall (λ e, packet_ok (sn_response e)) (dns_cache_snapshot (sh_cache sh) t)).

Lemma parsed_keeps {A} (r : wres A) (Q : A → Prop) :
  wp r Q → calls I P (parsed r) (λ o, match o with Some a => Q a | None => True end).
Proof. intros Hr; unfold parsed; destruct r; first [done|by apply calls_ret]. Qed.

Lemma try_keeps {A} (m : rst A) Q : calls I P m Q → calls I P (try_io m) (λ _, True).
Proof.
  intros Hm; unfold try_io; eapply calls_bind; [by apply calls_attempt|]; intros; by apply calls_ret.
Qed.

Lemma collect_keeps {A} (f : A → rst Value) l :
  (∀ x, x ∈ l → calls I P (f x) (λ _, True)) → calls I P (collect f l) (λ _, True).
Proof.
  induction l as [|x l IH]; intros Hf; cbn [collect]; [by apply calls_ret|].
  eapply calls_bind; [apply Hf; by left|]; intros v _.
  eapply calls_bind; [apply IH; intros; apply Hf; by right|]; intros; by apply calls_ret.
Qed.

Lemma first_keeps {A} (f : A → rst Value) o :
  (∀ x, calls I P (f x) (λ _, True)) → calls I P (first_of f o) (λ _, True).
Proof. intros Hf; destruct o; [apply Hf|by apply calls_ret]. Qed.

Lemma ifindex_keeps i : calls I P (resolve_ifindex env i) (λ _, True).
Proof.
  unfold resolve_ifindex; repeat case_match; try apply calls_fail; [by apply calls_ret|].
  eapply calls_mono; [eapply calls_hoare, hoare_os|done].
Qed.

Lemma server_configuration_keeps d a s : calls I P (dns_server_configuration env d a s) (λ _, True).
Proof.
  unfold dns_server_configuration; destruct (address_parts _); eapply calls_bind with (Q := λ _, True).
  - destruct (ConfigTypes.interface s); [eapply try_keeps, ifindex_keeps|by apply calls_ret].
  - intros; by apply calls_ret.
Qed.

Lemma matching_mode_keeps system candidates : calls I P (matching_mode env system candidates) (λ _, True).
Proof.
  induction candidates as [|[mode p] candidates IH]; cbn [matching_mode]; [by apply calls_ret|].
  eapply calls_bind with (Q := λ _, True).
  - unfold path_matches; eapply calls_bind; [eapply calls_hoare, hoare_os|]; intros; by apply calls_ret.
  - intros [] _; [by apply calls_ret|apply IH].
Qed.

Lemma resolv_conf_mode_keeps d : calls I P (system_resolv_conf_mode env d) (λ _, True).
Proof.
  unfold system_resolv_conf_mode, detect_resolv_conf_mode.
  eapply calls_bind; [eapply calls_hoare, hoare_os|]; intros [i|] _;
    [apply matching_mode_keeps|by apply calls_ret].
Qed.

Lemma dump_configuration_keeps : calls I P (dump_dns_configuration env self) (λ _, True).
Proof using Hothers.
  unfold dump_dns_configuration, global_dns_configuration, resolver_links.
  eapply calls_bind with (Q := λ _, True).
  { eapply calls_bind; [apply first_keeps; intros; apply server_configuration_keeps|]; intros ? _.
    eapply calls_bind; [eapply try_keeps, resolv_conf_mode_keeps|]; intros ? _.
    do 2 (eapply calls_bind; [apply collect_keeps; intros; apply server_configuration_keeps|];
          intros ? _).
    by apply calls_ret. }
  intros global _; eapply calls_bind; [by apply read_calls|]; intros links _.
  eapply calls_bind; [|intros; by apply calls_ret]; apply collect_keeps; intros l _.
  unfold link_dns_configuration; eapply calls_bind; [by apply link_specs_keep|]; intros servers _.
  eapply calls_bind; [apply first_keeps; intros; apply server_configuration_keeps|]; intros ? _.
  eapply calls_bind; [apply collect_keeps; intros; apply server_configuration_keeps|]; intros ? _.
  by apply calls_ret.
Qed.

Lemma snapshot_packets :
  calls I P (resolver_cache_snapshot env) (Forall (λ e, packet_ok (sn_response e))).
Proof using Hothers Hpackets. apply cache_snapshot_keeps; [done|]; intros sh t; apply Hpackets. Qed.

Lemma monitor_entry_keeps e : packet_ok (sn_response e) → calls I P (monitor_cache_entry env e) (λ _, True).
Proof.
  intros Hp; unfold monitor_cache_entry, cache_until_usec, boottime_usec.
  eapply calls_bind with (Q := λ _, True).
  { eapply calls_bind with (Q := λ _, True); [|intros; by apply calls_ret].
    eapply calls_bind; [eapply calls_hoare, hoare_next_event|]; intros; by apply calls_ret. }
  intros deadline _; eapply calls_bind with (Q := Forall raw_parses).
  { destruct (sn_rcode e =? 0); [|by apply calls_ret].
    eapply calls_bind; [by eapply parsed_keeps, extract_answer_records_wp|].
    intros [l|] Hl; apply calls_ret; [done|by constructor]. }
  intros records Hr; case_match; [|by apply calls_ret].
  eapply calls_bind; [|intros; by apply calls_ret]; apply collect_keeps; intros r Hin.
  unfold monitor_record, monitor_resource_record; rewrite Forall_forall in Hr.
  destruct (Hr r Hin) as [r' Hr']; rewrite Hr'.
  eapply calls_bind with (Q := λ _, True); [|intros; by apply calls_ret].
  eapply calls_bind with (Q := λ _, True); [by apply calls_ret|]; intros; by apply calls_ret.
Qed.

Lemma dump_cache_keeps : calls I P (monitor_dump_cache env self) (λ _, True).
Proof using Hothers Hpackets.
  unfold monitor_dump_cache, resolver_links; eapply calls_bind; [apply snapshot_packets|].
  intros entries He; eapply calls_bind.
  { apply collect_keeps; intros e Hin; apply monitor_entry_keeps.
    rewrite Forall_forall in He; by apply He. }
  intros values _; eapply calls_bind; [by apply read_calls|]; intros; by apply calls_ret.
Qed.

Lemma dump_server_state_keeps : calls I P (monitor_dump_server_state env self) (λ _, True).
Proof using Hothers.
  unfold monitor_dump_server_state; eapply calls_bind; [by apply server_states_keep|].
  intros; by apply calls_ret.
Qed.

Lemma dump_statistics_keeps : calls I P (monitor_dump_statistics env) (λ _, True).
Proof using Hothers.
  unfold monitor_dump_statistics; eapply calls_bind; [by apply stats_keeps|]; intros; by apply calls_ret.
Qed.

Lemma statistics_keeps : calls I P (statistics env) (λ _, True).
Proof using Hothers.
  unfold statistics; eapply calls_bind; [by apply stats_keeps|]; intros; by apply calls_ret.
Qed.

End readers.

Section handlers.
Context (env : Env) (self : Resolver) (fuel : nat).
Context `{io : !IterOrder XKey CacheEntry, !IterOrderOk io}.
Context (HE : query_env env fuel table_wf) (HW : waits_ok env fuel table_wf).

Abbreviation inv := (features_inv (λ _ _, True) (resolver_inv table_wf None)).
Abbreviation keep m Q := (calls inv (λ _, True) m Q).

Lemma or_reply_keeps {A} (m : outcome Value A) (k : A → rst Value) (Q : A → Prop) :
  wp m Q → (∀ a, Q a → keep (k a) (λ _, True)) → keep (or_reply m k) (λ _, True).
Proof.
  intros Hm Hk; unfold or_reply; destruct m; try done; [by apply Hk|by apply calls_ret].
Qed.

Lemma calling_keeps {A} (m : rst A) on_error (k : A → rst Value) (Q : A → Prop) :
  keep m Q → (∀ e, keep (on_error e) (λ _, True)) → (∀ a, Q a → keep (k a) (λ _, True)) →
  keep (calling m on_error k) (λ _, True).
Proof.
  intros Hm He Hk; unfold calling; eapply calls_bind; [by apply calls_attempt|]; intros r Hr.
  destruct r; [by apply Hk|apply He|done|done].
Qed.

Lemma reply_error_keeps e : keep (reply_error e) (λ _, True).
Proof. by apply calls_ret. Qed.

Lemma record_keeps name class rr_type ifindex :
  is_u16 class → is_u16 rr_type →
  keep (resolve_record_on_link env self fuel name class rr_type ifindex) packet_ok.
Proof using All.
  intros; unfold resolve_record_on_link; eapply calls_bind; [by apply following_keeps|].
  intros [response name'] Hr; by apply calls_ret.
Qed.

Lemma hostname_keeps p : keep (varlink_resolve_hostname env self fuel p) (λ _, True).
Proof using All.
  unfold varlink_resolve_hostname; eapply (or_reply_keeps _ _ (λ _, True)).
  { apply wp_bind; eapply wp_mono; [apply required_string_safe|]; intros name _.
    apply wp_bind; eapply wp_mono; [apply optional_safe|]; intros family _.
    apply wp_bind; eapply wp_mono; [apply optional_ifindex_safe|]; done. }
  intros [[name family] ifindex] _; eapply calling_keeps; [by apply lookup_name_keeps|..].
  - intros e; apply reply_error_keeps.
  - intros r _; by apply calls_ret.
Qed.

Lemma address_keeps p : keep (varlink_resolve_address env self fuel p) (λ _, True).
Proof using All.
  unfold varlink_resolve_address; eapply or_reply_keeps; [apply address_parameters_safe|].
  intros [a ifindex] _; eapply calling_keeps; [by apply lookup_address_keeps|..].
  - intros e; apply reply_error_keeps.
  - intros r _; by apply calls_ret.
Qed.

Lemma record_reply_keeps p : keep (varlink_resolve_record env self fuel p) (λ _, True).
Proof using All.
  unfold varlink_resolve_record; eapply or_reply_keeps; [apply record_parameters_wp|].
  intros [[[name class] rr_type] ifindex] [Hc Ht]; eapply calling_keeps; [by apply record_keeps|..].
  - intros e; apply reply_error_keeps.
  - intros r Hr; eapply calls_bind; [by eapply parsed_keeps, extract_answer_records_wp|].
    intros; by apply calls_ret.
Qed.

Lemma service_entries_keep records request e :
  keep (resolve_service_entries env self fuel records request e) (λ _, True).
Proof using All.
  revert e; induction records as [|r records IH]; intros e; cbn [resolve_service_entries];
    [by apply calls_ret|].
  case_bool_decide; [apply IH|]; destruct (has_flag _ _); [apply IH|].
  eapply calls_bind; [by apply calls_attempt, lookup_name_keeps|]; intros r' Hr'.
  destruct r'; try done; apply IH.
Qed.

Lemma service_txt_keeps request output :
  keep (add_service_txt env self fuel request output) (λ _, True).
Proof using All.
  unfold add_service_txt; destruct (has_flag _ _); [by apply calls_ret|].
  eapply calling_keeps; [by apply record_keeps|..].
  - intros e; destruct e; first [by apply calls_ret|apply reply_error_keeps].
  - intros r Hr; eapply calls_bind; [by eapply parsed_keeps, extract_service_records_safe|].
    intros; by apply calls_ret.
Qed.

Lemma service_keeps p : keep (varlink_resolve_service env self fuel p) (λ _, True).
Proof using All.
  unfold varlink_resolve_service; eapply or_reply_keeps; [apply service_request_safe|].
  intros request _; eapply calling_keeps; [by apply record_keeps|..].
  - intros e; apply reply_error_keeps.
  - intros r Hr; eapply calls_bind; [by eapply parsed_keeps, extract_service_records_safe|].
    intros [records|] _; [|by apply calls_ret].
    eapply calls_bind; [apply service_entries_keep|]; intros entries _.
    case_bool_decide; [by apply calls_ret|apply service_txt_keeps].
Qed.

(** ** The configuration and the monitor *)

(** ** Methods *)

Context (version : str).

Lemma inv_packets sh t :
  inv sh → Forall (λ e, packet_ok (sn_response e)) (dns_cache_snapshot (sh_cache sh) t).
Proof using IterOrderOk0.
  intros [_ Hsh]; destruct (ri_cache _ _ _ Hsh) as [Hwf Hent].
  apply Forall_fmap, Forall_forall; intros [k e] Hin; cbn.
  apply elem_of_snapshot in Hin as [Hpeek _]; [|done]; by eapply from_server_packet, Hent.
Qed.

Lemma control_keeps b (m : rst unit) Q : keep m Q → keep (control b m) (λ _, True).
Proof.
  intros Hm; unfold control; destruct b; [|by apply calls_ret].
  eapply calls_bind; [exact Hm|]; intros; by apply calls_ret.
Qed.

Lemma call_method_keeps b e method p :
  keep (call_method env self fuel version b e method p) (λ _, True).
Proof using All.
  unfold call_method; repeat (case_bool_decide; [lazymatch goal with
    | |- calls _ _ (mret _) _ => by apply calls_ret
    | |- calls _ _ (varlink_resolve_hostname _ _ _ _) _ => apply hostname_keeps
    | |- calls _ _ (varlink_resolve_address _ _ _ _) _ => apply address_keeps
    | |- calls _ _ (varlink_resolve_record _ _ _ _) _ => apply record_reply_keeps
    | |- calls _ _ (varlink_resolve_service _ _ _ _) _ => apply service_keeps
    | |- calls _ _ (dump_dns_configuration _ _) _ => apply dump_configuration_keeps, (inv_env env fuel HE)
    | |- calls _ _ (monitor_dump_cache _ _) _ =>
        apply dump_cache_keeps; [apply (inv_env env fuel HE)|apply inv_packets]
    | |- calls _ _ (control _ (reset_statistics _)) _ =>
        eapply control_keeps; by eapply reset_statistics_keeps
    | |- calls _ _ (control _ (flush_cache _)) _ => eapply control_keeps; by eapply flush_keeps
    | |- calls _ _ (control _ _) _ => eapply control_keeps; by eapply reset_features_keeps
    | |- calls _ _ (monitor_dump_server_state _ _) _ =>
        apply dump_server_state_keeps, (inv_env env fuel HE)
    | |- calls _ _ (monitor_dump_statistics _) _ => apply dump_statistics_keeps, (inv_env env fuel HE)
    | |- calls _ _ (statistics _) _ => apply statistics_keeps, (inv_env env fuel HE)
    end|]).
  by apply calls_ret.
Qed.

Lemma dispatch_keeps input b e :
  str_ok input → keep (dispatch_for_endpoint env self fuel version input b e) (λ _, True).
Proof using All.
  intros Hi; unfold dispatch_for_endpoint; pose proof (json_parse_ok input Hi) as Hp.
  destruct (json_parse input) as [request| | |]; try done; [|by apply calls_ret].
  destruct (json_get request _ ≫= as_str) as [method|]; [|by apply calls_ret].
  destruct (allows e method); [apply call_method_keeps|by apply calls_ret].
Qed.

Lemma reply_keeps message b e :
  bytes_ok message → keep (reply_to env self fuel version message b e) (λ _, True).
Proof using All.
  intros Hm; unfold reply_to; destruct (from_utf8 message) as [text|] eqn:Ht; [|by apply calls_ret].
  apply from_utf8_iff in Ht as [_ Hs]; [|done]; by apply dispatch_keeps, scalar_str_ok.
Qed.
End handlers.

(** ** Messages *)

Lemma take_message_iff p m rest :
  take_message p = Some (m, rest) ↔ p = m ++ 0 :: rest ∧ 0 ∉ m.
Proof.
  revert m; induction p as [|b p IH]; intros m; cbn [take_message].
  { split; [done|]; intros [H _]; by destruct m. }
  destruct (Z.eqb_spec b 0) as [->|Hb].
  - split; [intros [= <- <-]; split; [done|apply not_elem_of_nil]|]; intros [H Hm].
    destruct m as [|x m]; [by injection H as ->|]; injection H as <- _; set_solver.
  - rewrite fmap_Some; split.
    + intros ([m' rest'] & Hx & [= -> ->]); apply IH in Hx as [-> Hm].
      split; [done|]; rewrite not_elem_of_cons; auto.
    + intros [H Hm]; destruct m as [|x m]; [by injection H as ->|]; injection H as -> ->.
      apply not_elem_of_cons in Hm as [_ Hm]; exists (m, rest); split; [by apply IH|done].
Qed.

Lemma take_message_None p : take_message p = None ↔ 0 ∉ p.
Proof.
  induction p as [|b p IH]; cbn [take_message]; [split; [intros _; apply not_elem_of_nil|done]|].
  rewrite not_elem_of_cons; destruct (Z.eqb_spec b 0) as [->|Hb]; [split; [done|naive_solver]|].
  rewrite fmap_None, IH; naive_solver.
Qed.

(** ** Methods always reply *)

Lemma or_reply_replies {A} (m : outcome Value A) (k : A → rst Value) :
  (∀ a, replies (k a)) → replies (or_reply m k).
Proof. intros; unfold or_reply; replies. Qed.

Lemma calling_replies {A} (m : rst A) f (k : A → rst Value) :
  (∀ e, replies (f e)) → (∀ a, replies (k a)) → replies (calling m f k).
Proof. intros; unfold calling; replies. Qed.

Lemma parsed_replies {A} (r : wres A) : replies (parsed r).
Proof. unfold parsed; replies. Qed.

Lemma collect_replies {A} (f : A → rst Value) l : (∀ x, replies (f x)) → replies (collect f l).
Proof. intros Hf; induction l; cbn [collect]; replies. Qed.

Lemma control_replies b (m : rst unit) : replies m → replies (control b m).
Proof. intros; unfold control; replies. Qed.

#[local] Hint Resolve or_reply_replies calling_replies parsed_replies collect_replies
  control_replies : replies.

Ltac replying := repeat first
  [ progress replies
  | apply or_reply_replies; intros
  | apply calling_replies; intros
  | apply collect_replies; intros
  | apply control_replies ].

Section replying.
Context (env : Env) (self : Resolver) (fuel : nat) `{io : !IterOrder XKey CacheEntry}.

Lemma service_entries_replies records request e :
  replies (resolve_service_entries env self fuel records request e).
Proof. revert e; induction records; intros e; cbn [resolve_service_entries]; replies. Qed.

Lemma resolving_replies p :
  replies (varlink_resolve_hostname env self fuel p) ∧
  replies (varlink_resolve_address env self fuel p) ∧
  replies (varlink_resolve_record env self fuel p) ∧
  replies (varlink_resolve_service env self fuel p).
Proof.
  unfold varlink_resolve_hostname, varlink_resolve_address, varlink_resolve_record,
    varlink_resolve_service, add_service_txt, reply_error.
  pose proof service_entries_replies; split_and!; replying.
Qed.

Lemma link_specs_replies i : replies (link_dns_specs env i).
Proof. unfold link_dns_specs, get_link; replies. Qed.

Lemma server_configuration_replies d a s : replies (dns_server_configuration env d a s).
Proof. unfold dns_server_configuration; replying. Qed.

Lemma dump_configuration_replies : replies (dump_dns_configuration env self).
Proof.
  unfold dump_dns_configuration, global_dns_configuration, link_dns_configuration, resolver_links,
    first_of.
  pose proof link_specs_replies; pose proof server_configuration_replies; replying.
Qed.

Lemma stats_replies : replies (stats env).
Proof. unfold stats, read_counter; replies. Qed.

Lemma dump_cache_replies : replies (monitor_dump_cache env self).
Proof.
  unfold monitor_dump_cache, resolver_cache_snapshot, monitor_cache_entry, resolver_links, now,
    cache_until_usec, boottime_usec, monitor_record, monitor_resource_record; replying.
Qed.

Lemma dump_server_state_replies : replies (monitor_dump_server_state env self).
Proof.
  unfold monitor_dump_server_state, server_state_snapshot.
  assert (∀ links, replies (link_descriptors env links)); [|replies].
  intros links; pose proof link_specs_replies; induction links; cbn [link_descriptors]; replies.
Qed.

Lemma call_method_replies version b e method p :
  replies (call_method env self fuel version b e method p).
Proof.
  destruct (resolving_replies p) as (? & ? & ? & ?).
  pose proof stats_replies; pose proof dump_cache_replies; pose proof dump_server_state_replies.
  pose proof dump_configuration_replies.
  unfold call_method, monitor_dump_statistics, statistics, flush_cache, reset_server_features,
    reset_statistics, count; replying.
Qed.

Lemma reply_to_replies version message b e : replies (reply_to env self fuel version message b e).
Proof.
  unfold reply_to, dispatch_for_endpoint; pose proof call_method_replies; replying.
Qed.
End replying.

(** ** Framing *)

(** The complete messages of a stream. *)
Definition messages (p : bytes) : list bytes := removelast (split_on 0 p).

Definition reply_text (v : Value) : bytes := as_bytes (to_json v).
Definition framed (vs : list Value) : bytes := concat ((λ v, reply_text v ++ [0]) <$> vs).

Lemma framed_cons v vs : framed (v :: vs) = (reply_text v ++ [0]) ++ framed vs.
Proof. done. Qed.

Lemma messages_none p : 0 ∉ p → messages p = [].
Proof. intros Hp; unfold messages; by rewrite (split_on_single _ _ Hp). Qed.

Lemma messages_cons m rest : 0 ∉ m → messages (m ++ 0 :: rest) = m :: messages rest.
Proof.
  intros Hm; unfold messages; rewrite (split_on_app_sep _ _ _ Hm).
  cbn [removelast]; pose proof (split_on_nonempty 0 rest); by destruct (split_on 0 rest).
Qed.

Lemma messages_Forall (P : Z → Prop) p : Forall P p → Forall (Forall P) (messages p).
Proof.
  intros Hp; apply (split_on_Forall P 0) in Hp; unfold messages.
  rewrite (app_removelast_last [] (split_on_nonempty 0 p)) in Hp; by apply Forall_app in Hp as [? _].
Qed.

Lemma show_digits_pos n v acc : Forall (λ c, 0 < c) acc → Forall (λ c, 0 < c) (show_digits n v acc).
Proof.
  revert v acc; induction n as [|n IH]; intros v acc Hacc; cbn [show_digits]; [done|].
  assert (Hd : 0 < 48 + v `mod` 10) by (pose proof (Z.mod_pos_bound v 10 ltac:(lia)); lia).
  case_match; [by constructor|]; apply IH; by constructor.
Qed.

Abbreviation positive := (Forall (λ c : Z, 0 < c)).

Lemma write_string_pos s : positive (write_string s).
Proof.
  unfold write_string; repeat apply Forall_app_2; try (by repeat constructor).
  apply Forall_bind, Forall_true; intros c; unfold compose.
  assert (Hhex : ∀ n, positive (hex_digit (Z.land n 15))).
  { intros n; pose proof (Z.land_ones n 4 ltac:(lia)) as Hn; change (Z.ones 4) with 15 in Hn.
    pose proof (Z.mod_pos_bound n (2 ^ 4) ltac:(lia)); unfold hex_digit.
    constructor; [|constructor]; destruct (_ <? _); lia. }
  unfold write_char; do 7 (match goal with |- Forall _ (if ?b then _ else _) => destruct b end;
    [by repeat constructor|]).
  destruct (c <? 32) eqn:Hc; boolp; [|constructor; [lia|constructor]].
  do 2 (constructor; [done|]); unfold show_hex4; repeat apply Forall_app_2; apply Hhex.
Qed.

Lemma join_pos sep pieces : positive sep → Forall positive pieces → positive (join_with sep pieces).
Proof.
  intros Hs; induction 1 as [|x l Hx Hl IH]; [done|]; cbn [join_with]; destruct l; [done|].
  by repeat apply Forall_app_2.
Qed.

Lemma to_json_pos v : positive (to_json v).
Proof.
  induction v as [|b|n|s|vs IH|o IH] using value_ind'; cbn [to_json].
  - by repeat constructor.
  - destruct b; by repeat constructor.
  - unfold show_i128; case_match; [constructor; [done|]|]; by apply show_digits_pos.
  - apply write_string_pos.
  - repeat apply Forall_app_2; try (by repeat constructor).
    apply join_pos; [by repeat constructor|]; by apply Forall_map.
  - repeat apply Forall_app_2; try (by repeat constructor).
    apply join_pos; [by repeat constructor|]; apply Forall_map.
    eapply Forall_impl; [exact IH|]; intros [k v] Hv.
    apply Forall_app_2; [apply write_string_pos|by constructor].
Qed.

Lemma reply_text_nonzero v : 0 ∉ reply_text v.
Proof.
  intros H; unfold reply_text, as_bytes in H; apply list_elem_of_bind in H as (c & Hc & Hin).
  pose proof (to_json_pos v) as Hp; rewrite Forall_forall in Hp; specialize (Hp c Hin).
  assert (positive (char_bytes c)) as Hpos; [|rewrite Forall_forall in Hpos; specialize (Hpos 0 Hc); lia].
  assert (∀ a b, 0 ≤ a → 0 < b → 0 ≤ a / b) by (intros; by apply Z.div_pos).
  pose proof (λ a, Z.mod_pos_bound a 64 ltac:(lia)) as Hmod.
  unfold char_bytes; repeat case_match; boolp; repeat apply Forall_cons_2; try apply Forall_nil_2;
    try done; match goal with
    | |- 0 < _ + _ `mod` _ => pose proof (Hmod c); pose proof (Hmod (c / 64));
        pose proof (Hmod (c / 4096)); lia
    | |- 0 < _ + c / ?k => specialize (H c k); lia
    end.
Qed.

Lemma messages_framed vs : messages (framed vs) = reply_text <$> vs.
Proof.
  induction vs as [|v vs IH]; [done|]; unfold framed; cbn [fmap list_fmap concat].
  rewrite <-app_assoc; change ([0] ++ ?x) with (0 :: x).
  rewrite messages_cons by apply reply_text_nonzero; by f_equal.
Qed.

(** What follows the last NUL. *)
Definition unfinished (p : bytes) : bytes := default [] (last (split_on 0 p)).

Lemma unfinished_none p : 0 ∉ p → unfinished p = p.
Proof. intros Hp; unfold unfinished; by rewrite (split_on_single _ _ Hp). Qed.

Lemma unfinished_message m p : 0 ∉ m → unfinished (m ++ 0 :: p) = unfinished p.
Proof.
  intros Hm; unfold unfinished; rewrite (split_on_app_sep _ _ _ Hm).
  pose proof (split_on_nonempty 0 p); by destruct (split_on 0 p).
Qed.

(** ** Connections *)

Section serving.
Context (env : Env) (self : Resolver) (fuel : nat) `{io : !IterOrder XKey CacheEntry}.
Context (version : str) (os_write : nat → bytes → World.io unit).

Abbreviation reply := (reply_to env self fuel version).
Abbreviation loop := (serve_loop env self fuel version os_write).

(** The messages one after the other; each reply is written in two parts. *)
Fixpoint answer_all (b : bool) (e : VarlinkEndpoint) (ms : list bytes) : rst (list Value) :=
  match ms with
  | [] => mret []
  | m :: ms =>
      v ← reply m b e;
      _ ← next_event (λ _, ());
      _ ← next_event (λ _, ());
      vs ← answer_all b e ms;
      mret (v :: vs)
  end.

Lemma loop_answers (Hwrite : ∀ k p, os_write k p = inr ()) n b e pending chunks written w :
  Forall (λ c, c ≠ []) chunks → len (pending ++ concat chunks) ≤ MAX_MESSAGE_SIZE →
  (length chunks + length (pending ++ concat chunks) < n)%nat →
  loop n b e pending (inr <$> chunks) written w =
  (vs ← answer_all b e (messages (pending ++ concat chunks));
   mret (mk_served (written ++ framed vs) None)) w.
Proof.
  revert pending chunks written w; induction n as [|n IH]; intros pending chunks written w Hc Hl Hn;
    [lia|].
  cbn [serve_loop]; destruct (take_message pending) as [[m rest]|] eqn:Ht.
  - apply take_message_iff in Ht as [-> Hm]; rewrite <-app_assoc in *; cbn [app] in *.
    rewrite messages_cons by done; cbn [answer_all]; unfold mbind, st_bind, next_event.
    destruct (reply m b e w) as [[v| | |] w1]; [|done..]; cbn [fst snd]; rewrite !Hwrite.
    rewrite (IH rest chunks); [|done|..].
    2-3: unfold len in *; rewrite !length_app in Hn, Hl |- *; cbn [length] in *; rewrite length_app in Hn, Hl; lia.
    unfold mbind, st_bind; destruct (answer_all b e _ _) as [[vs| | |] w2]; [|done..].
    unfold mret, st_ret; by rewrite framed_cons, <-!app_assoc.
  - apply take_message_None in Ht; destruct Hc as [|c chunks Hc Hcs]; cbn [fmap list_fmap concat] in *.
    + rewrite app_nil_r, messages_none by done; unfold mbind, st_bind, mret, st_ret; cbn.
      unfold framed; cbn; by rewrite app_nil_r.
    + destruct c as [|x c]; [done|].
      rewrite app_assoc in Hl, Hn |- *.
      destruct (MAX_MESSAGE_SIZE <? len (pending ++ x :: c)) eqn:Hlen; boolp.
      { unfold len in Hl, Hlen; rewrite length_app in Hl; lia. }
      apply IH; [done|done|]; cbn [length] in Hn; lia.
Qed.

(** *** Any reads and any writes *)

(** What a connection takes in, [stream] before [reads], and the error that ends
    it: that of a read, or that of more than fits after the last NUL. *)
Fixpoint taken (stream : bytes) (reads : list (World.io bytes)) : bytes * option IoError :=
  match reads with
  | [] | inr [] :: _ => (stream, None)
  | inl error :: _ => (stream, Some error)
  | inr chunk :: reads =>
      if MAX_MESSAGE_SIZE <? len (unfinished stream ++ chunk) then (stream, Some too_large)
      else taken (stream ++ chunk) reads
  end.

(** The messages one after the other, until a write fails. *)
Fixpoint serve_messages (b : bool) (e : VarlinkEndpoint) (ms : list bytes) (ending : option IoError)
    (written : bytes) : rst served :=
  match ms with
  | [] => mret (mk_served written ending)
  | m :: ms =>
      v ← reply m b e;
      r ← next_event (λ k, os_write k (reply_text v));
      match r with
      | inl error => mret (mk_served written (Some error))
      | inr _ =>
          r ← next_event (λ k, os_write k [0]);
          match r with
          | inl error => mret (mk_served (written ++ reply_text v) (Some error))
          | inr _ => serve_messages b e ms ending (written ++ reply_text v ++ [0])
          end
      end
  end.

Lemma taken_message m p reads :
  0 ∉ m → taken (m ++ 0 :: p) reads = (m ++ 0 :: (taken p reads).1, (taken p reads).2).
Proof.
  intros Hm; revert p; induction reads as [|[err|[|x c]] reads IH]; intros p; cbn [taken]; try done.
  rewrite unfinished_message by done; case_match; [done|].
  rewrite <- app_assoc; cbn [app]; apply IH.
Qed.

Lemma loop_serves n b e pending reads written w :
  (length reads + length pending + input_size reads < n)%nat →
  loop n b e pending reads written w =
  serve_messages b e (messages (taken pending reads).1) (taken pending reads).2 written w.
Proof.
  revert pending reads written w; induction n as [|n IH]; intros pending reads written w Hn; [lia|].
  cbn [serve_loop]; destruct (take_message pending) as [[m rest]|] eqn:Ht.
  - apply take_message_iff in Ht as [-> Hm]; rewrite taken_message by done; cbn [fst snd].
    rewrite messages_cons by done; cbn [serve_messages]; unfold mbind, st_bind, next_event.
    destruct (reply m b e w) as [[v| | |] w1]; [|done..]; cbn [fst snd]; unfold reply_text.
    destruct (os_write _ _) as [err|[]]; [done|]; destruct (os_write _ _) as [err|[]]; [done|].
    apply IH; rewrite length_app in Hn; cbn [length] in Hn; lia.
  - apply take_message_None in Ht; destruct reads as [|[err|[|x c]] reads]; cbn [taken fst snd];
      try (by rewrite messages_none).
    rewrite unfinished_none by done; case_match; cbn [fst snd]; [by rewrite messages_none|].
    apply IH; unfold input_size, list_sum in *; rewrite length_app; cbn in Hn |- *; lia.
Qed.

(** How a connection can end, with [ending] once every message is answered. *)
Inductive connection_end (b : bool) (e : VarlinkEndpoint) (ms : list bytes) (ending : option IoError)
    (w : World) : served → World → Prop :=
  | all_answered vs w' :
      answer_all b e ms w = (Ok vs, w') → length vs = length ms →
      connection_end b e ms ending w (mk_served (framed vs) ending) w'
  | reply_unwritten ms1 m ms2 vs w1 v w2 error :
      ms = ms1 ++ m :: ms2 → answer_all b e ms1 w = (Ok vs, w1) → length vs = length ms1 →
      reply m b e w1 = (Ok v, w2) → os_write (w_events w2) (reply_text v) = inl error →
      connection_end b e ms ending w (mk_served (framed vs) (Some error))
        { w2 with w_events := S (w_events w2) }
  | nul_unwritten ms1 m ms2 vs w1 v w2 error :
      ms = ms1 ++ m :: ms2 → answer_all b e ms1 w = (Ok vs, w1) → length vs = length ms1 →
      reply m b e w1 = (Ok v, w2) → os_write (S (w_events w2)) [0] = inl error →
      connection_end b e ms ending w (mk_served (framed vs ++ reply_text v) (Some error))
        { w2 with w_events := S (S (w_events w2)) }.

(** A message that was answered comes first. *)
Lemma connection_end_cons b e m ms ending w v w1 served w' :
  reply m b e w = (Ok v, w1) →
  connection_end b e ms ending { w1 with w_events := S (S (w_events w1)) } served w' →
  connection_end b e (m :: ms) ending w
    (mk_served (reply_text v ++ [0] ++ sv_written served) (sv_error served)) w'.
Proof.
  intros Hv Hend; assert (∀ ms1 vs w2,
    answer_all b e ms1 { w1 with w_events := S (S (w_events w1)) } = (Ok vs, w2) →
    answer_all b e (m :: ms1) w = (Ok (v :: vs), w2)) as Hcons.
  { intros ms1 vs w2 Ha; cbn [answer_all]; unfold mbind, st_bind, next_event; rewrite Hv.
    cbn [fst snd]; match goal with |- context [answer_all b e ms1 ?x] =>
      change x with { w1 with w_events := S (S (w_events w1)) } end; by rewrite Ha. }
  destruct Hend as [vs w' Ha Hl|ms1 m' ms2 vs w2 v' w3 err -> Ha Hl Hr Hw|ms1 m' ms2 vs w2 v' w3 err -> Ha Hl Hr Hw];
    cbn [sv_written sv_error].
  - rewrite app_assoc, <- framed_cons; apply all_answered; [by apply Hcons|cbn; by f_equal].
  - rewrite app_assoc, <- framed_cons; eapply (reply_unwritten _ _ _ _ _ (m :: ms1));
      [done|by apply Hcons|cbn; by f_equal|done|done].
  - rewrite !app_assoc, <- (framed_cons v vs); eapply (nul_unwritten _ _ _ _ _ (m :: ms1));
      [done|by apply Hcons|cbn; by f_equal|done|done].
Qed.

Lemma serve_messages_ends b e ms ending : ∀ written w served w',
  serve_messages b e ms ending written w = (Ok served, w') →
  ∃ out, sv_written served = written ++ out ∧
    connection_end b e ms ending w (mk_served out (sv_error served)) w'.
Proof.
  induction ms as [|m ms IH]; intros written w served w'; cbn [serve_messages].
  { intros [= <- <-]; exists []; rewrite app_nil_r; split; [done|]; by apply (all_answered _ _ _ _ _ []). }
  unfold mbind, st_bind, next_event; destruct (reply m b e w) as [[v| | |] w1] eqn:Hv; try done.
  cbn [fst snd]; destruct (os_write _ (reply_text v)) as [err|[]] eqn:H1.
  { intros [= <- <-]; exists []; rewrite app_nil_r; split; [done|].
    by apply (reply_unwritten _ _ _ _ _ [] m ms [] w v w1). }
  cbn [w_events] in *; destruct (os_write _ [0]) as [err|[]] eqn:H2.
  { intros [= <- <-]; exists (reply_text v); split; [done|].
    by apply (nul_unwritten _ _ _ _ _ [] m ms [] w v w1). }
  intros Hs; apply IH in Hs as (out & Hout & Hend).
  exists (reply_text v ++ [0] ++ out); split; [by rewrite Hout, <- !app_assoc|].
  exact (connection_end_cons _ _ _ _ _ _ _ _ _ _ Hv Hend).
Qed.

Lemma answer_all_replies b e ms : replies (answer_all b e ms).
Proof. pose proof reply_to_replies; induction ms; cbn [answer_all]; replies. Qed.

Lemma answer_all_length b e ms w vs w' :
  answer_all b e ms w = (Ok vs, w') → length vs = length ms.
Proof.
  revert w vs w'; induction ms as [|m ms IH]; intros w vs w'; cbn [answer_all]; [by intros [= <- _]|].
  unfold mbind, st_bind, next_event; destruct (reply m b e w) as [[v| | |] w1]; try done.
  match goal with |- context [answer_all b e ms ?w2] =>
    destruct (answer_all b e ms w2) as [[vs'| | |] w3] eqn:Hr end; try done.
  intros [= <- _]; cbn; f_equal; by eapply IH.
Qed.

(** What keeps an invariant at each reply keeps it over the connection. *)
Section kept.
Context (I : Shared → Prop) (P : sent → Prop) (b : bool) (e : VarlinkEndpoint).
Context (Hreply : ∀ m, bytes_ok m → calls I P (reply m b e) (λ _, True)).

Lemma answer_all_keeps ms : Forall bytes_ok ms → calls I P (answer_all b e ms) (λ _, True).
Proof using Hreply.
  induction 1 as [|m ms Hm Hms IH]; cbn [answer_all]; [by apply calls_ret|].
  eapply calls_bind; [by apply Hreply|]; intros v _.
  do 2 (eapply calls_bind; [eapply calls_hoare, hoare_next_event|]; intros ? _).
  eapply calls_bind; [exact IH|]; intros; by apply calls_ret.
Qed.

Definition reads_ok (reads : list (World.io bytes)) : Prop :=
  Forall (λ r, match r with inr c => bytes_ok c | inl _ => True end) reads.

Lemma loop_keeps n pending reads written :
  bytes_ok pending → reads_ok reads →
  (length reads + length pending + input_size reads < n)%nat →
  calls I P (loop n b e pending reads written) (λ _, True).
Proof using Hreply.
  revert pending reads written; induction n as [|n IH]; intros pending reads written Hp Hr Hn; [lia|].
  cbn [serve_loop]; destruct (take_message pending) as [[m rest]|] eqn:Ht.
  - apply take_message_iff in Ht as [-> _]; apply Forall_app in Hp as [Hm Hp].
    inversion_clear Hp as [|?? _ Hrest]; rewrite length_app in Hn; cbn [length] in Hn.
    eapply calls_bind; [by apply Hreply|]; intros v _.
    eapply calls_bind; [eapply calls_hoare, hoare_next_event|]; intros [err|[]] _; [by apply calls_ret|].
    eapply calls_bind; [eapply calls_hoare, hoare_next_event|]; intros [err|[]] _; [by apply calls_ret|].
    apply IH; [done..|lia].
  - destruct Hr as [|[err|[|x c]] reads Hc Hr]; try (by apply calls_ret).
    destruct (MAX_MESSAGE_SIZE <? _); [by apply calls_ret|]; apply IH; [by apply Forall_app_2|done|].
    unfold input_size, list_sum in *; rewrite length_app; cbn in Hn |- *; lia.
Qed.
End kept.

Lemma loop_replies b e n pending reads written : replies (loop n b e pending reads written).
Proof.
  pose proof reply_to_replies; revert pending reads written; induction n; intros; cbn [serve_loop];
    replies.
Qed.
End serving.

(** *** The monitor *)

Section monitoring.
Context (env : Env) (self : Resolver) (fuel : nat) `{io : !IterOrder XKey CacheEntry}.
Context (version : str) (I : Shared → Prop) (P : sent → Prop).
Context (Hothers : ∀ n sh, I sh → I (others env n sh)).
Context (Hpackets : ∀ sh t, I sh →
  Forall (λ e, packet_ok (sn_response e)) (dns_cache_snapshot (sh_cache sh) t)).

Lemma monitor_method_reads method p :
  allows EndMonitor method →
  calls I P (call_method env self fuel version false EndMonitor method p) (λ _, True).
Proof using Hothers Hpackets.
  intros Ha; unfold call_method, control; repeat (case_bool_decide as Hm; [lazymatch goal with
    | |- calls _ _ (mret _) _ => by apply calls_ret
    | |- calls _ _ (monitor_dump_cache _ _) _ => by apply dump_cache_keeps
    | |- calls _ _ (monitor_dump_server_state _ _) _ => by apply dump_server_state_keeps
    | |- calls _ _ (monitor_dump_statistics _) _ => by apply dump_statistics_keeps
    | |- _ => subst method; by vm_compute in Ha
    end|clear Hm]).
  by apply calls_ret.
Qed.

Lemma monitor_reply_reads m :
  bytes_ok m → calls I P (reply_to env self fuel version m false EndMonitor) (λ _, True).
Proof using Hothers Hpackets.
  intros Hm; unfold reply_to; destruct (from_utf8 m) as [text|] eqn:Ht; [|by apply calls_ret].
  apply from_utf8_iff in Ht as [_ Hs]; [|done]; unfold dispatch_for_endpoint.
  pose proof (json_parse_ok text (scalar_str_ok _ Hs)) as Hp.
  destruct (json_parse text) as [request| | |]; try done; [|by apply calls_ret].
  destruct (json_get request _ ≫= as_str) as [method|]; [|by apply calls_ret].
  destruct (allows EndMonitor method) eqn:Ha; [|by apply calls_ret].
  apply monitor_method_reads; by rewrite Ha.
Qed.
End monitoring.

Lemma replies_ok {A} (m : rst A) I P w :
  replies m → calls I P m (λ _, True) → I (w_shared w) →
  ∃ a w', m w = (Ok a, w') ∧ kept I P w w'.
Proof.
  intros Hr Hm Hw; specialize (Hm w Hw); specialize (Hr w); unfold swp in Hm.
  destruct (m w) as [[a|e| |] w']; [|by specialize (Hr e)|done..]; exists a, w'; by destruct Hm.
Qed.

(** ** Base64 *)

(** The decoder of RFC 4648: four characters for three octets, padded. *)
Definition base64_value (c : Z) : option Z :=
  (λ x, Z.of_nat x.1) <$> list_find (λ x, x = c) BASE64_ALPHABET.

Fixpoint base64_decode (s : str) : option bytes :=
  match s with
  | [] => Some []
  | w :: x :: y :: z :: rest =>
      i ← base64_value w;
      j ← base64_value x;
      if z =? 61 then
        if bool_decide (rest = []) then
          if y =? 61 then
            if j mod 16 =? 0 then Some [i * 4 + j / 16] else None
          else
            k ← base64_value y;
            if k mod 4 =? 0 then Some [i * 4 + j / 16; j mod 16 * 16 + k / 4] else None
        else None
      else
        k ← base64_value y;
        l ← base64_value z;
        bs ← base64_decode rest;
        Some (i * 4 + j / 16 :: j mod 16 * 16 + k / 4 :: k mod 4 * 64 + l :: bs)
  | _ => None
  end.

Lemma base64_value_char i :
  0 ≤ i < 64 → base64_value (base64_char i) = Some i ∧ (base64_char i =? 61) = false.
Proof.
  intros Hi; assert (Hall : Forall (λ i, base64_value (base64_char i) = Some i ∧
    (base64_char i =? 61) = false) (Z.of_nat <$> seq 0 64)).
  { repeat (constructor; [by vm_compute|]); constructor. }
  rewrite Forall_forall in Hall; apply Hall, list_elem_of_fmap.
  exists (Z.to_nat i); split; [lia|]; apply elem_of_seq; lia.
Qed.

Lemma base64_value_of i : 0 ≤ i < 64 → base64_value (base64_char i) = Some i.
Proof. intros; by apply base64_value_char. Qed.

Lemma base64_not_pad i : 0 ≤ i < 64 → (base64_char i =? 61) = false.
Proof. intros; by apply base64_value_char. Qed.

Lemma lor_shift a k b : 0 ≤ k → 0 ≤ b < 2 ^ k → Z.lor (Z.shiftl a k) b = a * 2 ^ k + b.
Proof.
  intros Hk Hb; rewrite <-(Z.shiftl_mul_pow2 _ _ Hk).
  enough (Hz : Z.land (Z.shiftl a k) b = 0) by (by rewrite Z.add_nocarry_lxor, Z.lxor_lor).
  destruct (decide (b = 0)) as [->|]; [apply Z.land_0_r|].
  apply Z.bits_inj'; intros i Hi; rewrite Z.land_spec, Z.bits_0.
  destruct (decide (i < k)); [by rewrite Z.shiftl_spec_low by lia|].
  rewrite (Z.bits_above_log2 b), andb_false_r; [done|lia|].
  apply Z.log2_lt_pow2; [lia|].
  eapply Z.lt_le_trans; [apply Hb|]; apply Z.pow_le_mono_r; lia.
Qed.

(** The four indices of three octets. *)
Lemma base64_indices a b c :
  is_u8 a → is_u8 b → is_u8 c →
  Z.shiftr a 2 = a / 4 ∧
  Z.lor (Z.shiftl (Z.land a 3) 4) (Z.shiftr b 4) = a mod 4 * 16 + b / 16 ∧
  Z.lor (Z.shiftl (Z.land b 15) 2) (Z.shiftr c 6) = b mod 16 * 4 + c / 64 ∧
  Z.land c 63 = c mod 64.
Proof.
  unfold is_u8; intros Ha Hb Hc.
  change 3 with (Z.ones 2); change 15 with (Z.ones 4); change 63 with (Z.ones 6).
  rewrite !Z.shiftr_div_pow2, !Z.land_ones by lia.
  rewrite !lor_shift by (first [lia | split; [apply Z.div_pos|apply Z.div_lt_upper_bound]; lia]).
  done.
Qed.

Ltac division := Z.to_euclidean_division_equations; lia.

Lemma base64_decodes p : bytes_ok p → base64_decode (base64 p) = Some p.
Proof.
  revert p; fix IH 1; intros [|a [|b [|c rest]]] Hp; [done|..].
  all: repeat (apply Forall_cons in Hp as [? Hp]).
  - destruct (base64_indices a 0 0) as (Hi & Hj & _ & _); [done..|]; cbn [base64].
    rewrite Hi, Hj; clear Hi Hj; cbn [base64_decode]; unfold is_u8 in *.
    rewrite !base64_value_of by division; cbn.
    rewrite (proj2 (Z.eqb_eq _ 0)) by division; do 2 f_equal; division.
  - destruct (base64_indices a b 0) as (Hi & Hj & Hk & _); [done..|]; cbn [base64].
    rewrite Hi, Hj, Hk; clear Hi Hj Hk; cbn [base64_decode]; unfold is_u8 in *.
    rewrite !base64_value_of, base64_not_pad by division; cbn.
    rewrite (proj2 (Z.eqb_eq _ 0)) by division; do 2 f_equal; [|f_equal]; division.
  - destruct (base64_indices a b c) as (Hi & Hj & Hk & Hl); [done..|]; cbn [base64].
    rewrite Hi, Hj, Hk, Hl; clear Hi Hj Hk Hl; cbn [base64_decode]; unfold is_u8 in *.
    rewrite !base64_value_of, base64_not_pad by division.
    rewrite (IH rest Hp); cbn; do 2 f_equal; [|f_equal; [|f_equal]]; division.
Qed.

(** ** Properties *)


Definition example_message : bytes :=
  as_bytes (lit "{") ++ [34] ++ as_bytes (lit "method") ++ [34; 58; 34] ++
  as_bytes (lit "org.varlink.service.GetInfo") ++ [34] ++ as_bytes (lit "}").

(** The first read ends inside the first message. *)
Definition example_chunks : list bytes :=
  [take 9 example_message; drop 9 example_message ++ [0; 255; 0]; example_message].

Lemma example_chunks_ok : Forall (λ c, c ≠ [] ∧ bytes_ok c) example_chunks.
Proof.
  do 3 (constructor; [split; [done|by apply packet_okb_ok]|]); constructor.
Qed.

Lemma example_reads_ok : reads_ok (inr <$> example_chunks).
Proof. apply Forall_fmap; eapply Forall_impl; [apply example_chunks_ok|]; by intros c [_ Hc]. Qed.

Lemma example_taken :
  messages (taken [] (inr <$> example_chunks)).1 = [example_message; [255]] ∧
  (taken [] (inr <$> example_chunks)).2 = None.
Proof. by vm_compute. Qed.


(** C5: the monitor only looks.  Whatever octets a client that is not root sends
    to the monitor's socket, however they are cut into reads and whether or not
    the replies can be written, the connection ends, no packet is sent to a
    server, and the resolver's state, cache, statistics and server features
    included, is what it was. *)
Theorem varlink_monitor_readonly env self fuel (io : IterOrder XKey CacheEntry) version os_write
    timeout peer reads w :
  IterOrderOk io → (∀ n sh, others env n sh = sh) → peer ≠ inr 0 → reads_ok reads →
  resolver_inv table_wf None (w_shared w) →
  ∃ served w',
    serve_connection env self fuel version os_write timeout peer reads EndMonitor w = (Ok served, w') ∧
    w_shared w' = w_shared w ∧ w_sent w' = w_sent w.
Proof.
  intros Hio Hothers Hpeer Hreads Hw.
  assert (Hc : peer_can_control peer = false).
  { destruct peer as [|uid]; [done|]; apply Z.eqb_neq; congruence. }
  unfold serve_connection; rewrite Hc.
  destruct timeout as [err|[]]; [by exists (mk_served [] (Some err)), w|].
  assert (Hm : ∀ m, bytes_ok m → calls (λ sh, sh = w_shared w) (λ _, False)
    (reply_to env self fuel version m false EndMonitor) (λ _, True)).
  { intros m; apply monitor_reply_reads; [by intros n sh ->|]; intros sh t ->.
    by apply inv_packets, inv_iff. }
  assert (Hn : (length reads + length (@nil Z) + input_size reads <
    S (length reads + input_size reads))%nat) by (cbn; lia).
  destruct (replies_ok _ _ _ w
    (loop_replies env self fuel version os_write false EndMonitor
       (S (length reads + input_size reads)) [] reads [])
    (loop_keeps _ _ _ _ _ _ _ _ _ Hm _ _ _ [] (Forall_nil_2 _) Hreads Hn) eq_refl)
    as (s & w' & Hrun & Hsh & l & Hl & HF).
  exists s, w'; split_and!; [exact Hrun|done|]; rewrite Hl; destruct HF; [apply app_nil_r|done].
Qed.

Lemma varlink_monitor_readonly_witness :
  let env := example_env (λ _, id) (example_reply 128) in
  let self := example_resolver AllowDowngrade TlsNo in
  let w := finite_world example_table in
  ∃ served w',
    serve_connection (order := map_order) env self 200 (lit "1") (λ _ _, inr ()) (inr ()) (inr 1000)
      (inr <$> example_chunks) EndMonitor w = (Ok served, w') ∧
    w_shared w' = w_shared w ∧ w_sent w' = w_sent w.
Proof.
  apply (varlink_monitor_readonly (example_env (λ _, id) (example_reply 128))
    (example_resolver AllowDowngrade TlsNo) 200 map_order (lit "1") (λ _ _, inr ()) (inr ()) (inr 1000)
    (inr <$> example_chunks) (finite_world example_table) map_order_ok); [done|congruence| |].
  - apply example_reads_ok.
  - apply example_inv, example_table_wf.
Defined.

(** Records reach the client octet for octet.  The text under [raw] in a reply
    decodes to the octets of the record, and the link is named exactly when the
    query was for one. *)
Theorem varlink_record_roundtrip ifindex r :
  bytes_ok (a_raw r) →
  ∃ text, json_get (varlink_record ifindex r) (lit "raw") = Some (String text) ∧
    base64_decode text = Some (a_raw r) ∧
    json_get (varlink_record ifindex r) (lit "ifindex") =
      if 0 <? ifindex then Some (Number ifindex) else None.
Proof.
  intros Hr; exists (base64 (a_raw r)); split_and!; [|by apply base64_decodes|];
    unfold varlink_record; by destruct (0 <? ifindex).
Qed.

Lemma varlink_record_roundtrip_witness :
  ∃ text, json_get (varlink_record 2 (mk_answer (mk_name (lit "a") [1; 97; 0]) 1 1 60 [1; 97; 0; 255]))
            (lit "raw") = Some (String text) ∧ base64_decode text = Some [1; 97; 0; 255] ∧
    json_get (varlink_record 2 (mk_answer (mk_name (lit "a") [1; 97; 0]) 1 1 60 [1; 97; 0; 255]))
      (lit "ifindex") = Some (Number 2).
Proof.
  apply (varlink_record_roundtrip 2
    (mk_answer (mk_name (lit "a") [1; 97; 0]) 1 1 60 [1; 97; 0; 255])).
  by apply (packet_okb_ok [1; 97; 0; 255]).
Defined.
