(* ===== verification/DbusFacts.v ===== *)
(** * D-Bus: theorems

    Every call is answered by a value or a D-Bus error and keeps the invariant of
    the resolver; the servers set on a link are those its properties show; the
    Link objects are those of the links. *)

From S2P Require Import Prelude Stateful Text Net Sorting ConfigTypes Config Codec Names.
From S2P Require Import CodecFacts Packet PacketFacts LocalFacts Records RecordsFacts CacheX Cache.
From S2P Require Import Routing RoutingFacts Edns Transport Policy Hosts Json JsonFacts World.
From S2P Require Import WorldFacts Servers Links LinksFacts Exchange ExchangeFacts ResolverInv.
From S2P Require Import Query QueryFacts Lookup LookupFacts ResolvConf Varlink VarlinkFacts Dbus.

(** ** Calls *)

Section calls.
Context (strerror : Z → str) (object_path : str → str + str).
Context (env : Env) (self : Resolver) (fuel : nat).
Context `{io : !IterOrder XKey CacheEntry, !IterOrderOk io}.
Context (HE : query_env env fuel table_wf) (HW : waits_ok env fuel table_wf).

Abbreviation inv := (features_inv (λ _ _, True) (resolver_inv table_wf None)).
Abbreviation keep m := (calls inv (λ _, True) m (λ _, True)).
Abbreviation kept m := (keep m ∧ replies m).

Lemma kept_ret {A} (a : A) : kept (mret a : rst A).
Proof. split; [by apply calls_ret|apply replies_ret]. Qed.

Lemma kept_bind {A B} (m : rst A) (k : A → rst B) : kept m → (∀ a, kept (k a)) → kept (m ≫= k).
Proof.
  intros [Hm Hr] Hk; split; [eapply calls_bind; [exact Hm|]; intros; apply Hk|].
  apply replies_bind; [done|]; intros; apply Hk.
Qed.

Lemma kept_error {A B} (r : dres A) (k : A → rst (dres B)) :
  (∀ a, r = inr a → kept (k a)) → kept (or_error r k).
Proof. intros Hk; unfold or_error; destruct r; [apply kept_ret|by apply Hk]. Qed.

Lemma kept_resolved {A B} (m : rst A) (k : A → rst (dres B)) (Q : A → Prop) :
  calls inv (λ _, True) m Q → (∀ a, Q a → keep (k a)) → (∀ a, replies (k a)) →
  kept (resolved strerror m k).
Proof.
  intros Hm Hk Hr; unfold resolved; split.
  - eapply calls_bind; [by apply calls_attempt|]; intros [] Ha; try done; [by apply Hk|].
    by apply calls_ret.
  - replies.
Qed.

Lemma kept_returned {A} (m : rst A) : keep m → kept (returned strerror m).
Proof.
  intros Hm; unfold returned; eapply kept_resolved; [exact Hm|intros; apply kept_ret..].
Qed.

Lemma or_invalid_keeps {A B} (r : wres A) (k : A → rst (dres B)) :
  safe r → (∀ a, keep (k a)) → keep (or_invalid_reply r k).
Proof. intros Hr Hk; destruct r; try done; [apply Hk|by apply calls_ret]. Qed.

Lemma or_invalid_replies {A B} (r : wres A) (k : A → rst (dres B)) :
  (∀ a, replies (k a)) → replies (or_invalid_reply r k).
Proof. intros; unfold or_invalid_reply; replies. Qed.

Lemma kept_answered {A} (m : rst (dres A)) : kept m → kept (answered m).
Proof. intros; apply kept_bind; [done|]; intros; apply kept_ret. Qed.

Lemma kept_value {A} (m : rst A) : kept m → kept (value m).
Proof. intros; apply kept_bind; [done|]; intros; apply kept_ret. Qed.

Lemma kept_reading {A} (f : Shared → A) : kept (reading env f).
Proof using HE. split; [apply read_calls, (inv_env env fuel HE)|apply replies_reading]. Qed.

Lemma kept_try {A} (m : rst A) : keep m → kept (try_io m).
Proof. intros; split; [by eapply try_keeps|apply try_replies]. Qed.

(** *** Resolving *)

Lemma service_loop_keeps records ifindex family flags s :
  kept (service_loop env self fuel records ifindex family flags s).
Proof using All.
  revert s; induction records as [|r records IH]; intros s; cbn [service_loop]; [apply kept_ret|].
  case_bool_decide; [apply IH|]; destruct (_ =? 0); [|apply IH]; split.
  - eapply calls_bind; [by apply calls_attempt, lookup_name_keeps|]; intros [] Ha; try done; apply IH.
  - apply replies_bind; [apply replies_attempt|]; intros []; try done; apply IH.
Qed.

Lemma service_txt_keeps' owner ifindex flags :
  kept (service_txt_data strerror env self fuel owner ifindex flags).
Proof using All.
  unfold service_txt_data; destruct (negb _); [apply kept_ret|]; split.
  - eapply calls_bind; [by apply calls_attempt, record_keeps|]; intros [response|e| |] Hr; try done.
    + apply or_invalid_keeps; [by apply extract_service_records_safe|]; intros; by apply calls_ret.
    + destruct e; by apply calls_ret.
  - apply replies_bind; [apply replies_attempt|]; intros [response|e| |]; try done.
    + apply or_invalid_replies; intros; apply replies_ret.
    + by destruct e.
Qed.

Lemma service_reply_keeps ifindex name service_type domain family flags :
  kept (resolve_service_reply strerror env self fuel ifindex name service_type domain family flags).
Proof using All.
  unfold resolve_service_reply; apply kept_error; intros [[[owner cname] ctype] cdomain] _.
  assert (∀ response (records : ServiceRecords), kept (
    s ← service_loop env self fuel (service_srv records) ifindex family (service_flags self flags)
          (mk_service_state [] false None);
    if bool_decide (sv_services s = []) then mret (no_services strerror s)
    else txt ← service_txt_data strerror env self fuel owner ifindex (service_flags self flags);
         or_error txt (λ txt, mret (inr (sv_services s, txt, cname, ctype, cdomain,
                                         dbus_response_flags response)))
    : rst (dres (list _ * list bytes * str * str * str * Z)))) as Hk.
  { intros response records; apply kept_bind; [apply service_loop_keeps|]; intros s.
    case_bool_decide; [apply kept_ret|]; apply kept_bind; [apply service_txt_keeps'|]; intros txt.
    apply kept_error; intros; apply kept_ret. }
  eapply kept_resolved; [by apply record_keeps|..].
  - intros response Hr; apply or_invalid_keeps; [by apply extract_service_records_safe|].
    intros; apply Hk.
  - intros response; apply or_invalid_replies; intros; apply Hk.
Qed.

Lemma record_call_keeps ifindex name class rr_type flags :
  is_u16 class → is_u16 rr_type →
  kept (dbus_resolve_record strerror env self fuel ifindex name class rr_type flags).
Proof using All.
  intros Hc Ht; unfold dbus_resolve_record; apply kept_error; intros _ _.
  eapply kept_resolved; [by apply record_keeps|..].
  - intros response Hr; apply or_invalid_keeps; [|intros; by apply calls_ret].
    eapply wp_mono; [by apply extract_answer_records_wp|done].
  - intros response; apply or_invalid_replies; intros; apply replies_ret.
Qed.

Lemma hostname_call_keeps ifindex name family flags :
  kept (dbus_resolve_hostname strerror env self fuel ifindex name family flags).
Proof using All.
  unfold dbus_resolve_hostname; apply kept_error; intros _ _.
  eapply kept_resolved; [by apply lookup_name_keeps|intros; apply kept_ret..].
Qed.

Lemma address_call_keeps ifindex family octets flags :
  kept (dbus_resolve_address strerror env self fuel ifindex family octets flags).
Proof using All.
  unfold dbus_resolve_address; apply kept_error; intros _ _; apply kept_error; intros ip _.
  eapply kept_resolved; [by apply lookup_address_keeps|intros; apply kept_ret..].
Qed.

(** *** Links *)

Lemma link_call_keeps i m : kept (link_call strerror env i m).
Proof using All.
  assert (∀ op, keep (run_link_op env i op)) as Hop.
  { intros op; by apply (link_op_keeps env self fuel (io' := map_order)). }
  destruct m; cbn [link_call]; unfold dbus_set_dns, dbus_set_dns_ex, dbus_set_llmnr,
    dbus_set_multicast_dns, dbus_set_dns_over_tls, dbus_set_dnssec;
    try (apply kept_error; intros a _); apply kept_returned;
    [apply (Hop (LinkDns _))|apply (Hop (LinkDns _))|apply (Hop (LinkDomains _))
    |apply (Hop (LinkDefaultRoute _))|apply (Hop (LinkLlmnr _))|apply (Hop (LinkMulticastDns _))
    |apply (Hop (LinkDnsOverTls _))|apply (Hop (LinkDnssec _))|apply (Hop (LinkAnchors _))
    |apply (Hop LinkRevert)].
Qed.

Lemma link_state_keeps i : kept (link_state env i).
Proof using HE. apply kept_bind; [apply kept_reading|]; intros; apply kept_ret. Qed.

Lemma link_specs_kept i : kept (link_dns_specs env i).
Proof using HE.
  apply kept_bind; [apply kept_reading|]; intros [l|]; [|apply kept_ret].
  apply kept_bind; [apply kept_reading|]; intros; apply kept_ret.
Qed.

Lemma stats_kept : kept (stats env).
Proof using HE.
  split; [apply stats_keeps, (inv_env env fuel HE)|]; unfold stats, read_counter; replies.
Qed.

Lemma manager_entry_keeps i s : kept (manager_dns_ex_entry env i s).
Proof.
  unfold manager_dns_ex_entry; destruct (address_bytes _); apply kept_bind; [|intros; apply kept_ret].
  destruct (interface s); [|apply kept_ret]; apply kept_bind; [|intros; apply kept_ret].
  apply kept_try, ifindex_keeps.
Qed.

Lemma manager_dns_ex_keeps servers i : kept (manager_dns_ex env servers i).
Proof.
  induction servers as [|s servers IH]; cbn [manager_dns_ex]; [apply kept_ret|].
  apply kept_bind; [apply manager_entry_keeps|]; intros; apply kept_bind; [exact IH|].
  intros; apply kept_ret.
Qed.

(** The types D-Bus gives to the class and the type of a record. *)
Definition call_ok (m : ManagerMethod) : Prop :=
  match m with ResolveRecord _ _ class rr_type _ => is_u16 class ∧ is_u16 rr_type | _ => True end.

Lemma maintenance_kept m : m ∈ [reset_statistics env; flush_cache env; reset_server_features env] → kept m.
Proof using All.
  intros Hm; split.
  - repeat (apply elem_of_cons in Hm as [->|Hm]); [by eapply reset_statistics_keeps|
      by eapply flush_keeps|by eapply reset_features_keeps|by apply not_elem_of_nil in Hm].
  - repeat (apply elem_of_cons in Hm as [->|Hm]); [|done|done|by apply not_elem_of_nil in Hm].
    unfold reset_statistics, count; replies.
Qed.

Lemma dbus_call_keeps m : call_ok m → kept (dbus_call strerror object_path env self fuel m).
Proof using All.
  intros Hm; destruct m; cbn [dbus_call]; lazymatch goal with
    | |- calls _ _ (answered _) _ ∧ _ => apply kept_answered
    | |- calls _ _ (value _) _ ∧ _ => apply kept_value
    | |- _ => apply kept_ret
    end.
  - apply hostname_call_keeps.
  - apply address_call_keeps.
  - by destruct Hm; apply record_call_keeps.
  - unfold dbus_resolve_service; do 2 (apply kept_error; intros _ _); apply service_reply_keeps.
  - unfold dbus_get_link; apply kept_bind; [apply link_state_keeps|]; intros.
    apply kept_error; intros; apply kept_ret.
  - apply link_call_keeps.
  - unfold register_service; apply kept_ret.
  - unfold unregister_service; apply kept_ret.
  - unfold get_delegate; apply kept_ret.
  - apply maintenance_kept; by left.
  - apply maintenance_kept; by right; left.
  - apply maintenance_kept; by right; right; left.
  - apply manager_dns_ex_keeps.
  - apply manager_dns_ex_keeps.
  - unfold current_dns_server_ex; case_match; [apply kept_ret|apply manager_entry_keeps].
  - unfold manager_domains, resolver_links; apply kept_bind; [apply kept_reading|].
    intros; apply kept_ret.
  - unfold llmnr_hostname; apply kept_bind; [apply kept_try|intros; apply kept_ret].
    eapply calls_mono; [eapply calls_hoare, hoare_os|done].
  - unfold transaction_statistics; apply kept_bind; [apply stats_kept|]; intros; apply kept_ret.
  - unfold cache_statistics; apply kept_bind; [apply stats_kept|]; intros; apply kept_ret.
  - unfold dbus_resolv_conf_mode; apply kept_bind; [|intros; apply kept_ret].
    apply kept_try, resolv_conf_mode_keeps.
  - unfold link_property; apply kept_bind; [apply link_state_keeps|]; intros; apply kept_ret.
  - unfold link_dns_ex; apply kept_bind; [apply link_specs_kept|]; intros; apply kept_ret.
  - unfold link_current_dns_server_ex; apply kept_bind; [apply link_specs_kept|].
    intros; apply kept_ret.
Qed.

Lemma dbus_calls_answer l w :
  Forall call_ok l → resolver_inv table_wf None (w_shared w) →
  ∃ es w', dbus_calls strerror object_path env self fuel l w = (Ok es, w') ∧
    length es = length l ∧ resolver_inv table_wf None (w_shared w').
Proof using All.
  intros Hl; revert w; induction Hl as [|m l Hm _ IH]; intros w Hw; [by exists [], w|].
  cbn [dbus_calls]; unfold mbind, st_bind; destruct (dbus_call_keeps m Hm) as [Hk Hr].
  pose proof (Hk w (proj2 (inv_iff table_wf None _) Hw)) as H; specialize (Hr w); unfold swp in H.
  destruct (dbus_call _ _ _ _ _ m w) as [[e|e| |] w1]; try done; [|by specialize (Hr e)].
  destruct (IH w1) as (es & w2 & -> & Hlen & Hw2); [apply (inv_iff table_wf None), H|].
  exists (e :: es), w2; split_and!; [done|by cbn; rewrite Hlen|done].
Qed.
End calls.

(** ** Object paths *)

(** The paths the D-Bus specification allows: elements of letters, digits and
    underscores, each after a slash. *)
Definition path_char (c : Z) : bool := is_alphabetic c || is_digit c || (c =? 95).

Definition valid_object_path (s : str) : bool :=
  match s with
  | 47 :: rest =>
      forallb (λ e, negb (bool_decide (e = [])) && forallb path_char e) (split_on 47 rest)
  | _ => false
  end.

(** The path of a link. *)
Definition link_path (i : Z) : str := LINK_PATH_PREFIX ++ lit "/_3" ++ show_unsigned i.

Definition is_index (i : Z) : Prop := 0 < i < 2 ^ 31.

Lemma show_index i : is_index i → ∃ d ds, show_unsigned i = d :: ds ∧
  Forall (λ c, is_digit c = true) (d :: ds) ∧ parse_digits 0 (d :: ds) = Some i.
Proof.
  intros Hi; unfold is_index in Hi; unfold show_unsigned.
  destruct (show_digits_decimal 20 i []) as (ds & -> & (Hall & Hpar & Hhd) & _); [lia|lia|].
  rewrite app_nil_r; destruct ds as [|d ds]; [done|]; by exists d, ds.
Qed.

Lemma digits_ascii ds : Forall (λ c, is_digit c = true) ds → is_ascii ds = true.
Proof.
  intros Hd; unfold is_ascii; apply forallb_forall; intros c Hc%list_elem_of_In.
  rewrite Forall_forall in Hd; specialize (Hd c Hc); unfold is_digit in Hd; boolp; lia.
Qed.

Lemma encode_label_digits ds :
  Forall (λ c, is_digit c = true) ds → encode_label_bytes false ds = ds.
Proof.
  induction 1 as [|c ds Hc _ IH]; cbn [encode_label_bytes]; [done|].
  by rewrite Hc, orb_true_r, IH.
Qed.

Lemma encode_index i : is_index i → encode_bus_label (show_i32 i) = lit "_3" ++ show_unsigned i.
Proof.
  intros Hi; destruct (show_index i Hi) as (d & ds & Hs & Hall & _); unfold encode_bus_label, show_i32.
  unfold is_index in Hi; rewrite (proj2 (Z.ltb_ge i 0)) by lia; rewrite Hs.
  rewrite bool_decide_eq_false_2 by done; rewrite is_ascii_as_bytes by (by apply digits_ascii).
  apply Forall_cons in Hall as [Hd Hall]; cbn [encode_label_bytes]; rewrite encode_label_digits by done.
  unfold is_digit in Hd; boolp.
  assert (d = 48 ∨ d = 49 ∨ d = 50 ∨ d = 51 ∨ d = 52 ∨ d = 53 ∨ d = 54 ∨ d = 55 ∨ d = 56 ∨ d = 57)
    as Hc by lia.
  repeat (destruct Hc as [->|Hc]; [reflexivity|]); by subst d.
Qed.

Lemma link_path_inj i j : is_index i → is_index j → link_path i = link_path j → i = j.
Proof.
  intros Hi Hj H; unfold link_path in H; do 2 apply app_inv_head in H.
  destruct (show_index i Hi) as (d & ds & Hs & _ & Hp), (show_index j Hj) as (d' & ds' & Hs' & _ & Hp').
  rewrite Hs, Hs' in H; injection H as <- <-; congruence.
Qed.

Lemma link_path_valid i : is_index i → valid_object_path (link_path i) = true.
Proof.
  intros Hi; destruct (show_index i Hi) as (d & ds & Hs & Hall & _); unfold link_path; rewrite Hs.
  assert (47 ∉ d :: ds) as Hn.
  { intros Hin; rewrite Forall_forall in Hall; by specialize (Hall _ Hin). }
  assert (forallb path_char (d :: ds) = true) as Hp.
  { apply forallb_forall; intros c Hc%list_elem_of_In; rewrite Forall_forall in Hall.
    unfold path_char; rewrite (Hall c Hc); by rewrite orb_true_r. }
  set (w := d :: ds) in *; clearbody w; clear - Hn Hp.
  change (valid_object_path (LINK_PATH_PREFIX ++ lit "/_3" ++ w)) with
    (forallb (λ e, negb (bool_decide (e = [])) && forallb path_char e)
      (split_on 47 (lit "org/freedesktop/resolve1/link" ++ 47 :: (lit "_3" ++ w)))).
  rewrite split_on_app, (split_on_single 47 (lit "_3" ++ w)) by
    (rewrite not_elem_of_app; split; [by apply (bool_decide_unpack (47 ∉ lit "_3"))|done]).
  rewrite forallb_app; apply andb_true_iff; split; [by vm_compute|].
  cbn [forallb]; rewrite forallb_app, Hp; done.
Qed.

(** ** Link objects *)

Definition published {O} `{!ObjectServer O} (o : O) (registered : gset Z) : Prop :=
  ∀ path i, objects o !! path = Some i ↔ i ∈ registered ∧ path = link_path i.

Definition indexed (sh : Shared) : Prop :=
  ∀ i l, rt_links (sh_routing sh) !! i = Some l → l_ifindex l = i ∧ is_index i.

Section objects.
Context (object_path : str → str + str) {O : Type} `{OS : !ObjectServer O, !ObjectServerOk OS}.
Context (Hpath : ∀ s, valid_object_path s = true → object_path s = inr s).

Lemma link_object_path_index i : is_index i → link_object_path object_path i = inr (link_path i).
Proof using Hpath.
  intros Hi; unfold link_object_path; rewrite encode_index by done.
  unfold is_index in Hi; rewrite (proj2 (Z.leb_gt i 0)) by lia.
  change (LINK_PATH_PREFIX ++ lit "/" ++ lit "_3" ++ show_unsigned i) with (link_path i).
  by rewrite Hpath by (by apply link_path_valid).
Qed.

(** Each loop publishes or withdraws its links, or ends with an error of the
    object server. *)
Definition loop_spec (r : (SyncError + unit) * O) (registered : gset Z) : Prop :=
  match r with
  | (inr _, o) => published o registered
  | (inl e, _) => ∃ m, e = BusFailure m
  end.

Lemma publish_loop l registered o :
  Forall is_index l → set_Forall is_index registered → NoDup l → list_to_set l ## registered →
  published o registered → loop_spec (each_link object_path object_at l o) (list_to_set l ∪ registered).
Proof using ObjectServerOk0 Hpath.
  intros Hl; revert registered o; induction Hl as [|i l Hi Hl IH]; intros registered o Hr Hnd Hd Ho;
    cbn [each_link].
  { cbn; by rewrite union_empty_l_L. }
  rewrite link_object_path_index by done; apply NoDup_cons in Hnd as [Hil Hnd].
  destruct (object_at o (link_path i) i) as [[e|b] o'] eqn:Hat; [by eexists|].
  apply at_ok in Hat; assert (objects o !! link_path i = None) as Hnone.
  { apply eq_None_not_Some; intros [j Hj]; apply Ho in Hj as [Hj Heq].
    apply link_path_inj in Heq; [|done|by apply Hr]; set_solver. }
  rewrite Hnone in Hat; cbn [list_to_set].
  replace ({[i]} ∪ list_to_set l ∪ registered) with (list_to_set l ∪ ({[i]} ∪ registered) : gset Z)
    by set_solver.
  apply IH; [set_solver|done|set_solver|]; intros path j; rewrite Hat, lookup_insert_Some, (Ho path j).
  rewrite elem_of_union, elem_of_singleton; split.
  - intros [[<- <-]|[? [? ?]]]; [by split; [left|]|by split; [right|]].
  - intros [[->|Hj] ->]; [by left|right]; split_and!; [|done|done].
    intros Heq; apply link_path_inj in Heq; [|done|by apply Hr]; set_solver.
Qed.

Lemma withdraw_loop l registered o :
  Forall is_index l → set_Forall is_index registered → published o registered →
  loop_spec (each_link object_path (λ o path _, object_remove o path) l o) (registered ∖ list_to_set l).
Proof using ObjectServerOk0 Hpath.
  intros Hl; revert registered o; induction Hl as [|i l Hi Hl IH]; intros registered o Hr Ho;
    cbn [each_link].
  { cbn; by rewrite difference_empty_L. }
  rewrite link_object_path_index by done.
  destruct (object_remove o (link_path i)) as [[e|b] o'] eqn:Hrm; [by eexists|].
  apply remove_ok in Hrm; cbn [list_to_set].
  replace (registered ∖ ({[i]} ∪ list_to_set l)) with ((registered ∖ {[i]}) ∖ list_to_set l : gset Z)
    by set_solver.
  apply IH; [set_solver|]; intros path j; rewrite Hrm, lookup_delete_Some, (Ho path j).
  rewrite elem_of_difference, elem_of_singleton; split.
  - intros (Hne & Hj & ->); split_and!; [done| |done]; by intros ->.
  - intros ([Hj Hne] & ->); split_and!; [|done|done].
    intros Heq; apply link_path_inj in Heq; [|done|by apply Hr]; done.
Qed.

Lemma elem_of_increasing s i : i ∈ increasing s ↔ i ∈ s.
Proof. unfold increasing; by rewrite sort_by_perm, elem_of_elements. Qed.

Lemma synchronize_spec links registered o :
  Forall (λ l, is_index (l_ifindex l)) links → set_Forall is_index registered →
  published o registered →
  match synchronize_link_objects object_path links registered o with
  | (inr registered', o') =>
      registered' = list_to_set (l_ifindex <$> links) ∧ published o' registered'
  | (inl e, _) => ∃ m, e = BusFailure m
  end.
Proof using ObjectServerOk0 Hpath.
  intros Hl Hr Ho; unfold synchronize_link_objects; set (current := list_to_set _ : gset Z).
  assert (set_Forall is_index current) as Hc.
  { intros i Hi; apply elem_of_list_to_set, list_elem_of_fmap in Hi as (l & -> & Hl').
    rewrite Forall_forall in Hl; by apply Hl. }
  assert (∀ s : gset Z, list_to_set (increasing s) = s) as Hinc.
  { intros s; apply set_eq; intros i; by rewrite elem_of_list_to_set, elem_of_increasing. }
  assert (∀ s : gset Z, NoDup (increasing s)) as Hnd.
  { intros s; unfold increasing; rewrite sort_by_perm; apply NoDup_elements. }
  pose proof (publish_loop (increasing (current ∖ registered)) registered o) as Hp.
  rewrite Hinc in Hp; destruct (each_link _ object_at _ o) as [[e|[]] o1]; cbn in Hp.
  { apply Hp; try done; [|set_solver]; apply Forall_forall; intros i Hi%elem_of_increasing.
    apply Hc; set_solver. }
  pose proof (withdraw_loop (increasing (registered ∖ current))
    (current ∖ registered ∪ registered) o1) as Hw; rewrite Hinc in Hw.
  assert (loop_spec (each_link object_path (λ o path _, object_remove o path)
    (increasing (registered ∖ current)) o1)
    ((current ∖ registered ∪ registered) ∖ (registered ∖ current))) as Hw'.
  { apply Hw; [|by apply set_Forall_union; [intros i Hi; apply Hc; set_solver|]|].
    - apply Forall_forall; intros i Hi%elem_of_increasing; apply Hr; set_solver.
    - apply Hp; try done; [|set_solver]; apply Forall_forall; intros i Hi%elem_of_increasing.
      apply Hc; set_solver. }
  replace ((current ∖ registered ∪ registered) ∖ (registered ∖ current)) with current in Hw'.
  2:{ apply set_eq; intros i; destruct (decide (i ∈ current)), (decide (i ∈ registered)); set_solver. }
  destruct (each_link _ _ (increasing (registered ∖ current)) o1) as [[e|[]] o2]; [done|].
  by split.
Qed.

Lemma indexed_links sh : indexed sh → Forall (λ l, is_index (l_ifindex l)) (table_links (sh_routing sh)).
Proof.
  intros Hsh; apply Forall_forall; intros l [i Hl]%elem_of_table_links.
  by destruct (Hsh i l Hl) as [-> ?].
Qed.

Lemma dbus_run_spec env (Hothers : ∀ n sh, indexed sh → indexed (others env n sh)) stops registered o w :
  indexed (w_shared w) → set_Forall is_index registered → published o registered →
  ∃ r registered' o' w', dbus_run object_path env stops registered o w = (Ok (r, registered', o'), w') ∧
    match r with
    | Some (inl e) => ∃ m, e = BusFailure m
    | _ => published o' registered' ∧
        (if bool_decide (head stops = Some false)
         then ∀ i, i ∈ registered' ↔ is_Some (rt_links (sh_routing (w_shared w')) !! i)
         else registered' = registered ∧ w' = w)
    end.
Proof using ObjectServerOk0 Hpath.
  revert registered o w; induction stops as [|[] stops IH]; intros registered o w Hw Hr Ho;
    cbn [dbus_run]; [by exists None, registered, o, w|by exists (Some (inr ())), registered, o, w|].
  unfold resolver_links, reading, atomically, mbind, st_bind.
  set (sh := others env (w_events w) (w_shared w)); assert (indexed sh) as Hsh by (by apply Hothers).
  pose proof (synchronize_spec (table_links (sh_routing sh)) registered o (indexed_links _ Hsh) Hr Ho) as H.
  set (w1 := { w with w_shared := sh; w_events := S (w_events w) }).
  destruct (synchronize_link_objects _ _ _ _) as [[e|registered1] o1]; [by exists (Some (inl e)), registered, o1, w1|].
  destruct H as [Hreg Ho1].
  assert (∀ i, i ∈ registered1 ↔ is_Some (rt_links (sh_routing sh) !! i)) as Hin.
  { intros i; rewrite Hreg, elem_of_list_to_set, list_elem_of_fmap.
    setoid_rewrite elem_of_table_links; split.
    - intros (l & -> & j & Hl); destruct (Hsh j l Hl) as [-> _]; by exists l.
    - intros [l Hl]; destruct (Hsh i l Hl) as [Hi _]; exists l; split; [done|by exists i]. }
  destruct (IH registered1 o1 w1) as (r & reg & o' & w' & Hrun & Hres); [done| |done|].
  { intros i [l Hl]%Hin; by destruct (Hsh i l Hl). }
  exists r, reg, o', w'; split; [exact Hrun|]; destruct r as [[e|[]]|]; [done|..].
  all: destruct Hres as [Hpub Hlast]; split; [done|]; cbn; destruct (bool_decide _); [done|].
  all: by destruct Hlast as [-> ->].
Qed.
End objects.

(** ** Servers of a link *)

Lemma foldl_push_new_nodup {A} `{EqDecision A} (l output : list A) :
  NoDup (output ++ l) → foldl push_new output l = output ++ l.
Proof.
  revert output; induction l as [|x l IH]; intros output Hnd; cbn [foldl]; [by rewrite app_nil_r|].
  assert (push_new output x = output ++ [x]) as ->.
  { unfold push_new; rewrite bool_decide_eq_false_2; [done|].
    apply NoDup_app in Hnd as (_ & Hd & _); intros Hx; apply (Hd x Hx); by left. }
  rewrite IH; by rewrite <- app_assoc.
Qed.

Lemma push_normalized_pure {A B E} `{EqDecision B} (f : A → B) xs output :
  push_normalized (λ x, Ok (f x) : outcome E B) xs output = Ok (foldl push_new output (f <$> xs)).
Proof. revert output; induction xs as [|x xs IH]; intros output; cbn; [done|apply IH]. Qed.

Definition endpoint (s : SocketAddr) : IpAddr * Z := (sock_ip s, sock_port s).

Lemma same_endpoint_iff a b : same_dns_endpoint a b = true ↔ endpoint a = endpoint b.
Proof.
  unfold same_dns_endpoint, endpoint; rewrite andb_true_iff, bool_decide_eq_true, Z.eqb_eq.
  split; [intros [-> ->]; done|intros [= ? ?]; done].
Qed.

Lemma normalize_endpoint i s : endpoint (normalize_server i s) = endpoint s.
Proof. unfold normalize_server; repeat case_match; done. Qed.

Lemma NoDup_endpoints {A} (f : A → SocketAddr) l x y :
  NoDup ((endpoint ∘ f) <$> l) → x ∈ l → y ∈ l → endpoint (f x) = endpoint (f y) → x = y.
Proof.
  induction l as [|z l IH]; cbn; [set_solver|]; intros [Hz Hnd]%NoDup_cons Hx Hy Heq.
  apply elem_of_cons in Hx as [->|Hx], Hy as [->|Hy]; [done| | |by apply IH].
  - destruct Hz; apply list_elem_of_fmap; by exists y.
  - destruct Hz; apply list_elem_of_fmap; exists x; by rewrite <- Heq.
Qed.

Lemma NoDup_unique {A} (l : list A) x : NoDup l → x ∈ l → (∀ y, y ∈ l → y = x) → l = [x].
Proof.
  intros Hnd Hx Hall; destruct l as [|y l]; [set_solver|]; assert (y = x) as -> by (apply Hall; by left).
  apply NoDup_cons in Hnd as [Hn _]; destruct l as [|z l]; [done|].
  destruct Hn; assert (z = x) as -> by (apply Hall; by right; left); by left.
Qed.

(** Of distinct servers each is shown with its own specification. *)
Lemma project_distinct specs :
  NoDup ((endpoint ∘ address) <$> specs) → project_link_specs (address <$> specs) (Some specs) = specs.
Proof.
  intros Hnd; unfold project_link_specs; change (default [] (Some specs)) with specs.
  match goal with |- foldl ?f _ _ = _ => set (step := f) end.
  assert (∀ rest output, output ++ rest = specs → foldl step output (address <$> rest) = specs) as H.
  2:{ by apply (H specs []). }
  induction rest as [|s rest IH]; intros output Heq; cbn; [by rewrite app_nil_r in Heq|].
  rewrite <- (IH (output ++ [s])) by (by rewrite <- app_assoc); f_equal; unfold step.
  assert (filter (λ s', same_dns_endpoint (address s') (address s) = true) specs = [s]) as ->.
  { apply NoDup_unique; [by eapply NoDup_filter, NoDup_fmap_1| |].
    - apply list_elem_of_filter; split; [by apply same_endpoint_iff|set_solver].
    - intros s' [Hs' Hin]%list_elem_of_filter; apply same_endpoint_iff in Hs'.
      apply (NoDup_endpoints address specs); [done..|set_solver|done]. }
  assert (with_address s (address s) = s) as Hws by (by destruct s).
  assert (s ∉ output) as Hso.
  { intros Hin; rewrite <- Heq, fmap_app, NoDup_app in Hnd; destruct Hnd as (_ & Hd & _).
    apply (Hd (endpoint (address s))); apply list_elem_of_fmap; exists s; [done|].
    split; [done|by left]. }
  cbn [fmap list_fmap foldl]; rewrite Hws; unfold push_new.
  rewrite (bool_decide_eq_false_2 (s ∈ output)) by done; rewrite bool_decide_eq_false_2; [done|]; rewrite length_app; cbn; lia.
Qed.

(** A specification with the address the link has for it. *)
Definition moved (i : Z) (s : DnsServerSpec) : DnsServerSpec :=
  with_address s (normalize_server i (address s)).

Definition distinct {A} `{EqDecision A} (l : list A) : list A := foldl push_new [] l.

Lemma distinct_NoDup {A} `{EqDecision A} (l : list A) : NoDup (distinct l).
Proof.
  unfold distinct; generalize (NoDup_nil_2 (A := A)); generalize (@nil A).
  induction l as [|x l IH]; intros out Hout; cbn; [done|]; by apply IH, push_new_NoDup.
Qed.

Lemma elem_of_distinct {A} `{EqDecision A} (l : list A) x : x ∈ distinct l ↔ x ∈ l.
Proof. unfold distinct; rewrite elem_of_foldl_push_new, elem_of_nil; tauto. Qed.

Lemma distinct_id {A} `{EqDecision A} (l : list A) : NoDup l → distinct l = l.
Proof. intros Hl; by apply (foldl_push_new_nodup l []). Qed.

Section link_servers.
Context (i : Z) (specs : list DnsServerSpec).

(** An endpoint has one address. *)
Hypothesis Hsame : ∀ s s', s ∈ specs → s' ∈ specs →
  endpoint (address s) = endpoint (address s') → address s = address s'.

Lemma normalize_specs_moved :
  normalize_link_specs (distinct (address <$> (moved i <$> specs))) specs = distinct (moved i <$> specs).
Proof using Hsame.
  unfold normalize_link_specs, distinct at 2; f_equal; apply list_fmap_ext.
  intros k s Hs; apply list_elem_of_lookup_2 in Hs; unfold normalize_link_spec, moved.
  destruct (list_find _ _) as [[j a]|] eqn:Hf.
  - apply list_find_Some in Hf as (Ha & Heq & _); apply list_elem_of_lookup_2 in Ha.
    rewrite elem_of_distinct, <- list_fmap_compose in Ha.
    apply list_elem_of_fmap in Ha as (s' & -> & Hs'); cbn in Heq |- *.
    apply same_endpoint_iff in Heq; rewrite normalize_endpoint in Heq; by rewrite (Hsame s s').
  - apply list_find_None in Hf; rewrite Forall_forall in Hf.
    destruct (Hf (normalize_server i (address s))); [|apply same_endpoint_iff; by rewrite normalize_endpoint].
    rewrite elem_of_distinct, <- list_fmap_compose; apply list_elem_of_fmap; by exists s.
Qed.

Lemma moved_endpoint x a :
  x ∈ moved i <$> specs → a ∈ address <$> (moved i <$> specs) →
  same_dns_endpoint (address x) a = true ↔ address x = a.
Proof using Hsame.
  intros (s & -> & Hs)%list_elem_of_fmap (y & -> & (s' & -> & Hs')%list_elem_of_fmap)%list_elem_of_fmap.
  rewrite same_endpoint_iff; cbn; rewrite !normalize_endpoint; split; [by intros ->%Hsame|].
  intros H; rewrite <- (normalize_endpoint i (address s)), H; apply normalize_endpoint.
Qed.

(** The specifications of one address, as the projection adds them. *)
Lemma project_address output a :
  a ∈ address <$> (moved i <$> specs) → NoDup output → (∀ x, x ∈ output → address x ≠ a) →
  let matched := filter (λ x, same_dns_endpoint (address x) a = true) (distinct (moved i <$> specs)) in
  let output' := foldl push_new output ((λ x, with_address x a) <$> matched) in
  (if bool_decide (length output' = length output) then output ++ [plain_spec a] else output') = output ++ matched ∧
  NoDup (output ++ matched) ∧ ∀ x, x ∈ matched ↔ x ∈ moved i <$> specs ∧ address x = a.
Proof using Hsame.
  intros Ha Ho Hdis matched.
  assert (∀ x, x ∈ matched ↔ x ∈ moved i <$> specs ∧ address x = a) as Hm.
  { intros x; unfold matched; rewrite list_elem_of_filter, elem_of_distinct; split.
    - intros [H HT]; split; [done|]; by apply moved_endpoint in H.
    - intros [HT H]; split; [|done]; by apply moved_endpoint. }
  assert (NoDup (output ++ matched)) as Hnd.
  { apply NoDup_app; split_and!; [done| |apply NoDup_filter, distinct_NoDup].
    intros x Hx [_ Hxa]%Hm; by apply (Hdis x Hx). }
  split_and!; [|done..]; assert ((λ x, with_address x a) <$> matched = matched) as ->.
  { rewrite <- (list_fmap_id matched) at 2; apply list_fmap_ext; intros k x Hx.
    apply list_elem_of_lookup_2, Hm in Hx as [_ <-]; by destruct x. }
  rewrite foldl_push_new_nodup by done; rewrite bool_decide_eq_false_2; [done|].
  apply list_elem_of_fmap in Ha as (x & -> & Hx); rewrite length_app.
  assert (x ∈ matched) as Hxm by (by apply Hm); destruct matched; [by apply elem_of_nil in Hxm|cbn; lia].
Qed.

(** Each of the specifications is shown once. *)
Lemma project_moved :
  let shown := project_link_specs (distinct (address <$> (moved i <$> specs)))
                 (Some (distinct (moved i <$> specs))) in
  NoDup shown ∧ ∀ x, x ∈ shown ↔ x ∈ moved i <$> specs.
Proof using Hsame.
  cbn zeta; unfold project_link_specs; change (default [] (Some ?l)) with l.
  match goal with |- context [foldl ?f [] _] => set (step := f) end.
  assert (∀ rest output, NoDup output → NoDup rest → (∀ a, a ∈ rest → a ∈ address <$> (moved i <$> specs)) →
    (∀ x, x ∈ output → address x ∉ rest) →
    NoDup (foldl step output rest) ∧
    ∀ x, x ∈ foldl step output rest ↔ x ∈ output ∨ x ∈ moved i <$> specs ∧ address x ∈ rest) as H.
  { induction rest as [|a rest IH]; intros output Ho Hr Hin Hdis; cbn [foldl].
    { split; [done|]; intros x; rewrite elem_of_nil; tauto. }
    apply NoDup_cons in Hr as [Ha Hr].
    destruct (project_address output a) as (Hstep & Hnd & Hm); [apply Hin; left|done| |].
    { intros x Hx Heq; apply (Hdis x Hx); rewrite Heq; left. }
    unfold step at 2 4; rewrite Hstep; clear Hstep.
    set (matched := filter _ _) in *; destruct (IH (output ++ matched)) as [Hnd' Hel]; [done..| | |].
    - intros b Hb; apply Hin; by right.
    - intros x [Hx|[_ ->]%Hm]%elem_of_app; [|done]; intros Hr'; apply (Hdis x Hx); by right.
    - split; [done|]; intros x; rewrite Hel, elem_of_app, Hm, elem_of_cons; tauto. }
  destruct (H (distinct (address <$> (moved i <$> specs))) []) as [Hnd Hel].
  - apply NoDup_nil_2.
  - apply distinct_NoDup.
  - intros a; by rewrite elem_of_distinct.
  - by intros x Hx%elem_of_nil.
  - split; [done|]; intros x; rewrite Hel, elem_of_nil, elem_of_distinct; split; [tauto|].
    intros Hx; right; split; [done|]; apply list_elem_of_fmap; eauto.
Qed.

(** The servers and specifications a link has after [set_link_dns_specs]. *)
Lemma set_specs_alone env w w' :
  (∀ n sh, others env n sh = sh) → set_link_dns_specs env i specs w = (Ok (), w') →
  let shown := moved i <$> specs in
  ∃ l, table_link (sh_routing (w_shared w')) i = Some l ∧ l_dns_servers l = distinct (address <$> shown) ∧
    sh_link_server_specs (w_shared w') !! i = if bool_decide (shown = []) then None else Some (distinct shown).
Proof using Hsame.
  intros Halone Hrun shown.
  pose proof (run_link_op_alone env Halone i (LinkDns specs) w) as Hout; cbn [run_link_op] in Hout.
  rewrite Hrun in Hout; unfold outcome_of, link_result in Hout; cbn [fst snd] in Hout.
  destruct (managed (w_shared w) i); [done|]; cbn [link_routing routing_step] in Hout.
  destruct (set_dns _ i _) as [[b| | |] t] eqn:Hset; try done.
  apply update_link_Ok in Hset as (l & o & Ho & Hl); rewrite push_normalized_pure in Ho.
  cbn [mbind outcome_bind] in Ho; apply (changed_to_cases _ _ l) in Ho.
  assert (normalize_server i <$> (address <$> specs) = address <$> shown) as Haddr
    by (unfold shown; by rewrite <- !list_fmap_compose).
  rewrite Haddr in Ho; fold (distinct (address <$> shown)) in Ho; set (l' := default l o) in *.
  assert (l_dns_servers l' = distinct (address <$> shown)) as Hs.
  { rewrite Ho; case_decide as Hd; [exact Hd|done]. }
  cbn [link_specs] in Hout; unfold table_link in Hout; rewrite Hl, Hs in Hout.
  unfold shown in Hout; rewrite normalize_specs_moved in Hout; fold shown in Hout.
  destruct (replace_specs i (distinct shown) _) as [b' m] eqn:Hrep; injection Hout as Hsh.
  assert (sh_routing (w_shared w') = t ∧ sh_link_server_specs (w_shared w') = m) as [-> ->].
  { rewrite Hsh; by destruct (b || b'). }
  exists l'; split_and!; [done..|].
  assert (distinct shown = [] ↔ shown = []) as Hnil.
  { split; [|by intros ->]; intros Hd; destruct shown as [|x]; [done|].
    assert (x ∈ distinct (x :: shown)) as Hx by (rewrite elem_of_distinct; left).
    rewrite Hd in Hx; by apply elem_of_nil in Hx. }
  unfold replace_specs in Hrep; rewrite (bool_decide_ext _ _ Hnil) in Hrep.
  case_bool_decide; [injection Hrep as _ <-; apply lookup_delete_eq|].
  case_bool_decide; injection Hrep as _ <-; [done|apply lookup_insert_eq].
Qed.
End link_servers.

(** What [DNSEx] is to show for a server: its address and name, and the port 0 for
    a server on the port of DNS or of DNS over TLS. *)
Definition shown_server (entry : Z * bytes * Z * str) : Z * bytes * Z * str :=
  let '(family, octets, port, name) := entry in
  (family, octets, if bool_decide (port = 0 ∨ port = 53 ∨ port = 853) then 0 else port, name).

(** The address and port of a server shown. *)
Definition shown_endpoint (entry : Z * bytes * Z * str) : Z * bytes * Z :=
  let '(family, octets, port, _) := entry in (family, octets, port).

(** [shown] has exactly the servers given, each once, and in the order given when
    no two of them have the same address and port. *)
Definition shows_servers (shown given : list (Z * bytes * Z * str)) : Prop :=
  NoDup shown ∧ (∀ server, server ∈ shown ↔ server ∈ shown_server <$> given) ∧
  (NoDup (shown_endpoint <$> (shown_server <$> given)) → shown = shown_server <$> given).

Lemma shown_port p : dns_ex_output_port (dns_ex_input_port p) =
  if bool_decide (p = 0 ∨ p = 53 ∨ p = 853) then 0 else p.
Proof.
  unfold dns_ex_output_port, dns_ex_input_port.
  assert (p ∈ [0; 53; 853] ↔ p = 0 ∨ p = 53 ∨ p = 853) as Hp by set_solver.
  rewrite (bool_decide_ext _ _ Hp); destruct (decide (p = 0 ∨ p = 53 ∨ p = 853)) as [H|H].
  - by rewrite (bool_decide_eq_true_2 _ H).
  - rewrite (bool_decide_eq_false_2 _ H), bool_decide_eq_false_2; [done|]; set_solver.
Qed.

Lemma collect_decoded_Forall2 {A B} (f : A → dres B) l l' :
  collect_decoded f l = inr l' → Forall2 (λ x y, f x = inr y) l l'.
Proof.
  revert l'; induction l as [|x l IH]; intros l'; cbn; [by intros [= <-]|].
  destruct (f x) as [|y] eqn:Hx; [done|]; destruct (collect_decoded f l) as [|ys]; [done|].
  intros [= <-]; constructor; [done|by apply IH].
Qed.

(** An address and its family and octets determine each other. *)
Lemma decode_address_bytes family octets ip :
  decode_address family octets = inr ip → address_bytes ip = (family, octets).
Proof.
  unfold decode_address; destruct (_ && _) eqn:H4; [boolp; intros [= <-]; by subst|].
  destruct ((family =? AF_INET6) && _) eqn:H6; [|done]; boolp; intros [= <-]; by subst.
Qed.

Lemma decoded_spec e spec :
  decode_dns_server_spec e = inr spec →
  let '(family, octets, port, name) := e in
  address_bytes (sock_ip (address spec)) = (family, octets) ∧
  sock_port (address spec) = dns_ex_input_port port ∧ default [] (server_name spec) = name.
Proof.
  destruct e as [[[family octets] port] name]; unfold decode_dns_server_spec.
  destruct (decode_address family octets) as [|ip] eqn:Hd; [done|]; intros [= <-].
  apply decode_address_bytes in Hd; cbn [address server_name]; split_and!.
  - by destruct ip.
  - by destruct ip.
  - by case_bool_decide.
Qed.

Lemma decoded_entry i e spec :
  decode_dns_server_spec e = inr spec → link_dns_ex_entry (moved i spec) = shown_server e.
Proof.
  intros Hd; apply decoded_spec in Hd; destruct e as [[[family octets] port] name].
  destruct Hd as (Ha & Hp & Hn); unfold link_dns_ex_entry, shown_server, moved.
  assert (∀ a, address (with_address spec a) = a ∧
    server_name (with_address spec a) = server_name spec) as Hwith by done.
  rewrite (proj1 (Hwith _)), (proj2 (Hwith (normalize_server i (address spec)))).
  pose proof (normalize_endpoint i (address spec)) as He; injection He as -> ->.
  by rewrite Ha, Hp, Hn, shown_port.
Qed.

(** Servers shown alike are the same. *)
Lemma decoded_shown e spec e' spec' :
  decode_dns_server_spec e = inr spec → decode_dns_server_spec e' = inr spec' →
  shown_server e = shown_server e' → spec = spec'.
Proof.
  destruct e as [[[family octets] port] name], e' as [[[family' octets'] port'] name'].
  intros H H' [= <- <- Hport <-]; cbn in H, H'.
  assert (dns_ex_input_port port = dns_ex_input_port port') as Hp.
  { unfold dns_ex_input_port; revert Hport; repeat case_bool_decide; set_solver. }
  rewrite Hp in H; destruct (decode_address family octets); [done|]; congruence.
Qed.

Lemma decoded_address e spec e' spec' :
  decode_dns_server_spec e = inr spec → decode_dns_server_spec e' = inr spec' →
  endpoint (address spec) = endpoint (address spec') →
  address spec = address spec' ∧ shown_endpoint (shown_server e) = shown_endpoint (shown_server e').
Proof.
  intros Hd Hd'; pose proof (decoded_spec _ _ Hd) as H; pose proof (decoded_spec _ _ Hd') as H'.
  destruct e as [[[family octets] port] name], e' as [[[family' octets'] port'] name'].
  destruct H as (Ha & Hp & _), H' as (Ha' & Hp' & _); intros [= Hip Hport]; split.
  - revert Hd Hd'; cbn; destruct (decode_address family octets) as [|ip], (decode_address family' octets')
      as [|ip']; try done; intros [= <-] [= <-].
    revert Hip Hport; cbn [address]; destruct ip, ip'; cbn [sock_ip sock_port sock_new]; congruence.
  - cbn; rewrite <- !shown_port; congruence.
Qed.

Lemma link_dns_ex_alone env i w :
  (∀ n sh, others env n sh = sh) →
  (link_dns_ex env i w).1 =
    Ok match table_link (sh_routing (w_shared w)) i with
       | Some l => link_dns_ex_entry <$>
           project_link_specs (l_dns_servers l) (sh_link_server_specs (w_shared w) !! i)
       | None => []
       end.
Proof.
  intros Halone; unfold link_dns_ex, link_dns_specs, get_link, reading, mbind, st_bind.
  rewrite (atomically_alone env Halone); cbn [fst snd].
  destruct (table_link (sh_routing (w_shared w)) i) as [l|]; [|done].
  by rewrite (atomically_alone env Halone).
Qed.

Section decoded.
Context (es : list (Z * bytes * Z * str)) (specs : list DnsServerSpec).
Hypothesis Hdecoded : decode_dns_server_specs es = inr specs.

Lemma decoded_entries i : link_dns_ex_entry <$> (moved i <$> specs) = shown_server <$> es.
Proof using Hdecoded.
  pose proof (collect_decoded_Forall2 _ _ _ Hdecoded) as H; clear Hdecoded.
  induction H as [|e s es' specs' He _ IH]; [done|].
  cbn [fmap list_fmap]; f_equal; [by apply decoded_entry|exact IH].
Qed.

Lemma decoded_from s : s ∈ specs → ∃ e, e ∈ es ∧ decode_dns_server_spec e = inr s.
Proof using Hdecoded.
  intros [k Hk]%list_elem_of_lookup; pose proof (collect_decoded_Forall2 _ _ _ Hdecoded) as H.
  destruct (Forall2_lookup_r _ _ _ _ _ H Hk) as (e & He & Hd); exists e; split; [|done].
  by eapply list_elem_of_lookup_2.
Qed.

Lemma decoded_same s s' : s ∈ specs → s' ∈ specs →
  endpoint (address s) = endpoint (address s') → address s = address s'.
Proof using Hdecoded.
  intros (e & _ & He)%decoded_from (e' & _ & He')%decoded_from; by eapply decoded_address.
Qed.

Lemma decoded_distinct i :
  NoDup (shown_endpoint <$> (shown_server <$> es)) → NoDup ((endpoint ∘ address) <$> (moved i <$> specs)).
Proof using Hdecoded.
  pose proof (collect_decoded_Forall2 _ _ _ Hdecoded) as H; clear Hdecoded.
  induction H as [|e s es' specs' He Hes IH]; [intros; apply NoDup_nil_2|]; cbn; intros [Hn Hnd]%NoDup_cons.
  apply NoDup_cons; split; [|by apply IH].
  intros (m & Heq & (s' & -> & Hs')%list_elem_of_fmap)%list_elem_of_fmap; apply Hn.
  apply list_elem_of_lookup in Hs' as [k Hk]; destruct (Forall2_lookup_r _ _ _ _ _ Hes Hk) as (e' & He'k & He').
  rewrite <- list_fmap_compose; apply list_elem_of_fmap; exists e'; split; [|by eapply list_elem_of_lookup_2].
  cbn in Heq; rewrite !normalize_endpoint in Heq; by eapply decoded_address.
Qed.

(** The projection of the servers set on a link shows them. *)
Lemma decoded_projected i :
  let given := moved i <$> specs in
  shows_servers (link_dns_ex_entry <$> project_link_specs (distinct (address <$> given))
    (if bool_decide (given = []) then None else Some (distinct given))) es.
Proof using Hdecoded.
  intros given; pose proof (project_moved i specs decoded_same) as [Hnd Hel]; fold given in Hnd, Hel.
  assert (project_link_specs (distinct (address <$> given))
    (if bool_decide (given = []) then None else Some (distinct given)) =
    project_link_specs (distinct (address <$> given)) (Some (distinct given))) as ->.
  { case_bool_decide as He; [|done]; by rewrite He. }
  unfold shows_servers; rewrite <- (decoded_entries i); fold given; split_and!.
  - apply NoDup_fmap_2_strong; [|done]; intros x y Hx Hy Hxy; apply Hel in Hx, Hy.
    apply list_elem_of_fmap in Hx as (s & -> & (e & _ & He)%decoded_from).
    apply list_elem_of_fmap in Hy as (s' & -> & (e' & _ & He')%decoded_from).
    rewrite (decoded_entry i e s He), (decoded_entry i e' s' He') in Hxy.
    by rewrite (decoded_shown e s e' s').
  - intros x; rewrite !list_elem_of_fmap.
    split; intros (y & -> & Hy); exists y; (split; [done|]); by apply Hel.
  - intros Hd; unfold given in Hd; rewrite (decoded_entries i) in Hd.
    apply (decoded_distinct i) in Hd; fold given in Hd.
    assert (NoDup (address <$> given)) as Ha.
    { rewrite list_fmap_compose in Hd; by apply NoDup_fmap_1 in Hd. }
    rewrite (distinct_id given), (distinct_id (address <$> given)) by (done || by apply NoDup_fmap_1 in Ha).
    f_equal; by apply project_distinct.
Qed.
End decoded.

(** The servers set on a link by [SetLinkDNSEx] are those its [DNSEx] property
    shows next: each once, with their names, the default ports as 0, and in their
    order when their addresses and ports differ.  This holds when no other thread
    changes the link in between. *)
Theorem dns_ex_roundtrip strerror env i entries w w' :
  (∀ n sh, others env n sh = sh) → dbus_set_dns_ex strerror env i entries w = (Ok (inr ()), w') →
  ∃ shown, (link_dns_ex env i w').1 = Ok shown ∧ shows_servers shown entries.
Proof.
  intros Halone Hset; rewrite link_dns_ex_alone by done; unfold dbus_set_dns_ex, or_error in Hset.
  destruct (decode_dns_server_specs entries) as [|specs] eqn:Hd; [done|].
  unfold returned, resolved, mbind, st_bind, attempt in Hset.
  destruct (set_link_dns_specs env i specs w) as [[[]|e| |] w1] eqn:Hrun; try done.
  injection Hset as <-.
  destruct (set_specs_alone i specs (decoded_same _ _ Hd) env w w1 Halone Hrun) as (l & -> & -> & ->).
  eexists; split; [done|]; by apply decoded_projected.
Qed.

(** ** Properties *)

(** Every sequence of D-Bus calls on the Manager and Link objects is answered:
    each call returns a value or a D-Bus error, none panics or runs for ever, and
    the state of the resolver stays well formed, under the conditions of
    [query_env] and [waits_ok] on the clock, the network and the other threads. *)
Theorem dbus_calls_answered strerror object_path env self fuel (io : IterOrder XKey CacheEntry) l w :
  IterOrderOk io → query_env env fuel table_wf → waits_ok env fuel table_wf →
  Forall call_ok l → resolver_inv table_wf None (w_shared w) →
  ∃ es w', dbus_calls strerror object_path env self fuel l w = (Ok es, w') ∧
    length es = length l ∧ resolver_inv table_wf None (w_shared w').
Proof. intros Hio HE HW Hl Hw; by apply dbus_calls_answer. Qed.

(** C14: the Link objects on the bus are those of the links: however often the server
    loop ran, and whatever changed in between, it published exactly one object
    for each link the resolver had in the last round, at the path of its index,
    and it ends early only when the object server fails. *)
Theorem link_objects_follow object_path {O} (OS : ObjectServer O) env stops o w :
  ObjectServerOk OS → (∀ s, valid_object_path s = true → object_path s = inr s) →
  (∀ n sh, indexed sh → indexed (others env n sh)) → indexed (w_shared w) → objects o = ∅ →
  ∃ r registered o' w', dbus_run object_path env stops ∅ o w = (Ok (r, registered, o'), w') ∧
    match r with
    | Some (inl e) => ∃ m, e = BusFailure m
    | _ => published o' registered ∧
        (head stops = Some false →
         ∀ i, i ∈ registered ↔ is_Some (rt_links (sh_routing (w_shared w')) !! i))
    end.
Proof.
  intros HS Hpath Hothers Hw Ho.
  destruct (dbus_run_spec object_path Hpath env Hothers stops ∅ o w Hw) as (r & reg & o' & w' & Hrun & H).
  - by intros i Hi%elem_of_empty.
  - intros path i; rewrite Ho, lookup_empty; split; [done|]; by intros [?%elem_of_empty _].
  - exists r, reg, o', w'; split; [done|]; destruct r as [[e|[]]|]; [done|..].
    all: destruct H as [Hp Hl]; split; [done|]; intros Hh; by rewrite bool_decide_eq_true_2 in Hl.
Qed.

Definition example_text (errno : Z) : str := lit "error".
Definition example_path (s : str) : str + str := inr s.

Definition example_calls : list ManagerMethod :=
  [OnLink 2 (SetDNSEx [(AF_INET, [192; 0; 2; 1], 853, lit "dns.example")]);
   OnLink 2 (SetDomainsOf [(lit "corp", true)]); OnLink 2 (SetLLMNR (lit "maybe"));
   ResolveHostname 0 (lit "host.corp") AF_UNSPEC 0; ResolveRecord (-1) (lit "a") 1 1 0;
   ResolveService 0 [] (lit "_ipp._tcp") (lit "corp") AF_INET 0; GetLink 2; ReadLinkDNSEx 2;
   FlushCaches; ReadCacheStatistics].

Lemma dbus_calls_answered_witness :
  ∃ es w', dbus_calls (io := map_order) example_text example_path
      (example_env (λ _, id) (example_reply 128)) (example_resolver AllowDowngrade Opportunistic) 200
      example_calls (finite_world example_table) = (Ok es, w') ∧
    length es = 10%nat ∧ resolver_inv table_wf None (w_shared w').
Proof.
  apply (dbus_calls_answered example_text example_path (example_env (λ _, id) (example_reply 128))
    (example_resolver AllowDowngrade Opportunistic) 200 map_order example_calls
    (finite_world example_table) map_order_ok);
    [apply example_query_env; lia|apply example_waits| |apply example_inv, example_table_wf].
  repeat (apply Forall_cons_2; [done|]); constructor.
Defined.

(** A map of paths, as an object server. *)
#[local] Instance map_server : ObjectServer (gmap str Z) := {
  object_at o path i := match o !! path with
                        | Some _ => (inr false, o)
                        | None => (inr true, <[path := i]> o)
                        end;
  object_remove o path := (inr (bool_decide (is_Some (o !! path))), delete path o);
  objects o := o;
}.

Lemma map_server_ok : ObjectServerOk map_server.
Proof.
  split; cbn; intros *.
  - destruct (o !! path); by intros [= _ <-].
  - destruct (o !! path); done.
  - by intros [= _ <-].
  - done.
Qed.

Lemma link_objects_follow_witness :
  ∃ r registered o' w', dbus_run (OS := map_server) example_path (example_env (λ _, id) [])
      [false; false; true] ∅ ∅ (finite_world example_table) = (Ok (r, registered, o'), w') ∧
    match r with
    | Some (inl e) => ∃ m, e = BusFailure m
    | _ => published (ObjectServer0 := map_server) o' registered ∧
        (Some false = Some false →
         ∀ i, i ∈ registered ↔ is_Some (rt_links (sh_routing (w_shared w')) !! i))
    end.
Proof.
  apply (link_objects_follow example_path map_server (example_env (λ _, id) []) [false; false; true]
    ∅ (finite_world example_table) map_server_ok); [done|done| |done].
  intros i l Hl; change (({[ 2 := example_link ]} : gmap Z LinkState) !! i = Some l) in Hl.
  apply lookup_singleton_Some in Hl as [<- <-]; split; [done|unfold is_index; lia].
Defined.
