(* ===== verification/DbusLinkFacts.v ===== *)
(** * D-Bus: the settings of a link

    What each method of a Link object does, seen on the bus: when it is refused
    and with which error, and which properties the link shows after it was
    accepted. *)

From S2P Require Import Prelude Stateful Text Net Sorting ConfigTypes Config ConfigFacts Names Cache Routing.
From S2P Require Import RoutingFacts Hosts Networkd World WorldFacts Servers Links LinksFacts Dbus.
From S2P Require Import DbusFacts.

(** ** What is asked for *)

(** [shown] has exactly the values that [R] relates to those given, each once, and
    in the order given when they differ. *)
Definition shows {A B} (R : A → B → Prop) (given : list A) (shown : list B) : Prop :=
  ∃ values, Forall2 R given values ∧ NoDup shown ∧ (∀ v, v ∈ shown ↔ v ∈ values) ∧
    (NoDup values → shown = values).

(** The name a domain or trust anchor is shown as: without the blanks around it,
    the dots at its end and a [~] at its start, in lower case; the root is a dot.
    It is of ASCII and at most 253 octets, its labels of 1 to 63 octets. *)
Definition name_shown (text n : str) : Prop :=
  ∃ tilde core dots, trim text = tilde ++ core ++ dots ∧
    (tilde = [] ∧ head core ≠ Some 126 ∨ tilde = [126]) ∧
    Forall (λ c, c = dot) dots ∧ last core ≠ Some dot ∧
    (core = [] ∧ n = [dot] ∨
     core ≠ [] ∧ Forall (λ c, 0 ≤ c < 128) core ∧ len core ≤ 253 ∧
       Forall (λ label, 0 < len label ≤ 63) (split_on dot core) ∧ n = to_ascii_lowercase core).

(** The words of a mode and the mode they set, as it is shown. *)
Definition support_words : list (string * string) :=
  [("", "yes"); ("yes", "yes"); ("true", "yes"); ("on", "yes"); ("1", "yes"); ("resolve", "resolve");
   ("no", "no"); ("false", "no"); ("off", "no"); ("0", "no")]%string.
Definition tls_words : list (string * string) :=
  [("", "no"); ("no", "no"); ("false", "no"); ("off", "no"); ("0", "no");
   ("opportunistic", "opportunistic"); ("yes", "yes"); ("true", "yes"); ("on", "yes"); ("1", "yes")]%string.
Definition dnssec_words : list (string * string) :=
  [("", "allow-downgrade"); ("allow-downgrade", "allow-downgrade"); ("no", "no"); ("false", "no");
   ("off", "no"); ("0", "no"); ("yes", "yes"); ("true", "yes"); ("on", "yes"); ("1", "yes")]%string.

(** The word, in any case and with blanks around it, sets a mode. *)
Definition mode_shown (words : list (string * string)) (text mode : str) : Prop :=
  ∃ word shown, (word, shown) ∈ words ∧ to_ascii_lowercase (trim text) = lit word ∧ mode = lit shown.

Definition address_fits (a : Z * bytes) : Prop :=
  a.1 = 2 ∧ len a.2 = 4 ∨ a.1 = 10 ∧ len a.2 = 16.

Definition entry_address (e : Z * bytes * Z * str) : Z * bytes :=
  let '(family, octets, _, _) := e in (family, octets).

(** The argument of a method is an address or a mode as it is to be. *)
Definition argument_fits (m : LinkMethod) : Prop :=
  match m with
  | SetDNS addresses => Forall address_fits addresses
  | SetDNSEx entries => Forall address_fits (entry_address <$> entries)
  | SetLLMNR text | SetMulticastDNS text => ∃ mode, mode_shown support_words text mode
  | SetDNSOverTLS text => ∃ mode, mode_shown tls_words text mode
  | SetDNSSEC text => ∃ mode, mode_shown dnssec_words text mode
  | _ => True
  end.

Definition names_of (m : LinkMethod) : list str :=
  match m with
  | SetDomainsOf ds => ds.*1
  | SetDNSSECNegativeTrustAnchors names => names
  | _ => []
  end.

(** The reasons to refuse a method, and the errors they give. *)
Inductive refused (sh : Shared) (i : Z) (m : LinkMethod) : (str → DbusError) → Prop :=
  | refused_argument : ¬ argument_fits m → refused sh i m DInvalidArgs
  | refused_managed : managed sh i = true → refused sh i m DLinkBusy
  | refused_index : i ≤ 0 → refused sh i m DNoSuchLink
  | refused_unknown : table_link (sh_routing sh) i = None →
      rt_kernel_synchronized (sh_routing sh) = true ∨ m = RevertOf → refused sh i m DNoSuchLink
  | refused_name text : text ∈ names_of m → (∀ n, ¬ name_shown text n) → refused sh i m DInvalidArgs.

(** ** What is shown *)

(** The properties of a link nothing is known of. *)
Definition blank_properties : LinkProperties :=
  mk_link_properties 30 [] (0, []) [] true (lit "yes") (lit "yes") (lit "no") (lit "allow-downgrade") [].

(** The properties of a link as the bus shows them. *)
Definition seen (env : Env) (i : Z) (w : World) : LinkProperties :=
  match (link_property env i link_properties w).1 with Ok (inr p) => p | _ => blank_properties end.

(** The setting of the default route, if there was one. *)
Definition route_setting (sh : Shared) (i : Z) : option bool :=
  table_link (sh_routing sh) i ≫= l_default_route.

(** The properties [p] after [m] was accepted; [old] are those before, [route] the
    setting of the default route before. *)
Record settings_shown (m : LinkMethod) (old : LinkProperties) (route : option bool) (p : LinkProperties) :
    Prop := {
  ss_dns : match m with
    | SetDNS addresses => shows eq addresses (lp_dns p)
    | SetDNSEx entries => ∀ a, a ∈ lp_dns p ↔ a ∈ entry_address <$> entries
    | RevertOf => lp_dns p = []
    | _ => lp_dns p = lp_dns old
    end;
  ss_domains : match m with
    | SetDomainsOf ds => shows (λ d d', name_shown d.1 d'.1 ∧ d'.2 = d.2) ds (lp_domains p)
    | RevertOf => lp_domains p = []
    | _ => lp_domains p = lp_domains old
    end;
  ss_llmnr : match m with
    | SetLLMNR text => mode_shown support_words text (lp_llmnr p)
    | RevertOf => lp_llmnr p = lit "yes"
    | _ => lp_llmnr p = lp_llmnr old
    end;
  ss_multicast_dns : match m with
    | SetMulticastDNS text => mode_shown support_words text (lp_multicast_dns p)
    | RevertOf => lp_multicast_dns p = lit "yes"
    | _ => lp_multicast_dns p = lp_multicast_dns old
    end;
  ss_dns_over_tls : match m with
    | SetDNSOverTLS text => mode_shown tls_words text (lp_dns_over_tls p)
    | RevertOf => lp_dns_over_tls p = lit "no"
    | _ => lp_dns_over_tls p = lp_dns_over_tls old
    end;
  ss_dnssec : match m with
    | SetDNSSEC text => mode_shown dnssec_words text (lp_dnssec p)
    | RevertOf => lp_dnssec p = lit "allow-downgrade"
    | _ => lp_dnssec p = lp_dnssec old
    end;
  ss_anchors : match m with
    | SetDNSSECNegativeTrustAnchors names => shows name_shown names (lp_dnssec_negative_trust_anchors p)
    | RevertOf => lp_dnssec_negative_trust_anchors p = []
    | _ => lp_dnssec_negative_trust_anchors p = lp_dnssec_negative_trust_anchors old
    end;
  (* without a setting, the default route is a link without routing domains but the root *)
  ss_default_route : lp_default_route p = true ↔
    match match m with SetDefaultRouteOf enable => Some enable | RevertOf => None | _ => route end with
    | Some enable => enable = true
    | None => ∀ n, (n, true) ∈ lp_domains p → n = [dot]
    end;
  ss_current : lp_current_dns_server p = match lp_dns p with a :: _ => a | [] => (0, []) end;
  ss_scopes : lp_scopes_mask p =
    (if bool_decide (lp_dns p = []) then 0 else 1) +
    (if bool_decide (lp_llmnr p = lit "no") then 0 else 6) +
    (if bool_decide (lp_multicast_dns p = lit "no") then 0 else 24);
}.

(** ** Names *)

Lemma trim_end_matches_app c s e :
  last s ≠ Some c → Forall (λ x, x = c) e → trim_end_matches c (s ++ e) = s.
Proof.
  intros Hs He; rewrite <- (trim_end_matches_id c s Hs) at 2; unfold trim_end_matches; f_equal.
  rewrite reverse_app; assert (Forall (λ x, x = c) (reverse e)) as He' by (by apply Forall_reverse).
  induction He' as [|x l -> _ IH]; [done|]; cbn; by rewrite Z.eqb_refl.
Qed.

(** The condition on a name that is not the root. *)
Lemma name_refused core :
  is_ascii core = true →
  (bool_decide (core = []) || negb (is_ascii core) || (253 <? str_len core)
   || existsb (λ label, bool_decide (label = []) || (63 <? str_len label)) (split_on dot core)) = false ↔
  core ≠ [] ∧ len core ≤ 253 ∧ Forall (λ label, 0 < len label ≤ 63) (split_on dot core).
Proof.
  intros Ha; pose proof (is_ascii_split dot core Ha) as Hs.
  rewrite Ha, is_ascii_str_len by done; cbn [negb]; rewrite orb_false_r, !orb_false_iff.
  rewrite bool_decide_eq_false, Z.ltb_ge, <- not_true_iff_false, existsb_exists, Forall_forall.
  rewrite Forall_forall in Hs; split; [intros [[H1 H2] H3]|intros (H1 & H2 & H3)]; split_and!; try done.
  - intros l Hl; specialize (Hs l Hl); cbn in Hs.
    destruct (bool_decide (l = []) || (63 <? str_len l)) eqn:Hb.
    { destruct H3; exists l; split; [by apply list_elem_of_In|done]. }
    apply orb_false_iff in Hb as [Hb Hb']; boolp; rewrite is_ascii_str_len in Hb' by done.
    destruct l; [done|]; unfold len in *; cbn [length] in *; lia.
  - intros (l & Hl & Hb); apply list_elem_of_In in Hl; specialize (H3 l Hl); specialize (Hs l Hl); cbn in Hs.
    rewrite is_ascii_str_len in Hb by done; apply orb_true_iff in Hb as [->%bool_decide_eq_true|Hb%Z.ltb_lt];
      [unfold len in H3; cbn in H3|]; lia.
Qed.

Lemma normalize_name_shown text n : normalize_name text = Ok n → name_shown text n.
Proof.
  unfold normalize_name.
  destruct (trim_end_matches_spec dot (trim text)) as (k & Heq & Hlast).
  set (t := trim_end_matches dot (trim text)) in *; intros H.
  assert (Forall (λ c, c = dot) (replicate k dot)) as Hdots by (by apply Forall_replicate).
  destruct (bool_decide (t = [])) eqn:Ht; [boolp; injection H as <-|].
  { exists [], [], (replicate k dot); rewrite Ht in Heq; split_and!; try done; by left. }
  destruct (bool_decide (t = lit "~")) eqn:Ht'; [boolp; injection H as <-|].
  { exists [126], [], (replicate k dot); rewrite Ht' in Heq; split_and!; try done; [by right|by left]. }
  cbn [orb] in H; set (core := default t (strip_prefix (lit "~") t)) in *.
  destruct (_ || _ || _ || existsb _ _) eqn:Hbad in H; [done|]; injection H as <-.
  assert (is_ascii core = true) as Ha.
  { apply orb_false_iff in Hbad as [[[_ Ha]%orb_false_iff _]%orb_false_iff _]; by boolp. }
  apply name_refused in Hbad as (Hne & Hl & Hlab); [|done].
  assert (∃ tilde, t = tilde ++ core ∧ (tilde = [] ∧ head core ≠ Some 126 ∨ tilde = [126])) as (tilde & Hc & Htil).
  { unfold core; destruct (strip_prefix (lit "~") t) as [u|] eqn:Hs; cbn.
    - apply strip_prefix_Some in Hs; exists [126]; split; [done|by right].
    - exists []; split; [done|]; left; split; [done|]; destruct t as [|c t']; [done|]; intros [= ->].
      apply (eq_None_ne_Some_1 _ t' Hs); by apply strip_prefix_Some. }
  exists tilde, core, (replicate k dot); split_and!; try done.
  + by rewrite app_assoc, <- Hc.
  + rewrite Hc, last_app in Hlast; destruct (last core) eqn:Hlc; [done|]; by rewrite last_None in Hlc.
  + right; split_and!; try done; by apply is_ascii_Forall.
Qed.

Lemma normalize_name_complete text n : name_shown text n → normalize_name text = Ok n.
Proof.
  unfold normalize_name; intros (tilde & core & dots & Heq & Htil & Hdots & Hlast & Hn).
  assert (trim_end_matches dot (trim text) = tilde ++ core) as ->.
  { rewrite Heq, app_assoc; apply trim_end_matches_app; [|done].
    destruct Htil as [[-> _]| ->]; [done|]; rewrite last_app; destruct (last core); [congruence|done]. }
  destruct Hn as [[-> ->]|(Hne & Ha & Hl & Hlab & ->)]; [by destruct Htil as [[-> _]| ->]|].
  assert (strip_prefix (lit "~") (tilde ++ core) = if decide (tilde = []) then None else Some core) as ->.
  { change (lit "~") with [126]; case_decide; destruct Htil as [[-> Hh]| ->]; try done.
    destruct core as [|c core]; [done|]; cbn [app strip_prefix]; destruct (Z.eqb_spec 126 c) as [<-|]; [by destruct Hh|done]. }
  assert (default (tilde ++ core) (if decide (tilde = []) then None else Some core) = core) as ->.
  { case_decide; [by subst|done]. }
  rewrite (proj2 (name_refused core (proj2 (is_ascii_Forall _) Ha))) by done.
  rewrite !bool_decide_eq_false_2; [done|..]; destruct Htil as [[-> Hh]| ->]; cbn; try done.
  + intros ->; by destruct Hh.
  + by intros [= ->].
Qed.

Lemma normalize_name_iff text n : normalize_name text = Ok n ↔ name_shown text n.
Proof. split; [apply normalize_name_shown|apply normalize_name_complete]. Qed.

(** ** Lists and modes *)

Lemma push_normalized_distinct {A B} `{EqDecision B} (f : A → lres B) xs l :
  push_normalized f xs [] = Ok l → ∃ values, Forall2 (λ x y, f x = Ok y) xs values ∧ l = distinct values.
Proof.
  unfold distinct; generalize (@nil B); revert l; induction xs as [|x xs IH]; intros l out; cbn [push_normalized].
  { intros [= <-]; by exists []. }
  intros (y & Hy & H)%bind_Ok; apply IH in H as (values & Hv & ->); exists (y :: values); by split; [constructor|].
Qed.

Lemma shows_distinct {A B C} `{EqDecision B} (R : A → C → Prop) (g : B → C) given values :
  Forall2 (λ x y, R x (g y)) given values → (∀ x y, x ∈ values → y ∈ values → g x = g y → x = y) →
  shows R given (g <$> distinct values).
Proof.
  intros HR Hg; exists (g <$> values); split_and!.
  - by apply Forall2_fmap_r.
  - apply NoDup_fmap_2_strong; [|apply distinct_NoDup]; intros x y; rewrite !elem_of_distinct; apply Hg.
  - intros v; rewrite !list_elem_of_fmap; by setoid_rewrite elem_of_distinct.
  - intros Hnd; rewrite distinct_id; [done|]; by apply NoDup_fmap_1 in Hnd.
Qed.

Lemma one_of_true v l : one_of v l = true → ∃ word, word ∈ l ∧ v = lit word.
Proof. intros H%bool_decide_eq_true; apply list_elem_of_fmap in H as (word & -> & H); eauto. Qed.

Lemma mode_found words text l (shown : string) :
  one_of (mode_text text) l = true → bool_decide (Forall (λ w, (w, shown) ∈ words) l) = true →
  mode_shown words text (lit shown).
Proof.
  intros (w & Hw & Ht)%one_of_true Hl%bool_decide_eq_true; rewrite Forall_forall in Hl.
  exists w, shown; split_and!; [by apply Hl|done..].
Qed.

Lemma mode_missing (words : list (string * string)) text l1 l2 l3 :
  one_of (mode_text text) l1 = false → one_of (mode_text text) l2 = false →
  one_of (mode_text text) l3 = false → words.*1 ⊆ l1 ++ l2 ++ l3 → ¬ ∃ mode, mode_shown words text mode.
Proof.
  unfold one_of; rewrite !bool_decide_eq_false; intros H1 H2 H3 Hin (mode & w & shown & Hw & Ht & _).
  assert (w ∈ l1 ++ l2 ++ l3) as Hl.
  { apply Hin, list_elem_of_fmap; by exists (w, shown). }
  unfold mode_text in *; rewrite Ht in *; rewrite !elem_of_app in Hl.
  destruct Hl as [Hl|[Hl|Hl]]; [apply H1|apply H2|apply H3]; by apply list_elem_of_fmap_2.
Qed.

Ltac mode_cases :=
  cbn zeta;
  repeat match goal with |- context [if one_of ?v ?l then _ else _] =>
    let H := fresh "H" in destruct (one_of v l) eqn:H end;
  [eapply mode_found; [eassumption|by vm_compute]..|
   split; [|by eexists];
   match goal with H1 : one_of _ _ = false, H2 : one_of _ _ = false, H3 : one_of _ _ = false |- _ =>
     apply (mode_missing _ _ _ _ _ H1 H2 H3) end; apply (bool_decide_eq_true _); by vm_compute].

Lemma support_mode_words text :
  match dbus_parse_support_mode text with
  | inr m => mode_shown support_words text (support_mode_string m)
  | inl e => (¬ ∃ mode, mode_shown support_words text mode) ∧ ∃ t, e = DInvalidArgs t
  end.
Proof. unfold dbus_parse_support_mode; mode_cases. Qed.

Lemma tls_mode_words text :
  match dbus_parse_tls_mode text with
  | inr m => mode_shown tls_words text (tls_mode_string m)
  | inl e => (¬ ∃ mode, mode_shown tls_words text mode) ∧ ∃ t, e = DInvalidArgs t
  end.
Proof. unfold dbus_parse_tls_mode; mode_cases. Qed.

Lemma dnssec_mode_words text :
  match dbus_parse_validation_mode text with
  | inr m => mode_shown dnssec_words text (validation_mode_string m)
  | inl e => (¬ ∃ mode, mode_shown dnssec_words text mode) ∧ ∃ t, e = DInvalidArgs t
  end.
Proof. unfold dbus_parse_validation_mode; mode_cases. Qed.

(** ** Methods and operations *)

(** The operation a method runs once its argument is decoded. *)
Definition method_op (m : LinkMethod) : dres link_op :=
  match m with
  | SetDNS addresses =>
      match decode_dns_servers addresses DBUS_DNS_PORT with
      | inl e => inl e | inr servers => inr (LinkDns (plain_spec <$> servers))
      end
  | SetDNSEx entries =>
      match decode_dns_server_specs entries with inl e => inl e | inr specs => inr (LinkDns specs) end
  | SetDomainsOf ds => inr (LinkDomains ((λ '(name, route_only), mk_domain name route_only) <$> ds))
  | SetDefaultRouteOf enable => inr (LinkDefaultRoute (Some enable))
  | SetLLMNR text => match dbus_parse_support_mode text with inl e => inl e | inr v => inr (LinkLlmnr v) end
  | SetMulticastDNS text =>
      match dbus_parse_support_mode text with inl e => inl e | inr v => inr (LinkMulticastDns v) end
  | SetDNSOverTLS text =>
      match dbus_parse_tls_mode text with inl e => inl e | inr v => inr (LinkDnsOverTls v) end
  | SetDNSSEC text =>
      match dbus_parse_validation_mode text with inl e => inl e | inr v => inr (LinkDnssec v) end
  | SetDNSSECNegativeTrustAnchors names => inr (LinkAnchors names)
  | RevertOf => inr LinkRevert
  end.

Lemma link_call_op strerror env i m w :
  link_call strerror env i m w =
    match method_op m with
    | inl e => (Ok (inl e), w)
    | inr op => returned strerror (run_link_op env i op) w
    end.
Proof.
  destruct m; cbn [link_call method_op]; try done;
    unfold dbus_set_dns, dbus_set_dns_ex, dbus_set_llmnr, dbus_set_multicast_dns, dbus_set_dns_over_tls,
      dbus_set_dnssec, or_error; by case_match.
Qed.

Lemma decode_address_fits family octets :
  match decode_address family octets with
  | inl e => ¬ address_fits (family, octets) ∧ ∃ t, e = DInvalidArgs t
  | inr ip => address_fits (family, octets) ∧ address_bytes ip = (family, octets)
  end.
Proof.
  destruct (decode_address family octets) as [e|ip] eqn:Hd.
  - unfold decode_address in Hd; unfold address_fits; cbn [fst snd].
    change 2 with AF_INET; change 10 with AF_INET6.
    destruct ((family =? AF_INET) && _) eqn:H4; [done|].
    destruct ((family =? AF_INET6) && _) eqn:H6; [done|]; injection Hd as <-; split; [|by eexists].
    apply andb_false_iff in H4, H6; rewrite !Z.eqb_neq in *; lia.
  - split; [|by apply decode_address_bytes].
    unfold decode_address in Hd; destruct (_ && _) eqn:H4; [boolp; by left|].
    destruct ((family =? AF_INET6) && _) eqn:H6; [boolp; by right|done].
Qed.

Lemma collect_decoded_fits {A B} (f : A → dres B) (fits : A → Prop) l :
  (∀ x, match f x with inl e => ¬ fits x ∧ ∃ t, e = DInvalidArgs t | inr _ => fits x end) →
  match collect_decoded f l with
  | inl e => ¬ Forall fits l ∧ ∃ t, e = DInvalidArgs t
  | inr _ => Forall fits l
  end.
Proof.
  intros Hf; induction l as [|x l IH]; cbn; [constructor|]; specialize (Hf x).
  destruct (f x); [destruct Hf as [Hn He]; split; [by intros [? _]%Forall_cons|done]|].
  destruct (collect_decoded f l); [destruct IH as [Hn He]; split; [by intros [_ ?]%Forall_cons|done]|].
  by constructor.
Qed.

(** The argument is refused exactly when it is not as it is to be. *)
Lemma method_op_fits m :
  match method_op m with
  | inl e => ¬ argument_fits m ∧ ∃ t, e = DInvalidArgs t
  | inr _ => argument_fits m
  end.
Proof.
  destruct m; cbn [method_op argument_fits]; try done.
  - unfold decode_dns_servers; match goal with |- context [collect_decoded ?f ?l] =>
      pose proof (collect_decoded_fits f address_fits l) as H; destruct (collect_decoded f l) end;
      apply H; intros [family octets]; pose proof (decode_address_fits family octets);
      destruct (decode_address family octets); naive_solver.
  - unfold decode_dns_server_specs; match goal with |- context [collect_decoded ?f ?l] =>
      pose proof (collect_decoded_fits f (address_fits ∘ entry_address) l) as H; destruct (collect_decoded f l) end;
      rewrite Forall_fmap; apply H; intros [[[family octets] port] name]; cbn;
      pose proof (decode_address_fits family octets); destruct (decode_address family octets); naive_solver.
  - pose proof (support_mode_words mode); destruct (dbus_parse_support_mode mode); [done|eauto].
  - pose proof (support_mode_words mode); destruct (dbus_parse_support_mode mode); [done|eauto].
  - pose proof (tls_mode_words mode); destruct (dbus_parse_tls_mode mode); [done|eauto].
  - pose proof (dnssec_mode_words mode); destruct (dbus_parse_validation_mode mode); [done|eauto].
Qed.

Lemma first_error_Some {A B E} (f : A → outcome E B) l e :
  first_error f l = Some e → ∃ x, x ∈ l ∧ f x = Err e.
Proof.
  unfold first_error; intros H; apply head_Some_elem_of in H.
  apply list_elem_of_omap in H as (x & Hx & Hf); exists x; split; [done|]; by destruct (f x); simplify_eq.
Qed.

Lemma first_error_None {A B E} (f : A → outcome E B) l x :
  first_error f l = None → x ∈ l → ∀ e, f x ≠ Err e.
Proof.
  unfold first_error; intros H Hx e He.
  assert (e ∈ omap (λ x, match f x with Err e => Some e | _ => None end) l) as Hin.
  { apply list_elem_of_omap; exists x; by rewrite He. }
  apply head_None in H; rewrite H in Hin; by apply elem_of_nil in Hin.
Qed.

Lemma name_not_shown text e : normalize_name text = Err e → (∃ t, e = InvalidDomain t) ∧ ∀ n, ¬ name_shown text n.
Proof.
  intros H; split; [|by intros n; rewrite <- normalize_name_iff, H].
  unfold normalize_name in H; repeat case_match; try done; injection H as <-; eauto.
Qed.

Lemma names_refused {A B} (f : A → lres B) (text : A → str) l :
  (∀ x, safe (f x)) → (∀ x e, f x = Err e ↔ normalize_name (text x) = Err e) →
  match first_error f l with
  | Some e => (∃ t, e = InvalidDomain t) ∧ ∃ s, s ∈ text <$> l ∧ ∀ n, ¬ name_shown s n
  | None => ∀ s, s ∈ text <$> l → ∃ n, name_shown s n
  end.
Proof.
  intros Hsafe Hf; destruct (first_error f l) as [e|] eqn:He.
  - apply first_error_Some in He as (x & Hx & He%Hf%name_not_shown); split; [apply He|].
    exists (text x); split; [by apply list_elem_of_fmap_2|apply He].
  - intros s (x & -> & Hx)%list_elem_of_fmap; pose proof (first_error_None f l x He Hx) as Hne.
    pose proof (normalize_name_safe (text x)) as Hs; destruct (normalize_name (text x)) as [n|e| |] eqn:Hn; try done.
    + exists n; by apply normalize_name_iff.
    + by apply Hf, Hne in Hn.
Qed.

Lemma input_refused m op :
  method_op m = inr op →
  match input_error op with
  | Some e => (∃ t, e = InvalidDomain t) ∧ ∃ s, s ∈ names_of m ∧ ∀ n, ¬ name_shown s n
  | None => ∀ s, s ∈ names_of m → ∃ n, name_shown s n
  end.
Proof.
  destruct m; cbn [method_op]; intros Hop; try (repeat case_match; simplify_eq; cbn; by intros ? ?%elem_of_nil).
  - injection Hop as <-; cbn [input_error names_of].
    pose proof (names_refused normalize_domain d_name
      ((λ '(name, route_only), mk_domain name route_only) <$> ds) normalize_domain_safe) as H.
    assert (d_name <$> ((λ '(name, route_only), mk_domain name route_only) <$> ds) = ds.*1) as Heq.
    { rewrite <- list_fmap_compose; apply list_fmap_ext; by intros k [n r]. }
    rewrite Heq in H; apply H; intros d e; unfold normalize_domain.
    destruct (normalize_name (d_name d)); split; intros [= ->]; done.
  - injection Hop as <-; cbn [input_error names_of].
    pose proof (names_refused normalize_name id names normalize_name_safe) as H.
    rewrite list_fmap_id in H; by apply H.
Qed.

(** An operation has an error exactly when its method is to be refused. *)
Lemma op_refused sh i m op :
  method_op m = inr op →
  match link_error sh i op with
  | Some e => ∃ error, refused sh i m error ∧ map_link_error e = error (link_error_text e)
  | None => ∀ error, ¬ refused sh i m error
  end.
Proof.
  intros Hop; pose proof (method_op_fits m) as Hfits; rewrite Hop in Hfits.
  pose proof (input_refused m op Hop) as Hin.
  assert (op = LinkRevert ↔ m = RevertOf) as Hrev.
  { split; [intros ->|intros ->; by injection Hop]; destruct m; cbn in Hop; repeat case_match; by simplify_eq. }
  unfold link_error, table_error; destruct (managed sh i) eqn:Hm.
  { eexists; split; [by apply refused_managed|done]. }
  destruct (Z.leb_spec i 0); [eexists; split; [by apply refused_index|done]|].
  destruct (bool_decide (rt_links (sh_routing sh) !! i = None) && _) eqn:Hu.
  { apply andb_true_iff in Hu as [Hu%bool_decide_eq_true Hr]; eexists; split; [|done].
    apply refused_unknown; [done|]; apply orb_true_iff in Hr as [?|Hr]; [by left|right].
    apply Hrev; by destruct op. }
  destruct (input_error op) as [e|].
  { destruct Hin as ([t ->] & s & Hs & Hn); eexists; split; [by eapply refused_name|done]. }
  intros error Href; destruct Href as [Hf|Hf|Hf|Hnone Hf|s Hs Hf]; [done|congruence|lia| |].
  - rewrite bool_decide_eq_true_2 in Hu by done; cbn [andb] in Hu; apply orb_false_iff in Hu as [Hk Ho].
    destruct Hf as [Hf|Hf%Hrev]; [congruence|by subst].
  - destruct (Hin s Hs) as [n Hn]; by apply (Hf n).
Qed.

(** ** The link an operation leaves *)

Definition known (t : RoutingTable) (i : Z) : LinkState := default (fresh_link i) (rt_links t !! i).

(** [l'] is [l] with what the operation sets. *)
Definition link_set (i : Z) (op : link_op) (l l' : LinkState) : Prop :=
  match op with
  | LinkDns specs => l' = { l with l_dns_servers := distinct (normalize_server i <$> (address <$> specs)) }
  | LinkDomains ds => ∃ v, push_normalized normalize_domain ds [] = Ok v ∧ l' = { l with l_domains := v }
  | LinkDefaultRoute v => l' = { l with l_default_route := v }
  | LinkLlmnr v => l' = { l with l_llmnr := v }
  | LinkMulticastDns v => l' = { l with l_multicast_dns := v }
  | LinkDnsOverTls v => l' = { l with l_dns_over_tls := v }
  | LinkDnssec v => l' = { l with l_dnssec := v }
  | LinkAnchors names => ∃ v, push_normalized normalize_name names [] = Ok v ∧
      l' = { l with l_dnssec_negative_trust_anchors := v }
  | LinkRevert => l' = { fresh_link i with l_kernel := l_kernel l }
  end.

Lemma link_update_set i op f l o : link_update i op = Some f → f l = Ok o → link_set i op l (default l o).
Proof.
  destruct op; intros [= <-]; cbn [link_set];
    try (intros Ho; apply (changed_to_cases _ _ l) in Ho as ->; case_decide; [subst; by destruct l|done]).
  - rewrite push_normalized_pure; cbn [mbind outcome_bind]; intros Ho.
    apply (changed_to_cases _ _ l) in Ho as ->; fold (distinct (normalize_server i <$> (address <$> specs))).
    case_decide as Heq; [|done]; fold (distinct (normalize_server i <$> (address <$> specs))) in Heq.
    rewrite <- Heq; by destruct l.
  - intros (v & Hv & Ho)%bind_Ok; exists v; split; [done|].
    apply (changed_to_cases _ _ l) in Ho as ->; case_decide; [subst; by destruct l|done].
  - intros (v & Hv & Ho)%bind_Ok; exists v; split; [done|].
    apply (changed_to_cases _ _ l) in Ho as ->; case_decide; [subst; by destruct l|done].
Qed.

Lemma link_mut_known t i l t' :
  link_mut t i = Ok (l, t') →
  l = known t i ∧ rt_links t' !! i = Some l ∧ ∀ j, j ≠ i → rt_links t' !! j = rt_links t !! j.
Proof.
  unfold link_mut, known; intros (u & Hv & H)%bind_Ok.
  destruct (rt_links t !! i) as [l0|] eqn:Hl; [injection H as <- <-; by rewrite Hl|].
  destruct (rt_kernel_synchronized t); [done|]; unfold link_new in H; rewrite Hv in H; injection H as <- <-.
  split_and!; [done|apply lookup_insert_eq|intros j Hj; by apply lookup_insert_ne].
Qed.

(** What an operation does to the table: a failed one leaves each link as it is. *)
Lemma routing_step_set t i op r t' :
  routing_step t (link_routing i op) = (r, t') →
  (∀ j, j ≠ i → rt_links t' !! j = rt_links t !! j) ∧
  match r with
  | Ok _ => ∃ l, rt_links t' !! i = Some l ∧ link_set i op (known t i) l
  | _ => known t' i = known t i
  end.
Proof.
  intros H; destruct (link_update i op) as [f|] eqn:Hu.
  - rewrite (link_update_step _ _ _ _ Hu) in H; unfold update_link in H.
    destruct (link_mut t i) as [[l t1]| | |] eqn:Hm; try by injection H as <- <-.
    apply link_mut_known in Hm as (-> & Hl & Ho).
    destruct (f (known t i)) as [[l'|]| | |] eqn:Hf; injection H as <- <-.
    2-5: split; [done|]; unfold known at 1; rewrite Hl; try done.
    + split; [intros j Hj; cbn; rewrite lookup_insert_ne by done; by apply Ho|].
      exists l'; split; [apply lookup_insert_eq|]; by apply (link_update_set i op f _ (Some l')).
    + exists (known t i); split; [done|]; by apply (link_update_set i op f _ None).
  - destruct op; try done; cbn [link_routing routing_step] in H; unfold revert, link_new, validate_ifindex in H.
    destruct (i <=? 0); [by injection H as <- <-|]; cbn [mbind outcome_bind] in H.
    destruct (rt_links t !! i) as [l|] eqn:Hl; cbn [ok_or mbind outcome_bind] in H; [|by injection H as <- <-].
    unfold known; rewrite Hl; case_bool_decide as Hb; injection H as <- <-.
    + split; [done|]; exists l; split; [done|exact Hb].
    + split; [intros j Hj; by apply lookup_insert_ne|]; eexists; split; [apply lookup_insert_eq|done].
Qed.

(** ** The properties of a link *)

Lemma seen_known env i w :
  (∀ n sh, others env n sh = sh) → seen env i w = link_properties (known (sh_routing (w_shared w)) i).
Proof.
  intros Ha; unfold seen, link_property, link_state, get_link, reading, mbind, st_bind, known, table_link.
  rewrite (atomically_alone env Ha); cbn [fst snd]; by destruct (_ !! i).
Qed.

Lemma property_shown env i w l :
  (∀ n sh, others env n sh = sh) → table_link (sh_routing (w_shared w)) i = Some l →
  (link_property env i link_properties w).1 = Ok (inr (link_properties l)).
Proof.
  intros Ha Hl; unfold link_property, link_state, get_link, reading, mbind, st_bind.
  rewrite (atomically_alone env Ha); cbn [fst snd]; by rewrite Hl.
Qed.

Lemma scopes_shown l :
  let p := link_properties l in
  lp_scopes_mask p =
    (if bool_decide (lp_dns p = []) then 0 else 1) +
    (if bool_decide (lp_llmnr p = lit "no") then 0 else 6) +
    (if bool_decide (lp_multicast_dns p = lit "no") then 0 else 24).
Proof.
  destruct l as [? dns ? ? llm mdns]; cbn [link_properties lp_scopes_mask lp_dns lp_llmnr lp_multicast_dns].
  unfold scopes_mask; cbn [l_dns_servers l_llmnr l_multicast_dns]; by destruct dns, llm, mdns.
Qed.

Lemma current_shown l :
  let p := link_properties l in
  lp_current_dns_server p = match lp_dns p with a :: _ => a | [] => (0, []) end.
Proof. destruct l as [? dns]; by destruct dns. Qed.

Lemma route_shown l :
  let p := link_properties l in
  lp_default_route p = true ↔
    match l_default_route l with
    | Some enable => enable = true
    | None => ∀ n, (n, true) ∈ lp_domains p → n = [dot]
    end.
Proof.
  cbn [link_properties lp_default_route lp_domains]; unfold effective_default_route.
  destruct (l_default_route l) as [enable|]; [done|].
  change (default ?d None) with d; rewrite negb_true_iff, <- not_true_iff_false, existsb_exists; split.
  - intros H n (d & [= -> Hr] & Hd)%list_elem_of_fmap; destruct (decide (d_name d = [dot])); [done|].
    destruct H; exists d; split; [by apply list_elem_of_In|]; rewrite <- Hr; cbn.
    apply negb_true_iff; by apply bool_decide_eq_false.
  - intros H (d & Hd & [Hr Hn]%andb_true_iff); apply list_elem_of_In in Hd.
    apply negb_true_iff, bool_decide_eq_false in Hn; apply Hn, H.
    apply list_elem_of_fmap; exists d; by rewrite Hr.
Qed.

(** ** The settings of a method *)

Lemma address_bytes_inj ip ip' : address_bytes ip = address_bytes ip' → ip = ip'.
Proof. destruct ip, ip'; intros [= ->]; done. Qed.

Lemma normalized_entry i s : link_dns_entry (normalize_server i s) = link_dns_entry s.
Proof. pose proof (normalize_endpoint i s) as H; injection H as H _; unfold link_dns_entry; by rewrite H. Qed.

Lemma servers_shown i addresses servers :
  decode_dns_servers addresses DBUS_DNS_PORT = inr servers →
  shows eq addresses (link_dns_entry <$> distinct (normalize_server i <$> (address <$> (plain_spec <$> servers)))).
Proof.
  intros H%collect_decoded_Forall2; rewrite <- (list_fmap_compose plain_spec address).
  assert (Forall2 (λ a s, ∃ ip, s = sock_new ip DBUS_DNS_PORT ∧ address_bytes ip = a) addresses servers) as Hd.
  { eapply Forall2_impl; [exact H|]; intros [family octets] s; cbn.
    destruct (decode_address family octets) as [|ip] eqn:Hd; [done|]; intros [= <-].
    exists ip; split; [done|by apply decode_address_bytes]. }
  apply shows_distinct.
  - rewrite !Forall2_fmap_r; eapply Forall2_impl; [exact Hd|]; intros a s (ip & -> & <-); cbn.
    rewrite normalized_entry; by destruct ip.
  - intros x y (s & -> & (x' & -> & Hx)%list_elem_of_fmap)%list_elem_of_fmap
      (s' & -> & (y' & -> & Hy)%list_elem_of_fmap)%list_elem_of_fmap; cbn; rewrite !normalized_entry.
    apply list_elem_of_lookup in Hx as [k Hk], Hy as [k' Hk'].
    destruct (Forall2_lookup_r _ _ _ _ _ Hd Hk) as (a & _ & ip & -> & _).
    destruct (Forall2_lookup_r _ _ _ _ _ Hd Hk') as (a' & _ & ip' & -> & _).
    intros Heq; f_equal; f_equal; apply address_bytes_inj; by destruct ip, ip'.
Qed.

Lemma specs_shown i entries specs a :
  decode_dns_server_specs entries = inr specs →
  a ∈ link_dns_entry <$> distinct (normalize_server i <$> (address <$> specs)) ↔ a ∈ entry_address <$> entries.
Proof.
  intros H%collect_decoded_Forall2.
  assert (link_dns_entry <$> (normalize_server i <$> (address <$> specs)) = entry_address <$> entries) as <-.
  { induction H as [|e s entries specs He _ IH]; [done|]; cbn [fmap list_fmap]; f_equal; [|exact IH].
    rewrite normalized_entry; apply decoded_spec in He; destruct e as [[[family octets] port] name]; apply He. }
  rewrite !list_elem_of_fmap; by setoid_rewrite elem_of_distinct.
Qed.

Lemma domains_shown ds v :
  push_normalized normalize_domain ((λ '(name, route_only), mk_domain name route_only) <$> ds) [] = Ok v →
  shows (λ d d', name_shown d.1 d'.1 ∧ d'.2 = d.2) ds ((λ d, (d_name d, d_route_only d)) <$> v).
Proof.
  intros (values & Hv & ->)%push_normalized_distinct; apply Forall2_fmap_l in Hv; apply shows_distinct.
  - eapply Forall2_impl; [exact Hv|]; intros [name route_only] d; cbn.
    intros (n & Hn & [= <-])%bind_Ok; split; [by apply normalize_name_iff|done].
  - by intros [] [] _ _ [= -> ->].
Qed.

Lemma anchors_shown names v :
  push_normalized normalize_name names [] = Ok v → shows name_shown names v.
Proof.
  intros (values & Hv & ->)%push_normalized_distinct; rewrite <- (list_fmap_id (distinct values)).
  apply shows_distinct; [|by intros]; eapply Forall2_impl; [exact Hv|]; intros; by apply normalize_name_iff.
Qed.

Ltac settings l' route :=
  cbn [link_set] in *;
  let Hr := fresh in let Hroute := fresh in
  pose proof (route_shown l') as Hroute; assert (l_default_route l' = route) as Hr by (by subst l');
  rewrite Hr in Hroute; split;
  first [exact Hroute|apply (current_shown l')|apply (scopes_shown l')|subst l'; try done].

(** An operation sets what its method asks for and nothing else. *)
Lemma op_settings i m op l l' :
  method_op m = inr op → link_set i op l l' →
  settings_shown m (link_properties l) (l_default_route l) (link_properties l').
Proof.
  intros Hop Hset.
  destruct m as [addresses|entries|ds|enable|text|text|text|text|names|]; cbn [method_op] in Hop.
  - destruct (decode_dns_servers _ _) eqn:Hd; simplify_eq.
    settings l' (l_default_route l); by apply servers_shown.
  - destruct (decode_dns_server_specs _) eqn:Hd; simplify_eq.
    settings l' (l_default_route l); intros; by apply specs_shown.
  - simplify_eq; destruct Hset as (v & Hv & Hset); settings l' (l_default_route l); by apply domains_shown.
  - simplify_eq; settings l' (Some enable).
  - pose proof (support_mode_words text) as Hw; destruct (dbus_parse_support_mode text); simplify_eq.
    settings l' (l_default_route l).
  - pose proof (support_mode_words text) as Hw; destruct (dbus_parse_support_mode text); simplify_eq.
    settings l' (l_default_route l).
  - pose proof (tls_mode_words text) as Hw; destruct (dbus_parse_tls_mode text); simplify_eq.
    settings l' (l_default_route l).
  - pose proof (dnssec_mode_words text) as Hw; destruct (dbus_parse_validation_mode text); simplify_eq.
    settings l' (l_default_route l).
  - simplify_eq; destruct Hset as (v & Hv & Hset); settings l' (l_default_route l); by apply anchors_shown.
  - simplify_eq; settings l' (@None bool).
Qed.

(** ** Properties *)

(** C13: the settings made on a link over the bus are those the bus shows.  Without
    interference, a method of a Link object is refused exactly when there is a
    reason to: an address whose length does not fit its family or a word that is
    no mode (invalid arguments), a link managed by the network manager (busy), an
    index that is not positive or a link that is not known (no such link), a
    domain or trust anchor that is no name (invalid arguments); a refused method
    leaves what the link shows.  Otherwise it succeeds and the properties of the
    link are those asked for: the servers and their families and octets, the
    domains and anchors in lower case without blanks, dots at the end and
    tildes, the modes by their names, the default route as set or else given by
    the domains; the mask of scopes and the current server follow from them,
    every other property stays, and so does every other link. *)
Theorem link_settings_shown strerror env i m w :
  (∀ n sh, others env n sh = sh) →
  let '(r, w') := link_call strerror env i m w in
  (∀ j, j ≠ i → table_link (sh_routing (w_shared w')) j = table_link (sh_routing (w_shared w)) j) ∧
  ((∃ error text, refused (w_shared w) i m error ∧ r = Ok (inl (error text)) ∧ seen env i w' = seen env i w) ∨
   (∀ error, ¬ refused (w_shared w) i m error) ∧ r = Ok (inr ()) ∧
   ∃ p, (link_property env i link_properties w').1 = Ok (inr p) ∧
     settings_shown m (seen env i w) (route_setting (w_shared w) i) p).
Proof.
  intros Ha; rewrite link_call_op; pose proof (method_op_fits m) as Hfits.
  destruct (method_op m) as [e|op] eqn:Hop.
  { destruct Hfits as [Hn [t ->]]; split; [done|]; left; exists DInvalidArgs, t; split; [|done].
    by apply refused_argument. }
  pose proof (op_refused (w_shared w) i m op Hop) as Href; pose proof (run_link_op_alone env Ha i op w) as Hrun.
  unfold returned, resolved, mbind, st_bind, attempt; destruct (run_link_op env i op w) as [r w'] eqn:Hr.
  unfold outcome_of, link_result, link_error in *; cbn [fst snd] in Hrun.
  destruct (managed (w_shared w) i) eqn:Hm.
  { injection Hrun as -> Hw'; destruct Href as (error & Href & He); split; [by rewrite Hw'|]; left.
    exists error, (link_error_text (ManagedLink i)); split_and!; [done|by rewrite <- He|by rewrite !seen_known, Hw']. }
  pose proof (routing_step_result (sh_routing (w_shared w)) i op) as Hres.
  destruct (routing_step _ _) as [r' t] eqn:Hs; cbn [fst] in Hres.
  apply routing_step_set in Hs as [Hother Hset].
  destruct (table_error _ i op) as [e|]; cbn in Hres.
  - subst r'; injection Hrun as -> Hw'; destruct Href as (error & Href & He); split; [by rewrite Hw'|]; left.
    exists error, (link_error_text e); split_and!; [done|by rewrite <- He|]; rewrite !seen_known, Hw' by done; cbn; by rewrite Hset.
  - destruct Hres as [b ->], Hset as (l & Hl & Hset); destruct (link_specs i op t _) as [b' specs].
    injection Hrun as -> Hw'.
    assert (sh_routing (w_shared w') = t) as Ht by (rewrite Hw'; by destruct (b || b')).
    cbn; rewrite Ht; split; [done|]; right; split_and!; [done..|]; exists (link_properties l); split.
    { apply property_shown; [done|]; by rewrite Ht. }
    rewrite seen_known by done; assert (route_setting (w_shared w) i =
      l_default_route (known (sh_routing (w_shared w)) i)) as ->; [|by eapply op_settings].
    unfold route_setting, known, table_link; by destruct (rt_links (sh_routing (w_shared w)) !! i).
Qed.

Definition example_domains : list (str * bool) := [(lit " ~Corp.Example. ", true); (lit ".", false)].

Lemma link_settings_shown_witness :
  let env := example_env (λ _, id) [] in
  ∃ w' p, link_call example_text env 2 (SetDomainsOf example_domains) example_world = (Ok (inr ()), w') ∧
    (link_property env 2 link_properties w').1 = Ok (inr p) ∧
    lp_domains p = [(lit "corp.example", true); (lit ".", false)] ∧
    settings_shown (SetDomainsOf example_domains) (seen env 2 example_world)
      (route_setting (w_shared example_world) 2) p.
Proof.
  intros env.
  pose proof (link_settings_shown example_text env 2 (SetDomainsOf example_domains) example_world
    (λ _ _, eq_refl)) as H.
  destruct (link_call example_text env 2 (SetDomainsOf example_domains) example_world) as [r w'] eqn:Hrun.
  assert (r = Ok (inr ())) as -> by (apply (f_equal fst) in Hrun; by vm_compute in Hrun).
  destruct H as [_ [(error & text & _ & [= _] & _)|(_ & _ & p & Hp & Hs)]].
  exists w', p; split_and!; try done.
  assert ((link_property env 2 link_properties (link_call example_text env 2 (SetDomainsOf example_domains)
    example_world).2).1 = Ok (inr p)) as Hp' by (by rewrite Hrun).
  vm_compute in Hp'; by injection Hp' as <-.
Defined.
