(* ===== verification/DaemonFacts.v ===== *)
(** * The stub resolver's sockets: properties

    Listeners, workers and the queues between them as a system of interleaved
    steps in which no datagram is lost silently and no reply made up, and the
    clients over TCP. *)

From S2P Require Import Prelude Stateful Text Net Sorting ConfigTypes Codec Names CodecFacts Packet PacketFacts CacheX Cache CacheFacts Routing RoutingFacts Edns EdnsFacts.
From S2P Require Import World WorldFacts Query Lookup ExchangeFacts ResolverInv QueryFacts LookupFacts Daemon.

(** ** The dispatcher *)

Definition has_room (c : channel) : Prop := ch_open c = true ∧ len (ch_jobs c) < UDP_QUEUE_PER_WORKER.

#[global] Instance has_room_dec c : Decision (has_room c).
Proof. unfold has_room; apply _. Defined.

Definition enqueued (c : channel) (job : UdpJob) : channel := mk_channel (ch_jobs c ++ [job]) true.

Lemma try_send_spec c job :
  try_send c job =
  if decide (has_room c) then Sent (enqueued c job)
  else if ch_open c then SendFull else SendDisconnected.
Proof.
  unfold try_send; destruct (decide (has_room c)) as [[-> Hr]|Hr]; cbn [negb].
  - by rewrite (proj2 (Z.leb_gt _ _)).
  - destruct (ch_open c) eqn:Ho; cbn; [|done].
    destruct (UDP_QUEUE_PER_WORKER <=? len (ch_jobs c)) eqn:Hl; boolp; [done|].
    destruct Hr; by split.
Qed.

Lemma dispatch_index_lt d start offset :
  ud_senders d ≠ [] → (dispatch_index d start offset < length (ud_senders d))%nat.
Proof.
  intros Hne; unfold dispatch_index, len; destruct (ud_senders d) as [|c l]; [done|]; cbn [length].
  pose proof (Z.mod_pos_bound (start + offset) (Z.of_nat (S (length l))) ltac:(lia)); lia.
Qed.

(** The channels tried from [start] in as many rounds as there are channels are
    all of them. *)
Lemma dispatch_index_surj d start i :
  (i < length (ud_senders d))%nat →
  ∃ offset, 0 ≤ offset < len (ud_senders d) ∧ dispatch_index d start offset = i.
Proof.
  intros Hi; assert (0 < len (ud_senders d)) by (unfold len; lia).
  exists ((Z.of_nat i - start) mod len (ud_senders d)).
  pose proof (Z.mod_pos_bound (Z.of_nat i - start) (len (ud_senders d)) ltac:(lia)); split; [done|].
  unfold dispatch_index; rewrite Z.add_mod_idemp_r by lia.
  replace (start + (Z.of_nat i - start)) with (Z.of_nat i) by lia.
  rewrite Z.mod_small; unfold len in *; lia.
Qed.

(** What a round of [dispatch] does: the job is sent to a channel with room, or
    the channel had none and nothing changed, or all channels were tried. *)
Lemma dispatch_try_cases d job start offset connected r d' :
  0 ≤ offset → dispatch_try d job start offset connected = (r, d') →
  (len (ud_senders d) ≤ offset ∧ r = Dispatched connected ∧ d' = d) ∨
  ∃ c, offset < len (ud_senders d) ∧ ud_senders d !! dispatch_index d start offset = Some c ∧
    (has_room c ∧ r = Dispatched true ∧
       d' = mk_dispatcher (<[dispatch_index d start offset := enqueued c job]> (ud_senders d)) (ud_next d) ∨
     ¬ has_room c ∧ d' = d ∧ ∃ connected', r = DispatchAt start (offset + 1) connected').
Proof.
  intros Ho; unfold dispatch_try; destruct (Z.leb_spec (len (ud_senders d)) offset) as [Hl|Hl].
  { intros [= <- <-]; by left. }
  destruct (lookup_lt_is_Some_2 (ud_senders d) (dispatch_index d start offset)) as [c Hc].
  { apply dispatch_index_lt; intros Hnil; rewrite Hnil in Hl; change (len []) with 0 in Hl; lia. }
  rewrite Hc, try_send_spec; intros H; right; exists c; split_and!; [done..|].
  destruct (decide (has_room c)); [injection H as <- <-; by left|right].
  destruct (ch_open c); injection H as <- <-; eauto.
Qed.

(** ** Workers and listeners together *)

(** A listener, where it is, and the channels that refused the job it is at, as
    they were when it tried them. *)
Record listener : Type := mk_listener {
  ls_endpoint : UdpEndpoint;
  ls_at : listener_at;
  ls_refused : list (nat * channel);
}.

(** The threads and the queues, and the history: what was received, the jobs
    served and the datagrams sent for them, and the jobs rejected, refused by the
    queues, and dropped with a queue. *)
Record udp_system : Type := mk_system {
  sy_dispatcher : UdpDispatcher;
  sy_listeners : list listener;
  sy_workers : list worker_at;
  sy_received : list UdpJob;
  sy_served : list UdpJob;
  sy_sent : list transmission;
  sy_rejected : list UdpJob;
  sy_refused : list (UdpJob * list (nat * channel));
  sy_dropped : list UdpJob;
}.

Definition queued (d : UdpDispatcher) : list UdpJob := ud_senders d ≫= ch_jobs.

Definition listener_jobs (l : listener) : list UdpJob :=
  match ls_at l with ListenerDispatch job _ _ _ => [job] | _ => [] end.
Definition worker_jobs (w : worker_at) : list UdpJob :=
  match w with WorkerServing job => [job] | _ => [] end.

Definition system_start (endpoints : list UdpEndpoint) (workers : nat) : udp_system :=
  mk_system (dispatcher_new (replicate workers (mk_channel [] true)))
    ((λ e, mk_listener e ListenerLoop []) <$> endpoints) (replicate workers WorkerLoop) [] [] [] [] [] [].

(** The job a listener makes of what it received. *)
Definition arrived (e : UdpEndpoint) (stop : bool) (received : io (bytes * SocketAddr)) : list UdpJob :=
  match stop, received with
  | false, inr (packet, peer) => [received_job e packet peer]
  | _, _ => []
  end.

Section system.
Context (env : Env) (self : Resolver) (fuel : nat) `{io : !IterOrder XKey CacheEntry, !IterOrderOk io}.
Context (so : StubOs).

(** A thread takes its next step: a listener at the head of its loop or in
    [dispatch], a worker at the head of its loop or with a job, which it serves in
    whatever state the resolver is by then. *)
Inductive udp_step (s : udp_system) : udp_system → Prop :=
  | step_listen j e refused stop received at' d :
      sy_listeners s !! j = Some (mk_listener e ListenerLoop refused) →
      match received with inr (packet, _) => packet_ok packet | inl _ => True end →
      udp_listener e stop received (sy_dispatcher s) = (at', d) →
      udp_step s
        { s with sy_dispatcher := d; sy_listeners := <[j := mk_listener e at' []]> (sy_listeners s);
                 sy_received := sy_received s ++ arrived e stop received;
                 sy_refused := sy_refused s ++
                   match at' with
                   | ListenerStopped => (λ job, (job, [])) <$> arrived e stop received
                   | _ => []
                   end }
  | step_try j e job start offset connected refused at' d :
      sy_listeners s !! j = Some (mk_listener e (ListenerDispatch job start offset connected) refused) →
      offset < len (ud_senders (sy_dispatcher s)) →
      udp_listener_dispatch job start offset connected (sy_dispatcher s) = (at', d) →
      udp_step s
        (let index := dispatch_index (sy_dispatcher s) start offset in
         let tried := (index, default (mk_channel [] false) (ud_senders (sy_dispatcher s) !! index)) in
         { s with sy_dispatcher := d;
                  sy_listeners := <[j := mk_listener e at' (refused ++ [tried])]> (sy_listeners s) })
  | step_give_up j e job start offset connected refused at' d :
      sy_listeners s !! j = Some (mk_listener e (ListenerDispatch job start offset connected) refused) →
      len (ud_senders (sy_dispatcher s)) ≤ offset →
      udp_listener_dispatch job start offset connected (sy_dispatcher s) = (at', d) →
      udp_step s
        { s with sy_dispatcher := d; sy_listeners := <[j := mk_listener e at' []]> (sy_listeners s);
                 sy_refused := sy_refused s ++ [(job, refused)] }
  | step_work i c stop connected at' c' :
      sy_workers s !! i = Some WorkerLoop → ud_senders (sy_dispatcher s) !! i = Some c →
      udp_worker stop connected c = (at', c') →
      udp_step s
        { s with sy_dispatcher := mk_dispatcher (<[i := c']> (ud_senders (sy_dispatcher s)))
                   (ud_next (sy_dispatcher s));
                 sy_workers := <[i := at']> (sy_workers s);
                 sy_dropped := sy_dropped s ++ match at' with WorkerStopped => ch_jobs c | _ => [] end }
  | step_serve i job r w w' :
      sy_workers s !! i = Some (WorkerServing job) → resolver_inv table_wf None (w_shared w) →
      serve_job env self fuel so job w = (Ok r, w') →
      udp_step s
        { s with sy_workers := <[i := WorkerLoop]> (sy_workers s);
                 sy_sent := sy_sent s ++ option_list r;
                 sy_served := sy_served s ++ match r with Some _ => [job] | None => [] end;
                 sy_rejected := sy_rejected s ++ match r with Some _ => [] | None => [job] end }.

(** A query as clients send them. *)
Definition is_client_query (packet : bytes) : Prop :=
  len packet ≤ 65000 ∧ ∃ h labels t c o, client_query packet h labels t c o.

(** The datagram goes from the socket of the job to its peer, and is an answer to
    its query. *)
Definition replies_to (job : UdpJob) (t : transmission) : Prop :=
  tx_socket t = uj_socket job ∧ tx_peer t = uj_peer job ∧
  ∀ h labels qt c o, client_query (uj_packet job) h labels qt c o → len (uj_packet job) ≤ 65000 →
    client_answer (uj_packet job) h labels qt c (tx_packet t).

(** The job was refused by every channel, none of which had room. *)
Definition refused_by_all (channels : nat) (refusal : UdpJob * list (nat * channel)) : Prop :=
  ∀ i, (i < channels)%nat → ∃ c, (i, c) ∈ refusal.2 ∧ ¬ has_room c.

Context (HE : query_env env fuel table_wf) (HW : waits_ok env fuel table_wf).

Lemma servfail_keeps query mode :
  packet_ok query →
  calls (features_inv (λ _ _, True) (resolver_inv table_wf None)) (λ _, True)
    (query_or_servfail env self fuel query mode) (λ _, True).
Proof using HE HW IterOrderOk0.
  intros Hp; unfold query_or_servfail.
  eapply calls_bind; [by eapply calls_attempt, query_keeps|]; intros [r|e| |] Hr; try done.
  - by apply calls_ret.
  - apply calls_wire; eapply wp_mono; [by apply error_response_wp|done].
Qed.

(** A worker always gets done with its job. *)
Lemma serve_job_total job w :
  packet_ok (uj_packet job) → resolver_inv table_wf None (w_shared w) →
  ∃ r w', serve_job env self fuel so job w = (Ok r, w') ∧ resolver_inv table_wf None (w_shared w').
Proof using HE HW IterOrderOk0.
  intros Hp Hw; pose proof (servfail_keeps _ (uj_mode job) Hp w (proj2 (inv_iff _ None _) Hw)) as Hq.
  unfold serve_job, send_to, mbind, st_bind, attempt, swp in *.
  destruct (query_or_servfail _ _ _ _ _ w) as [[r|e| |] w']; try done; cbn.
  - destruct Hq as [[Hi _] _]; eexists _, _; split; [done|]; by apply (inv_iff _ None) in Hi.
  - destruct Hq as [Hi _]; eexists _, _; split; [done|]; by apply (inv_iff _ None) in Hi.
Qed.

Lemma serve_job_replies job w r w' :
  resolver_inv table_wf None (w_shared w) → serve_job env self fuel so job w = (Ok r, w') →
  match r with
  | Some t => replies_to job t
  | None => ¬ is_client_query (uj_packet job)
  end.
Proof using HE HW IterOrderOk0.
  intros Hw Hr; assert (Hq : ∀ h labels t c o, client_query (uj_packet job) h labels t c o →
    len (uj_packet job) ≤ 65000 → ∃ tx, r = Some tx ∧
      client_answer (uj_packet job) h labels t c (tx_packet tx)).
  { intros h labels t c o Hc Hl.
    destruct (query_or_servfail_answers env self fuel io table_wf _ _ _ _ _ _ (uj_mode job) w _ HE HW
      Hc Hl Hw) as (response & w1 & Hrun & Ha & _).
    unfold serve_job, send_to, mbind, st_bind, attempt in Hr; rewrite Hrun in Hr; injection Hr as <- _; eauto. }
  destruct r as [tx|].
  - assert (tx_socket tx = uj_socket job ∧ tx_peer tx = uj_peer job) as [Hs Hp].
    { unfold serve_job, send_to, mbind, st_bind, attempt, next_event, mret, st_ret, lift in Hr.
      destruct (query_or_servfail _ _ _ _ _ w) as [[r|e| |] w1]; simplify_eq/=; done. }
    split_and!; [done..|]; intros h labels t c o Hc Hl.
    destruct (Hq _ _ _ _ _ Hc Hl) as (tx' & [= <-] & Ha); exact Ha.
  - intros (Hl & h & labels & t & c & o & Hc); by destruct (Hq _ _ _ _ _ Hc Hl) as (? & ? & _).
Qed.

(** The channels a listener has tried refused its job. *)
Definition listener_ok (workers : nat) (l : listener) : Prop :=
  match ls_at l with
  | ListenerDispatch job start offset _ =>
      0 ≤ offset ∧ ∀ k, 0 ≤ k < offset →
        ∃ c, (Z.to_nat ((start + k) mod Z.of_nat workers), c) ∈ ls_refused l ∧ ¬ has_room c
  | _ => True
  end.

Record system_inv (workers : nat) (s : udp_system) : Prop := {
  si_channels : length (ud_senders (sy_dispatcher s)) = workers;
  si_bound : Forall (λ c, len (ch_jobs c) ≤ UDP_QUEUE_PER_WORKER) (ud_senders (sy_dispatcher s));
  si_listeners : Forall (listener_ok workers) (sy_listeners s);
  si_jobs : Forall (λ job, packet_ok (uj_packet job)) (sy_received s);
  si_history : sy_received s ≡ₚ (sy_listeners s ≫= listener_jobs) ++ queued (sy_dispatcher s) ++
    (sy_workers s ≫= worker_jobs) ++ sy_served s ++ sy_rejected s ++ (sy_refused s).*1 ++ sy_dropped s;
  si_sent : Forall2 replies_to (sy_served s) (sy_sent s);
  si_rejected : Forall (λ job, ¬ is_client_query (uj_packet job)) (sy_rejected s);
  si_refused : Forall (refused_by_all workers) (sy_refused s);
  si_dropped : sy_dropped s ≠ [] → WorkerStopped ∈ sy_workers s;
}.

Lemma bind_insert {A B} (f : A → list B) (l : list A) i x :
  l !! i = Some x →
  ∃ rest, l ≫= f ≡ₚ f x ++ rest ∧ ∀ y, <[i := y]> l ≫= f ≡ₚ f y ++ rest.
Proof.
  intros Hi; exists ((take i l ≫= f) ++ (drop (S i) l ≫= f)).
  assert (Hall : ∀ y, <[i := y]> l ≫= f ≡ₚ f y ++ (take i l ≫= f) ++ (drop (S i) l ≫= f)).
  { intros y; rewrite insert_take_drop by (by eapply lookup_lt_Some).
    rewrite bind_app, bind_cons; apply Permutation_app_swap_app. }
  split; [|done]; rewrite <-(list_insert_id l i x) at 1 by done; apply Hall.
Qed.

Lemma stopped_stays (l : list worker_at) i x y :
  l !! i = Some x → x ≠ WorkerStopped → WorkerStopped ∈ l → WorkerStopped ∈ <[i := y]> l.
Proof.
  intros Hi Hx [j Hj]%list_elem_of_lookup; apply list_elem_of_lookup; exists j.
  rewrite list_lookup_insert_ne; [done|]; intros ->; congruence.
Qed.

Lemma packet_ok_take n p : packet_ok p → packet_ok (take n p).
Proof.
  intros [Hb Hl]; split; [by apply Forall_take|]; unfold len in *; rewrite length_take; lia.
Qed.

Lemma listen_inv workers s j e refused stop received at' d :
  sy_listeners s !! j = Some (mk_listener e ListenerLoop refused) →
  match received with inr (packet, _) => packet_ok packet | inl _ => True end →
  udp_listener e stop received (sy_dispatcher s) = (at', d) → system_inv workers s →
  system_inv workers
    { s with sy_dispatcher := d; sy_listeners := <[j := mk_listener e at' []]> (sy_listeners s);
             sy_received := sy_received s ++ arrived e stop received;
             sy_refused := sy_refused s ++
               match at' with
               | ListenerStopped => (λ job, (job, [])) <$> arrived e stop received
               | _ => []
               end }.
Proof.
  intros Hj Hp Hl [Hc Hb Hls Hjobs Hh Hs Hr Hrf Hd].
  destruct (bind_insert listener_jobs _ _ _ Hj) as (rest & Hq & Hq'); cbn in Hq.
  assert (ud_senders d = ud_senders (sy_dispatcher s) ∧
    (at' = ListenerLoop ∧ arrived e stop received = [] ∨
     at' = ListenerStopped ∧ (arrived e stop received = [] ∨ workers = 0%nat) ∨
     ∃ job start, at' = ListenerDispatch job start 0 false ∧ arrived e stop received = [job])) as [Hsd Hcase].
  { unfold udp_listener, dispatch_begin in Hl; destruct stop; [injection Hl as <- <-; split; [done|]; auto|].
    destruct received as [err|[packet peer]]; [injection Hl as <- <-; split; [done|]; by left|].
    case_bool_decide as Hnil; injection Hl as <- <-; split; try done; right; [left|right; by do 2 eexists].
    split; [done|]; right; by rewrite <- Hc, Hnil. }
  split; cbn; try done; [by rewrite Hsd|by rewrite Hsd|..].
  - apply Forall_insert; [done|]; destruct Hcase as [[-> _]|[[-> _]|(job & start & -> & _)]]; cbn; try done.
    split; [done|]; lia.
  - apply Forall_app_2; [done|]; destruct stop; [constructor|]; destruct received as [|[packet peer]]; [constructor|].
    constructor; [by apply packet_ok_take|constructor].
  - assert (queued d = queued (sy_dispatcher s)) as -> by (unfold queued; by rewrite Hsd).
    rewrite Hh, Hq, (Hq' (mk_listener e at' [])).
    destruct Hcase as [[-> ->]|[[-> _]|(job & start & -> & ->)]]; cbn [listener_jobs ls_at app].
    + by rewrite !app_nil_r.
    + rewrite fmap_app, <- list_fmap_compose; change (fst ∘ _) with (@id UdpJob); rewrite list_fmap_id.
      solve_Permutation.
    + rewrite app_nil_r; solve_Permutation.
  - destruct Hcase as [[-> _]|[[-> Ha]|(job & start & -> & _)]]; rewrite ?app_nil_r; try done.
    apply Forall_app_2; [done|]; destruct Ha as [-> | Ha]; [constructor|].
    apply Forall_fmap, Forall_true; intros job i Hi; lia.
Qed.

Lemma try_inv workers s j e job start offset connected refused at' d :
  sy_listeners s !! j = Some (mk_listener e (ListenerDispatch job start offset connected) refused) →
  offset < len (ud_senders (sy_dispatcher s)) →
  udp_listener_dispatch job start offset connected (sy_dispatcher s) = (at', d) → system_inv workers s →
  let index := dispatch_index (sy_dispatcher s) start offset in
  let tried := (index, default (mk_channel [] false) (ud_senders (sy_dispatcher s) !! index)) in
  system_inv workers
    { s with sy_dispatcher := d;
             sy_listeners := <[j := mk_listener e at' (refused ++ [tried])]> (sy_listeners s) }.
Proof.
  intros Hj Ho Hl [Hc Hb Hls Hjobs Hh Hs Hr Hrf Hd] index tried.
  pose proof (Forall_lookup_1 _ _ _ _ Hls Hj) as [Hpos Htried]; cbn [ls_refused] in Htried.
  destruct (bind_insert listener_jobs _ _ _ Hj) as (rest & Hq & Hq'); cbn in Hq.
  unfold udp_listener_dispatch in Hl; destruct (dispatch_try _ _ _ _ _) as [r d'] eqn:Ht; injection Hl as <- <-.
  apply dispatch_try_cases in Ht as [[? _]|(c & _ & Hi & Ht)]; [lia| |done]; fold index in Hi, Ht.
  destruct Ht as [(Hroom & -> & ->)|(Hno & -> & connected' & ->)].
  - split; cbn; try done; [by rewrite length_insert|..].
    + apply Forall_insert; [done|]; unfold enqueued; cbn; rewrite len_app; change (len [job]) with 1.
      destruct Hroom; unfold UDP_QUEUE_PER_WORKER in *; lia.
    + by apply Forall_insert.
    + destruct (bind_insert ch_jobs _ _ _ Hi) as (others & Hqu & Hqu').
      unfold queued in *; cbn [ud_senders]; rewrite Hh, Hq, (Hq' (mk_listener e ListenerLoop _)), Hqu, Hqu'.
      cbn [listener_jobs ls_at enqueued ch_jobs app]; solve_Permutation.
  - split; cbn; try done.
    + apply Forall_insert; [done|]; cbn; split; [lia|]; intros k Hk.
      destruct (decide (k = offset)) as [->|]; [|destruct (Htried k) as (c' & Hc' & ?); [lia|]; exists c'; set_solver].
      exists c; split; [|done]; apply elem_of_app; right; apply list_elem_of_singleton; unfold tried.
      rewrite Hi; cbn; unfold index, dispatch_index, len; by rewrite Hc.
    + by rewrite Hh, Hq, (Hq' (mk_listener e (ListenerDispatch job start (offset + 1) connected') _)).
Qed.

Lemma give_up_inv workers s j e job start offset connected refused at' d :
  sy_listeners s !! j = Some (mk_listener e (ListenerDispatch job start offset connected) refused) →
  len (ud_senders (sy_dispatcher s)) ≤ offset →
  udp_listener_dispatch job start offset connected (sy_dispatcher s) = (at', d) → system_inv workers s →
  system_inv workers
    { s with sy_dispatcher := d; sy_listeners := <[j := mk_listener e at' []]> (sy_listeners s);
             sy_refused := sy_refused s ++ [(job, refused)] }.
Proof.
  intros Hj Ho Hl [Hc Hb Hls Hjobs Hh Hs Hr Hrf Hd].
  pose proof (Forall_lookup_1 _ _ _ _ Hls Hj) as [Hpos Htried]; cbn [ls_refused] in Htried.
  destruct (bind_insert listener_jobs _ _ _ Hj) as (rest & Hq & Hq'); cbn in Hq.
  unfold udp_listener_dispatch, dispatch_try in Hl; rewrite (proj2 (Z.leb_le _ _)) in Hl by done.
  injection Hl as Hat <-.
  assert (listener_jobs (mk_listener e at' []) = [] ∧ listener_ok workers (mk_listener e at' [])) as [Hnone Hok]
    by (rewrite <- Hat; by destruct connected).
  split; cbn; try done.
  - by apply Forall_insert.
  - rewrite Hh, Hq, (Hq' (mk_listener e at' [])), Hnone, fmap_app; cbn; solve_Permutation.
  - apply Forall_app_2; [done|]; apply Forall_singleton; intros i Hi; cbn.
    rewrite <- Hc in Hi; destruct (dispatch_index_surj _ start i Hi) as (k & Hk & <-).
    destruct (Htried k) as (c & Hin & Hno); [lia|]; exists c; split; [|done].
    unfold dispatch_index, len; by rewrite Hc.
Qed.

Lemma work_inv workers s i c stop connected at' c' :
  sy_workers s !! i = Some WorkerLoop → ud_senders (sy_dispatcher s) !! i = Some c →
  udp_worker stop connected c = (at', c') → system_inv workers s →
  system_inv workers
    { s with sy_dispatcher := mk_dispatcher (<[i := c']> (ud_senders (sy_dispatcher s)))
               (ud_next (sy_dispatcher s));
             sy_workers := <[i := at']> (sy_workers s);
             sy_dropped := sy_dropped s ++ match at' with WorkerStopped => ch_jobs c | _ => [] end }.
Proof.
  intros Hw Hi Hstep [Hc Hb Hls Hjobs Hh Hs Hr Hrf Hd].
  destruct (bind_insert worker_jobs _ _ _ Hw) as (rest & Hq & Hq'); cbn in Hq.
  destruct (bind_insert ch_jobs _ _ _ Hi) as (others & Hqu & Hqu').
  pose proof (Forall_lookup_1 _ _ _ _ Hb Hi) as Hlen; cbn in Hlen.
  assert (ch_jobs c ≡ₚ ch_jobs c' ++ worker_jobs at' ++ match at' with WorkerStopped => ch_jobs c | _ => [] end ∧
    len (ch_jobs c') ≤ UDP_QUEUE_PER_WORKER) as [Hjc Hlen'].
  { unfold udp_worker, recv_timeout in Hstep; destruct stop; [injection Hstep as <- <-; split_and!; try done|].
    destruct (ch_jobs c) as [|job jobs] eqn:Hjc.
    - destruct connected; injection Hstep as <- <-; rewrite ?Hjc; split_and!; try done.
    - injection Hstep as <- <-; cbn; rewrite len_cons in Hlen; split_and!; try done; [solve_Permutation|lia]. }
  split; cbn; try done; [by rewrite length_insert|by apply Forall_insert|..].
  - unfold queued in *; cbn [ud_senders]; rewrite Hh, Hq, (Hq' at'), Hqu, Hqu', Hjc; cbn [app].
    solve_Permutation.
  - intros Hne; destruct at' as [|job|].
    1-2: rewrite app_nil_r in Hne; eapply stopped_stays; [done..|by apply Hd].
    apply list_elem_of_lookup; exists i; apply list_lookup_insert_eq; by eapply lookup_lt_Some.
Qed.

Lemma serve_inv workers s i job r w w' :
  sy_workers s !! i = Some (WorkerServing job) → resolver_inv table_wf None (w_shared w) →
  serve_job env self fuel so job w = (Ok r, w') → system_inv workers s →
  system_inv workers
    { s with sy_workers := <[i := WorkerLoop]> (sy_workers s);
             sy_sent := sy_sent s ++ option_list r;
             sy_served := sy_served s ++ match r with Some _ => [job] | None => [] end;
             sy_rejected := sy_rejected s ++ match r with Some _ => [] | None => [job] end }.
Proof using All.
  intros Hi Hw Hrun [Hc Hb Hls Hjobs Hh Hs Hr Hrf Hd]; pose proof (serve_job_replies _ _ _ _ Hw Hrun) as Hans.
  destruct (bind_insert worker_jobs _ _ _ Hi) as (rest & Hq & Hq'); cbn in Hq; split; cbn; try done.
  - rewrite Hh, Hq, (Hq' WorkerLoop); cbn [worker_jobs app]; destruct r; rewrite ?app_nil_r; solve_Permutation.
  - destruct r as [t|]; cbn; [|by rewrite !app_nil_r]; by apply Forall2_app; [|constructor].
  - destruct r as [t|]; [by rewrite app_nil_r|]; apply Forall_app_2; [done|by constructor].
  - intros Hne; eapply stopped_stays; [done..|by apply Hd].
Qed.

Lemma start_inv endpoints workers : system_inv workers (system_start endpoints workers).
Proof.
  split; cbn; try done.
  - by rewrite length_replicate.
  - apply Forall_replicate; by vm_compute.
  - by apply Forall_fmap, Forall_true.
  - enough (((λ e, mk_listener e ListenerLoop []) <$> endpoints) ≫= listener_jobs = [] ∧
      (replicate workers (mk_channel [] true) ≫= ch_jobs) = [] ∧
      (replicate workers WorkerLoop ≫= worker_jobs) = []) as (-> & H & ->).
    { unfold queued; cbn; by rewrite H. }
    split_and!; [by induction endpoints|by induction workers..].
Qed.

Lemma reachable_inv endpoints workers s :
  rtc udp_step (system_start endpoints workers) s → system_inv workers s.
Proof using All.
  intros H; assert (∀ s s', rtc udp_step s s' → system_inv workers s → system_inv workers s') as Hr.
  { induction 1 as [|s1 s2 s3 Hs _ IH]; [done|]; intros Hi; apply IH; destruct Hs.
    - by eapply listen_inv.
    - by eapply try_inv.
    - by eapply give_up_inv.
    - by eapply work_inv.
    - by eapply serve_inv. }
  eapply Hr; [exact H|apply start_inv].
Qed.
End system.

(** ** Clients over TCP *)

Definition tcp_frame (p : bytes) : bytes := u16_bytes (len p) ++ p.

Section tcp.
Context (env : Env) (self : Resolver) (fuel : nat) `{io : !IterOrder XKey CacheEntry, !IterOrderOk io}.
Context (so : StubOs).
Context (HE : query_env env fuel table_wf) (HW : waits_ok env fuel table_wf).

Lemma read_frame q rest e :
  0 < len q ≤ 65535 →
  read_exact (mk_stream (tcp_frame q ++ rest) e) 2 = inr (u16_bytes (len q), mk_stream (q ++ rest) e) ∧
  be16 (len q / 256) (len q mod 256) = len q ∧
  read_exact (mk_stream (q ++ rest) e) (len q) = inr (q, mk_stream rest e).
Proof.
  intros Hq; unfold read_exact, tcp_frame; cbn [ts_input ts_end]; split_and!.
  - rewrite <-app_assoc, !len_app; change (len (u16_bytes _)) with 2.
    by rewrite (proj2 (Z.leb_le _ _)) by (pose proof (len_nonneg rest); lia).
  - unfold be16; pose proof (Z.div_mod (len q) 256 ltac:(lia)); lia.
  - rewrite len_app, (proj2 (Z.leb_le _ _)) by (pose proof (len_nonneg rest); lia).
    unfold len; rewrite Nat2Z.id, take_app_length, drop_app_length; done.
Qed.

Definition answered (q r : bytes) : Prop :=
  ∀ h labels t c o, client_query q h labels t c o → client_answer q h labels t c r.

(** How a connection with [queries] ends after [responses] in at most [rounds]
    rounds, [e] being the error of a read beyond the queries: what was written
    of one more response, and the error. *)
Inductive tcp_end (rounds : nat) (queries : list bytes) (e : IoError) (responses : list bytes) :
    bytes → option TcpError → Prop :=
  | tcp_all :
      length responses = (rounds `min` length queries)%nat →
      tcp_end rounds queries e responses []
        (if bool_decide (rounds ≤ length queries)%nat then None
         else if is_closed e then None else Some (TcpIo e))
  | tcp_large q r :
      (length responses < rounds)%nat → queries !! length responses = Some q → answered q r →
      65535 < len r → tcp_end rounds queries e responses [] (Some (TcpIo large_response))
  | tcp_unwritten q r n p partial e' :
      (length responses < rounds)%nat → queries !! length responses = Some q → answered q r →
      p = u16_bytes (len r) ∧ partial = [] ∨ p = r ∧ partial = u16_bytes (len r) →
      so_write so n p = inl e' → tcp_end rounds queries e responses partial (Some (TcpIo e')).

Lemma tcp_end_cons rounds q queries e r responses partial err :
  tcp_end rounds queries e responses partial err →
  tcp_end (S rounds) (q :: queries) e (r :: responses) partial err.
Proof.
  intros [Hl|q' r' Hl Hq Ha Hr|q' r' n p part e' Hl Hq Ha Hp Hw].
  - replace (bool_decide (rounds ≤ length queries)%nat) with
      (bool_decide (S rounds ≤ length (q :: queries))%nat) by (apply bool_decide_ext; cbn; lia).
    constructor; cbn; lia.
  - by eapply tcp_large; [cbn; lia|..].
  - by eapply tcp_unwritten; [cbn; lia|..].
Qed.

Lemma tcp_loop_serves rounds queries e mode written w :
  Forall is_client_query queries → resolver_inv table_wf None (w_shared w) →
  ∃ responses partial err w',
    tcp_loop env self fuel so rounds (mk_stream (concat (tcp_frame <$> queries)) e) mode written w =
      (Ok (mk_tcp_result (written ++ concat (tcp_frame <$> responses) ++ partial) err), w') ∧
    Forall2 answered (take (length responses) queries) responses ∧
    tcp_end rounds queries e responses partial err ∧ resolver_inv table_wf None (w_shared w').
Proof using All.
  intros HF; revert queries HF written w; induction rounds as [|n IH]; intros queries HF written w Hw.
  { exists [], [], None, w; rewrite app_nil_r; split_and!; [done|constructor| |done].
    apply (tcp_all 0 queries e []); done. }
  destruct HF as [|q queries Hq HF]; cbn [tcp_loop fmap list_fmap concat].
  { assert (read_exact (mk_stream [] e) 2 = inl e) as -> by done.
    eexists [], [], _, w; rewrite app_nil_r; split_and!; [done|constructor| |done].
    apply (tcp_all (S n) [] e []); done. }
  destruct Hq as (Hlen & h & labels & t & c & o & Hc).
  assert (Hpos : 12 ≤ len q).
  { destruct Hc as (pre & tail & _ & Ha & _); by eapply header_parse_len, an_header. }
  destruct (read_frame q (concat (tcp_frame <$> queries)) e ltac:(lia)) as (Hr1 & Hbe & Hr2).
  rewrite Hr1; cbn [u16_bytes]; rewrite Hbe, (proj2 (Z.eqb_neq _ _)), Hr2 by lia.
  destruct (query_or_servfail_answers env self fuel io table_wf _ _ _ _ _ _ mode w _ HE HW
    Hc Hlen Hw) as (r & w1 & Hrun & _ & Hw1).
  assert (Hans : answered q r).
  { intros h' labels' t' c' o' Hc'.
    destruct (query_or_servfail_answers env self fuel io table_wf _ _ _ _ _ _ mode w _ HE HW
      Hc' Hlen Hw) as (r' & w1' & Hrun' & Ha & _); congruence. }
  unfold mbind, st_bind, attempt, next_event; rewrite Hrun; destruct (65535 <? len r) eqn:Hl; boolp.
  { exists [], [], (Some (TcpIo large_response)), w1; rewrite app_nil_r.
    split_and!; [done|constructor|by apply (tcp_large _ _ _ _ q r); [cbn; lia|..]|done]. }
  destruct (so_write so (w_events w1) _) as [e'|] eqn:Hw2.
  { eexists [], [], _, _; rewrite app_nil_r; split_and!; [done|constructor| |exact Hw1].
    apply (tcp_unwritten _ _ _ _ q r (w_events w1) (u16_bytes (len r))); [cbn; lia|done|done|by left|done]. }
  match goal with |- context [so_write so ?n r] => destruct (so_write so n r) as [e'|] eqn:Hw3 end.
  { eexists [], (u16_bytes (len r)), _, _; split_and!; [done|constructor| |exact Hw1].
    eapply tcp_unwritten; [cbn; lia|done|done|by right|exact Hw3]. }
  match goal with |- context [tcp_loop _ _ _ _ n _ _ _ ?w2] =>
    destruct (IH queries HF (written ++ u16_bytes (len r) ++ r) w2 Hw1)
      as (rs & partial & err & w' & Hloop & HF2 & Hend & Hw') end.
  exists (r :: rs), partial, err, w'; split_and!; [|by constructor|by apply tcp_end_cons|done].
  rewrite Hloop; cbn [fmap list_fmap concat]; unfold tcp_frame at 2; by rewrite <-!app_assoc.
Qed.
End tcp.

(** ** Properties *)

(** C15: datagrams are neither lost silently nor answered twice.  However the steps
    of the listeners and workers interleave (each access to the queues and to
    the dispatcher's counter is a step), each datagram received is, at any time, in
    exactly one place: with a listener that dispatches it, in a queue, with a
    worker, served by one datagram given to the socket it came from for its peer,
    rejected, refused by every queue, none of which had room when it was tried,
    or dropped with the queue of a worker that stopped.  The datagram sent is an
    answer to the query it is sent for, whether or not the socket sends it; no
    well-formed query is rejected, no queue exceeds its bound, nothing is dropped
    before a worker stopped, and a worker always gets done with its job.  The
    conditions on the clock, the network and other threads are those of
    [query_env] and [waits_ok]. *)
Theorem udp_jobs_accounted env self fuel (io : IterOrder XKey CacheEntry) so endpoints workers s :
  IterOrderOk io → query_env env fuel table_wf → waits_ok env fuel table_wf →
  rtc (udp_step env self fuel so) (system_start endpoints workers) s →
  (sy_received s ≡ₚ (sy_listeners s ≫= listener_jobs) ++ queued (sy_dispatcher s) ++
     (sy_workers s ≫= worker_jobs) ++ sy_served s ++ sy_rejected s ++ (sy_refused s).*1 ++ sy_dropped s) ∧
  Forall2 replies_to (sy_served s) (sy_sent s) ∧
  Forall (λ job, ¬ is_client_query (uj_packet job)) (sy_rejected s) ∧
  Forall (refused_by_all workers) (sy_refused s) ∧
  (sy_dropped s ≠ [] → WorkerStopped ∈ sy_workers s) ∧
  Forall (λ c, len (ch_jobs c) ≤ UDP_QUEUE_PER_WORKER) (ud_senders (sy_dispatcher s)) ∧
  ∀ i job w, sy_workers s !! i = Some (WorkerServing job) → resolver_inv table_wf None (w_shared w) →
    ∃ r w', serve_job env self fuel so job w = (Ok r, w') ∧
      resolver_inv table_wf None (w_shared w').
Proof.
  intros Hio HE HW Hr; destruct (reachable_inv env self fuel so HE HW endpoints workers s Hr)
    as [Hc Hb Hl Hj Hh Hs Hrej Href Hd].
  split_and!; [done..|]; intros i job w Hi Hw; apply serve_job_total; [done..| |done].
  assert (job ∈ sy_received s) as Hin.
  { rewrite Hh; destruct (bind_insert worker_jobs _ _ _ Hi) as (rest & -> & _); cbn; set_solver. }
  rewrite Forall_forall in Hj; apply (Hj job Hin).
Qed.

Definition quiet_os : StubOs :=
  mk_stub_os (λ _ _, inr 3) (λ _ _, inr ()) (λ _ _, inr 4) (λ _ _, inr ()) (λ _ _ _ _, inr ())
    (λ _ _, inr ()) (λ _ _, inr ()).

Definition example_endpoint : UdpEndpoint := mk_udp_endpoint 3 ModeFull.
Definition example_peer : SocketAddr := SockV4 [127; 0; 0; 1] 4242.
Definition example_job : UdpJob := received_job example_endpoint example_query example_peer.

(** One datagram, received, queued, taken and served. *)
Lemma example_udp_run :
  let env := example_env (λ _, id) (example_reply 128) in
  let self := example_resolver AllowDowngrade TlsNo in
  ∃ s, rtc (udp_step (io := map_order) env self 200 quiet_os) (system_start [example_endpoint] 2) s ∧
    sy_received s = [example_job] ∧ (sy_listeners s ≫= listener_jobs) = [] ∧
    queued (sy_dispatcher s) = [] ∧ (sy_workers s ≫= worker_jobs) = [] ∧
    sy_refused s = [] ∧ sy_dropped s = [].
Proof.
  intros env self.
  assert (HE : query_env env 200 table_wf) by (apply example_query_env; lia).
  assert (HW : waits_ok env 200 table_wf) by apply example_waits.
  assert (Hq : packet_ok example_query) by (by apply packet_okb_ok).
  assert (Hp : packet_ok (uj_packet example_job)) by (by apply packet_ok_take).
  destruct (serve_job_total env self 200 (io := map_order) quiet_os HE HW example_job
    (finite_world example_table) Hp (example_inv _ _ example_table_wf)) as (r & w' & Hrun & _).
  set (free := mk_channel [] true); set (full := mk_channel [example_job] true).
  set (at_job := mk_listener example_endpoint (ListenerDispatch example_job 0 0 false) []).
  set (at_loop := mk_listener example_endpoint ListenerLoop [(0%nat, free)]).
  set (s1 := mk_system (mk_dispatcher [free; free] 1) [at_job] [WorkerLoop; WorkerLoop]
    [example_job] [] [] [] [] []).
  set (s2 := mk_system (mk_dispatcher [full; free] 1) [at_loop] [WorkerLoop; WorkerLoop]
    [example_job] [] [] [] [] []).
  set (s3 := mk_system (mk_dispatcher [free; free] 1) [at_loop] [WorkerServing example_job; WorkerLoop]
    [example_job] [] [] [] [] []).
  eexists; split.
  - apply (rtc_l _ _ s1); [|apply (rtc_l _ _ s2); [|apply (rtc_l _ _ s3); [|eapply rtc_once]]].
    + by apply (step_listen _ _ _ _ (system_start [example_endpoint] 2) 0 example_endpoint [] false
        (inr (example_query, example_peer)) (ListenerDispatch example_job 0 0 false) (mk_dispatcher [free; free] 1)).
    + by apply (step_try _ _ _ _ s1 0 example_endpoint example_job 0 0 false [] ListenerLoop
        (mk_dispatcher [full; free] 1)).
    + by apply (step_work _ _ _ _ s2 0 full false true (WorkerServing example_job) free).
    + by apply (step_serve _ _ _ _ s3 0 example_job r (finite_world example_table) w');
        [|apply (example_inv _ _ example_table_wf)|].
  - by split_and!.
Qed.

Lemma udp_jobs_accounted_witness :
  ∃ s, sy_received s = [example_job] ∧ [example_job] ≡ₚ sy_served s ++ sy_rejected s ∧
    Forall2 replies_to (sy_served s) (sy_sent s).
Proof.
  destruct example_udp_run as (s & Hr & Hrec & Hl & Hq & Hw & Href & Hd); exists s; split; [exact Hrec|].
  destruct (udp_jobs_accounted (example_env (λ _, id) (example_reply 128))
    (example_resolver AllowDowngrade TlsNo) 200 map_order quiet_os [example_endpoint] 2 s
    map_order_ok ltac:(apply example_query_env; lia) (example_waits _ _) Hr) as (H1 & H2 & _).
  rewrite Hrec, Hl, Hq, Hw, Href, Hd in H1; cbn in H1; rewrite app_nil_r in H1; split; [exact H1|exact H2].
Defined.


