(* ===== verification/Client.v ===== *)
(** * The command line client

    Models the parts of [src/bin/resolvectl.rs] its commands share: the errors,
    what is printed, one Varlink call, and the parameters of a reply.

    A command runs in the monad [cst]: its state is the other end of the
    connections, of a type [P] that the class [VarlinkPeer] describes, with what
    was printed so far.  Messages to the standard error are kept as the input
    they are about and the error. *)

From S2P Require Import Prelude Stateful Text Utf8 Net ConfigTypes Json World Varlink Dbus.

Inductive ClientError : Type :=
  | CText (message : str)
  | CIo (error : IoError)
  | CUtf8
  | CJson (error : JsonError)
  | CConfig (error : ConfigError)
  | CNumber (text : str)
  | CBus (error : DbusError).

Record Client (P : Type) : Type := mk_client {
  cl_peer : P;
  cl_out : str;
  cl_errors : list (str * ClientError);
}.
Arguments mk_client {P} _ _ _.
Arguments cl_peer {P} _.
Arguments cl_out {P} _.
Arguments cl_errors {P} _.

Abbreviation cst P := (st (Client P) ClientError).

(** A Unix socket: connecting to a path and writing a request fails, or the
    reads that follow yield these pieces, the end of the stream after them. *)
Class VarlinkPeer (P : Type) : Type :=
  varlink_exchange : P → str → bytes → (IoError + list (io bytes)) * P.

Definition MAX_REPLY_SIZE : Z := 1024 * 1024.

Definition client_invalid {A} (message : string) : outcome ClientError A :=
  Err (CIo (IoInvalidData (lit message))).

Definition client_error {A} (message : str) : outcome ClientError A := Err (CText message).

Definition newline : Z := 10.

Section client.
Context {P : Type}.

(** [print!], [println!] and [eprintln!]. *)
Definition print (s : str) : cst P unit :=
  modify (λ c, mk_client (cl_peer c) (cl_out c ++ s) (cl_errors c)).
Definition println (s : str) : cst P unit := print (s ++ [newline]).
Definition report (input : str) (error : ClientError) : cst P unit :=
  modify (λ c, mk_client (cl_peer c) (cl_out c) (cl_errors c ++ [(input, error)])).

(** What the loop reads up to the first zero octet. *)
Fixpoint read_reply (reads : list (io bytes)) (reply : bytes) : outcome ClientError bytes :=
  match reads with
  | [] | inr [] :: _ => client_error (lit "Varlink connection closed before a complete reply")
  | inl error :: _ => Err (CIo error)
  | inr chunk :: reads =>
      match take_message chunk with
      | Some (message, _) => Ok (reply ++ message)
      | None =>
          let reply := reply ++ chunk in
          if MAX_REPLY_SIZE <? len reply
          then client_error (lit "Varlink reply exceeds the configured limit")
          else read_reply reads reply
      end
  end.

Definition varlink_request (method : str) (parameters : Value) : Value :=
  object [(lit "method", String method); (lit "parameters", parameters)].

Definition varlink_call `{VarlinkPeer P} (socket method : str) (parameters : Value) : cst P Value :=
  c ← get;
  let '(r, peer) :=
    varlink_exchange (cl_peer c) socket (as_bytes (to_json (varlink_request method parameters)) ++ [0]) in
  _ ← put (mk_client peer (cl_out c) (cl_errors c));
  match r with
  | inl error => fail (CIo error)
  | inr reads =>
      reply ← lift (read_reply reads []);
      match from_utf8 reply with
      | None => fail CUtf8
      | Some text => lift (map_err CJson (json_parse text))
      end
  end.

Definition reply_parameters (reply : Value) : outcome ClientError Value :=
  match json_get reply (lit "error") ≫= as_str with
  | Some identifier =>
      let detail := default [] (to_json <$> json_get reply (lit "parameters")) in
      if bool_decide (detail = lit "{}") || bool_decide (detail = [])
      then client_error identifier
      else client_error (identifier ++ lit ": " ++ detail)
  | None => ok_or (json_get reply (lit "parameters")) (CText (lit "Varlink reply has no parameters"))
  end.

(** The closure of a loop over the inputs of a command: its error is reported and
    counted. *)
Fixpoint each_input {A} (name : A → str) (f : A → cst P unit) (inputs : list A) : cst P Z :=
  match inputs with
  | [] => mret 0
  | input :: inputs =>
      r ← attempt (f input);
      match r with
      | Ok _ => each_input name f inputs
      | Err error =>
          _ ← report (name input) error;
          failures ← each_input name f inputs;
          mret (failures + 1)
      | Panic => lift Panic
      | Diverge => lift Diverge
      end
  end.
End client.
