(* ===== verification/RecordClient.v ===== *)
(** * Records for the command line

    Models [src/bin/resolvectl_rr.rs]: the commands [openpgp] and [tlsa], the
    owner names they look up (with the SHA-256 digest of a mail address), and the
    decoding of the records in the daemon's reply.  The build without the
    [idna-name] feature, which is the default, is modelled. *)

From S2P Require Import Prelude Stateful Text Net Codec Records Json World Varlink Client.

Definition RR_CLASS_IN : Z := 1.
Definition TYPE_TLSA : Z := 52.
Definition TYPE_OPENPGPKEY : Z := 61.
Definition DNS_LABEL_MAX : Z := 63.
Definition DNS_NAME_MAX : Z := 253.

Record CanonicalRecord : Type := mk_canonical {
  cr_rr_type : Z;
  cr_class : Z;
  cr_ttl : Z;
  cr_rdata : bytes;
}.

Record TlsaQuery : Type := mk_tlsa_query {
  tq_owner : str;
  tq_target : str;
}.

Abbreviation clres := (outcome ClientError).

(** ** Base64 and hexadecimal *)

(** [char::from(HEX[nibble])]. *)
Definition encode_hex (input : bytes) : str :=
  input ≫= λ byte, hex_digit (Z.shiftr byte 4) ++ hex_digit (Z.land byte 15).

(** The same text as [base64] of [varlink.rs]. *)
Definition encode_base64 (input : bytes) : str := base64 input.

Definition rr_base64_value (byte : Z) : clres Z :=
  if (65 <=? byte) && (byte <=? 90) then Ok (byte - 65)
  else if (97 <=? byte) && (byte <=? 122) then Ok (byte - 97 + 26)
  else if (48 <=? byte) && (byte <=? 57) then Ok (byte - 48 + 52)
  else if byte =? 43 then Ok 62
  else if byte =? 47 then Ok 63
  else client_invalid "invalid base64 character".

(** One of the last two characters of a block; [last] tells the last block. *)
Definition base64_padded (last padding_ok : bool) (byte : Z) : clres (option Z) :=
  if byte =? 61 then
    if negb last || negb padding_ok then client_invalid "invalid base64 padding" else Ok None
  else v ← rr_base64_value byte; Ok (Some v).

Definition base64_block (last : bool) (c0 c1 c2 c3 : Z) : clres bytes :=
  a ← rr_base64_value c0;
  b ← rr_base64_value c1;
  c ← base64_padded last (c3 =? 61) c2;
  d ← base64_padded last true c3;
  let first := Z.lor (Z.shiftl a 2 mod 256) (Z.shiftr b 4) in
  match c, d with
  | None, Some _ => client_invalid "invalid base64 padding"
  | Some c, Some d =>
      Ok [first; Z.lor (Z.shiftl b 4 mod 256) (Z.shiftr c 2); Z.lor (Z.shiftl c 6 mod 256) d]
  | Some c, None =>
      if negb (Z.land c 3 =? 0) then client_invalid "non-canonical base64 padding"
      else Ok [first; Z.lor (Z.shiftl b 4 mod 256) (Z.shiftr c 2)]
  | None, None =>
      if negb (Z.land b 15 =? 0) then client_invalid "non-canonical base64 padding" else Ok [first]
  end.

(** The loop over [chunks_exact(4)]. *)
Fixpoint base64_blocks (bytes : bytes) : clres Prelude.bytes :=
  match bytes with
  | c0 :: c1 :: c2 :: c3 :: rest =>
      block ← base64_block (bool_decide (rest = [])) c0 c1 c2 c3;
      output ← base64_blocks rest;
      Ok (block ++ output)
  | _ => Ok []
  end.

Definition decode_base64 (input : str) : clres bytes :=
  let bytes := as_bytes input in
  if bool_decide (bytes = []) || negb (len bytes mod 4 =? 0)
  then client_invalid "invalid base64 record length"
  else base64_blocks bytes.

(** ** SHA-256 *)

Definition sha_initial : list Z :=
  [0x6a09_e667; 0xbb67_ae85; 0x3c6e_f372; 0xa54f_f53a; 0x510e_527f; 0x9b05_688c; 0x1f83_d9ab;
   0x5be0_cd19].

Definition sha_round : list Z :=
  [0x428a_2f98; 0x7137_4491; 0xb5c0_fbcf; 0xe9b5_dba5; 0x3956_c25b; 0x59f1_11f1; 0x923f_82a4;
   0xab1c_5ed5; 0xd807_aa98; 0x1283_5b01; 0x2431_85be; 0x550c_7dc3; 0x72be_5d74; 0x80de_b1fe;
   0x9bdc_06a7; 0xc19b_f174; 0xe49b_69c1; 0xefbe_4786; 0x0fc1_9dc6; 0x240c_a1cc; 0x2de9_2c6f;
   0x4a74_84aa; 0x5cb0_a9dc; 0x76f9_88da; 0x983e_5152; 0xa831_c66d; 0xb003_27c8; 0xbf59_7fc7;
   0xc6e0_0bf3; 0xd5a7_9147; 0x06ca_6351; 0x1429_2967; 0x27b7_0a85; 0x2e1b_2138; 0x4d2c_6dfc;
   0x5338_0d13; 0x650a_7354; 0x766a_0abb; 0x81c2_c92e; 0x9272_2c85; 0xa2bf_e8a1; 0xa81a_664b;
   0xc24b_8b70; 0xc76c_51a3; 0xd192_e819; 0xd699_0624; 0xf40e_3585; 0x106a_a070; 0x19a4_c116;
   0x1e37_6c08; 0x2748_774c; 0x34b0_bcb5; 0x391c_0cb3; 0x4ed8_aa4a; 0x5b9c_ca4f; 0x682e_6ff3;
   0x748f_82ee; 0x78a5_636f; 0x84c8_7814; 0x8cc7_0208; 0x90be_fffa; 0xa450_6ceb; 0xbef9_a3f7;
   0xc671_78f2].

(** [u32::wrapping_add] and [u32::rotate_right]. *)
Definition wrapping_add (a b : Z) : Z := (a + b) mod 2 ^ 32.
Definition rotate_right (w n : Z) : Z :=
  Z.lor (Z.shiftr w n) (Z.shiftl w (32 - n) mod 2 ^ 32).

(** [while message.len() % 64 != 56]: at most 63 octets are added. *)
Fixpoint sha_pad (fuel : nat) (message : bytes) : bytes :=
  match fuel with
  | O => message
  | S fuel => if len message mod 64 =? 56 then message else sha_pad fuel (message ++ [0])
  end.

Definition sha_message (input : bytes) : bytes :=
  let bit_length := (len input * 8) mod 2 ^ 64 in
  sha_pad 64 (input ++ [0x80]) ++ u32_bytes (bit_length / 2 ^ 32) ++ u32_bytes (bit_length mod 2 ^ 32).

Definition word_at (words : list Z) (i : Z) : Z := default 0 (words !! Z.to_nat i).

(** The first sixteen words of a block. *)
Fixpoint block_words (block : bytes) : list Z :=
  match block with
  | a :: b :: c :: d :: rest => ((a * 256 + b) * 256 + c) * 256 + d :: block_words rest
  | _ => []
  end.

(** [for index in 16..64]. *)
Fixpoint sha_extend (n : nat) (index : Z) (words : list Z) : list Z :=
  match n with
  | O => words
  | S n =>
      let w15 := word_at words (index - 15) in
      let w2 := word_at words (index - 2) in
      let s0 := Z.lxor (Z.lxor (rotate_right w15 7) (rotate_right w15 18)) (Z.shiftr w15 3) in
      let s1 := Z.lxor (Z.lxor (rotate_right w2 17) (rotate_right w2 19)) (Z.shiftr w2 10) in
      let w := wrapping_add (wrapping_add (wrapping_add (word_at words (index - 16)) s0)
                 (word_at words (index - 7))) s1 in
      sha_extend n (index + 1) (<[Z.to_nat index := w]> words)
  end.

(** The variables [a] to [h]. *)
Record sha_vars : Type := mk_vars { va : Z; vb : Z; vc : Z; vd : Z; ve : Z; vf : Z; vg : Z; vh : Z }.

(** [!e] on a [u32]. *)
Definition not32 (e : Z) : Z := 2 ^ 32 - 1 - e.

Definition sha_step (words : list Z) (index : Z) (v : sha_vars) : sha_vars :=
  let '(mk_vars a b c d e f g h) := v in
  let sum1 := Z.lxor (Z.lxor (rotate_right e 6) (rotate_right e 11)) (rotate_right e 25) in
  let choice := Z.lxor (Z.land e f) (Z.land (not32 e) g) in
  let first := wrapping_add (wrapping_add (wrapping_add (wrapping_add h sum1) choice)
                 (word_at sha_round index)) (word_at words index) in
  let sum0 := Z.lxor (Z.lxor (rotate_right a 2) (rotate_right a 13)) (rotate_right a 22) in
  let majority := Z.lxor (Z.lxor (Z.land a b) (Z.land a c)) (Z.land b c) in
  let second := wrapping_add sum0 majority in
  mk_vars (wrapping_add first second) a b c (wrapping_add d first) e f g.

(** [for index in 0..64]. *)
Fixpoint sha_rounds (n : nat) (index : Z) (words : list Z) (v : sha_vars) : sha_vars :=
  match n with
  | O => v
  | S n => sha_rounds n (index + 1) words (sha_step words index v)
  end.

Definition sha_block (state : list Z) (block : bytes) : list Z :=
  let words := sha_extend 48 16 (block_words block ++ replicate 48 0) in
  let v := mk_vars (word_at state 0) (word_at state 1) (word_at state 2) (word_at state 3)
             (word_at state 4) (word_at state 5) (word_at state 6) (word_at state 7) in
  let '(mk_vars a b c d e f g h) := sha_rounds 64 0 words v in
  zip_with wrapping_add state [a; b; c; d; e; f; g; h].

(** The loop over [chunks_exact(64)]. *)
Fixpoint sha_blocks (n : nat) (message : bytes) (state : list Z) : list Z :=
  match n with
  | O => state
  | S n =>
      if len message <? 64 then state
      else sha_blocks n (drop 64 message) (sha_block state (take 64 message))
  end.

Definition sha256 (input : bytes) : bytes :=
  let message := sha_message input in
  sha_blocks (length message) message sha_initial ≫= u32_bytes.

(** ** Owner names *)

(** [str::rsplit_once] and [str::rfind]: at the last occurrence. *)
Definition rsplit_once (c : Z) (s : str) : option (str * str) :=
  (λ '(after, before), (reverse before, reverse after)) <$> split_once c (reverse s).

(** [char::is_control]. *)
Definition is_control (c : Z) : bool := (c <? 32) || ((127 <=? c) && (c <? 160)).

Definition quotation : Z := 34.
Definition escape : Z := 92.

(** The loop over the characters between the quotes. *)
Fixpoint unquote_local (s : str) (output : str) (escaped : bool) : clres (str * bool) :=
  match s with
  | [] => Ok (output, escaped)
  | c :: s =>
      if escaped then
        if bool_decide (c ∈ [13; 10; 0])
        then client_error (lit "invalid quoted email local-part")
        else unquote_local s (output ++ [c]) false
      else if c =? escape then unquote_local s output true
      else if is_control c then client_error (lit "invalid quoted email local-part")
      else unquote_local s (output ++ [c]) false
  end.

(** [contains("..")]. *)
Fixpoint double_dot (s : str) : bool :=
  match s with
  | a :: ((b :: _) as rest) => ((a =? dot) && (b =? dot)) || double_dot rest
  | _ => false
  end.

Definition unquoted_forbidden (c : Z) : bool :=
  is_control c || is_whitespace c || bool_decide (c ∈ [40; 41; 60; 62; 91; 93; 58; 59; 44; 34; 92]).

Definition canonical_local_part (input : str) : clres str :=
  match input with
  | [] => client_error (lit "email local-part is empty")
  | first :: rest =>
      if first =? quotation then
        if (str_len input <? 2) || negb (ends_with input [quotation])
        then client_error (lit "unterminated quoted email local-part")
        else
          '(output, escaped) ← unquote_local (removelast rest) [] false;
          if escaped || bool_decide (output = [])
          then client_error (lit "invalid quoted email local-part")
          else Ok output
      else if starts_with input [dot] || ends_with input [dot] || double_dot input
              || existsb unquoted_forbidden input
      then client_error (lit "invalid unquoted email local-part")
      else Ok input
  end.

Definition is_ascii_alphanumeric (c : Z) : bool :=
  ((48 <=? c) && (c <=? 57)) || ((65 <=? c) && (c <=? 90)) || ((97 <=? c) && (c <=? 122)).

Definition domain_label_ok (label : str) : bool :=
  negb (bool_decide (label = [])) && (str_len label <=? DNS_LABEL_MAX) &&
  negb (starts_with label (lit "-")) && negb (ends_with label (lit "-")) &&
  forallb (λ c, is_ascii_alphanumeric c || (c =? 45)) label.

Definition canonical_domain (input : str) : clres str :=
  let input := trim_end_matches dot input in
  if bool_decide (input = []) then client_error (lit "email or TLSA domain is empty")
  else if negb (is_ascii input)
  then client_error (lit "internationalized domains require the idna-name feature")
  else
    let domain := to_ascii_lowercase input in
    if (DNS_NAME_MAX <? str_len domain) || negb (forallb domain_label_ok (split_on dot domain))
    then client_error (lit "invalid DNS domain: " ++ input)
    else Ok domain.

Definition openpgp_owner (email : str) : clres str :=
  match rsplit_once 64 email with
  | None => client_error (lit "invalid email address: " ++ email)
  | Some (local, domain) =>
      local ← canonical_local_part local;
      domain ← canonical_domain domain;
      Ok (encode_hex (take 28 (sha256 (as_bytes local))) ++ lit "._openpgpkey." ++ domain)
  end.

Definition tlsa_target (input : str) : clres (str * Z) :=
  '(domain, port) ←
    match rsplit_once 58 input with
    | Some (domain, port) =>
        if bool_decide (domain = []) || bool_decide (port = [])
        then client_error (lit "invalid TLSA target: " ++ input)
        else
          match parse_unsigned u16_max port with
          | Some port =>
              if port =? 0 then client_error (lit "invalid TLSA port in " ++ input)
              else Ok (domain, port)
          | None => client_error (lit "invalid TLSA port in " ++ input)
          end
    | None => Ok (input, 443)
    end;
  domain ← canonical_domain domain;
  Ok (domain, port).

Definition tlsa_query (family target : str) : clres TlsaQuery :=
  '(domain, port) ← tlsa_target target;
  Ok (mk_tlsa_query (lit "_" ++ show_unsigned port ++ lit "._" ++ family ++ lit "." ++ domain) target).

Definition tlsa_queries (inputs : list str) : clres (list TlsaQuery) :=
  match inputs with
  | [] => client_error (lit "tlsa requires at least one domain")
  | first :: rest =>
      let '(family, targets) :=
        if bool_decide (first ∈ [lit "tcp"; lit "udp"; lit "sctp"]) then (first, rest)
        else (lit "tcp", inputs) in
      if bool_decide (targets = [])
      then client_error (lit "tlsa requires at least one domain after the protocol family")
      else mapM (tlsa_query family) targets
  end.

(** ** Records of a reply *)

(** [input.get(offset..offset + 2)] and [.. + 4]. *)
Definition rr_read_u16 (input : bytes) (offset : Z) : clres Z :=
  match drop (Z.to_nat offset) input with
  | a :: b :: _ => Ok (a * 256 + b)
  | _ => client_invalid "record is truncated"
  end.

Definition rr_read_u32 (input : bytes) (offset : Z) : clres Z :=
  match drop (Z.to_nat offset) input with
  | a :: b :: c :: d :: _ => Ok (((a * 256 + b) * 256 + c) * 256 + d)
  | _ => client_invalid "record is truncated"
  end.

(** The loop over the labels of the owner: each round moves on. *)
Fixpoint skip_owner (fuel : nat) (input : bytes) (offset : Z) : clres Z :=
  match fuel with
  | O => Diverge
  | S fuel =>
      length ← match bget input offset with
               | Some length => Ok length
               | None => client_invalid "record owner is truncated"
               end;
      let offset := offset + 1 in
      if length =? 0 then Ok offset
      else if (DNS_LABEL_MAX <? length) || negb (Z.land length 0xc0 =? 0)
      then client_invalid "record owner is not an uncompressed DNS name"
      else if offset + length <=? len input then skip_owner fuel input (offset + length)
      else client_invalid "record owner label is truncated"
  end.

Definition parse_canonical_record (input : bytes) : clres CanonicalRecord :=
  offset ← skip_owner (S (length input)) input 0;
  let fixed_end := offset + 10 in
  if negb (fixed_end <=? len input) then client_invalid "record header is truncated"
  else
    rr_type ← rr_read_u16 input offset;
    class ← rr_read_u16 input (offset + 2);
    ttl ← rr_read_u32 input (offset + 4);
    rdata_length ← rr_read_u16 input (offset + 8);
    let stop := fixed_end + rdata_length in
    if negb (stop =? len input)
    then client_invalid "record RDATA length does not match the raw record"
    else Ok (mk_canonical rr_type class ttl (drop (Z.to_nat fixed_end) input)).

(** A value of the array [rrs]. *)
Definition reply_record (rr_type : Z) (value : Value) : clres CanonicalRecord :=
  match json_get value (lit "raw") ≫= as_str with
  | None => client_invalid "ResolveRecord reply has no raw record"
  | Some raw =>
      octets ← decode_base64 raw;
      record ← parse_canonical_record octets;
      if negb (cr_rr_type record =? rr_type) || negb (cr_class record =? RR_CLASS_IN)
      then client_invalid "ResolveRecord reply changed the requested type or class"
      else Ok record
  end.

Definition reply_records (rr_type : Z) (parameters : Value) : clres (list CanonicalRecord) :=
  match json_get parameters (lit "rrs") ≫= as_array with
  | None => client_invalid "ResolveRecord reply has no record array"
  | Some values =>
      records ← mapM (reply_record rr_type) values;
      if bool_decide (records = []) then client_error (lit "ResolveRecord reply contained no records")
      else Ok records
  end.

Section commands.
Context {P : Type} `{VarlinkPeer P}.

Definition record_request (owner : str) (rr_type : Z) : Value :=
  object [(lit "ifindex", Number 0); (lit "name", String owner); (lit "class", Number RR_CLASS_IN);
          (lit "type", Number rr_type); (lit "flags", Number 0)].

Definition resolve_records (socket owner : str) (rr_type : Z) : cst P (list CanonicalRecord) :=
  reply ← varlink_call socket (lit "io.systemd.Resolve.ResolveRecord") (record_request owner rr_type);
  parameters ← lift (reply_parameters reply);
  lift (reply_records rr_type parameters).

Definition finish_many (operation : str) (failures : Z) : cst P unit :=
  if failures =? 0 then mret ()
  else lift (client_error (show_unsigned failures ++ lit " " ++ operation ++ lit " lookup operation(s) failed")).

Definition openpgp_one (socket email : str) : cst P unit :=
  owner ← lift (openpgp_owner email);
  records ← resolve_records socket owner TYPE_OPENPGPKEY;
  for_each records (λ r, println (owner ++ lit " IN OPENPGPKEY " ++ encode_base64 (cr_rdata r))).

Definition openpgp (socket : str) (inputs : list str) : cst P unit :=
  if bool_decide (inputs = []) then lift (client_error (lit "openpgp requires at least one email address"))
  else
    failures ← each_input id (openpgp_one socket) inputs;
    finish_many (lit "OPENPGPKEY") failures.

Definition print_tlsa (owner : str) (r : CanonicalRecord) : cst P unit :=
  match cr_rdata r with
  | usage :: selector :: matching_type :: association =>
      println (owner ++ lit " IN TLSA " ++ show_unsigned usage ++ lit " " ++ show_unsigned selector ++
               lit " " ++ show_unsigned matching_type ++ lit " " ++ encode_hex association)
  | _ => lift (client_invalid "TLSA record is shorter than three octets")
  end.

Definition tlsa_one (socket : str) (query : TlsaQuery) : cst P unit :=
  records ← resolve_records socket (tq_owner query) TYPE_TLSA;
  for_each records (print_tlsa (tq_owner query)).

Definition tlsa (socket : str) (inputs : list str) : cst P unit :=
  queries ← lift (tlsa_queries inputs);
  failures ← each_input tq_target (tlsa_one socket) queries;
  finish_many (lit "TLSA") failures.
End commands.

(** The vectors of the tests. *)
Example sha256_abc :
  encode_hex (sha256 (as_bytes (lit "abc"))) =
    lit "ba7816bf8f01cfea414140de5dae2223b00361a396177a9cb410ff61f20015ad".
Proof. by vm_compute. Qed.

Example openpgp_owner_rfc7929 :
  openpgp_owner (lit "hugh@example.com") =
    Ok (lit "c93f1e400f26708f98cb19d936620da35eec8f72e57f9eec01c1afd6._openpgpkey.example.com").
Proof. by vm_compute. Qed.
