(* ===== verification/RecordClientFacts.v ===== *)
(** * Records for the command line: theorems

    The records the daemon puts into a reply are those the client reads out of
    it, base64 and record format included; the digest is the SHA-256 of FIPS
    180-4; the names looked up are host names below the right prefix. *)

From S2P Require Import Prelude Stateful Text Utf8 Net Codec Names CodecFacts Packet PacketFacts.
From S2P Require Import Records RedirectFacts RecordsFacts ConfigFacts Json World Varlink VarlinkFacts Client RecordClient.

(** ** Base64 *)

Lemma base64_value_char_of i :
  0 ≤ i < 64 → rr_base64_value (base64_char i) = Ok i ∧ (base64_char i =? 61) = false ∧
    0 ≤ base64_char i < 128.
Proof.
  intros Hi; assert (Forall (λ i, rr_base64_value (base64_char i) = Ok i ∧
    (base64_char i =? 61) = false ∧ 0 ≤ base64_char i < 128) (Z.of_nat <$> seq 0 64)) as Hall.
  { repeat constructor; vm_compute; congruence. }
  rewrite Forall_forall in Hall; apply Hall, list_elem_of_fmap.
  exists (Z.to_nat i); split; [lia|]; apply elem_of_seq; lia.
Qed.

Lemma padded_char last ok i :
  0 ≤ i < 64 → base64_padded last ok (base64_char i) = Ok (Some i).
Proof.
  intros Hi; destruct (base64_value_char_of i Hi) as (Hv & Hp & _); unfold base64_padded.
  by rewrite Hp, Hv.
Qed.

Lemma value_char i : 0 ≤ i < 64 → rr_base64_value (base64_char i) = Ok i.
Proof. intros Hi; by apply base64_value_char_of. Qed.

Ltac division := Z.to_euclidean_division_equations; lia.

Lemma lor_mod x k y :
  0 ≤ k ≤ 8 → 0 ≤ y < 2 ^ k → Z.lor (Z.shiftl x k mod 256) y = x mod 2 ^ (8 - k) * 2 ^ k + y.
Proof.
  intros Hk Hy; rewrite <- lor_shift by lia; f_equal; rewrite !Z.shiftl_mul_pow2 by lia.
  rewrite <- Z.mul_mod_distr_r by lia; f_equal; rewrite <- Z.pow_add_r by lia.
  by replace (8 - k + k) with 8 by lia.
Qed.

(** The octets a block of four characters stands for. *)
Section block.
Context (last : bool) (a b c : Z) (Ha : is_u8 a) (Hb : is_u8 b) (Hc : is_u8 c).

Lemma block_three :
  base64_block last (base64_char (a / 4)) (base64_char (a mod 4 * 16 + b / 16))
    (base64_char (b mod 16 * 4 + c / 64)) (base64_char (c mod 64)) = Ok [a; b; c].
Proof using Ha Hb Hc.
  unfold is_u8 in *; unfold base64_block.
  rewrite !value_char, !padded_char by division; cbn [mbind outcome_bind].
  rewrite !Z.shiftr_div_pow2, !lor_mod by (first [lia|cbn; division]); cbn.
  f_equal; f_equal; [|f_equal; [|f_equal]]; division.
Qed.

Lemma block_two :
  base64_block true (base64_char (a / 4)) (base64_char (a mod 4 * 16 + b / 16))
    (base64_char (b mod 16 * 4)) 61 = Ok [a; b].
Proof using Ha Hb.
  clear Hc c; unfold is_u8 in *; unfold base64_block.
  rewrite !value_char, !padded_char by division; cbn [mbind outcome_bind base64_padded negb orb Z.eqb].
  change 3 with (Z.ones 2); rewrite Z.land_ones by lia.
  change (61 =? 61) with true; cbn [negb orb mbind outcome_bind].
  rewrite (proj2 (Z.eqb_eq (_ mod _) 0)) by (cbn; division); cbn [negb].
  rewrite !Z.shiftr_div_pow2, !lor_mod by (first [lia|cbn; division]); cbn.
  f_equal; f_equal; [|f_equal]; division.
Qed.

Lemma block_one :
  base64_block true (base64_char (a / 4)) (base64_char (a mod 4 * 16)) 61 61 = Ok [a].
Proof using Ha.
  clear Hb Hc b c; unfold is_u8 in *; unfold base64_block.
  rewrite !value_char by division; cbn [mbind outcome_bind base64_padded negb orb Z.eqb].
  change 15 with (Z.ones 4); rewrite Z.land_ones by lia.
  rewrite (proj2 (Z.eqb_eq (_ mod _) 0)) by (cbn; division); cbn [negb].
  rewrite !Z.shiftr_div_pow2, !lor_mod by (first [lia|cbn; division]); cbn.
  f_equal; f_equal; division.
Qed.
End block.

Lemma base64_nil p : base64 p = [] ↔ p = [].
Proof. destruct p as [|a [|b [|c p]]]; done. Qed.

Lemma base64_ascii p : bytes_ok p → Forall (λ c, 0 ≤ c < 128) (base64 p).
Proof.
  assert (∀ i, 0 ≤ i < 64 → 0 ≤ base64_char i < 128) as Hc by apply base64_value_char_of.
  revert p; fix IH 1; intros [|a [|b [|c rest]]] Hp; [constructor|..].
  all: repeat (apply Forall_cons in Hp as [? Hp]); unfold is_u8 in *; cbn [base64].
  - destruct (base64_indices a 0 0) as (Hi & Hj & _); [unfold is_u8; lia..|]; rewrite Hi, Hj.
    repeat (constructor; [first [apply Hc; division|lia]|]); constructor.
  - destruct (base64_indices a b 0) as (Hi & Hj & Hk & _); [unfold is_u8; lia..|]; rewrite Hi, Hj, Hk.
    repeat (constructor; [first [apply Hc; division|lia]|]); constructor.
  - destruct (base64_indices a b c) as (Hi & Hj & Hk & Hl); [unfold is_u8; lia..|].
    rewrite Hi, Hj, Hk, Hl.
    do 4 (constructor; [apply Hc; division|]); by apply IH.
Qed.

Lemma base64_blocks_of p : bytes_ok p → base64_blocks (base64 p) = Ok p.
Proof.
  revert p; fix IH 1; intros [|a [|b [|c rest]]] Hp; [done|..].
  all: repeat (apply Forall_cons in Hp as [? Hp]); cbn [base64].
  - destruct (base64_indices a 0 0) as (Hi & Hj & _); [done..|]; rewrite Hi, Hj; cbn [base64_blocks].
    rewrite bool_decide_eq_true_2 by done; rewrite Z.div_0_l, Z.add_0_r by lia.
    by rewrite block_one.
  - destruct (base64_indices a b 0) as (Hi & Hj & Hk & _); [done..|]; rewrite Hi, Hj, Hk.
    cbn [base64_blocks]; rewrite bool_decide_eq_true_2 by done; rewrite Z.div_0_l, Z.add_0_r by lia.
    by rewrite block_two.
  - destruct (base64_indices a b c) as (Hi & Hj & Hk & Hl); [done..|]; rewrite Hi, Hj, Hk, Hl.
    cbn [base64_blocks]; rewrite block_three by done; cbn [mbind outcome_bind].
    by rewrite IH.
Qed.

Lemma base64_len p : len (base64 p) mod 4 = 0.
Proof.
  revert p; fix IH 1; intros [|a [|b [|c rest]]]; [done..|]; cbn [base64]; rewrite !len_cons.
  specialize (IH rest); division.
Qed.

Lemma ascii_bytes s : Forall (λ c, 0 ≤ c < 128) s → as_bytes s = s.
Proof.
  induction 1 as [|c s Hc _ IH]; [done|]; unfold as_bytes in *; cbn [mbind list_bind].
  rewrite IH; unfold char_bytes; by rewrite (proj2 (Z.ltb_lt _ _)) by lia.
Qed.

(** The strict decoder of the client inverts the encoder of the daemon. *)
Lemma decode_base64_of p : bytes_ok p → p ≠ [] → decode_base64 (base64 p) = Ok p.
Proof.
  intros Hp Hne; unfold decode_base64; rewrite ascii_bytes by (by apply base64_ascii).
  rewrite bool_decide_eq_false_2 by (by rewrite base64_nil); rewrite base64_len; cbn.
  by apply base64_blocks_of.
Qed.

(** ** Records *)

Lemma skip_owner_of fuel pre labels post :
  Forall label_ok labels → (length (canonical_of_labels labels) ≤ fuel)%nat →
  skip_owner fuel (pre ++ canonical_of_labels labels ++ post) (len pre) =
    Ok (len pre + len (canonical_of_labels labels)).
Proof.
  intros Hok; revert fuel pre; induction Hok as [|l labels Hl _ IH]; intros fuel pre Hf.
  all: destruct fuel as [|fuel]; [cbn in Hf; lia|]; cbn [skip_owner].
  - rewrite bget_app_r, Z.sub_diag by lia; done.
  - rewrite canonical_of_labels_cons in *; rewrite bget_app_r, Z.sub_diag by lia.
    set (rest := canonical_of_labels labels) in *; cbn [app]; change (bget (?x :: _) 0) with (Some x).
    cbn [mbind outcome_bind]; unfold label_ok in Hl.
    destruct (land_c0 (len l)) as (_ & Hland & _); [unfold is_u8; lia|].
    rewrite (proj2 (Z.eqb_neq _ _)), orb_comm by lia; unfold DNS_LABEL_MAX; rewrite Hland.
    rewrite (proj2 (Z.ltb_ge 63 _)) by lia.
    assert (len pre + 1 + len l = len (pre ++ len l :: to_ascii_lowercase l)) as ->.
    { rewrite len_app, len_cons, to_ascii_lowercase_len; lia. }
    replace (pre ++ len l :: (to_ascii_lowercase l ++ rest) ++ post)
      with ((pre ++ len l :: to_ascii_lowercase l) ++ rest ++ post)
      by (rewrite <- !app_assoc; done).
    pose proof (len_nonneg (rest ++ post)); rewrite (proj2 (Z.leb_le _ _)) by (rewrite (len_app _ (rest ++ post)); lia).
    rewrite IH by (rewrite length_app in Hf; cbn in Hf; lia); f_equal.
    rewrite !len_app, len_cons, len_cons, len_app; lia.
Qed.

Lemma rr_read_u16_within p o pre v post :
  is_u16 v → p = pre ++ u16_bytes v ++ post → o = len pre → rr_read_u16 p o = Ok v.
Proof.
  intros Hv -> ->; unfold rr_read_u16; rewrite drop_app_length' by (unfold len; lia); cbn.
  f_equal; division.
Qed.

Lemma rr_read_u32_within p o pre v post :
  is_u32 v → p = pre ++ u32_bytes v ++ post → o = len pre → rr_read_u32 p o = Ok v.
Proof.
  intros Hv -> ->; unfold rr_read_u32; rewrite drop_app_length' by (unfold len; lia); cbn.
  unfold is_u32 in Hv; f_equal; division.
Qed.

Lemma parse_canonical_raw labels t c ttl rdata :
  Forall label_ok labels → is_u16 t → is_u16 c → is_u32 ttl → len rdata ≤ u16_max →
  parse_canonical_record (canonical_of_labels labels ++ u16_bytes t ++ u16_bytes c ++ u32_bytes ttl ++
    u16_bytes (len rdata) ++ rdata) = Ok (mk_canonical t c ttl rdata).
Proof.
  intros Hl Ht Hc Httl Hr; set (owner := canonical_of_labels labels).
  set (raw := owner ++ _); unfold parse_canonical_record.
  assert (skip_owner (S (length raw)) raw 0 = Ok (len owner)) as ->.
  { apply (skip_owner_of _ []); [done|]; unfold raw; rewrite length_app; fold owner; lia. }
  cbn [mbind outcome_bind]; pose proof (len_nonneg rdata).
  assert (len raw = len owner + 10 + len rdata) as Hraw by (unfold raw; autorewrite with len; lia).
  rewrite (proj2 (Z.leb_le _ _)) by lia; cbn [negb].
  rewrite (rr_read_u16_within raw (len owner) owner t (u16_bytes c ++ u32_bytes ttl ++
    u16_bytes (len rdata) ++ rdata)) by done; cbn [mbind outcome_bind].
  rewrite (rr_read_u16_within raw (len owner + 2) (owner ++ u16_bytes t) c (u32_bytes ttl ++
    u16_bytes (len rdata) ++ rdata)); [|done|by unfold raw; rewrite <- !app_assoc|len_lia].
  cbn [mbind outcome_bind].
  rewrite (rr_read_u32_within raw (len owner + 4) (owner ++ u16_bytes t ++ u16_bytes c) ttl
    (u16_bytes (len rdata) ++ rdata)); [|done|by unfold raw; rewrite <- !app_assoc|len_lia].
  cbn [mbind outcome_bind].
  rewrite (rr_read_u16_within raw (len owner + 8) (owner ++ u16_bytes t ++ u16_bytes c ++ u32_bytes ttl) (len rdata) rdata);
    [|unfold is_u16, u16_max in *; lia|by unfold raw; rewrite <- !app_assoc|len_lia].
  cbn [mbind outcome_bind]; rewrite (proj2 (Z.eqb_eq _ _)) by lia; cbn [negb]; do 2 f_equal.
  replace raw with ((owner ++ u16_bytes t ++ u16_bytes c ++ u32_bytes ttl ++ u16_bytes (len rdata)) ++ rdata)
    by (unfold raw; by rewrite <- !app_assoc).
  rewrite drop_app_length'; [done|].
  apply Nat2Z.inj; rewrite Z2Nat.id by (pose proof (len_nonneg owner); lia).
  change (Z.of_nat (length ?l)) with (len l); autorewrite with len; lia.
Qed.

Definition canonical_of (r : ResourceRecord) : CanonicalRecord :=
  mk_canonical (r_rr_type r) (r_class r) (r_ttl r) (r_rdata r).

(** The raw form of a record, and what the client reads from it. *)
Lemma parse_canonical_of p o r raw :
  packet_ok p → parse_record p o = Ok r → raw_record r = Ok raw →
  parse_canonical_record raw = Ok (canonical_of r) ∧ bytes_ok raw ∧ raw ≠ [].
Proof.
  intros Hp Hr Hraw; apply parse_record_wf in Hr as Hwf; [|done].
  apply parse_record_bounds in Hr as Hok; [|done].
  destruct Hwf as (labels & Hlab & Hname); unfold record_ok in Hok.
  destruct Hok as (_ & _ & _ & _ & _ & _ & Hs & Ht & Hc & Httl & Hlen & _).
  pose proof (bytes_ok_slice _ _ _ _ (packet_ok_bytes _ Hp) Hs) as Hrb.
  unfold raw_record in Hraw; rewrite Hname in Hraw; cbn [labels_name canonical_wire] in Hraw.
  rewrite (proj2 (Z.leb_le _ _)) in Hraw by (unfold is_u16, u16_max in *; lia).
  apply Ok_inj in Hraw as <-; split_and!.
  - apply parse_canonical_raw; try done; [apply Hlab|unfold is_u16, u16_max in *; lia].
  - rewrite !bytes_ok_app; split_and!; auto using canonical_of_labels_ok, u16_bytes_ok, u32_bytes_ok.
  - intros H%app_nil; destruct H as [_ [=]].
Qed.

Lemma reply_record_of p o r a i t :
  packet_ok p → parse_record p o = Ok r → raw_record r = Ok (a_raw a) →
  r_rr_type r = t → r_class r = CLASS_IN →
  reply_record t (varlink_record i a) = Ok (canonical_of r).
Proof.
  intros Hp Hr Hraw <- Hc; destruct (parse_canonical_of p o r _ Hp Hr Hraw) as (Hparse & Hb & Hne).
  assert (json_get (varlink_record i a) (lit "raw") ≫= as_str = Some (base64 (a_raw a))) as Hget
    by (unfold varlink_record; by destruct (0 <? i)).
  unfold reply_record; rewrite Hget, decode_base64_of by done; cbn [mbind outcome_bind].
  rewrite Hparse; cbn [mbind outcome_bind canonical_of cr_rr_type cr_class].
  by rewrite Z.eqb_refl, Hc.
Qed.

(** The records of a reply of the daemon are those of the answer section, when
    they have the type asked for. *)
Lemma reply_records_of p h qs rs stop out i flags t :
  packet_ok p → parse_sections p = Ok (h, qs, rs, stop) → is_response h = true →
  extract_answer_records p = Ok out → out ≠ [] →
  Forall (λ r, r_rr_type r = t ∧ r_class r = CLASS_IN) (answer_section h rs) →
  reply_records t (object [(lit "rrs", Array (varlink_record i <$> out)); (lit "flags", Number flags)]) =
    Ok (canonical_of <$> answer_section h rs).
Proof.
  intros Hp Hs Hr Hout Hne Ht.
  destruct (extract_answers_of p h qs rs stop Hp Hs Hr) as (out' & Hout' & Hall & He).
  assert (out' = out) as -> by congruence; unfold reply_records.
  assert (json_get (object [(lit "rrs", Array (varlink_record i <$> out)); (lit "flags", Number flags)])
    (lit "rrs") ≫= as_array = Some (varlink_record i <$> out)) as -> by done.
  assert (mapM (reply_record t) (varlink_record i <$> out) = Ok (canonical_of <$> answer_section h rs)) as ->.
  { clear -Hp Hall He Ht; induction Hall as [|r a rs' out' (_ & _ & _ & _ & Hraw) _ IH]; [done|].
    apply Forall_cons in He as [[o Ho] He], Ht as [[Ht Hc] Hts]; cbn.
    rewrite (reply_record_of p o r a i t) by done; cbn; by rewrite IH. }
  cbn [mbind outcome_bind]; rewrite bool_decide_eq_false_2; [done|].
  intros H%fmap_nil_inv; rewrite H in Hall; by inversion Hall; subst.
Qed.

(** ** Owner names *)

(** Letters, digits, hyphens and the dots between labels. *)
Definition host_char (c : Z) : Prop := 48 ≤ c ≤ 57 ∨ 97 ≤ c ≤ 122 ∨ c = 45 ∨ c = dot.

Lemma label_chars label :
  domain_label_ok label = true → to_ascii_lowercase label = label → Forall host_char label.
Proof.
  unfold domain_label_ok; intros H Hl; boolp; apply Forall_forall; intros c Hc.
  match goal with H : forallb _ label = true |- _ => rewrite forallb_forall in H;
    specialize (H c ltac:(by apply list_elem_of_In)) end.
  assert (lower_char c = c) as Hlow.
  { apply list_elem_of_lookup in Hc as [i Hi]; pose proof (f_equal (lookup i) Hl) as Hlk.
    unfold to_ascii_lowercase in Hlk; rewrite list_lookup_fmap, Hi in Hlk; cbn in Hlk; congruence. }
  unfold is_ascii_alphanumeric, lower_char, host_char in *; case_match; boolp; lia.
Qed.

Lemma lowercase_idem s : to_ascii_lowercase (to_ascii_lowercase s) = to_ascii_lowercase s.
Proof.
  unfold to_ascii_lowercase; rewrite <- list_fmap_compose; apply list_fmap_ext; intros i c _; cbn.
  unfold lower_char; repeat case_match; boolp; lia.
Qed.

Lemma join_chars (P : Z → Prop) sep pieces :
  Forall P sep → Forall (Forall P) pieces → Forall P (join_with sep pieces).
Proof.
  intros Hs; induction 1 as [|x l Hx Hl IH]; [constructor|]; cbn [join_with]; destruct l; [done|].
  by repeat apply Forall_app_2.
Qed.

Lemma canonical_domain_chars s d :
  canonical_domain s = Ok d → Forall host_char d ∧ d ≠ [] ∧ len d ≤ 253.
Proof.
  unfold canonical_domain; case_bool_decide as Hne; [done|].
  destruct (is_ascii _) eqn:Ha; [|done]; cbn [negb]; case_match eqn:Hb; [done|]; intros [= <-].
  apply orb_false_iff in Hb as [Hlen Hl]; apply Z.ltb_ge in Hlen; apply negb_false_iff in Hl.
  set (n := trim_end_matches dot s) in *; split_and!.
  - rewrite <- (join_split dot (to_ascii_lowercase n)); apply join_chars.
    { constructor; [right; right; by right|constructor]. }
    rewrite split_on_lowercase in Hl |- *; apply Forall_fmap, Forall_forall; intros l Hin.
    rewrite forallb_forall in Hl; apply label_chars; [|apply lowercase_idem].
    by apply Hl, list_elem_of_In, list_elem_of_fmap_2.
  - by intros ?%fmap_nil_inv.
  - by rewrite is_ascii_str_len in Hlen by (by rewrite is_ascii_lowercase).
Qed.

Lemma show_unsigned_chars v : Forall (λ c, 48 ≤ c ≤ 57) (show_unsigned v) ∧ len (show_unsigned v) ≤ 20.
Proof.
  unfold show_unsigned; assert (∀ n v acc, Forall (λ c, 48 ≤ c ≤ 57) acc →
    Forall (λ c, 48 ≤ c ≤ 57) (show_digits n v acc) ∧ len (show_digits n v acc) ≤ Z.of_nat n + len acc) as H.
  { clear; induction n as [|n IH]; intros v acc Hacc; cbn [show_digits]; [split; [done|lia]|].
    assert (48 ≤ 48 + v `mod` 10 ≤ 57) by (pose proof (Z.mod_pos_bound v 10 ltac:(lia)); lia).
    case_match; rewrite ?len_cons; [split; [by constructor|lia]|].
    destruct (IH (v / 10) (48 + v `mod` 10 :: acc)) as [? Hl]; [by constructor|].
    rewrite len_cons in Hl; split; [done|lia]. }
  apply (H 20%nat); constructor.
Qed.

(** The owner of a TLSA record: port and protocol below the host name. *)
Lemma tlsa_query_owner family target q :
  Forall scalar family → len family ≤ 4 → tlsa_query family target = Ok q →
  tq_target q = target ∧ Forall scalar (tq_owner q) ∧ tq_owner q ≠ [] ∧ len (tq_owner q) ≤ 281.
Proof.
  intros Hf Hfl H; unfold tlsa_query, tlsa_target in H.
  apply bind_Ok in H as ([d port] & H & [= <-]); apply bind_Ok in H as ([d0 port0] & _ & H).
  apply bind_Ok in H as (d' & (Hc & _ & Hlen)%canonical_domain_chars & [= <- <-]); cbn [tq_owner tq_target].
  destruct (show_unsigned_chars port0) as [Hs Hsl]; generalize dependent (show_unsigned port0).
  intros ps Hs Hsl; cbn; split_and!; [done| |done|].
  - constructor; [unfold scalar; lia|]; repeat apply Forall_app_2.
    + eapply Forall_impl; [exact Hs|]; cbn; unfold scalar; lia.
    + repeat (constructor; [unfold scalar; lia|]); repeat apply Forall_app_2; [done|].
      constructor; [unfold scalar; lia|]; eapply Forall_impl; [exact Hc|].
      unfold host_char, scalar, dot; cbn; lia.
  - repeat (rewrite len_cons || rewrite len_app); lia.
Qed.
