(* ===== verification/Sha256Facts.v ===== *)
(** * SHA-256: theorems

    The digest that [src/bin/resolvectl_rr.rs] computes with arrays and loops is
    the one FIPS 180-4 defines: the constants from the roots of primes, the
    padding, the message schedule as a recurrence, and the rounds over the whole
    message. *)

From S2P Require Import Prelude Text Json World Varlink VarlinkFacts Client RecordClient.

(** ** The standard *)

Definition fips_rotr (n x : Z) : Z := x / 2 ^ n + x mod 2 ^ n * 2 ^ (32 - n).
Definition fips_shr (n x : Z) : Z := x / 2 ^ n.
Definition fips_not (x : Z) : Z := Z.ldiff (Z.ones 32) x.

Definition fips_ch (x y z : Z) : Z := Z.lxor (Z.land x y) (Z.land (fips_not x) z).
Definition fips_maj (x y z : Z) : Z := Z.lxor (Z.lxor (Z.land x y) (Z.land x z)) (Z.land y z).
Definition fips_Sigma0 (x : Z) : Z :=
  Z.lxor (Z.lxor (fips_rotr 2 x) (fips_rotr 13 x)) (fips_rotr 22 x).
Definition fips_Sigma1 (x : Z) : Z :=
  Z.lxor (Z.lxor (fips_rotr 6 x) (fips_rotr 11 x)) (fips_rotr 25 x).
Definition fips_sigma0 (x : Z) : Z :=
  Z.lxor (Z.lxor (fips_rotr 7 x) (fips_rotr 18 x)) (fips_shr 3 x).
Definition fips_sigma1 (x : Z) : Z :=
  Z.lxor (Z.lxor (fips_rotr 17 x) (fips_rotr 19 x)) (fips_shr 10 x).

(** The constants: the first 32 bits of the fractional parts of the cube roots of
    the first 64 primes, and of the square roots of the first eight. *)
Definition is_prime (n : Z) : bool :=
  forallb (λ d, negb (n mod Z.of_nat d =? 0)) (seq 2 (Z.to_nat n - 2)).

Definition fips_primes : list Z := take 64 (List.filter is_prime (Z.of_nat <$> seq 2 400)).

Definition root_bit (n r : Z) (i : nat) : Z :=
  let r' := r + 2 ^ Z.of_nat i in if r' ^ 3 <=? n then r' else r.

Definition cube_root (n : Z) : Z := foldl (root_bit n) 0 (reverse (seq 0 40)).

Definition fips_K : list Z := (λ p, cube_root (p * 2 ^ 96) mod 2 ^ 32) <$> fips_primes.
Definition fips_H0 : list Z := (λ p, Z.sqrt (p * 2 ^ 64) mod 2 ^ 32) <$> take 8 fips_primes.

(** The message schedule of the words [M] of a block; [n > t]. *)
Fixpoint fips_W (n : nat) (M : list Z) (t : Z) : Z :=
  match n with
  | O => 0
  | S n =>
      if t <? 16 then word_at M t
      else (fips_sigma1 (fips_W n M (t - 2)) + fips_W n M (t - 7) + fips_sigma0 (fips_W n M (t - 15)) +
            fips_W n M (t - 16)) mod 2 ^ 32
  end.

Definition fips_round (M : list Z) (v : sha_vars) (t : Z) : sha_vars :=
  let '(mk_vars a b c d e f g h) := v in
  let T1 := (h + fips_Sigma1 e + fips_ch e f g + word_at fips_K t + fips_W 64 M t) mod 2 ^ 32 in
  let T2 := (fips_Sigma0 a + fips_maj a b c) mod 2 ^ 32 in
  mk_vars ((T1 + T2) mod 2 ^ 32) a b c ((d + T1) mod 2 ^ 32) e f g.

Definition vars_of (H : list Z) : sha_vars :=
  mk_vars (word_at H 0) (word_at H 1) (word_at H 2) (word_at H 3)
    (word_at H 4) (word_at H 5) (word_at H 6) (word_at H 7).

Definition vars_list (v : sha_vars) : list Z :=
  [va v; vb v; vc v; vd v; ve v; vf v; vg v; vh v].

Definition fips_compress (H : list Z) (block : bytes) : list Z :=
  zip_with (λ x y, (x + y) mod 2 ^ 32) H
    (vars_list (foldl (fips_round (block_words block)) (vars_of H) (Z.of_nat <$> seq 0 64))).

Definition fips_pad (p : bytes) : bytes :=
  p ++ [0x80] ++ replicate (Z.to_nat ((55 - len p) mod 64)) 0 ++
  u32_bytes (8 * len p / 2 ^ 32) ++ u32_bytes (8 * len p mod 2 ^ 32).

Definition fips_block (p : bytes) (i : nat) : bytes := take 64 (drop (64 * i) p).

Definition fips_sha256 (p : bytes) : bytes :=
  let message := fips_pad p in
  foldl fips_compress fips_H0 (fips_block message <$> seq 0 (length message / 64)) ≫= u32_bytes.

(** ** Constants *)

(** [cube_root] rounds the cube root down. *)
Lemma cube_root_bits n k : ∀ r, 0 ≤ r → r ^ 3 ≤ n < (r + 2 ^ Z.of_nat k) ^ 3 →
  let c := foldl (root_bit n) r (reverse (seq 0 k)) in 0 ≤ c ∧ c ^ 3 ≤ n < (c + 1) ^ 3.
Proof.
  induction k as [|k IH]; intros r Hr Hn; [by cbn in *|].
  rewrite seq_S, reverse_app; cbn [reverse app foldl]; rewrite reverse_singleton; cbn [app foldl].
  rewrite Nat2Z.inj_succ, Z.pow_succ_r in Hn by lia.
  assert (0 < 2 ^ Z.of_nat k) by (apply Z.pow_pos_nonneg; lia).
  apply IH; unfold root_bit; cbn [Nat.add]; case_match; boolp; lia.
Qed.

Lemma cube_root_spec n : 0 ≤ n < 2 ^ 120 → cube_root n ^ 3 ≤ n < (cube_root n + 1) ^ 3.
Proof. intros Hn; apply (cube_root_bits n 40 0); [done|]; cbn; lia. Qed.

Lemma sha_round_fips : sha_round = fips_K.
Proof. by vm_compute. Qed.

Lemma sha_initial_fips : sha_initial = fips_H0.
Proof. by vm_compute. Qed.

(** ** Words *)

Lemma rotate_right_fips w n : is_u32 w → 0 < n < 32 → rotate_right w n = fips_rotr n w.
Proof.
  unfold is_u32, rotate_right, fips_rotr; intros Hw Hn.
  assert (0 < 2 ^ n) by (apply Z.pow_pos_nonneg; lia).
  assert (0 < 2 ^ (32 - n)) by (apply Z.pow_pos_nonneg; lia).
  assert (2 ^ 32 = 2 ^ n * 2 ^ (32 - n)) as Hm.
  { rewrite <- Z.pow_add_r by lia; by replace (n + (32 - n)) with 32 by lia. }
  assert (w < 2 ^ n * 2 ^ (32 - n)) by (rewrite <- Hm; lia).
  rewrite Z.shiftl_mul_pow2, Z.shiftr_div_pow2, Hm, Z.mul_mod_distr_r by lia.
  rewrite <- (Z.shiftl_mul_pow2 (w mod 2 ^ n)), Z.lor_comm by lia.
  rewrite lor_shift by (first [lia|split; [apply Z.div_pos|apply Z.div_lt_upper_bound]; lia]).
  rewrite Z.shiftl_mul_pow2 by lia; lia.
Qed.

Lemma not32_fips e : is_u32 e → not32 e = fips_not e.
Proof.
  unfold is_u32, not32, fips_not; intros He; change (2 ^ 32 - 1) with (Z.ones 32).
  apply Z.sub_nocarry_ldiff; rewrite Z.ldiff_ones_r, Z.shiftr_div_pow2, Z.div_small by lia; done.
Qed.

Lemma u32_mod x : is_u32 (x mod 2 ^ 32).
Proof. unfold is_u32; change 4294967296 with (2 ^ 32); apply Z.mod_pos_bound; lia. Qed.

Lemma wrapping_add_l x y : wrapping_add (x mod 2 ^ 32) y = (x + y) mod 2 ^ 32.
Proof. unfold wrapping_add; by rewrite Z.add_mod_idemp_l by lia. Qed.

Definition all_u32 (l : list Z) : Prop := Forall is_u32 l.

Lemma word_at_u32 l i : all_u32 l → is_u32 (word_at l i).
Proof.
  intros Hl; unfold word_at; destruct (l !! Z.to_nat i) as [w|] eqn:H; cbn; [|unfold is_u32; lia].
  by eapply Forall_lookup_1 in H.
Qed.

Lemma block_words_ok block : bytes_ok block → all_u32 (block_words block).
Proof.
  revert block; fix IH 1; intros [|a [|b [|c [|d rest]]]] Hb; try constructor.
  - repeat (apply Forall_cons in Hb as [? Hb]); unfold is_u8, is_u32 in *; lia.
  - apply IH; by repeat (apply Forall_cons in Hb as [_ Hb]).
Qed.

Lemma block_words_length n block :
  length block = (4 * n)%nat → length (block_words block) = n.
Proof.
  revert block; induction n as [|n IH]; intros block Hl; [by destruct block|].
  destruct block as [|a [|b [|c [|d rest]]]]; cbn in Hl |- *; try lia; f_equal; apply IH; lia.
Qed.

(** ** The message schedule *)

Section schedule.
Context (M : list Z) (HM : all_u32 M) (HL : length M = 16%nat).

Lemma W_S n t :
  fips_W (S n) M t = if t <? 16 then word_at M t
    else (fips_sigma1 (fips_W n M (t - 2)) + fips_W n M (t - 7) + fips_sigma0 (fips_W n M (t - 15)) +
          fips_W n M (t - 16)) mod 2 ^ 32.
Proof. done. Qed.

Lemma W_fuel n n' t :
  t < Z.of_nat n → t < Z.of_nat n' → 0 ≤ t → fips_W n M t = fips_W n' M t.
Proof.
  clear; revert n' t; induction n as [|n IH]; intros [|n'] t H1 H2 H0; try lia; cbn [fips_W].
  case_match; boolp; [done|]; by rewrite !(IH n') by lia.
Qed.

Lemma W_next t :
  16 ≤ t < 64 →
  fips_W 64 M t = (fips_sigma1 (fips_W 64 M (t - 2)) + fips_W 64 M (t - 7) +
    fips_sigma0 (fips_W 64 M (t - 15)) + fips_W 64 M (t - 16)) mod 2 ^ 32.
Proof.
  clear; intros Ht; rewrite (W_fuel 64 65 t), (W_S 64) by lia.
  by rewrite (proj2 (Z.ltb_ge _ _)) by lia.
Qed.

Lemma W_u32 n t : is_u32 (fips_W n M t).
Proof using HM.
  clear HL; destruct n as [|n]; cbn [fips_W]; [unfold is_u32; lia|].
  case_match; [by apply word_at_u32|apply u32_mod].
Qed.

Lemma sha_extend_W n index words :
  length words = 64%nat → 16 ≤ index → index + Z.of_nat n ≤ 64 →
  (∀ t, 0 ≤ t < index → word_at words t = fips_W 64 M t) →
  ∀ t, 0 ≤ t < index + Z.of_nat n → word_at (sha_extend n index words) t = fips_W 64 M t.
Proof using HM.
  clear HL; revert index words; induction n as [|n IH]; intros index words Hl Hi Hn Hw t Ht; cbn [sha_extend].
  { apply Hw; lia. }
  apply IH; [by rewrite length_insert|lia..| |lia]; clear t Ht; intros t Ht.
  unfold word_at at 1; destruct (decide (t = index)) as [->|Hne].
  - rewrite list_lookup_insert_eq by lia; cbn [default from_option id].
    rewrite W_next, !Hw by lia; unfold fips_sigma0, fips_sigma1, fips_shr.
    rewrite <- !rotate_right_fips by (try lia; apply W_u32).
    unfold wrapping_add at 3; rewrite !wrapping_add_l, !Z.shiftr_div_pow2 by lia; f_equal; lia.
  - rewrite list_lookup_insert_ne by lia; apply Hw; lia.
Qed.

Lemma schedule_W t :
  0 ≤ t < 64 → word_at (sha_extend 48 16 (M ++ replicate 48 0)) t = fips_W 64 M t.
Proof using HM HL.
  intros Ht; apply sha_extend_W; [rewrite length_app, length_replicate; lia|lia|lia| |lia].
  intros t' Ht'; rewrite (W_S 63); rewrite (proj2 (Z.ltb_lt _ _)) by lia.
  unfold word_at; by rewrite lookup_app_l by lia.
Qed.
End schedule.

(** ** The rounds *)

Definition vars_ok (v : sha_vars) : Prop := all_u32 (vars_list v).

Lemma vars_of_ok H : all_u32 H → vars_ok (vars_of H).
Proof. intros HH; repeat (constructor; [by apply word_at_u32|]); constructor. Qed.

Section rounds.
Context (M : list Z) (HM : all_u32 M) (HL : length M = 16%nat).
Abbreviation words := (sha_extend 48 16 (M ++ replicate 48 0)).

Lemma sha_step_fips t v : 0 ≤ t < 64 → vars_ok v → sha_step words t v = fips_round M v t.
Proof using HM HL.
  destruct v as [a b c d e f g h]; intros Ht Hv; unfold sha_step, fips_round.
  rewrite <- sha_round_fips; repeat (apply Forall_cons in Hv as [? Hv]); cbn [va vb vc vd ve vf vg vh] in *.
  rewrite (schedule_W M HM HL t Ht); unfold fips_ch, fips_maj, fips_Sigma0, fips_Sigma1.
  rewrite <- !rotate_right_fips, <- not32_fips by (done || lia).
  set (s1 := Z.lxor (Z.lxor (rotate_right e 6) _) _); set (s0 := Z.lxor (Z.lxor (rotate_right a 2) _) _).
  set (ch := Z.lxor (Z.land e f) _); set (T1 := (h + s1 + ch + _ + _) mod _).
  assert (wrapping_add (wrapping_add (wrapping_add (wrapping_add h s1) ch) (word_at sha_round t))
    (fips_W 64 M t) = T1) as -> by (unfold wrapping_add at 4; by rewrite !wrapping_add_l).
  done.
Qed.

Lemma fips_round_ok v t : vars_ok v → vars_ok (fips_round M v t).
Proof.
  destruct v as [a b c d e f g h]; intros Hv; unfold vars_ok, vars_list, all_u32 in *.
  cbn [va vb vc vd ve vf vg vh fips_round] in *.
  repeat (apply Forall_cons in Hv as [? Hv]).
  repeat (constructor; [first [apply u32_mod|done]|]); constructor.
Qed.

Lemma sha_rounds_fips n t v :
  vars_ok v → (t + n ≤ 64)%nat →
  sha_rounds n (Z.of_nat t) words v = foldl (fips_round M) v (Z.of_nat <$> seq t n).
Proof using HM HL.
  revert t v; induction n as [|n IH]; intros t v Hv Ht; [done|]; cbn [sha_rounds seq fmap list_fmap foldl].
  rewrite sha_step_fips by (done || lia); replace (Z.of_nat t + 1) with (Z.of_nat (S t)) by lia.
  apply IH; [by apply fips_round_ok|lia].
Qed.
End rounds.

Lemma sha_block_fips state block :
  all_u32 state → bytes_ok block → length block = 64%nat →
  sha_block state block = fips_compress state block ∧ all_u32 (fips_compress state block).
Proof.
  intros Hs Hb Hl; split.
  - unfold sha_block, fips_compress; fold (vars_of state).
    rewrite (sha_rounds_fips (block_words block) (block_words_ok _ Hb) (block_words_length 16 _ Hl) 64 0)
      by (done || by apply vars_of_ok).
    by destruct (foldl _ _ _).
  - unfold fips_compress; generalize (vars_list (foldl (fips_round (block_words block)) (vars_of state)
      (Z.of_nat <$> seq 0 64))); clear; intros l.
    revert l; induction state as [|x state IH]; intros [|y l]; cbn; constructor; [apply u32_mod|apply IH].
Qed.

(** ** The message *)

Lemma sha_pad_zeros fuel message :
  (Z.to_nat ((56 - len message) mod 64) ≤ fuel)%nat →
  sha_pad fuel message = message ++ replicate (Z.to_nat ((56 - len message) mod 64)) 0.
Proof.
  revert message; induction fuel as [|fuel IH]; intros message Hf; cbn [sha_pad].
  { replace (Z.to_nat _) with 0%nat by lia; cbn; by rewrite app_nil_r. }
  destruct (len message mod 64 =? 56) eqn:H; boolp.
  { replace (Z.to_nat _) with 0%nat; [cbn; by rewrite app_nil_r|].
    Z.to_euclidean_division_equations; lia. }
  assert (len (message ++ [0]) = len message + 1) as Hl by (rewrite len_app; done).
  assert (Z.to_nat ((56 - len message) mod 64) = S (Z.to_nat ((56 - len (message ++ [0])) mod 64))) as Hk.
  { rewrite Hl; Z.to_euclidean_division_equations; lia. }
  rewrite IH by lia; rewrite Hk; cbn [replicate]; by rewrite <- app_assoc.
Qed.

Lemma sha_message_fips p : 8 * len p < 2 ^ 64 → sha_message p = fips_pad p.
Proof.
  intros Hl; unfold sha_message, fips_pad; pose proof (len_nonneg p).
  assert (len (p ++ [128]) = len p + 1) as Hlen by (by rewrite len_app).
  rewrite sha_pad_zeros, Hlen by (rewrite Hlen; Z.to_euclidean_division_equations; lia).
  rewrite (Z.mul_comm (len p)), (Z.mod_small (8 * len p) (2 ^ 64)) by lia.
  replace (56 - (len p + 1)) with (55 - len p) by lia; by rewrite <- !app_assoc.
Qed.

Lemma fips_pad_length p : ∃ n, length (fips_pad p) = (64 * n)%nat.
Proof.
  exists (Z.to_nat ((len p + 9 + (55 - len p) mod 64) / 64)); unfold fips_pad.
  rewrite !length_app, length_replicate; change (length (u32_bytes _)) with 4%nat; cbn [length].
  unfold len; Z.to_euclidean_division_equations; lia.
Qed.

Lemma sha_blocks_fips k n message state :
  length message = (64 * n)%nat → (n ≤ k)%nat → bytes_ok message → all_u32 state →
  sha_blocks k message state = foldl fips_compress state (fips_block message <$> seq 0 n).
Proof.
  revert k message state; induction n as [|n IH]; intros k message state Hl Hk Hb Hs.
  { destruct message; [|done]; destruct k; done. }
  destruct k as [|k]; [lia|]; cbn [sha_blocks seq fmap list_fmap foldl].
  rewrite (proj2 (Z.ltb_ge _ _)) by (unfold len; lia).
  assert (fips_block message 0 = take 64 message) as -> by done.
  destruct (sha_block_fips state (take 64 message)) as [-> Hc];
    [done|by apply Forall_take|rewrite length_take; lia|].
  rewrite IH; [|rewrite length_drop; lia|lia|by apply Forall_drop|done]; f_equal.
  rewrite <- (fmap_S_seq 0 n), <- list_fmap_compose; apply list_fmap_ext; intros i x _; cbn.
  unfold fips_block; rewrite drop_drop; do 2 f_equal; lia.
Qed.

Lemma fips_pad_ok p : bytes_ok p → 8 * len p < 2 ^ 64 → bytes_ok (fips_pad p).
Proof.
  intros Hp Hl; unfold fips_pad; pose proof (len_nonneg p); rewrite !bytes_ok_app; split_and!; [done|..].
  - constructor; [unfold is_u8; lia|constructor].
  - apply Forall_replicate; unfold is_u8; lia.
  - apply u32_bytes_ok; unfold is_u32; Z.to_euclidean_division_equations; lia.
  - apply u32_bytes_ok, u32_mod.
Qed.

(** ** Properties *)

(** C38: the digest is SHA-256.  On every message of octets whose length in bits is
    below [2^64], [sha256] returns the digest FIPS 180-4 defines: its constants are
    those of the roots of primes, no octet of the message or of its padding is left
    out, and the arithmetic on 32-bit words is that of the standard. *)
Theorem sha256_fips p : bytes_ok p → 8 * len p < 2 ^ 64 → sha256 p = fips_sha256 p.
Proof.
  intros Hp Hl; unfold sha256, fips_sha256.
  rewrite <- sha_initial_fips, sha_message_fips by done.
  destruct (fips_pad_length p) as [n Hn]; rewrite (sha_blocks_fips _ n); [|done|lia|by apply fips_pad_ok|].
  - by rewrite Hn, Nat.mul_comm, Nat.div_mul.
  - repeat (constructor; [unfold is_u32; lia|]); constructor.
Qed.

Lemma sha256_fips_witness :
  bytes_ok [97; 98; 99] ∧ sha256 [97; 98; 99] = fips_sha256 [97; 98; 99] ∧
  take 4 (sha256 [97; 98; 99]) = [0xba; 0x78; 0x16; 0xbf].
Proof.
  assert (bytes_ok [97; 98; 99]) as H by (repeat (constructor; [unfold is_u8; lia|]); constructor).
  split; [exact H|]; split; [|by vm_compute]; apply (sha256_fips [97; 98; 99] H); by vm_compute.
Defined.
