(* ===== verification/Resolvectl.v ===== *)
(** * resolvectl

    Models [src/bin/resolvectl.rs] and [src/resolvectl_dbus.rs]: the command
    line, the commands that ask the daemon over Varlink and print its replies,
    and the commands that change a link over D-Bus.  Connections, and the files
    that map interface names to numbers, are those of the class [Peer]. *)

From S2P Require Import Prelude Stateful Text Net ConfigTypes Config Json World Varlink Dbus Client RecordClient.

(** ** D-Bus commands *)

(** The bus: [bus_open] connects and makes the proxy of the Manager, [bus_call]
    calls a method on it; an error is a text of zbus or the error the method
    replied with.  [index_file] is [read_to_string] of the file of an
    interface. *)
Class Peer (P : Type) : Type := {
  #[global] peer_varlink :: VarlinkPeer P;
  bus_open : P → (str + unit) * P;
  bus_call : P → ManagerMethod → (DbusError + unit) * P;
  index_file : P → str → io str;
}.

Definition is_command (command : str) : bool :=
  bool_decide (command ∈ [lit "dns"; lit "domain"; lit "default-route"; lit "llmnr"; lit "mdns";
                          lit "dnsovertls"; lit "dnssec"; lit "nta"; lit "revert"]).

Definition parse_boolean (value : str) : clres bool :=
  let v := to_ascii_lowercase value in
  if bool_decide (v ∈ [lit "1"; lit "yes"; lit "true"; lit "on"]) then Ok true
  else if bool_decide (v ∈ [lit "0"; lit "no"; lit "false"; lit "off"]) then Ok false
  else client_error (lit "invalid boolean value: " ++ value).

Definition require_exact (command : str) (arguments : list str) (expected : Z) : clres unit :=
  if negb (len arguments =? expected)
  then client_error (command ++ lit " requires " ++ show_unsigned expected ++ lit " argument" ++
                     (if expected =? 1 then [] else lit "s"))
  else Ok ().

Definition encode_address (a : IpAddr) : Z * bytes :=
  match a with V4 octets => (2, octets) | V6 octets => (10, octets) end.

(** The name and whether it is for routing only. *)
Definition domain_argument (value : str) : clres (str * bool) :=
  let '(route_only, name) :=
    match strip_prefix (lit "~") value with Some name => (true, name) | None => (false, value) end in
  let name := trim_end_matches dot name in
  if bool_decide (name = []) then client_error (lit "invalid domain: " ++ value)
  else Ok (name, route_only).

Section resolvectl.
Context {P : Type} `{Peer P} (version : str).

Definition parse_ifindex (value : str) : cst P Z :=
  match parse_signed (2 ^ 31 - 1) value with
  | Some index =>
      if 0 <? index then mret index
      else lift (client_error (lit "invalid interface index: " ++ value))
  | None =>
      if bool_decide (value = []) || (15 <? str_len value) || contains_char 47 value
         || existsb is_whitespace value
      then lift (client_error (lit "invalid interface name: " ++ value))
      else
        c ← get;
        match index_file (cl_peer c) (lit "/sys/class/net/" ++ value ++ lit "/ifindex") with
        | inl error => fail (CIo error)
        | inr text =>
            match parse_signed (2 ^ 31 - 1) (trim text) with
            | None => fail (CNumber (trim text))
            | Some index =>
                if index <=? 0
                then lift (client_error (lit "invalid interface index for " ++ value ++ lit ": " ++
                                         show_i128 index))
                else mret index
            end
        end
  end.

Definition link_and_values (command : str) (arguments : list str) : cst P (Z * list str) :=
  match arguments with
  | [] => lift (client_error (command ++ lit " requires a link"))
  | link :: values => index ← parse_ifindex link; mret (index, values)
  end.

Definition proxy_call (m : ManagerMethod) : cst P unit :=
  c ← get;
  let '(r, peer) := bus_call (cl_peer c) m in
  _ ← put (mk_client peer (cl_out c) (cl_errors c));
  match r with inl e => fail (CBus e) | inr _ => mret () end.

(** The loop of [set_dns]. *)
Fixpoint server_arguments (link : Z) (values : list str) : cst P (list (Z * bytes * Z * str)) :=
  match values with
  | [] => mret []
  | value :: values =>
      spec ← lift (map_err CConfig (parse_server_spec value));
      _ ← match interface spec with
          | Some name =>
              specified ← parse_ifindex name;
              if negb (specified =? link)
              then lift (client_error (lit "DNS server " ++ value ++ lit " is scoped to interface " ++
                           show_unsigned specified ++ lit ", not " ++ show_unsigned link))
              else mret ()
          | None => mret ()
          end;
      let '(family, octets) := encode_address (sock_ip (address spec)) in
      servers ← server_arguments link values;
      mret ((family, octets, sock_port (address spec), default [] (server_name spec)) :: servers)
  end.

Definition ctl_set_dns (arguments : list str) : cst P unit :=
  '(link, values) ← link_and_values (lit "dns") arguments;
  servers ← server_arguments link values;
  proxy_call (OnLink link (SetDNSEx servers)).

Definition ctl_set_domains (arguments : list str) : cst P unit :=
  '(link, values) ← link_and_values (lit "domain") arguments;
  ds ← lift (mapM domain_argument values);
  proxy_call (OnLink link (SetDomainsOf ds)).

(** The two arguments of a command, after [require_exact]. *)
Definition link_and_value (command : str) (arguments : list str) : cst P (Z * str) :=
  _ ← lift (require_exact command arguments 2);
  match arguments with
  | [link; value] => index ← parse_ifindex link; mret (index, value)
  | _ => lift Panic
  end.

Definition ctl_set_default_route (arguments : list str) : cst P unit :=
  '(link, value) ← link_and_value (lit "default-route") arguments;
  enabled ← lift (parse_boolean value);
  proxy_call (OnLink link (SetDefaultRouteOf enabled)).

Definition ctl_set_mode (method : str) (m : str → LinkMethod) (arguments : list str) : cst P unit :=
  '(link, mode) ← link_and_value method arguments;
  proxy_call (OnLink link (m mode)).

Definition ctl_set_anchors (arguments : list str) : cst P unit :=
  '(link, values) ← link_and_values (lit "nta") arguments;
  let names := trim_end_matches dot <$> values in
  if existsb (λ name, bool_decide (name = [])) names
  then lift (client_error (lit "negative trust anchors must not be empty"))
  else proxy_call (OnLink link (SetDNSSECNegativeTrustAnchors names)).

Definition ctl_revert (arguments : list str) : cst P unit :=
  _ ← lift (require_exact (lit "revert") arguments 1);
  match arguments with
  | [link] => index ← parse_ifindex link; proxy_call (OnLink index RevertOf)
  | _ => lift Panic
  end.

Definition bus_execute (command : str) (arguments : list str) : cst P unit :=
  c ← get;
  let '(r, peer) := bus_open (cl_peer c) in
  _ ← put (mk_client peer (cl_out c) (cl_errors c));
  match r with
  | inl message => lift (client_error message)
  | inr _ =>
      let named (name : string) : bool := bool_decide (command = lit name) in
      if named "dns" then ctl_set_dns arguments
      else if named "domain" then ctl_set_domains arguments
      else if named "default-route" then ctl_set_default_route arguments
      else if named "llmnr" then ctl_set_mode (lit "SetLinkLLMNR") SetLLMNR arguments
      else if named "mdns" then ctl_set_mode (lit "SetLinkMulticastDNS") SetMulticastDNS arguments
      else if named "dnsovertls" then ctl_set_mode (lit "SetLinkDNSOverTLS") SetDNSOverTLS arguments
      else if named "dnssec" then ctl_set_mode (lit "SetLinkDNSSEC") SetDNSSEC arguments
      else if named "nta" then ctl_set_anchors arguments
      else if named "revert" then ctl_revert arguments
      else lift (client_error (lit "unsupported D-Bus command: " ++ command))
  end.

(** ** Queries *)

Definition ctl_byte (v : Value) : clres Z :=
  match as_u64 v with
  | Some n => if n <=? 255 then Ok n else client_invalid "reply contains an invalid address byte"
  | None => client_invalid "reply contains an invalid address byte"
  end.

Definition byte_array (value : option Value) : clres bytes :=
  match value ≫= as_array with
  | None => client_invalid "reply is missing an address byte array"
  | Some values => mapM ctl_byte values
  end.

Definition ctl_decode_address (family : Z) (octets : bytes) : clres IpAddr :=
  if (family =? 2) && (len octets =? 4) then Ok (V4 octets)
  else if (family =? 10) && (len octets =? 16) then Ok (V6 octets)
  else client_error (lit "reply contains an invalid address family or size").

Definition query_request (input : str) (family : Z) : str * Value :=
  match parse_ip input with
  | Some a =>
      let '(address_family, octets) := encode_address a in
      (lit "io.systemd.Resolve.ResolveAddress",
       object [(lit "ifindex", Number 0); (lit "family", Number address_family);
               (lit "address", Array (Number <$> octets)); (lit "flags", Number 0)])
  | None =>
      (lit "io.systemd.Resolve.ResolveHostname",
       object [(lit "ifindex", Number 0); (lit "name", String input); (lit "family", Number family);
               (lit "flags", Number 0)])
  end.

(** The loops over the addresses and the names of a reply; the result tells
    whether something was printed. *)
Fixpoint print_addresses (input : str) (addresses : list Value) : cst P bool :=
  match addresses with
  | [] => mret false
  | address :: addresses =>
      let family := default 0 (json_get address (lit "family") ≫= as_i64) in
      octets ← lift (byte_array (json_get address (lit "address")));
      a ← lift (ctl_decode_address family octets);
      _ ← println (input ++ lit ": " ++ show_ip a);
      _ ← print_addresses input addresses;
      mret true
  end.

Fixpoint print_names (input : str) (names : list Value) : cst P bool :=
  match names with
  | [] => mret false
  | name :: names =>
      match json_get name (lit "name") ≫= as_str with
      | Some name => _ ← println (input ++ lit ": " ++ name); _ ← print_names input names; mret true
      | None => print_names input names
      end
  end.

Definition ctl_query (socket input : str) (family : Z) : cst P unit :=
  let '(method, parameters) := query_request input family in
  reply ← varlink_call socket method parameters;
  parameters ← lift (reply_parameters reply);
  addresses ← print_addresses input
    (default [] (json_get parameters (lit "addresses") ≫= as_array));
  names ← print_names input (default [] (json_get parameters (lit "names") ≫= as_array));
  if negb (addresses || names) then lift (client_error (lit "reply contained no addresses or names"))
  else mret ().

Definition query_many (socket : str) (inputs : list str) (family : Z) : cst P unit :=
  failed ← each_input id (λ input, ctl_query socket input family) inputs;
  if failed =? 0 then mret ()
  else lift (client_error (show_unsigned failed ++ lit " query operation(s) failed")).

(** ** Status and statistics *)

Definition text_of (v : Value) (key : string) (absent : string) : str :=
  default (lit absent) (json_get v (lit key) ≫= as_str).

Definition status (socket : str) : cst P unit :=
  reply ← varlink_call socket (lit "org.varlink.service.GetInfo") (Object []);
  parameters ← lift (reply_parameters reply);
  _ ← println (lit "Global");
  _ ← println (lit "       Protocol: Varlink");
  _ ← println (lit "        Product: " ++ text_of parameters "product" "unknown");
  _ ← println (lit "        Version: " ++ text_of parameters "version" "unknown");
  println (lit "         Socket: " ++ socket).

Definition print_statistic_section (parameters : Value) (field title : string)
    (entries : list (string * string)) : cst P unit :=
  match json_get parameters (lit field) with
  | None => mret ()
  | Some section =>
      _ ← println (lit title);
      for_each entries (λ '(label, key),
        match json_get section (lit key) ≫= as_u64 with
        | Some v => println (lit "  " ++ lit label ++ lit ": " ++ show_unsigned v)
        | None => mret ()
        end)
  end.

Definition ctl_statistics (socket : str) : cst P unit :=
  reply ← varlink_call socket (lit "io.systemd.Resolve.Monitor.DumpStatistics") (Object []);
  parameters ← lift (reply_parameters reply);
  _ ← print_statistic_section parameters "transactions" "Transactions"
    [("Current Transactions", "currentTransactions"); ("Total Transactions", "totalTransactions");
     ("Total Timeouts", "totalTimeouts"); ("Timeouts Served Stale", "totalTimeoutsServedStale");
     ("Failed Responses", "totalFailedResponses");
     ("Failed Responses Served Stale", "totalFailedResponsesServedStale")]%string;
  _ ← print_statistic_section parameters "cache" "Cache"
    [("Current Cache Size", "size"); ("Cache Hits", "hits"); ("Cache Misses", "misses")]%string;
  print_statistic_section parameters "dnssec" "DNSSEC Verdicts"
    [("Secure", "secure"); ("Insecure", "insecure"); ("Bogus", "bogus");
     ("Indeterminate", "indeterminate")]%string.

(** ** The cache *)

Definition class_name (class : Z) : str :=
  if class =? 1 then lit "IN" else if class =? 255 then lit "ANY"
  else lit "CLASS" ++ show_unsigned class.

Definition ctl_type_names : list (Z * string) :=
  [(1, "A"); (2, "NS"); (5, "CNAME"); (6, "SOA"); (12, "PTR"); (15, "MX"); (16, "TXT"); (28, "AAAA");
   (33, "SRV"); (43, "DS"); (46, "RRSIG"); (47, "NSEC"); (48, "DNSKEY"); (50, "NSEC3");
   (64, "SVCB"); (65, "HTTPS"); (255, "ANY")]%string.

Definition record_type_name (rr_type : Z) : str :=
  match List.find (λ e, e.1 =? rr_type) ctl_type_names with
  | Some (_, name) => lit name
  | None => lit "TYPE" ++ show_unsigned rr_type
  end.

Definition cache_scope_title (scope : Value) : str :=
  let protocol := text_of scope "protocol" "unknown" in
  match json_get scope (lit "ifname") ≫= as_str, json_get scope (lit "ifindex") ≫= as_i64 with
  | Some name, Some index =>
      lit "Link " ++ show_i128 index ++ lit " (" ++ name ++ lit "), protocol " ++ protocol
  | Some name, None => lit "Link " ++ name ++ lit ", protocol " ++ protocol
  | None, Some index => lit "Link " ++ show_i128 index ++ lit ", protocol " ++ protocol
  | None, None => lit "Global, protocol " ++ protocol
  end.

(** The micro sign. *)
Definition micro : Z := 181.

Definition print_cache_entry (entry : Value) : cst P unit :=
  match json_get entry (lit "key") with
  | None => lift (client_invalid "cache entry is missing its resource key")
  | Some key =>
      let name := text_of key "name" "?" in
      let class := default 1 (json_get key (lit "class") ≫= as_u64) in
      let rr_type := default 0 (json_get key (lit "type") ≫= as_u64) in
      _ ← print (lit "  " ++ name ++ lit " " ++ class_name class ++ lit " " ++ record_type_name rr_type);
      _ ← match json_get entry (lit "type") ≫= as_str with
          | Some kind => print (lit " -- " ++ kind)
          | None =>
              match json_get entry (lit "rrs") ≫= as_array with
              | Some records =>
                  print (lit " -- " ++ show_unsigned (len records) ++ lit " record" ++
                         (if len records =? 1 then [] else lit "s"))
              | None => mret ()
              end
          end;
      _ ← match json_get entry (lit "until") ≫= as_u64 with
          | Some until =>
              print (lit " (valid until monotonic " ++ show_unsigned until ++ lit " " ++ [micro] ++ lit "s)")
          | None => mret ()
          end;
      println []
  end.

Definition print_cache_scope (scope : Value) : cst P unit :=
  _ ← println (cache_scope_title scope);
  match json_get scope (lit "cache") ≫= as_array with
  | None => lift (client_invalid "cache scope is missing its entries")
  | Some [] => println (lit "  Cache is empty")
  | Some cache => for_each cache print_cache_entry
  end.

(** [for (index, x) in l.iter().enumerate()], with a blank line between. *)
Definition separated {A} (f : A → cst P unit) (l : list A) : cst P unit :=
  for_each (imap (λ i x, (i, x)) l) (λ '(i, x),
    _ ← (if bool_decide (i ≠ 0%nat) then println [] else mret ());
    f x).

Definition show_cache (socket : str) : cst P unit :=
  reply ← varlink_call socket (lit "io.systemd.Resolve.Monitor.DumpCache") (Object []);
  parameters ← lift (reply_parameters reply);
  match json_get parameters (lit "dump") ≫= as_array with
  | None => lift (client_invalid "cache dump is missing its scope array")
  | Some scopes => separated print_cache_scope scopes
  end.

(** ** The servers *)

Definition format_scalar (v : Value) : option str :=
  match as_str v with
  | Some s => Some s
  | None =>
      match as_bool v with
      | Some b => Some (if b then lit "yes" else lit "no")
      | None =>
          match as_i64 v with
          | Some n => Some (show_i128 n)
          | None => show_unsigned <$> as_u64 v
          end
      end
  end.

Definition server_state_fields : list (string * string) :=
  [("Interface", "Interface"); ("Interface Index", "InterfaceIndex");
   ("Verified Feature Level", "VerifiedFeatureLevel");
   ("Possible Feature Level", "PossibleFeatureLevel"); ("DNSSEC Mode", "DNSSECMode");
   ("DNSSEC Supported", "DNSSECSupported"); ("Maximum UDP Fragment", "ReceivedUDPFragmentMax");
   ("Failed UDP Attempts", "FailedUDPAttempts"); ("Failed TCP Attempts", "FailedTCPAttempts");
   ("Packet Truncated", "PacketTruncated"); ("Bad OPT Record", "PacketBadOpt");
   ("RRSIG Missing", "PacketRRSIGMissing"); ("Invalid Packet", "PacketInvalid");
   ("DO Flag Dropped", "PacketDoOff")]%string.

Definition print_server_state (server : Value) : cst P unit :=
  _ ← println (lit "Server " ++ text_of server "Server" "unknown" ++ lit " (" ++
               text_of server "Type" "unknown" ++ lit ")");
  for_each server_state_fields (λ '(label, field),
    match json_get server (lit field) ≫= format_scalar with
    | Some v => println (lit "  " ++ lit label ++ lit ": " ++ v)
    | None => mret ()
    end).

Definition show_server_state (socket : str) : cst P unit :=
  reply ← varlink_call socket (lit "io.systemd.Resolve.Monitor.DumpServerState") (Object []);
  parameters ← lift (reply_parameters reply);
  match json_get parameters (lit "dump") ≫= as_array with
  | None => lift (client_invalid "server-state dump is missing its array")
  | Some [] => println (lit "No DNS servers are configured.")
  | Some servers => separated print_server_state servers
  end.

Definition ctl_control (socket method : str) : cst P unit :=
  reply ← varlink_call socket method (Object []);
  _ ← lift (reply_parameters reply);
  mret ().

(** ** The command line *)

Definition DEFAULT_SOCKET : str := lit "/run/systemd/resolve/io.systemd.Resolve".
Definition DEFAULT_MONITOR_SOCKET : str := lit "/run/systemd/resolve/io.systemd.Resolve.Monitor".

Record CtlOptions : Type := mk_ctl_options {
  co_socket : str;
  co_socket_explicit : bool;
  co_family : Z;
  co_command : str;
  co_arguments : list str;
}.

Definition slash : Z := 47.

(** The components of a path and its text without them: [parent] and
    [file_name] skip separators and the component [.] at the end. *)
Fixpoint trim_path (fuel : nat) (p : str) : str :=
  match fuel with
  | O => p
  | S fuel =>
      match strip_suffix p [slash] with
      | Some ((_ :: _) as q) => trim_path fuel q
      | _ =>
          match strip_suffix p (lit "/.") with
          | Some ((_ :: _) as q) => trim_path fuel q
          | _ => p
          end
      end
  end.

(** [Path::file_name] with the text before it. *)
Definition path_split (p : str) : option (str * str) :=
  let p := trim_path (length p) p in
  let '(parent, name) :=
    match rsplit_once slash p with
    | Some (parent, name) => (parent ++ [slash], name)
    | None => ([], p)
    end in
  if bool_decide (name ∈ [[]; lit "."; lit ".."]) then None else Some (parent, name).

(** Also [monitor_path_for] of [varlink.rs]. *)
Definition monitor_socket_for (p : str) : str :=
  match path_split p with
  | Some (parent, name) =>
      if bool_decide (name = lit "io.systemd.Resolve")
      then
        let parent := trim_path (length parent) parent in
        (if bool_decide (parent = []) then []
         else if ends_with parent [slash] then parent else parent ++ [slash])
        ++ lit "io.systemd.Resolve.Monitor"
      else p ++ lit ".Monitor"
  | None => p ++ lit ".Monitor"
  end.

Definition monitor_socket (o : CtlOptions) : str :=
  if co_socket_explicit o then monitor_socket_for (co_socket o) else DEFAULT_MONITOR_SOCKET.

Definition ctl_option_value (inline : option str) (arguments : list str) (option : str) :
    clres (str * list str) :=
  match inline, arguments with
  | Some [], _ => client_error (option ++ lit " requires a value")
  | Some value, _ => Ok (value, arguments)
  | None, value :: arguments => Ok (value, arguments)
  | None, [] => client_error (option ++ lit " requires a value")
  end.

Definition help_text : str :=
  lit "resolvectl " ++ version ++ join_with [newline]
    (lit <$> [""; "Usage: resolvectl [--socket PATH] [-4|-6] COMMAND [ARGUMENTS]"; "Commands:";
     "query NAME|ADDRESS..."; "openpgp EMAIL@DOMAIN..."; "tlsa [tcp|udp|sctp] DOMAIN[:PORT]...";
     "status"; "statistics"; "show-cache"; "show-server-state"; "flush-caches"; "reset-statistics";
     "reset-server-features"; "dns LINK [SERVER...]"; "domain LINK [DOMAIN...]";
     "default-route LINK BOOL"; "llmnr LINK MODE"; "mdns LINK MODE"; "dnsovertls LINK MODE";
     "dnssec LINK MODE"; "nta LINK [DOMAIN...]"; "revert LINK"]%string).

(** The loop over the arguments before the command. *)
Fixpoint ctl_parse_loop (fuel : nat) (arguments : list str) (o : CtlOptions) :
    cst P (option CtlOptions) :=
  match fuel with
  | O => lift Diverge
  | S fuel =>
      match arguments with
      | [] => mret (Some (mk_ctl_options (co_socket o) (co_socket_explicit o) (co_family o)
                            (lit "status") []))
      | argument :: arguments =>
          let '(name, inline) :=
            match split_once 61 argument with
            | Some (name, value) => (name, Some value)
            | None => (argument, None)
            end in
          let named (text : string) : bool := bool_decide (name = lit text) in
          if named "--socket" then
            '(value, arguments) ← lift (ctl_option_value inline arguments name);
            ctl_parse_loop fuel arguments
              (mk_ctl_options value true (co_family o) (co_command o) (co_arguments o))
          else if named "-4" || named "-6" then
            ctl_parse_loop fuel arguments
              (mk_ctl_options (co_socket o) (co_socket_explicit o) (if named "-4" then 2 else 10)
                 (co_command o) (co_arguments o))
          else if named "--version" then _ ← println (lit "resolvectl " ++ version); mret None
          else if named "--help" || named "-h" || named "help" then _ ← println help_text; mret None
          else if starts_with argument (lit "-")
          then lift (client_error (lit "unknown option: " ++ argument))
          else if bool_decide (argument = lit "query") && bool_decide (arguments = [])
          then lift (client_error (lit "query requires at least one name or address"))
          else mret (Some (mk_ctl_options (co_socket o) (co_socket_explicit o) (co_family o)
                             argument arguments))
      end
  end.

Definition ctl_parse_options (arguments : list str) : cst P (option CtlOptions) :=
  ctl_parse_loop (S (length arguments)) arguments (mk_ctl_options DEFAULT_SOCKET false 0 [] []).

Definition ctl_command (o : CtlOptions) : cst P unit :=
  let named (name : string) : bool := bool_decide (co_command o = lit name) in
  if named "query" then query_many (co_socket o) (co_arguments o) (co_family o)
  else if named "openpgp" then openpgp (co_socket o) (co_arguments o)
  else if named "tlsa" then tlsa (co_socket o) (co_arguments o)
  else if named "status" then status (co_socket o)
  else if named "statistics" then ctl_statistics (monitor_socket o)
  else if named "show-cache" then show_cache (monitor_socket o)
  else if named "show-server-state" then show_server_state (monitor_socket o)
  else if named "flush-caches" then ctl_control (co_socket o) (lit "io.systemd.Resolve.FlushCaches")
  else if named "reset-statistics" then
    ctl_control (monitor_socket o) (lit "io.systemd.Resolve.Monitor.ResetStatistics")
  else if named "reset-server-features" then
    ctl_control (co_socket o) (lit "io.systemd.Resolve.ResetServerFeatures")
  else if is_command (co_command o) then bus_execute (co_command o) (co_arguments o)
  else lift (client_error (lit "unknown command: " ++ co_command o)).

Definition ctl_execute (arguments : list str) : cst P unit :=
  o ← ctl_parse_options arguments;
  match o with
  | None => mret ()
  | Some o => ctl_command o
  end.

(** [main]: whether the process succeeds; an error goes to the standard error. *)
Definition ctl_main (arguments : list str) : cst P bool :=
  r ← attempt (ctl_execute arguments);
  match r with
  | Ok _ => mret true
  | Err error => _ ← report (lit "resolvectl") error; mret false
  | Panic => lift Panic
  | Diverge => lift Diverge
  end.
End resolvectl.

Example monitor_socket_default : monitor_socket_for DEFAULT_SOCKET = DEFAULT_MONITOR_SOCKET.
Proof. by vm_compute. Qed.

Example monitor_socket_custom :
  monitor_socket_for (lit "/tmp/resolved-test.sock") = lit "/tmp/resolved-test.sock.Monitor".
Proof. by vm_compute. Qed.
