(* ===== verification/ResolvectlFacts.v ===== *)
(** * resolvectl: theorems

    The client talking to the daemon: a call returns the value the daemon's
    handler gave, however the octets are cut into reads; the records, addresses
    and settings the commands show are those of the resolver. *)

From S2P Require Import Prelude Stateful Text Utf8 Net NetFacts ConfigTypes Codec Names CodecFacts Packet PacketFacts.
From S2P Require Import Records RedirectFacts RecordsFacts Sorting CacheX CacheXFacts Json JsonFacts World WorldFacts.
From S2P Require Import RoutingFacts Query Lookup ExchangeFacts ResolverInv QueryFacts LookupFacts Varlink VarlinkFacts.
From S2P Require Import Config Dbus DbusFacts Client RecordClient RecordClientFacts Resolvectl.

(** ** Unicode values *)

(** The texts of a value. *)
Fixpoint texts (v : Value) : list str :=
  match v with
  | String s => [s]
  | Array vs => flat_map texts vs
  | Object o => flat_map (λ e, e.1 :: texts e.2) o
  | _ => []
  end.

Definition unicode (v : Value) : Prop := Forall (Forall scalar) (texts v).

Lemma scalar_ascii c : 0 ≤ c < 128 → scalar c.
Proof. unfold scalar; lia. Qed.

Lemma show_digits_ascii n v acc :
  Forall (λ c, 0 ≤ c < 128) acc → Forall (λ c, 0 ≤ c < 128) (show_digits n v acc).
Proof.
  revert v acc; induction n as [|n IH]; intros v acc Hacc; cbn [show_digits]; [done|].
  assert (0 ≤ 48 + v `mod` 10 < 128) by (pose proof (Z.mod_pos_bound v 10 ltac:(lia)); lia).
  case_match; [by constructor|]; apply IH; by constructor.
Qed.

Lemma lit_scalar s : forallb (λ c, (0 <=? c) && (c <? 128)) (lit s) = true → Forall scalar (lit s).
Proof.
  intros H; apply Forall_forall; intros c Hc; apply scalar_ascii.
  rewrite forallb_forall in H; apply list_elem_of_In, H in Hc; boolp; lia.
Qed.

Lemma lit_ok s : forallb (λ c, (0 <=? c) && (c <? 128)) (lit s) = true → str_ok (lit s).
Proof. intros H; by apply scalar_str_ok, lit_scalar. Qed.

Lemma write_string_scalar s : Forall scalar s → Forall scalar (write_string s).
Proof.
  intros Hs; unfold write_string; repeat apply Forall_app_2; try (by repeat constructor; cbn).
  apply Forall_bind; eapply Forall_impl; [exact Hs|]; intros c Hc; unfold compose.
  assert (∀ n, Forall scalar (hex_digit (Z.land n 15))) as Hhex.
  { intros n; pose proof (Z.land_ones n 4 ltac:(lia)) as Hn; change (Z.ones 4) with 15 in Hn.
    pose proof (Z.mod_pos_bound n (2 ^ 4) ltac:(lia)); unfold hex_digit.
    constructor; [|constructor]; apply scalar_ascii; destruct (_ <? _); lia. }
  unfold write_char; do 7 (match goal with |- Forall _ (if ?b then _ else _) => destruct b end;
    [by do 2 (constructor; [apply scalar_ascii; done|])|]).
  destruct (c <? 32) eqn:Hc32; boolp; [|by constructor].
  do 2 (constructor; [apply scalar_ascii; done|]); unfold show_hex4; repeat apply Forall_app_2;
    apply Hhex.
Qed.

Lemma join_scalar sep pieces :
  Forall scalar sep → Forall (Forall scalar) pieces → Forall scalar (join_with sep pieces).
Proof.
  intros Hs; induction 1 as [|x l Hx Hl IH]; [constructor|]; cbn [join_with]; destruct l; [done|].
  by repeat apply Forall_app_2.
Qed.

Lemma to_json_scalar v : unicode v → Forall scalar (to_json v).
Proof.
  assert (∀ c, 0 ≤ c < 128 → Forall scalar [c]) as H1.
  { intros c Hc; constructor; [by apply scalar_ascii|constructor]. }
  unfold unicode; induction v as [|b|n|s|vs IH|o IH] using value_ind'; cbn [to_json texts]; intros Hv.
  - by apply lit_scalar.
  - destruct b; by apply lit_scalar.
  - unfold show_i128; eapply Forall_impl; [|exact scalar_ascii].
    case_match; [constructor; [unfold minus; lia|]|]; apply show_digits_ascii; constructor.
  - apply Forall_cons in Hv as [Hv _]; by apply write_string_scalar.
  - repeat apply Forall_app_2; [by apply H1| |by apply H1].
    apply join_scalar; [by apply H1|]; apply Forall_map.
    induction IH as [|v vs Hi _ IHl]; [constructor|]; cbn [flat_map] in Hv.
    apply Forall_app in Hv as [Hv Hvs]; constructor; [by apply Hi|by apply IHl].
  - repeat apply Forall_app_2; [by apply H1| |by apply H1].
    apply join_scalar; [by apply H1|]; apply Forall_map.
    induction IH as [|[k v] o Hi _ IHl]; [constructor|]; cbn [flat_map fst snd] in Hv.
    apply Forall_cons in Hv as [Hk [Hv Hvs]%Forall_app]; constructor; [|by apply IHl].
    apply Forall_app_2; [by apply write_string_scalar|]; apply Forall_app_2; [by apply H1|by apply Hi].
Qed.

(** ** Sizes *)

(** A bound on the octets of the text of a value. *)
Fixpoint weight (v : Value) : Z :=
  match v with
  | Null | Bool _ => 20
  | Number _ => 164
  | String s => 24 * len s + 8
  | Array vs => foldr (λ v n, weight v + 4 + n) 8 vs
  | Object o => foldr (λ e n, 24 * len e.1 + 16 + weight e.2 + n) 8 o
  end.

Lemma as_bytes_le s : len (as_bytes s) ≤ 4 * len s.
Proof.
  induction s as [|c s IH]; [done|]; unfold as_bytes in *; rewrite bind_cons, len_app, len_cons.
  assert (len (char_bytes c) ≤ 4) by (unfold char_bytes, len; repeat case_match; cbn; lia); lia.
Qed.

Lemma write_string_le s : len (write_string s) ≤ 6 * len s + 2.
Proof.
  unfold write_string; rewrite !len_app; change (len [quote]) with 1.
  assert (len (s ≫= write_char) ≤ 6 * len s); [|lia].
  induction s as [|c s IH]; [done|]; rewrite bind_cons, len_app, len_cons.
  assert (len (write_char c) ≤ 6) as Hc; [|lia].
  unfold write_char, show_hex4, hex_digit, len; repeat (destruct (_ =? _); [cbn; lia|]).
  destruct (c <? 32); cbn; lia.
Qed.

Lemma show_digits_le n v acc : len (show_digits n v acc) ≤ Z.of_nat n + len acc.
Proof.
  revert v acc; induction n as [|n IH]; intros v acc; cbn [show_digits]; [lia|].
  case_match; rewrite ?len_cons; [lia|]; etransitivity; [apply IH|]; rewrite len_cons; lia.
Qed.

(** What is joined by commas is as long as its pieces and the commas. *)
Lemma join_comma_le {A} (f : A → str) (g : A → Z) l :
  Forall (λ x, 4 * len (f x) + 4 ≤ g x) l →
  4 * len (join_with [comma] (map f l)) ≤ foldr (λ x n, g x + n) 0 l.
Proof.
  induction 1 as [|x l Hx Hl IH]; [done|]; cbn [map join_with foldr]; destruct l as [|y l].
  - cbn [map foldr]; pose proof (len_nonneg (f x)); lia.
  - cbn [map] in *; rewrite !len_app; change (len [comma]) with 1; lia.
Qed.

Lemma foldr_shift {A} (g : A → Z) l a b :
  foldr (λ x n, g x + n) (a + b) l = a + foldr (λ x n, g x + n) b l.
Proof. induction l as [|x l IH]; cbn; [done|]; rewrite IH; lia. Qed.

Lemma to_json_weight v : 4 * len (to_json v) ≤ weight v.
Proof.
  induction v as [|b|n|s|vs IH|o IH] using value_ind'; cbn [to_json weight].
  - by vm_compute.
  - destruct b; by vm_compute.
  - unfold show_i128; case_match; rewrite ?len_cons;
      match goal with |- context [show_digits 40 ?x []] => pose proof (show_digits_le 40 x []) end;
      change (len (@nil Z)) with 0 in *; lia.
  - pose proof (write_string_le s); lia.
  - rewrite !len_app; change (len (lit "[")) with 1; change (len (lit "]")) with 1.
    pose proof (join_comma_le to_json (λ v, weight v + 4) vs) as Hj.
    change (foldr (λ v n, weight v + 4 + n) 8 vs) with (foldr (λ v n, (λ v, weight v + 4) v + n) (8 + 0) vs).
    rewrite foldr_shift; lapply Hj; [lia|]; eapply Forall_impl; [exact IH|]; cbn; lia.
  - rewrite !len_app; change (len (lit "{")) with 1; change (len (lit "}")) with 1.
    pose proof (join_comma_le (λ '(k, v), write_string k ++ [colon] ++ to_json v)
      (λ e, 24 * len e.1 + 16 + weight e.2) o) as Hj.
    change (foldr _ 8 o) with (foldr (λ e n, (λ e : str * Value, 24 * len e.1 + 16 + weight e.2) e + n) (8 + 0) o).
    rewrite foldr_shift; lapply Hj; [lia|].
    eapply Forall_impl; [exact IH|]; intros [k v] Hv; cbn [fst snd] in *; rewrite !len_app.
    change (len [colon]) with 1; pose proof (write_string_le k); lia.
Qed.

Lemma reply_text_le v : len (reply_text v) ≤ weight v.
Proof. pose proof (as_bytes_le (to_json v)); pose proof (to_json_weight v); unfold reply_text; lia. Qed.

(** ** Calls *)

Lemma read_reply_cut chunks acc m rest :
  Forall (λ c, c ≠ []) chunks → concat chunks = m ++ 0 :: rest → 0 ∉ m →
  len (acc ++ m) ≤ MAX_REPLY_SIZE → read_reply (inr <$> chunks) acc = Ok (acc ++ m).
Proof.
  intros Hc; revert acc m; induction Hc as [|c chunks Hne _ IH]; intros acc m Heq Hm Hl.
  { cbn in Heq; by destruct m. }
  cbn [fmap list_fmap read_reply]; destruct c as [|x c]; [done|].
  destruct (take_message (x :: c)) as [[m' r]|] eqn:Ht.
  - apply take_message_iff in Ht as [Hx Hm']; rewrite Hx in Heq; cbn [concat] in Heq.
    enough (m' = m) as -> by done.
    rewrite <- app_assoc in Heq; cbn [app] in Heq.
    clear -Heq Hm Hm'; revert m Heq Hm; induction m' as [|y m' IH']; intros [|z m] Heq Hm; cbn in *.
    + done.
    + simplify_eq; set_solver.
    + simplify_eq; set_solver.
    + simplify_eq; f_equal; apply IH'; set_solver.
  - apply take_message_None in Ht; cbn [concat] in Heq.
    assert (∃ m2, m = (x :: c) ++ m2 ∧ concat chunks = m2 ++ 0 :: rest) as (m2 & -> & Hrest).
    { clear -Heq Ht; revert m Heq; induction (x :: c) as [|y l IHl]; intros m Heq; [by exists m|].
      destruct m as [|z m]; cbn in Heq; injection Heq as -> Heq; [set_solver|].
      destruct (IHl ltac:(set_solver) m Heq) as (m2 & -> & ?); by exists m2. }
    rewrite app_assoc in Hl |- *; rewrite len_app in Hl; pose proof (len_nonneg m2).
    rewrite (proj2 (Z.ltb_ge _ _)) by lia; apply IH; [done|set_solver|by rewrite len_app].
Qed.

(** What a request must satisfy to arrive as it is. *)
Record request_ok (method : str) (parameters : Value) : Prop := {
  rq_method : Forall scalar method;
  rq_value : value_ok parameters;
  rq_unicode : unicode parameters;
  rq_size : len (reply_text (varlink_request method parameters)) < MAX_MESSAGE_SIZE;
}.

Definition reply_ok (v : Value) : Prop :=
  value_ok v ∧ unicode v ∧ len (reply_text v) ≤ MAX_REPLY_SIZE.

Lemma reads_back v : value_ok v → unicode v → from_utf8 (reply_text v) = Some (to_json v).
Proof. intros _ Hu; by apply from_utf8_as_bytes, to_json_scalar. Qed.

Lemma request_value method parameters :
  Forall scalar method → value_ok parameters → unicode parameters →
  value_ok (varlink_request method parameters) ∧ unicode (varlink_request method parameters).
Proof.
  intros Hm Hv Hu.
  assert (varlink_request method parameters =
    Object [(lit "method", String method); (lit "parameters", parameters)]) as -> by done.
  split.
  - constructor; [repeat constructor; try done|].
    + by apply scalar_str_ok.
    + repeat constructor.
  - unfold unicode; cbn [texts flat_map app fst snd].
    repeat (constructor; [by apply lit_scalar || done|]); by rewrite app_nil_r.
Qed.

(** ** The daemon at the other end *)

(** How a stream is cut into reads. *)
Definition cuts (cut : bytes → list bytes) : Prop :=
  ∀ p, concat (cut p) = p ∧ Forall (λ c, c ≠ []) (cut p).

(** The daemon behind a socket: each call is a connection of its own, with the
    credentials of the client; the request and what the daemon wrote are cut
    into reads.  Writes succeed. *)
Definition daemon_exchange (env : Env) (self : Resolver) (fuel : nat)
    `{io : !IterOrder XKey CacheEntry} (version : str) (peer : World.io Z)
    (endpoint : str → VarlinkEndpoint) (cut_in cut_out : bytes → list bytes) : VarlinkPeer World :=
  λ w socket request,
    match serve_connection env self fuel version (λ _ _, inr ()) (inr ()) peer (inr <$> cut_in request)
            (endpoint socket) w with
    | (Ok served, w) => (inr (inr <$> cut_out (sv_written served)), w)
    | (_, w) => (inl IoWouldBlock, w)
    end.

(** After a reply was written in its two parts. *)
Definition after_reply (w : World) : World := { w with w_events := S (S (w_events w)) }.

Section daemon.
Context (env : Env) (self : Resolver) (fuel : nat).
Context `{io : !IterOrder XKey CacheEntry, !IterOrderOk io}.
Context (HE : query_env env fuel table_wf) (HW : waits_ok env fuel table_wf).
Context (version : str) (peer : World.io Z) (endpoint : str → VarlinkEndpoint).
Context (cut_in cut_out : bytes → list bytes) (Hin : cuts cut_in) (Hout : cuts cut_out).

#[local] Instance daemon : VarlinkPeer World :=
  daemon_exchange env self fuel version peer endpoint cut_in cut_out.

Abbreviation served_call b e := (call_method env self fuel version b e).

Lemma dispatch_request b e method parameters w :
  value_ok parameters → unicode parameters → Forall scalar method → allows e method = true →
  dispatch_for_endpoint env self fuel version (to_json (varlink_request method parameters)) b e w =
    served_call b e method parameters w.
Proof.
  intros Hv Hu Hm Ha; unfold dispatch_for_endpoint.
  destruct (request_value method parameters Hm Hv Hu) as [Hrv _].
  rewrite parse_printed by done.
  assert (json_get (varlink_request method parameters) (lit "method") ≫= as_str = Some method)
    as -> by done.
  by rewrite Ha.
Qed.

Lemma serve_one m v w w1 b e :
  0 ∉ m → len m < MAX_MESSAGE_SIZE →
  reply_to env self fuel version m b e w = (Ok v, w1) →
  serve_loop env self fuel version (λ _ _, inr ()) (S (length (cut_in (m ++ [0])) +
      input_size (inr <$> cut_in (m ++ [0])))) b e [] (inr <$> cut_in (m ++ [0])) [] w =
    (Ok (mk_served (reply_text v ++ [0]) None), after_reply w1).
Proof using Hin.
  intros Hm Hl Hr; destruct (Hin (m ++ [0])) as [Hc Hne].
  rewrite loop_answers; [|done|done|..].
  - cbn [app]; rewrite Hc; change [0] with (0 :: []); rewrite messages_cons by done.
    change (messages []) with (@nil bytes); cbn [answer_all].
    unfold mbind, st_bind; rewrite Hr; unfold next_event, mret, st_ret, after_reply; cbn.
    unfold framed; cbn; by rewrite app_nil_r.
  - cbn [app]; rewrite Hc, len_app; change (len [0]) with 1; lia.
  - cbn [app]; rewrite Hc.
    enough (input_size (inr <$> cut_in (m ++ [0])) = length (m ++ [0])) by lia.
    rewrite <- Hc at 2; clear; unfold input_size, list_sum.
    induction (cut_in (m ++ [0])) as [|c chunks IH]; cbn; [done|]; by rewrite length_app, IH.
Qed.

(** A call over the socket is a call of the handler. *)
Lemma varlink_call_daemon socket method parameters v c w1 :
  let e := endpoint socket in
  request_ok method parameters → allows e method = true →
  served_call (peer_can_control peer) e method parameters (cl_peer c) = (Ok v, w1) → reply_ok v →
  varlink_call socket method parameters c =
    (Ok v, mk_client (after_reply w1) (cl_out c) (cl_errors c)).
Proof using Hin Hout.
  intros e [Hm Hv Hu Hl] Ha Hcall (Hrv & Hru & Hrl).
  destruct (request_value method parameters Hm Hv Hu) as [Hqv Hqu].
  unfold varlink_call, mbind, st_bind, get, put; unfold varlink_exchange, daemon, daemon_exchange.
  fold (reply_text (varlink_request method parameters)); unfold serve_connection.
  rewrite length_fmap; fold e.
  rewrite (serve_one (reply_text (varlink_request method parameters)) v (cl_peer c) w1);
    [|apply reply_text_nonzero|done|].
  2: { unfold reply_to; rewrite reads_back by done; by rewrite dispatch_request. }
  cbn [sv_written fst snd]; destruct (Hout (reply_text v ++ [0])) as [Hc Hne].
  unfold lift; rewrite (read_reply_cut _ [] (reply_text v) []); [|done|done|apply reply_text_nonzero|done].
  cbn [app]; rewrite reads_back by done; unfold lift; by rewrite parse_printed.
Qed.

(** *** Records *)

Definition record_method : str := lit "io.systemd.Resolve.ResolveRecord".

(** The reply of the daemon to a request for records. *)
Definition records_reply (p : bytes) (out : list AnswerRecord) : Value :=
  success (object [(lit "rrs", Array (varlink_record 0 <$> out));
                   (lit "flags", Number (response_flags p))]).

Definition type_asked (t : Z) : Prop := t = TYPE_TLSA ∨ t = TYPE_OPENPGPKEY.

Lemma record_parameters_of owner t :
  type_asked t → owner ≠ [] → record_parameters (record_request owner t) = Ok (owner, 1, t, 0).
Proof.
  intros Ht Ho; unfold record_parameters.
  assert (required_string (record_request owner t) (lit "name") = Ok owner) as -> by done.
  cbn [mbind outcome_bind]; rewrite bool_decide_eq_false_2 by done; by destruct Ht as [->| ->].
Qed.

Lemma served_records b e owner t w p out w1 :
  type_asked t → owner ≠ [] →
  resolve_record_on_link env self fuel owner CLASS_IN t None w = (Ok p, w1) →
  extract_answer_records p = Ok out → out ≠ [] →
  served_call b e record_method (record_request owner t) w = (Ok (records_reply p out), w1).
Proof.
  intros Ht Ho Hr Hx Hne; unfold served_call, record_method; unfold call_method.
  repeat (rewrite bool_decide_eq_false_2 by done); rewrite bool_decide_eq_true_2 by done.
  unfold varlink_resolve_record; rewrite record_parameters_of by done; cbn [or_reply].
  unfold calling, mbind, st_bind, attempt; change (on_link 0) with (@None Z); change 1 with CLASS_IN.
  rewrite Hr; unfold parsed; rewrite Hx; by destruct out.
Qed.

Lemma records_reply_shape p out :
  records_reply p out = Object [(lit "parameters",
    Object [(lit "flags", Number (response_flags p)); (lit "rrs", Array (varlink_record 0 <$> out))])].
Proof. done. Qed.

Lemma response_flags_bound p : 0 ≤ response_flags p < 2048.
Proof. unfold response_flags; destruct (header_parse p); [case_match; done|lia..]. Qed.

Lemma records_reply_ok p out :
  Forall (λ a, bytes_ok (a_raw a)) out → value_ok (records_reply p out) ∧ unicode (records_reply p out).
Proof.
  intros Hraws; rewrite records_reply_shape; pose proof (response_flags_bound p).
  assert (∀ a, varlink_record 0 a = Object [(lit "raw", String (base64 (a_raw a)))]) as Hrec by done.
  split.
  - constructor; [constructor; [split; [by apply lit_ok|]|constructor]|repeat constructor].
    constructor; [|repeat constructor].
    constructor; [split; [by apply lit_ok|constructor; lia]|constructor; [split; [by apply lit_ok|]|constructor]].
    constructor; apply Forall_fmap; eapply Forall_impl; [exact Hraws|]; intros a Ha; cbn.
    rewrite Hrec; constructor; [|repeat constructor]; constructor; [|constructor]; split; [by apply lit_ok|].
    constructor; apply scalar_str_ok; eapply Forall_impl; [by apply base64_ascii|exact scalar_ascii].
  - unfold unicode; cbn [texts flat_map fst snd app].
    do 2 (constructor; [by apply lit_scalar|]); constructor; [by apply lit_scalar|]; rewrite !app_nil_r.
    induction Hraws as [|a out Ha _ IH]; [constructor|]; cbn [fmap list_fmap flat_map]; rewrite Hrec.
    cbn [texts flat_map fst snd app]; constructor; [by apply lit_scalar|]; constructor; [|done].
    eapply Forall_impl; [by apply base64_ascii|exact scalar_ascii].
Qed.

Lemma record_request_ok owner t :
  type_asked t → Forall scalar owner → len owner ≤ 400 →
  request_ok record_method (record_request owner t).
Proof.
  intros Ht Ho Hl.
  assert (record_request owner t = Object [(lit "class", Number 1); (lit "flags", Number 0);
    (lit "ifindex", Number 0); (lit "name", String owner); (lit "type", Number t)]) as Heq by done.
  rewrite Heq; split; [by apply lit_scalar|..].
  - constructor; [|repeat constructor].
    repeat (constructor; [split; [by apply lit_ok|]; constructor; first [by apply scalar_str_ok|destruct Ht; subst; done]|]).
    constructor.
  - unfold unicode; cbn [texts flat_map fst snd app].
    repeat (constructor; [first [by apply lit_scalar|done]|]); constructor.
  - eapply Z.le_lt_trans; [apply reply_text_le|].
    assert (∀ m p, varlink_request m p = Object [(lit "method", String m); (lit "parameters", p)])
      as -> by done.
    cbn [weight foldr fst snd]; change (len (@nil Z)) with 0; unfold MAX_MESSAGE_SIZE.
    repeat match goal with |- context [len (lit ?s)] =>
      let n := eval vm_compute in (len (lit s)) in change (len (lit s)) with n end.
    change (len record_method) with 32; lia.
Qed.

(** The records the client gets are those of the answer the resolver found. *)
Lemma resolve_records_daemon socket owner t c p w1 h qs rs stop out :
  type_asked t → Forall scalar owner → owner ≠ [] → len owner ≤ 400 →
  allows (endpoint socket) record_method = true → resolver_inv table_wf None (w_shared (cl_peer c)) →
  resolve_record_on_link env self fuel owner CLASS_IN t None (cl_peer c) = (Ok p, w1) →
  parse_sections p = Ok (h, qs, rs, stop) → is_response h = true →
  extract_answer_records p = Ok out → out ≠ [] →
  Forall (λ r, r_rr_type r = t ∧ r_class r = CLASS_IN) (answer_section h rs) →
  len (reply_text (records_reply p out)) ≤ MAX_REPLY_SIZE →
  resolve_records socket owner t c =
    (Ok (canonical_of <$> answer_section h rs), mk_client (after_reply w1) (cl_out c) (cl_errors c)).
Proof using All.
  intros Ht Ho Hone Hlen Ha Hw Hr Hs Hresp Hx Hne Htype Hsize.
  assert (is_u16 t) as Hu by (by destruct Ht; subst).
  pose proof (record_keeps env self fuel HE HW owner CLASS_IN t None ltac:(done) Hu (cl_peer c)
    (proj2 (inv_iff _ None _) Hw)) as Hk.
  unfold swp in Hk; rewrite Hr in Hk; destruct Hk as [_ Hp].
  destruct (extract_answers_of p h qs rs stop Hp Hs Hresp) as (out' & Hout' & Hall & He).
  assert (out' = out) as -> by congruence.
  assert (Forall (λ a, bytes_ok (a_raw a)) out) as Hraw.
  { clear -Hall He Hp; induction Hall as [|r a rs' out' (_ & _ & _ & _ & Hraw) _ IH]; [constructor|].
    apply Forall_cons in He as [[o Ho] He]; constructor; [|by apply IH].
    by destruct (parse_canonical_of p o r _ Hp Ho Hraw) as (_ & ? & _). }
  destruct (records_reply_ok p out Hraw) as [Hv Huni].
  unfold resolve_records, mbind, st_bind; fold record_method.
  rewrite (varlink_call_daemon socket record_method _ (records_reply p out) c w1);
    [|by apply record_request_ok|done|by apply served_records|done].
  unfold lift; cbn [fst snd].
  assert (reply_parameters (records_reply p out) = Ok (object [(lit "rrs", Array (varlink_record 0 <$> out));
    (lit "flags", Number (response_flags p))])) as -> by done.
  by rewrite (reply_records_of p h qs rs stop).
Qed.
End daemon.

(** *** TLSA records *)

(** The line printed for a record with its three fields. *)
Definition tlsa_line (owner : str) (r : ResourceRecord) : str :=
  match r_rdata r with
  | usage :: selector :: matching_type :: association =>
      owner ++ lit " IN TLSA " ++ show_unsigned usage ++ lit " " ++ show_unsigned selector ++ lit " " ++
      show_unsigned matching_type ++ lit " " ++ encode_hex association ++ [newline]
  | _ => []
  end.

Lemma print_tlsa_all {P} owner rs (c : Client P) :
  Forall (λ r, 3 ≤ len (r_rdata r)) rs →
  for_each (canonical_of <$> rs) (print_tlsa owner) c =
    (Ok (), mk_client (cl_peer c) (cl_out c ++ concat (tlsa_line owner <$> rs)) (cl_errors c)).
Proof.
  intros Hrs; revert c; induction Hrs as [|r rs Hr _ IH]; intros c; cbn [fmap list_fmap for_each concat].
  { destruct c; cbn; by rewrite app_nil_r. }
  unfold mbind, st_bind; unfold print_tlsa at 1; unfold tlsa_line at 1; cbn [canonical_of cr_rdata].
  destruct (r_rdata r) as [|u [|s [|m a]]]; try (unfold len in Hr; cbn in Hr; lia).
  unfold println, print, modify; rewrite IH; cbn [cl_peer cl_out cl_errors].
  by rewrite <- !app_assoc.
Qed.

(** ** Settings of a link *)

(** The daemon behind the system bus; Varlink is not used by these commands. *)
Definition bus_daemon (strerror : Z → str) (object_path : str → str + str) (env : Env)
    (self : Resolver) (fuel : nat) `{io : !IterOrder XKey CacheEntry}
    (files : str → World.io str) : Peer World := {|
  peer_varlink := λ w _ _, (inl IoWouldBlock, w);
  bus_open w := (inr (), w);
  bus_call w m := match dbus_call strerror object_path env self fuel m w with
                  | (Ok None, w) => (inr (), w)
                  | (Ok (Some e), w) => (inl e, w)
                  | (_, w) => (inl (ZBus []), w)
                  end;
  index_file _ path := files path;
|}.

(** The family, octets, port and name of a server. *)
Definition spec_entry (spec : DnsServerSpec) : Z * bytes * Z * str :=
  (match sock_ip (address spec) with V4 octets => (2, octets) | V6 octets => (10, octets) end,
   sock_port (address spec), match server_name spec with Some name => name | None => [] end).

Lemma parse_ifindex_state {P} `{Peer P} value (c : Client P) : (parse_ifindex value c).2 = c.
Proof.
  unfold parse_ifindex, mbind, st_bind, get, lift, client_error, fail; repeat (case_match; cbn; try done).
Qed.

Lemma server_arguments_specs {P} `{Peer P} link values (c c' : Client P) entries :
  server_arguments link values c = (Ok entries, c') →
  c' = c ∧ ∃ specs, mapM parse_server_spec values = Ok specs ∧ entries = spec_entry <$> specs.
Proof.
  revert c' entries; induction values as [|v values IH]; intros c' entries; cbn [server_arguments].
  { intros [= <- <-]; split; [done|]; by exists []. }
  unfold mbind, st_bind, lift; cbn [mapM].
  destruct (parse_server_spec v) as [spec| | |]; try done; cbn [map_err].
  match goal with |- context [match interface spec with _ => _ end c] =>
    destruct (match interface spec with _ => _ end c) as [[[]| | |] c1] eqn:Hi end; try done.
  assert (c1 = c) as ->.
  { revert Hi; destruct (interface spec) as [name|]; [|by intros [= <-]].
    pose proof (parse_ifindex_state name c) as Hs; unfold mbind, st_bind.
    destruct (parse_ifindex name c) as [[]]; cbn in Hs; subst; try done.
    case_match; [done|by intros [= <-]]. }
  destruct (encode_address _) as [family octets] eqn:He.
  destruct (server_arguments link values c) as [[servers| | |] c2] eqn:Hv; try done.
  intros [= <- <-]; destruct (IH _ _ eq_refl) as (-> & specs & Hm & ->); split; [done|].
  exists (spec :: specs); split; [cbn; by rewrite Hm|]; cbn; unfold spec_entry.
  unfold encode_address in He; by rewrite He.
Qed.

(** ** Properties *)

(** C40: the TLSA records a user sees are those the resolver found.  Asked for a
    target, [resolvectl tlsa] sends one request, and when the daemon's resolver
    answers the question for its owner name with records of that type, the
    client prints exactly one line per record of the answer, in order, with the
    octets of its data, and no error, however the octets of the request and of
    the reply are cut into reads. *)
Theorem tlsa_shows_records env self fuel (io : IterOrder XKey CacheEntry) version peer endpoint
    cut_in cut_out socket family target q c p w1 h qs rs stop out :
  IterOrderOk io → query_env env fuel table_wf → waits_ok env fuel table_wf →
  cuts cut_in → cuts cut_out → allows (endpoint socket) record_method = true →
  resolver_inv table_wf None (w_shared (cl_peer c)) →
  Forall scalar family → len family ≤ 4 → tlsa_query family target = Ok q →
  resolve_record_on_link env self fuel (tq_owner q) CLASS_IN TYPE_TLSA None (cl_peer c) = (Ok p, w1) →
  parse_sections p = Ok (h, qs, rs, stop) → is_response h = true →
  extract_answer_records p = Ok out → out ≠ [] →
  Forall (λ r, (r_rr_type r = TYPE_TLSA ∧ r_class r = CLASS_IN) ∧ 3 ≤ len (r_rdata r)) (answer_section h rs) →
  len (reply_text (records_reply p out)) ≤ MAX_REPLY_SIZE →
  tlsa_one (H := daemon_exchange env self fuel version peer endpoint cut_in cut_out) socket q c =
    (Ok (), mk_client (after_reply w1)
              (cl_out c ++ concat (tlsa_line (tq_owner q) <$> answer_section h rs)) (cl_errors c)).
Proof.
  intros Hio HE HW Hin Hout Ha Hw Hf Hfl Hq Hr Hs Hresp Hx Hne [Ht Hd]%Forall_and Hsize.
  destruct (tlsa_query_owner family target q Hf Hfl Hq) as (_ & Ho & Hone & Hlen).
  unfold tlsa_one, mbind, st_bind.
  rewrite (resolve_records_daemon env self fuel HE HW version peer endpoint cut_in cut_out Hin Hout
    socket (tq_owner q) TYPE_TLSA c p w1 h qs rs stop out) by (done || lia || by left).
  by rewrite print_tlsa_all.
Qed.

(** A server that has the TLSA record [3 1 1 aa] for [_443._tcp.x], and reads of
    one octet each. *)
Definition example_tlsa_reply : bytes :=
  [0; 0; 129; 128; 0; 1; 0; 1; 0; 0; 0; 1; 4; 95; 52; 52; 51; 4; 95; 116; 99; 112; 1; 120; 0; 0; 52; 0; 1;
   192; 12; 0; 52; 0; 1; 0; 0; 1; 44; 0; 4; 3; 1; 1; 170; 0; 0; 41; 4; 208; 0; 0; 128; 0; 0; 0].

Definition example_tlsa_answer : bytes :=
  [0; 0; 129; 128; 0; 1; 0; 1; 0; 0; 0; 0; 4; 95; 52; 52; 51; 4; 95; 116; 99; 112; 1; 120; 0; 0; 52; 0; 1;
   192; 12; 0; 52; 0; 1; 0; 0; 1; 44; 0; 4; 3; 1; 1; 170].

Definition bytewise (p : bytes) : list bytes := (λ b, [b]) <$> p.

Lemma bytewise_cuts : cuts bytewise.
Proof.
  intros p; split; [by induction p as [|b p IH]; cbn; [|f_equal]|].
  apply Forall_fmap, Forall_true; by intros.
Qed.

Lemma example_tlsa_env : query_env (example_env (λ _, id) example_tlsa_reply) 200 table_wf.
Proof.
  split; [|lia|apply example_receiving|apply example_uptime| |done].
  - split; cbn; try done; intros n fd r f; case_match; intros [= <- <-]; split; [|by vm_compute].
    by apply (packet_okb_ok example_tlsa_reply).
  - intros n p text; by cbn.
Qed.

Lemma example_tlsa_run :
  ∃ w1, resolve_record_on_link (io := map_order) (example_env (λ _, id) example_tlsa_reply)
          (example_resolver AllowDowngrade TlsNo) 200 (lit "_443._tcp.x") CLASS_IN TYPE_TLSA None
          (finite_world example_table) = (Ok example_tlsa_answer, w1).
Proof.
  match goal with |- ∃ w1, ?m = _ => assert (m.1 = Ok example_tlsa_answer) as H by (by vm_compute);
    destruct m as [r w1]; cbn in H; subst; by exists w1 end.
Qed.

Definition example_tlsa_name : DnsName :=
  mk_name (lit "_443._tcp.x") [4; 95; 52; 52; 51; 4; 95; 116; 99; 112; 1; 120; 0].

Definition example_tlsa_record : ResourceRecord :=
  mk_record example_tlsa_name TYPE_TLSA CLASS_IN 300 35 41 [3; 1; 1; 170] 45.

Definition example_tlsa_out : list AnswerRecord :=
  [mk_answer example_tlsa_name TYPE_TLSA CLASS_IN 300
     ([4; 95; 52; 52; 51; 4; 95; 116; 99; 112; 1; 120; 0; 0; 52; 0; 1; 0; 0; 1; 44; 0; 4; 3; 1; 1; 170])].

Lemma example_tlsa_parses :
  parse_sections example_tlsa_answer =
    Ok (mk_header 0 33152 1 1 0 0, [mk_question example_tlsa_name TYPE_TLSA CLASS_IN 29],
        [example_tlsa_record], 45) ∧
  extract_answer_records example_tlsa_answer = Ok example_tlsa_out ∧
  len (reply_text (records_reply example_tlsa_answer example_tlsa_out)) ≤ MAX_REPLY_SIZE ∧
  tlsa_query (lit "tcp") (lit "x") = Ok (mk_tlsa_query (lit "_443._tcp.x") (lit "x")) ∧
  allows EndResolve record_method = true ∧ Forall scalar (lit "tcp") ∧
  Forall (λ r, (r_rr_type r = TYPE_TLSA ∧ r_class r = CLASS_IN) ∧ 3 ≤ len (r_rdata r))
    (answer_section (mk_header 0 33152 1 1 0 0) [example_tlsa_record]).
Proof.
  split_and!; [by vm_compute..|by apply lit_scalar|].
  constructor; [|constructor]; split; [done|by vm_compute].
Qed.

Lemma tlsa_shows_records_witness :
  ∃ c', tlsa_one (H := daemon_exchange (io := map_order) (example_env (λ _, id) example_tlsa_reply)
          (example_resolver AllowDowngrade TlsNo) 200 (lit "1") (inr 1000) (λ _, EndResolve)
          bytewise bytewise)
          (lit "socket") (mk_tlsa_query (lit "_443._tcp.x") (lit "x"))
          (mk_client (finite_world example_table) [] []) = (Ok (), c') ∧
    cl_out c' = lit "_443._tcp.x IN TLSA 3 1 1 aa" ++ [newline].
Proof.
  destruct example_tlsa_run as [w1 Hrun], example_tlsa_parses as (Hs & Hx & Hl & Hq & Ha & Hf & Hr).
  eexists; split.
  - exact (tlsa_shows_records (example_env (λ _, id) example_tlsa_reply)
      (example_resolver AllowDowngrade TlsNo) 200 map_order (lit "1") (inr 1000) (λ _, EndResolve)
      bytewise bytewise (lit "socket") (lit "tcp") (lit "x") (mk_tlsa_query (lit "_443._tcp.x") (lit "x"))
      (mk_client (finite_world example_table) [] []) example_tlsa_answer w1
      _ _ _ _ _ map_order_ok example_tlsa_env (example_waits _ _) bytewise_cuts bytewise_cuts
      Ha (example_inv _ _ example_table_wf) Hf ltac:(done) Hq Hrun Hs eq_refl Hx ltac:(done) Hr Hl).
  - by vm_compute.
Defined.

(** C39: servers given on the command line are those the link has.  When
    [resolvectl dns LINK SERVER...] succeeds and no other thread changes the link,
    the [DNSEx] property of the link shows exactly the servers of the command line:
    each of them once, with its family and octets, its TLS name, and its port, the
    ports 53 and 853 being shown as 0; they are in the order of the command line
    when no two of them are shown with the same address and port.  Nothing is
    printed. *)
Theorem resolvectl_dns_shown strerror object_path env self fuel (io : IterOrder XKey CacheEntry) files
    link i texts specs (c c' : Client World) :
  let H := bus_daemon strerror object_path env self fuel files in
  (∀ n sh, others env n sh = sh) → parse_ifindex link c = (Ok i, c) →
  mapM parse_server_spec texts = Ok specs → ctl_set_dns (link :: texts) c = (Ok (), c') →
  (∃ shown, (link_dns_ex env i (cl_peer c')).1 = Ok shown ∧ shows_servers shown (spec_entry <$> specs)) ∧
  cl_out c' = cl_out c ∧ cl_errors c' = cl_errors c.
Proof.
  intros H Halone Hi Hspecs; unfold ctl_set_dns, link_and_values, mbind, st_bind; rewrite Hi.
  unfold mret, st_ret; destruct (server_arguments i texts c) as [[entries| | |] c1] eqn:Ha; try done.
  apply server_arguments_specs in Ha as (-> & specs' & Hs & ->).
  assert (specs' = specs) as -> by congruence.
  unfold proxy_call, mbind, st_bind, get, put; unfold bus_call, H, bus_daemon; cbn [dbus_call].
  unfold answered, link_call, mbind, st_bind.
  destruct (dbus_set_dns_ex strerror env i (spec_entry <$> specs) (cl_peer c)) as [[[e|[]]| | |] w'] eqn:Hset;
    try done.
  intros [= <-]; split; [|done]; cbn [cl_peer].
  by apply (dns_ex_roundtrip strerror env i (spec_entry <$> specs) (cl_peer c) w').
Qed.

Definition example_server_texts : list str :=
  [lit "192.0.2.1:853#dns.example"; lit "192.0.2.2"; lit "192.0.2.1:53#dns.example"; lit "192.0.2.1:5353"].

Lemma resolvectl_dns_shown_witness :
  let H := bus_daemon (io := map_order) example_text example_path (example_env (λ _, id) [])
    (example_resolver AllowDowngrade TlsNo) 200 (λ _, inr []) in
  let c := mk_client example_world [] [] in
  let entries := [(2, [192; 0; 2; 1], 853, lit "dns.example"); (2, [192; 0; 2; 2], 53, []);
                  (2, [192; 0; 2; 1], 53, lit "dns.example"); (2, [192; 0; 2; 1], 5353, [])] in
  ∃ c', ctl_set_dns (lit "2" :: example_server_texts) c = (Ok (), c') ∧
    (∃ shown, (link_dns_ex (example_env (λ _, id) []) 2 (cl_peer c')).1 = Ok shown ∧
       shows_servers shown entries) ∧
    cl_out c' = [] ∧ cl_errors c' = [].
Proof.
  intros H c entries; destruct (ctl_set_dns (lit "2" :: example_server_texts) c) as [r c'] eqn:Hrun.
  assert (r = Ok ()) as -> by (apply (f_equal fst) in Hrun; by vm_compute in Hrun).
  exists c'; split; [done|].
  apply (resolvectl_dns_shown example_text example_path (example_env (λ _, id) [])
    (example_resolver AllowDowngrade TlsNo) 200 map_order (λ _, inr []) (lit "2") 2 example_server_texts
    [mk_spec (SockV4 [192; 0; 2; 1] 853) None (Some (lit "dns.example"));
     mk_spec (SockV4 [192; 0; 2; 2] 53) None None;
     mk_spec (SockV4 [192; 0; 2; 1] 53) None (Some (lit "dns.example"));
     mk_spec (SockV4 [192; 0; 2; 1] 5353) None None] c c'); [done|by vm_compute|by vm_compute|exact Hrun].
Defined.
